(* ===== verification/_CoqProject ===== *)
-Q . S2P
Prelude.v
GoFile.v
GoHash.v
RecordFile.v
InstanceStore.v
AttributeStore.v
HashIndex.v
ValueCodec.v
FreeList.v
TierSpace.v
ValueStore.v
StorageTree.v
Wire.v
WireMessage.v
Messages.v
AuthMessages.v
MeshMessages.v
Protocol.v
Utf8.v
MblTokens.v
MblLexer.v
GoFloat.v
GoTime.v
GoTimeFormat.v
MblValue.v
MblCompare.v
MblCoerce.v
MblPath.v
MblAst.v
MblParser.v
MblParserRules.v
MblParserTotal.v
MblParserCases.v
MblPrecedence.v
MblState.v
MblBuiltins.v
MblLibrary.v
MblEval.v
MblRun.v
MblWithin.v
MblSafe.v
MblEvalTotal.v
MblCommit.v
MblEvalRules.v
MblEvalCases.v
MblPassword.v
MeshIdentity.v
MeshDirectory.v
HashRing.v
MeshSubscription.v
MeshReplication.v
