(* ===== verification/Prelude.v ===== *)
(** * AmorphDB: a verification development of the database and its language

    AmorphDB is a temporal, path-addressed database in Go.  A client names data by
    a path ([world.agent.name]); writing a path keeps the earlier versions, which
    can be read back as of a time.  A daemon holds the database in a directory,
    talks to clients and other daemons over a binary protocol, and runs programs
    in MBL, a language of its own.  This development models the storage engine
    (src/internal/storage), the protocol (src/internal/protocol), the values and
    paths of MBL (src/internal/types) and the language from source text to result
    (src/internal/mbl/lexer, parser and interpreter), and proves what they do.

    ** Parts of the program and where they are modelled

    Shared:
    - [Prelude]: byte strings, Go's integer conversions, the results and stateful
      operations of Go functions ([res], [Op]), shared automation and lemmas.
    - [GoFile]: an [os.File] as the bytes it holds, with positioned reads and
      writes as Go has them (short reads, negative seeks, growth on write).
    - [GoHash]: SHA-256, FNV-1a and CRC-32 of the Go standard library, executable.
      Of CRC-32 it is proved that changing one byte changes it.
    - [GoFloat], [GoTime], [GoTimeFormat], [Utf8]: float64 as its bits, with exact
      arithmetic; the Gregorian calendar; the layouts of [time.Parse] and
      [Format] in use; runes, [TrimSpace].

    Storage:
    - [RecordFile]: a file that is an array of fixed-size records.
    - [InstanceStore] (instances.go): versions, 32-byte records chained from the
      newest to the oldest; temporal lookup and purge.
    - [AttributeStore] (attributes.go): 24-byte records that tie a label to its
      newest version.
    - [HashIndex] (hashindex.go): the chained hash table from labels to attributes,
      behind the class [LabelIndex] of what the tree needs of an index.
    - [ValueCodec] (the pure part of values.go): type tags, value records, the
      packing of tier, bucket and offset into value IDs.
    - [FreeList] (freelist.go): free blocks of a value file, first-fit allocation,
      the recovery scan.
    - [TierSpace]: a file tiled by live records and free blocks, the invariant of
      each value file.
    - [ValueStore] (values.go): values by size tier in bucket files or one large
      file, found by content through a hash map, counted by reference.
    - [StorageTree] (tree.go): the database; a path is one dot-joined label, whose
      value ID the index maps to an attribute.

    Protocol:
    - [Wire] (the frame, the field encoders and readers of encode.go and decode.go),
      [WireMessage] (the class of messages with a codec, and the automation that
      proves its laws), [Messages], [AuthMessages], [MeshMessages] (the message
      structs of messages.go with their encoders and decoders), [Protocol] (what
      holds of all messages at once).

    MBL, values:
    - [MblValue] (types.go, serialize.go): the values and their binary form;
      [MblCompare] (compare.go); [MblCoerce] (coerce.go): coercions, operators,
      time literals; [MblPath] (path.go, agent.go): forms of paths, agent types.

    MBL, syntax:
    - [MblTokens], [MblLexer] (tokens.go, lexer.go): the tokenizer, with indentation.
    - [MblAst] (ast.go): syntax trees and their printing; [MblParser] (parser.go);
      [MblParserRules] and [MblParserTotal]: Hoare-like rules for the parser and
      what follows for all sources; [MblPrecedence]: a reference grammar of the
      operators; [MblParserCases]: particular sources.

    MBL, evaluation (interpreter.go, coordinator.go, crypto.go):
    - [MblState]: the interpreter's state (scopes, commit buffer, procedures,
      watchers, the arrays that paths share), the classes it runs on ([Tree], the
      database; [GoLib], pure functions of Go; [External], the world outside).
    - [MblBuiltins], [MblLibrary]: functions and operators without effects; the
      libraries of my.computer (commands, files, XML, requests, passwords).
    - [MblEval]: expressions, statements, procedures, watchers, programs, one
      definition per method.  [MblRun]: a source run on a database, with
      [StorageTree] as the database.
    - [MblWithin]: the depth of programs; [MblSafe]: the invariant every method
      keeps; [MblEvalTotal], [MblCommit], [MblEvalRules], [MblEvalCases],
      [MblPassword]: what follows for programs.

    A struct of the source is a [Record]; a method is a definition of the same
    name, an [Op] when it changes its receiver: a state keeps the changes made
    before an error.  Error values are their messages without the interpolated
    numbers where nothing reads them.  Constants and type tags have the source's
    names.

    ** How the parts interact

    [StorageTree.WriteReportingChange] writes the value and the path's label to
    the value store, finds or creates the attribute through the index, and if the
    current instance has another value appends an instance and repoints the
    attribute.  [Read] and [ReadAt] go from the label's value ID through the index
    to the attribute, its instance chain and the value; looking up a label that
    does not exist writes it.  [NewStorageTree] recovers the free lists, the
    content map and the index from the files alone.  The connection layer frames
    encoded messages; [Protocol.send] and [Protocol.receive] compose what it calls.

    [MblRun.execute] is what the daemon calls with the text of a program:
    [MblParser.parse] drives [MblLexer.NextToken], [MblEval.Interpret] evaluates
    the statements, which stage their writes in the commit buffer; its
    [conclude] discards them or flushes them to the tree, version by version, or
    hands them to the commit coordinator, and announces the changed paths to the
    watchers.  Values cross between MBL and the tree in the form of [MblValue].

    ** What the theorems show

    - Specification of the database: [StorageTree.tree_implements_histories], a
      refinement of the tree, over any index with the [LabelIndex] laws, by a map
      from labels to version histories; its value and index layers are
      [ValueStore.store_implements_refcounted_map] and
      [HashIndex.table_refines_map].  Temporal lookup:
      [InstanceStore.find_at_time_correct].
    - Programs on the database: [MblCommit.commit_pushes_the_writes] composes the
      interpreter's commit with that refinement, [MblCommit.committed_writes_are_read]
      says that every staged write is read back,
      [MblEvalTotal.failed_program_changes_nothing] that a program that rolls back
      leaves every version as it was, [MblEvalRules.assigned_path_is_read] and
      [MblEvalRules.assigned_variable_is_read] what an assignment does before.
    - Termination: [MblEvalTotal.interpreter_total] and
      [MblEvalTotal.execution_ends] for programs, [MblParserTotal.parser_total],
      [MblLexer.lexer_total], [Protocol.decoders_total].
    - Syntax: [MblPrecedence.operators_follow_the_grammar],
      [MblParserTotal.error_free_is_complete], [MblLexer.indentation_balanced],
      [MblLexer.text_literal_roundtrip].
    - Values: [MblValue.value_roundtrip], [MblCompare.comparison_laws],
      [MblCompare.time_equality_by_fields], [MblCoerce.time_literal_roundtrip],
      [MblCoerce.arithmetic_results], [MblEvalRules.unknown_goes_through].
    - Space: [FreeList.allocate_takes_free_space], [FreeList.add_block_frees],
      [FreeList.rebuild_recovers_tombstones].
    - Encodings: [Wire.frame_roundtrip], [Protocol.message_over_frame] and the
      round trips of the groups of messages; [MblPassword.password_roundtrip].
    - Where the program falls short of its intent, the failure is a theorem:
      [InstanceStore.purge_severs_older_versions],
      [FreeList.rebuild_loses_place_at_money], [StorageTree.restart_loses_long_paths],
      [ValueStore.reopen_keeps_reads_forgets_hashes],
      [Messages.empty_value_unreadable], [Messages.purge_ack_loses_error],
      [MeshMessages.mesh_status_lossy], [MblValue.text_length_wraps],
      [MblParserTotal.refused_calls_leak_depth], and the examples of
      [MblParserCases] and [MblEvalCases].

    ** Assumptions, bounds and fuel

    Theorems about the value store and the tree assume that the values in play
    have distinct SHA-256 hashes (a predicate [P] of values on which the hash is
    injective), that file offsets stay below the ID format's 2^40 bytes and that
    IDs and times fit their machine integers; each witness meets them with real
    hashes.  Tables of Unicode, printing and parsing of floats, and in the
    interpreter everything of the classes [Tree], [GoLib] and [External], are
    arguments of the definitions, about which nothing is assumed unless a theorem
    says so; [MblRun] has concrete instances.

    Fuel: the walk of an instance chain takes the ID plus one, since chains point
    backwards; the recovery scan the file's size, since each record has at least
    two bytes; a payload decoder the payload's length, since each iteration reads
    its tag.  The parser's loops take a measure of the lexer's state, its
    recursion the depth limit of 1000 and, for the parsers of interpolated texts,
    the length of the source.  The interpreter recurses by levels: a program of
    nesting depth D, with procedures of depth at most D, needs
    D + 1000 (D + 1) of them ([MblEvalTotal.program_fuel]), as calls nest 1000 deep;
    each theorem about fuel says that more is as good.

    Simplifications: a map is the list of its entries in the order an iteration
    takes, any order; all NaNs are one; the trees of the parser are values; the
    arguments of a panic's message are left out; [RecordExpression.Pairs], which
    the parser never fills, is left out.

    ** Not modelled

    Locks and goroutines (every method holds its store's lock throughout), I/O
    errors other than short reads and bad seeks, allocation failure, and the order
    of unsynchronised writes at a crash.  The clock is an argument.  Of storage,
    the defragmenter, the tree adapters and the agent and bridge helpers are left
    out; so are the message structs without a codec.  Of the interpreter, the
    import of fixed-width files (a compiler of its own, src/internal/ari) and the
    coordinator's flush over zones; JSON, XML tokens, HTTP, processes and Argon2
    belong to libraries.  Security, identities, mesh, subscriptions, the watcher
    engine, and the service, client and web layers are not modelled.

    The order of further work: security rules, watchers and subscriptions, the
    mesh's zone assignment and elections, the fixed-width importer, listings of
    children and purges at the level of histories, the defragmenter and tree
    adapters. *)
From stdpp Require Export base gmap list strings sorting.
From coqutil Require Export Byte Word.LittleEndianList.
From Stdlib Require Export ZArith Lia.

Global Open Scope Z_scope.

(** ** Byte strings

    A Go [string] or [[]byte] is a sequence of bytes.  No invariant is needed
    on its elements because [byte] is the 256-valued type. *)
Abbreviation bytes := (list byte).

(** The bytes of a string literal. *)
Definition b (s : string) : list byte := String.list_byte_of_string s.

#[global] Instance byte_eq_dec : EqDecision byte := Byte.byte_eq_dec.
#[global] Program Instance byte_countable : Countable byte :=
  inj_countable Byte.to_N Byte.of_N _.
Next Obligation. intros x. apply Byte.of_to_N. Qed.

(** Length of a byte string as the Go [len], an integer. *)
Definition len {A} (l : list A) : Z := Z.of_nat (length l).

(** ** Machine integers: wrap-around of Go's conversions *)
Definition u8 (z : Z) : Z := z mod 2 ^ 8.
Definition u32 (z : Z) : Z := z mod 2 ^ 32.
Definition u64 (z : Z) : Z := z mod 2 ^ 64.
Definition i32 (z : Z) : Z := (z + 2 ^ 31) mod 2 ^ 32 - 2 ^ 31.
Definition i64 (z : Z) : Z := (z + 2 ^ 63) mod 2 ^ 64 - 2 ^ 63.

Definition is_u32 (z : Z) : Prop := 0 ≤ z < 2 ^ 32.
Definition is_u64 (z : Z) : Prop := 0 ≤ z < 2 ^ 64.
Definition is_i32 (z : Z) : Prop := - 2 ^ 31 ≤ z < 2 ^ 31.
Definition is_i64 (z : Z) : Prop := - 2 ^ 63 ≤ z < 2 ^ 63.

#[global] Instance is_u32_dec z : Decision (is_u32 z).
Proof. unfold is_u32; apply _. Defined.
#[global] Instance is_u64_dec z : Decision (is_u64 z).
Proof. unfold is_u64; apply _. Defined.
#[global] Instance is_i32_dec z : Decision (is_i32 z).
Proof. unfold is_i32; apply _. Defined.
#[global] Instance is_i64_dec z : Decision (is_i64 z).
Proof. unfold is_i64; apply _. Defined.

(** ** Fixed-width encodings ([encoding/binary])

    [le n z] are the [n] little-endian bytes of [z], [be n z] the big-endian
    ones; [unle] and [unbe] read them back. *)
Definition le (n : nat) (z : Z) : list byte := le_split n z.
Definition unle (l : list byte) : Z := le_combine l.
Definition be (n : nat) (z : Z) : list byte := rev (le_split n z).
Definition unbe (l : list byte) : Z := le_combine (rev l).

(** ** Results of Go functions

    [Ok] is a nil error, [Err] a non-nil one (its message without the
    interpolated numbers), [Panic] a run-time panic. *)
Inductive res (A : Type) : Type :=
  | Ok (a : A)
  | Err (msg : string)
  | Panic (msg : string).
Arguments Ok {A} a.
Arguments Err {A} msg.
Arguments Panic {A} msg.

#[global] Instance res_ret : MRet res := λ A a, Ok a.
#[global] Instance res_bind : MBind res := λ A B f m,
  match m with Ok a => f a | Err e => Err e | Panic e => Panic e end.
#[global] Instance res_fmap : FMap res := λ A B f m,
  match m with Ok a => Ok (f a) | Err e => Err e | Panic e => Panic e end.

(** [fmt.Errorf("ctx: %w", err)]. *)
Definition wrap_res {A} (ctx : string) (m : res A) : res A :=
  match m with Err e => Err (ctx +:+ ": " +:+ e) | _ => m end.

Definition is_ok {A} (m : res A) : bool :=
  match m with Ok _ => true | _ => false end.
Definition is_err {A} (m : res A) : bool :=
  match m with Err _ => true | _ => false end.

(** ** Stateful operations

    A Go method that changes its receiver and returns [(A, error)]: the state
    it leaves is kept also when it returns an error. *)
Definition Op (S A : Type) : Type := S → S * res A.

#[global] Instance op_ret {S} : MRet (Op S) := λ A a s, (s, Ok a).
#[global] Instance op_bind {S} : MBind (Op S) := λ A B f m s,
  match m s with
  | (s', Ok a) => f a s'
  | (s', Err e) => (s', Err e)
  | (s', Panic e) => (s', Panic e)
  end.

Definition op_get {S} : Op S S := λ s, (s, Ok s).
Definition op_put {S} (s : S) : Op S unit := λ _, (s, Ok tt).
Definition op_modify {S} (f : S → S) : Op S unit := λ s, (f s, Ok tt).
Definition op_lift {S A} (r : res A) : Op S A := λ s, (s, r).
Definition op_err {S A} (msg : string) : Op S A := λ s, (s, Err msg).
Definition op_wrap {S A} (ctx : string) (m : Op S A) : Op S A :=
  λ s, let '(s', r) := m s in (s', wrap_res ctx r).
(** Run [m] and hand its error to the caller's own test ([if err != nil]). *)
Definition op_try {S A} (m : Op S A) : Op S (res A) :=
  λ s, match m s with (s', Panic e) => (s', Panic e) | (s', r) => (s', Ok r) end.
(** An operation on a field of the state. *)
Definition op_zoom {S T A} (get : T → S) (set : S → T → T) (m : Op S A) : Op T A :=
  λ t, let '(s', r) := m (get t) in (set s' t, r).

(** ** Automation *)
Ltac inv H := inversion H; subst; clear H.

(** Case analysis on the scrutinee of a [match] in a hypothesis or the goal. *)
Ltac case_goal := match goal with |- context [match ?x with _ => _ end] => destruct x eqn:? end.
Ltac case_hyp H := match type of H with context [match ?x with _ => _ end] => destruct x eqn:? end.

(** Compute the binds of a result whose head is known, and nothing else. *)
Ltac ress := cbn [mbind res_bind mret res_ret fmap res_fmap wrap_res fst snd].

Create HintDb amorph discriminated.
Create HintDb len discriminated.

(** ** Lemmas: lengths and encodings *)
Lemma len_nil {A} : len (@nil A) = 0.
Proof. reflexivity. Qed.
Lemma len_cons {A} (x : A) l : len (x :: l) = 1 + len l.
Proof. unfold len. simpl length. lia. Qed.
Lemma len_app {A} (l k : list A) : len (l ++ k) = len l + len k.
Proof. unfold len. rewrite length_app. lia. Qed.
Lemma len_nonneg {A} (l : list A) : 0 ≤ len l.
Proof. unfold len. lia. Qed.
Lemma len_replicate {A} n (x : A) : len (replicate n x) = Z.of_nat n.
Proof. unfold len. by rewrite length_replicate. Qed.
Lemma len_take {A} n (l : list A) : len (take n l) = Z.min (Z.of_nat n) (len l).
Proof. unfold len. rewrite length_take. lia. Qed.
Lemma len_drop {A} n (l : list A) : len (drop n l) = Z.max 0 (len l - Z.of_nat n).
Proof. unfold len. rewrite length_drop. lia. Qed.
Lemma len_insert {A} i (x : A) l : len (<[i:=x]> l) = len l.
Proof. unfold len. by rewrite length_insert. Qed.

Lemma length_le n z : length (le n z) = n.
Proof. apply length_le_split. Qed.
Lemma length_be n z : length (be n z) = n.
Proof. unfold be. rewrite length_rev. apply length_le_split. Qed.
Lemma len_le n z : len (le n z) = Z.of_nat n.
Proof. unfold len. by rewrite length_le. Qed.
Lemma len_be n z : len (be n z) = Z.of_nat n.
Proof. unfold len. by rewrite length_be. Qed.

#[export] Hint Rewrite @len_nil @len_cons @len_app @len_replicate @len_take @len_drop
  @len_insert len_le len_be : len.

(** Normalise lengths, then decide. *)
Ltac lens := autorewrite with len in *; try lia.

Lemma unle_le n z : unle (le n z) = z mod 2 ^ (Z.of_nat n * 8).
Proof. apply le_combine_split. Qed.
Lemma unbe_be n z : unbe (be n z) = z mod 2 ^ (Z.of_nat n * 8).
Proof. unfold unbe, be. rewrite rev_involutive. apply le_combine_split. Qed.
Lemma le_unle n l : length l = n → le n (unle l) = l.
Proof. intros <-. apply split_le_combine. Qed.
Lemma be_unbe n l : length l = n → be n (unbe l) = l.
Proof.
  intros <-. unfold be, unbe. rewrite <- (length_rev l).
  rewrite split_le_combine. apply rev_involutive.
Qed.
Lemma unle_bound l : 0 ≤ unle l < 2 ^ (8 * len l).
Proof. apply le_combine_bound. Qed.
Lemma unbe_bound l : 0 ≤ unbe l < 2 ^ (8 * len l).
Proof. unfold unbe, len. rewrite <- (length_rev l). apply le_combine_bound. Qed.

Lemma unle_le_small n z : 0 ≤ z < 2 ^ (Z.of_nat n * 8) → unle (le n z) = z.
Proof. intros. rewrite unle_le. by apply Z.mod_small. Qed.
Lemma unbe_be_small n z : 0 ≤ z < 2 ^ (Z.of_nat n * 8) → unbe (be n z) = z.
Proof. intros. rewrite unbe_be. by apply Z.mod_small. Qed.

Lemma u64_small z : is_u64 z → u64 z = z.
Proof. apply Z.mod_small. Qed.
Lemma u32_small z : is_u32 z → u32 z = z.
Proof. apply Z.mod_small. Qed.
Lemma i64_small z : is_i64 z → i64 z = z.
Proof. unfold is_i64, i64. intros. rewrite Z.mod_small; lia. Qed.
Lemma i32_small z : is_i32 z → i32 z = z.
Proof. unfold is_i32, i32. intros. rewrite Z.mod_small; lia. Qed.
Lemma u64_range z : is_u64 (u64 z).
Proof. apply Z.mod_pos_bound. lia. Qed.
Lemma i64_range z : is_i64 (i64 z).
Proof. unfold is_i64, i64. pose proof (Z.mod_pos_bound (z + 2 ^ 63) (2 ^ 64)). lia. Qed.

Lemma i32_range z : is_i32 (i32 z).
Proof. unfold is_i32, i32. pose proof (Z.mod_pos_bound (z + 2 ^ 31) (2 ^ 32)). lia. Qed.

(** Reinterpreting a 64-bit word as signed and back loses nothing. *)
Lemma i64_u64 z : is_i64 z → i64 (u64 z) = z.
Proof.
  unfold is_i64, i64, u64. intros. rewrite Zplus_mod_idemp_l, Z.mod_small; lia.
Qed.
Lemma u64_i64 z : is_u64 z → u64 (i64 z) = z.
Proof.
  unfold is_u64, i64, u64. intros. rewrite Zminus_mod_idemp_l.
  replace (z + 2 ^ 63 - 2 ^ 63) with z by lia. apply Z.mod_small; lia.
Qed.
Lemma i32_u32 z : is_i32 z → i32 (u32 z) = z.
Proof.
  unfold is_i32, i32, u32. intros. rewrite Zplus_mod_idemp_l, Z.mod_small; lia.
Qed.

(** ** Lemmas: slices of byte strings *)
Lemma take_app_len {A} (l k : list A) : take (length l) (l ++ k) = l.
Proof. by rewrite take_app_length. Qed.
Lemma drop_app_len {A} (l k : list A) : drop (length l) (l ++ k) = k.
Proof. by rewrite drop_app_length. Qed.
Lemma take_le n z : take n (le n z) = le n z.
Proof. apply take_ge. by rewrite length_le. Qed.
Lemma take_be n z : take n (be n z) = be n z.
Proof. apply take_ge. by rewrite length_be. Qed.
Lemma take_le_app n z k : take n (le n z ++ k) = le n z.
Proof. rewrite <- (length_le n z) at 1. apply take_app_len. Qed.
Lemma drop_le_app n z k : drop n (le n z ++ k) = k.
Proof. rewrite <- (length_le n z) at 1. apply drop_app_len. Qed.
Lemma drop_le_app_add n m z k : drop (n + m) (le n z ++ k) = drop m k.
Proof. rewrite <- (length_le n z) at 1. apply drop_app_add. Qed.
Lemma take_be_app n z k : take n (be n z ++ k) = be n z.
Proof. rewrite <- (length_be n z) at 1. apply take_app_len. Qed.
Lemma drop_be_app n z k : drop n (be n z ++ k) = k.
Proof. rewrite <- (length_be n z) at 1. apply drop_app_len. Qed.

(** ** Lemmas: running stateful operations *)
Lemma op_bind_ok {S A B} (m : Op S A) (f : A → Op S B) s s' a :
  m s = (s', Ok a) → (m ≫= f) s = f a s'.
Proof. intros Hm. unfold mbind, op_bind. by rewrite Hm. Qed.
Lemma op_bind_err {S A B} (m : Op S A) (f : A → Op S B) s s' e :
  m s = (s', Err e) → (m ≫= f) s = (s', Err e).
Proof. intros Hm. unfold mbind, op_bind. by rewrite Hm. Qed.
Lemma op_wrap_ok {S A} ctx (m : Op S A) s s' a :
  m s = (s', Ok a) → op_wrap ctx m s = (s', Ok a).
Proof. intros Hm. unfold op_wrap. by rewrite Hm. Qed.
Lemma op_try_ok {S A} (m : Op S A) s s' a :
  m s = (s', Ok a) → op_try m s = (s', Ok (Ok a)).
Proof. intros Hm. unfold op_try. by rewrite Hm. Qed.
Lemma op_zoom_ok {S T A} (get : T → S) set (m : Op S A) t s' a :
  m (get t) = (s', Ok a) → op_zoom get set m t = (set s' t, Ok a).
Proof. intros Hm. unfold op_zoom. by rewrite Hm. Qed.
