(* ===== verification/GoFile.v ===== *)
(** * Files ([os.File])

    The operations of an open regular file the storage engine uses: [Stat]'s
    size, [Seek] from the start, [Read] into a buffer and [Write].  A file is
    its bytes.  Reads can be short: [Read] fills as much of the buffer as the
    file has and leaves the rest zero, as Go's [make] did.  Failures of the
    device (full disk, I/O error) are not modelled. *)
From S2P Require Import Prelude.

Abbreviation file := (list byte).

Definition fsize (f : file) : Z := len f.

(** [file.Seek(off, 0)]: a negative offset is the only error. *)
Definition seek (off : Z) : res unit :=
  if off <? 0 then Err "invalid argument" else Ok tt.

(** [buf := make([]byte, n); m, err := file.Read(buf)] at offset [off]:
    the buffer and the count, [EOF] at or past the end of the file. *)
Definition read_at (f : file) (off n : Z) : res (list byte * Z) :=
  if n =? 0 then Ok ([], 0)
  else if fsize f <=? off then Err "EOF"
  else
    let got := take (Z.to_nat n) (drop (Z.to_nat off) f) in
    Ok (got ++ replicate (Z.to_nat n - length got) Byte.x00, len got).

(** [file.Write(data)] at offset [off]: overwrite in place, extend at the end,
    and leave a gap of zeros when [off] lies past the end. *)
Definition write_at (f : file) (off : Z) (data : list byte) : file :=
  let o := Z.to_nat off in
  if (o <=? length f)%nat
  then take o f ++ data ++ drop (o + length data) f
  else f ++ replicate (o - length f) Byte.x00 ++ data.

(** The [n] bytes at [off]. *)
Definition slice (f : file) (off n : Z) : list byte :=
  take (Z.to_nat n) (drop (Z.to_nat off) f).

(** ** Lemmas *)

Lemma lookup_write_at (f : file) off data i :
  0 ≤ off ≤ fsize f →
  write_at f off data !! i =
    if decide (Z.to_nat off ≤ i < Z.to_nat off + length data)%nat
    then data !! (i - Z.to_nat off)%nat else f !! i.
Proof.
  unfold fsize, len, write_at. intros Hoff.
  set (o := Z.to_nat off) in *. assert (Ho : (o ≤ length f)%nat) by lia.
  rewrite (proj2 (Nat.leb_le _ _) Ho).
  destruct (decide (i < o)%nat).
  { rewrite decide_False by lia. rewrite lookup_app_l by (rewrite length_take; lia).
    by rewrite lookup_take_lt. }
  rewrite lookup_app_r, length_take, Nat.min_l by (rewrite ?length_take; lia).
  case_decide.
  - by rewrite lookup_app_l by lia.
  - rewrite lookup_app_r, lookup_drop by lia. f_equal. lia.
Qed.

Lemma fsize_write_at f off data :
  0 ≤ off ≤ fsize f → fsize (write_at f off data) = Z.max (fsize f) (off + len data).
Proof.
  unfold fsize, len, write_at. intros Hoff.
  rewrite (proj2 (Nat.leb_le _ _)) by lia.
  rewrite !length_app, length_take, length_drop. lia.
Qed.

Lemma write_at_append f data : write_at f (fsize f) data = f ++ data.
Proof.
  unfold write_at, fsize, len. rewrite Nat2Z.id, Nat.leb_refl, take_ge, drop_ge by lia.
  by rewrite app_nil_r.
Qed.

Lemma lookup_slice (f : file) off n i :
  slice f off n !! i =
    if decide (i < Z.to_nat n)%nat then f !! (Z.to_nat off + i)%nat else None.
Proof.
  unfold slice. case_decide.
  - by rewrite lookup_take_lt, lookup_drop.
  - apply lookup_take_ge. lia.
Qed.

Lemma len_slice f off n :
  0 ≤ off → 0 ≤ n → off + n ≤ fsize f → len (slice f off n) = n.
Proof. unfold slice, fsize, len. rewrite length_take, length_drop. lia. Qed.

Lemma slice_write_at_same f off data :
  0 ≤ off ≤ fsize f → slice (write_at f off data) off (len data) = data.
Proof.
  intros. apply list_eq. intros i. rewrite lookup_slice, lookup_write_at by done.
  unfold len. case_decide.
  - rewrite decide_True by lia. f_equal. lia.
  - symmetry. apply lookup_ge_None. lia.
Qed.

Lemma slice_write_at_other f off data off' n :
  0 ≤ off ≤ fsize f → 0 ≤ off' → 0 ≤ n →
  off' + n ≤ off ∨ off + len data ≤ off' →
  slice (write_at f off data) off' n = slice f off' n.
Proof.
  unfold len. intros. apply list_eq. intros i.
  rewrite !lookup_slice, lookup_write_at by done. case_decide; [|done].
  rewrite decide_False by lia. done.
Qed.

Lemma slice_app_l f g off n :
  0 ≤ off → 0 ≤ n → off + n ≤ fsize f → slice (f ++ g) off n = slice f off n.
Proof.
  unfold fsize, len. intros. apply list_eq. intros i. rewrite !lookup_slice.
  case_decide; [|done]. apply lookup_app_l. lia.
Qed.

Lemma slice_app_r f g off n :
  fsize f ≤ off → slice (f ++ g) off n = slice g (off - fsize f) n.
Proof.
  unfold fsize, len. intros. apply list_eq. intros i. rewrite !lookup_slice.
  case_decide; [|done]. rewrite lookup_app_r by lia. f_equal. lia.
Qed.

Lemma slice_0_len g : slice g 0 (len g) = g.
Proof. unfold slice, len. rewrite Nat2Z.id. apply take_ge. simpl. lia. Qed.

Lemma slice_slice f off n a m :
  0 ≤ off → 0 ≤ a → 0 ≤ m → a + m ≤ n →
  slice (slice f off n) a m = slice f (off + a) m.
Proof.
  intros. apply list_eq. intros i. rewrite !lookup_slice.
  case_decide; [|done]. rewrite decide_True by lia. f_equal. lia.
Qed.

(** A slice of a slice at a known position. *)
Lemma slice_eq_app f off n1 n2 a c :
  0 ≤ off → slice f off (n1 + n2) = a ++ c → len a = n1 → len c = n2 →
  slice f off n1 = a ∧ slice f (off + n1) n2 = c.
Proof.
  intros Hoff Hs Ha Hc. pose proof (len_nonneg a). pose proof (len_nonneg c). split.
  - replace off with (off + 0) by lia.
    rewrite <- (slice_slice f off (n1 + n2)) by lia. rewrite Hs.
    rewrite slice_app_l by (unfold fsize; lia). subst n1. apply slice_0_len.
  - rewrite <- (slice_slice f off (n1 + n2)) by lia. rewrite Hs.
    rewrite slice_app_r by (unfold fsize; lia). unfold fsize. rewrite Ha, Z.sub_diag.
    subst n2. apply slice_0_len.
Qed.

Lemma read_at_slice f off n :
  0 ≤ off → 0 < n → off + n ≤ fsize f → read_at f off n = Ok (slice f off n, n).
Proof.
  intros Hoff Hn Hsz. unfold read_at.
  rewrite (proj2 (Z.eqb_neq _ _)) by lia. rewrite (proj2 (Z.leb_gt _ _)) by lia.
  change (take (Z.to_nat n) (drop (Z.to_nat off) f)) with (slice f off n).
  pose proof (len_slice f off n Hoff) as Hl. rewrite Hl by lia. unfold len in Hl.
  replace (Z.to_nat n - length (slice f off n))%nat with 0%nat by lia.
  cbn [replicate]. by rewrite app_nil_r.
Qed.

Lemma read_at_eof f off n : 0 < n → fsize f ≤ off → read_at f off n = Err "EOF".
Proof.
  intros. unfold read_at. rewrite (proj2 (Z.eqb_neq _ _)) by lia.
  by rewrite (proj2 (Z.leb_le _ _)) by lia.
Qed.

Lemma seek_ok off : 0 ≤ off → seek off = Ok tt.
Proof. intros. unfold seek. by rewrite (proj2 (Z.ltb_ge _ _)) by lia. Qed.
Lemma seek_neg off : off < 0 → seek off = Err "invalid argument".
Proof. intros. unfold seek. by rewrite (proj2 (Z.ltb_lt _ _)) by lia. Qed.
