(* ===== verification/GoHash.v ===== *)
(** * Checksums of the Go standard library

    [crypto/sha256], [hash/fnv] (64-bit FNV-1a) and [hash/crc32] (IEEE), the
    three hashes the engine uses: SHA-256 names stored values, FNV-1a spreads
    labels over the hash index's buckets, CRC-32 guards wire frames.  They are
    executable, so concrete runs of the engine evaluate in the kernel. *)
From S2P Require Import Prelude.

(** ** SHA-256 (FIPS 180-4) *)
Definition rotr32 (n x : Z) : Z :=
  Z.lor (Z.shiftr x n) (u32 (Z.shiftl x (32 - n))).

(** The constants by their definition in the standard: the first 32 bits of the
    fractional parts of the cube roots of the first 64 primes, and of the square
    roots of the first eight. *)
Definition is_prime (p : Z) : bool :=
  (1 <? p) && forallb (λ d, negb (p mod d =? 0)) (seqZ 2 (p - 2)).
Definition primes_below (n : Z) : list Z := filter is_prime (seqZ 0 n).

(** The integer cube root, bit by bit from bit [n - 1]. *)
Fixpoint cube_root (n : nat) (x root : Z) : Z :=
  match n with
  | O => root
  | S n =>
      let next := root + 2 ^ Z.of_nat n in
      cube_root n x (if next ^ 3 <=? x then next else root)
  end.

Definition sha_K : list Z :=
  Eval vm_compute in (λ p, u32 (cube_root 36 (p * 2 ^ 96) 0)) <$> primes_below 312.
Definition sha_H0 : list Z :=
  Eval vm_compute in (λ p, u32 (Z.sqrt (p * 2 ^ 64))) <$> primes_below 20.

Definition sha_s0 x := Z.lxor (Z.lxor (rotr32 7 x) (rotr32 18 x)) (Z.shiftr x 3).
Definition sha_s1 x := Z.lxor (Z.lxor (rotr32 17 x) (rotr32 19 x)) (Z.shiftr x 10).
Definition sha_S0 x := Z.lxor (Z.lxor (rotr32 2 x) (rotr32 13 x)) (rotr32 22 x).
Definition sha_S1 x := Z.lxor (Z.lxor (rotr32 6 x) (rotr32 11 x)) (rotr32 25 x).
Definition sha_ch x y z := Z.lxor (Z.land x y) (Z.land (Z.lxor x (2 ^ 32 - 1)) z).
Definition sha_maj x y z := Z.lxor (Z.lxor (Z.land x y) (Z.land x z)) (Z.land y z).

(** The message schedule, newest word first. *)
Fixpoint sha_extend (n : nat) (w : list Z) : list Z :=
  match n with
  | O => w
  | S n =>
      let x := u32 (sha_s1 (nth 1 w 0) + nth 6 w 0 + sha_s0 (nth 14 w 0) + nth 15 w 0) in
      sha_extend n (x :: w)
  end.

Definition sha_round (st : list Z) (kw : Z * Z) : list Z :=
  match st with
  | [a; b; c; d; e; f; g; h] =>
      let t1 := h + sha_S1 e + sha_ch e f g + kw.1 + kw.2 in
      let t2 := sha_S0 a + sha_maj a b c in
      [u32 (t1 + t2); a; b; c; u32 (d + t1); e; f; g]
  | _ => st
  end.

Definition sha_words (blk : list byte) : list Z :=
  (λ i, unbe (take 4 (drop (4 * i) blk))) <$> seq 0 16.

Definition sha_block (st : list Z) (blk : list byte) : list Z :=
  let w := rev (sha_extend 48 (rev (sha_words blk))) in
  zip_with (λ x y, u32 (x + y)) st (fold_left sha_round (zip sha_K w) st).

Definition sha_pad (m : list byte) : list byte :=
  let zeros := Z.to_nat ((55 - len m) mod 64) in
  m ++ Byte.x80 :: replicate zeros Byte.x00 ++ be 8 (8 * len m).

Fixpoint sha_blocks (fuel : nat) (st : list Z) (m : list byte) : list Z :=
  match fuel with
  | O => st
  | S fuel =>
      match m with
      | [] => st
      | _ => sha_blocks fuel (sha_block st (take 64 m)) (drop 64 m)
      end
  end.

(** [sha256.Sum256] *)
Definition sha256 (m : list byte) : list byte :=
  let p := sha_pad m in
  mjoin (be 4 <$> sha_blocks (length p) sha_H0 p).

(** ** FNV-1a, 64 bits: [fnv.New64a(); h.Write(bs); h.Sum64()] *)
Definition fnv64a (bs : list byte) : Z :=
  fold_left (λ h c, u64 (Z.lxor h (byte.unsigned c) * 0x100000001b3)) bs 0xcbf29ce484222325.

(** ** CRC-32, IEEE polynomial: [crc32.ChecksumIEEE] *)
Definition crc_poly : Z := 0xEDB88320.
Definition crc_shift (c : Z) : Z :=
  if Z.testbit c 0 then Z.lxor (Z.shiftr c 1) crc_poly else Z.shiftr c 1.
Definition crc_entry (i : Z) : Z := Nat.iter 8 crc_shift i.
Definition crc_table : list Z := crc_entry <$> (Z.of_nat <$> seq 0 256).
Definition crc_update (crc : Z) (v : byte) : Z :=
  Z.lxor (nth (Z.to_nat (Z.lxor (u8 crc) (byte.unsigned v))) crc_table 0) (Z.shiftr crc 8).
Definition crc32 (bs : list byte) : Z :=
  Z.lxor (fold_left crc_update bs (2 ^ 32 - 1)) (2 ^ 32 - 1).

(** Published test vectors. *)
Definition hex (l : list byte) : Z := unbe l.

Example sha256_abc : hex (sha256 (b "abc")) =
  0xba7816bf8f01cfea414140de5dae2223b00361a396177a9cb410ff61f20015ad.
Proof. vm_compute. reflexivity. Qed.

Example sha256_empty : hex (sha256 []) =
  0xe3b0c44298fc1c149afbf4c8996fb92427ae41e4649b934ca495991b7852b855.
Proof. vm_compute. reflexivity. Qed.

Example sha256_two_blocks :
  hex (sha256 (b "abcdbcdecdefdefgefghfghighijhijkijkljklmklmnlmnomnopnopq")) =
  0x248d6a61d20638b8e5c026930c3e6039a33ce45964ff2167f6ecedd419db06c1.
Proof. vm_compute. reflexivity. Qed.

Example fnv64a_foobar : fnv64a (b "foobar") = 0x85944171f73967e8.
Proof. vm_compute. reflexivity. Qed.

Example crc32_check : crc32 (b "123456789") = 0xCBF43926.
Proof. vm_compute. reflexivity. Qed.

(** ** CRC-32 detects every change confined to one byte *)

Lemma byte_unsigned_range v : 0 ≤ byte.unsigned v < 256.
Proof. rewrite <- byte.wrap_unsigned. apply byte.wrap_range. Qed.

Lemma byte_unsigned_inj v w : byte.unsigned v = byte.unsigned w → v = w.
Proof. apply byte.unsigned_inj. Qed.

(** The table has 256 different top bytes, and entries below [2^32]. *)
Definition crc_table_ok (t : list Z) : bool :=
  forallb (λ i, (0 <=? nth i t 0) && (nth i t 0 <? 2 ^ 32) &&
     forallb (λ j, (i =? j)%nat
       || negb (Z.shiftr (nth i t 0) 24 =? Z.shiftr (nth j t 0) 24))
       (seq 0 256)) (seq 0 256).

Lemma crc_table_ok_true : crc_table_ok crc_table = true.
Proof. vm_compute. reflexivity. Qed.

Lemma crc_table_ok_spec t i : crc_table_ok t = true → (i < 256)%nat →
  0 ≤ nth i t 0 < 2 ^ 32 ∧
  ∀ j, (j < 256)%nat →
    Z.shiftr (nth i t 0) 24 = Z.shiftr (nth j t 0) 24 → i = j.
Proof.
  intros H Hi. unfold crc_table_ok in H.
  rewrite forallb_forall in H. specialize (H i). rewrite in_seq in H.
  specialize (H ltac:(lia)). rewrite !andb_true_iff, forallb_forall in H.
  destruct H as [[H1 H2] H3]. split; [lia|]. intros j Hj Heq.
  specialize (H3 j). rewrite in_seq in H3. specialize (H3 ltac:(lia)).
  rewrite orb_true_iff, Nat.eqb_eq in H3. destruct H3 as [|H3]; [done|].
  by rewrite Heq, Z.eqb_refl in H3.
Qed.

Lemma crc_table_spec i : (i < 256)%nat →
  0 ≤ nth i crc_table 0 < 2 ^ 32 ∧
  ∀ j, (j < 256)%nat →
    Z.shiftr (nth i crc_table 0) 24 = Z.shiftr (nth j crc_table 0) 24 → i = j.
Proof. exact (crc_table_ok_spec crc_table i crc_table_ok_true). Qed.

Lemma lxor_cancel_r x y z : Z.lxor x z = Z.lxor y z → x = y.
Proof.
  intros H. apply (f_equal (λ a, Z.lxor a z)) in H.
  by rewrite !Z.lxor_assoc, Z.lxor_nilpotent, !Z.lxor_0_r in H.
Qed.
Lemma lxor_cancel_l x y z : Z.lxor z x = Z.lxor z y → x = y.
Proof. rewrite !(Z.lxor_comm z). apply lxor_cancel_r. Qed.

Lemma lxor_bound x y n : 0 ≤ n → 0 ≤ x < 2 ^ n → 0 ≤ y < 2 ^ n → 0 ≤ Z.lxor x y < 2 ^ n.
Proof.
  intros Hn Hx Hy. split; [by apply Z.lxor_nonneg; lia|].
  destruct (decide (Z.lxor x y = 0)) as [->|Hne]; [lia|].
  apply Z.log2_lt_pow2. { pose proof (proj2 (Z.lxor_nonneg x y)). lia. }
  pose proof (Z.log2_lxor x y ltac:(lia) ltac:(lia)) as Hl.
  destruct (decide (n = 0)) as [->|].
  { assert (x = 0) as -> by lia. assert (y = 0) as -> by lia. done. }
  assert (Hb : ∀ z, 0 ≤ z < 2 ^ n → Z.log2 z < n).
  { intros z Hz. destruct (decide (z = 0)) as [->|]; [simpl; lia|].
    apply Z.log2_lt_pow2; lia. }
  pose proof (Hb x Hx). pose proof (Hb y Hy). lia.
Qed.

Definition is_crc (s : Z) : Prop := 0 ≤ s < 2 ^ 32.

Lemma crc_index_range s v :
  0 ≤ Z.lxor (u8 s) (byte.unsigned v) < 2 ^ 8.
Proof.
  apply lxor_bound; [lia | apply Z.mod_pos_bound; lia | apply byte_unsigned_range].
Qed.

Lemma crc_update_range s v : is_crc s → is_crc (crc_update s v).
Proof.
  intros Hs. unfold crc_update. pose proof (crc_index_range s v).
  apply lxor_bound; [lia | | ].
  - apply crc_table_spec. lia.
  - rewrite Z.shiftr_div_pow2 by lia. split.
    + apply Z.div_pos; unfold is_crc in Hs; lia.
    + apply Z.div_lt_upper_bound; unfold is_crc in Hs; lia.
Qed.

Lemma crc_update_inj s s' v v' : is_crc s → is_crc s' →
  crc_update s v = crc_update s' v' →
  Z.lxor (u8 s) (byte.unsigned v) = Z.lxor (u8 s') (byte.unsigned v') ∧
  Z.shiftr s 8 = Z.shiftr s' 8.
Proof.
  intros Hs Hs' H. unfold crc_update in H.
  pose proof (crc_index_range s v). pose proof (crc_index_range s' v').
  assert (Hi : Z.to_nat (Z.lxor (u8 s) (byte.unsigned v)) =
               Z.to_nat (Z.lxor (u8 s') (byte.unsigned v'))).
  { eapply crc_table_spec; [lia..|].
    apply (f_equal (λ a, Z.shiftr a 24)) in H.
    rewrite !Z.shiftr_lxor, !Z.shiftr_shiftr in H by lia.
    rewrite !(Z.shiftr_div_pow2 _ (8 + 24)), !Z.div_small, !Z.lxor_0_r in H
      by (unfold is_crc in *; lia). done. }
  split; [lia|]. rewrite Hi in H. by apply lxor_cancel_l in H.
Qed.

Lemma crc_update_inj_state s s' v : is_crc s → is_crc s' →
  crc_update s v = crc_update s' v → s = s'.
Proof.
  intros Hs Hs' H. destruct (crc_update_inj _ _ _ _ Hs Hs' H) as [Hl Hh].
  apply lxor_cancel_r in Hl. unfold u8 in Hl. rewrite !Z.shiftr_div_pow2 in Hh by lia.
  rewrite (Z.div_mod s (2 ^ 8)), (Z.div_mod s' (2 ^ 8)) by lia. by rewrite Hl, Hh.
Qed.

Lemma crc_update_inj_byte s v v' : is_crc s →
  crc_update s v = crc_update s v' → v = v'.
Proof.
  intros Hs H. destruct (crc_update_inj _ _ _ _ Hs Hs H) as [Hl _].
  apply lxor_cancel_l in Hl. by apply byte_unsigned_inj.
Qed.

Lemma crc_fold_range l s : is_crc s → is_crc (fold_left crc_update l s).
Proof. revert s. induction l; simpl; auto using crc_update_range. Qed.

Lemma crc_fold_inj l s s' : is_crc s → is_crc s' →
  fold_left crc_update l s = fold_left crc_update l s' → s = s'.
Proof.
  revert s s'. induction l as [|v l IH]; simpl; [done|]. intros s s' Hs Hs' H.
  eapply crc_update_inj_state; [done..|]. by apply IH; [apply crc_update_range..|].
Qed.

Lemma crc_init : is_crc (2 ^ 32 - 1).
Proof. unfold is_crc. lia. Qed.

Lemma crc32_range l : 0 ≤ crc32 l < 2 ^ 32.
Proof.
  unfold crc32. apply lxor_bound; [lia| |apply crc_init].
  apply crc_fold_range, crc_init.
Qed.

Lemma crc32_byte_change p q v v' :
  v ≠ v' → crc32 (p ++ v :: q) ≠ crc32 (p ++ v' :: q).
Proof.
  intros Hne H. unfold crc32 in H. apply lxor_cancel_r in H.
  rewrite !fold_left_app in H. simpl in H.
  pose proof (crc_fold_range p _ crc_init) as Hp.
  apply crc_fold_inj in H; auto using crc_update_range.
  by apply crc_update_inj_byte in H.
Qed.
