(* ===== verification/RecordFile.v ===== *)
(** * Files of fixed-size records

    The attribute and instance stores are files of equal-sized records,
    addressed by position.  [FixedRecord] is what a record type promises: an
    encoding of constant length.  Under it a file that is the concatenation of
    the encodings of a list behaves like that list: reading the slot of the
    [i]-th record, appending, and overwriting one field in place. *)
From S2P Require Import Prelude GoFile.

Class FixedRecord (R : Type) := {
  rec_size : Z;
  rec_enc : R → list byte;
  rec_size_pos : 0 < rec_size;
  rec_enc_len : ∀ r, len (rec_enc r) = rec_size
}.

(** The file that holds the records of a list. *)
Definition records_file `{FixedRecord R} (l : list R) : file := mjoin (rec_enc <$> l).

(** [uint64(id-1)*size] converted to [int64], as the stores compute offsets. *)
Definition record_offset (id size : Z) : Z := i64 (u64 (u64 (id - 1) * size)).

Section records.
Context `{FixedRecord R}.
Implicit Types (l : list R) (r : R).

Lemma records_file_app l k : records_file (l ++ k) = records_file l ++ records_file k.
Proof. unfold records_file. by rewrite fmap_app, join_app. Qed.

Lemma records_file_snoc l r : records_file (l ++ [r]) = records_file l ++ rec_enc r.
Proof.
  rewrite records_file_app. f_equal. unfold records_file. simpl.
  by rewrite app_nil_r.
Qed.

Lemma fsize_records l : fsize (records_file l) = rec_size * len l.
Proof.
  unfold fsize. induction l as [|r l IH]; [unfold len; simpl; lia|].
  change (records_file (r :: l)) with (rec_enc r ++ records_file l).
  rewrite len_app, IH, rec_enc_len, len_cons. lia.
Qed.

Lemma records_file_split l i r : l !! i = Some r →
  records_file l =
    records_file (take i l) ++ rec_enc r ++ records_file (drop (S i) l).
Proof.
  intros Hi. rewrite <- (take_drop_middle l i r Hi) at 1.
  by rewrite records_file_app.
Qed.

Lemma fsize_records_take l i : (i ≤ length l)%nat →
  fsize (records_file (take i l)) = rec_size * Z.of_nat i.
Proof. intros. rewrite fsize_records, len_take. unfold len. f_equal. lia. Qed.

(** Reading the slot of a record gives its encoding. *)
Lemma slice_records l i r : l !! i = Some r →
  slice (records_file l) (rec_size * Z.of_nat i) rec_size = rec_enc r.
Proof.
  intros Hi. pose proof (lookup_lt_Some _ _ _ Hi). pose proof rec_size_pos.
  rewrite (records_file_split l i r Hi), slice_app_r, fsize_records_take by
    (rewrite ?fsize_records_take; lia).
  rewrite Z.sub_diag, slice_app_l by (unfold fsize; rewrite ?rec_enc_len; lia).
  rewrite <- (rec_enc_len r) at 1. apply slice_0_len.
Qed.

Lemma read_at_records l i r : l !! i = Some r →
  read_at (records_file l) (rec_size * Z.of_nat i) rec_size = Ok (rec_enc r, rec_size).
Proof.
  intros Hi. pose proof (lookup_lt_Some _ _ _ Hi). pose proof rec_size_pos.
  rewrite read_at_slice, (slice_records l i r Hi); [done|nia|lia|].
  rewrite fsize_records. unfold len. nia.
Qed.

Lemma read_at_records_eof l off :
  rec_size * len l ≤ off → read_at (records_file l) off rec_size = Err "EOF".
Proof. intros. apply read_at_eof; [apply rec_size_pos|]. by rewrite fsize_records. Qed.

(** Overwriting bytes of one slot is an update of that record. *)
Lemma write_at_records l i r r' k d :
  l !! i = Some r → 0 ≤ k → k + len d ≤ rec_size →
  rec_enc r' = take (Z.to_nat k) (rec_enc r) ++ d ++
               drop (Z.to_nat k + length d) (rec_enc r) →
  write_at (records_file l) (rec_size * Z.of_nat i + k) d = records_file (<[i:=r']> l).
Proof.
  intros Hi Hk Hd Henc. pose proof (lookup_lt_Some _ _ _ Hi) as Hlt.
  pose proof rec_size_pos. pose proof (rec_enc_len r) as Hr. unfold len in Hr, Hd.
  assert (Hi' : <[i:=r']> l !! i = Some r') by by apply list_lookup_insert_eq.
  rewrite (records_file_split _ _ _ Hi'), take_insert_ge by lia.
  rewrite drop_insert_lt by lia. rewrite (records_file_split l i r Hi).
  pose proof (fsize_records_take l i ltac:(lia)) as Hp. unfold fsize, len in Hp.
  set (p := records_file (take i l)) in *. set (q := records_file (drop (S i) l)).
  assert (Ho : Z.to_nat (rec_size * Z.of_nat i + k) = (length p + Z.to_nat k)%nat) by lia.
  unfold write_at. rewrite Ho, (proj2 (Nat.leb_le _ _)) by (rewrite !length_app; lia).
  rewrite Henc, take_app_add, take_app_le by lia.
  rewrite <- Nat.add_assoc, drop_app_add, drop_app_le by lia.
  by rewrite <- !app_assoc.
Qed.
End records.

(** The offset of a slot that fits in the address space does not wrap. *)
Lemma record_offset_small id size :
  1 ≤ id → 0 < size → (id - 1) * size < 2 ^ 63 →
  record_offset id size = size * (id - 1).
Proof.
  intros. unfold record_offset. assert (id - 1 < 2 ^ 63) by nia.
  rewrite (u64_small (id - 1)) by (unfold is_u64; lia).
  rewrite u64_small by (unfold is_u64; nia). rewrite i64_small by (unfold is_i64; nia). lia.
Qed.

#[export] Hint Rewrite @fsize_records @records_file_snoc : amorph.
