(* ===== verification/InstanceStore.v ===== *)
(** * The instance store (internal/storage/instances.go)

    Temporal records: one 32-byte record per version of an attribute, chained
    from newest to oldest through [OlderInstanceID].  The store refines a list
    of records ([instances_rep]); a version chain is the predicate [chain]. *)
From S2P Require Import Prelude GoFile RecordFile.

Record Instance := mkInstance {
  InstanceID : Z;
  ValueID : Z;
  OlderInstanceID : Z;
  Timestamp : Z;
  AuthorID : Z
}.

#[global] Instance Instance_eq_dec : EqDecision Instance.
Proof. solve_decision. Defined.

Record InstanceStore := mkInstanceStore {
  is_file : file;
  is_nextID : Z
}.

Definition InstanceRecordSize : Z := 32.

(** [uint64((id-1)*size + k)] converted to [int64]: the offset of a field. *)
Definition field_offset (id size k : Z) : Z := i64 (u64 (u64 (id - 1) * size + k)).

Definition NewInstanceStore (f : file) : InstanceStore :=
  {| is_file := f; is_nextID := u64 (fsize f / InstanceRecordSize + 1) |}.

Definition serializeInstance (i : Instance) : list byte :=
  le 8 (ValueID i) ++ le 8 (OlderInstanceID i) ++ le 8 (u64 (Timestamp i)) ++
  le 8 (AuthorID i).

Definition deserializeInstance (data : list byte) (id : Z) : Instance :=
  {| InstanceID := id;
     ValueID := unle (take 8 data);
     OlderInstanceID := unle (take 8 (drop 8 data));
     Timestamp := i64 (unle (take 8 (drop 16 data)));
     AuthorID := unle (take 8 (drop 24 data)) |}.

(** [now] is the clock reading [time.Now().UTC().UnixMicro()]. *)
Definition WriteInstance (now valueID olderInstanceID authorID : Z) : Op InstanceStore Z :=
  λ st,
    let i := {| InstanceID := is_nextID st; ValueID := valueID;
                OlderInstanceID := olderInstanceID; Timestamp := now;
                AuthorID := authorID |} in
    let f := write_at (is_file st) (fsize (is_file st)) (serializeInstance i) in
    ({| is_file := f; is_nextID := u64 (is_nextID st + 1) |}, Ok (is_nextID st)).

Definition ReadInstance (st : InstanceStore) (id : Z) : res Instance :=
  if id =? 0 then Err "invalid instance ID 0" else
  let offset := record_offset id InstanceRecordSize in
  wrap_res "seek failed" (seek offset) ≫= λ _,
  wrap_res "read instance failed" (read_at (is_file st) offset InstanceRecordSize)
  ≫= λ dn,
  if dn.2 =? InstanceRecordSize then Ok (deserializeInstance dn.1 id)
  else Err "incomplete read".

(** The loops below follow the chain until an ID of 0; nothing in the code
    bounds them, so they take fuel and [None] means "still running". *)
Fixpoint GetInstanceChain (fuel : nat) (st : InstanceStore) (id : Z)
  : option (res (list Instance)) :=
  match fuel with
  | O => None
  | S fuel =>
      if id =? 0 then Some (Ok []) else
      match wrap_res "failed to read instance" (ReadInstance st id) with
      | Ok i =>
          match GetInstanceChain fuel st (OlderInstanceID i) with
          | Some r => Some ((λ c, i :: c) <$> r)
          | None => None
          end
      | Err e => Some (Err e)
      | Panic e => Some (Panic e)
      end
  end.

Fixpoint ValidateChainOrder (chain : list Instance) : res unit :=
  match chain with
  | newer :: ((older :: _) as rest) =>
      if Timestamp newer <=? Timestamp older then Err "timestamp order violation"
      else ValidateChainOrder rest
  | _ => Ok tt
  end.

Fixpoint FindInstanceAtTime (fuel : nat) (st : InstanceStore) (id timestamp : Z)
  : option (res Z) :=
  match fuel with
  | O => None
  | S fuel =>
      if id =? 0 then Some (Ok 0) else
      match wrap_res "failed to read instance" (ReadInstance st id) with
      | Ok i =>
          if Timestamp i <=? timestamp then Some (Ok id)
          else FindInstanceAtTime fuel st (OlderInstanceID i) timestamp
      | Err e => Some (Err e)
      | Panic e => Some (Panic e)
      end
  end.

Definition TombstoneInstance (id deletedBy : Z) : Op InstanceStore unit :=
  λ st,
    if id =? 0 then (st, Err "invalid instance ID 0") else
    let offset := field_offset id InstanceRecordSize 8 in
    match wrap_res "seek failed" (seek offset) with
    | Ok _ =>
        ({| is_file := write_at (is_file st) offset (le 8 0xFFFFFFFFFFFFFFFF);
            is_nextID := is_nextID st |}, Ok tt)
    | Err e => (st, Err e)
    | Panic e => (st, Panic e)
    end.

Fixpoint PurgeInstancesInTimeRange (fuel : nat) (id from to author purgedCount : Z)
  (st : InstanceStore) : option (InstanceStore * res Z) :=
  match fuel with
  | O => None
  | S fuel =>
      if id =? 0 then Some (st, Ok purgedCount) else
      match wrap_res "failed to read instance" (ReadInstance st id) with
      | Ok i =>
          if (from <=? Timestamp i) && (Timestamp i <=? to) then
            match TombstoneInstance id author st with
            | (st', Ok _) =>
                PurgeInstancesInTimeRange fuel (OlderInstanceID i) from to author
                  (purgedCount + 1) st'
            | (st', Err e) => Some (st', Err ("failed to tombstone instance: " +:+ e))
            | (st', Panic e) => Some (st', Panic e)
            end
          else
            PurgeInstancesInTimeRange fuel (OlderInstanceID i) from to author
              purgedCount st
      | Err e => Some (st, Err e)
      | Panic e => Some (st, Panic e)
      end
  end.

Definition GetInstanceCount (st : InstanceStore) : Z := u64 (is_nextID st - 1).

(** ** Abstract view: a list of records *)

#[global] Program Instance Instance_record : FixedRecord Instance := {
  rec_size := InstanceRecordSize;
  rec_enc := serializeInstance
}.
Next Obligation. reflexivity. Qed.
Next Obligation. intros. unfold serializeInstance, InstanceRecordSize. lens. Qed.

(** The fields fit their machine types. *)
Definition instance_ok (i : Instance) : Prop :=
  is_u64 (ValueID i) ∧ is_u64 (OlderInstanceID i) ∧ is_i64 (Timestamp i) ∧
  is_u64 (AuthorID i).

(** [st] stores the list [l]: record [i] of [l] has ID [i+1], and the file is
    small enough for offsets not to wrap. *)
Record instances_rep (st : InstanceStore) (l : list Instance) : Prop := {
  ir_file : is_file st = records_file l;
  ir_next : is_nextID st = len l + 1;
  ir_ids : ∀ k i, l !! k = Some i → InstanceID i = Z.of_nat k + 1;
  ir_ok : ∀ k i, l !! k = Some i → instance_ok i;
  ir_room : (len l + 1) * InstanceRecordSize < 2 ^ 63
}.

(** The record with a given ID. *)
Definition inst_at (l : list Instance) (id : Z) : option Instance :=
  if id <=? 0 then None else l !! Z.to_nat (id - 1).

(** The version chain that starts at an ID, newest first. *)
Inductive chain (l : list Instance) : Z → list Instance → Prop :=
  | chain_end : chain l 0 []
  | chain_step id i c :
      inst_at l id = Some i → chain l (OlderInstanceID i) c → chain l id (i :: c).

(** Every record points to an older position, so chains cannot loop. *)
Definition chains_acyclic (l : list Instance) : Prop :=
  ∀ k i, l !! k = Some i → 0 ≤ OlderInstanceID i ≤ Z.of_nat k.

(** What [FindInstanceAtTime] looks for in a chain. *)
Definition version_at (t : Z) (c : list Instance) : option Instance :=
  snd <$> list_find (λ i, Timestamp i ≤ t) c.

(** ** Lemmas *)

Lemma instance_roundtrip i id :
  instance_ok i → InstanceID i = id → deserializeInstance (serializeInstance i) id = i.
Proof.
  intros (Hv & Ho & Ht & Ha) <-. destruct i as [id v o t a]; simpl in *.
  unfold deserializeInstance, serializeInstance.
  cbn [InstanceID ValueID OlderInstanceID Timestamp AuthorID].
  rewrite take_le_app, drop_le_app, take_le_app.
  rewrite (drop_le_app_add 8 8), drop_le_app, take_le_app.
  rewrite (drop_le_app_add 8 16), (drop_le_app_add 8 8), drop_le_app, take_le.
  rewrite !unle_le_small by (unfold is_u64 in *; try apply u64_range; lia).
  by rewrite i64_u64.
Qed.

Lemma inst_at_range l id i : inst_at l id = Some i → 1 ≤ id ≤ len l.
Proof.
  unfold inst_at, len. destruct (Z.leb_spec id 0); [done|].
  intros Hi%lookup_lt_Some. lia.
Qed.

Lemma inst_at_lookup l id i :
  inst_at l id = Some i ↔ ∃ k, l !! k = Some i ∧ id = Z.of_nat k + 1.
Proof.
  unfold inst_at. split.
  - destruct (Z.leb_spec id 0); [done|]. intros Hi. exists (Z.to_nat (id - 1)).
    split; [done|lia].
  - intros (k & Hk & ->). rewrite (proj2 (Z.leb_gt _ _)) by lia.
    by replace (Z.to_nat (Z.of_nat k + 1 - 1)) with k by lia.
Qed.

Lemma inst_at_snoc_old l i id : id ≤ len l → inst_at (l ++ [i]) id = inst_at l id.
Proof.
  unfold inst_at, len. intros. destruct (Z.leb_spec id 0); [done|].
  apply lookup_app_l. lia.
Qed.

Lemma inst_at_snoc_new l i : inst_at (l ++ [i]) (len l + 1) = Some i.
Proof.
  apply inst_at_lookup. exists (length l). split; [|unfold len; lia].
  by rewrite lookup_app_r, Nat.sub_diag by lia.
Qed.

Lemma ReadInstance_rep st l id :
  instances_rep st l → 0 ≤ id →
  (∀ i, inst_at l id = Some i → ReadInstance st id = Ok i).
Proof.
  intros Hr Hid i Hi. pose proof (inst_at_range _ _ _ Hi) as Hrg.
  apply inst_at_lookup in Hi as (k & Hk & ->). pose proof (ir_room _ _ Hr) as Hroom.
  unfold ReadInstance. rewrite (proj2 (Z.eqb_neq _ _)) by lia.
  rewrite record_offset_small by (unfold InstanceRecordSize in *; lia).
  rewrite seek_ok by (unfold InstanceRecordSize; lia). ress.
  replace (Z.of_nat k + 1 - 1) with (Z.of_nat k) by lia. rewrite (ir_file _ _ Hr).
  pose proof (read_at_records l k i Hk) as Hrd. cbn [rec_size Instance_record] in Hrd.
  rewrite Hrd. ress. rewrite Z.eqb_refl. f_equal.
  apply instance_roundtrip; [eapply ir_ok|eapply ir_ids]; eauto.
Qed.

(** An ID past the end of the store cannot be read. *)
Lemma ReadInstance_past st l id :
  instances_rep st l → len l < id → (id - 1) * InstanceRecordSize < 2 ^ 63 →
  ReadInstance st id = Err "read instance failed: EOF".
Proof.
  intros Hr Hid Hb. pose proof (len_nonneg l). unfold ReadInstance.
  rewrite (proj2 (Z.eqb_neq _ _)) by lia.
  rewrite record_offset_small by (unfold InstanceRecordSize in *; lia).
  rewrite seek_ok by (unfold InstanceRecordSize; lia). ress. rewrite (ir_file _ _ Hr).
  pose proof (read_at_records_eof l (InstanceRecordSize * (id - 1))) as He.
  cbn [rec_size Instance_record] in He. rewrite He by (unfold InstanceRecordSize; lia).
  done.
Qed.

(** The marker [TombstoneInstance] writes is not a readable ID. *)
Lemma ReadInstance_tombstone st :
  ReadInstance st (2 ^ 64 - 1) = Err "seek failed: invalid argument".
Proof. reflexivity. Qed.

Lemma chain_functional l id c c' : chain l id c → chain l id c' → c = c'.
Proof.
  intros Hc. revert c'. induction Hc as [|id i c Hi Hc IH]; intros c' Hc'.
  - inversion Hc' as [|? ? ? Hz]; [done|]. apply inst_at_range in Hz. lia.
  - inversion Hc' as [|? i' ? Hi']; subst; [apply inst_at_range in Hi; lia|].
    rewrite Hi in Hi'. injection Hi' as <-. f_equal. auto.
Qed.

Lemma chain_total l id :
  chains_acyclic l → 0 ≤ id ≤ len l → ∃ c, chain l id c ∧ len c ≤ id.
Proof.
  intros Ha Hid. remember (Z.to_nat id) as n eqn:Hn. revert id Hid Hn.
  induction n as [n IH] using lt_wf_ind. intros id Hid ->.
  destruct (decide (id = 0)) as [->|Hne].
  { exists []. split; [constructor|]. unfold len; simpl; lia. }
  destruct (lookup_lt_is_Some_2 l (Z.to_nat (id - 1))) as [i Hi]; [unfold len in Hid; lia|].
  pose proof (Ha _ _ Hi) as Ho.
  destruct (IH (Z.to_nat (OlderInstanceID i)) ltac:(lia) (OlderInstanceID i))
    as (c & Hc & Hl); [lia|done|].
  exists (i :: c). split; [|rewrite len_cons; lia].
  apply chain_step; [|done]. apply inst_at_lookup. eexists; split; [done|lia].
Qed.

Lemma chain_snoc l i id c : chain l id c → chain (l ++ [i]) id c.
Proof.
  induction 1 as [|id j c Hj Hc IH]; [constructor|]. apply chain_step; [|done].
  rewrite inst_at_snoc_old; [done|]. apply inst_at_range in Hj. lia.
Qed.

(** *** Writing *)

Lemma WriteInstance_rep st l now v o a :
  instances_rep st l → is_u64 v → is_u64 o → is_i64 now → is_u64 a →
  (len l + 2) * InstanceRecordSize < 2 ^ 63 →
  ∃ st', WriteInstance now v o a st = (st', Ok (len l + 1)) ∧
         instances_rep st' (l ++ [mkInstance (len l + 1) v o now a]).
Proof.
  intros Hr Hv Ho Hn Ha Hroom. pose proof (len_nonneg l).
  unfold WriteInstance. rewrite (ir_next _ _ Hr), (ir_file _ _ Hr).
  eexists; split; [reflexivity|]. split; cbn [is_file is_nextID].
  - rewrite write_at_append. by rewrite records_file_snoc.
  - rewrite u64_small; [lens|]. unfold is_u64, InstanceRecordSize in *. lia.
  - intros k i [Hk|[? Hk]]%lookup_app_Some; [by eapply ir_ids|].
    apply list_lookup_singleton_Some in Hk as [? <-]. cbn. unfold len. lia.
  - intros k i [Hk|[? Hk]]%lookup_app_Some; [by eapply ir_ok|].
    apply list_lookup_singleton_Some in Hk as [? <-]. by repeat split; cbn; apply Hv || apply Ho || apply Hn || apply Ha.
  - lens.
Qed.

Lemma chains_acyclic_snoc l i :
  chains_acyclic l → 0 ≤ OlderInstanceID i ≤ len l → chains_acyclic (l ++ [i]).
Proof.
  intros Ha Hi k j [Hk|[? Hk]]%lookup_app_Some; [by apply Ha|].
  apply list_lookup_singleton_Some in Hk as [? <-]. unfold len in Hi. lia.
Qed.

Lemma chain_new l i c :
  InstanceID i = len l + 1 → chain l (OlderInstanceID i) c →
  chain (l ++ [i]) (len l + 1) (i :: c).
Proof. intros Hid Hc. apply chain_step; [apply inst_at_snoc_new|by apply chain_snoc]. Qed.

(** *** Walking a chain *)

Lemma chain_nonneg l id c : chain l id c → 0 ≤ id.
Proof. destruct 1 as [|? ? ? Hi]; [lia|]. apply inst_at_range in Hi. lia. Qed.

(** One step of a walk: the loop's test and its read, on a represented store. *)
Lemma walk_step st l id i :
  instances_rep st l → inst_at l id = Some i →
  (id =? 0) = false ∧ ReadInstance st id = Ok i.
Proof.
  intros Hr Hi. pose proof (inst_at_range _ _ _ Hi). split; [lia|].
  apply (ReadInstance_rep st l); [done|lia|done].
Qed.

Lemma GetInstanceChain_chain st l id c fuel :
  instances_rep st l → chain l id c → (length c < fuel)%nat →
  GetInstanceChain fuel st id = Some (Ok c).
Proof.
  intros Hr Hc. revert fuel. induction Hc as [|id i c Hi Hc IH]; intros [|fuel] Hf;
    simpl in Hf; try lia; [done|].
  destruct (walk_step st l id i Hr Hi) as [H0 Hrd].
  cbn [GetInstanceChain]. rewrite H0, Hrd. ress. by rewrite IH by lia.
Qed.

Lemma version_at_cons t i c :
  version_at t (i :: c) = if decide (Timestamp i ≤ t) then Some i else version_at t c.
Proof.
  unfold version_at. cbn [list_find]. case_decide; [done|].
  by destruct (list_find _ c) as [[? ?]|].
Qed.

Lemma FindInstanceAtTime_chain st l id c t fuel :
  instances_rep st l → chain l id c → (length c < fuel)%nat →
  FindInstanceAtTime fuel st id t =
    Some (Ok (from_option InstanceID 0 (version_at t c))).
Proof.
  intros Hr Hc. revert fuel. induction Hc as [|id i c Hi Hc IH]; intros [|fuel] Hf;
    simpl in Hf; try lia; [done|].
  destruct (walk_step st l id i Hr Hi) as [H0 Hrd].
  cbn [FindInstanceAtTime]. rewrite H0, Hrd, version_at_cons. ress.
  destruct (Z.leb_spec (Timestamp i) t).
  - rewrite decide_True by lia. cbn. do 2 f_equal.
    apply inst_at_lookup in Hi as (k & Hk & ->). symmetry. by eapply ir_ids.
  - rewrite decide_False by lia. apply IH. lia.
Qed.

(** *** The tombstone marker *)

Definition severed (i : Instance) : Instance :=
  {| InstanceID := InstanceID i; ValueID := ValueID i;
     OlderInstanceID := 2 ^ 64 - 1; Timestamp := Timestamp i; AuthorID := AuthorID i |}.

Lemma TombstoneInstance_rep st l id i by_ :
  instances_rep st l → inst_at l id = Some i →
  ∃ st', TombstoneInstance id by_ st = (st', Ok tt) ∧
         instances_rep st' (<[Z.to_nat (id - 1):=severed i]> l).
Proof.
  intros Hr Hi. pose proof (inst_at_range _ _ _ Hi) as Hrg.
  apply inst_at_lookup in Hi as (k & Hk & ->). pose proof (ir_room _ _ Hr) as Hroom.
  replace (Z.to_nat (Z.of_nat k + 1 - 1)) with k by lia.
  unfold TombstoneInstance. rewrite (proj2 (Z.eqb_neq _ _)) by lia.
  assert (Hoff : field_offset (Z.of_nat k + 1) InstanceRecordSize 8 =
                 InstanceRecordSize * Z.of_nat k + 8).
  { unfold field_offset, InstanceRecordSize in *.
    rewrite (u64_small (_ - 1)) by (unfold is_u64; lia).
    rewrite u64_small by (unfold is_u64; lia). rewrite i64_small by (unfold is_i64; lia).
    lia. }
  rewrite Hoff, seek_ok by (unfold InstanceRecordSize; lia). ress.
  eexists; split; [reflexivity|].
  pose proof (lookup_lt_Some _ _ _ Hk) as Hlt.
  split; cbn [is_file is_nextID]; rewrite ?len_insert.
  - rewrite (ir_file _ _ Hr).
    pose proof (write_at_records l k i (severed i) 8 (le 8 0xFFFFFFFFFFFFFFFF) Hk) as Hw.
    cbn [rec_size rec_enc Instance_record] in Hw. apply Hw; [lia| |].
    + unfold InstanceRecordSize. lens.
    + rewrite length_le. change (Z.to_nat 8 + 8)%nat with (8 + 8)%nat.
      unfold serializeInstance. change (Z.to_nat 8) with 8%nat.
      by rewrite take_le_app, (drop_le_app_add 8 8), drop_le_app.
  - apply (ir_next _ _ Hr).
  - intros j r [(<- & <- & _)|[_ Hj]]%list_lookup_insert_Some;
      [cbn; by eapply (ir_ids _ _ Hr)|by eapply (ir_ids _ _ Hr)].
  - intros j r [(<- & <- & _)|[_ Hj]]%list_lookup_insert_Some; [|by eapply (ir_ok _ _ Hr)].
    destruct (ir_ok _ _ Hr _ _ Hk) as (? & ? & ? & ?).
    repeat split; cbn; unfold is_u64, is_i64 in *; lia.
  - done.
Qed.

(** Once a record is severed, every walk that passes it fails. *)
Lemma FindInstanceAtTime_severed st l id i t fuel :
  instances_rep st l → inst_at l id = Some i → OlderInstanceID i = 2 ^ 64 - 1 →
  t < Timestamp i →
  FindInstanceAtTime (S (S fuel)) st id t =
    Some (Err "failed to read instance: seek failed: invalid argument").
Proof.
  intros Hr Hi Ho Ht. destruct (walk_step st l id i Hr Hi) as [H0 Hrd].
  cbn [FindInstanceAtTime]. rewrite H0, Hrd. ress.
  rewrite (proj2 (Z.leb_gt _ _)), Ho, ReadInstance_tombstone by lia. done.
Qed.

(** *** Purging a range *)

Definition in_range (from to : Z) (i : Instance) : Prop := from ≤ Timestamp i ≤ to.
#[global] Instance in_range_dec from to i : Decision (in_range from to i).
Proof. unfold in_range. apply _. Defined.

Definition acyclic_below (l : list Instance) (id : Z) : Prop :=
  ∀ j i, j ≤ id → inst_at l j = Some i → 0 ≤ OlderInstanceID i < j.

Lemma acyclic_below_all l id : chains_acyclic l → acyclic_below l id.
Proof. intros Ha j i _ (k & Hk & ->)%inst_at_lookup. specialize (Ha _ _ Hk). lia. Qed.

Lemma chain_agree l l' id c :
  chain l id c → acyclic_below l id →
  (∀ j, j ≤ id → inst_at l' j = inst_at l j) → chain l' id c.
Proof.
  induction 1 as [|id i c Hi Hc IH]; intros Ha He; [constructor|].
  pose proof (Ha id i ltac:(lia) Hi).
  apply chain_step; [by rewrite He by lia|].
  apply IH; [intros j k ?; apply Ha; lia|]. intros j ?. apply He. lia.
Qed.

Lemma inst_at_insert l id i j :
  1 ≤ id → j ≠ id → inst_at (<[Z.to_nat (id - 1):=i]> l) j = inst_at l j.
Proof.
  intros. unfold inst_at. destruct (Z.leb_spec j 0); [done|].
  apply list_lookup_insert_ne. lia.
Qed.
Lemma inst_at_insert_eq l id i k :
  inst_at l id = Some k → inst_at (<[Z.to_nat (id - 1):=i]> l) id = Some i.
Proof.
  intros Hi. pose proof (inst_at_range _ _ _ Hi). unfold inst_at, len in *.
  rewrite (proj2 (Z.leb_gt _ _)) by lia. apply list_lookup_insert_eq. lia.
Qed.

Definition purged (from to : Z) (i : Instance) : Instance :=
  if decide (in_range from to i) then severed i else i.

Lemma Purge_chain from to a c : ∀ st l id fuel n,
  instances_rep st l → chain l id c → acyclic_below l id → (length c < fuel)%nat →
  ∃ st' l',
    PurgeInstancesInTimeRange fuel id from to a n st =
      Some (st', Ok (n + len (filter (in_range from to) c))) ∧
    instances_rep st' l' ∧
    (∀ j, id < j → inst_at l' j = inst_at l j) ∧
    (∀ i, i ∈ c → inst_at l' (InstanceID i) = Some (purged from to i)).
Proof.
  induction c as [|i c IH]; intros st l id [|fuel] n Hr Hc Ha Hf; simpl in Hf; try lia.
  { inversion Hc; subst. exists st, l. cbn. rewrite Z.add_0_r.
    split_and!; [done..|]. intros i Hi. by apply not_elem_of_nil in Hi. }
  inversion Hc as [|? ? ? Hi Hc']; subst. pose proof (Ha _ _ ltac:(done) Hi) as Ho.
  destruct (walk_step st l id i Hr Hi) as [H0 Hrd].
  assert (Hid : InstanceID i = id).
  { pose proof Hi as (k & Hk & ->)%inst_at_lookup. by eapply ir_ids. }
  assert (Hstep : ∃ st1 l1,
    PurgeInstancesInTimeRange (S fuel) id from to a n st =
      PurgeInstancesInTimeRange fuel (OlderInstanceID i) from to a
        (n + (if decide (in_range from to i) then 1 else 0)) st1 ∧
    instances_rep st1 l1 ∧ (∀ j, j ≠ id → inst_at l1 j = inst_at l j) ∧
    inst_at l1 id = Some (purged from to i)).
  { cbn [PurgeInstancesInTimeRange]. rewrite H0, Hrd. ress. unfold purged.
    destruct (decide (in_range from to i)) as [Hin|Hin]; unfold in_range in Hin.
    - rewrite (proj2 (andb_true_iff _ _)) by lia.
      destruct (TombstoneInstance_rep st l id i a Hr Hi) as (st1 & -> & Hr1).
      exists st1, (<[Z.to_nat (id - 1):=severed i]> l).
      split_and!; [done..| |by eapply inst_at_insert_eq].
      intros. apply inst_at_insert; lia.
    - rewrite (proj2 (andb_false_iff _ _)) by lia. exists st, l.
      by rewrite Z.add_0_r. }
  destruct Hstep as (st1 & l1 & -> & Hr1 & Hne & Heq).
  destruct (IH st1 l1 (OlderInstanceID i) fuel
    (n + (if decide (in_range from to i) then 1 else 0)))
    as (st' & l' & Hp & Hr' & Habove & Hin); [done| | |lia|].
  { apply (chain_agree l); [done|intros j k ?; apply Ha; lia|]. intros. apply Hne. lia. }
  { intros j k Hj Hk. rewrite Hne in Hk by lia. apply Ha; [lia|done]. }
  exists st', l'. split_and!; [|done| |].
  - rewrite Hp, filter_cons. case_decide; rewrite ?len_cons; do 3 f_equal; lia.
  - intros j Hj. rewrite Habove, Hne by lia. done.
  - intros k [->|Hk]%elem_of_cons; [|by apply Hin].
    rewrite Hid, Habove by lia. done.
Qed.

Lemma NewInstanceStore_rep st l :
  instances_rep st l → NewInstanceStore (is_file st) = st.
Proof.
  intros Hr. unfold NewInstanceStore. pose proof (ir_room _ _ Hr). pose proof (len_nonneg l).
  rewrite (ir_file _ _ Hr), fsize_records. cbn [rec_size Instance_record].
  rewrite Z.mul_comm, Z.div_mul by done.
  rewrite u64_small by (unfold is_u64, InstanceRecordSize in *; lia).
  destruct st as [f n]. pose proof (ir_file _ _ Hr). pose proof (ir_next _ _ Hr).
  simpl in *. by subst.
Qed.

(** *** Properties *)

(** History is append-only.  Writing a version on top of a chain returns a
    new ID whose chain is the new record followed by the old chain, and every
    chain that existed before reads exactly as before. *)
Theorem write_extends_chain st l now v o a c :
  instances_rep st l → chains_acyclic l → chain l o c →
  is_u64 v → is_i64 now → is_u64 a → (len l + 2) * InstanceRecordSize < 2 ^ 63 →
  ∃ st' i, WriteInstance now v o a st = (st', Ok (InstanceID i)) ∧
    ValueID i = v ∧ Timestamp i = now ∧ AuthorID i = a ∧
    GetInstanceChain (S (S (length c))) st' (InstanceID i) = Some (Ok (i :: c)) ∧
    (∀ id d, chain l id d → GetInstanceChain (S (length d)) st' id = Some (Ok d)) ∧
    ∃ l', instances_rep st' l' ∧ chains_acyclic l'.
Proof.
  intros Hr Ha Hc Hv Hn Hau Hroom. pose proof (chain_nonneg _ _ _ Hc).
  assert (Ho : o ≤ len l).
  { destruct Hc as [|? ? ? Hi]; [apply len_nonneg|]. apply inst_at_range in Hi. lia. }
  assert (is_u64 o) by (unfold is_u64, InstanceRecordSize in *; lia).
  destruct (WriteInstance_rep st l now v o a) as (st' & Hw & Hr'); [done..|].
  exists st', (mkInstance (len l + 1) v o now a).
  split_and!; [done..| | |].
  - eapply GetInstanceChain_chain; [done| |simpl; lia]. by apply chain_new.
  - intros id d Hd. eapply GetInstanceChain_chain; [done|by apply chain_snoc|lia].
  - eexists. split; [done|]. by apply chains_acyclic_snoc.
Qed.

(** C3: time travel terminates and is exact.  In a store whose chains point
    backwards, the walk from any stored ID ends within [id + 1] reads, and
    returns the ID of the first version of the chain, newest first, that is not
    newer than the requested time, or 0 when every version is newer. *)
Theorem find_at_time_correct st l id t :
  instances_rep st l → chains_acyclic l → 0 ≤ id ≤ len l →
  ∃ c, chain l id c ∧
    FindInstanceAtTime (S (Z.to_nat id)) st id t =
      Some (Ok (match list_find (λ i, Timestamp i ≤ t) c with
                | Some (_, i) => InstanceID i | None => 0 end)).
Proof.
  intros Hr Ha Hid. destruct (chain_total l id Ha Hid) as (c & Hc & Hl).
  exists c. split; [done|].
  rewrite (FindInstanceAtTime_chain st l id c) by (done || (unfold len in Hl; lia)).
  unfold version_at. by destruct (list_find _ c) as [[? ?]|].
Qed.

(** C9: purging cuts the history.  [TombstoneInstance] writes its marker over
    [OlderInstanceID] (its comment says [AuthorID]), so after a purge that
    covers the newest version, which reports the number of versions in the
    range, every lookup of an older time fails, including times whose versions
    were outside the purged range. *)
Theorem purge_severs_older_versions st l id i c from to author :
  instances_rep st l → chains_acyclic l → chain l id (i :: c) →
  from ≤ Timestamp i ≤ to →
  ∃ st', PurgeInstancesInTimeRange (S (S (length c))) id from to author 0 st =
      Some (st', Ok (len (filter (in_range from to) (i :: c)))) ∧
    ∀ t fuel, t < Timestamp i →
      FindInstanceAtTime (S (S fuel)) st' id t =
        Some (Err "failed to read instance: seek failed: invalid argument").
Proof.
  intros Hr Ha Hc Hi.
  destruct (Purge_chain from to author (i :: c) st l id (S (S (length c))) 0)
    as (st' & l' & Hp & Hr' & _ & Hin);
    [done|done|by apply acyclic_below_all|simpl; lia|].
  exists st'. split; [done|]. intros t fuel Ht.
  inversion Hc as [|? ? ? Hat _]; subst.
  assert (Hid : InstanceID i = id).
  { pose proof Hat as (k & Hk & ->)%inst_at_lookup. by eapply (ir_ids _ _ Hr). }
  pose proof (Hin i ltac:(left)) as Hi'. rewrite Hid in Hi'. unfold purged in Hi'.
  rewrite decide_True in Hi' by done.
  by apply (FindInstanceAtTime_severed st' l' id (severed i)).
Qed.

(** A reopened instance file is the same store: the next ID recovered from
    the file size is the one the closed store would have used. *)
Theorem reopen_instances st l :
  instances_rep st l → NewInstanceStore (is_file st) = st.
Proof. apply NewInstanceStore_rep. Qed.

(** *** Witnesses: a store with two versions, written at times 10 and 20. *)
Definition two_versions : InstanceStore :=
  (WriteInstance 20 200 1 9 (WriteInstance 10 100 0 9 (NewInstanceStore [])).1).1.
Definition two_records : list Instance := [mkInstance 1 100 0 10 9; mkInstance 2 200 1 20 9].

Lemma two_versions_rep : instances_rep two_versions two_records.
Proof.
  split; [by vm_compute..| | |by vm_compute]; intros [|[|k]] i; simpl; intros [= <-];
    try done; repeat split; by vm_compute.
Qed.
Lemma two_records_acyclic : chains_acyclic two_records.
Proof. intros [|[|k]] i; simpl; intros [= <-]; simpl; lia. Qed.
Lemma two_records_chain : chain two_records 2 [mkInstance 2 200 1 20 9; mkInstance 1 100 0 10 9].
Proof. repeat (eapply chain_step; [reflexivity|]; simpl). constructor. Qed.

Lemma write_extends_chain_witness :
  ∃ st' i, WriteInstance 30 300 2 7 two_versions = (st', Ok (InstanceID i)) ∧ ValueID i = 300.
Proof.
  destruct (write_extends_chain two_versions two_records 30 300 2 7 _ two_versions_rep
    two_records_acyclic two_records_chain) as (st' & i & H & Hv & _);
    [done|done|done|by vm_compute|].
  exists st', i. split; [exact H|exact Hv].
Defined.

Lemma find_at_time_correct_witness :
  FindInstanceAtTime 3 two_versions 2 15 = Some (Ok 1) ∧
  ∃ c, chain two_records 2 c ∧
    FindInstanceAtTime 3 two_versions 2 15 =
      Some (Ok (match list_find (λ i, Timestamp i ≤ 15) c with
                | Some (_, i) => InstanceID i | None => 0 end)).
Proof.
  split; [vm_compute; reflexivity|].
  apply (find_at_time_correct two_versions two_records 2 15 two_versions_rep
    two_records_acyclic). split; [lia|vm_compute; discriminate].
Defined.

Lemma purge_severs_older_versions_witness :
  FindInstanceAtTime 3 two_versions 2 15 = Some (Ok 1) ∧
  ∃ st', PurgeInstancesInTimeRange 3 2 20 20 9 0 two_versions = Some (st', Ok 1) ∧
    FindInstanceAtTime 3 st' 2 15 =
      Some (Err "failed to read instance: seek failed: invalid argument").
Proof.
  split; [vm_compute; reflexivity|].
  destruct (purge_severs_older_versions two_versions two_records 2 _ _ 20 20 9
    two_versions_rep two_records_acyclic two_records_chain) as (st' & Hp & Hf);
    [split; vm_compute; discriminate|].
  exists st'. split; [exact Hp|apply Hf; vm_compute; reflexivity].
Defined.

Lemma reopen_instances_witness : NewInstanceStore (is_file two_versions) = two_versions.
Proof. apply (reopen_instances two_versions two_records), two_versions_rep. Defined.
