(* ===== verification/AttributeStore.v ===== *)
(** * The attribute store (internal/storage/attributes.go)

    One 24-byte record per attribute: its label (a value ID), the newest
    instance of its version chain and the next sibling.  The store refines a
    list of attributes ([attributes_rep]). *)
From S2P Require Import Prelude GoFile RecordFile InstanceStore.

Record Attribute := mkAttribute {
  AttrID : Z;
  LabelValueID : Z;
  FirstInstanceID : Z;
  NextAttributeID : Z
}.

#[global] Instance Attribute_eq_dec : EqDecision Attribute.
Proof. solve_decision. Defined.

Record AttributeStore := mkAttributeStore {
  as_file : file;
  as_nextID : Z
}.

Definition AttributeRecordSize : Z := 24.

Definition NewAttributeStore (f : file) : AttributeStore :=
  {| as_file := f; as_nextID := u64 (fsize f / AttributeRecordSize + 1) |}.

Definition serializeAttribute (a : Attribute) : list byte :=
  le 8 (LabelValueID a) ++ le 8 (FirstInstanceID a) ++ le 8 (NextAttributeID a).

Definition deserializeAttribute (data : list byte) (id : Z) : Attribute :=
  {| AttrID := id;
     LabelValueID := unle (take 8 data);
     FirstInstanceID := unle (take 8 (drop 8 data));
     NextAttributeID := unle (take 8 (drop 16 data)) |}.

Definition WriteAttribute (labelValueID firstInstanceID nextAttributeID : Z)
  : Op AttributeStore Z :=
  λ st,
    let a := {| AttrID := as_nextID st; LabelValueID := labelValueID;
                FirstInstanceID := firstInstanceID; NextAttributeID := nextAttributeID |} in
    let f := write_at (as_file st) (fsize (as_file st)) (serializeAttribute a) in
    ({| as_file := f; as_nextID := u64 (as_nextID st + 1) |}, Ok (as_nextID st)).

Definition ReadAttribute (st : AttributeStore) (id : Z) : res Attribute :=
  if id =? 0 then Err "invalid attribute ID 0" else
  let offset := record_offset id AttributeRecordSize in
  wrap_res "seek failed" (seek offset) ≫= λ _,
  wrap_res "read attribute failed" (read_at (as_file st) offset AttributeRecordSize)
  ≫= λ dn,
  if dn.2 =? AttributeRecordSize then Ok (deserializeAttribute dn.1 id)
  else Err "incomplete read".

Definition UpdateAttributeNextID (id nextAttributeID : Z) : Op AttributeStore unit :=
  λ st,
    if id =? 0 then (st, Err "invalid attribute ID 0") else
    let offset := field_offset id AttributeRecordSize 16 in
    match wrap_res "seek failed" (seek offset) with
    | Ok _ =>
        ({| as_file := write_at (as_file st) offset (le 8 nextAttributeID);
            as_nextID := as_nextID st |}, Ok tt)
    | Err e => (st, Err e)
    | Panic e => (st, Panic e)
    end.

Definition UpdateAttributeFirstInstance (id firstInstanceID : Z) : Op AttributeStore unit :=
  λ st,
    if id =? 0 then (st, Err "invalid attribute ID 0") else
    let offset := field_offset id AttributeRecordSize 8 in
    match wrap_res "seek failed" (seek offset) with
    | Ok _ =>
        ({| as_file := write_at (as_file st) offset (le 8 firstInstanceID);
            as_nextID := as_nextID st |}, Ok tt)
    | Err e => (st, Err e)
    | Panic e => (st, Panic e)
    end.

(** The sibling loop follows [NextAttributeID] until 0 and is not bounded by
    the code, so it takes fuel. *)
Fixpoint GetSiblingChain (fuel : nat) (st : AttributeStore) (id : Z)
  : option (res (list Attribute)) :=
  match fuel with
  | O => None
  | S fuel =>
      if id =? 0 then Some (Ok []) else
      match wrap_res "failed to read attribute" (ReadAttribute st id) with
      | Ok a =>
          match GetSiblingChain fuel st (NextAttributeID a) with
          | Some r => Some ((λ c, a :: c) <$> r)
          | None => None
          end
      | Err e => Some (Err e)
      | Panic e => Some (Panic e)
      end
  end.

Definition FindAttributeByLabel (fuel : nat) (st : AttributeStore) (first label : Z)
  : option (res (option Attribute)) :=
  match GetSiblingChain fuel st first with
  | Some r =>
      Some ((λ siblings, snd <$> list_find (λ a, LabelValueID a = label) siblings) <$>
            wrap_res "failed to get sibling chain" r)
  | None => None
  end.

Definition GetAttributeCount (st : AttributeStore) : Z := u64 (as_nextID st - 1).

(** ** Abstract view: a list of attributes *)

#[global] Program Instance Attribute_record : FixedRecord Attribute := {
  rec_size := AttributeRecordSize;
  rec_enc := serializeAttribute
}.
Next Obligation. reflexivity. Qed.
Next Obligation. intros. unfold serializeAttribute, AttributeRecordSize. lens. Qed.

Definition attribute_ok (a : Attribute) : Prop :=
  is_u64 (LabelValueID a) ∧ is_u64 (FirstInstanceID a) ∧ is_u64 (NextAttributeID a).

Record attributes_rep (st : AttributeStore) (l : list Attribute) : Prop := {
  ar_file : as_file st = records_file l;
  ar_next : as_nextID st = len l + 1;
  ar_ids : ∀ k a, l !! k = Some a → AttrID a = Z.of_nat k + 1;
  ar_ok : ∀ k a, l !! k = Some a → attribute_ok a;
  ar_room : (len l + 1) * AttributeRecordSize < 2 ^ 63
}.

Definition attr_at (l : list Attribute) (id : Z) : option Attribute :=
  if id <=? 0 then None else l !! Z.to_nat (id - 1).

Definition set_first (v : Z) (a : Attribute) : Attribute :=
  {| AttrID := AttrID a; LabelValueID := LabelValueID a;
     FirstInstanceID := v; NextAttributeID := NextAttributeID a |}.
Definition set_next (v : Z) (a : Attribute) : Attribute :=
  {| AttrID := AttrID a; LabelValueID := LabelValueID a;
     FirstInstanceID := FirstInstanceID a; NextAttributeID := v |}.

(** [l] with the attribute of ID [id] changed by [f]. *)
Definition alter_attr (f : Attribute → Attribute) (id : Z) (l : list Attribute) :
  list Attribute := alter f (Z.to_nat (id - 1)) l.

(** ** Lemmas *)

Lemma attribute_roundtrip a id :
  attribute_ok a → AttrID a = id → deserializeAttribute (serializeAttribute a) id = a.
Proof.
  intros (Hl & Hf & Hn) <-. destruct a as [id l f n]; simpl in *.
  unfold deserializeAttribute, serializeAttribute.
  cbn [AttrID LabelValueID FirstInstanceID NextAttributeID].
  rewrite take_le_app, drop_le_app, take_le_app.
  rewrite (drop_le_app_add 8 8), drop_le_app, take_le.
  by rewrite !unle_le_small by (unfold is_u64 in *; lia).
Qed.

Lemma attr_at_lookup l id a :
  attr_at l id = Some a ↔ ∃ k, l !! k = Some a ∧ id = Z.of_nat k + 1.
Proof.
  unfold attr_at. split.
  - destruct (Z.leb_spec id 0); [done|]. intros Hi. exists (Z.to_nat (id - 1)).
    split; [done|lia].
  - intros (k & Hk & ->). rewrite (proj2 (Z.leb_gt _ _)) by lia.
    by replace (Z.to_nat (Z.of_nat k + 1 - 1)) with k by lia.
Qed.

Lemma attr_at_range l id a : attr_at l id = Some a → 1 ≤ id ≤ len l.
Proof. intros (k & Hk%lookup_lt_Some & ->)%attr_at_lookup. unfold len. lia. Qed.

Lemma attr_at_is_Some l id : 1 ≤ id ≤ len l → is_Some (attr_at l id).
Proof.
  intros. unfold attr_at, len in *. rewrite (proj2 (Z.leb_gt _ _)) by lia.
  apply lookup_lt_is_Some. lia.
Qed.

Lemma attr_at_snoc_old l a id : id ≤ len l → attr_at (l ++ [a]) id = attr_at l id.
Proof.
  unfold attr_at, len. intros. destruct (Z.leb_spec id 0); [done|].
  apply lookup_app_l. lia.
Qed.
Lemma attr_at_snoc_new l a : attr_at (l ++ [a]) (len l + 1) = Some a.
Proof.
  apply attr_at_lookup. exists (length l). split; [|unfold len; lia].
  by rewrite lookup_app_r, Nat.sub_diag by lia.
Qed.

Lemma attr_at_alter f l id j : 1 ≤ id →
  attr_at (alter_attr f id l) j = if decide (j = id) then f <$> attr_at l j else attr_at l j.
Proof.
  intros. unfold attr_at, alter_attr. destruct (Z.leb_spec j 0).
  - case_decide; [lia|done].
  - case_decide as Hj; [subst; apply list_lookup_alter_eq|apply list_lookup_alter_ne; lia].
Qed.

Lemma len_alter f id (l : list Attribute) : len (alter_attr f id l) = len l.
Proof. unfold alter_attr, len. by rewrite length_alter. Qed.

Lemma ReadAttribute_rep st l id a :
  attributes_rep st l → attr_at l id = Some a → ReadAttribute st id = Ok a.
Proof.
  intros Hr Ha. pose proof (attr_at_range _ _ _ Ha) as Hrg.
  apply attr_at_lookup in Ha as (k & Hk & ->). pose proof (ar_room _ _ Hr) as Hroom.
  unfold ReadAttribute. rewrite (proj2 (Z.eqb_neq _ _)) by lia.
  rewrite record_offset_small by (unfold AttributeRecordSize in *; lia).
  rewrite seek_ok by (unfold AttributeRecordSize; lia). ress.
  replace (Z.of_nat k + 1 - 1) with (Z.of_nat k) by lia. rewrite (ar_file _ _ Hr).
  pose proof (read_at_records l k a Hk) as Hrd. cbn [rec_size Attribute_record] in Hrd.
  rewrite Hrd. ress. rewrite Z.eqb_refl. f_equal.
  apply attribute_roundtrip; [by eapply (ar_ok _ _ Hr)|by eapply (ar_ids _ _ Hr)].
Qed.

Lemma WriteAttribute_rep st l lab first next :
  attributes_rep st l → is_u64 lab → is_u64 first → is_u64 next →
  (len l + 2) * AttributeRecordSize < 2 ^ 63 →
  ∃ st', WriteAttribute lab first next st = (st', Ok (len l + 1)) ∧
         attributes_rep st' (l ++ [mkAttribute (len l + 1) lab first next]).
Proof.
  intros Hr Hl Hf Hn Hroom. pose proof (len_nonneg l).
  unfold WriteAttribute. rewrite (ar_next _ _ Hr), (ar_file _ _ Hr).
  eexists; split; [reflexivity|]. split; cbn [as_file as_nextID].
  - rewrite write_at_append. by rewrite records_file_snoc.
  - rewrite u64_small; [lens|]. unfold is_u64, AttributeRecordSize in *. lia.
  - intros k i [Hk|[? Hk]]%lookup_app_Some; [by eapply ar_ids|].
    apply list_lookup_singleton_Some in Hk as [? <-]. cbn. unfold len. lia.
  - intros k i [Hk|[? Hk]]%lookup_app_Some; [by eapply ar_ok|].
    apply list_lookup_singleton_Some in Hk as [? <-]. by unfold attribute_ok.
  - lens.
Qed.

Lemma field_offset_attr k (l : list Attribute) off :
  (len l + 1) * AttributeRecordSize < 2 ^ 63 → (k < length l)%nat → 0 ≤ off < 24 →
  field_offset (Z.of_nat k + 1) AttributeRecordSize off =
    AttributeRecordSize * Z.of_nat k + off.
Proof.
  unfold field_offset, AttributeRecordSize, len. intros.
  rewrite (u64_small (_ - 1)) by (unfold is_u64; lia).
  rewrite u64_small by (unfold is_u64; lia). rewrite i64_small by (unfold is_i64; lia). lia.
Qed.

(** Both updates write one 8-byte field of a record in place. *)
Lemma update_field_rep st l id a (f : Attribute → Attribute) off d :
  attributes_rep st l → attr_at l id = Some a → 0 ≤ off < 24 → off + len d ≤ 24 →
  AttrID (f a) = AttrID a → attribute_ok (f a) →
  serializeAttribute (f a) = take (Z.to_nat off) (serializeAttribute a) ++ d ++
    drop (Z.to_nat off + length d) (serializeAttribute a) →
  (id =? 0) = false ∧
  seek (field_offset id AttributeRecordSize off) = Ok tt ∧
  attributes_rep
    {| as_file := write_at (as_file st) (field_offset id AttributeRecordSize off) d;
       as_nextID := as_nextID st |} (alter_attr f id l).
Proof.
  intros Hr Ha Hoff Hd Hid Hok Henc. pose proof (attr_at_range _ _ _ Ha).
  apply attr_at_lookup in Ha as (k & Hk & ->). pose proof (lookup_lt_Some _ _ _ Hk).
  pose proof (ar_room _ _ Hr) as Hroom.
  rewrite (field_offset_attr k l) by done.
  split_and!; [lia|apply seek_ok; unfold AttributeRecordSize; lia|].
  unfold alter_attr. replace (Z.to_nat (Z.of_nat k + 1 - 1)) with k by lia.
  assert (Halt : alter f k l = <[k:=f a]> l).
  { apply list_eq. intros j. destruct (decide (j = k)) as [->|].
    - rewrite list_lookup_alter_eq, list_lookup_insert_eq by done. by rewrite Hk.
    - by rewrite list_lookup_alter_ne, list_lookup_insert_ne by done. }
  rewrite Halt. split; cbn [as_file as_nextID]; rewrite ?len_insert.
  - rewrite (ar_file _ _ Hr). pose proof (write_at_records l k a (f a) off d Hk) as Hw.
    cbn [rec_size rec_enc Attribute_record] in Hw.
    apply Hw; [lia|unfold AttributeRecordSize; lia|done].
  - apply (ar_next _ _ Hr).
  - intros j r [(<- & <- & _)|[_ Hj]]%list_lookup_insert_Some;
      [rewrite Hid|]; by eapply (ar_ids _ _ Hr).
  - intros j r [(<- & <- & _)|[_ Hj]]%list_lookup_insert_Some;
      [done|by eapply (ar_ok _ _ Hr)].
  - done.
Qed.

Lemma UpdateAttributeFirstInstance_rep st l id a v :
  attributes_rep st l → attr_at l id = Some a → is_u64 v →
  ∃ st', UpdateAttributeFirstInstance id v st = (st', Ok tt) ∧
         attributes_rep st' (alter_attr (set_first v) id l).
Proof.
  intros Hr Ha Hv. pose proof Ha as (k & Hk & _)%attr_at_lookup.
  destruct (ar_ok _ _ Hr _ _ Hk) as (Hl & Hf & Hn).
  destruct (update_field_rep st l id a (set_first v) 8 (le 8 v)) as (H0 & Hs & Hr');
    [done|done|lia|lens|done|done| |].
  { rewrite length_le. unfold serializeAttribute. change (Z.to_nat 8) with 8%nat.
    by rewrite take_le_app, (drop_le_app_add 8 8), drop_le_app. }
  unfold UpdateAttributeFirstInstance. rewrite H0, Hs. ress. eauto.
Qed.

Lemma UpdateAttributeNextID_rep st l id a v :
  attributes_rep st l → attr_at l id = Some a → is_u64 v →
  ∃ st', UpdateAttributeNextID id v st = (st', Ok tt) ∧
         attributes_rep st' (alter_attr (set_next v) id l).
Proof.
  intros Hr Ha Hv. pose proof Ha as (k & Hk & _)%attr_at_lookup.
  destruct (ar_ok _ _ Hr _ _ Hk) as (Hl & Hf & Hn).
  destruct (update_field_rep st l id a (set_next v) 16 (le 8 v)) as (H0 & Hs & Hr');
    [done|done|lia|lens|done|done| |].
  { rewrite length_le. unfold serializeAttribute. change (Z.to_nat 16) with (8 + 8)%nat.
    cbn [LabelValueID FirstInstanceID NextAttributeID set_next].
    rewrite !(app_assoc (le 8 (LabelValueID a))).
    rewrite take_app_length' by (rewrite length_app, !length_le; done).
    rewrite drop_ge by (rewrite !length_app, !length_le; lia). by rewrite app_nil_r. }
  unfold UpdateAttributeNextID. rewrite H0, Hs. ress. eauto.
Qed.

Lemma NewAttributeStore_rep st l : attributes_rep st l → NewAttributeStore (as_file st) = st.
Proof.
  intros Hr. unfold NewAttributeStore. pose proof (ar_room _ _ Hr). pose proof (len_nonneg l).
  rewrite (ar_file _ _ Hr), fsize_records. cbn [rec_size Attribute_record].
  rewrite Z.mul_comm, Z.div_mul by done.
  rewrite u64_small by (unfold is_u64, AttributeRecordSize in *; lia).
  destruct st as [f n]. pose proof (ar_file _ _ Hr). pose proof (ar_next _ _ Hr).
  simpl in *. by subst.
Qed.

Lemma GetAttributeCount_rep st l : attributes_rep st l → GetAttributeCount st = len l.
Proof.
  intros Hr. unfold GetAttributeCount. rewrite (ar_next _ _ Hr). pose proof (len_nonneg l).
  pose proof (ar_room _ _ Hr). rewrite Z.add_simpl_r. apply u64_small.
  unfold is_u64, AttributeRecordSize in *. lia.
Qed.

(** *** Properties *)

(** Repointing an attribute is a one-field update.  After
    [UpdateAttributeFirstInstance] the attribute reads back with that field
    changed and nothing else, every other attribute reads as before, the count
    is unchanged and the file reopens to the same store. *)
Theorem update_first_instance_frame st l id v :
  attributes_rep st l → 1 ≤ id ≤ len l → is_u64 v →
  ∃ st' a, UpdateAttributeFirstInstance id v st = (st', Ok tt) ∧
    ReadAttribute st id = Ok a ∧ ReadAttribute st' id = Ok (set_first v a) ∧
    (∀ j, 1 ≤ j ≤ len l → j ≠ id → ReadAttribute st' j = ReadAttribute st j) ∧
    GetAttributeCount st' = GetAttributeCount st ∧
    NewAttributeStore (as_file st') = st'.
Proof.
  intros Hr Hid Hv. destruct (attr_at_is_Some l id Hid) as [a Ha].
  destruct (UpdateAttributeFirstInstance_rep st l id a v Hr Ha Hv) as (st' & Hu & Hr').
  exists st', a. split_and!; [done|by eapply ReadAttribute_rep| | | |].
  - eapply ReadAttribute_rep; [done|]. rewrite attr_at_alter, decide_True by lia.
    by rewrite Ha.
  - intros j Hj Hne. destruct (attr_at_is_Some l j Hj) as [aj Haj].
    rewrite (ReadAttribute_rep st l j aj), (ReadAttribute_rep st' (alter_attr (set_first v) id l) j aj);
      [done|done| |done|done]. by rewrite attr_at_alter, decide_False by lia.
  - by rewrite (GetAttributeCount_rep _ _ Hr), (GetAttributeCount_rep _ _ Hr'), len_alter.
  - by eapply NewAttributeStore_rep.
Qed.

Definition two_attributes : AttributeStore :=
  (WriteAttribute 12 0 0 (WriteAttribute 11 7 0 (NewAttributeStore [])).1).1.
Definition two_attribute_records : list Attribute := [mkAttribute 1 11 7 0; mkAttribute 2 12 0 0].

Lemma two_attributes_rep : attributes_rep two_attributes two_attribute_records.
Proof.
  split; [by vm_compute..| | |by vm_compute]; intros [|[|k]] i; simpl; intros [= <-];
    try done; repeat split; by vm_compute.
Qed.

Lemma update_first_instance_frame_witness :
  ∃ st' a, UpdateAttributeFirstInstance 2 5 two_attributes = (st', Ok tt) ∧
    ReadAttribute st' 2 = Ok (set_first 5 a) ∧ ReadAttribute st' 1 = Ok (mkAttribute 1 11 7 0).
Proof.
  destruct (update_first_instance_frame two_attributes two_attribute_records 2 5
    two_attributes_rep) as (st' & a & H1 & _ & H2 & H3 & _);
    [split; vm_compute; discriminate|split; vm_compute; [discriminate|reflexivity]|].
  exists st', a. split; [exact H1|split; [exact H2|]].
  rewrite H3; [reflexivity|split; vm_compute; discriminate|discriminate].
Defined.
