(* ===== verification/HashIndex.v ===== *)
(** * The hash index (internal/storage/hashindex.go)

    A chained hash table from label value IDs to attribute IDs, hashed with
    64-bit FNV-1a.  [Module HashIndex] has the code's operations; the table
    refines a finite map ([abs]) under the invariant [ok].  [LabelIndex] is the
    interface the tree relies on. *)
From S2P Require Import Prelude GoHash AttributeStore.

(** What an index promises its client: it is a finite map. *)
Class LabelIndex (I : Type) := {
  li_abs : I → gmap Z Z;
  li_ok : I → Prop;
  li_insert : Z → Z → I → I;
  li_lookup : I → Z → option Z;
  li_insert_ok : ∀ l a i, li_ok i → li_ok (li_insert l a i);
  li_insert_abs : ∀ l a i, li_ok i → li_abs (li_insert l a i) = <[l:=a]> (li_abs i);
  li_lookup_abs : ∀ l i, li_ok i → li_lookup i l = li_abs i !! l
}.

Module HashIndex.

Record HashBucket := mkBucket { LabelValueID : Z; AttributeID : Z }.

(** [Next] pointers are the order of a chain; a nil bucket is an empty chain. *)
Record HashIndex := mkHashIndex {
  buckets : list (list HashBucket);
  bucketCount : Z;
  size : Z
}.

Definition DefaultBucketCount : Z := 1024.

Definition NewHashIndex (bucketCount : Z) : HashIndex :=
  let bucketCount := if bucketCount =? 0 then DefaultBucketCount else bucketCount in
  {| buckets := replicate (Z.to_nat bucketCount) []; bucketCount := bucketCount; size := 0 |}.

(** [bytes[i] = byte(labelValueID >> (8*i))] is the little-endian encoding. *)
Definition hash (hi : HashIndex) (labelValueID : Z) : Z :=
  fnv64a (le 8 labelValueID) mod bucketCount hi.

Definition chain_at (hi : HashIndex) (labelValueID : Z) : list HashBucket :=
  default [] (buckets hi !! Z.to_nat (hash hi labelValueID)).

Definition set_chain (hi : HashIndex) (labelValueID : Z) (c : list HashBucket) (size : Z) :
  HashIndex :=
  {| buckets := <[Z.to_nat (hash hi labelValueID):=c]> (buckets hi);
     bucketCount := bucketCount hi; size := size |}.

(** The update loop: the first bucket with the label gets the new attribute;
    [None] when the label is not in the chain. *)
Fixpoint update_chain (l a : Z) (c : list HashBucket) : option (list HashBucket) :=
  match c with
  | [] => None
  | bk :: rest =>
      if LabelValueID bk =? l
      then Some ({| LabelValueID := LabelValueID bk; AttributeID := a |} :: rest)
      else (λ rest', bk :: rest') <$> update_chain l a rest
  end.

Definition Insert (labelValueID attributeID : Z) (hi : HashIndex) : HashIndex :=
  let c := chain_at hi labelValueID in
  match update_chain labelValueID attributeID c with
  | Some c' => set_chain hi labelValueID c' (size hi)
  | None =>
      set_chain hi labelValueID
        ({| LabelValueID := labelValueID; AttributeID := attributeID |} :: c)
        (u64 (size hi + 1))
  end.

Fixpoint search_chain (l : Z) (c : list HashBucket) : option Z :=
  match c with
  | [] => None
  | bk :: rest => if LabelValueID bk =? l then Some (AttributeID bk) else search_chain l rest
  end.

Definition Lookup (hi : HashIndex) (labelValueID : Z) : option Z :=
  search_chain labelValueID (chain_at hi labelValueID).

(** Removal from the inside of a chain: unlink the first bucket with the label. *)
Fixpoint unlink (l : Z) (c : list HashBucket) : option (list HashBucket) :=
  match c with
  | bk :: ((next :: after) as rest) =>
      if LabelValueID next =? l then Some (bk :: after)
      else (λ rest', bk :: rest') <$> unlink l rest
  | _ => None
  end.

Definition Remove (labelValueID : Z) (hi : HashIndex) : HashIndex * bool :=
  let c := chain_at hi labelValueID in
  let inner :=
    match unlink labelValueID c with
    | Some c' => (set_chain hi labelValueID c' (u64 (size hi - 1)), true)
    | None => (hi, false)
    end in
  match c with
  | bk :: rest =>
      if LabelValueID bk =? labelValueID
      then (set_chain hi labelValueID rest (u64 (size hi - 1)), true)
      else inner
  | [] => inner
  end.

Definition Size (hi : HashIndex) : Z := size hi.

Definition Clear (hi : HashIndex) : HashIndex :=
  {| buckets := replicate (Z.to_nat (bucketCount hi)) [];
     bucketCount := bucketCount hi; size := 0 |}.

(** The loop body of [RebuildFromAttributeStore]: [Insert]'s search and prepend. *)
Fixpoint rebuild_from (n : nat) (id : Z) (st : AttributeStore) (hi : HashIndex) :
  HashIndex * res unit :=
  match n with
  | O => (hi, Ok tt)
  | S n =>
      match ReadAttribute st id with
      | Ok a => rebuild_from n (id + 1) st (Insert (AttributeStore.LabelValueID a) id hi)
      | Err e => (hi, Err ("failed to read attribute during rebuild: " +:+ e))
      | Panic e => (hi, Panic e)
      end
  end.

Definition RebuildFromAttributeStore (st : AttributeStore) (hi : HashIndex) :
  HashIndex * res unit :=
  rebuild_from (Z.to_nat (GetAttributeCount st)) 1 st (Clear hi).

(** [usedBuckets, totalChainLength, maxChainLength] *)
Definition GetCollisionStats (hi : HashIndex) : Z * Z * Z :=
  fold_left (λ s c,
    let '(used, total, mx) := s in
    match c with
    | [] => s
    | _ => (u64 (used + 1), u64 (total + len c), Z.max mx (len c))
    end) (buckets hi) (0, 0, 0).

(** ** The finite map a table stands for *)

Definition pair_of (bk : HashBucket) : Z * Z := (LabelValueID bk, AttributeID bk).

Definition entries (hi : HashIndex) : list HashBucket := mjoin (buckets hi).

Definition abs (hi : HashIndex) : gmap Z Z := list_to_map (pair_of <$> entries hi).

Record ok (hi : HashIndex) : Prop := {
  ok_count : 0 < bucketCount hi;
  ok_len : len (buckets hi) = bucketCount hi;
  ok_home : ∀ k c bk, buckets hi !! k = Some c → bk ∈ c →
    Z.to_nat (hash hi (LabelValueID bk)) = k;
  ok_nodup : ∀ k c, buckets hi !! k = Some c → NoDup (LabelValueID <$> c);
  ok_size : size hi = u64 (len (entries hi))
}.

(** ** Chains *)

Definition chain_map (c : list HashBucket) : gmap Z Z := list_to_map (pair_of <$> c).

Lemma chain_map_cons bk c : chain_map (bk :: c) = <[LabelValueID bk:=AttributeID bk]> (chain_map c).
Proof. done. Qed.

Lemma chain_map_app c d : chain_map (c ++ d) = chain_map c ∪ chain_map d.
Proof. unfold chain_map. by rewrite fmap_app, list_to_map_app. Qed.

Lemma search_chain_map l c : search_chain l c = chain_map c !! l.
Proof.
  induction c as [|bk c IH]; [done|]. rewrite chain_map_cons. cbn [search_chain].
  destruct (Z.eqb_spec (LabelValueID bk) l) as [<-|];
    [by rewrite lookup_insert_eq|by rewrite lookup_insert_ne].
Qed.

Lemma chain_map_None l c : chain_map c !! l = None ↔ l ∉ LabelValueID <$> c.
Proof.
  unfold chain_map. by rewrite <- not_elem_of_list_to_map, <- list_fmap_compose.
Qed.

Lemma update_chain_None l a c : update_chain l a c = None → chain_map c !! l = None.
Proof.
  induction c as [|bk c IH]; [done|]. rewrite chain_map_cons. cbn [update_chain].
  destruct (Z.eqb_spec (LabelValueID bk) l); [done|].
  rewrite lookup_insert_ne by done. destruct (update_chain l a c); naive_solver.
Qed.

Lemma update_chain_Some l a c c' : update_chain l a c = Some c' →
  chain_map c' = <[l:=a]> (chain_map c) ∧ LabelValueID <$> c' = LabelValueID <$> c.
Proof.
  revert c'. induction c as [|bk c IH]; intros c'; [done|]. cbn [update_chain].
  destruct (Z.eqb_spec (LabelValueID bk) l) as [<-|Hne].
  - intros [= <-]. rewrite !chain_map_cons. cbn. by rewrite insert_insert_eq.
  - destruct (update_chain l a c) as [d|]; [|done]. intros [= <-].
    destruct (IH d eq_refl) as [Hm Hk]. rewrite !chain_map_cons, Hm. split.
    + by rewrite insert_insert_ne.
    + by rewrite !fmap_cons, Hk.
Qed.

(** Both removal paths take out the label's only entry. *)
Lemma chain_map_delete l bk c :
  NoDup (LabelValueID <$> bk :: c) → LabelValueID bk = l →
  chain_map c = delete l (chain_map (bk :: c)).
Proof.
  rewrite fmap_cons, NoDup_cons, chain_map_cons. intros [Hn _] <-.
  rewrite delete_insert_eq. symmetry. apply delete_id. by apply chain_map_None.
Qed.

Lemma unlink_cons2 l bk next after :
  unlink l (bk :: next :: after) =
    if LabelValueID next =? l then Some (bk :: after)
    else (λ rest', bk :: rest') <$> unlink l (next :: after).
Proof. done. Qed.

Lemma unlink_None l bk c :
  unlink l (bk :: c) = None → LabelValueID bk ≠ l → chain_map (bk :: c) !! l = None.
Proof.
  revert bk. induction c as [|next after IH]; intros bk.
  - intros _ Hne. rewrite chain_map_cons, lookup_insert_ne by done. apply lookup_empty.
  - rewrite unlink_cons2. destruct (Z.eqb_spec (LabelValueID next) l); [done|].
    intros H Hne. rewrite chain_map_cons, lookup_insert_ne by done. apply IH; [|done].
    revert H. by destruct (unlink l (next :: after)).
Qed.

Lemma unlink_Some l bk c c' :
  unlink l (bk :: c) = Some c' → LabelValueID bk ≠ l → NoDup (LabelValueID <$> bk :: c) →
  chain_map c' = delete l (chain_map (bk :: c)) ∧ length (bk :: c) = S (length c') ∧
  is_Some (chain_map (bk :: c) !! l) ∧ ∃ k, bk :: c ≡ₚ k :: c'.
Proof.
  revert bk c'. induction c as [|next after IH]; intros bk c'; [done|].
  rewrite unlink_cons2. destruct (Z.eqb_spec (LabelValueID next) l) as [<-|Hne'].
  - intros [= <-] Hne Hnd. split_and!; [|done| |exists next; apply Permutation_swap].
    + rewrite !(chain_map_cons bk), delete_insert_ne by done. f_equal.
      apply chain_map_delete; [|done]. by apply NoDup_cons in Hnd as [_ ?].
    + rewrite !chain_map_cons, lookup_insert_ne, lookup_insert_eq by done. eauto.
  - intros H Hne Hnd. destruct (unlink l (next :: after)) as [d|] eqn:Hu; [|done].
    injection H as <-. apply NoDup_cons in Hnd as [_ Hnd].
    destruct (IH next d Hu Hne' Hnd) as (Hm & Hl & Hs & k & Hp).
    rewrite !(chain_map_cons bk), Hm. split_and!.
    + by rewrite delete_insert_ne.
    + cbn [length] in *. lia.
    + by rewrite lookup_insert_ne.
    + exists k. rewrite Hp. apply Permutation_swap.
Qed.

(** ** Tables *)

Lemma hash_range hi l : ok hi → (Z.to_nat (hash hi l) < length (buckets hi))%nat.
Proof.
  intros Hok. pose proof (ok_count _ Hok). pose proof (ok_len _ Hok) as Hl. unfold len in Hl.
  unfold hash. pose proof (Z.mod_pos_bound (fnv64a (le 8 l)) (bucketCount hi)). lia.
Qed.

Lemma chain_at_lookup hi l : ok hi →
  buckets hi !! Z.to_nat (hash hi l) = Some (chain_at hi l).
Proof.
  intros Hok. pose proof (hash_range hi l Hok) as Hr.
  apply lookup_lt_is_Some in Hr as [c Hc]. unfold chain_at. by rewrite Hc.
Qed.

Lemma none_union (x : option Z) : None ∪ x = x.
Proof. by destruct x. Qed.

(** A label's entries are all in its home chain. *)
Lemma abs_join bs l h :
  (∀ k c, bs !! k = Some c → k ≠ h → chain_map c !! l = None) →
  chain_map (mjoin bs) !! l = chain_map (default [] (bs !! h)) !! l.
Proof.
  revert h. induction bs as [|c bs IH]; intros h Hother; [done|].
  change (mjoin (c :: bs)) with (c ++ mjoin bs).
  rewrite chain_map_app, lookup_union.
  destruct h as [|h]; cbn [lookup list_lookup].
  - assert (Hz : chain_map (mjoin bs) !! l = None).
    { rewrite (IH (length bs)).
      - rewrite lookup_ge_None_2 by done. apply lookup_empty.
      - intros k d Hk _. by apply (Hother (S k)). }
    rewrite Hz. change (chain_map c !! l ∪ None = chain_map c !! l). by destruct (chain_map c !! l).
  - rewrite (Hother 0%nat c), none_union by done. apply IH.
    intros k d Hk Hne. apply (Hother (S k)); [done|lia].
Qed.

Lemma abs_chain hi l : ok hi → abs hi !! l = chain_map (chain_at hi l) !! l.
Proof.
  intros Hok. unfold abs, entries, chain_at.
  change (list_to_map (pair_of <$> mjoin (buckets hi))) with (chain_map (mjoin (buckets hi))).
  apply abs_join. intros k c Hk Hne. apply chain_map_None. intros Hin.
  apply list_elem_of_fmap in Hin as (bk & -> & Hbk). by rewrite (ok_home _ Hok k c bk) in Hne.
Qed.

(** Replacing the home chain of a label. *)
Lemma length_join_insert (bs : list (list HashBucket)) h c c' : bs !! h = Some c →
  len (mjoin (<[h:=c']> bs)) = len (mjoin bs) - len c + len c'.
Proof.
  revert h. induction bs as [|d bs IH]; intros [|h] Hh; simplify_eq/=; rewrite !len_app; [lia|].
  rewrite (IH h Hh). lia.
Qed.

Lemma hash_set_chain hi l c n k : hash (set_chain hi l c n) k = hash hi k.
Proof. unfold hash, set_chain. cbn [bucketCount]. reflexivity. Qed.

Lemma set_chain_ok hi l c' n : ok hi →
  (∀ bk, bk ∈ c' → LabelValueID bk = l ∨ LabelValueID bk ∈ LabelValueID <$> chain_at hi l) →
  NoDup (LabelValueID <$> c') →
  n = u64 (len (entries hi) - len (chain_at hi l) + len c') →
  ok (set_chain hi l c' n).
Proof.
  intros Hok Hin Hnd Hn. pose proof (chain_at_lookup hi l Hok) as Hc.
  split; cbn [set_chain bucketCount buckets size].
  - apply (ok_count _ Hok).
  - rewrite len_insert. apply (ok_len _ Hok).
  - intros k c bk Hk Hbk. rewrite hash_set_chain.
    apply list_lookup_insert_Some in Hk as [(<- & <- & _)|[_ Hk]]; [|by apply (ok_home _ Hok k c bk)].
    destruct (Hin _ Hbk) as [<-|Hk]; [done|].
    apply list_elem_of_fmap in Hk as (bk' & -> & Hbk').
    by apply (ok_home _ Hok _ (chain_at hi l)).
  - intros k c [(<- & <- & _)|[_ Hk]]%list_lookup_insert_Some; [done|by eapply ok_nodup].
  - unfold entries. cbn. rewrite (length_join_insert _ _ _ _ Hc). done.
Qed.

Lemma set_chain_abs hi l c' n (g : option Z) : ok hi → ok (set_chain hi l c' n) →
  chain_map c' = partial_alter (λ _, g) l (chain_map (chain_at hi l)) →
  abs (set_chain hi l c' n) = partial_alter (λ _, g) l (abs hi).
Proof.
  intros Hok Hok' Hc. apply map_eq. intros k.
  rewrite (abs_chain _ _ Hok'). pose proof (chain_at_lookup hi l Hok) as Hl.
  assert (Hat : chain_at (set_chain hi l c' n) k =
    if decide (Z.to_nat (hash hi k) = Z.to_nat (hash hi l)) then c' else chain_at hi k).
  { unfold chain_at at 1. rewrite hash_set_chain. cbn [set_chain buckets].
    case_decide as He.
    - rewrite He, list_lookup_insert_eq by (by eapply lookup_lt_Some). done.
    - by rewrite list_lookup_insert_ne. }
  rewrite Hat. destruct (decide (k = l)) as [->|Hne].
  - by rewrite decide_True, lookup_partial_alter_eq, Hc, lookup_partial_alter_eq by done.
  - rewrite lookup_partial_alter_ne, (abs_chain _ _ Hok) by done. case_decide as He; [|done].
    rewrite Hc, lookup_partial_alter_ne by done.
    unfold chain_at. by rewrite He.
Qed.

Lemma Lookup_abs hi l : ok hi → Lookup hi l = abs hi !! l.
Proof. intros Hok. rewrite (abs_chain hi l Hok). apply search_chain_map. Qed.

Lemma chain_at_nodup hi l : ok hi → NoDup (LabelValueID <$> chain_at hi l).
Proof. intros Hok. eapply ok_nodup; [done|]. by apply chain_at_lookup. Qed.

Lemma update_chain_keys l a c c' : update_chain l a c = Some c' → len c' = len c.
Proof.
  intros [_ Hk]%update_chain_Some. apply (f_equal length) in Hk.
  rewrite !length_fmap in Hk. unfold len. by rewrite Hk.
Qed.

Lemma Insert_spec l a hi : ok hi →
  ok (Insert l a hi) ∧ abs (Insert l a hi) = <[l:=a]> (abs hi).
Proof.
  intros Hok. unfold Insert. pose proof (chain_at_nodup hi l Hok) as Hnd.
  destruct (update_chain l a (chain_at hi l)) as [c'|] eqn:Hu.
  - pose proof (update_chain_keys _ _ _ _ Hu). apply update_chain_Some in Hu as [Hm Hk].
    assert (Hok' : ok (set_chain hi l c' (size hi))).
    { apply set_chain_ok; [done| |by rewrite Hk|].
      - intros bk Hbk. right. rewrite <- Hk. by apply list_elem_of_fmap_2.
      - rewrite (ok_size _ Hok). f_equal. lia. }
    split; [done|]. by apply (set_chain_abs hi l c' (size hi) (Some a)).
  - apply update_chain_None in Hu as Hn. apply chain_map_None in Hn.
    set (bk := {| LabelValueID := l; AttributeID := a |}).
    assert (Hok' : ok (set_chain hi l (bk :: chain_at hi l) (u64 (size hi + 1)))).
    { apply set_chain_ok; [done| | |].
      - intros bk' [->|Hbk]%elem_of_cons; [by left|]. right. by apply list_elem_of_fmap_2.
      - rewrite fmap_cons, NoDup_cons. done.
      - rewrite (ok_size _ Hok), len_cons. unfold u64.
        rewrite Zplus_mod_idemp_l. f_equal. lia. }
    split; [done|].
    by apply (set_chain_abs hi l (bk :: chain_at hi l) (u64 (size hi + 1)) (Some a)).
Qed.

(** Taking one bucket with the label out of its chain. *)
Lemma remove_chain hi l c' : ok hi →
  chain_map c' = delete l (chain_map (chain_at hi l)) →
  (∃ k, chain_at hi l ≡ₚ k :: c') →
  ok (set_chain hi l c' (u64 (size hi - 1))) ∧
  abs (set_chain hi l c' (u64 (size hi - 1))) = delete l (abs hi).
Proof.
  intros Hok Hm [k Hp]. pose proof (chain_at_nodup hi l Hok) as Hnd.
  assert (Hok' : ok (set_chain hi l c' (u64 (size hi - 1)))).
  { apply set_chain_ok; [done| | |].
    - intros bk Hbk. right. apply list_elem_of_fmap_2. rewrite Hp. by right.
    - rewrite Hp, fmap_cons in Hnd. by apply NoDup_cons in Hnd as [_ ?].
    - rewrite (ok_size _ Hok). unfold u64. rewrite Zminus_mod_idemp_l. f_equal.
      pose proof (Permutation_length Hp) as Hl.
      unfold len. simpl in Hl. lia. }
  split; [done|]. by apply (set_chain_abs hi l c' (u64 (size hi - 1)) None).
Qed.

Lemma Remove_spec l hi : ok hi →
  ok (Remove l hi).1 ∧ abs (Remove l hi).1 = delete l (abs hi) ∧
  (Remove l hi).2 = bool_decide (is_Some (abs hi !! l)).
Proof.
  intros Hok. unfold Remove. rewrite (abs_chain hi l Hok).
  pose proof (chain_at_nodup hi l Hok) as Hnd.
  assert (Hnone : chain_map (chain_at hi l) !! l = None →
    ok hi ∧ abs hi = delete l (abs hi) ∧
    false = bool_decide (is_Some (chain_map (chain_at hi l) !! l))).
  { intros Hn. split_and!; [done| |by rewrite Hn].
    symmetry. apply delete_id. by rewrite abs_chain. }
  assert (Hsome : ∀ c', chain_map c' = delete l (chain_map (chain_at hi l)) →
    (∃ k, chain_at hi l ≡ₚ k :: c') → is_Some (chain_map (chain_at hi l) !! l) →
    let r := (set_chain hi l c' (u64 (size hi - 1)), true) in
    ok r.1 ∧ abs r.1 = delete l (abs hi) ∧
    r.2 = bool_decide (is_Some (chain_map (chain_at hi l) !! l))).
  { intros c' Hm Hp Hs r. destruct (remove_chain hi l c' Hok Hm Hp).
    split_and!; [done..|]. by rewrite bool_decide_true. }
  destruct (chain_at hi l) as [|bk rest]; [by apply Hnone|].
  destruct (Z.eqb_spec (LabelValueID bk) l) as [He|Hne].
  - apply Hsome; [by apply chain_map_delete|by exists bk|].
    rewrite chain_map_cons, <- He, lookup_insert_eq. eauto.
  - destruct (unlink l (bk :: rest)) as [c'|] eqn:Hu.
    + destruct (unlink_Some l bk rest c' Hu Hne Hnd) as (Hm & _ & Hs & Hp).
      by apply Hsome.
    + apply Hnone. by apply unlink_None.
Qed.

(** *** Empty tables *)

Lemma join_replicate_nil n : mjoin (replicate n (@nil HashBucket)) = [].
Proof. by induction n. Qed.

Lemma empty_table n : 0 < n →
  let hi := {| buckets := replicate (Z.to_nat n) []; bucketCount := n; size := 0 |} in
  ok hi ∧ abs hi = ∅.
Proof.
  intros Hn hi. split.
  - split; cbn.
    + done.
    + rewrite len_replicate. lia.
    + intros k c bk [-> _]%lookup_replicate Hbk. by apply not_elem_of_nil in Hbk.
    + intros k c [-> _]%lookup_replicate. constructor.
    + unfold entries. cbn. by rewrite join_replicate_nil.
  - unfold abs, entries. cbn. by rewrite join_replicate_nil.
Qed.

Lemma NewHashIndex_spec n : 0 ≤ n → ok (NewHashIndex n) ∧ abs (NewHashIndex n) = ∅.
Proof.
  intros. unfold NewHashIndex. destruct (Z.eqb_spec n 0); apply empty_table; [done|lia].
Qed.

Lemma Clear_spec hi : ok hi → ok (Clear hi) ∧ abs (Clear hi) = ∅.
Proof. intros Hok. apply empty_table, (ok_count _ Hok). Qed.

(** *** Sizes *)

Lemma entries_nodup_from bs (f : Z → nat) (k0 : nat) :
  (∀ k c bk, bs !! k = Some c → bk ∈ c → f (LabelValueID bk) = (k0 + k)%nat) →
  (∀ k c, bs !! k = Some c → NoDup (LabelValueID <$> c)) →
  NoDup (LabelValueID <$> mjoin bs).
Proof.
  revert k0. induction bs as [|c bs IH]; intros k0 Hh Hn; [constructor|].
  change (mjoin (c :: bs)) with (c ++ mjoin bs). rewrite fmap_app, NoDup_app. split_and!.
  - by apply (Hn 0%nat).
  - intros l (bk & -> & Hbk)%list_elem_of_fmap (bk' & He & Hbk')%list_elem_of_fmap.
    apply list_elem_of_join in Hbk' as (d & Hbk' & (k & Hk)%list_elem_of_lookup).
    pose proof (Hh 0%nat c bk eq_refl Hbk) as H1.
    pose proof (Hh (S k) d bk' Hk Hbk') as H2. rewrite <- He in H2. lia.
  - apply (IH (S k0)).
    + intros k d bk Hk Hbk. rewrite (Hh (S k) d bk Hk Hbk). lia.
    + intros k d Hk. by apply (Hn (S k)).
Qed.

Lemma entries_size hi : ok hi → len (entries hi) = Z.of_nat (base.size (abs hi)).
Proof.
  intros Hok. unfold abs, len. f_equal. rewrite map_size_list_to_map.
  - by rewrite length_fmap.
  - rewrite <- list_fmap_compose. change (fst ∘ pair_of) with LabelValueID.
    apply (entries_nodup_from (buckets hi) (λ l, Z.to_nat (hash hi l)) 0);
      [apply (ok_home _ Hok)|apply (ok_nodup _ Hok)].
Qed.

Lemma Size_abs hi : ok hi → len (entries hi) < 2 ^ 64 →
  Size hi = Z.of_nat (base.size (abs hi)).
Proof.
  intros Hok Hb. unfold Size. rewrite (ok_size _ Hok).
  pose proof (len_nonneg (entries hi)). rewrite u64_small by (unfold is_u64; lia).
  by apply entries_size.
Qed.

(** *** Rebuilding from the attribute file *)

(** The map the attribute file stands for: of several attributes with a label,
    the last one. *)
Definition label_map (l : list Attribute) : gmap Z Z :=
  foldl (λ m a, <[AttributeStore.LabelValueID a:=AttrID a]> m) ∅ l.

Lemma rebuild_from_spec st l1 l2 hi :
  attributes_rep st (l1 ++ l2) → ok hi → abs hi = label_map l1 →
  ∃ hi', rebuild_from (length l2) (len l1 + 1) st hi = (hi', Ok tt) ∧
         ok hi' ∧ abs hi' = label_map (l1 ++ l2).
Proof.
  revert l1 hi. induction l2 as [|a l2 IH]; intros l1 hi Hr Hok Habs.
  - exists hi. by rewrite app_nil_r.
  - cbn [length rebuild_from].
    assert (Ha : attr_at (l1 ++ a :: l2) (len l1 + 1) = Some a).
    { apply attr_at_lookup. exists (length l1). split; [by rewrite list_lookup_middle|done]. }
    rewrite (ReadAttribute_rep _ _ _ _ Hr Ha).
    replace (l1 ++ a :: l2) with ((l1 ++ [a]) ++ l2) in * by by rewrite <- app_assoc.
    destruct (Insert_spec (AttributeStore.LabelValueID a) (len l1 + 1) hi Hok) as [Hok' Habs'].
    replace (len l1 + 1 + 1) with (len (l1 ++ [a]) + 1) by lens.
    apply IH; [done..|]. rewrite Habs', Habs. unfold label_map. rewrite foldl_snoc.
    apply attr_at_lookup in Ha as (k & Hk & Hid).
    by rewrite (ar_ids _ _ Hr k a Hk), Hid.
Qed.

Lemma RebuildFromAttributeStore_spec st l hi : attributes_rep st l → ok hi →
  ∃ hi', RebuildFromAttributeStore st hi = (hi', Ok tt) ∧ ok hi' ∧ abs hi' = label_map l.
Proof.
  intros Hr Hok. unfold RebuildFromAttributeStore.
  rewrite (GetAttributeCount_rep _ _ Hr). unfold len. rewrite Nat2Z.id.
  destruct (Clear_spec hi Hok). by apply (rebuild_from_spec st [] l).
Qed.

Lemma label_map_snoc l a :
  label_map (l ++ [a]) = <[AttributeStore.LabelValueID a:=AttrID a]> (label_map l).
Proof. unfold label_map. by rewrite foldl_snoc. Qed.

(** [label_map] read pointwise, for attributes numbered by position. *)
Lemma label_map_lookup l lab id :
  (∀ k a, l !! k = Some a → AttrID a = Z.of_nat k + 1) →
  label_map l !! lab = Some id ↔
    (∃ a, attr_at l id = Some a ∧ AttributeStore.LabelValueID a = lab) ∧
    (∀ j a, id < j → attr_at l j = Some a → AttributeStore.LabelValueID a ≠ lab).
Proof.
  induction l as [|x l IH] using rev_ind; intros Hids.
  { change (label_map []) with (∅ : gmap Z Z). rewrite lookup_empty. split; [done|].
    intros [(a & (k & Hk & _)%attr_at_lookup & _) _]. done. }
  assert (Hx : AttrID x = len l + 1).
  { rewrite (Hids (length l) x); [done|]. by rewrite list_lookup_middle. }
  assert (IH' := IH (λ k a Hk, Hids k a (lookup_app_l_Some _ _ _ _ Hk))). clear IH.
  rewrite label_map_snoc, Hx.
  assert (Hcase : ∀ j a, attr_at (l ++ [x]) j = Some a ↔
    (j = len l + 1 ∧ a = x) ∨ (j ≤ len l ∧ attr_at l j = Some a)).
  { intros j a. split.
    - intros H. pose proof (attr_at_range _ _ _ H) as Hr.
      destruct (decide (j = len l + 1)) as [->|].
      + left. rewrite attr_at_snoc_new in H. by simplify_eq.
      + right. rewrite len_app in Hr. change (len [x]) with 1 in Hr.
        rewrite attr_at_snoc_old in H by lia. split; [lia|done].
    - intros [[-> ->]|[Hj H]]; [by rewrite attr_at_snoc_new|by rewrite attr_at_snoc_old]. }
  destruct (decide (AttributeStore.LabelValueID x = lab)) as [<-|Hne].
  - rewrite lookup_insert_eq. split.
    + intros [= <-]. split; [exists x; by rewrite attr_at_snoc_new|].
      intros j a Hj [[-> _]|[Hj' _]]%Hcase; lia.
    + intros [(a & Ha & _) Hmax]. f_equal. apply Hcase in Ha as [[-> _]|[Hid _]]; [done|].
      by destruct (Hmax (len l + 1) x ltac:(lia) (attr_at_snoc_new l x)).
  - rewrite lookup_insert_ne, IH' by done. split.
    + intros [(a & Ha & Hlab) Hmax]. pose proof (attr_at_range _ _ _ Ha). split.
      * exists a. split; [|done]. apply Hcase. right. split; [lia|done].
      * intros j a' Hj [[-> ->]|[Hj' Ha']]%Hcase; [done|by eapply Hmax].
    + intros [(a & [[-> ->]|[Hid Ha]]%Hcase & Hlab) Hmax]; [done|]. split; [by exists a|].
      intros j a' Hj Ha'. pose proof (attr_at_range _ _ _ Ha').
      apply (Hmax j); [done|]. apply Hcase. right. split; [lia|done].
Qed.

(** *** Collision statistics *)

Lemma stats_total bs u t m : 0 ≤ t → t + len (mjoin bs) < 2 ^ 64 →
  (fold_left (λ s (c : list HashBucket),
    let '(used, total, mx) := s in
    match c with
    | [] => s
    | _ => (u64 (used + 1), u64 (total + len c), Z.max mx (len c))
    end) bs (u, t, m)).1.2 = t + len (mjoin bs).
Proof.
  revert u t m. induction bs as [|c bs IH]; intros u t m Ht Hb; [simpl; lens|].
  change (mjoin (c :: bs)) with (c ++ mjoin bs) in *. rewrite len_app in *.
  pose proof (len_nonneg (mjoin bs)). pose proof (len_nonneg c). cbn [fold_left].
  destruct c as [|bk c].
  { rewrite len_nil in *. rewrite IH; lia. }
  rewrite (u64_small (t + _)) by (unfold is_u64; lia). rewrite IH; lia.
Qed.

(** ** Sequences of operations *)

Inductive op := OpInsert (l a : Z) | OpRemove (l : Z) | OpClear.

Definition run_op (hi : HashIndex) (o : op) : HashIndex :=
  match o with
  | OpInsert l a => Insert l a hi
  | OpRemove l => (Remove l hi).1
  | OpClear => Clear hi
  end.

Definition map_op (m : gmap Z Z) (o : op) : gmap Z Z :=
  match o with OpInsert l a => <[l:=a]> m | OpRemove l => delete l m | OpClear => ∅ end.

Lemma run_op_spec o hi : ok hi → ok (run_op hi o) ∧ abs (run_op hi o) = map_op (abs hi) o.
Proof.
  intros Hok. destruct o; cbn [run_op map_op].
  - by apply Insert_spec.
  - destruct (Remove_spec l hi Hok) as (? & ? & _). done.
  - by apply Clear_spec.
Qed.

Lemma run_ops_spec ops hi : ok hi →
  ok (foldl run_op hi ops) ∧ abs (foldl run_op hi ops) = foldl map_op (abs hi) ops.
Proof.
  revert hi. induction ops as [|o ops IH]; intros hi Hok; [done|]. cbn [foldl].
  destruct (run_op_spec o hi Hok) as [Hok' <-]. by apply IH.
Qed.

Lemma map_op_size m o : (base.size (map_op m o) ≤ S (base.size m))%nat.
Proof.
  destruct o as [l a|l|]; cbn.
  - rewrite map_size_insert. destruct (m !! l); simpl; lia.
  - rewrite map_size_delete. destruct (m !! l); simpl; lia.
  - rewrite map_size_empty. lia.
Qed.

Lemma map_ops_size ops : (base.size (foldl map_op ∅ ops) ≤ length ops)%nat.
Proof.
  induction ops as [|o ops IH] using rev_ind; [done|].
  rewrite foldl_snoc, length_app. pose proof (map_op_size (foldl map_op ∅ ops) o). simpl. lia.
Qed.

(** *** Properties *)

(** C7: the hash table is a finite map.  After any sequence of inserts,
    removals and clears on a new table, a lookup finds what the same sequence
    on a map holds (the last attribute inserted for the label and not removed
    since), [Remove] reports whether the label was there, [Size] and the total
    chain length of [GetCollisionStats] are the number of labels. *)
Theorem table_refines_map n ops l :
  0 ≤ n → len ops < 2 ^ 63 →
  let hi := foldl run_op (NewHashIndex n) ops in
  let m := foldl map_op ∅ ops in
  Lookup hi l = m !! l ∧
  (Remove l hi).2 = bool_decide (is_Some (m !! l)) ∧
  Size hi = Z.of_nat (base.size m) ∧
  (GetCollisionStats hi).1.2 = Z.of_nat (base.size m).
Proof.
  intros Hn Hops hi m. destruct (NewHashIndex_spec n Hn) as [Hok0 Habs0].
  destruct (run_ops_spec ops _ Hok0) as [Hok Habs]. rewrite Habs0 in Habs.
  fold hi m in Hok, Habs. pose proof (map_ops_size ops) as Hsz.
  assert (Hent : len (entries hi) = Z.of_nat (base.size m)) by (by rewrite entries_size, Habs).
  unfold len in Hops. fold m in Hsz. clearbody hi m.
  split_and!.
  - by rewrite Lookup_abs, Habs.
  - destruct (Remove_spec l hi Hok) as (_ & _ & ->). by rewrite Habs.
  - rewrite Size_abs, Habs; [done|done|]. lia.
  - unfold GetCollisionStats. rewrite stats_total; unfold entries in *; lia.
Qed.

Lemma table_refines_map_witness :
  let ops := [OpInsert 7 1; OpInsert 7 2; OpInsert 9 3; OpRemove 9] in
  Lookup (foldl run_op (NewHashIndex 2) ops) 7 = Some 2 ∧
  Lookup (foldl run_op (NewHashIndex 2) ops) 9 = None.
Proof.
  set (ops := [OpInsert 7 1; OpInsert 7 2; OpInsert 9 3; OpRemove 9]). cbv zeta. split.
  - destruct (table_refines_map 2 ops 7) as [H _]; [lia|by vm_compute|].
    rewrite H. by vm_compute.
  - destruct (table_refines_map 2 ops 9) as [H _]; [lia|by vm_compute|].
    rewrite H. by vm_compute.
Defined.

(** Rebuilding the index from the attribute file always succeeds, whatever
    the table held, and then finds exactly the last attribute written for a
    label: [Lookup] gives [id] iff attribute [id] has the label and no later
    attribute does. *)
Theorem rebuild_finds_last_attribute st l hi lab id :
  attributes_rep st l → ok hi →
  (RebuildFromAttributeStore st hi).2 = Ok tt ∧
  (Lookup (RebuildFromAttributeStore st hi).1 lab = Some id ↔
    (∃ a, ReadAttribute st id = Ok a ∧ 1 ≤ id ≤ GetAttributeCount st ∧
       AttributeStore.LabelValueID a = lab) ∧
    (∀ j a, id < j ≤ GetAttributeCount st → ReadAttribute st j = Ok a →
       AttributeStore.LabelValueID a ≠ lab)).
Proof.
  intros Hr Hok. destruct (RebuildFromAttributeStore_spec st l hi Hr Hok) as (hi' & -> & Hok' & Habs).
  split; [done|]. cbn [fst].
  rewrite (Lookup_abs _ _ Hok'), Habs, (label_map_lookup _ _ _ (ar_ids _ _ Hr)).
  rewrite (GetAttributeCount_rep _ _ Hr). split.
  - intros [(a & Ha & Hlab) Hmax]. split.
    + exists a. split_and!; [by eapply ReadAttribute_rep|..|done]; apply attr_at_range in Ha; lia.
    + intros j a' Hj Ha'. pose proof (attr_at_range _ _ _ Ha).
      destruct (attr_at_is_Some l j) as [aj Haj]; [lia|].
      rewrite (ReadAttribute_rep _ _ _ _ Hr Haj) in Ha'. injection Ha' as <-.
      by apply (Hmax j); [lia|].
  - intros [(a & Ha & Hid & Hlab) Hmax]. split.
    + destruct (attr_at_is_Some l id Hid) as [ai Hai]. exists ai.
      rewrite (ReadAttribute_rep _ _ _ _ Hr Hai) in Ha. by injection Ha as ->.
    + intros j a' Hj Ha'. pose proof (attr_at_range _ _ _ Ha').
      apply (Hmax j); [lia|]. by eapply ReadAttribute_rep.
Qed.

Lemma rebuild_finds_last_attribute_witness :
  Lookup (RebuildFromAttributeStore two_attributes (NewHashIndex 4)).1 12 = Some 2.
Proof.
  destruct (NewHashIndex_spec 4) as [Hok _]; [lia|].
  apply (rebuild_finds_last_attribute two_attributes two_attribute_records (NewHashIndex 4) 12 2
    two_attributes_rep Hok).
  split.
  - exists (mkAttribute 2 12 0 0). split; [reflexivity|]. split; [split; by vm_compute|reflexivity].
  - intros j a Hj. assert (Hc : GetAttributeCount two_attributes = 2) by reflexivity.
    rewrite Hc in Hj. lia.
Defined.

End HashIndex.

#[global] Instance HashIndex_LabelIndex : LabelIndex HashIndex.HashIndex := {
  li_abs := HashIndex.abs;
  li_ok := HashIndex.ok;
  li_insert := HashIndex.Insert;
  li_lookup := HashIndex.Lookup;
  li_insert_ok l a i H := proj1 (HashIndex.Insert_spec l a i H);
  li_insert_abs l a i H := proj2 (HashIndex.Insert_spec l a i H);
  li_lookup_abs l i H := HashIndex.Lookup_abs i l H
}.
