(* ===== verification/ValueCodec.v ===== *)
(** * Value records and value IDs (internal/storage/values.go)

    Type tags, record sentinels, the record format of a stored value, its
    content hash, and the packing of (tier, bucket, offset) into a 64-bit value
    ID.  The stateful store is in [ValueStore]. *)
From S2P Require Import Prelude GoHash.

Definition TypeText : byte := Byte.x01.
Definition TypeNumber : byte := Byte.x02.
Definition TypeTime : byte := Byte.x03.
Definition TypeMoney : byte := Byte.x04.
Definition TypePicture : byte := Byte.x05.
Definition TypeReference : byte := Byte.x06.
Definition TypeProcedure : byte := Byte.x07.
Definition TypeWatcher : byte := Byte.x08.
Definition TypeEmbed : byte := Byte.x09.
Definition TypeNothing : byte := Byte.xf0.
Definition TypeUnknown : byte := Byte.xf1.
Definition TypeAnything : byte := Byte.xf2.

Definition SentinelValue : byte := Byte.x1e.
Definition SentinelTombstone : byte := Byte.x1f.

Definition Tier0MaxSize : Z := 64.
Definition Tier1MaxSize : Z := 512.
Definition Tier2MaxSize : Z := 4096.

Definition OffsetBits : Z := 40.
Definition TierBits : Z := 2.
Definition BucketBits : Z := 22.
Definition OffsetMask : Z := Z.shiftl 1 OffsetBits - 1.
Definition TierMask : Z := Z.shiftl (Z.shiftl 1 TierBits - 1) OffsetBits.
Definition BucketMask : Z := Z.shiftl (Z.shiftl 1 BucketBits - 1) (OffsetBits + TierBits).

Record Value := mkValue { TypeTag : byte; Data : list byte }.

#[global] Instance Value_eq_dec : EqDecision Value.
Proof. solve_decision. Defined.

Definition isVariableLength (typeTag : byte) : bool :=
  if bool_decide (typeTag ∈ [TypeText; TypeMoney; TypePicture; TypeReference;
                             TypeProcedure; TypeWatcher; TypeEmbed; TypeUnknown]) then true
  else if bool_decide (typeTag ∈ [TypeNumber; TypeTime; TypeNothing; TypeAnything]) then false
  else true.

Definition getFixedTypeSize (typeTag : byte) : Z :=
  if bool_decide (typeTag = TypeNumber) then 8
  else if bool_decide (typeTag = TypeTime) then 9
  else if bool_decide (typeTag ∈ [TypeNothing; TypeAnything]) then 0
  else 0.

Definition serializeValue (v : Value) : list byte :=
  [SentinelValue] ++ [TypeTag v] ++
  (if isVariableLength (TypeTag v) then le 4 (u32 (len (Data v))) else []) ++
  Data v.

(** The reslicing [data[a:b]] is in range wherever the code reaches it. *)
Definition deserializeValue (data : list byte) : res Value :=
  match data with
  | sentinel :: typeTag :: rest =>
      if bool_decide (sentinel = SentinelTombstone) then Err "value is tombstoned"
      else if negb (bool_decide (sentinel = SentinelValue)) then Err "invalid sentinel"
      else if isVariableLength typeTag then
        if len data <? 2 + 4 then Err "missing length field" else
        let length := unle (take 4 rest) in
        if len data <? 6 + length then Err "incomplete data" else
        Ok {| TypeTag := typeTag; Data := take (Z.to_nat length) (drop 4 rest) |}
      else
        let expectedSize := getFixedTypeSize typeTag in
        if len data <? 2 + expectedSize then Err "incomplete fixed-length data" else
        Ok {| TypeTag := typeTag; Data := take (Z.to_nat expectedSize) rest |}
  | _ => Err "data too short"
  end.

(** [h.Sum(nil)] is the digest of tag and data; it is hashed again. *)
Definition hashValue (v : Value) : list byte := sha256 (sha256 ([TypeTag v] ++ Data v)).
#[global] Arguments hashValue : simpl never.

Definition determineTier (size : Z) : Z :=
  if size <=? Tier0MaxSize then 0
  else if size <=? Tier1MaxSize then 1
  else if size <=? Tier2MaxSize then 2
  else 3.

Definition encodeValueID (tier bucket offset : Z) : Z :=
  Z.lor (Z.lor offset (u64 (Z.shiftl (u64 tier) OffsetBits)))
        (u64 (Z.shiftl bucket (OffsetBits + TierBits))).

Definition extractTier (valueID : Z) : Z := Z.shiftr (Z.land valueID TierMask) OffsetBits.
Definition extractBucket (valueID : Z) : Z :=
  Z.shiftr (Z.land valueID BucketMask) (OffsetBits + TierBits).
Definition extractOffset (valueID : Z) : Z := Z.land valueID OffsetMask.

(** Values whose record can be read back: a length that fits its field, or
    the data size the type has. *)
Definition value_ok (v : Value) : Prop :=
  if isVariableLength (TypeTag v) then is_u32 (len (Data v))
  else len (Data v) = getFixedTypeSize (TypeTag v).

#[global] Instance value_ok_dec v : Decision (value_ok v).
Proof. unfold value_ok. destruct (isVariableLength (TypeTag v)); apply _. Defined.

(** ** Lemmas: records *)

Lemma isVariableLength_spec t :
  isVariableLength t = negb (bool_decide (t ∈ [TypeNumber; TypeTime; TypeNothing; TypeAnything])).
Proof. by destruct t. Qed.

Lemma getFixedTypeSize_range t : 0 ≤ getFixedTypeSize t ≤ 9.
Proof. by destruct t. Qed.

Definition header_size (t : byte) : Z := if isVariableLength t then 6 else 2.

Lemma len_serializeValue v : len (serializeValue v) = header_size (TypeTag v) + len (Data v).
Proof.
  unfold serializeValue, header_size. rewrite !len_app, !len_cons, !len_nil.
  destruct (isVariableLength _); lens; rewrite ?len_nil; lia.
Qed.

Lemma serializeValue_variable v : isVariableLength (TypeTag v) = true → is_u32 (len (Data v)) →
  serializeValue v = SentinelValue :: TypeTag v :: le 4 (len (Data v)) ++ Data v.
Proof. intros Hv Hl. unfold serializeValue. by rewrite Hv, u32_small. Qed.

Lemma serializeValue_fixed v : isVariableLength (TypeTag v) = false →
  serializeValue v = SentinelValue :: TypeTag v :: Data v.
Proof. intros Hv. unfold serializeValue. by rewrite Hv. Qed.

(** Reading back a record, whatever follows it. *)
Lemma deserialize_serialize v rest : value_ok v →
  deserializeValue (serializeValue v ++ rest) = Ok v.
Proof.
  unfold value_ok. destruct (isVariableLength (TypeTag v)) eqn:Hv; intros Hok.
  - rewrite serializeValue_variable by done. cbn [app]. unfold deserializeValue.
    rewrite bool_decide_false, bool_decide_true, Hv by done. cbn [negb].
    rewrite <- !app_assoc, take_le_app, drop_le_app, unle_le_small by (unfold is_u32 in *; lia).
    assert (Hlen : ∀ x y : byte, len (x :: y :: le 4 (len (Data v)) ++ Data v ++ rest) =
      6 + len (Data v) + len rest) by (intros; rewrite !len_cons, !len_app, len_le; lia).
    rewrite Hlen. pose proof (len_nonneg (Data v)). pose proof (len_nonneg rest).
    rewrite !(proj2 (Z.ltb_ge _ _)) by lia. unfold len.
    rewrite Nat2Z.id, take_app_len. by destruct v.
  - rewrite serializeValue_fixed by done. cbn [app]. unfold deserializeValue.
    rewrite bool_decide_false, bool_decide_true, Hv by done. cbn [negb].
    rewrite !len_cons, len_app. pose proof (len_nonneg rest).
    rewrite (proj2 (Z.ltb_ge _ _)) by lia. rewrite <- Hok. unfold len.
    rewrite Nat2Z.id, take_app_len. by destruct v.
Qed.

Lemma serializeValue_inj v w : value_ok v → value_ok w →
  serializeValue v = serializeValue w → v = w.
Proof.
  intros Hv Hw H. pose proof (deserialize_serialize v [] Hv) as H1.
  rewrite H, deserialize_serialize in H1 by done. by injection H1 as ->.
Qed.

Lemma determineTier_range n : 0 ≤ determineTier n ≤ 3.
Proof. unfold determineTier. repeat case_match; lia. Qed.

(** ** Lemmas: value IDs *)

Lemma land_ones_mod a n : 0 ≤ n → Z.land a (Z.shiftl 1 n - 1) = a mod 2 ^ n.
Proof. intros. rewrite Z.shiftl_1_l, <- Z.land_ones by done. by rewrite Z.ones_equiv, Z.sub_1_r. Qed.

Lemma extractOffset_mod id : extractOffset id = id mod 2 ^ 40.
Proof. unfold extractOffset, OffsetMask, OffsetBits. by apply land_ones_mod. Qed.

(** The masked fields are the base-[2^40] and base-[2^42] digits. *)
Lemma shiftr_land_field a n k : 0 ≤ n → 0 ≤ k →
  Z.shiftr (Z.land a (Z.shiftl (Z.shiftl 1 n - 1) k)) k = a / 2 ^ k mod 2 ^ n.
Proof.
  intros. rewrite Z.shiftr_land, Z.shiftr_shiftl_l, Z.sub_diag, Z.shiftl_0_r by done.
  by rewrite land_ones_mod, Z.shiftr_div_pow2.
Qed.

Lemma extractTier_div id : extractTier id = id / 2 ^ 40 mod 2 ^ 2.
Proof. unfold extractTier, TierMask, OffsetBits, TierBits. by apply shiftr_land_field. Qed.

Lemma extractBucket_div id : extractBucket id = id / 2 ^ 42 mod 2 ^ 22.
Proof. unfold extractBucket, BucketMask, OffsetBits, TierBits, BucketBits. by apply shiftr_land_field. Qed.

(** [|] of fields that do not overlap is addition. *)
Lemma lor_shift_add a x n : 0 ≤ n → 0 ≤ a < 2 ^ n → Z.lor a (Z.shiftl x n) = a + x * 2 ^ n.
Proof.
  intros Hn Ha. rewrite Z.shiftl_mul_pow2 by done.
  rewrite <- Z.lxor_lor; [symmetry; apply Z.add_nocarry_lxor|]; apply Z.bits_inj'; intros i Hi;
    rewrite Z.land_spec, Z.bits_0;
    (destruct (Z.lt_ge_cases i n);
      [by rewrite Z.mul_pow2_bits_low, andb_false_r
      |rewrite <- (Z.mod_small a (2 ^ n)) by lia; by rewrite Z.mod_pow2_bits_high]).
Qed.

Record id_fields (t bk o : Z) : Prop := {
  if_tier : 0 ≤ t < 2 ^ 2; if_bucket : 0 ≤ bk < 2 ^ 22; if_offset : 0 ≤ o < 2 ^ 40 }.

Lemma encodeValueID_sum t bk o : id_fields t bk o →
  encodeValueID t bk o = o + t * 2 ^ 40 + bk * 2 ^ 42.
Proof.
  intros [Ht Hb Ho]. unfold encodeValueID, OffsetBits, TierBits.
  rewrite (u64_small t) by (unfold is_u64; lia).
  rewrite !u64_small by (unfold is_u64; rewrite Z.shiftl_mul_pow2; lia).
  change (40 + 2) with 42. rewrite (lor_shift_add o t 40) by lia.
  rewrite (lor_shift_add _ bk 42) by lia. done.
Qed.

Lemma extract_encode t bk o : id_fields t bk o →
  extractTier (encodeValueID t bk o) = t ∧ extractBucket (encodeValueID t bk o) = bk ∧
  extractOffset (encodeValueID t bk o) = o.
Proof.
  intros H. rewrite extractTier_div, extractBucket_div, extractOffset_mod, encodeValueID_sum by done.
  destruct H. change (2 ^ 42) with (2 ^ 40 * 4). split_and!; Z.div_mod_to_equations; lia.
Qed.

Lemma encodeValueID_zero t bk o : id_fields t bk o →
  encodeValueID t bk o = 0 ↔ t = 0 ∧ bk = 0 ∧ o = 0.
Proof. intros H. rewrite encodeValueID_sum by done. destruct H. lia. Qed.

Lemma extract_fields id : id_fields (extractTier id) (extractBucket id) (extractOffset id).
Proof.
  rewrite extractTier_div, extractBucket_div, extractOffset_mod.
  split; apply Z.mod_pos_bound; lia.
Qed.

Lemma encode_extract id : is_u64 id →
  encodeValueID (extractTier id) (extractBucket id) (extractOffset id) = id.
Proof.
  intros H. rewrite encodeValueID_sum by apply extract_fields.
  rewrite extractTier_div, extractBucket_div, extractOffset_mod.
  unfold is_u64 in H. change (2 ^ 42) with (2 ^ 40 * 4).
  Z.div_mod_to_equations. lia.
Qed.

(** ** Properties *)

(** A value record reads back.  For a value with the size its type has
    (or a length that fits four bytes), [deserializeValue] of its record,
    followed by any other bytes, is the value; a record whose sentinel was
    overwritten by the tombstone one is rejected. *)
Theorem record_roundtrip v rest :
  value_ok v →
  deserializeValue (serializeValue v ++ rest) = Ok v ∧
  deserializeValue (<[0%nat:=SentinelTombstone]> (serializeValue v) ++ rest) =
    Err "value is tombstoned".
Proof. intros Hok. split; [by apply deserialize_serialize|done]. Qed.

Lemma record_roundtrip_witness :
  deserializeValue (serializeValue (mkValue TypeText (b "hi")) ++ b "junk") =
    Ok (mkValue TypeText (b "hi")).
Proof. apply (record_roundtrip (mkValue TypeText (b "hi")) (b "junk")). by vm_compute. Defined.

(** Value IDs are a bijective packing.  Every 64-bit ID is the encoding of
    the tier, bucket and offset extracted from it, extraction undoes encoding
    for fields in range, and the only location with ID 0 is the first byte of
    tier 0's bucket 0 (which the store reserves). *)
Theorem value_id_bijection t bk o id :
  id_fields t bk o → is_u64 id →
  (encodeValueID t bk o = id ↔
    t = extractTier id ∧ bk = extractBucket id ∧ o = extractOffset id) ∧
  is_u64 (encodeValueID t bk o) ∧
  (encodeValueID t bk o = 0 ↔ t = 0 ∧ bk = 0 ∧ o = 0).
Proof.
  intros Hf Hid. split_and!.
  - split; [intros <-; by destruct (extract_encode t bk o Hf) as (-> & -> & ->)|].
    intros (-> & -> & ->). by apply encode_extract.
  - rewrite encodeValueID_sum by done. destruct Hf. unfold is_u64. lia.
  - by apply encodeValueID_zero.
Qed.

Lemma value_id_bijection_witness :
  encodeValueID 2 5 1000 = 1000 + 2 * 2 ^ 40 + 5 * 2 ^ 42.
Proof.
  apply (value_id_bijection 2 5 1000 (1000 + 2 * 2 ^ 40 + 5 * 2 ^ 42));
    [split; lia|unfold is_u64; lia|split_and!; by vm_compute].
Defined.
