(* ===== verification/FreeList.v ===== *)
(** * The free list (internal/storage/freelist.go)

    Tombstoned space of one storage file, as blocks sorted by offset with
    adjacent ones merged.  [wf] is that invariant, [free] the set of bytes the
    list stands for; [Module FreeList] has the operations, the in-place
    coalescing loop included, and the rebuild by scanning a file. *)
From S2P Require Import Prelude GoFile ValueCodec.

Module FreeList.

Record FreeBlock := mkBlock { Offset : Z; Size : Z }.

Record FreeList := mkFreeList { blocks : list FreeBlock }.

Definition NewFreeList : FreeList := {| blocks := [] |}.

(** The search loop of [AddBlock]. *)
Fixpoint insert_index (offset : Z) (i insertIndex : nat) (bs : list FreeBlock) : nat :=
  match bs with
  | [] => insertIndex
  | block :: rest =>
      if offset <? Offset block then i else insert_index offset (S i) (i + 1)%nat rest
  end.

(** [sort.Slice] by offset.  For blocks with distinct offsets any sort gives
    this list; on ties the one here is stable. *)
Fixpoint insert_sorted (x : FreeBlock) (bs : list FreeBlock) : list FreeBlock :=
  match bs with
  | [] => [x]
  | y :: rest => if Offset x <? Offset y then x :: bs else y :: insert_sorted x rest
  end.
Definition sort_blocks (bs : list FreeBlock) : list FreeBlock :=
  fold_left (λ acc x, insert_sorted x acc) bs [].

(** The merging loop, in place: [n] iterations left, the next at [readIndex];
    the result is the slice cut at the final [writeIndex]. *)
Fixpoint merge_loop (n readIndex writeIndex : nat) (bs : list FreeBlock) : list FreeBlock :=
  match n with
  | O => take writeIndex bs
  | S n =>
      match bs !! readIndex with
      | None => take writeIndex bs
      | Some currentBlock =>
          let copy :=
            let bs := if (writeIndex =? readIndex)%nat then bs
                      else <[writeIndex:=currentBlock]> bs in
            merge_loop n (S readIndex) (S writeIndex) bs in
          match writeIndex, bs !! (writeIndex - 1)%nat with
          | S w, Some prevBlock =>
              if u64 (Offset prevBlock + Size prevBlock) =? Offset currentBlock
              then merge_loop n (S readIndex) writeIndex
                     (<[w:=mkBlock (Offset prevBlock) (u64 (Size prevBlock + Size currentBlock))]> bs)
              else copy
          | _, _ => copy
          end
      end
  end.

Definition coalesceBlocks (bs : list FreeBlock) : list FreeBlock :=
  if (length bs <=? 1)%nat then bs
  else let bs := sort_blocks bs in merge_loop (length bs) 0 0 bs.

Definition AddBlock (offset size : Z) (fl : FreeList) : FreeList :=
  let newBlock := {| Offset := offset; Size := size |} in
  let insertIndex := insert_index offset 0 0 (blocks fl) in
  let bs := take insertIndex (blocks fl) ++ newBlock :: drop insertIndex (blocks fl) in
  {| blocks := coalesceBlocks bs |}.

(** First fit. *)
Fixpoint allocate (size : Z) (bs : list FreeBlock) : option (Z * list FreeBlock) :=
  match bs with
  | [] => None
  | block :: rest =>
      if size <=? Size block then
        if Size block =? size then Some (Offset block, rest)
        else Some (Offset block,
                   mkBlock (u64 (Offset block + size)) (u64 (Size block - size)) :: rest)
      else (λ r, (r.1, block :: r.2)) <$> allocate size rest
  end.

Definition AllocateSpace (size : Z) (fl : FreeList) : FreeList * option Z :=
  match allocate size (blocks fl) with
  | Some (offset, bs) => ({| blocks := bs |}, Some offset)
  | None => (fl, None)
  end.

Definition GetBlocks (fl : FreeList) : list FreeBlock := blocks fl.

Definition GetTotalFreeSpace (fl : FreeList) : Z :=
  fold_left (λ total block, u64 (total + Size block)) (blocks fl) 0.

Definition Clear (fl : FreeList) : FreeList := {| blocks := [] |}.

(** The free list's own table of record sizes. *)
Definition isVariableLength (typeTag : byte) : bool :=
  bool_decide (typeTag ∈ [TypeText; TypePicture; TypeProcedure; TypeWatcher; TypeEmbed]).

Definition getFixedTypeSize (typeTag : byte) : Z :=
  if bool_decide (typeTag = TypeNumber) then 8
  else if bool_decide (typeTag = TypeTime) then 9
  else if bool_decide (typeTag = TypeMoney) then 12
  else if bool_decide (typeTag = TypeReference) then 8
  else if bool_decide (typeTag ∈ [TypeNothing; TypeAnything]) then 0
  else if bool_decide (typeTag = TypeUnknown) then 0
  else 0.

(** [file.Read(buf); if err != nil || n != len(buf)]. *)
Definition read_full (f : file) (offset n : Z) (msg : string) : res (list byte) :=
  match read_at f offset n with
  | Ok (data, k) => if k =? n then Ok data else Err msg
  | Err _ => Err msg
  | Panic e => Panic e
  end.

Definition determineTombstoneSize (f : file) (offset : Z) : res Z :=
  seek offset ≫= λ _,
  read_full f offset 2 "failed to read tombstone header" ≫= λ header,
  let typeTag := default Byte.x00 (header !! 1%nat) in
  if isVariableLength typeTag then
    read_full f (offset + 2) 4 "failed to read tombstone length" ≫= λ lengthBytes,
    Ok (u64 (2 + (4 + unle lengthBytes)))
  else Ok (u64 (2 + getFixedTypeSize typeTag)).

Definition determineValueSize (f : file) (offset : Z) : res Z := determineTombstoneSize f offset.

(** The scan: blocks found so far and the error that ended it, if any; [None]
    when [fuel] iterations do not reach its end. *)
Fixpoint scan (fuel : nat) (f : file) (offset : Z) (bs : list FreeBlock) :
  option (list FreeBlock * res unit) :=
  if fsize f <=? offset then Some (bs, Ok tt) else
  match fuel with
  | O => None
  | S fuel =>
      match wrap_res "seek failed" (seek offset) ≫= λ _,
            wrap_res "failed to read sentinel" (read_at f offset 1) with
      | Ok (sentinel, n) =>
          if n =? 0 then Some (bs, Ok tt) else
          let sentinel := default Byte.x00 (sentinel !! 0%nat) in
          if bool_decide (sentinel = SentinelTombstone) then
            match wrap_res "failed to determine tombstone size" (determineTombstoneSize f offset) with
            | Ok recordSize =>
                scan fuel f (i64 (offset + i64 recordSize)) (bs ++ [mkBlock (u64 offset) recordSize])
            | Err e => Some (bs, Err e)
            | Panic e => Some (bs, Panic e)
            end
          else if bool_decide (sentinel = SentinelValue) then
            match wrap_res "failed to determine value size" (determineValueSize f offset) with
            | Ok recordSize => scan fuel f (i64 (offset + i64 recordSize)) bs
            | Err e => Some (bs, Err e)
            | Panic e => Some (bs, Panic e)
            end
          else Some (bs, Ok tt)
      | Err e => Some (bs, Err e)
      | Panic e => Some (bs, Panic e)
      end
  end.

(** On an error the blocks found so far stay, without coalescing. *)
Definition RebuildFromFile (fuel : nat) (f : file) : option (FreeList * res unit) :=
  (λ '(bs, r), match r with
     | Ok _ => ({| blocks := coalesceBlocks bs |}, r)
     | _ => ({| blocks := bs |}, r)
     end) <$> scan fuel f 0 [].

(** ** Abstract view *)

Definition block_end (blk : FreeBlock) : Z := Offset blk + Size blk.

Definition block_ok (blk : FreeBlock) : Prop :=
  0 ≤ Offset blk ∧ 0 < Size blk ∧ block_end blk < 2 ^ 64.

(** Sorted, and no two blocks touch. *)
Definition gap (x y : FreeBlock) : Prop := block_end x < Offset y.

Definition wf (fl : FreeList) : Prop :=
  Forall block_ok (blocks fl) ∧ StronglySorted gap (blocks fl).

Definition in_block (x : Z) (blk : FreeBlock) : Prop := Offset blk ≤ x < block_end blk.

(** The free bytes. *)
Definition free (fl : FreeList) (x : Z) : Prop := Exists (in_block x) (blocks fl).

Definition total (bs : list FreeBlock) : Z := foldr (λ blk t, Size blk + t) 0 bs.

(** ** Lemmas: sorting and coalescing *)

Lemma insert_index_spec o i bs : insert_index o i i bs = (i + insert_index o 0 0 bs)%nat.
Proof.
  revert i. induction bs as [|y bs IH]; intros i; cbn [insert_index]; [lia|].
  case_match; [lia|]. rewrite !(Nat.add_comm _ 1). cbn [Nat.add]. rewrite IH, (IH 1%nat). lia.
Qed.

Lemma insert_at_index new bs :
  take (insert_index (Offset new) 0 0 bs) bs ++ new :: drop (insert_index (Offset new) 0 0 bs) bs =
  insert_sorted new bs.
Proof.
  induction bs as [|y bs IH]; [done|]. cbn [insert_index insert_sorted].
  case_match; [done|]. rewrite (insert_index_spec _ 1%nat). cbn. by rewrite IH.
Qed.

Lemma insert_sorted_perm x bs : insert_sorted x bs ≡ₚ x :: bs.
Proof.
  induction bs as [|y bs IH]; [done|]. cbn. case_match; [done|].
  rewrite IH. apply Permutation_swap.
Qed.

Lemma insert_sorted_last x bs : Forall (λ y, Offset y < Offset x) bs → insert_sorted x bs = bs ++ [x].
Proof.
  induction 1 as [|y bs Hy _ IH]; [done|]. cbn.
  rewrite (proj2 (Z.ltb_ge _ _)), IH by lia. done.
Qed.

Definition lt_offset (x y : FreeBlock) : Prop := Offset x < Offset y.

Lemma sort_blocks_sorted bs : StronglySorted lt_offset bs → sort_blocks bs = bs.
Proof.
  unfold sort_blocks. rewrite <- (app_nil_l bs) at 1.
  change (StronglySorted lt_offset ([] ++ bs) → fold_left (λ acc x, insert_sorted x acc) bs [] = [] ++ bs).
  generalize (@nil FreeBlock) as acc. induction bs as [|x bs IH]; intros acc Hs.
  - by rewrite app_nil_r.
  - cbn [fold_left]. rewrite insert_sorted_last.
    + rewrite IH; rewrite <- app_assoc; done.
    + apply Forall_forall. intros y Hy. eapply (StronglySorted_app_1_elem_of _ _ _ y x Hs); [done|left].
Qed.

(** The functional reading of the merging loop: [p] is the block being grown. *)
Fixpoint merge_from (p : FreeBlock) (l : list FreeBlock) : list FreeBlock :=
  match l with
  | [] => [p]
  | y :: l =>
      if u64 (block_end p) =? Offset y
      then merge_from (mkBlock (Offset p) (u64 (Size p + Size y))) l
      else p :: merge_from y l
  end.

Lemma take_S_insert w (x : FreeBlock) bs : (w < length bs)%nat →
  take w (<[w:=x]> bs) = take w bs ∧ <[w:=x]> bs !! w = Some x.
Proof. intros. rewrite take_insert_ge by done. by rewrite list_lookup_insert_eq. Qed.

Lemma merge_loop_spec n r w p bs :
  (w < r)%nat → (r + n = length bs)%nat → bs !! w = Some p →
  merge_loop n r (S w) bs = take w bs ++ merge_from p (drop r bs).
Proof.
  revert r w p bs. induction n as [|n IH]; intros r w p bs Hw Hl Hp.
  { cbn [merge_loop]. rewrite drop_ge by lia. by rewrite (take_S_r _ _ p). }
  assert (Hr : (r < length bs)%nat) by lia. apply lookup_lt_is_Some in Hr as [cur Hcur].
  cbn [merge_loop]. rewrite Hcur. replace (S w - 1)%nat with w by lia. rewrite Hp.
  rewrite (drop_S bs cur r Hcur). cbn [merge_from]. unfold block_end. case_match.
  - rewrite (IH (S r) w (mkBlock (Offset p) (u64 (Size p + Size cur)))).
    + by rewrite take_insert_ge, drop_insert_lt by lia.
    + lia.
    + rewrite length_insert. lia.
    + apply list_lookup_insert_eq. lia.
  - destruct (Nat.eqb_spec (S w) r) as [<-|].
    + rewrite (IH (S (S w)) (S w) cur bs), (take_S_r _ _ p) by (done || lia).
      by rewrite <- app_assoc.
    + rewrite (IH (S r) (S w) cur); [|lia|rewrite length_insert; lia|apply list_lookup_insert_eq; lia].
      rewrite take_insert_ge, drop_insert_lt, (take_S_r _ _ p) by (done || lia).
      by rewrite <- app_assoc.
Qed.

(** [touch]: in order and disjoint, possibly adjacent. *)
Definition touch (x y : FreeBlock) : Prop := block_end x ≤ Offset y.

Lemma touch_lt_offset bs : Forall block_ok bs → StronglySorted touch bs → StronglySorted lt_offset bs.
Proof.
  induction 2 as [|x bs Hs IH Hx]; [constructor|]. apply Forall_cons in H as [Hok Hoks].
  constructor; [by apply IH|]. eapply Forall_impl; [done|].
  unfold touch, lt_offset, block_ok, block_end in *. simpl. lia.
Qed.

Lemma coalesceBlocks_merge bs : Forall block_ok bs → StronglySorted touch bs →
  coalesceBlocks bs = match bs with [] => [] | p :: l => merge_from p l end.
Proof.
  intros Hok Hs. unfold coalesceBlocks. destruct bs as [|p [|y l]]; [done..|].
  cbn [length Nat.leb]. rewrite sort_blocks_sorted by by apply touch_lt_offset.
  assert (E : merge_loop (length (p :: y :: l)) 0 0 (p :: y :: l) =
    merge_loop (S (length l)) 1 1 (p :: y :: l)) by done.
  cbv zeta. rewrite E. by rewrite (merge_loop_spec _ 1 0 p) by (simpl; lia || done).
Qed.

Lemma block_ok_end blk : block_ok blk → u64 (block_end blk) = block_end blk.
Proof. unfold block_ok, block_end. intros. apply u64_small. unfold is_u64. lia. Qed.

(** Merging two adjacent blocks. *)
Lemma merge_two p y : block_ok p → block_ok y → block_end p = Offset y →
  let m := mkBlock (Offset p) (u64 (Size p + Size y)) in
  block_ok m ∧ block_end m = block_end y ∧ Size m = Size p + Size y ∧
  ∀ x, in_block x m ↔ in_block x p ∨ in_block x y.
Proof.
  unfold block_ok, in_block, block_end. cbn. intros Hp Hy He.
  rewrite u64_small by (unfold is_u64; lia). repeat split; try lia.
Qed.

Record merged (p : FreeBlock) (l m : list FreeBlock) : Prop := {
  mg_ok : Forall block_ok m;
  mg_gap : StronglySorted gap m;
  mg_free : ∀ x, Exists (in_block x) m ↔ Exists (in_block x) (p :: l);
  mg_total : total m = total (p :: l);
  mg_head : Forall (λ z, Offset p ≤ Offset z) m }.

Lemma merge_from_spec p l : Forall block_ok (p :: l) → StronglySorted touch (p :: l) →
  merged p l (merge_from p l).
Proof.
  revert p. induction l as [|y l IH]; intros p Hok Hs.
  { split; [done|by repeat constructor|done|done|by repeat constructor]. }
  apply Forall_cons in Hok as [Hp Hok]. pose proof Hok as [Hy Hok']%Forall_cons.
  inversion Hs as [|? ? Hs' Ht]; subst. inversion Hs' as [|? ? Hs'' Ht']; subst.
  cbn [merge_from]. rewrite block_ok_end by done. case_match eqn:He.
  - apply Z.eqb_eq in He. destruct (merge_two p y Hp Hy He) as (Hm & Hend & Hsz & Hin).
    set (m := mkBlock _ _) in *. destruct (IH m) as [H1 H2 H3 H4 H5].
    + by constructor.
    + constructor; [done|]. eapply Forall_impl; [done|]. unfold touch. cbn beta. lia.
    + split; [done|done| | |done].
      * intros x. rewrite H3, !Exists_cons, Hin. tauto.
      * rewrite H4. cbn [total foldr]. lia.
  - apply Z.eqb_neq in He. apply Forall_cons in Ht as [Hpy _]. unfold touch in Hpy.
    destruct (IH y Hok Hs') as [H1 H2 H3 H4 H5]. split.
    + by constructor.
    + constructor; [done|]. eapply Forall_impl; [done|]. unfold gap. cbn beta. lia.
    + intros x. rewrite Exists_cons, H3, !Exists_cons. tauto.
    + cbn [total foldr] in *. unfold total in *. simpl in *. lia.
    + constructor; [done|]. eapply Forall_impl; [done|]. cbn beta.
      unfold block_ok, block_end in *. lia.
Qed.

Lemma coalesceBlocks_spec bs : Forall block_ok bs → StronglySorted touch bs →
  let fl := mkFreeList (coalesceBlocks bs) in
  wf fl ∧ (∀ x, free fl x ↔ Exists (in_block x) bs) ∧ total (blocks fl) = total bs.
Proof.
  intros Hok Hs fl. unfold fl, wf, free. cbn [blocks]. rewrite coalesceBlocks_merge by done.
  destruct bs as [|p l]; [split_and!; [apply Forall_nil_2|constructor|done|done]|].
  by destruct (merge_from_spec p l Hok Hs).
Qed.

(** ** Lemmas: adding a block *)

Lemma total_perm bs bs' : bs ≡ₚ bs' → total bs = total bs'.
Proof. induction 1; simpl; unfold total in *; simpl in *; lia. Qed.

Lemma StronglySorted_gap_touch bs : StronglySorted gap bs → StronglySorted touch bs.
Proof.
  induction 1 as [|x bs _ IH Hx]; constructor; [done|].
  eapply Forall_impl; [done|]. unfold gap, touch. simpl. lia.
Qed.

(** Two disjoint non-empty blocks are ordered. *)
Lemma disjoint_touch x y : block_ok x → block_ok y → (∀ z, in_block z x → ¬ in_block z y) →
  if Offset x <? Offset y then touch x y else touch y x.
Proof.
  unfold block_ok, in_block, touch, block_end. intros Hx Hy Hd.
  destruct (Z.ltb_spec (Offset x) (Offset y)).
  - destruct (Z.le_gt_cases (Offset x + Size x) (Offset y)); [done|].
    destruct (Hd (Offset y)); lia.
  - destruct (Z.le_gt_cases (Offset y + Size y) (Offset x)); [done|].
    destruct (Hd (Offset x)); lia.
Qed.

Lemma insert_sorted_touch x bs : block_ok x → Forall block_ok bs → StronglySorted touch bs →
  (∀ z, in_block z x → ¬ Exists (in_block z) bs) →
  StronglySorted touch (insert_sorted x bs).
Proof.
  intros Hx Hok Hs Hd. induction Hs as [|y bs Hs IH Hy]; [by repeat constructor|].
  apply Forall_cons in Hok as [Hyok Hok]. cbn.
  assert (Hxy := disjoint_touch x y Hx Hyok).
  specialize (Hxy (λ z Hz Hzy, Hd z Hz (Exists_cons_hd _ _ _ Hzy))).
  case_match.
  - constructor; [by constructor|]. constructor; [done|]. eapply Forall_impl; [done|].
    unfold touch, block_ok, block_end in *. cbn beta. lia.
  - constructor.
    + apply IH; [done|]. intros z Hz Hb. by apply (Hd z Hz), Exists_cons_tl.
    + rewrite insert_sorted_perm. by constructor.
Qed.

Lemma AddBlock_eq o s fl :
  AddBlock o s fl = {| blocks := coalesceBlocks (insert_sorted (mkBlock o s) (blocks fl)) |}.
Proof. unfold AddBlock. by rewrite <- (insert_at_index (mkBlock o s)). Qed.

Lemma AddBlock_spec o s fl : wf fl → block_ok (mkBlock o s) →
  (∀ x, o ≤ x < o + s → ¬ free fl x) →
  wf (AddBlock o s fl) ∧ (∀ x, free (AddBlock o s fl) x ↔ free fl x ∨ o ≤ x < o + s) ∧
  total (blocks (AddBlock o s fl)) = total (blocks fl) + s.
Proof.
  intros [Hok Hs] Hb Hd. rewrite AddBlock_eq.
  destruct (coalesceBlocks_spec (insert_sorted (mkBlock o s) (blocks fl))) as (Hwf & Hf & Ht).
  - rewrite insert_sorted_perm. by constructor.
  - apply insert_sorted_touch; [done..|by apply StronglySorted_gap_touch|done].
  - split_and!; [done| |].
    + intros x. rewrite Hf, insert_sorted_perm, Exists_cons.
      unfold free, in_block at 1, block_end. cbn. tauto.
    + rewrite Ht, (total_perm _ _ (insert_sorted_perm _ _)). simpl.
      unfold total. lia.
Qed.

(** ** Lemmas: allocation *)

Lemma gap_disjoint p bs x : Forall block_ok bs → Forall (gap p) bs →
  Exists (in_block x) bs → block_end p < x.
Proof.
  intros Hok Hg (y & Hy & Hx)%Exists_exists. rewrite Forall_forall in Hg.
  pose proof (Hg y Hy). unfold gap, in_block in *. lia.
Qed.

Definition taken (o s x : Z) : Prop := o ≤ x < o + s.

Record allocated (s o : Z) (bs bs' : list FreeBlock) : Prop := {
  al_wf : Forall block_ok bs' ∧ StronglySorted gap bs';
  al_low : ∀ p, Forall (gap p) bs → Forall (gap p) bs';
  al_range : 0 ≤ o ∧ o + s < 2 ^ 64;
  al_was_free : ∀ x, taken o s x → Exists (in_block x) bs;
  al_free : ∀ x, Exists (in_block x) bs' ↔ Exists (in_block x) bs ∧ ¬ taken o s x;
  al_total : total bs' = total bs - s }.

(** Taking the front of the first block. *)
Lemma allocate_here s blk bs : 0 < s → block_ok blk → Forall block_ok bs →
  StronglySorted gap bs → Forall (gap blk) bs → s ≤ Size blk →
  allocated s (Offset blk) (blk :: bs)
    (if Size blk =? s then bs
     else mkBlock (u64 (Offset blk + s)) (u64 (Size blk - s)) :: bs).
Proof.
  intros Hs Hb Hok Hg Hgap Hsz.
  assert (Hx : ∀ x, taken (Offset blk) s x → in_block x blk).
  { unfold taken, in_block, block_end. lia. }
  assert (Hnot : ∀ x, Exists (in_block x) bs → ¬ taken (Offset blk) s x).
  { intros x He. pose proof (gap_disjoint blk bs x Hok Hgap He).
    unfold taken, block_end in *. lia. }
  assert (Hrg : 0 ≤ Offset blk ∧ Offset blk + s < 2 ^ 64)
    by (unfold block_ok, block_end in *; lia).
  destruct (Z.eqb_spec (Size blk) s) as [He|Hne].
  - split; [done| |done|by left; apply Hx| |simpl; unfold total; lia].
    + by intros p [_ ?]%Forall_cons.
    + intros x. rewrite Exists_cons. split; [by auto|]. intros [[Hi|?] Hn]; [|done].
      destruct Hn. unfold taken, in_block, block_end in *. lia.
  - unfold block_ok, block_end in Hb.
    rewrite !u64_small by (unfold is_u64; lia). set (m := mkBlock _ _).
    assert (Hend : block_end m = block_end blk) by (unfold block_end; simpl; lia).
    split; [split| |done|by left; apply Hx| |simpl; unfold total; lia].
    + constructor; [|done]. unfold block_ok, block_end. simpl. lia.
    + constructor; [done|]. eapply Forall_impl; [done|]. unfold gap. rewrite Hend. auto.
    + intros p [Hp ?]%Forall_cons. constructor; [|done]. unfold gap in *. simpl. lia.
    + intros x. rewrite !Exists_cons.
      assert (in_block x m ↔ in_block x blk ∧ ¬ taken (Offset blk) s x) as ->.
      { unfold in_block, taken. rewrite Hend. simpl. lia. }
      pose proof (Hnot x). tauto.
Qed.

Lemma allocate_Some s bs o bs' : 0 < s → Forall block_ok bs → StronglySorted gap bs →
  allocate s bs = Some (o, bs') → allocated s o bs bs'.
Proof.
  intros Hs. revert bs'. induction bs as [|blk bs IH]; intros bs' Hok Hg; [done|].
  apply Forall_cons in Hok as [Hb Hok]. apply StronglySorted_cons in Hg as [Hgap Hg].
  cbn [allocate]. destruct (Z.leb_spec s (Size blk)).
  { pose proof (allocate_here s blk bs Hs Hb Hok Hg Hgap) as Hal.
    intros HE. destruct (Size blk =? s); injection HE as <- <-; by apply Hal. }
  destruct (allocate s bs) as [[o1 bs1]|]; [|done]. cbn. intros [= <- <-].
  destruct (IH bs1 Hok Hg eq_refl) as [[H1 H2] Hlow H3 H4 H5 H6]. split; [split| |done| | |].
  - by constructor.
  - constructor; [done|by apply Hlow].
  - intros p [? ?]%Forall_cons. constructor; [done|by apply Hlow].
  - intros x Hx. right. by apply H4.
  - intros x. rewrite !Exists_cons, H5. split; [|tauto].
    intros [Hi|?]; [|tauto]. split; [by left|]. intros Ht.
    pose proof (gap_disjoint blk bs x Hok Hgap (H4 x Ht)). unfold in_block in *. lia.
  - simpl. unfold total in *. lia.
Qed.

Lemma allocate_None s bs : allocate s bs = None ↔ Forall (λ blk, Size blk < s) bs.
Proof.
  induction bs as [|blk bs IH]; [by split; [constructor|]|]. cbn [allocate].
  rewrite Forall_cons, <- IH. destruct (Z.leb_spec s (Size blk)).
  - split; [by case_match|lia].
  - destruct (allocate s bs); naive_solver lia.
Qed.

(** ** Lemmas: totals *)

Lemma total_wf_bound lo bs : 0 ≤ lo → Forall block_ok bs → StronglySorted gap bs →
  Forall (λ blk, lo ≤ Offset blk) bs → 0 ≤ total bs ∧ (bs ≠ [] → lo + total bs < 2 ^ 64).
Proof.
  intros Hlo Hok Hg. revert lo Hlo. induction Hg as [|x bs Hs IH Hx]; intros lo Hlo Hl; [done|].
  apply Forall_cons in Hok as [Hb Hok]. apply Forall_cons in Hl as [Hx0 _].
  unfold block_ok, block_end in Hb.
  destruct (IH Hok (block_end x)) as [H1 H2].
  - unfold block_end. lia.
  - eapply Forall_impl; [done|]. unfold gap. cbn beta. lia.
  - cbn [total foldr]. fold (total bs). split; [lia|]. intros _. unfold block_end in H2.
    destruct bs as [|y bs]; [cbn in *; lia|]. specialize (H2 ltac:(done)). lia.
Qed.

Lemma total_bound fl : wf fl → 0 ≤ total (blocks fl) < 2 ^ 64.
Proof.
  intros [Hok Hg]. destruct (total_wf_bound 0 (blocks fl)) as [H1 H2]; [done..| |].
  - eapply Forall_impl; [done|]. unfold block_ok. cbn beta. lia.
  - destruct (blocks fl); [by cbn|]. specialize (H2 ltac:(done)). lia.
Qed.

Lemma GetTotalFreeSpace_total fl : wf fl → GetTotalFreeSpace fl = total (blocks fl).
Proof.
  intros Hwf. pose proof (total_bound fl Hwf) as Hb. unfold GetTotalFreeSpace.
  assert (H : ∀ bs t, fold_left (λ total block, u64 (total + Size block)) bs (u64 t) =
    u64 (t + total bs)).
  { induction bs as [|x bs IH]; intros t; cbn [fold_left]; [f_equal; cbn; lia|].
    assert (u64 (u64 t + Size x) = u64 (t + Size x)) as ->
      by (unfold u64; by rewrite Zplus_mod_idemp_l).
    rewrite IH. f_equal. simpl. unfold total. lia. }
  change 0 with (u64 0). rewrite H. apply u64_small. unfold is_u64. lia.
Qed.

(** ** Lemmas: scanning a file *)

(** A record as the scanner sees it. *)
Record scanned := mkScanned { live : bool; tag : byte; payload : list byte }.

Definition scanned_ok (r : scanned) : Prop :=
  if isVariableLength (tag r) then is_u32 (len (payload r))
  else len (payload r) = getFixedTypeSize (tag r).

Definition scanned_bytes (r : scanned) : list byte :=
  (if live r then SentinelValue else SentinelTombstone) :: tag r ::
  (if isVariableLength (tag r) then le 4 (len (payload r)) else []) ++ payload r.

Definition scanned_size (r : scanned) : Z := len (scanned_bytes r).

Definition file_of (rs : list scanned) : file := rs ≫= scanned_bytes.

(** The blocks of the dead records of [rs], laid out from [offset]. *)
Fixpoint dead_blocks (offset : Z) (rs : list scanned) : list FreeBlock :=
  match rs with
  | [] => []
  | r :: rs =>
      (if live r then [] else [mkBlock offset (scanned_size r)]) ++
      dead_blocks (offset + scanned_size r) rs
  end.

Lemma scanned_size_eq r :
  scanned_size r = (if isVariableLength (tag r) then 6 else 2) + len (payload r).
Proof.
  unfold scanned_size, scanned_bytes. rewrite !len_cons, len_app.
  destruct (isVariableLength (tag r)); lens; rewrite ?len_nil; lia.
Qed.

Lemma scanner_type_size_range t : 0 ≤ getFixedTypeSize t ≤ 12.
Proof. by destruct t. Qed.

Lemma scanned_size_bound r : scanned_ok r → 2 ≤ scanned_size r < 2 ^ 33.
Proof.
  intros H. rewrite scanned_size_eq. unfold scanned_ok in H. pose proof (len_nonneg (payload r)).
  pose proof (scanner_type_size_range (tag r)).
  destruct (isVariableLength (tag r)); unfold is_u32 in *; lia.
Qed.

Lemma read_at_app (f g h : file) off n : off = fsize f → 0 < n → len g = n →
  read_at (f ++ g ++ h) off n = Ok (g, n).
Proof.
  intros -> Hn Hg. unfold read_at. rewrite (proj2 (Z.eqb_neq _ _)) by lia.
  pose proof (len_nonneg h). unfold fsize. rewrite !len_app, (proj2 (Z.leb_gt _ _)) by lia.
  unfold len in *. subst n. rewrite !Nat2Z.id, drop_app_len, take_app_len.
  rewrite Nat.sub_diag, app_nil_r. done.
Qed.

Lemma determine_scanned (pre post : file) r : scanned_ok r →
  determineTombstoneSize (pre ++ scanned_bytes r ++ post) (fsize pre) = Ok (scanned_size r).
Proof.
  intros Hok. pose proof (scanned_size_bound r Hok). pose proof (len_nonneg pre).
  unfold determineTombstoneSize, seek, fsize. rewrite (proj2 (Z.ltb_ge _ _)) by lia. ress.
  rewrite scanned_size_eq in *.
  set (s := if live r then SentinelValue else SentinelTombstone).
  assert (Hsplit : scanned_bytes r = [s; tag r] ++
    (if isVariableLength (tag r) then le 4 (len (payload r)) else []) ++ payload r) by done.
  unfold scanned_ok in Hok. unfold read_full.
  rewrite Hsplit, <- !app_assoc, (read_at_app pre [s; tag r] _ (len pre) 2) by (done || lia). cbn [Z.eqb Pos.eqb]. ress.
  change (default Byte.x00 ([s; tag r] !! 1%nat)) with (tag r). unfold is_u32 in Hok.
  destruct (isVariableLength (tag r)).
  - assert (Hread : read_at (pre ++ [s; tag r] ++ le 4 (len (payload r)) ++ payload r ++ post)
      (len pre + 2) 4 = Ok (le 4 (len (payload r)), 4)).
    { rewrite app_assoc. apply read_at_app; [|lia|by rewrite len_le].
      unfold fsize. rewrite len_app. done. }
    rewrite Hread. cbn [Z.eqb Pos.eqb]. ress.
    rewrite unle_le_small by lia. f_equal. rewrite u64_small by (unfold is_u64; lia). lia.
  - f_equal. rewrite <- Hok. apply u64_small. unfold is_u64. lia.
Qed.

(** The rest of the file is empty or starts with no sentinel. *)
Definition scan_stops (post : file) : Prop :=
  match post with [] => True | s :: _ => s ≠ SentinelValue ∧ s ≠ SentinelTombstone end.

Lemma scan_end fuel (pre post : file) bs : scan_stops post →
  scan (S fuel) (pre ++ post) (fsize pre) bs = Some (bs, Ok tt).
Proof.
  intros Hstop. cbn [scan]. destruct post as [|s post].
  - rewrite app_nil_r, Z.leb_refl. done.
  - destruct Hstop as [H1 H2]. unfold fsize at 1. rewrite len_app, len_cons.
    pose proof (len_nonneg post). pose proof (len_nonneg pre).
    rewrite (proj2 (Z.leb_gt _ _)) by (unfold fsize; lia).
    unfold seek. rewrite (proj2 (Z.ltb_ge _ _)) by (unfold fsize; lia). ress.
    change (s :: post) with ([s] ++ post). rewrite read_at_app by (done || lia). ress.
    cbn [Z.eqb lookup list_lookup default]. by rewrite !bool_decide_false.
Qed.

Lemma scan_step fuel (pre post : file) r bs : scanned_ok r →
  fsize (pre ++ scanned_bytes r ++ post) < 2 ^ 63 →
  scan (S fuel) (pre ++ scanned_bytes r ++ post) (fsize pre) bs =
  scan fuel (pre ++ scanned_bytes r ++ post) (fsize (pre ++ scanned_bytes r))
    (bs ++ if live r then [] else [mkBlock (fsize pre) (scanned_size r)]).
Proof.
  intros Hok Hsz. pose proof (scanned_size_bound r Hok) as Hr.
  pose proof (len_nonneg pre). pose proof (len_nonneg post).
  unfold fsize in Hsz. rewrite !len_app in Hsz. fold (scanned_size r) in Hsz.
  assert (Hnext : i64 (fsize pre + i64 (scanned_size r)) = fsize (pre ++ scanned_bytes r)).
  { unfold fsize. rewrite len_app. fold (scanned_size r).
    rewrite (i64_small (scanned_size r)) by (unfold is_i64; lia).
    apply i64_small. unfold is_i64. lia. }
  cbn [scan]. unfold fsize at 1. rewrite !len_app. fold (scanned_size r).
  rewrite (proj2 (Z.leb_gt _ _)) by (unfold fsize; lia).
  unfold seek. rewrite (proj2 (Z.ltb_ge _ _)) by (unfold fsize; lia). ress.
  set (s := if live r then SentinelValue else SentinelTombstone).
  assert (Hread : read_at (pre ++ scanned_bytes r ++ post) (fsize pre) 1 = Ok ([s], 1)).
  { change (scanned_bytes r) with ([s] ++ tail (scanned_bytes r)). rewrite <- app_assoc.
    apply read_at_app; done || lia. }
  rewrite Hread. ress. cbn [Z.eqb lookup list_lookup default].
  unfold determineValueSize. rewrite determine_scanned by done. ress. rewrite Hnext.
  assert (u64 (fsize pre) = fsize pre) as -> by (apply u64_small; unfold is_u64, fsize; lia).
  unfold s. destruct (live r).
  - rewrite bool_decide_false, bool_decide_true, app_nil_r by done. done.
  - rewrite bool_decide_true by done. done.
Qed.

Lemma scan_records rs : ∀ fuel (pre post : file) bs,
  (length rs < fuel)%nat → Forall scanned_ok rs → scan_stops post →
  fsize (pre ++ file_of rs ++ post) < 2 ^ 63 →
  scan fuel (pre ++ file_of rs ++ post) (fsize pre) bs =
    Some (bs ++ dead_blocks (fsize pre) rs, Ok tt).
Proof.
  induction rs as [|r rs IH]; intros fuel pre post bs Hf Hok Hstop Hsz;
    (destruct fuel as [|fuel]; [cbn in Hf; lia|]).
  - cbn [dead_blocks]. rewrite app_nil_r. by apply scan_end.
  - apply Forall_cons in Hok as [Hr Hok]. change (file_of (r :: rs)) with (scanned_bytes r ++ file_of rs) in *.
    rewrite <- app_assoc in *. rewrite scan_step by done. rewrite app_assoc in *.
    rewrite IH; [|cbn in Hf; lia|done..]. cbn [dead_blocks].
    rewrite <- app_assoc. do 3 f_equal. unfold fsize. by rewrite len_app.
Qed.

Lemma file_of_cons r rs : file_of (r :: rs) = scanned_bytes r ++ file_of rs.
Proof. done. Qed.

Lemma dead_blocks_ok rs : ∀ o, 0 ≤ o → Forall scanned_ok rs → o + fsize (file_of rs) < 2 ^ 63 →
  Forall block_ok (dead_blocks o rs) ∧ StronglySorted touch (dead_blocks o rs) ∧
  Forall (λ blk, o ≤ Offset blk) (dead_blocks o rs).
Proof.
  induction rs as [|r rs IH]; intros o Ho Hok Hsz; [repeat split; constructor|].
  apply Forall_cons in Hok as [Hr Hok]. pose proof (scanned_size_bound r Hr) as Hs.
  rewrite file_of_cons in Hsz. unfold fsize in Hsz. rewrite len_app in Hsz.
  fold (scanned_size r) in Hsz. pose proof (len_nonneg (file_of rs)).
  destruct (IH (o + scanned_size r)) as (H1 & H2 & H3); [lia|done|unfold fsize; lia|].
  assert (Hlow : Forall (λ blk, o ≤ Offset blk) (dead_blocks (o + scanned_size r) rs)).
  { eapply Forall_impl; [done|]. cbn beta. lia. }
  cbn [dead_blocks]. destruct (live r); [done|]. cbn [app]. split_and!.
  - constructor; [|done]. unfold block_ok, block_end. cbn. lia.
  - by constructor.
  - constructor; [cbn; lia|done].
Qed.

(** *** Every scan ends *)

Lemma determineTombstoneSize_range f offset n :
  determineTombstoneSize f offset = Ok n → 2 ≤ n < 2 ^ 33.
Proof.
  unfold determineTombstoneSize, seek, read_full. destruct (offset <? 0); [done|]. ress.
  destruct (read_at f offset 2) as [[h k]| |]; [|done..]. destruct (k =? 2); [|done]. ress.
  destruct (isVariableLength _).
  - destruct (read_at f (offset + 2) 4) as [[l m]| |] eqn:Hl; [|done..].
    destruct (m =? 4); [|done]. ress. intros [= <-].
    assert (Hlen : len l = 4).
    { unfold read_at in Hl. cbn [Z.eqb] in Hl. destruct (fsize f <=? offset + 2); [done|].
      injection Hl as <- <-. rewrite len_app, len_replicate, len_take.
      unfold len. rewrite length_take. lia. }
    pose proof (unle_bound l) as Hb. rewrite Hlen in Hb. change (8 * 4) with 32 in Hb.
    rewrite u64_small by (unfold is_u64; lia). lia.
  - intros [= <-]. pose proof (scanner_type_size_range (default Byte.x00 (h !! 1%nat))).
    rewrite u64_small by (unfold is_u64; lia). lia.
Qed.

Lemma scan_next offset n : 0 ≤ offset < 2 ^ 62 → 2 ≤ n < 2 ^ 33 →
  i64 (offset + i64 n) = offset + n.
Proof.
  intros. rewrite (i64_small n) by (unfold is_i64; lia). apply i64_small. unfold is_i64. lia.
Qed.

Lemma scan_total f : fsize f < 2 ^ 62 → ∀ fuel offset bs,
  0 ≤ offset → fsize f - offset ≤ Z.of_nat fuel → is_Some (scan fuel f offset bs).
Proof.
  intros Hf. induction fuel as [|fuel IH]; intros offset bs Ho Hfuel; cbn [scan].
  { rewrite (proj2 (Z.leb_le _ _)) by lia. eauto. }
  destruct (Z.leb_spec (fsize f) offset); [by eauto|].
  destruct (wrap_res _ (seek offset) ≫= _) as [[sb n]| |]; [|by eauto..].
  unfold determineValueSize.
  destruct (determineTombstoneSize f offset) as [k| |] eqn:Hk; ress;
    repeat case_match; eauto;
    apply determineTombstoneSize_range in Hk; rewrite (scan_next offset k) by lia;
    apply IH; lia.
Qed.

Lemma RebuildFromFile_spec fuel (post : file) rs :
  (length rs < fuel)%nat → Forall scanned_ok rs → scan_stops post →
  fsize (file_of rs ++ post) < 2 ^ 63 →
  ∃ fl, RebuildFromFile fuel (file_of rs ++ post) = Some (fl, Ok tt) ∧ wf fl ∧
    (∀ x, free fl x ↔ Exists (in_block x) (dead_blocks 0 rs)) ∧
    total (blocks fl) = total (dead_blocks 0 rs).
Proof.
  intros Hf Hok Hstop Hsz. eexists. unfold RebuildFromFile.
  pose proof (scan_records rs fuel [] post [] Hf Hok Hstop Hsz) as Hscan.
  cbn [app] in Hscan. change (fsize []) with 0 in Hscan. rewrite Hscan.
  split; [done|].
  unfold fsize in Hsz. rewrite len_app in Hsz. pose proof (len_nonneg post).
  destruct (dead_blocks_ok rs 0) as (H1 & H2 & _); [lia|done|unfold fsize; lia|].
  by apply coalesceBlocks_spec.
Qed.

Lemma file_of_length rs : Forall scanned_ok rs → (length rs ≤ length (file_of rs))%nat.
Proof.
  induction 1 as [|r rs Hr _ IH]; [done|]. rewrite file_of_cons, length_app.
  pose proof (scanned_size_bound r Hr) as Hs. unfold scanned_size, len in Hs. simpl. lia.
Qed.

Lemma dead_blocks_free rs x : ∀ o,
  Exists (in_block x) (dead_blocks o rs) ↔
  ∃ pre r suf, rs = pre ++ r :: suf ∧ live r = false ∧
    o + fsize (file_of pre) ≤ x < o + fsize (file_of pre) + scanned_size r.
Proof.
  induction rs as [|r rs IH]; intros o.
  { split; [intros H; inversion H|]. by intros ([] & ? & ? & ? & _). }
  cbn [dead_blocks]. rewrite Exists_app, IH. split.
  - intros [H|(pre & r' & suf & -> & Hl & Hx)].
    + exists [], r, rs. destruct (live r); [inversion H|].
      apply Exists_cons in H as [H|H]; [|inversion H].
      unfold in_block, block_end in H. cbn [Offset Size] in H.
      change (fsize (file_of [])) with 0. split_and!; [done..|lia|lia].
    + exists (r :: pre), r', suf. unfold fsize in *. rewrite file_of_cons, len_app.
      fold (scanned_size r). split_and!; [done..|lia|lia].
  - intros ([|r1 pre] & r' & suf & [= <- Hrs] & Hl & Hx).
    + left. rewrite Hl. left. unfold in_block, block_end. cbn [Offset Size].
      change (fsize (file_of [])) with 0 in Hx. lia.
    + right. exists pre, r', suf. unfold fsize in *. rewrite file_of_cons, len_app in Hx.
      fold (scanned_size r) in Hx. split_and!; [done..|lia|lia].
Qed.

(** ** Properties *)

(** C6: freeing space.  Adding a block of bytes that were in use keeps the
    list sorted, disjoint and fully coalesced, and adds exactly those bytes to
    the free ones; the total reported grows by the block's size. *)
Theorem add_block_frees o s fl :
  wf fl → 0 ≤ o → 0 < s → o + s < 2 ^ 64 → (∀ x, o ≤ x < o + s → ¬ free fl x) →
  wf (AddBlock o s fl) ∧
  (∀ x, free (AddBlock o s fl) x ↔ free fl x ∨ o ≤ x < o + s) ∧
  GetTotalFreeSpace (AddBlock o s fl) = GetTotalFreeSpace fl + s.
Proof.
  intros Hwf Ho Hs Hb Hd. destruct (AddBlock_spec o s fl Hwf) as (Hwf' & Hfree & Ht); [done..|].
  split_and!; [done..|]. by rewrite !GetTotalFreeSpace_total.
Qed.

Lemma add_block_frees_witness :
  wf (AddBlock 20 5 (AddBlock 10 10 NewFreeList)) ∧
  GetTotalFreeSpace (AddBlock 20 5 (AddBlock 10 10 NewFreeList)) = 15.
Proof.
  assert (Hwf : wf (AddBlock 10 10 NewFreeList)).
  { split; repeat constructor; by vm_compute. }
  destruct (add_block_frees 20 5 (AddBlock 10 10 NewFreeList) Hwf) as (H1 & _ & H3); [lia..| |].
  - intros x Hx Hf. unfold free in Hf. inversion Hf as [? ? Hb|? ? Hb]; subst.
    + unfold in_block, block_end in Hb. cbn in Hb. lia.
    + inversion Hb.
  - split; [exact H1|]. rewrite H3. reflexivity.
Defined.

(** C4: allocating space.  [AllocateSpace] fails only when no block is big
    enough, and then changes nothing; otherwise the range it returns was free,
    and afterwards exactly the other free bytes are free: a later allocation
    cannot overlap this one.  Order, disjointness and coalescing are kept. *)
Theorem allocate_takes_free_space s fl :
  wf fl → 0 < s →
  match AllocateSpace s fl with
  | (fl', Some o) =>
      wf fl' ∧ 0 ≤ o ∧ o + s < 2 ^ 64 ∧
      (∀ x, o ≤ x < o + s → free fl x) ∧
      (∀ x, free fl' x ↔ free fl x ∧ ¬ (o ≤ x < o + s)) ∧
      GetTotalFreeSpace fl' = GetTotalFreeSpace fl - s
  | (fl', None) => fl' = fl ∧ Forall (λ blk, Size blk < s) (blocks fl)
  end.
Proof.
  intros Hwf Hs. pose proof Hwf as [Hok Hg]. unfold AllocateSpace.
  destruct (allocate s (blocks fl)) as [[o bs]|] eqn:Ha.
  - destruct (allocate_Some _ _ _ _ Hs Hok Hg Ha) as [H1 _ [H3 H4] H5 H6 H7].
    assert (Hwf' : wf (mkFreeList bs)) by done.
    split_and!; [done..|]. by rewrite !GetTotalFreeSpace_total.
  - split; [done|]. by apply allocate_None.
Qed.

Lemma allocate_takes_free_space_witness :
  ∃ fl', AllocateSpace 4 (AddBlock 10 10 NewFreeList) = (fl', Some 10) ∧ wf fl' ∧
    GetTotalFreeSpace fl' = 6.
Proof.
  assert (Hwf : wf (AddBlock 10 10 NewFreeList)).
  { split; repeat constructor; by vm_compute. }
  pose proof (allocate_takes_free_space 4 (AddBlock 10 10 NewFreeList) Hwf) as H.
  eexists. split; [reflexivity|]. destruct H as (H1 & _ & _ & _ & _ & H6); [lia|].
  split; [exact H1|exact H6].
Defined.


Definition two_dead : list scanned :=
  [mkScanned false TypeText (b "abc"); mkScanned true TypeNumber (replicate 8 Byte.x00);
   mkScanned false TypeTime (replicate 9 Byte.x00)].


(** The scanner's record sizes are not the store's.  The store writes a
    Money value with a length field, the scanner takes it for 12 data bytes,
    so the scan loses its place inside the first Money record of the usual
    11 bytes (8 for the amount, a 3-byte currency): after one, live or dead,
    no tombstone is recovered, whatever the rest of the file holds. *)
Theorem rebuild_loses_place_at_money amount currency rest fuel :
  let money := mkValue TypeMoney (amount ++ currency) in
  length amount = 8%nat → length currency = 3%nat → scan_stops currency →
  fsize (serializeValue money ++ rest) < 2 ^ 62 → (1 < fuel)%nat →
  len (serializeValue money) = 17 ∧
  RebuildFromFile fuel (serializeValue money ++ rest) = Some (NewFreeList, Ok tt) ∧
  RebuildFromFile fuel (<[0%nat:=SentinelTombstone]> (serializeValue money) ++ rest) =
    Some (mkFreeList [mkBlock 0 14], Ok tt).
Proof.
  intros money Ha Hc Hstop Hsz Hfuel.
  assert (Hdata : len (Data money) = 11) by (unfold len; cbn; rewrite length_app; lia).
  pose (r := λ l, mkScanned l TypeMoney (le 4 11 ++ amount)).
  assert (Hr : ∀ l, scanned_ok (r l)).
  { intros l. change (len (le 4 11 ++ amount) = 12). rewrite len_app, len_le. unfold len. by rewrite Ha. }
  assert (Hm : ∀ l : bool, (if l then serializeValue money
      else <[0%nat:=SentinelTombstone]> (serializeValue money)) ++ rest =
    file_of [r l] ++ currency ++ rest).
  { intros l. rewrite serializeValue_variable, Hdata by (done || rewrite Hdata; done).
    unfold file_of. cbn [mbind list_bind]. rewrite app_nil_r. unfold scanned_bytes, r.
    cbn [live tag payload Data money]. change (isVariableLength TypeMoney) with false. cbv iota.
    destruct l; cbn [app insert list_insert]; by rewrite <- ?app_assoc. }
  assert (Hst : scan_stops (currency ++ rest)) by (by destruct currency).
  assert (Hrun : ∀ l : bool, RebuildFromFile fuel (file_of [r l] ++ currency ++ rest) =
    Some (mkFreeList (dead_blocks 0 [r l]), Ok tt)).
  { intros l. unfold RebuildFromFile.
    pose proof (scan_records [r l] fuel [] (currency ++ rest) [] Hfuel) as H.
    cbn [app] in H. change (fsize []) with 0 in H.
    rewrite H; [by destruct l|by constructor|done|].
    rewrite <- Hm. unfold fsize in *. rewrite len_app in *. destruct l; rewrite ?len_insert; lia. }
  split_and!.
  - rewrite len_serializeValue, Hdata. done.
  - rewrite (Hm true), Hrun. done.
  - rewrite (Hm false), Hrun.
    assert (scanned_size (r false) = 14) as Hsize.
    { rewrite scanned_size_eq. change (2 + len (le 4 11 ++ amount) = 14).
      rewrite len_app, len_le. unfold len. by rewrite Ha. }
    change (dead_blocks 0 [r false]) with [mkBlock 0 (scanned_size (r false))]. by rewrite Hsize.
Qed.

Lemma rebuild_loses_place_at_money_witness :
  RebuildFromFile 5 (serializeValue (mkValue TypeMoney (replicate 8 Byte.x00 ++ b "USD")) ++
    <[0%nat:=SentinelTombstone]> (serializeValue (mkValue TypeText (b "deleted")))) =
  Some (NewFreeList, Ok tt).
Proof.
  destruct (rebuild_loses_place_at_money (replicate 8 Byte.x00) (b "USD")
    (<[0%nat:=SentinelTombstone]> (serializeValue (mkValue TypeText (b "deleted")))) 5)
    as (_ & H & _);
    [reflexivity|reflexivity|split; discriminate|by vm_compute|lia|exact H].
Defined.

End FreeList.
