(* ===== verification/TierSpace.v ===== *)
(** * Records in one tier

    What a value store keeps in one tier: a file, its free list, and the
    records of the live values by offset.  [tier_ok] says that the records are
    in the file, disjoint, and not on free space; the lemmas are the effect on
    it of the three ways the store changes a file (reuse free space, append,
    tombstone). *)
From S2P Require Import Prelude GoFile ValueCodec FreeList.

(** The live records of a tier, by offset. *)
Definition records : Type := Z → option (list byte).

Definition rec_insert (o : Z) (d : list byte) (rs : records) : records :=
  λ x, if decide (x = o) then Some d else rs x.
Definition rec_delete (o : Z) (rs : records) : records :=
  λ x, if decide (x = o) then None else rs x.

Record tier_ok (f : file) (fl : FreeList.FreeList) (rs : records) : Prop := {
  to_wf : FreeList.wf fl;
  to_inside : ∀ x, FreeList.free fl x → x < fsize f;
  to_rec : ∀ o d, rs o = Some d →
    0 ≤ o ∧ 0 < len d ∧ o + len d ≤ fsize f ∧ slice f o (len d) = d;
  to_disj : ∀ o d o' d', rs o = Some d → rs o' = Some d' → o ≠ o' →
    o + len d ≤ o' ∨ o' + len d' ≤ o;
  to_free : ∀ o d x, rs o = Some d → o ≤ x < o + len d → ¬ FreeList.free fl x
}.

Lemma tier_ok_ext f fl rs rs' : (∀ o, rs o = rs' o) → tier_ok f fl rs → tier_ok f fl rs'.
Proof.
  intros He [H1 H2 H3 H4 H5]. split; [done|done|..]; intros *; rewrite <- ?He.
  - apply H3.
  - apply H4.
  - apply H5.
Qed.

Lemma free_nonneg fl x : FreeList.wf fl → FreeList.free fl x → 0 ≤ x.
Proof.
  intros [Hok _] (blk & Hb & Hx)%Exists_exists. rewrite Forall_forall in Hok.
  pose proof (Hok blk Hb). unfold FreeList.block_ok, FreeList.in_block in *. lia.
Qed.

(** A record and a range whose bytes are all outside it are ordered. *)
Lemma ranges_ordered o n o' n' : 0 < n → 0 < n' →
  (∀ x, o ≤ x < o + n → ¬ (o' ≤ x < o' + n')) → o + n ≤ o' ∨ o' + n' ≤ o.
Proof.
  intros. destruct (Z.le_gt_cases (o + n) o'); [by left|].
  destruct (Z.le_gt_cases (o' + n') o); [by right|]. exfalso.
  destruct (Z.le_gt_cases o o'); [apply (H1 o')|apply (H1 o)]; lia.
Qed.

(** Writing a record over a range with no live record. *)
Lemma tier_write f fl fl' rs o d : tier_ok f fl rs → FreeList.wf fl' → 0 < len d →
  0 ≤ o → o ≤ fsize f →
  (∀ x, FreeList.free fl' x → FreeList.free fl x ∧ ¬ (o ≤ x < o + len d)) →
  (∀ o' d' x, rs o' = Some d' → o ≤ x < o + len d → ¬ (o' ≤ x < o' + len d')) →
  tier_ok (write_at f o d) fl' (rec_insert o d rs) ∧ rs o = None.
Proof.
  intros Hok Hwf Hd Ho Hof Hfl Hdis.
  assert (Hsz := fsize_write_at f o d (conj Ho Hof)).
  assert (Hord : ∀ o' d', rs o' = Some d' → o + len d ≤ o' ∨ o' + len d' ≤ o).
  { intros o' d' H'. apply ranges_ordered; [done|by apply (to_rec _ _ _ Hok o')|].
    intros x. by apply Hdis. }
  split.
  - split; [done|..].
    + intros x Hx. destruct (Hfl x Hx) as [Hx' _]. pose proof (to_inside _ _ _ Hok x Hx'). lia.
    + intros o' d'. unfold rec_insert. case_decide as He.
      * intros [= <-]. subst o'. split_and!; [done..|lia|].
        by apply slice_write_at_same.
      * intros H'. destruct (to_rec _ _ _ Hok o' d' H') as (? & ? & ? & Hs).
        split_and!; [done..|lia|]. rewrite slice_write_at_other; [done|done|done|lia|].
        destruct (Hord o' d' H'); lia.
    + intros o1 d1 o2 d2. unfold rec_insert. repeat case_decide; subst; try done.
      * intros [= <-] H2 _. by apply Hord.
      * intros H1 [= <-] _. destruct (Hord o1 d1 H1); [by right|by left].
      * by apply (to_disj _ _ _ Hok).
    + intros o' d' x. unfold rec_insert. case_decide; [subst|].
      * intros [= <-] Hx Hfr. by destruct (Hfl x Hfr).
      * intros H' Hx Hfr. destruct (Hfl x Hfr) as [Hfr' _].
        by apply (to_free _ _ _ Hok o' d' x).
  - destruct (rs o) as [d'|] eqn:H'; [|done]. exfalso.
    destruct (to_rec _ _ _ Hok o d' H') as (_ & Hpos & _). apply (Hdis o d' o H'); lia.
Qed.

Lemma tier_reuse f fl fl' rs o d : tier_ok f fl rs → 0 < len d →
  FreeList.AllocateSpace (len d) fl = (fl', Some o) →
  tier_ok (write_at f o d) fl' (rec_insert o d rs) ∧ rs o = None ∧
  0 ≤ o ∧ o + len d ≤ fsize f ∧ fsize (write_at f o d) = fsize f ∧ FreeList.free fl o ∧
  (∀ x, FreeList.free fl' x → FreeList.free fl x).
Proof.
  intros Hok Hd Ha. unfold FreeList.AllocateSpace in Ha.
  destruct (FreeList.allocate (len d) (FreeList.blocks fl)) as [[o1 bs]|] eqn:Hal; [|done].
  injection Ha as <- <-. destruct (to_wf _ _ _ Hok) as [H1 H2].
  destruct (FreeList.allocate_Some _ _ _ _ Hd H1 H2 Hal) as [Hwf _ Hrg Hwas Hfr _].
  assert (Ht : FreeList.taken o1 (len d) (o1 + len d - 1)) by (unfold FreeList.taken; lia).
  pose proof (to_inside _ _ _ Hok _ (Hwas _ Ht)) as Hlast.
  destruct (tier_write f fl (FreeList.mkFreeList bs) rs o1 d) as [Hok' Hn];
    [done|done|done|by apply Hrg|lia| | |].
  - intros x Hx. by apply Hfr.
  - intros o' d' x H' Hx Hx'. apply (to_free _ _ _ Hok o' d' x H' Hx'). by apply Hwas.
  - split_and!; [done|done|lia|lia| | |].
    + rewrite fsize_write_at; lia.
    + apply Hwas. unfold FreeList.taken. lia.
    + intros x Hx. by apply Hfr.
Qed.

Lemma tier_append f fl rs d : tier_ok f fl rs → 0 < len d →
  tier_ok (write_at f (fsize f) d) fl (rec_insert (fsize f) d rs) ∧ rs (fsize f) = None.
Proof.
  intros Hok Hd. pose proof (len_nonneg f).
  apply (tier_write f fl fl rs (fsize f) d); [done|by apply (to_wf _ _ _ Hok)|done|done|done| |].
  - intros x Hx. pose proof (to_inside _ _ _ Hok x Hx). split; [done|lia].
  - intros o' d' x H' Hx. destruct (to_rec _ _ _ Hok o' d' H'). lia.
Qed.

(** Padding the end of the file. *)
Lemma tier_pad f fl rs d : tier_ok f fl rs → tier_ok (write_at f (fsize f) d) fl rs.
Proof.
  intros [H1 H2 H3 H4 H5]. rewrite write_at_append. split; [done| | |done|done].
  - intros x Hx. pose proof (H2 x Hx). pose proof (len_nonneg d).
    unfold fsize in *. rewrite len_app. lia.
  - intros o r Hr. destruct (H3 o r Hr) as (? & ? & ? & ?). pose proof (len_nonneg d).
    split_and!; [done|done| |].
    + unfold fsize in *. rewrite len_app. lia.
    + by rewrite slice_app_l by lia.
Qed.

(** Overwriting the sentinel of a record and freeing its bytes. *)
Lemma tier_tombstone f fl rs o d s : tier_ok f fl rs → fsize f < 2 ^ 63 → rs o = Some d →
  tier_ok (write_at f o [s]) (FreeList.AddBlock o (len d) fl) (rec_delete o rs) ∧
  fsize (write_at f o [s]) = fsize f.
Proof.
  intros Hok Hsz Hd. destruct (to_rec _ _ _ Hok o d Hd) as (Ho & Hpos & Hend & Hs).
  assert (Hf : fsize (write_at f o [s]) = fsize f).
  { rewrite fsize_write_at by lia. change (len [s]) with 1. lia. }
  destruct (FreeList.AddBlock_spec o (len d) fl (to_wf _ _ _ Hok)) as (Hwf & Hfr & _).
  { unfold FreeList.block_ok, FreeList.block_end. cbn. lia. }
  { intros x Hx. by apply (to_free _ _ _ Hok o d x). }
  split; [|done]. unfold rec_delete. split; [done|rewrite Hf| |..].
  - intros x [Hx|Hx]%Hfr; [by apply (to_inside _ _ _ Hok)|lia].
  - intros o' d'. rewrite Hf. case_decide as He; [done|]. intros H'.
    destruct (to_rec _ _ _ Hok o' d' H') as (? & ? & ? & Hs'). split_and!; [done..|].
    rewrite slice_write_at_other; [done|lia|done|lia|]. change (len [s]) with 1.
    destruct (to_disj _ _ _ Hok o' d' o d H' Hd He); lia.
  - intros o1 d1 o2 d2. repeat case_decide; [done..|]. by apply (to_disj _ _ _ Hok).
  - intros o' d' x. case_decide as He; [done|]. intros H' Hx [Hfx|Hx']%Hfr.
    + by apply (to_free _ _ _ Hok o' d' x).
    + destruct (to_disj _ _ _ Hok o' d' o d H' Hd He); lia.
Qed.

(** An empty tier. *)
Lemma tier_empty f : tier_ok f FreeList.NewFreeList (λ _, None).
Proof.
  split; [split; constructor|..]; try done. intros x Hx. inversion Hx.
Qed.
