(* ===== verification/ValueStore.v ===== *)
(** * The value store (internal/storage/values.go)

    Deduplicated, reference-counted values in tiered files.  The state is the
    bucket files on disk, the large file, the free lists, the hash map and the
    reference counts; [store_rep] relates it to a map from value IDs to values
    and counts, which the operations refine. *)
From S2P Require Import Prelude GoFile ValueCodec FreeList TierSpace.

(** [files] are the bucket files on disk by (tier, bucket), [handles] those
    opened by this process (the keys of tier0Files, tier1Files, tier2Files). *)
Record ValueStore := mkValueStore {
  files : gmap (Z * Z) file;
  handles : gset (Z * Z);
  tier3File : file;
  currentBucket : list Z;
  freeLists : list FreeList.FreeList;
  hashToValueID : gmap (list byte) Z;
  referenceCount : gmap Z Z
}.

Definition bucket_file (vs : ValueStore) (tier bucket : Z) : file :=
  default [] (files vs !! (tier, bucket)).
Definition free_list (vs : ValueStore) (tier : Z) : FreeList.FreeList :=
  default FreeList.NewFreeList (freeLists vs !! Z.to_nat tier).
Definition current_bucket (vs : ValueStore) (tier : Z) : Z :=
  default 0 (currentBucket vs !! Z.to_nat tier).

(** Field updates. *)
Definition set_files (vs : ValueStore) fs hs : ValueStore :=
  {| files := fs; handles := hs; tier3File := tier3File vs; currentBucket := currentBucket vs;
     freeLists := freeLists vs; hashToValueID := hashToValueID vs;
     referenceCount := referenceCount vs |}.
Definition set_bucket_file (tier bucket : Z) (f : file) (vs : ValueStore) : ValueStore :=
  set_files vs (<[(tier, bucket):=f]> (files vs)) (handles vs).
Definition set_tier3File (f : file) (vs : ValueStore) : ValueStore :=
  {| files := files vs; handles := handles vs; tier3File := f; currentBucket := currentBucket vs;
     freeLists := freeLists vs; hashToValueID := hashToValueID vs;
     referenceCount := referenceCount vs |}.
Definition set_free_list (tier : Z) (fl : FreeList.FreeList) (vs : ValueStore) : ValueStore :=
  {| files := files vs; handles := handles vs; tier3File := tier3File vs;
     currentBucket := currentBucket vs; freeLists := <[Z.to_nat tier:=fl]> (freeLists vs);
     hashToValueID := hashToValueID vs; referenceCount := referenceCount vs |}.
Definition set_maps (h : gmap (list byte) Z) (rc : gmap Z Z) (vs : ValueStore) : ValueStore :=
  {| files := files vs; handles := handles vs; tier3File := tier3File vs;
     currentBucket := currentBucket vs; freeLists := freeLists vs;
     hashToValueID := h; referenceCount := rc |}.

(** Opening with [O_CREATE] makes an empty file when there is none. *)
Definition getBucketFile (tier bucket : Z) : Op ValueStore unit := λ vs,
  if negb (bool_decide (0 ≤ tier ≤ 2)) then (vs, Err "invalid tier") else
  if bool_decide ((tier, bucket) ∈ handles vs) then (vs, Ok tt) else
  (set_files vs (<[(tier, bucket):=bucket_file vs tier bucket]> (files vs))
     ({[(tier, bucket)]} ∪ handles vs), Ok tt).

Definition writeToBucketTier (tier : Z) (data : list byte) : Op ValueStore Z := λ vs,
  let bucket := current_bucket vs tier in
  match op_wrap "get bucket file failed" (getBucketFile tier bucket) vs with
  | (vs, Ok _) =>
      let f := bucket_file vs tier bucket in
      match FreeList.AllocateSpace (len data) (free_list vs tier) with
      | (fl, Some offset) =>
          let vs := set_free_list tier fl vs in
          match wrap_res "seek failed" (seek (i64 offset)) with
          | Ok _ => (set_bucket_file tier bucket (write_at f offset data) vs,
                     Ok (encodeValueID tier bucket offset))
          | Err e => (vs, Err e)
          | Panic e => (vs, Panic e)
          end
      | (fl, None) =>
          let vs := set_free_list tier fl vs in
          let offset := u64 (fsize f) in
          let '(f, offset) :=
            if encodeValueID tier bucket offset =? 0
            then (write_at f (fsize f) [Byte.x00], u64 (offset + 1)) else (f, offset) in
          (set_bucket_file tier bucket (write_at f (fsize f) data) vs,
           Ok (encodeValueID tier bucket offset))
      end
  | (vs, Err e) => (vs, Err e)
  | (vs, Panic e) => (vs, Panic e)
  end.

Definition writeToTier0 := writeToBucketTier 0.
Definition writeToTier1 := writeToBucketTier 1.
Definition writeToTier2 := writeToBucketTier 2.

Definition writeToTier3 (data : list byte) : Op ValueStore Z := λ vs,
  match FreeList.AllocateSpace (len data) (free_list vs 3) with
  | (fl, Some offset) =>
      let vs := set_free_list 3 fl vs in
      match wrap_res "seek failed" (seek (i64 offset)) with
      | Ok _ => (set_tier3File (write_at (tier3File vs) offset data) vs,
                 Ok (encodeValueID 3 0 offset))
      | Err e => (vs, Err e)
      | Panic e => (vs, Panic e)
      end
  | (fl, None) =>
      let vs := set_free_list 3 fl vs in
      let offset := u64 (fsize (tier3File vs)) in
      (set_tier3File (write_at (tier3File vs) (fsize (tier3File vs)) data) vs,
       Ok (encodeValueID 3 0 offset))
  end.

(** The body both readers share, on an open file.  Counts of bytes read are
    ignored by the code: a short read leaves zeros. *)
Definition read_record (f : file) (offset : Z) : res (list byte) :=
  wrap_res "seek failed" (seek (i64 offset)) ≫= λ _,
  wrap_res "read header failed" (read_at f (i64 offset) 2) ≫= λ '(header, n),
  let sentinel := default Byte.x00 (header !! 0%nat) in
  if bool_decide (sentinel = SentinelTombstone) then Err "value is tombstoned" else
  if negb (bool_decide (sentinel = SentinelValue)) then Err "invalid sentinel" else
  let typeTag := default Byte.x00 (header !! 1%nat) in
  if isVariableLength typeTag then
    wrap_res "read length failed" (read_at f (i64 offset + n) 4) ≫= λ '(lengthBytes, _),
    let totalSize := 2 + 4 + unle lengthBytes in
    fst <$> wrap_res "read complete record failed" (read_at f (i64 offset) totalSize)
  else
    let totalSize := 2 + getFixedTypeSize typeTag in
    fst <$> wrap_res "read complete record failed" (read_at f (i64 offset) totalSize).

Definition readFromBucketTier (tier bucket offset : Z) : Op ValueStore (list byte) := λ vs,
  match op_wrap "get bucket file failed" (getBucketFile tier bucket) vs with
  | (vs, Ok _) => (vs, read_record (bucket_file vs tier bucket) offset)
  | (vs, Err e) => (vs, Err e)
  | (vs, Panic e) => (vs, Panic e)
  end.

Definition readFromTier0 := readFromBucketTier 0.
Definition readFromTier1 := readFromBucketTier 1.
Definition readFromTier2 := readFromBucketTier 2.
Definition readFromTier3 (offset : Z) : Op ValueStore (list byte) :=
  λ vs, (vs, read_record (tier3File vs) offset).

Definition tombstoneBucketTier (tier bucket offset : Z) : Op ValueStore unit :=
  data ← op_wrap "read before tombstone failed" (readFromBucketTier tier bucket offset);
  _ ← op_wrap "get bucket file failed" (getBucketFile tier bucket);
  _ ← op_lift (wrap_res "seek failed" (seek (i64 offset)));
  op_modify (λ vs,
    let vs := set_bucket_file tier bucket
      (write_at (bucket_file vs tier bucket) offset [SentinelTombstone]) vs in
    set_free_list tier (FreeList.AddBlock offset (len data) (free_list vs tier)) vs).

Definition tombstoneTier0 := tombstoneBucketTier 0.
Definition tombstoneTier1 := tombstoneBucketTier 1.
Definition tombstoneTier2 := tombstoneBucketTier 2.

Definition tombstoneTier3 (offset : Z) : Op ValueStore unit :=
  data ← op_wrap "read before tombstone failed" (readFromTier3 offset);
  _ ← op_lift (wrap_res "seek failed" (seek (i64 offset)));
  op_modify (λ vs,
    let vs := set_tier3File (write_at (tier3File vs) offset [SentinelTombstone]) vs in
    set_free_list 3 (FreeList.AddBlock offset (len data) (free_list vs 3)) vs).

(** The tier switches. *)
Definition writeToTier (tier : Z) (data : list byte) : Op ValueStore Z :=
  match tier with
  | 0 => writeToTier0 data
  | 1 => writeToTier1 data
  | 2 => writeToTier2 data
  | 3 => writeToTier3 data
  | _ => op_err "invalid tier"
  end.

Definition readFromTier (tier bucket offset : Z) : Op ValueStore (list byte) :=
  match tier with
  | 0 => readFromTier0 bucket offset
  | 1 => readFromTier1 bucket offset
  | 2 => readFromTier2 bucket offset
  | 3 => readFromTier3 offset
  | _ => op_err "invalid tier"
  end.

Definition tombstoneTier (tier bucket offset : Z) : Op ValueStore unit :=
  match tier with
  | 0 => tombstoneTier0 bucket offset
  | 1 => tombstoneTier1 bucket offset
  | 2 => tombstoneTier2 bucket offset
  | 3 => tombstoneTier3 offset
  | _ => op_err "invalid tier"
  end.

Definition writeValue (value : Value) : Op ValueStore Z := λ vs,
  let hash := hashValue value in
  match hashToValueID vs !! hash with
  | Some valueID =>
      (set_maps (hashToValueID vs)
         (<[valueID:=i64 (default 0 (referenceCount vs !! valueID) + 1)]> (referenceCount vs)) vs,
       Ok valueID)
  | None =>
      let serialized := serializeValue value in
      let tier := determineTier (len serialized) in
      match writeToTier tier serialized vs with
      | (vs, Ok valueID) =>
          (set_maps (<[hash:=valueID]> (hashToValueID vs))
             (<[valueID:=1]> (referenceCount vs)) vs, Ok valueID)
      | (vs, Err e) => (vs, Err e)
      | (vs, Panic e) => (vs, Panic e)
      end
  end.

Definition readValue (valueID : Z) : Op ValueStore Value :=
  data ← readFromTier (extractTier valueID) (extractBucket valueID) (extractOffset valueID);
  op_lift (deserializeValue data).

Definition tombstoneValue (valueID : Z) : Op ValueStore unit := λ vs,
  match referenceCount vs !! valueID with
  | None => (vs, Err "value ID not found in reference count")
  | Some refCount =>
      let refCount := i64 (refCount - 1) in
      if 0 <? refCount then
        (set_maps (hashToValueID vs) (<[valueID:=refCount]> (referenceCount vs)) vs, Ok tt)
      else
        let vs := set_maps (hashToValueID vs) (delete valueID (referenceCount vs)) vs in
        let '(vs, r) := readValue valueID vs in
        let vs := match r with
                  | Ok value => set_maps (delete (hashValue value) (hashToValueID vs))
                                  (referenceCount vs) vs
                  | _ => vs
                  end in
        tombstoneTier (extractTier valueID) (extractBucket valueID) (extractOffset valueID) vs
  end.

(** The public entries take the lock and call the functions above. *)
Definition WriteValue := writeValue.
Definition ReadValue := readValue.
Definition TombstoneValue := tombstoneValue.

Definition FindValueIDForData (data : list byte) (typeTag : byte) (vs : ValueStore) : Z :=
  default 0 (hashToValueID vs !! hashValue {| TypeTag := typeTag; Data := data |}).

Definition determineMaxValueID (vs : ValueStore) : Z :=
  let estimatedCount := if 0 <? fsize (tier3File vs) then fsize (tier3File vs) / 100 else 0 in
  if estimatedCount =? 0 then 1000 else estimatedCount.

Fixpoint rebuild_ids (n : nat) (valueID : Z) (vs : ValueStore) : ValueStore :=
  match n with
  | O => vs
  | S n =>
      let '(vs, r) := readValue valueID vs in
      let vs := match r with
                | Ok value => set_maps (<[hashValue value:=valueID]> (hashToValueID vs))
                                (<[valueID:=1]> (referenceCount vs)) vs
                | _ => vs
                end in
      rebuild_ids n (valueID + 1) vs
  end.

Definition rebuildHashMap (vs : ValueStore) : ValueStore :=
  rebuild_ids (Z.to_nat (determineMaxValueID vs)) 1 vs.

(** Opening a store over the files of a directory. *)
Definition NewValueStore (dir : gmap (Z * Z) file) (large : file) : ValueStore :=
  rebuildHashMap
    {| files := dir; handles := ∅; tier3File := large; currentBucket := [0; 0; 0; 0];
       freeLists := replicate 4 FreeList.NewFreeList;
       hashToValueID := ∅; referenceCount := ∅ |}.

(** ** Abstract view: value IDs to values and reference counts *)

Abbreviation values := (gmap Z (Value * Z)).

(** The code only ever uses bucket 0. *)
Definition tier_file (vs : ValueStore) (t : Z) : file :=
  if t =? 3 then tier3File vs else bucket_file vs t 0.

Definition rec_at (m : values) (t : Z) : records := λ o,
  if decide (0 ≤ o < 2 ^ 40)
  then (λ vn, serializeValue vn.1) <$> m !! encodeValueID t 0 o else None.

Definition value_tier (v : Value) : Z := determineTier (len (serializeValue v)).

Definition max_refs : Z := 2 ^ 63 - 1.

Record store_rep (vs : ValueStore) (m : values) : Prop := {
  sr_current : currentBucket vs = [0; 0; 0; 0];
  sr_lists : length (freeLists vs) = 4%nat;
  sr_tier : ∀ t, 0 ≤ t ≤ 3 → tier_ok (tier_file vs t) (free_list vs t) (rec_at m t);
  sr_size : ∀ t, 0 ≤ t ≤ 3 → fsize (tier_file vs t) ≤ 2 ^ 40;
  sr_zero : ¬ FreeList.free (free_list vs 0) 0;
  sr_live : ∀ id v n, m !! id = Some (v, n) →
    is_u64 id ∧ id ≠ 0 ∧ extractBucket id = 0 ∧ value_ok v ∧ 0 < n ≤ max_refs;
  sr_refs : referenceCount vs = snd <$> m;
  sr_hash : ∀ h id, hashToValueID vs !! h = Some id ↔ ∃ v n, m !! id = Some (v, n) ∧ hashValue v = h;
  sr_home : ∀ id v n, m !! id = Some (v, n) → extractTier id = value_tier v
}.

(** Room for one more record of [n] bytes in a tier. *)
Definition room (vs : ValueStore) (t n : Z) : Prop := fsize (tier_file vs t) + 1 + n ≤ 2 ^ 40.

(** No live value other than [v] has its hash. *)
Definition collision_free (m : values) (v : Value) : Prop :=
  ∀ id w n, m !! id = Some (w, n) → hashValue w = hashValue v → w = v.

(** ** Opening files *)

(** Two states with the same contents, up to which files are open. *)
Record same_store (vs vs' : ValueStore) : Prop := {
  ss_file : ∀ t bk, bucket_file vs' t bk = bucket_file vs t bk;
  ss_large : tier3File vs' = tier3File vs;
  ss_current : currentBucket vs' = currentBucket vs;
  ss_lists : freeLists vs' = freeLists vs;
  ss_hash : hashToValueID vs' = hashToValueID vs;
  ss_refs : referenceCount vs' = referenceCount vs }.

#[global] Instance same_store_refl : Reflexive same_store.
Proof. by split. Qed.
#[global] Instance same_store_trans : Transitive same_store.
Proof.
  intros x y z [H1 H2 H3 H4 H5 H6] [G1 G2 G3 G4 G5 G6]. split; [|congruence..].
  intros t bk. by rewrite G1.
Qed.

Lemma same_tier_file vs vs' t : same_store vs vs' → tier_file vs' t = tier_file vs t.
Proof. intros [H1 H2 _ _ _ _]. unfold tier_file. by rewrite H1, H2. Qed.
Lemma same_free_list vs vs' t : same_store vs vs' → free_list vs' t = free_list vs t.
Proof. intros [_ _ _ H _ _]. unfold free_list. by rewrite H. Qed.

Lemma store_rep_same vs vs' m : same_store vs vs' → store_rep vs m → store_rep vs' m.
Proof.
  intros Hs [H1 H2 H3 H4 H5 H6 H7 H8 H9]. split; try done.
  - by rewrite (ss_current _ _ Hs).
  - by rewrite (ss_lists _ _ Hs).
  - intros t Ht. rewrite (same_tier_file _ _ _ Hs), (same_free_list _ _ _ Hs). by apply H3.
  - intros t Ht. rewrite (same_tier_file _ _ _ Hs). by apply H4.
  - by rewrite (same_free_list _ _ _ Hs).
  - by rewrite (ss_refs _ _ Hs).
  - by rewrite (ss_hash _ _ Hs).
Qed.

Lemma getBucketFile_same t bk vs : 0 ≤ t ≤ 2 →
  ∃ vs', getBucketFile t bk vs = (vs', Ok tt) ∧ same_store vs vs'.
Proof.
  intros Ht. unfold getBucketFile. rewrite bool_decide_true by done. cbn [negb].
  case_bool_decide; eexists; (split; [done|]); [done|]. split; try done.
  intros t' bk'. unfold bucket_file. cbn [set_files files].
  destruct (decide ((t, bk) = (t', bk'))) as [[= <- <-]|].
  - by rewrite lookup_insert_eq.
  - by rewrite lookup_insert_ne.
Qed.

(** ** Reading a record *)

Lemma read_record_live f o v : value_ok v → 0 ≤ o → o + len (serializeValue v) ≤ 2 ^ 40 →
  o + len (serializeValue v) ≤ fsize f →
  slice f o (len (serializeValue v)) = serializeValue v →
  read_record f o = Ok (serializeValue v).
Proof.
  intros Hv Ho Hb Hf Hs. rewrite len_serializeValue in *. pose proof (len_nonneg (Data v)).
  unfold read_record. unfold header_size, value_ok in *.
  destruct (isVariableLength (TypeTag v)) eqn:Hvar.
  - rewrite (i64_small o), seek_ok by (unfold is_i64; lia). ress.
    rewrite read_at_slice by lia. ress.
    pose proof (serializeValue_variable v Hvar Hv) as Hser.
    assert (Hs2 := Hs). rewrite Hser in Hs2.
    change (SentinelValue :: TypeTag v :: le 4 (len (Data v)) ++ Data v)
      with ([SentinelValue; TypeTag v] ++ le 4 (len (Data v)) ++ Data v) in Hs2.
    replace (6 + len (Data v)) with (2 + (4 + len (Data v))) in Hs2 by lia.
    apply slice_eq_app in Hs2 as [Hh Hrest]; [|done|done|lens].
    apply slice_eq_app in Hrest as [Hl _]; [|lia|by rewrite len_le|done].
    rewrite Hh. cbn [lookup list_lookup default from_option id].
    rewrite bool_decide_false, bool_decide_true, Hvar by done. cbn [negb].
    rewrite read_at_slice, Hl by lia. ress.
    rewrite unle_le_small by (unfold is_u32 in *; lia).
    replace (2 + 4 + len (Data v)) with (6 + len (Data v)) by lia.
    rewrite read_at_slice, Hs by lia. done.
  - rewrite (i64_small o), seek_ok by (unfold is_i64; lia). ress.
    rewrite read_at_slice by lia. ress.
    pose proof (serializeValue_fixed v Hvar) as Hser.
    assert (Hs2 := Hs). rewrite Hser in Hs2.
    change (SentinelValue :: TypeTag v :: Data v)
      with ([SentinelValue; TypeTag v] ++ Data v) in Hs2.
    apply slice_eq_app in Hs2 as [Hh _]; [|done|done|done].
    rewrite Hh. cbn [lookup list_lookup default from_option id].
    rewrite bool_decide_false, bool_decide_true, Hvar, <- Hv by done. cbn [negb].
    rewrite read_at_slice, Hs by lia. done.
Qed.

Lemma tier_cases t : 0 ≤ t ≤ 3 → (0 ≤ t ≤ 2 ∧ t ≠ 3) ∨ t = 3.
Proof. lia. Qed.

Lemma writeToTier_bucket t d : 0 ≤ t ≤ 2 → writeToTier t d = writeToBucketTier t d.
Proof. intros. by assert (t = 0 ∨ t = 1 ∨ t = 2) as [->|[->| ->]] by lia. Qed.
Lemma readFromTier_bucket t bk o : 0 ≤ t ≤ 2 → readFromTier t bk o = readFromBucketTier t bk o.
Proof. intros. by assert (t = 0 ∨ t = 1 ∨ t = 2) as [->|[->| ->]] by lia. Qed.
Lemma tombstoneTier_bucket t bk o : 0 ≤ t ≤ 2 → tombstoneTier t bk o = tombstoneBucketTier t bk o.
Proof. intros. by assert (t = 0 ∨ t = 1 ∨ t = 2) as [->|[->| ->]] by lia. Qed.

Lemma tier_file_bucket vs t : 0 ≤ t ≤ 2 → tier_file vs t = bucket_file vs t 0.
Proof. intros. unfold tier_file. by rewrite (proj2 (Z.eqb_neq _ _)) by lia. Qed.

Lemma readFromTier_same t o vs : 0 ≤ t ≤ 3 →
  ∃ vs', readFromTier t 0 o vs = (vs', read_record (tier_file vs t) o) ∧ same_store vs vs'.
Proof.
  intros [[Ht _]| ->]%tier_cases; [|by exists vs].
  rewrite readFromTier_bucket, tier_file_bucket by done. unfold readFromBucketTier, op_wrap.
  destruct (getBucketFile_same t 0 vs Ht) as (vs' & -> & Hs). exists vs'. ress.
  by rewrite (ss_file _ _ Hs).
Qed.

(** The live record of an ID. *)
Lemma live_lookup vs m id v n : store_rep vs m → m !! id = Some (v, n) →
  let t := extractTier id in let o := extractOffset id in
  0 ≤ t ≤ 3 ∧ extractBucket id = 0 ∧ value_ok v ∧ encodeValueID t 0 o = id ∧
  rec_at m t o = Some (serializeValue v) ∧
  read_record (tier_file vs t) o = Ok (serializeValue v).
Proof.
  intros Hr Hm t o. destruct (sr_live _ _ Hr id v n Hm) as (Hid & Hne & Hb & Hok & _).
  destruct (extract_fields id) as [Ht _ Ho]. fold t o in Ht, Ho.
  assert (He : encodeValueID t 0 o = id).
  { rewrite <- (encode_extract id Hid). by rewrite Hb. }
  assert (Hrec : rec_at m t o = Some (serializeValue v)).
  { unfold rec_at. rewrite decide_True by done. by rewrite He, Hm. }
  split_and!; [lia|lia|done..|].
  destruct (to_rec _ _ _ (sr_tier _ _ Hr t ltac:(lia)) _ _ Hrec) as (H1 & H2 & H3 & H4).
  pose proof (sr_size _ _ Hr t ltac:(lia)). apply read_record_live; [done|done|lia|done|done].
Qed.

Lemma readValue_spec vs m id v n : store_rep vs m → m !! id = Some (v, n) →
  ∃ vs', readValue id vs = (vs', Ok v) ∧ same_store vs vs'.
Proof.
  intros Hr Hm. destruct (live_lookup vs m id v n Hr Hm) as (Ht & Hb & Hok & _ & _ & Hrd).
  unfold readValue. rewrite Hb. unfold mbind, op_bind, op_lift.
  destruct (readFromTier_same _ (extractOffset id) vs Ht) as (vs' & -> & Hs).
  exists vs'. rewrite Hrd. split; [|done]. f_equal.
  rewrite <- (app_nil_r (serializeValue v)). by apply deserialize_serialize.
Qed.

(** ** Changing one tier *)

Definition set_tier_file (t : Z) (f : file) (vs : ValueStore) : ValueStore :=
  if t =? 3 then set_tier3File f vs else set_bucket_file t 0 f vs.

Lemma set_tier_file_bucket t f vs : 0 ≤ t ≤ 2 → set_tier_file t f vs = set_bucket_file t 0 f vs.
Proof. intros. unfold set_tier_file. by rewrite (proj2 (Z.eqb_neq _ _)) by lia. Qed.

Lemma tier_file_set t f vs t' :
  tier_file (set_tier_file t f vs) t' = if decide (t' = t) then f else tier_file vs t'.
Proof.
  unfold set_tier_file, tier_file. destruct (Z.eqb_spec t 3) as [->|Ht].
  - destruct (Z.eqb_spec t' 3); case_decide; done || lia.
  - destruct (Z.eqb_spec t' 3) as [->|]; [by rewrite decide_False|].
    unfold bucket_file, set_bucket_file. cbn [set_files files].
    destruct (decide (t' = t)) as [->|]; [by rewrite lookup_insert_eq|].
    rewrite lookup_insert_ne; [done|congruence].
Qed.

Lemma tier_file_set_free_list t fl vs t' : tier_file (set_free_list t fl vs) t' = tier_file vs t'.
Proof. done. Qed.

Lemma free_list_set t fl vs t' : length (freeLists vs) = 4%nat → 0 ≤ t ≤ 3 → 0 ≤ t' →
  free_list (set_free_list t fl vs) t' = if decide (t' = t) then fl else free_list vs t'.
Proof.
  intros Hl Ht Ht'. unfold free_list, set_free_list. cbn [freeLists]. case_decide as He.
  - subst. by rewrite list_lookup_insert_eq by lia.
  - by rewrite list_lookup_insert_ne by lia.
Qed.

Lemma free_list_set_tier_file t f vs t' : free_list (set_tier_file t f vs) t' = free_list vs t'.
Proof. unfold set_tier_file. by case_match. Qed.

(** What a write does to its tier. *)
Record tier_written (vs : ValueStore) (t : Z) (rs : records) (d : list byte)
    (o : Z) (f' : file) (fl' : FreeList.FreeList) : Prop := {
  tw_ok : tier_ok f' fl' (rec_insert o d rs);
  tw_new : rs o = None;
  tw_off : 0 ≤ o < 2 ^ 40;
  tw_id : encodeValueID t 0 o ≠ 0;
  tw_size : fsize f' ≤ 2 ^ 40;
  tw_grow : fsize f' ≤ fsize (tier_file vs t) + 1 + len d;
  tw_free : ∀ x, FreeList.free fl' x → FreeList.free (free_list vs t) x }.

(** The reuse branch. *)
Lemma tier_written_reuse vs t rs d fl' o : 0 ≤ t ≤ 3 →
  tier_ok (tier_file vs t) (free_list vs t) rs → 0 < len d → fsize (tier_file vs t) ≤ 2 ^ 40 →
  (t = 0 → ¬ FreeList.free (free_list vs 0) 0) →
  FreeList.AllocateSpace (len d) (free_list vs t) = (fl', Some o) →
  tier_written vs t rs d o (write_at (tier_file vs t) o d) fl' ∧ seek (i64 o) = Ok tt.
Proof.
  intros Ht Hok Hd Hsz Hz Ha.
  destruct (tier_reuse _ _ _ _ _ _ Hok Hd Ha) as (H1 & H2 & H3 & H4 & H5 & H6 & H7).
  assert (Ho : 0 ≤ o < 2 ^ 40) by lia. split.
  - split; [done|done|done| |lia|lia|done].
    rewrite encodeValueID_zero by (split; lia). intros (-> & _ & ->). by apply Hz.
  - rewrite i64_small by (unfold is_i64; lia). by apply seek_ok.
Qed.

(** The append branch, after any padding. *)
Lemma tier_written_append vs t rs d f : 0 ≤ t ≤ 3 →
  tier_ok f (free_list vs t) rs → 0 < len d → fsize f + len d ≤ 2 ^ 40 →
  fsize f ≤ fsize (tier_file vs t) + 1 → encodeValueID t 0 (fsize f) ≠ 0 →
  tier_written vs t rs d (fsize f) (write_at f (fsize f) d) (free_list vs t).
Proof.
  intros Ht Hok Hd Hsz Hg Hz. destruct (tier_append _ _ _ _ Hok Hd) as [H1 H2].
  pose proof (len_nonneg f). rewrite write_at_append in *.
  split; [done|done|unfold fsize in *; lia|done| | |done];
    unfold fsize in *; rewrite len_app; lia.
Qed.

Lemma u64_fsize (f : file) : fsize f ≤ 2 ^ 40 → u64 (fsize f) = fsize f.
Proof. intros. pose proof (len_nonneg f). apply u64_small. unfold is_u64, fsize in *. lia. Qed.

Lemma allocate_None_same n fl fl' : FreeList.AllocateSpace n fl = (fl', None) → fl' = fl.
Proof. unfold FreeList.AllocateSpace. destruct (FreeList.allocate n _) as [[]|]; naive_solver. Qed.

Lemma writeToTier_spec vs t rs d : currentBucket vs = [0; 0; 0; 0] → 0 ≤ t ≤ 3 →
  tier_ok (tier_file vs t) (free_list vs t) rs → 0 < len d → room vs t (len d) →
  (t = 0 → ¬ FreeList.free (free_list vs 0) 0) →
  ∃ vs1 o f' fl', same_store vs vs1 ∧
    writeToTier t d vs = (set_tier_file t f' (set_free_list t fl' vs1), Ok (encodeValueID t 0 o)) ∧
    tier_written vs t rs d o f' fl'.
Proof.
  intros Hcur Ht Hok Hd Hroom Hz. unfold room in Hroom.
  pose proof (len_nonneg (tier_file vs t)) as Hnn. fold (fsize (tier_file vs t)) in Hnn.
  destruct (tier_cases t Ht) as [[Ht2 _]| ->].
  - rewrite writeToTier_bucket by done. unfold writeToBucketTier, op_wrap.
    assert (current_bucket vs t = 0) as ->.
    { unfold current_bucket. rewrite Hcur. by assert (t = 0 ∨ t = 1 ∨ t = 2) as [->|[->| ->]] by lia. }
    destruct (getBucketFile_same t 0 vs Ht2) as (vs1 & -> & Hs). ress.
    rewrite (same_free_list _ _ _ Hs), (ss_file _ _ Hs), <- tier_file_bucket by done.
    destruct (FreeList.AllocateSpace (len d) (free_list vs t)) as [fl' [o|]] eqn:Ha.
    + destruct (tier_written_reuse vs t rs d fl' o) as [Hw ->]; [done..|lia|done|done|].
      ress. exists vs1, o, (write_at (tier_file vs t) o d), fl'.
      rewrite set_tier_file_bucket by done. done.
    + apply allocate_None_same in Ha as ->. rewrite u64_fsize by lia.
      destruct (Z.eqb_spec (encodeValueID t 0 (fsize (tier_file vs t))) 0) as [He|Hne].
      * pose proof He as He0. rewrite encodeValueID_zero in He by (split; lia).
        destruct He as (Ht0 & _ & Hf0).
        pose proof (tier_pad _ _ _ [Byte.x00] Hok) as Hpad.
        set (f := write_at (tier_file vs t) (fsize (tier_file vs t)) [Byte.x00]) in *.
        assert (Hf : fsize f = 1).
        { unfold f. rewrite write_at_append. unfold fsize in *. rewrite len_app, Hf0. done. }
        rewrite Hf0. change (u64 (0 + 1)) with 1.
        exists vs1, 1, (write_at f (fsize f) d), (free_list vs t).
        rewrite set_tier_file_bucket by done. split_and!; [done|done|]. rewrite <- Hf at 1.
        apply tier_written_append; [done|done|done|lia|lia|].
        rewrite Hf, encodeValueID_zero by (split; lia). lia.
      * exists vs1, (fsize (tier_file vs t)),
          (write_at (tier_file vs t) (fsize (tier_file vs t)) d), (free_list vs t).
        rewrite set_tier_file_bucket by done. split_and!; [done|done|].
        apply tier_written_append; [done..|lia|lia|done].
  - change (writeToTier 3 d vs) with (writeToTier3 d vs). unfold writeToTier3.
    exists vs. destruct (FreeList.AllocateSpace (len d) (free_list vs 3)) as [fl' [o|]] eqn:Ha.
    + destruct (tier_written_reuse vs 3 rs d fl' o) as [Hw ->]; [done..|lia|done|done|].
      ress. by exists o, (write_at (tier_file vs 3) o d), fl'.
    + apply allocate_None_same in Ha as ->.
      change (tier3File (set_free_list 3 (free_list vs 3) vs)) with (tier_file vs 3).
      rewrite u64_fsize by lia.
      exists (fsize (tier_file vs 3)),
        (write_at (tier_file vs 3) (fsize (tier_file vs 3)) d), (free_list vs 3).
      split_and!; [done|done|]. apply tier_written_append; [done..|lia|lia|].
      rewrite encodeValueID_zero by (split; lia). lia.
Qed.

(** ** The records of an updated map *)

Lemma encode_inj t o t' o' : 0 ≤ t ≤ 3 → 0 ≤ t' ≤ 3 → 0 ≤ o < 2 ^ 40 → 0 ≤ o' < 2 ^ 40 →
  encodeValueID t 0 o = encodeValueID t' 0 o' → t = t' ∧ o = o'.
Proof. intros ????. rewrite !encodeValueID_sum by (split; lia). lia. Qed.

Lemma rec_at_insert m t o v n t' o' : 0 ≤ t ≤ 3 → 0 ≤ t' ≤ 3 → 0 ≤ o < 2 ^ 40 →
  rec_at (<[encodeValueID t 0 o:=(v, n)]> m) t' o' =
    if decide (t' = t) then rec_insert o (serializeValue v) (rec_at m t) o' else rec_at m t' o'.
Proof.
  intros Ht Ht' Ho. unfold rec_at, rec_insert.
  destruct (decide (0 ≤ o' < 2 ^ 40)) as [Ho'|].
  - destruct (decide (t' = t ∧ o' = o)) as [[-> ->]|Hne].
    + by rewrite lookup_insert_eq, !decide_True.
    + rewrite lookup_insert_ne.
      * repeat case_decide; subst; done || lia.
      * intros He. by apply encode_inj in He as [-> ->]; [destruct Hne|..].
  - repeat case_decide; done || lia.
Qed.

Lemma rec_at_delete m t o t' o' : 0 ≤ t ≤ 3 → 0 ≤ t' ≤ 3 → 0 ≤ o < 2 ^ 40 →
  rec_at (delete (encodeValueID t 0 o) m) t' o' =
    if decide (t' = t) then rec_delete o (rec_at m t) o' else rec_at m t' o'.
Proof.
  intros Ht Ht' Ho. unfold rec_at, rec_delete.
  destruct (decide (0 ≤ o' < 2 ^ 40)) as [Ho'|].
  - destruct (decide (t' = t ∧ o' = o)) as [[-> ->]|Hne].
    + by rewrite lookup_delete_eq, !decide_True.
    + rewrite lookup_delete_ne.
      * repeat case_decide; subst; done || lia.
      * intros He. by apply encode_inj in He as [-> ->]; [destruct Hne|..].
  - repeat case_decide; done || lia.
Qed.

Lemma rec_at_refs m id v n n' t o : m !! id = Some (v, n) →
  rec_at (<[id:=(v, n')]> m) t o = rec_at m t o.
Proof.
  intros Hm. unfold rec_at. case_decide; [|done].
  destruct (decide (id = encodeValueID t 0 o)) as [<-|Hne].
  - by rewrite lookup_insert_eq, Hm.
  - by rewrite lookup_insert_ne.
Qed.

(** Changing a reference count. *)
Lemma store_rep_refs vs m id v n n' : store_rep vs m → m !! id = Some (v, n) →
  0 < n' ≤ max_refs →
  store_rep (set_maps (hashToValueID vs) (<[id:=n']> (referenceCount vs)) vs)
    (<[id:=(v, n')]> m).
Proof.
  intros [H1 H2 H3 H4 H5 H6 H7 H8 H9] Hm Hn. split; [done|done| |done|done| | | |].
  - intros t Ht. eapply tier_ok_ext; [|by apply (H3 t Ht)].
    intros o. symmetry. by eapply rec_at_refs.
  - intros id1 w k. destruct (decide (id = id1)) as [<-|].
    + rewrite lookup_insert_eq. intros [= <- <-].
      destruct (H6 id v n Hm) as (? & ? & ? & ? & _). split_and!; assumption || apply Hn.
    + rewrite lookup_insert_ne by done. apply H6.
  - cbn. by rewrite H7, fmap_insert.
  - intros h id1. cbn [set_maps hashToValueID]. rewrite H8. destruct (decide (id = id1)) as [<-|].
    + rewrite lookup_insert_eq, Hm. naive_solver.
    + by rewrite lookup_insert_ne.
  - intros id1 w k [[<- [= <- _]]|[_ H]]%lookup_insert_Some; [exact (H9 id v n Hm)|exact (H9 _ _ _ H)].
Qed.

(** ** Writing a value *)

Lemma hash_hit vs m v id : store_rep vs m → collision_free m v →
  hashToValueID vs !! hashValue v = Some id ↔ ∃ n, m !! id = Some (v, n).
Proof.
  intros Hr Hcf. rewrite (sr_hash _ _ Hr). split.
  - intros (w & n & Hm & Hh). exists n. by rewrite <- (Hcf id w n Hm Hh).
  - intros (n & Hm). by exists v, n.
Qed.

Lemma len_serializeValue_pos v : 0 < len (serializeValue v).
Proof.
  rewrite len_serializeValue. pose proof (len_nonneg (Data v)).
  unfold header_size. case_match; lia.
Qed.

Lemma store_rep_insert vs vs1 m v t o f' fl' : store_rep vs m → same_store vs vs1 →
  t = value_tier v → value_ok v → collision_free m v → (∀ id n, m !! id ≠ Some (v, n)) →
  tier_written vs t (rec_at m t) (serializeValue v) o f' fl' →
  let id := encodeValueID t 0 o in
  let vs2 := set_tier_file t f' (set_free_list t fl' vs1) in
  m !! id = None ∧
  store_rep (set_maps (<[hashValue v:=id]> (hashToValueID vs2)) (<[id:=1]> (referenceCount vs2)) vs2)
    (<[id:=(v, 1)]> m).
Proof.
  intros Hr Hs Htier Hv Hcf Hnew [Hok Hn Ho Hid Hsz _ Hfree] id vs2.
  assert (Ht : 0 ≤ t ≤ 3) by (rewrite Htier; apply determineTier_range).
  pose proof (store_rep_same _ _ _ Hs Hr) as Hr1.
  assert (Hfl : ∀ t', 0 ≤ t' → free_list vs2 t' = if decide (t' = t) then fl' else free_list vs t').
  { intros t' Ht'. unfold vs2. rewrite free_list_set_tier_file, free_list_set; [|apply Hr1|done|done].
    by rewrite (same_free_list _ _ _ Hs). }
  assert (Hf : ∀ t', tier_file vs2 t' = if decide (t' = t) then f' else tier_file vs t').
  { intros t'. unfold vs2. rewrite tier_file_set, tier_file_set_free_list.
    by rewrite (same_tier_file _ _ _ Hs). }
  assert (Hmid : m !! id = None).
  { unfold rec_at in Hn. rewrite decide_True in Hn by done. fold id in Hn.
    destruct (m !! id); [done|done]. }
  assert (Hmaps : hashToValueID vs2 = hashToValueID vs ∧ referenceCount vs2 = referenceCount vs ∧
    currentBucket vs2 = currentBucket vs ∧ length (freeLists vs2) = 4%nat).
  { rewrite <- (ss_hash _ _ Hs), <- (ss_refs _ _ Hs), <- (ss_current _ _ Hs).
    unfold vs2, set_tier_file. case_match; cbn; rewrite length_insert; (split_and!; [done..|apply Hr1]). }
  destruct Hmaps as (Hh & Hrc & Hcur & Hlen).
  split; [done|]. split.
  - rewrite <- (sr_current _ _ Hr). done.
  - done.
  - intros t' Ht'. change (tier_ok (tier_file vs2 t') (free_list vs2 t') (rec_at (<[id:=(v, 1)]> m) t')).
    rewrite Hf, Hfl by lia.
    eapply tier_ok_ext; [intros o'; symmetry; by apply rec_at_insert|]. case_decide; [done|].
    by apply (sr_tier _ _ Hr).
  - intros t' Ht'. change (fsize (tier_file vs2 t') ≤ 2 ^ 40). rewrite Hf. case_decide; [done|].
    by apply (sr_size _ _ Hr).
  - change (¬ FreeList.free (free_list vs2 0) 0). rewrite Hfl by done.
    pose proof (sr_zero _ _ Hr). case_decide as E0; [|done].
    intros Hx%Hfree. by rewrite <- E0 in Hx.
  - intros id1 w k. destruct (decide (id = id1)) as [<-|].
    + rewrite lookup_insert_eq. intros [= <- <-].
      assert (Hfd : id_fields t 0 o) by (split; lia).
      destruct (extract_encode t 0 o Hfd) as (_ & Hb & _). split_and!; try done.
      all: unfold id, is_u64; rewrite encodeValueID_sum by done; lia.
    + rewrite lookup_insert_ne by done. apply (sr_live _ _ Hr).
  - change (<[id:=1]> (referenceCount vs2) = snd <$> <[id:=(v, 1)]> m).
    by rewrite Hrc, (sr_refs _ _ Hr), fmap_insert.
  - intros h id1. change (<[hashValue v:=id]> (hashToValueID vs2) !! h = Some id1 ↔
      ∃ w n, <[id:=(v, 1)]> m !! id1 = Some (w, n) ∧ hashValue w = h).
    rewrite Hh. destruct (decide (hashValue v = h)) as [<-|Hne].
    + rewrite lookup_insert_eq. split.
      * intros [= <-]. exists v, 1. by rewrite lookup_insert_eq.
      * intros (w & n & Hm & Hhw). destruct (decide (id = id1)) as [->|]; [done|].
        rewrite lookup_insert_ne in Hm by done. rewrite (Hcf id1 w n Hm Hhw) in Hm.
        by destruct (Hnew id1 n).
    + rewrite lookup_insert_ne, (sr_hash _ _ Hr) by done.
      destruct (decide (id = id1)) as [<-|].
      * rewrite lookup_insert_eq, Hmid. naive_solver.
      * by rewrite lookup_insert_ne.
  - intros id1 w k [[<- [= <- _]]|[_ H]]%lookup_insert_Some; [|by eapply (sr_home _ _ Hr)].
    rewrite <- Htier. refine (proj1 (extract_encode t 0 o _)). split; lia.
Qed.

Lemma writeValue_dedup vs m v id n : store_rep vs m → collision_free m v →
  m !! id = Some (v, n) → n < max_refs →
  ∃ vs', writeValue v vs = (vs', Ok id) ∧ store_rep vs' (<[id:=(v, n + 1)]> m).
Proof.
  intros Hr Hcf Hm Hn. pose proof (sr_live _ _ Hr id v n Hm) as (_ & _ & _ & _ & Hn0).
  unfold writeValue. rewrite (proj2 (hash_hit vs m v id Hr Hcf)) by eauto.
  assert (default 0 (referenceCount vs !! id) = n) as ->.
  { by rewrite (sr_refs _ _ Hr), lookup_fmap, Hm. }
  rewrite i64_small by (unfold is_i64, max_refs in *; lia).
  eexists. split; [done|]. eapply store_rep_refs; [done..|lia].
Qed.

Lemma writeValue_new vs m v : store_rep vs m → value_ok v → collision_free m v →
  (∀ id n, m !! id ≠ Some (v, n)) →
  room vs (value_tier v) (len (serializeValue v)) →
  ∃ vs' id, writeValue v vs = (vs', Ok id) ∧ m !! id = None ∧ id ≠ 0 ∧
    extractTier id = value_tier v ∧ store_rep vs' (<[id:=(v, 1)]> m) ∧
    (∀ t, fsize (tier_file vs' t) ≤ fsize (tier_file vs t) + 1 + len (serializeValue v)).
Proof.
  intros Hr Hv Hcf Hnew Hroom. unfold writeValue.
  destruct (hashToValueID vs !! hashValue v) as [id|] eqn:Hh.
  { apply (hash_hit vs m v id Hr Hcf) in Hh as [n Hm]. by destruct (Hnew id n). }
  fold (value_tier v). pose proof (determineTier_range (len (serializeValue v))) as Ht.
  fold (value_tier v) in Ht.
  destruct (writeToTier_spec vs (value_tier v) (rec_at m (value_tier v)) (serializeValue v))
    as (vs1 & o & f' & fl' & Hs & -> & Hw).
  - apply Hr.
  - done.
  - by apply (sr_tier _ _ Hr).
  - apply len_serializeValue_pos.
  - done.
  - intros _. apply Hr.
  - destruct (store_rep_insert vs vs1 m v (value_tier v) o f' fl') as [Hn Hrep]; [done..|].
    eexists _, _. split; [done|]. split_and!; [done|by apply Hw| |done|].
    + refine (proj1 (extract_encode _ 0 o _)). destruct Hw. split; lia.
    + intros t. pose proof (len_serializeValue_pos v).
      change (fsize (tier_file (set_tier_file (value_tier v) f'
        (set_free_list (value_tier v) fl' vs1)) t) ≤ fsize (tier_file vs t) + 1 + len (serializeValue v)).
      rewrite tier_file_set, tier_file_set_free_list, (same_tier_file _ _ _ Hs).
      case_decide; [subst; apply Hw|lia].
Qed.

(** ** Releasing a value *)

Lemma tombstoneTier_spec vs t o data : 0 ≤ t ≤ 3 → 0 ≤ o < 2 ^ 40 →
  read_record (tier_file vs t) o = Ok data →
  ∃ vs1, same_store vs vs1 ∧
    tombstoneTier t 0 o vs =
      (set_free_list t (FreeList.AddBlock o (len data) (free_list vs t))
         (set_tier_file t (write_at (tier_file vs t) o [SentinelTombstone]) vs1), Ok tt).
Proof.
  intros Ht Ho Hrd. assert (Hseek : seek (i64 o) = Ok tt).
  { rewrite i64_small by (unfold is_i64; lia). apply seek_ok. lia. }
  destruct (tier_cases t Ht) as [[Ht2 _]| ->].
  - rewrite tombstoneTier_bucket by done. unfold tombstoneBucketTier.
    unfold mbind, op_bind, op_wrap, op_lift, op_modify, readFromBucketTier.
    destruct (getBucketFile_same t 0 vs Ht2) as (vs1 & Hg1 & Hs1).
    unfold op_wrap. rewrite Hg1. ress.
    rewrite (ss_file _ _ Hs1), <- tier_file_bucket, Hrd by done. ress.
    destruct (getBucketFile_same t 0 vs1 Ht2) as (vs2 & -> & Hs2). ress.
    rewrite Hseek. ress. exists vs2. split; [by etrans|].
    rewrite set_tier_file_bucket by done. rewrite (ss_file _ _ Hs2), (ss_file _ _ Hs1).
    rewrite <- tier_file_bucket by done. unfold free_list at 1.
    change (freeLists (set_bucket_file t 0 ?f vs2)) with (freeLists vs2).
    rewrite (ss_lists _ _ Hs2), (ss_lists _ _ Hs1). done.
  - exists vs. split; [done|]. unfold tombstoneTier, tombstoneTier3.
    unfold mbind, op_bind, op_wrap, op_lift, op_modify, readFromTier3.
    change (tier3File vs) with (tier_file vs 3). rewrite Hrd. ress. by rewrite Hseek.
Qed.

Lemma store_rep_delete vs vs1 m id v : store_rep vs m → same_store vs vs1 →
  m !! id = Some (v, 1) →
  let t := extractTier id in let o := extractOffset id in
  let vs2 := set_free_list t (FreeList.AddBlock o (len (serializeValue v)) (free_list vs t))
               (set_tier_file t (write_at (tier_file vs t) o [SentinelTombstone]) vs1) in
  store_rep (set_maps (delete (hashValue v) (hashToValueID vs)) (delete id (referenceCount vs)) vs2)
    (delete id m).
Proof.
  intros Hr Hs Hm t o vs2. destruct (live_lookup vs m id v 1 Hr Hm) as (Ht & Hb & Hok & He & Hrec & _).
  fold t o in Ht, He, Hrec.
  destruct (sr_live _ _ Hr id v 1 Hm) as (_ & Hne & _).
  pose proof (store_rep_same _ _ _ Hs Hr) as Hr1.
  pose proof (sr_size _ _ Hr t Ht) as Hsz.
  assert (Ho : 0 ≤ o < 2 ^ 40) by apply extract_fields.
  destruct (tier_tombstone _ _ _ o _ SentinelTombstone (sr_tier _ _ Hr t Ht) ltac:(lia) Hrec)
    as [Htok Htsz].
  assert (Hlen : length (freeLists (set_tier_file t (write_at (tier_file vs t) o [SentinelTombstone]) vs1)) = 4%nat).
  { rewrite <- (sr_lists _ _ Hr1). unfold set_tier_file. by case_match. }
  assert (Hfl : ∀ t', 0 ≤ t' → free_list vs2 t' = if decide (t' = t)
      then FreeList.AddBlock o (len (serializeValue v)) (free_list vs t) else free_list vs t').
  { intros t' Ht'. unfold vs2. rewrite free_list_set, free_list_set_tier_file by done.
    by rewrite (same_free_list _ _ _ Hs). }
  assert (Hf : ∀ t', tier_file vs2 t' = if decide (t' = t)
      then write_at (tier_file vs t) o [SentinelTombstone] else tier_file vs t').
  { intros t'. unfold vs2. rewrite tier_file_set_free_list, tier_file_set.
    by rewrite (same_tier_file _ _ _ Hs). }
  assert (Hid : encodeValueID t 0 o ≠ 0) by by rewrite He.
  split.
  - rewrite <- (sr_current _ _ Hr), <- (ss_current _ _ Hs). unfold vs2, set_tier_file. by case_match.
  - unfold vs2. cbn. by rewrite length_insert.
  - intros t' Ht'. change (tier_ok (tier_file vs2 t') (free_list vs2 t') (rec_at (delete id m) t')).
    rewrite Hf, Hfl by lia. rewrite <- He.
    eapply tier_ok_ext; [intros o'; symmetry; by apply rec_at_delete|]. case_decide; [done|].
    by apply (sr_tier _ _ Hr).
  - intros t' Ht'. change (fsize (tier_file vs2 t') ≤ 2 ^ 40). rewrite Hf.
    case_decide; [by rewrite Htsz|]. by apply (sr_size _ _ Hr).
  - change (¬ FreeList.free (free_list vs2 0) 0). rewrite Hfl by done.
    pose proof (sr_zero _ _ Hr) as Hz. case_decide as Ht0; [|done]. rewrite <- Ht0 in *.
    destruct (to_rec _ _ _ (sr_tier _ _ Hr 0 Ht) _ _ Hrec) as (_ & Hpos & Hend & _).
    destruct (FreeList.AddBlock_spec o (len (serializeValue v)) (free_list vs 0)) as (_ & Hfr & _).
    + apply (to_wf _ _ _ (sr_tier _ _ Hr 0 Ht)).
    + unfold FreeList.block_ok, FreeList.block_end. cbn [FreeList.Offset FreeList.Size]. lia.
    + intros x Hx. by apply (to_free _ _ _ (sr_tier _ _ Hr 0 Ht) o _ x Hrec).
    + rewrite Hfr. intros [?|?]; [done|]. destruct Hid.
      by assert (o = 0) as -> by lia.
  - intros id1 w k [_ H]%lookup_delete_Some. by apply (sr_live _ _ Hr).
  - cbn [set_maps referenceCount]. by rewrite (sr_refs _ _ Hr), fmap_delete.
  - intros h id1. cbn [set_maps hashToValueID]. rewrite lookup_delete_Some, (sr_hash _ _ Hr). split.
    + intros [Hh (w & n & Hw & Hhw)]. exists w, n. rewrite lookup_delete_Some. split_and!; [|done..].
      intros <-. rewrite Hm in Hw. injection Hw as <- <-. done.
    + intros (w & n & [Hne1 Hw]%lookup_delete_Some & Hhw). split; [|by exists w, n].
      intros Hh. destruct Hne1.
      assert (hashToValueID vs !! h = Some id) as H1 by (apply (sr_hash _ _ Hr); by exists v, 1).
      assert (hashToValueID vs !! h = Some id1) as H2 by (apply (sr_hash _ _ Hr); by exists w, n).
      rewrite H1 in H2. by injection H2.
  - intros id1 w k [_ H]%lookup_delete_Some. by eapply (sr_home _ _ Hr).
Qed.

Lemma tombstoneValue_last vs m id v : store_rep vs m → m !! id = Some (v, 1) →
  ∃ vs', tombstoneValue id vs = (vs', Ok tt) ∧ store_rep vs' (delete id m) ∧
    ∀ t, 0 ≤ t ≤ 3 → fsize (tier_file vs' t) = fsize (tier_file vs t).
Proof.
  intros Hr Hm. pose proof (live_lookup vs m id v 1 Hr Hm) as (Ht & Hb & Hok & He & Hrec & Hrd).
  set (t := extractTier id) in *. set (o := extractOffset id) in *.
  assert (Ho : 0 ≤ o < 2 ^ 40) by apply extract_fields.
  unfold tombstoneValue. rewrite (sr_refs _ _ Hr), lookup_fmap, Hm. cbn [fmap option_fmap option_map snd].
  change (0 <? i64 (1 - 1)) with false. cbv iota. rewrite <- (sr_refs _ _ Hr).
  set (vs0 := set_maps (hashToValueID vs) (delete id (referenceCount vs)) vs).
  assert (Hread : ∃ vs1, readValue id vs0 = (vs1, Ok v) ∧ same_store vs0 vs1).
  { unfold readValue. rewrite Hb. fold t o. unfold mbind, op_bind, op_lift.
    destruct (readFromTier_same t o vs0 Ht) as (vs1 & -> & Hs).
    change (tier_file vs0 t) with (tier_file vs t). rewrite Hrd.
    exists vs1. split; [|done]. f_equal.
    rewrite <- (app_nil_r (serializeValue v)). by apply deserialize_serialize. }
  destruct Hread as (vs1 & -> & Hs1).
  set (vs2 := set_maps (delete (hashValue v) (hashToValueID vs1)) (referenceCount vs1) vs1).
  rewrite Hb. fold t o.
  assert (Hs2 : same_store (set_maps (delete (hashValue v) (hashToValueID vs))
    (delete id (referenceCount vs)) vs) vs2).
  { destruct Hs1 as [G1 G2 G3 G4 G5 G6]. split; [exact G1|exact G2|exact G3|exact G4|..].
    - unfold vs2. cbn [set_maps hashToValueID]. by rewrite G5.
    - unfold vs2. cbn [set_maps referenceCount]. by rewrite G6. }
  set (vs0' := set_maps _ _ vs) in Hs2.
  destruct (tombstoneTier_spec vs2 t o (serializeValue v) Ht Ho) as (vs3 & Hs3 & ->).
  { rewrite (same_tier_file _ _ t Hs2). exact Hrd. }
  eexists. split; [reflexivity|].
  rewrite (same_free_list _ _ t Hs2), (same_tier_file _ _ t Hs2).
  change (free_list vs0' t) with (free_list vs t). change (tier_file vs0' t) with (tier_file vs t).
  assert (Hs4 : same_store vs0' vs3) by by etrans.
  pose (vs4 := set_maps (hashToValueID vs) (referenceCount vs) vs3).
  assert (Hs5 : same_store vs vs4).
  { destruct Hs4 as [G1 G2 G3 G4 G5 G6]. split; [exact G1|exact G2|exact G3|exact G4|done|done]. }
  pose proof (store_rep_delete vs vs4 m id v Hr Hs5 Hm) as Hfin. cbv zeta in Hfin. fold t o in Hfin.
  split.
  2: { intros t' Ht'.
    rewrite tier_file_set_free_list, tier_file_set, (same_tier_file _ _ _ Hs4).
    change (tier_file vs0' t') with (tier_file vs t').
    destruct (tier_tombstone _ _ _ o _ SentinelTombstone (sr_tier _ _ Hr t Ht)
      ltac:(pose proof (sr_size _ _ Hr t Ht); lia) Hrec) as [_ Hsz].
    case_decide as Htt; [by rewrite Htt|done]. }
  eapply store_rep_same; [|exact Hfin].
  split; try reflexivity.
  - intros t' bk. unfold set_tier_file. by case_match.
  - unfold set_tier_file. by case_match.
  - unfold set_tier_file. by case_match.
  - unfold set_tier_file. by case_match.
  - transitivity (hashToValueID vs3); [|exact (ss_hash _ _ Hs4)].
    unfold set_tier_file. by case_match.
  - transitivity (referenceCount vs3); [|exact (ss_refs _ _ Hs4)].
    unfold set_tier_file. by case_match.
Qed.

Lemma tombstoneValue_shared vs m id v n : store_rep vs m → m !! id = Some (v, n) → 1 < n →
  ∃ vs', tombstoneValue id vs = (vs', Ok tt) ∧ store_rep vs' (<[id:=(v, n - 1)]> m).
Proof.
  intros Hr Hm Hn. pose proof (sr_live _ _ Hr id v n Hm) as (_ & _ & _ & _ & Hn0).
  unfold tombstoneValue. rewrite (sr_refs _ _ Hr), lookup_fmap, Hm. cbn [fmap option_fmap option_map snd].
  rewrite i64_small by (unfold is_i64, max_refs in *; lia).
  rewrite (proj2 (Z.ltb_lt _ _)) by lia. eexists. split; [done|].
  rewrite <- (sr_refs _ _ Hr). eapply store_rep_refs; [done..|lia].
Qed.

Lemma tombstoneValue_unknown vs m id : store_rep vs m → m !! id = None →
  tombstoneValue id vs = (vs, Err "value ID not found in reference count").
Proof.
  intros Hr Hm. unfold tombstoneValue. by rewrite (sr_refs _ _ Hr), lookup_fmap, Hm.
Qed.

Lemma FindValueIDForData_spec vs m data tag : store_rep vs m →
  collision_free m (mkValue tag data) →
  (∀ id n, m !! id = Some (mkValue tag data, n) → FindValueIDForData data tag vs = id) ∧
  ((∀ id n, m !! id ≠ Some (mkValue tag data, n)) → FindValueIDForData data tag vs = 0).
Proof.
  intros Hr Hcf. unfold FindValueIDForData. split.
  - intros id n Hm. by rewrite (proj2 (hash_hit vs m _ id Hr Hcf)) by eauto.
  - intros Hnew. destruct (hashToValueID vs !! _) as [id|] eqn:Hh; [|done].
    apply (hash_hit vs m _ id Hr Hcf) in Hh as [n Hm]. by destruct (Hnew id n).
Qed.

(** ** Opening a store *)

Lemma getBucketFile_err t bk vs : ¬ (0 ≤ t ≤ 2) → getBucketFile t bk vs = (vs, Err "invalid tier").
Proof. intros H. unfold getBucketFile. by rewrite bool_decide_false. Qed.

Lemma readFromTier_any t bk o vs : same_store vs (readFromTier t bk o vs).1.
Proof.
  destruct (decide (0 ≤ t ≤ 2)) as [Ht|Ht].
  - rewrite readFromTier_bucket by done. unfold readFromBucketTier, op_wrap.
    by destruct (getBucketFile_same t bk vs Ht) as (vs' & -> & Hs).
  - by assert (readFromTier t bk o vs = readFromTier3 o vs ∨
      readFromTier t bk o vs = (vs, Err "invalid tier")) as [-> | ->]
      by (unfold readFromTier; destruct t as [|[[]|[]|]|]; auto; lia).
Qed.

Lemma readValue_any id vs : same_store vs (readValue id vs).1.
Proof.
  unfold readValue, mbind, op_bind, op_lift.
  pose proof (readFromTier_any (extractTier id) (extractBucket id) (extractOffset id) vs) as H.
  destruct (readFromTier _ _ _ vs) as [vs' [d| |]]; done.
Qed.

(** The part of the state a scan cannot change. *)
Record same_files (vs vs' : ValueStore) : Prop := {
  sf_file : ∀ t bk, bucket_file vs' t bk = bucket_file vs t bk;
  sf_large : tier3File vs' = tier3File vs;
  sf_current : currentBucket vs' = currentBucket vs;
  sf_lists : freeLists vs' = freeLists vs }.

(** What is read depends on the files only. *)
Lemma readFromTier_files t bk o vs vs' : same_files vs vs' →
  (readFromTier t bk o vs').2 = (readFromTier t bk o vs).2.
Proof.
  intros [Hf Hl _ _]. destruct (decide (0 ≤ t ≤ 2)) as [Ht|Ht].
  - rewrite !readFromTier_bucket by done. unfold readFromBucketTier, op_wrap.
    destruct (getBucketFile_same t bk vs Ht) as (vs1 & -> & Hs1).
    destruct (getBucketFile_same t bk vs' Ht) as (vs2 & -> & Hs2).
    ress. by rewrite (ss_file _ _ Hs1), (ss_file _ _ Hs2), Hf.
  - unfold readFromTier. destruct t as [|[[]|[]|]|]; try done; try lia.
    unfold readFromTier3. cbn [snd]. by rewrite Hl.
Qed.

Lemma readValue_files id vs vs' : same_files vs vs' → (readValue id vs').2 = (readValue id vs).2.
Proof.
  intros Hf. unfold readValue, mbind, op_bind, op_lift.
  pose proof (readFromTier_files (extractTier id) (extractBucket id) (extractOffset id) vs vs' Hf) as H.
  destruct (readFromTier _ _ _ vs) as [vs1 r], (readFromTier _ _ _ vs') as [vs2 r'].
  cbn [snd] in H. subst r'. by destruct r.
Qed.

(** [id] reads as a value of hash [h]. *)
Definition reads_as (vs : ValueStore) (id : Z) (h : list byte) : Prop :=
  ∃ v, (readValue id vs).2 = Ok v ∧ hashValue v = h.

Lemma reads_as_files vs vs' id h : same_files vs vs' → reads_as vs' id h ↔ reads_as vs id h.
Proof. intros Hf. unfold reads_as. by rewrite (readValue_files id vs vs' Hf). Qed.

(** What the scan leaves in the maps: values at IDs it visited, with count 1. *)
Definition scanned_only (lo hi : Z) (vs : ValueStore) : Prop :=
  (∀ h id, hashToValueID vs !! h = Some id → lo ≤ id < hi ∧ reads_as vs id h) ∧
  (∀ id n, referenceCount vs !! id = Some n → n = 1 ∧ lo ≤ id < hi).

Lemma rebuild_ids_spec lo n : ∀ id vs, lo ≤ id → scanned_only lo id vs →
  same_files vs (rebuild_ids n id vs) ∧ scanned_only lo (id + Z.of_nat n) (rebuild_ids n id vs).
Proof.
  induction n as [|n IH]; intros id vs Hlo Hsc; cbn [rebuild_ids].
  { split; [done|]. by rewrite Z.add_0_r. }
  pose proof (readValue_any id vs) as Hs.
  destruct (readValue id vs) as [vs1 r] eqn:Hrd. cbn [fst] in Hs.
  set (vs2 := match r with Ok _ => _ | _ => _ end).
  assert (Hf2 : same_files vs vs2).
  { destruct Hs as [G1 G2 G3 G4 _ _]. unfold vs2. by destruct r. }
  destruct (IH (id + 1) vs2) as [Hf Hn]; [lia| |].
  - destruct Hsc as [Hh Hrc]. rewrite <- (ss_hash _ _ Hs) in Hh. rewrite <- (ss_refs _ _ Hs) in Hrc.
    assert (Hh' : ∀ h k, hashToValueID vs1 !! h = Some k → lo ≤ k < id + 1 ∧ reads_as vs2 k h).
    { intros h k [H1 H2]%Hh. split; [lia|]. by apply (reads_as_files vs). }
    assert (Hrc' : ∀ k c, referenceCount vs1 !! k = Some c → c = 1 ∧ lo ≤ k < id + 1).
    { intros k c H. apply Hrc in H. lia. }
    assert (Hnow : ∀ v, r = Ok v → reads_as vs2 id (hashValue v)).
    { intros v ->. apply (reads_as_files vs); [done|]. exists v. by rewrite Hrd. }
    destruct r as [v| |]; [|by split..]. split.
    + intros h k. cbn [vs2 set_maps hashToValueID]. rewrite lookup_insert_Some.
      intros [[<- <-]|[_ H]]; [|by apply Hh']. split; [lia|by apply Hnow].
    + intros k c. cbn [vs2 set_maps referenceCount]. rewrite lookup_insert_Some.
      intros [[<- <-]|[_ H]]; [lia|by apply Hrc'].
  - replace (id + Z.of_nat (S n)) with (id + 1 + Z.of_nat n) by lia. split; [|done].
    destruct Hf as [F1 F2 F3 F4], Hf2 as [G1 G2 G3 G4]. split; [|congruence..].
    intros t bk. by rewrite F1.
Qed.

Lemma NewValueStore_spec dir large :
  let vs := NewValueStore dir large in
  (∀ t bk, bucket_file vs t bk = default [] (dir !! (t, bk))) ∧ tier3File vs = large ∧
  currentBucket vs = [0; 0; 0; 0] ∧ freeLists vs = replicate 4 FreeList.NewFreeList ∧
  scanned_only 1 (1 + Z.max 1000 (fsize large / 100)) vs.
Proof.
  intros vs. unfold vs, NewValueStore, rebuildHashMap. set (vs0 := mkValueStore _ _ _ _ _ _ _).
  destruct (rebuild_ids_spec 1 (Z.to_nat (determineMaxValueID vs0)) 1 vs0) as [[H1 H2 H3 H4] [H5 H6]].
  - done.
  - split; [intros h id H|intros id n H]; unfold vs0 in H; cbn [hashToValueID referenceCount] in H;
      by apply lookup_empty_Some in H.
  - split_and!; [done..|]. pose proof (len_nonneg large).
    assert (Hb : Z.of_nat (Z.to_nat (determineMaxValueID vs0)) ≤ Z.max 1000 (fsize large / 100)).
    { unfold determineMaxValueID, vs0, fsize. cbn [tier3File].
      destruct (0 <? len large); [|cbn; lia].
      pose proof (Z.div_pos (len large) 100). case_match; lia. }
    split.
    + intros h id [H7 H8]%H5. split; [lia|done].
    + intros id n H0. apply H6 in H0. lia.
Qed.

Definition fresh : ValueStore := NewValueStore ∅ [].

Lemma fresh_rep : store_rep fresh ∅.
Proof.
  assert (E : fresh = {| files := {[(0, 0) := []]}; handles := {[(0, 0)]}; tier3File := [];
    currentBucket := [0; 0; 0; 0]; freeLists := replicate 4 FreeList.NewFreeList;
    hashToValueID := ∅; referenceCount := ∅ |}) by (vm_compute; reflexivity).
  rewrite E. split; cbn [currentBucket freeLists referenceCount hashToValueID].
  - done.
  - done.
  - intros t Ht. assert (free_list (mkValueStore {[(0, 0) := []]} {[(0, 0)]} [] [0; 0; 0; 0]
      (replicate 4 FreeList.NewFreeList) ∅ ∅) t = FreeList.NewFreeList) as ->.
    { unfold free_list. cbn [freeLists].
      by assert (t = 0 ∨ t = 1 ∨ t = 2 ∨ t = 3) as [->|[->|[->| ->]]] by lia. }
    eapply tier_ok_ext; [|apply tier_empty]. intros o. unfold rec_at.
    case_decide; [by rewrite lookup_empty|done].
  - intros t Ht. by assert (t = 0 ∨ t = 1 ∨ t = 2 ∨ t = 3) as [->|[->|[->| ->]]] by lia.
  - intros H. inversion H.
  - intros id v n. by rewrite lookup_empty.
  - by rewrite fmap_empty.
  - intros h id. rewrite lookup_empty. split; [done|]. intros (? & ? & H & _).
    by rewrite lookup_empty in H.
  - intros id v n. by rewrite lookup_empty.
Qed.

(** *** A reopened store over the files of a represented one *)

Definition reopened (vs : ValueStore) : ValueStore := NewValueStore (files vs) (tier3File vs).

Lemma reopened_file vs t : tier_file (reopened vs) t = tier_file vs t.
Proof.
  destruct (NewValueStore_spec (files vs) (tier3File vs)) as (Hf & Hl & _).
  unfold tier_file, reopened. by rewrite Hl, Hf.
Qed.

Lemma reopened_tier vs m t : store_rep vs m → 0 ≤ t ≤ 3 →
  tier_ok (tier_file (reopened vs) t) (free_list (reopened vs) t) (rec_at m t) ∧
  ∀ x, ¬ FreeList.free (free_list (reopened vs) t) x.
Proof.
  intros Hr Ht. rewrite reopened_file.
  destruct (NewValueStore_spec (files vs) (tier3File vs)) as (_ & _ & _ & Hfl & _).
  assert (free_list (reopened vs) t = FreeList.NewFreeList) as ->.
  { unfold free_list, reopened. rewrite Hfl.
    by assert (t = 0 ∨ t = 1 ∨ t = 2 ∨ t = 3) as [->|[->|[->| ->]]] by lia. }
  assert (Hno : ∀ x, ¬ FreeList.free FreeList.NewFreeList x) by (intros x Hx; inversion Hx).
  split; [|done]. destruct (sr_tier _ _ Hr t Ht) as [H1 H2 H3 H4 H5].
  split; [split; constructor|..]; try done. intros x Hx. by apply Hno in Hx.
Qed.

Lemma reopened_read vs m id v n : store_rep vs m → m !! id = Some (v, n) →
  (readValue id (reopened vs)).2 = Ok v.
Proof.
  intros Hr Hm. destruct (live_lookup vs m id v n Hr Hm) as (Ht & Hb & Hok & He & _ & Hrd).
  unfold readValue. rewrite Hb. unfold mbind, op_bind, op_lift.
  destruct (readFromTier_same _ (extractOffset id) (reopened vs) Ht) as (vs2 & -> & _).
  rewrite reopened_file, Hrd. cbn [snd]. rewrite <- (app_nil_r (serializeValue v)).
  by apply deserialize_serialize.
Qed.

(** The rebuilt hash map has only IDs of tier 0, and a live one only under the
    hash of its value. *)
Lemma reopened_hash vs m h id : store_rep vs m → hashToValueID (reopened vs) !! h = Some id →
  1 ≤ id ≤ Z.max 1000 (fsize (tier3File vs) / 100) ∧ extractTier id = 0 ∧
  ∀ v n, m !! id = Some (v, n) → hashValue v = h.
Proof.
  intros Hr Hid.
  destruct (NewValueStore_spec (files vs) (tier3File vs)) as (_ & _ & _ & _ & [Hh _]).
  destruct (Hh h id Hid) as [Hrg (w & Hw & Hhw)].
  assert (Hsz : fsize (tier3File vs) ≤ 2 ^ 40) by (apply (sr_size _ _ Hr 3); lia).
  split_and!; [lia|lia| |].
  - rewrite extractTier_div, Z.div_small; [done|].
    assert (fsize (tier3File vs) / 100 ≤ 2 ^ 40 / 100) by (apply Z.div_le_mono; lia).
    change (2 ^ 40 / 100) with 10995116277 in *. lia.
  - intros v n Hm. pose proof (reopened_read vs m id v n Hr Hm) as Hv. unfold reopened in Hv.
    rewrite Hw in Hv. injection Hv as ->. done.
Qed.

(** A value the reopened store does not know gets an ID that was not live. *)
Lemma reopened_write_new vs m v : store_rep vs m →
  hashToValueID (reopened vs) !! hashValue v = None →
  room vs (value_tier v) (len (serializeValue v)) →
  ∃ vs2 id, writeValue v (reopened vs) = (vs2, Ok id) ∧ m !! id = None ∧ id ≠ 0.
Proof.
  intros Hr Hh Hroom. unfold writeValue. rewrite Hh. fold (value_tier v).
  pose proof (determineTier_range (len (serializeValue v))) as Ht. fold (value_tier v) in Ht.
  destruct (reopened_tier vs m _ Hr Ht) as [Htok Hno].
  destruct (writeToTier_spec (reopened vs) (value_tier v) (rec_at m (value_tier v)) (serializeValue v))
    as (vs1 & o & f' & fl' & Hs & -> & Hw).
  - by destruct (NewValueStore_spec (files vs) (tier3File vs)) as (_ & _ & ? & _).
  - done.
  - done.
  - apply len_serializeValue_pos.
  - unfold room. by rewrite reopened_file.
  - intros _. by apply (reopened_tier vs m 0 Hr).
  - eexists _, _. split; [done|]. destruct Hw as [_ Hnew Ho Hid _ _ _]. split; [|done].
    unfold rec_at in Hnew. rewrite decide_True in Hnew by done.
    by destruct (m !! encodeValueID (value_tier v) 0 o).
Qed.

(** ** Sequences of writes and releases *)

Inductive vop := OWrite (v : Value) | ORelease (id : Z).

Definition run_op (o : vop) : Op ValueStore Z :=
  match o with
  | OWrite v => WriteValue v
  | ORelease id => _ ← TombstoneValue id; mret 0
  end.

Fixpoint run (ops : list vop) (vs : ValueStore) : ValueStore * list (res Z) :=
  match ops with
  | [] => (vs, [])
  | o :: ops => let '(vs, r) := run_op o vs in let '(vs, rs) := run ops vs in (vs, r :: rs)
  end.

(** The promise: a value is stored once, under an ID that is never 0 and was
    not in use, with the number of its writes less its releases. *)
Inductive spec_op (m : values) : vop → res Z → values → Prop :=
  | spec_write_again v id n :
      m !! id = Some (v, n) → spec_op m (OWrite v) (Ok id) (<[id:=(v, n + 1)]> m)
  | spec_write_new v id :
      (∀ id' n, m !! id' ≠ Some (v, n)) → m !! id = None → id ≠ 0 →
      spec_op m (OWrite v) (Ok id) (<[id:=(v, 1)]> m)
  | spec_release_shared id v n :
      m !! id = Some (v, n) → 1 < n → spec_op m (ORelease id) (Ok 0) (<[id:=(v, n - 1)]> m)
  | spec_release_last id v :
      m !! id = Some (v, 1) → spec_op m (ORelease id) (Ok 0) (delete id m)
  | spec_release_unknown id :
      m !! id = None →
      spec_op m (ORelease id) (Err "value ID not found in reference count") m.

Inductive spec_run : values → list vop → list (res Z) → values → Prop :=
  | spec_run_nil m : spec_run m [] [] m
  | spec_run_cons m o r m1 ops rs m2 :
      spec_op m o r m1 → spec_run m1 ops rs m2 → spec_run m (o :: ops) (r :: rs) m2.

(** Bytes a sequence can add to a file (and more than it can add to a count). *)
Definition op_cost (o : vop) : Z :=
  match o with OWrite v => 1 + len (serializeValue v) | ORelease _ => 0 end.
Definition cost (ops : list vop) : Z := foldr (λ o c, op_cost o + c) 0 ops.

Definition capacity (vs : ValueStore) (m : values) (k : Z) : Prop :=
  (∀ t, 0 ≤ t ≤ 3 → fsize (tier_file vs t) + k ≤ 2 ^ 40) ∧
  (∀ id v n, m !! id = Some (v, n) → n + k ≤ max_refs).

Lemma holder_dec (m : values) v :
  (∃ id n, m !! id = Some (v, n)) ∨ (∀ id n, m !! id ≠ Some (v, n)).
Proof.
  destruct (decide (map_Exists (λ _ vn, vn.1 = v) m)) as [(id & [w n] & Hm & Hw)|Hn].
  - left. exists id, n. cbn in Hw. by subst.
  - right. intros id n Hm. apply Hn. by exists id, (v, n).
Qed.

Section Sequences.
(** The values in play, with no collision of their hashes. *)
Context (P : Value → Prop) (P_inj : ∀ v w, P v → P w → hashValue v = hashValue w → v = w).

Definition in_play (m : values) : Prop := ∀ id v n, m !! id = Some (v, n) → P v.
Definition op_in_play (o : vop) : Prop :=
  match o with OWrite v => P v ∧ value_ok v | ORelease _ => True end.

Lemma in_play_collision_free m v : in_play m → P v → collision_free m v.
Proof. intros Hm Hv id w n H. apply P_inj; [by eapply Hm|done]. Qed.

Lemma write_simulates vs m v k : store_rep vs m → in_play m → P v → value_ok v →
  capacity vs m (op_cost (OWrite v) + k) → 0 ≤ k →
  ∃ vs' r m', run_op (OWrite v) vs = (vs', r) ∧ spec_op m (OWrite v) r m' ∧
    store_rep vs' m' ∧ in_play m' ∧ capacity vs' m' k.
Proof.
  intros Hr Hm HP Hv [Hc1 Hc2] Hk. cbn [op_cost] in *.
  pose proof (in_play_collision_free m v Hm HP) as Hcf.
  pose proof (len_serializeValue_pos v) as Hpos.
  destruct (holder_dec m v) as [(id & n & Hid)|Hnew].
  - pose proof (Hc2 id v n Hid).
    destruct (writeValue_dedup vs m v id n Hr Hcf Hid) as (vs' & Hw & Hr'); [lia|].
    pose proof (sr_live _ _ Hr id v n Hid) as (_ & _ & _ & _ & Hn).
    eexists vs', _, _. split_and!; [exact Hw|by econstructor|done|..].
    + intros id1 w c [[_ [= <- _]]|[_ H1]]%lookup_insert_Some; [done|by eapply Hm].
    + assert (E : vs' = (writeValue v vs).1) by by rewrite Hw. split.
      * intros t Ht. rewrite E. unfold writeValue.
        rewrite (proj2 (hash_hit vs m v id Hr Hcf)) by eauto. cbn [fst].
        pose proof (Hc1 t Ht).
        change (tier_file (set_maps ?h ?rc vs) t) with (tier_file vs t). lia.
      * intros id1 w c [[_ [= _ <-]]|[_ H1]]%lookup_insert_Some; [lia|].
        pose proof (Hc2 id1 w c H1). lia.
  - pose proof (determineTier_range (len (serializeValue v))) as Ht0.
    destruct (writeValue_new vs m v Hr Hv Hcf Hnew) as (vs' & id & Hw & Hid & Hne & _ & Hr' & Hsz).
    { unfold room. pose proof (Hc1 (value_tier v) Ht0). lia. }
    eexists vs', _, _. split_and!; [exact Hw|by constructor|done|..].
    + intros id1 w c [[_ [= <- _]]|[_ H1]]%lookup_insert_Some; [done|by eapply Hm].
    + split.
      * intros t Ht. pose proof (Hc1 t Ht). pose proof (Hsz t). lia.
      * intros id1 w c [[_ [= _ <-]]|[_ H1]]%lookup_insert_Some.
        -- pose proof (Hc1 0 ltac:(lia)). pose proof (len_nonneg (tier_file vs 0)).
           unfold max_refs, fsize in *. lia.
        -- pose proof (Hc2 id1 w c H1). lia.
Qed.

Lemma release_simulates vs m id k : store_rep vs m → in_play m → capacity vs m k → 0 ≤ k →
  ∃ vs' r m', run_op (ORelease id) vs = (vs', r) ∧ spec_op m (ORelease id) r m' ∧
    store_rep vs' m' ∧ in_play m' ∧ capacity vs' m' k.
Proof.
  intros Hr Hm [Hc1 Hc2] Hk. cbn [run_op].
  unfold TombstoneValue, mbind, op_bind, mret, op_ret.
  destruct (m !! id) as [[v n]|] eqn:Hid.
  - pose proof (sr_live _ _ Hr id v n Hid) as (_ & _ & _ & _ & Hn).
    destruct (decide (n = 1)) as [->|Hn1].
    + destruct (tombstoneValue_last vs m id v Hr Hid) as (vs' & -> & Hr' & Hsz).
      eexists vs', _, _. split_and!; [done|by econstructor|done|..].
      * intros id1 w c [_ H1]%lookup_delete_Some. by eapply Hm.
      * split; [intros t Ht; rewrite Hsz by done; by apply Hc1|].
        intros id1 w c [_ H1]%lookup_delete_Some. by eapply Hc2.
    + destruct (tombstoneValue_shared vs m id v n Hr Hid) as (vs' & Hw & Hr'); [lia|].
      rewrite Hw. eexists vs', _, _. split_and!; [done|econstructor; [done|lia]|done|..].
      * intros id1 w c [[_ [= <- _]]|[_ H1]]%lookup_insert_Some; by eapply Hm.
      * split.
        -- intros t Ht. assert (E : vs' = (tombstoneValue id vs).1) by by rewrite Hw.
           rewrite E. unfold tombstoneValue. rewrite (sr_refs _ _ Hr), lookup_fmap, Hid.
           cbn [fmap option_fmap option_map snd].
           rewrite i64_small by (unfold is_i64, max_refs in *; lia).
           rewrite (proj2 (Z.ltb_lt _ _)) by lia. by apply Hc1.
        -- intros id1 w c [[_ [= _ <-]]|[_ H1]]%lookup_insert_Some.
           ++ pose proof (Hc2 id v n Hid). lia.
           ++ by eapply Hc2.
  - rewrite (tombstoneValue_unknown vs m id Hr Hid). eexists vs, _, _.
    split_and!; [done|by constructor|done..].
Qed.

Lemma cost_nonneg ops : 0 ≤ cost ops.
Proof.
  induction ops as [|o ops IH]; [done|]. change (0 ≤ op_cost o + cost ops).
  destruct o as [v|id]; cbn [op_cost]; [|lia].
  pose proof (len_nonneg (serializeValue v)). lia.
Qed.

Lemma run_simulates ops : ∀ vs m, store_rep vs m → in_play m → Forall op_in_play ops →
  capacity vs m (cost ops) →
  ∃ vs' rs m', run ops vs = (vs', rs) ∧ spec_run m ops rs m' ∧ store_rep vs' m'.
Proof.
  induction ops as [|o ops IH]; intros vs m Hr Hm Hops Hc.
  { exists vs, [], m. split_and!; [done|constructor|done]. }
  apply Forall_cons in Hops as [Ho Hops]. pose proof (cost_nonneg ops) as Hk.
  assert (Hstep : ∃ vs' r m', run_op o vs = (vs', r) ∧ spec_op m o r m' ∧
    store_rep vs' m' ∧ in_play m' ∧ capacity vs' m' (cost ops)).
  { destruct o as [v|id]; [destruct Ho; by apply write_simulates|].
    change (capacity vs m (0 + cost ops)) in Hc. rewrite Z.add_0_l in Hc.
    by apply release_simulates. }
  destruct Hstep as (vs1 & r & m1 & Hrun & Hspec & Hr1 & Hm1 & Hc1).
  destruct (IH vs1 m1 Hr1 Hm1 Hops Hc1) as (vs2 & rs & m2 & Hrun2 & Hspec2 & Hr2).
  exists vs2, (r :: rs), m2. cbn [run]. rewrite Hrun, Hrun2.
  split_and!; [done|by econstructor|done].
Qed.
End Sequences.

(** ** Properties *)

(** C2: the store implements a reference-counted, deduplicating map.  Any
    sequence of writes and releases on a store whose files have room runs
    without error as the map allows ([spec_op]): a value is kept once, under a
    non-zero ID no other live value has, counted up by each write and down by
    each release, and gone with the last one; afterwards every live value
    reads back by its ID and is found by its content, whatever was released,
    overwritten or reused in between.  The only assumption is that the values
    in play ([P]) have distinct hashes. *)
Theorem store_implements_refcounted_map (P : Value → Prop) ops vs m :
  (∀ v w, P v → P w → hashValue v = hashValue w → v = w) →
  store_rep vs m → in_play P m → Forall (op_in_play P) ops → capacity vs m (cost ops) →
  ∃ vs' rs m', run ops vs = (vs', rs) ∧ spec_run m ops rs m' ∧ store_rep vs' m' ∧
    ∀ id v n, m' !! id = Some (v, n) → (ReadValue id vs').2 = Ok v ∧ id ≠ 0.
Proof.
  intros Hinj Hr Hm Hops Hc.
  destruct (run_simulates P Hinj ops vs m Hr Hm Hops Hc) as (vs' & rs & m' & Hrun & Hspec & Hr').
  exists vs', rs, m'. split_and!; [done..|]. intros id v n Hid. split.
  - destruct (readValue_spec vs' m' id v n Hr' Hid) as (vs2 & Hrd & _). unfold ReadValue. by rewrite Hrd.
  - by destruct (sr_live _ _ Hr' id v n Hid) as (_ & ? & _).
Qed.

(** Distinct hashes of finitely many values, by computation. *)
Lemma distinct_hashes_inj (l : list Value) : NoDup (hashValue <$> l) →
  ∀ v w, v ∈ l → w ∈ l → hashValue v = hashValue w → v = w.
Proof.
  intros Hnd v w (i & Hi)%list_elem_of_lookup (j & Hj)%list_elem_of_lookup Heq.
  assert (i = j) as ->; [|congruence].
  eapply (NoDup_lookup (hashValue <$> l)); [done|by rewrite list_lookup_fmap, Hi|].
  by rewrite list_lookup_fmap, Hj, Heq.
Qed.

Definition text_hi : Value := mkValue TypeText (b "hi").
Definition text_ho : Value := mkValue TypeText (b "ho").

Lemma store_implements_refcounted_map_witness :
  ∃ vs' rs m', run [OWrite text_hi; OWrite text_ho; OWrite text_hi; ORelease 1] fresh = (vs', rs) ∧
    spec_run ∅ [OWrite text_hi; OWrite text_ho; OWrite text_hi; ORelease 1] rs m' ∧
    (∀ id v n, m' !! id = Some (v, n) → (ReadValue id vs').2 = Ok v ∧ id ≠ 0) ∧
    rs = [Ok 1; Ok 9; Ok 1; Ok 0].
Proof.
  destruct (store_implements_refcounted_map (λ v, v ∈ [text_hi; text_ho])
    [OWrite text_hi; OWrite text_ho; OWrite text_hi; ORelease 1] fresh ∅)
    as (vs' & rs & m' & H1 & H2 & _ & H4).
  - apply distinct_hashes_inj. refine (bool_decide_unpack _ _). vm_compute. exact Logic.I.
  - exact fresh_rep.
  - intros id v n H. rewrite lookup_empty in H. discriminate.
  - repeat constructor; by vm_compute.
  - split.
    + intros t Ht. assert (t = 0 ∨ t = 1 ∨ t = 2 ∨ t = 3) as [->|[->|[->| ->]]] by lia;
        by vm_compute.
    + intros id v n H. rewrite lookup_empty in H. discriminate.
  - exists vs', rs, m'. split; [exact H1|]. split; [exact H2|]. split; [exact H4|].
    assert (E : rs = (run [OWrite text_hi; OWrite text_ho; OWrite text_hi; ORelease 1] fresh).2)
      by (rewrite H1; reflexivity).
    rewrite E. vm_compute. reflexivity.
Defined.

(** Content lookup.  [FindValueIDForData] gives the ID of the live value
    with that tag and data, and 0 exactly when there is none. *)
Theorem find_by_content vs m data tag id :
  store_rep vs m → collision_free m (mkValue tag data) → id ≠ 0 →
  FindValueIDForData data tag vs = id ↔ ∃ n, m !! id = Some (mkValue tag data, n).
Proof.
  intros Hr Hcf Hne. destruct (FindValueIDForData_spec vs m data tag Hr Hcf) as [H1 H2]. split.
  - intros Hf. destruct (holder_dec m (mkValue tag data)) as [(id' & n & Hm)|Hn].
    + exists n. by rewrite <- Hf, (H1 id' n Hm).
    + by rewrite H2 in Hf.
  - intros [n Hm]. by apply (H1 id n).
Qed.

Lemma find_by_content_witness :
  FindValueIDForData (b "hi") TypeText fresh ≠ 5.
Proof.
  intros H. apply (find_by_content fresh ∅ (b "hi") TypeText 5) in H.
  - destruct H as [n H]. rewrite lookup_empty in H. discriminate.
  - exact fresh_rep.
  - intros id w n Hm. rewrite lookup_empty in Hm. discriminate Hm.
  - lia.
Defined.

(** C8: what a restart keeps.  Reopening a store over its own files, every
    live value still reads back by its ID; but the rebuilt hash map holds only
    IDs of the scanned range (1000, or one per 100 bytes of the large file), so
    no value of a tier above 0 is found by content any more and each will be
    written a second time; and every count found is reset to 1, so one release
    can drop a value with several references. *)
Theorem reopen_keeps_reads_forgets_hashes vs m id v n :
  store_rep vs m → m !! id = Some (v, n) →
  let vs' := NewValueStore (files vs) (tier3File vs) in
  (ReadValue id vs').2 = Ok v ∧
  (extractTier id ≠ 0 → ∀ data tag, FindValueIDForData data tag vs' ≠ id) ∧
  (Z.max 1000 (fsize (tier3File vs) / 100) < id → referenceCount vs' !! id = None) ∧
  (∀ k, referenceCount vs' !! id = Some k → k = 1).
Proof.
  intros Hr Hm vs'. split_and!.
  - by apply (reopened_read vs m id v n).
  - intros Hne data tag Hfind. unfold FindValueIDForData in Hfind.
    destruct (hashToValueID vs' !! _) as [id'|] eqn:Hl'; cbn in Hfind; subst; [|by apply Hne].
    by destruct (reopened_hash vs m _ _ Hr Hl') as (_ & ? & _).
  - destruct (NewValueStore_spec (files vs) (tier3File vs)) as (_ & _ & _ & _ & [_ Hrc]).
    intros Hid. destruct (referenceCount vs' !! id) as [k|] eqn:Hk; [|done].
    apply Hrc in Hk. lia.
  - destruct (NewValueStore_spec (files vs) (tier3File vs)) as (_ & _ & _ & _ & [_ Hrc]).
    intros k Hk. exact (proj1 (Hrc id k Hk)).
Qed.

Definition long_text : Value := mkValue TypeText (replicate 70 Byte.x61).

Lemma reopen_keeps_reads_forgets_hashes_witness :
  ∃ vs id, WriteValue long_text fresh = (vs, Ok id) ∧
    let vs' := NewValueStore (files vs) (tier3File vs) in
    (ReadValue id vs').2 = Ok long_text ∧
    FindValueIDForData (Data long_text) TypeText vs' ≠ id.
Proof.
  destruct (writeValue_new fresh ∅ long_text) as (vs & id & Hw & _ & _ & Ht & Hr & _).
  - exact fresh_rep.
  - by vm_compute.
  - intros id w n Hm. rewrite lookup_empty in Hm. discriminate Hm.
  - intros id n Hm. rewrite lookup_empty in Hm. discriminate Hm.
  - by vm_compute.
  - exists vs, id. split; [exact Hw|].
    destruct (reopen_keeps_reads_forgets_hashes vs _ id long_text 1 Hr (lookup_insert_eq _ _ _))
      as (H1 & H2 & _).
    split; [exact H1|]. apply H2. rewrite Ht. vm_compute. discriminate.
Defined.
