(* ===== verification/StorageTree.v ===== *)
(** * The storage tree (internal/storage/tree.go)

    Paths to temporal values, over the value, instance and attribute stores and
    an index with the [LabelIndex] interface.  A path is stored as one
    dot-joined label.  [tree_rep] relates a tree to the history of each label
    ([history]); reads and writes refine it. *)
From stdpp Require Import pretty.
From S2P Require Import Prelude GoFile RecordFile InstanceStore AttributeStore HashIndex.
From S2P Require Import ValueCodec FreeList TierSpace ValueStore.

Abbreviation path := (list (list byte)).

Definition dot : byte := Byte.x2e.

(** [strings.Join(path, ".")], also written as a loop. *)
Definition join_path (p : path) : list byte :=
  match p with
  | [] => []
  | c :: cs => fold_left (λ acc component, acc ++ [dot] ++ component) cs c
  end.

Fixpoint has_prefix (s prefix : list byte) : bool :=
  match prefix, s with
  | [], _ => true
  | x :: prefix, y :: s => bool_decide (x = y) && has_prefix s prefix
  | _ :: _, [] => false
  end.

(** [remainder[:strings.Index(remainder, ".")]], all of it when there is no dot. *)
Fixpoint before_dot (s : list byte) : list byte :=
  match s with
  | [] => []
  | x :: s => if bool_decide (x = dot) then [] else x :: before_dot s
  end.

Definition text (s : list byte) : Value := {| TypeTag := TypeText; Data := s |}.

(** [%d] of a signed or unsigned integer. *)
Definition dec (z : Z) : list byte := b (pretty z).

Record NamedAttribute := mkNamed { na_attr : Attribute; na_name : list byte }.

Record StorageTree (I : Type) := mkTree {
  valueStore : ValueStore;
  instanceStore : InstanceStore;
  attributeStore : AttributeStore;
  hashIndex : I
}.
Arguments mkTree {I} _ _ _ _.
Arguments valueStore {I} _.
Arguments instanceStore {I} _.
Arguments attributeStore {I} _.
Arguments hashIndex {I} _.

Section Tree.
Context {I : Type} `{LabelIndex I}.

Definition on_values {A} : Op ValueStore A → Op (StorageTree I) A :=
  op_zoom valueStore (λ vs st, mkTree vs (instanceStore st) (attributeStore st) (hashIndex st)).
Definition on_instances {A} : Op InstanceStore A → Op (StorageTree I) A :=
  op_zoom instanceStore (λ ins st, mkTree (valueStore st) ins (attributeStore st) (hashIndex st)).
Definition on_attributes {A} : Op AttributeStore A → Op (StorageTree I) A :=
  op_zoom attributeStore (λ ats st, mkTree (valueStore st) (instanceStore st) ats (hashIndex st)).
Definition insert_index (label id : Z) : Op (StorageTree I) unit :=
  op_modify (λ st, mkTree (valueStore st) (instanceStore st) (attributeStore st)
                     (li_insert label id (hashIndex st))).
Definition from_state {A} (f : StorageTree I → res A) : Op (StorageTree I) A := λ st, (st, f st).

Definition findValueIDForString (str : list byte) : Op (StorageTree I) Z := λ st,
  let valueID := FindValueIDForData str TypeText (valueStore st) in
  if negb (valueID =? 0) then (st, Ok valueID)
  else op_wrap "failed to find/create value ID for string" (on_values (WriteValue (text str))) st.

(** The error of [findValueIDForString] is swallowed: not found. *)
Definition findAttributeForPath (p : path) : Op (StorageTree I) Z :=
  match p with
  | [] => mret 0
  | _ =>
      r ← op_try (findValueIDForString (join_path p));
      match r with
      | Ok compositeValueID =>
          if compositeValueID =? 0 then mret 0
          else from_state (λ st, Ok (default 0 (li_lookup (hashIndex st) compositeValueID)))
      | _ => mret 0
      end
  end.

Definition findOrCreateAttributeForPath (p : path) : Op (StorageTree I) Z :=
  match p with
  | [] => op_err "empty path"
  | _ =>
      pathValueID ← op_wrap "failed to write path value" (on_values (WriteValue (text (join_path p))));
      st ← op_get;
      match li_lookup (hashIndex st) pathValueID with
      | Some attributeID => mret attributeID
      | None =>
          attributeID ← op_wrap "failed to write attribute"
            (on_attributes (WriteAttribute pathValueID 0 0));
          _ ← insert_index pathValueID attributeID;
          mret attributeID
      end
  end.

(** The attribute of a path, as [Read], [ReadAt] and [Purge] look it up. *)
Definition attribute_of (p : path) : Op (StorageTree I) Attribute :=
  match p with
  | [] => op_err "empty path"
  | _ =>
      attributeID ← op_wrap "failed to find attribute for path" (findAttributeForPath p);
      if attributeID =? 0 then op_err "path not found" else
      from_state (λ st, wrap_res "failed to read attribute"
                          (ReadAttribute (attributeStore st) attributeID))
  end.

Definition instance_value (instanceID : Z) : Op (StorageTree I) Value :=
  instance ← from_state (λ st, wrap_res "failed to read instance"
                                 (ReadInstance (instanceStore st) instanceID));
  op_wrap "failed to read value" (on_values (ReadValue (ValueID instance))).

Definition Read (p : path) : Op (StorageTree I) Value :=
  attribute ← attribute_of p;
  if FirstInstanceID attribute =? 0 then op_err "no instances for path"
  else instance_value (FirstInstanceID attribute).

Definition WriteReportingChange (now : Z) (p : path) (value : Value) (author : Z) :
  Op (StorageTree I) bool :=
  match p with
  | [] => op_err "empty path"
  | _ =>
      valueID ← op_wrap "failed to write value" (on_values (WriteValue value));
      attributeID ← op_wrap "failed to find or create attribute for path"
        (findOrCreateAttributeForPath p);
      attribute ← from_state (λ st, wrap_res "failed to read attribute"
                                      (ReadAttribute (attributeStore st) attributeID));
      same ← (if FirstInstanceID attribute =? 0 then mret false else
        from_state (λ st,
          (λ i, ValueID i =? valueID) <$>
            wrap_res "failed to read current instance"
              (ReadInstance (instanceStore st) (FirstInstanceID attribute))));
      if (same : bool) then mret false else
      instanceID ← op_wrap "failed to write instance"
        (on_instances (WriteInstance now valueID (FirstInstanceID attribute) author));
      _ ← op_wrap "failed to update attribute first instance"
        (on_attributes (UpdateAttributeFirstInstance attributeID instanceID));
      mret true
  end.

Definition Write (now : Z) (p : path) (value : Value) (author : Z) : Op (StorageTree I) unit :=
  _ ← WriteReportingChange now p value author; mret tt.

(** [fuel] bounds the walk of the instance chain; [None]: still walking. *)
Definition ReadAt (fuel : nat) (p : path) (timestamp : Z) (st : StorageTree I) :
  option (StorageTree I * res Value) :=
  match attribute_of p st with
  | (st, Ok attribute) =>
      if FirstInstanceID attribute =? 0 then Some (st, Err "no instances for path") else
      match FindInstanceAtTime fuel (instanceStore st) (FirstInstanceID attribute) timestamp with
      | None => None
      | Some r =>
          Some (
            (instanceID ← op_wrap "failed to find instance at time" (op_lift r);
             if instanceID =? 0 then op_err "no instance found at timestamp for path"
             else instance_value instanceID) st)
      end
  | (st, Err e) => Some (st, Err e)
  | (st, Panic e) => Some (st, Panic e)
  end.

(** The audit record's clock reading [time.Now().Unix()] is [now_unix]. *)
Definition audit_path (p : path) (now_unix : Z) : path :=
  p ++ [b "_audit"; b "purge_" ++ dec now_unix].

Definition audit_value (purgedCount from to author : Z) : Value :=
  text (b "Purged " ++ dec purgedCount ++ b " instances from " ++ dec from ++ b " to " ++
        dec to ++ b " by author " ++ dec author).

Definition Purge (fuel : nat) (now now_unix : Z) (p : path) (from to author : Z)
  (st : StorageTree I) : option (StorageTree I * res unit) :=
  match attribute_of p st with
  | (st, Ok attribute) =>
      if FirstInstanceID attribute =? 0 then Some (st, Ok tt) else
      match PurgeInstancesInTimeRange fuel (FirstInstanceID attribute) from to author 0
              (instanceStore st) with
      | None => None
      | Some (ins, r) =>
          let st := mkTree (valueStore st) ins (attributeStore st) (hashIndex st) in
          Some (
            (purgedCount ← op_wrap "failed to purge instances" (op_lift r);
             op_wrap "failed to create audit record"
               (Write now (audit_path p now_unix) (audit_value purgedCount from to author) author)) st)
      end
  | (st, Err e) => Some (st, Err e)
  | (st, Panic e) => Some (st, Panic e)
  end.

(** The loops over attribute IDs skip those that fail to read. *)
Definition attribute_ids (st : StorageTree I) : list Z :=
  seqZ 1 (GetAttributeCount (attributeStore st)).

Definition getRootAttributes (st : StorageTree I) : list Attribute :=
  omap (λ id, match ReadAttribute (attributeStore st) id with Ok a => Some a | _ => None end)
    (attribute_ids st).

(** One iteration of the search for children: the names seen so far and the
    children found are its state. *)
Definition child_step (childPrefix : list byte) (id : Z)
  (acc : StorageTree I * (list (list byte) * list NamedAttribute)) :
  StorageTree I * (list (list byte) * list NamedAttribute) :=
  let '(st, (seen, children)) := acc in
  match ReadAttribute (attributeStore st) id with
  | Ok attribute =>
      let '(st, pv) := on_values (ReadValue (AttributeStore.LabelValueID attribute)) st in
      match pv with
      | Ok pathValue =>
          let pathStr := Data pathValue in
          if has_prefix pathStr childPrefix then
            let childName := before_dot (drop (length childPrefix) pathStr) in
            if bool_decide (childName ∈ seen) then (st, (seen, children)) else
            let seen := childName :: seen in
            let '(st, cv) := on_values (WriteValue (text childName)) st in
            match cv with
            | Ok childValueID =>
                (st, (seen, children ++
                   [mkNamed (mkAttribute id childValueID (FirstInstanceID attribute) 0) childName]))
            | _ => (st, (seen, children))
            end
          else (st, (seen, children))
      | _ => (st, (seen, children))
      end
  | _ => (st, (seen, children))
  end.

Definition findChildrenByPrefixNamed (parentPath : list byte) (st : StorageTree I) :
  StorageTree I * list NamedAttribute :=
  let '(st', (_, children)) :=
    fold_left (λ acc id, child_step (parentPath ++ [dot]) id acc) (attribute_ids st) (st, ([], [])) in
  (st', children).

Definition findChildrenByPrefix (parentPath : list byte) (st : StorageTree I) :
  StorageTree I * list Attribute :=
  let '(st, named) := findChildrenByPrefixNamed parentPath st in (st, na_attr <$> named).

Definition Children (p : path) (st : StorageTree I) : StorageTree I * list Attribute :=
  match p with
  | [] => (st, getRootAttributes st)
  | _ => findChildrenByPrefix (join_path p) st
  end.

Definition root_step (attr : Attribute) (acc : StorageTree I * list NamedAttribute) :
  StorageTree I * list NamedAttribute :=
  let '(st, named) := acc in
  let '(st, r) := on_values (ReadValue (AttributeStore.LabelValueID attr)) st in
  let name := match r with Ok v => Data v | _ => [] end in
  (st, named ++ [mkNamed attr name]).

Definition ChildrenWithNames (p : path) (st : StorageTree I) :
  StorageTree I * list NamedAttribute :=
  match p with
  | [] => fold_left (λ acc a, root_step a acc) (getRootAttributes st) (st, [])
  | _ => findChildrenByPrefixNamed (join_path p) st
  end.

Definition leaf_step (prefixStr : list byte) (id : Z)
  (acc : StorageTree I * list (list byte)) : StorageTree I * list (list byte) :=
  let '(st, leaves) := acc in
  match ReadAttribute (attributeStore st) id with
  | Ok attribute =>
      let '(st, lv) := on_values (ReadValue (AttributeStore.LabelValueID attribute)) st in
      match lv with
      | Ok labelValue =>
          let composite := Data labelValue in
          if negb (has_prefix composite prefixStr) then (st, leaves) else
          let remainder := drop (length prefixStr) composite in
          if bool_decide (remainder = []) || bool_decide (remainder ∈ leaves)
          then (st, leaves) else (st, leaves ++ [remainder])
      | _ => (st, leaves)
      end
  | _ => (st, leaves)
  end.

(** [seen] holds exactly the leaves found so far. *)
Definition ListLeafPaths (prefix : path) : Op (StorageTree I) (list (list byte)) := λ st,
  match prefix with
  | [] => (st, Err "empty prefix")
  | _ =>
      let '(st', leaves) :=
        fold_left (λ acc id, leaf_step (join_path prefix ++ [dot]) id acc) (attribute_ids st) (st, []) in
      (st', Ok leaves)
  end.

Definition ResolveAttributePath (attributeID : Z) : Op (StorageTree I) (list byte) :=
  if attributeID =? 0 then op_err "invalid attribute ID 0" else
  attribute ← from_state (λ st, wrap_res "failed to read attribute"
                                  (ReadAttribute (attributeStore st) attributeID));
  pathValue ← op_wrap "failed to read path value for attribute"
    (on_values (ReadValue (AttributeStore.LabelValueID attribute)));
  if negb (bool_decide (TypeTag pathValue = TypeText)) then op_err "attribute has non-text label"
  else mret (Data pathValue).

End Tree.

(** The files of a database directory. *)
Record Directory := mkDirectory {
  dir_values : gmap (Z * Z) file;
  dir_large : file;
  dir_instances : file;
  dir_attributes : file
}.

Definition NewStorageTree (d : Directory) : res (StorageTree HashIndex.HashIndex) :=
  let vs := NewValueStore (dir_values d) (dir_large d) in
  let ins := NewInstanceStore (dir_instances d) in
  let ats := NewAttributeStore (dir_attributes d) in
  match HashIndex.RebuildFromAttributeStore ats (HashIndex.NewHashIndex 0) with
  | (hi, Ok _) => Ok (mkTree vs ins ats hi)
  | (_, Err e) => Err ("failed to rebuild hash index: " +:+ e)
  | (_, Panic e) => Panic e
  end.

Definition Close (st : StorageTree HashIndex.HashIndex) : Directory :=
  {| dir_values := files (valueStore st); dir_large := tier3File (valueStore st);
     dir_instances := is_file (instanceStore st); dir_attributes := as_file (attributeStore st) |}.

(** ** Abstract view: the history of each label *)

Record version := mkVersion { v_value : Value; v_time : Z; v_author : Z }.

(** Newest first. *)
Abbreviation histories := (list byte → list version).

Definition live (m : values) (id : Z) (v : Value) : Prop := ∃ n, m !! id = Some (v, n).

(** [vm'] has all of [vm] and otherwise only new IDs. *)
Record extends (vm vm' : values) : Prop := {
  ex_old : ∀ id v, live vm id v → live vm' id v;
  ex_new : ∀ id v, live vm' id v → live vm id v ∨ vm !! id = None }.

#[global] Instance extends_refl : Reflexive extends.
Proof. split; auto. Qed.
#[global] Instance extends_trans : Transitive extends.
Proof.
  intros x y z [H1 H2] [G1 G2]. split; [auto|]. intros id v [Hv|Hv]%G2; [auto|].
  right. destruct (x !! id) as [[w n]|] eqn:Hx; [|done].
  destruct (H1 id w) as [k Hk]; [by exists n|]. congruence.
Qed.

Definition shows (vm : values) (i : Instance) (ver : version) : Prop :=
  live vm (ValueID i) (v_value ver) ∧ Timestamp i = v_time ver ∧ AuthorID i = v_author ver.

(** Attribute [aid] is the one of label [s]. *)
Definition labelled (vm : values) (al : list Attribute) (s : list byte) (aid : Z) (a : Attribute) :
  Prop := attr_at al aid = Some a ∧ live vm (AttributeStore.LabelValueID a) (text s).

Definition history (vm : values) (al : list Attribute) (il : list Instance)
  (s : list byte) (h : list version) : Prop :=
  (∃ aid a c, labelled vm al s aid a ∧ chain il (FirstInstanceID a) c ∧ Forall2 (shows vm) c h) ∨
  ((∀ aid a, ¬ labelled vm al s aid a) ∧ h = []).

Section Refinement.
Context {I : Type} `{LabelIndex I}.
Context (P : Value → Prop) (P_inj : ∀ v w, P v → P w → hashValue v = hashValue w → v = w).

Record tree_inv (st : StorageTree I) (vm : values) (al : list Attribute) (il : list Instance) :
  Prop := {
  ti_values : store_rep (valueStore st) vm;
  ti_play : in_play P vm;
  ti_attrs : attributes_rep (attributeStore st) al;
  ti_insts : instances_rep (instanceStore st) il;
  ti_acyclic : chains_acyclic il;
  ti_ok : li_ok (hashIndex st);
  ti_index : ∀ lab aid, li_abs (hashIndex st) !! lab = Some aid ↔
    ∃ a, attr_at al aid = Some a ∧ AttributeStore.LabelValueID a = lab;
  ti_first : ∀ aid a, attr_at al aid = Some a → 0 ≤ FirstInstanceID a ≤ len il;
  ti_label : ∀ aid a, attr_at al aid = Some a → ∃ s, live vm (AttributeStore.LabelValueID a) (text s)
}.

(** Room for operations of total cost [k]. *)
Definition tree_room (st : StorageTree I) (vm : values) (al : list Attribute) (il : list Instance)
  (k : Z) : Prop :=
  capacity (valueStore st) vm k ∧
  (len al + 1 + k) * AttributeRecordSize < 2 ^ 63 ∧ (len il + 1 + k) * InstanceRecordSize < 2 ^ 63.

(** The histories are those of the attributes, and no attribute is empty. *)
Definition faithful (vm : values) (al : list Attribute) (il : list Instance) (H : histories) : Prop :=
  (∀ s, history vm al il s (H s)) ∧ ∀ s aid a, labelled vm al s aid a → H s ≠ [].

Definition tree_rep (k : Z) (st : StorageTree I) (H : histories) : Prop :=
  ∃ vm al il, tree_inv st vm al il ∧ tree_room st vm al il k ∧ faithful vm al il H.

(** *** Live values *)

Lemma live_unique vs vm id1 id2 v : store_rep vs vm → live vm id1 v → live vm id2 v → id1 = id2.
Proof.
  intros Hr [n1 H1] [n2 H2].
  assert (E1 : hashToValueID vs !! hashValue v = Some id1) by (apply (sr_hash _ _ Hr); eauto).
  assert (E2 : hashToValueID vs !! hashValue v = Some id2) by (apply (sr_hash _ _ Hr); eauto).
  congruence.
Qed.

Lemma live_functional vm id v w : live vm id v → live vm id w → v = w.
Proof. intros [n H1] [k H2]. congruence. Qed.

Lemma live_range vs vm id v : store_rep vs vm → live vm id v → is_u64 id ∧ id ≠ 0.
Proof. intros Hr [n Hn]. by destruct (sr_live _ _ Hr id v n Hn) as (? & ? & _). Qed.

Lemma labelled_unique st vm al il s aid1 a1 aid2 a2 : tree_inv st vm al il →
  labelled vm al s aid1 a1 → labelled vm al s aid2 a2 → aid1 = aid2 ∧ a1 = a2.
Proof.
  intros Hi [H1 L1] [H2 L2].
  assert (E : AttributeStore.LabelValueID a1 = AttributeStore.LabelValueID a2).
  { eapply live_unique; [apply Hi|done|done]. }
  assert (E1 := proj2 (ti_index _ _ _ _ Hi _ aid1) (ex_intro _ a1 (conj H1 eq_refl))).
  assert (E2 := proj2 (ti_index _ _ _ _ Hi _ aid2) (ex_intro _ a2 (conj H2 eq_refl))).
  rewrite E in E1. assert (aid1 = aid2) as -> by congruence. split; [done|congruence].
Qed.

Lemma shows_extends vm vm' c h : extends vm vm' → Forall2 (shows vm) c h → Forall2 (shows vm') c h.
Proof.
  intros He Hs. eapply Forall2_impl; [done|]. intros i ver (H1 & H2 & H3). split; [by apply He|done].
Qed.

Lemma labelled_extends st vm vm' al il s aid a : tree_inv st vm al il → extends vm vm' →
  labelled vm' al s aid a ↔ labelled vm al s aid a.
Proof.
  intros Hi He. unfold labelled. split; intros [Ha Hl]; (split; [done|]).
  - destruct (ex_new _ _ He _ _ Hl) as [|Hn]; [done|].
    destruct (ti_label _ _ _ _ Hi aid a Ha) as [s' [n Hs]]. congruence.
  - by apply He.
Qed.

Lemma history_extends st vm vm' al il s h : tree_inv st vm al il → extends vm vm' →
  history vm al il s h → history vm' al il s h.
Proof.
  intros Hi He [(aid & a & c & Hl & Hc & Hs)|[Hn ->]].
  - left. exists aid, a, c. split_and!; [by apply (labelled_extends st vm vm' al il)|done|by eapply shows_extends].
  - right. split; [|done]. intros aid a Hl. by apply (Hn aid a), (labelled_extends st vm vm' al il).
Qed.

Lemma faithful_extends st vm vm' al il h : tree_inv st vm al il → extends vm vm' →
  faithful vm al il h → faithful vm' al il h.
Proof.
  intros Hi He [H1 H2]. split.
  - intros s. by apply (history_extends st vm vm' al il).
  - intros s aid a Hl. by apply (H2 s aid a), (labelled_extends st vm vm' al il).
Qed.

(** *** Operations on the values *)

(** A write of [v] when room for [k] remains after it. *)
Lemma write_value_step st vm al il v k : tree_inv st vm al il → P v → value_ok v →
  tree_room st vm al il (op_cost (OWrite v) + k) → 0 ≤ k →
  ∃ st' id vm', on_values (WriteValue v) st = (st', Ok id) ∧
    tree_inv st' vm' al il ∧ tree_room st' vm' al il k ∧ extends vm vm' ∧ live vm' id v.
Proof.
  intros Hi HP Hv (Hcap & Hra & Hri) Hk.
  destruct (write_simulates P P_inj (valueStore st) vm v k) as (vs' & r & vm' & Hrun & Hspec & Hr' & Hp' & Hc');
    [apply Hi|apply Hi|done..|].
  assert (Hx : extends vm vm' ∧ ∃ id, r = Ok id ∧ live vm' id v).
  { inversion Hspec; subst.
    - split; [|exists id; split; [done|exists (n + 1); by rewrite lookup_insert_eq]].
      split; intros id1 w [c Hc].
      + unfold live. destruct (decide (id = id1)) as [<-|]; [|rewrite lookup_insert_ne by done; eauto].
        rewrite lookup_insert_eq. exists (n + 1). congruence.
      + left. unfold live. apply lookup_insert_Some in Hc as [[<- [= <- _]]|[_ Hc]]; eauto.
    - split; [|exists id; split; [done|exists 1; by rewrite lookup_insert_eq]].
      split; intros id1 w [c Hc].
      + unfold live. exists c. rewrite lookup_insert_ne; [done|congruence].
      + apply lookup_insert_Some in Hc as [[<- _]|[_ Hc]]; [by right|]. left. by exists c. }
  destruct Hx as (Hx & id & -> & Hl). cbn [run_op] in Hrun.
  eexists _, id, vm'. split; [by apply op_zoom_ok|].
  destruct Hi as [H1 H2 H3 H4 H5 H6 H7 H8 H9].
  split_and!; [|split; [done|]|done|done].
  - split; cbn [valueStore instanceStore attributeStore hashIndex]; try done.
    intros aid a Ha. destruct (H9 aid a Ha) as [s Hs]. exists s. by apply Hx.
  - pose proof (len_serializeValue_pos v). cbn [op_cost] in *.
    unfold AttributeRecordSize, InstanceRecordSize in *. lia.
Qed.

Lemma find_string_step st vm al il s k : tree_inv st vm al il → P (text s) → is_u32 (len s) →
  tree_room st vm al il (op_cost (OWrite (text s)) + k) → 0 ≤ k →
  ∃ st' id vm', findValueIDForString s st = (st', Ok id) ∧
    tree_inv st' vm' al il ∧ tree_room st' vm' al il k ∧ extends vm vm' ∧ live vm' id (text s).
Proof.
  intros Hi HP Hs Hroom Hk. unfold findValueIDForString.
  assert (Hcf : collision_free vm (text s)) by (eapply in_play_collision_free; [done|apply Hi|done]).
  destruct (FindValueIDForData_spec (valueStore st) vm s TypeText (ti_values _ _ _ _ Hi) Hcf) as [Hf1 Hf2].
  destruct (holder_dec vm (text s)) as [(id & n & Hn)|Hnone].
  - rewrite (Hf1 id n Hn). destruct (live_range _ vm id (text s) (ti_values _ _ _ _ Hi)) as [_ Hne]; [by exists n|].
    rewrite (proj2 (Z.eqb_neq _ _)) by done. exists st, id, vm.
    split_and!; [done|done| |done|by exists n].
    destruct Hroom as ([Hc1 Hc2] & Hra & Hri).
    assert (0 ≤ op_cost (OWrite (text s))).
    { pose proof (len_serializeValue_pos (text s)). cbn [op_cost]. lia. }
    split_and!.
    + split; [intros t Ht; pose proof (Hc1 t Ht); lia|].
      intros id1 w c Hw. pose proof (Hc2 id1 w c Hw). lia.
    + unfold AttributeRecordSize in *. lia.
    + unfold InstanceRecordSize in *. lia.
  - rewrite (Hf2 Hnone). cbn [Z.eqb negb].
    destruct (write_value_step st vm al il (text s) k) as (st' & id & vm' & Hw & ?); [done..|].
    exists st', id, vm'. split; [by apply op_wrap_ok|done].
Qed.

(** The attribute of a path, if any. *)
Lemma find_attribute_step st vm al il p k : p ≠ [] → let s := join_path p in
  tree_inv st vm al il → P (text s) → is_u32 (len s) →
  tree_room st vm al il (op_cost (OWrite (text s)) + k) → 0 ≤ k →
  ∃ st' aid vm', findAttributeForPath p st = (st', Ok aid) ∧
    tree_inv st' vm' al il ∧ tree_room st' vm' al il k ∧ extends vm vm' ∧
    ((∃ a, labelled vm al s aid a) ∨ (aid = 0 ∧ ∀ aid a, ¬ labelled vm al s aid a)).
Proof.
  intros Hp s Hi HP Hs Hroom Hk.
  destruct (find_string_step st vm al il s k) as (st' & lab & vm' & Hf & Hi' & Hroom' & Hx & Hl); [done..|].
  destruct (live_range _ vm' lab (text s) (ti_values _ _ _ _ Hi') Hl) as [_ Hne].
  exists st', (default 0 (li_lookup (hashIndex st') lab)), vm'. split_and!; [|done..|].
  - unfold findAttributeForPath. destruct p as [|c p]; [done|].
    erewrite op_bind_ok by by apply op_try_ok. cbv beta iota.
    by rewrite (proj2 (Z.eqb_neq _ _)) by done.
  - rewrite li_lookup_abs by apply Hi'.
    destruct (li_abs (hashIndex st') !! lab) as [aid|] eqn:Hidx; cbn.
    + left. apply (ti_index _ _ _ _ Hi') in Hidx as (a & Ha & Hlab). exists a.
      apply (labelled_extends st vm vm' al il); [done..|]. split; [done|by rewrite Hlab].
    + right. split; [done|]. intros aid a Hla.
      apply (labelled_extends st vm vm' al il) in Hla as [Ha Hla]; [|done..].
      assert (E : lab = AttributeStore.LabelValueID a) by (eapply live_unique; [apply Hi'|done|done]).
      assert (li_abs (hashIndex st') !! lab = Some aid) by (apply (ti_index _ _ _ _ Hi'); eauto).
      congruence.
Qed.

(** *** Reading *)

Definition path_ok (p : path) : Prop := P (text (join_path p)) ∧ is_u32 (len (join_path p)).
Definition path_cost (p : path) : Z := op_cost (OWrite (text (join_path p))).

Lemma path_cost_pos p : 1 < path_cost p.
Proof.
  unfold path_cost. cbn [op_cost]. pose proof (len_serializeValue_pos (text (join_path p))). lia.
Qed.

Definition with_values (st : StorageTree I) (vs : ValueStore) : StorageTree I :=
  mkTree vs (instanceStore st) (attributeStore st) (hashIndex st).

Lemma tree_same st vm al il k vs' : tree_inv st vm al il → tree_room st vm al il k →
  same_store (valueStore st) vs' →
  tree_inv (with_values st vs') vm al il ∧ tree_room (with_values st vs') vm al il k.
Proof.
  intros [H1 H2 H3 H4 H5 H6 H7 H8 H9] ([Hc1 Hc2] & Hra & Hri) Hs. split.
  - split; try done. by eapply store_rep_same.
  - split; [|done]. split; [|done]. intros t Ht. cbn [with_values valueStore].
    rewrite (same_tier_file _ _ _ Hs). by apply Hc1.
Qed.

Lemma read_value_step st vm al il k id v : tree_inv st vm al il → tree_room st vm al il k →
  live vm id v →
  ∃ st', on_values (ReadValue id) st = (st', Ok v) ∧ tree_inv st' vm al il ∧
    tree_room st' vm al il k ∧ instanceStore st' = instanceStore st ∧
    attributeStore st' = attributeStore st.
Proof.
  intros Hi Hroom [n Hn].
  destruct (readValue_spec (valueStore st) vm id v n (ti_values _ _ _ _ Hi) Hn) as (vs' & Hrd & Hs).
  exists (with_values st vs'). split.
  { unfold on_values, ReadValue. by rewrite (op_zoom_ok _ _ _ _ _ _ Hrd). }
  destruct (tree_same st vm al il k vs' Hi Hroom Hs). done.
Qed.

Lemma instance_value_step st vm al il k iid i v : tree_inv st vm al il → tree_room st vm al il k →
  inst_at il iid = Some i → live vm (ValueID i) v →
  ∃ st', instance_value iid st = (st', Ok v) ∧ tree_inv st' vm al il ∧ tree_room st' vm al il k.
Proof.
  intros Hi Hroom Hat Hl.
  destruct (walk_step _ il iid i (ti_insts _ _ _ _ Hi) Hat) as [_ Hrd].
  destruct (read_value_step st vm al il k _ v Hi Hroom Hl) as (st' & Hr & Hi' & Hroom' & _).
  exists st'. split; [|done]. unfold instance_value.
  erewrite op_bind_ok by (unfold from_state; by rewrite Hrd). by apply op_wrap_ok.
Qed.

(** What the lookup of a path's attribute gives, against the histories. *)
Lemma attribute_of_step st k p h : p ≠ [] → path_ok p → 0 ≤ k →
  tree_rep (path_cost p + k) st h →
  ∃ st' vm al il r, attribute_of p st = (st', r) ∧
    tree_inv st' vm al il ∧ tree_room st' vm al il k ∧ faithful vm al il h ∧
    match r with
    | Ok a => ∃ c aid, labelled vm al (join_path p) aid a ∧ chain il (FirstInstanceID a) c ∧
                Forall2 (shows vm) c (h (join_path p))
    | _ => is_err r = true ∧ h (join_path p) = []
    end.
Proof.
  intros Hp [HP Hs] Hk (vm & al & il & Hi & Hroom & Hh).
  destruct (find_attribute_step st vm al il p k Hp Hi HP Hs Hroom Hk)
    as (st' & aid & vm' & Hf & Hi' & Hroom' & Hx & Hres).
  assert (Hh' : faithful vm' al il h) by by apply (faithful_extends st vm vm' al il).
  exists st', vm', al, il. unfold attribute_of. destruct p as [|c0 p0]; [done|]. set (p := c0 :: p0) in *.
  destruct Hres as [[a Ha]|[-> Hno]].
  - assert (Ha' : labelled vm' al (join_path p) aid a) by by apply (labelled_extends st vm vm' al il).
    pose proof (attr_at_range _ _ _ (proj1 Ha)) as Hrg.
    exists (Ok a). split_and!; [|done..|].
    + erewrite op_bind_ok by by apply op_wrap_ok. cbv beta.
      rewrite (proj2 (Z.eqb_neq _ _)) by lia. unfold from_state.
      by rewrite (ReadAttribute_rep _ _ _ _ (ti_attrs _ _ _ _ Hi') (proj1 Ha)).
    + destruct (proj1 Hh' (join_path p)) as [(aid1 & a1 & c & Hl & Hc & Hs1)|[Hn _]]; [|by destruct (Hn aid a)].
      destruct (labelled_unique st' vm' al il _ _ _ _ _ Hi' Hl Ha') as [-> ->]. by exists c, aid.
  - exists (Err "path not found"). split_and!; [|done..|].
    + by erewrite op_bind_ok by by apply op_wrap_ok.
    + destruct (proj1 Hh' (join_path p)) as [(aid1 & a1 & c & Hl & _)|[_ ?]]; [|done].
      exfalso. by apply (Hno aid1 a1), (labelled_extends st vm vm' al il).
Qed.

Lemma chain_zero il c : chain il 0 c → c = [].
Proof. inversion 1 as [|? ? ? Hin]; [done|]. apply inst_at_range in Hin. lia. Qed.

Lemma chain_nonzero il id c : id ≠ 0 → chain il id c →
  ∃ i c', c = i :: c' ∧ inst_at il id = Some i.
Proof. intros Hne. destruct 1 as [|? i c' Hi]; [done|]. by exists i, c'. Qed.

Lemma Read_step st k p h : p ≠ [] → path_ok p → 0 ≤ k → tree_rep (path_cost p + k) st h →
  ∃ st' r, Read p st = (st', r) ∧ tree_rep k st' h ∧
    match head (h (join_path p)) with
    | Some ver => r = Ok (v_value ver)
    | None => is_err r = true
    end.
Proof.
  intros Hp Hok Hk Hrep.
  destruct (attribute_of_step st k p h Hp Hok Hk Hrep) as (st' & vm & al & il & r & Hat & Hi & Hroom & Hh & Hr).
  assert (Hrep' : tree_rep k st' h) by by exists vm, al, il.
  unfold Read. destruct r as [a|e|e].
  - destruct Hr as (c & aid & Hl & Hc & Hs). rewrite (op_bind_ok _ _ _ _ _ Hat). cbv beta.
    destruct (Z.eqb_spec (FirstInstanceID a) 0) as [He|Hne].
    + rewrite He in Hc. apply chain_zero in Hc as ->.
      apply Forall2_nil_inv_l in Hs as ->. by exists st', (Err "no instances for path").
    + destruct (chain_nonzero _ _ _ Hne Hc) as (i & c' & -> & Hin).
      apply Forall2_cons_inv_l in Hs as (ver & h' & [Hv _] & _ & ->).
      destruct (instance_value_step st' vm al il k _ i _ Hi Hroom Hin Hv) as (st2 & Hrd & Hi2 & Hroom2).
      exists st2, (Ok (v_value ver)). split_and!; [done| |done]. by exists vm, al, il.
  - destruct Hr as [_ Hr]. rewrite (op_bind_err _ _ _ _ _ Hat), Hr. by exists st', (Err e).
  - destruct Hr. done.
Qed.

(** Enough fuel for any chain: one more than the number of instances. *)
Definition walk_fuel (st : StorageTree I) : nat :=
  S (Z.to_nat (GetInstanceCount (instanceStore st))).

Lemma walk_fuel_enough st vm al il iid c : tree_inv st vm al il → 0 ≤ iid ≤ len il →
  chain il iid c → (length c < walk_fuel st)%nat.
Proof.
  intros Hi Hid Hc. destruct (chain_total il iid (ti_acyclic _ _ _ _ Hi) Hid) as (c' & Hc' & Hl).
  rewrite (chain_functional _ _ _ _ Hc Hc'). unfold walk_fuel, GetInstanceCount.
  pose proof (ti_insts _ _ _ _ Hi) as Hr. rewrite (ir_next _ _ Hr).
  pose proof (ir_room _ _ Hr). rewrite u64_small; unfold is_u64, InstanceRecordSize, len in *; lia.
Qed.

Lemma instances_unchanged_fuel st p st' r :
  attribute_of p st = (st', r) → instanceStore st' = instanceStore st.
Proof.
  assert (Hv : ∀ A (m : Op ValueStore A), instanceStore (on_values m st).1 = instanceStore st).
  { intros A m. unfold on_values, op_zoom. by destruct (m (valueStore st)). }
  intros Hat. assert (E : instanceStore (attribute_of p st).1 = instanceStore st); [|by rewrite Hat in E].
  unfold attribute_of, findAttributeForPath, findValueIDForString. destruct p as [|c p]; [done|].
  unfold mbind, op_bind, op_wrap, op_try, from_state, op_err, mret, op_ret.
  destruct (negb _).
  - repeat case_match; simplify_eq; done.
  - specialize (Hv _ (WriteValue (text (join_path (c :: p))))).
    destruct (on_values (WriteValue (text (join_path (c :: p)))) st) as [st1 w]. cbn [fst] in Hv.
    destruct w; cbn [wrap_res]; repeat case_match; simplify_eq; done.
Qed.

(** The version current at time [t]: the newest one not after it. *)
Definition at_time (t : Z) (h : list version) : option version :=
  snd <$> list_find (λ ver, v_time ver ≤ t) h.

Lemma at_time_shows vm t c h : Forall2 (shows vm) c h →
  match version_at t c, at_time t h with
  | Some i, Some ver => i ∈ c ∧ shows vm i ver
  | None, None => True
  | _, _ => False
  end.
Proof.
  unfold at_time. induction 1 as [|i ver c h Hs Hcs IH]; [done|].
  rewrite version_at_cons. cbn [list_find]. pose proof Hs as (_ & Ht & _). rewrite Ht.
  case_decide.
  - split; [left|done].
  - destruct (list_find _ h) as [[]|] in IH |- *; cbn in *; destruct (version_at t c); try done.
    destruct IH. split; [by right|done].
Qed.

Lemma chain_member il id c i : (∀ k j, il !! k = Some j → InstanceID j = Z.of_nat k + 1) →
  chain il id c → i ∈ c → inst_at il (InstanceID i) = Some i.
Proof.
  intros Hids. induction 1 as [|id j c Hj Hc IH]; [by intros ?%not_elem_of_nil|].
  intros [->|Hi]%elem_of_cons; [|by apply IH].
  pose proof Hj as (k & Hk & ->)%inst_at_lookup. by rewrite (Hids k j Hk).
Qed.

Lemma ReadAt_step st k p t h : p ≠ [] → path_ok p → 0 ≤ k → tree_rep (path_cost p + k) st h →
  ∃ st' r, ReadAt (walk_fuel st) p t st = Some (st', r) ∧ tree_rep k st' h ∧
    match at_time t (h (join_path p)) with
    | Some ver => r = Ok (v_value ver)
    | None => is_err r = true
    end.
Proof.
  intros Hp Hok Hk Hrep.
  destruct (attribute_of_step st k p h Hp Hok Hk Hrep) as (st' & vm & al & il & r & Hat & Hi & Hroom & Hh & Hr).
  assert (Hrep' : tree_rep k st' h) by by exists vm, al, il.
  unfold ReadAt. rewrite Hat. destruct r as [a|e|e].
  - destruct Hr as (c & aid & [Ha _] & Hc & Hs).
    pose proof (ti_first _ _ _ _ Hi aid a Ha) as Hfirst.
    pose proof (at_time_shows vm t c _ Hs) as Hver.
    destruct (Z.eqb_spec (FirstInstanceID a) 0) as [He|Hne].
    + rewrite He in Hc. apply chain_zero in Hc as ->.
      apply Forall2_nil_inv_l in Hs as ->. by exists st', (Err "no instances for path").
    + assert (Hfuel : (length c < walk_fuel st)%nat).
      { pose proof (walk_fuel_enough st' vm al il _ c Hi Hfirst Hc) as Hf. unfold walk_fuel in *.
        by rewrite (instances_unchanged_fuel _ _ _ _ Hat) in Hf. }
      rewrite (FindInstanceAtTime_chain _ il _ c t _ (ti_insts _ _ _ _ Hi) Hc Hfuel).
      destruct (version_at t c) as [i|]; destruct (at_time t (h (join_path p))) as [ver|]; try done.
      * destruct Hver as [Hin Hsh].
        pose proof (chain_member il _ c i (ir_ids _ _ (ti_insts _ _ _ _ Hi)) Hc Hin) as Hiat.
        pose proof (inst_at_range _ _ _ Hiat).
        destruct (instance_value_step st' vm al il k _ i _ Hi Hroom Hiat (proj1 Hsh)) as (st2 & Hrd & Hi2 & Hroom2).
        exists st2, (Ok (v_value ver)). split_and!; [|by exists vm, al, il|done].
        f_equal. cbn [from_option]. erewrite op_bind_ok by by apply op_wrap_ok. cbv beta.
        by rewrite (proj2 (Z.eqb_neq _ _)) by lia.
      * exists st', (Err "no instance found at timestamp for path"). done.
  - destruct Hr as [_ Hr]. rewrite Hr. by exists st', (Err e).
  - destruct Hr. done.
Qed.

(** *** Writing *)

Lemma tree_room_weaken st vm al il k k' : k' ≤ k → tree_room st vm al il k → tree_room st vm al il k'.
Proof.
  intros Hk ([Hc1 Hc2] & Hra & Hri). split; [split|].
  - intros t Ht. pose proof (Hc1 t Ht). lia.
  - intros id v n Hm. pose proof (Hc2 id v n Hm). lia.
  - unfold AttributeRecordSize, InstanceRecordSize in *. lia.
Qed.

Lemma labelled_snoc vm al s aid a x :
  labelled vm (al ++ [x]) s aid a ↔
  labelled vm al s aid a ∨
  (aid = len al + 1 ∧ a = x ∧ live vm (AttributeStore.LabelValueID x) (text s)).
Proof.
  unfold labelled. split.
  - intros [Ha Hl]. destruct (decide (aid = len al + 1)) as [->|Hne].
    + rewrite attr_at_snoc_new in Ha. injection Ha as <-. by right.
    + left. pose proof (attr_at_range _ _ _ Ha) as Hr. rewrite len_app in Hr.
      change (len [x]) with 1 in Hr. rewrite attr_at_snoc_old in Ha by lia. done.
  - intros [[Ha Hl]|(-> & -> & Hl)].
    + pose proof (attr_at_range _ _ _ Ha). by rewrite attr_at_snoc_old by lia.
    + by rewrite attr_at_snoc_new.
Qed.

(** Adding the attribute of a label that has none. *)
Lemma tree_inv_new_attribute st vm al il lab s ats : tree_inv st vm al il →
  live vm lab (text s) → (∀ aid a, ¬ labelled vm al s aid a) →
  let x := mkAttribute (len al + 1) lab 0 0 in
  attributes_rep ats (al ++ [x]) →
  let st' := mkTree (valueStore st) (instanceStore st) ats (li_insert lab (len al + 1) (hashIndex st)) in
  tree_inv st' vm (al ++ [x]) il ∧ labelled vm (al ++ [x]) s (len al + 1) x ∧
  (∀ s' h, history vm al il s' h → history vm (al ++ [x]) il s' h) ∧
  ∀ s' aid a, labelled vm (al ++ [x]) s' aid a → s' = s ∨ labelled vm al s' aid a.
Proof.
  intros [H1 H2 H3 H4 H5 H6 H7 H8 H9] Hl Hno x Hats st'.
  assert (Hnew : labelled vm (al ++ [x]) s (len al + 1) x).
  { apply labelled_snoc. by right. }
  split_and!; [split; unfold st'; cbn [valueStore instanceStore attributeStore hashIndex]; try done| done | |].
  - by apply li_insert_ok.
  - intros lab' aid. rewrite li_insert_abs by done. destruct (decide (lab = lab')) as [<-|Hne].
    + rewrite lookup_insert_eq. split.
      * intros [= <-]. exists x. by rewrite attr_at_snoc_new.
      * intros (a & Ha & Hla). f_equal.
        destruct (proj1 (labelled_snoc vm al s aid a x)) as [Hold|(-> & _)]; [|by destruct (Hno aid a)|done].
        split; [done|by rewrite Hla].
    + rewrite lookup_insert_ne, H7 by done. split; intros (a & Ha & Hla); exists a; (split; [|done]).
      * pose proof (attr_at_range _ _ _ Ha). by rewrite attr_at_snoc_old by lia.
      * pose proof (attr_at_range _ _ _ Ha) as Hr. rewrite len_app in Hr. change (len [x]) with 1 in Hr.
        destruct (decide (aid = len al + 1)) as [->|].
        -- rewrite attr_at_snoc_new in Ha. injection Ha as <-. by destruct Hne.
        -- by rewrite attr_at_snoc_old in Ha by lia.
  - intros aid a Ha. destruct (decide (aid = len al + 1)) as [->|].
    + rewrite attr_at_snoc_new in Ha. injection Ha as <-. cbn. pose proof (len_nonneg il). lia.
    + pose proof (attr_at_range _ _ _ Ha) as Hr. rewrite len_app in Hr. change (len [x]) with 1 in Hr.
      rewrite attr_at_snoc_old in Ha by lia. by apply (H8 aid).
  - intros aid a Ha. destruct (decide (aid = len al + 1)) as [->|].
    + rewrite attr_at_snoc_new in Ha. injection Ha as <-. by exists s.
    + pose proof (attr_at_range _ _ _ Ha) as Hr. rewrite len_app in Hr. change (len [x]) with 1 in Hr.
      rewrite attr_at_snoc_old in Ha by lia. by apply (H9 aid).
  - intros s' h [(aid & a & c & Hla & Hc & Hs)|[Hn ->]].
    + left. exists aid, a, c. split_and!; [apply labelled_snoc; by left|done..].
    + destruct (decide (s' = s)) as [->|Hne].
      * left. exists (len al + 1), x, []. split_and!; [done|constructor|constructor].
      * right. split; [|done]. intros aid a [Hold|(-> & -> & Hlx)]%labelled_snoc; [by eapply Hn|].
        destruct Hne. assert (E : text s' = text s) by (eapply live_functional; done). by injection E.
  - intros s' aid a [Hold|(-> & -> & Hlx)]%labelled_snoc; [by right|]. left.
    assert (E : text s' = text s) by (eapply live_functional; done). by injection E.
Qed.

Lemma find_or_create_step st vm al il p k : p ≠ [] → path_ok p → let s := join_path p in
  tree_inv st vm al il → tree_room st vm al il (path_cost p + (k + 1)) → 0 ≤ k →
  ∃ st' aid a vm' al', findOrCreateAttributeForPath p st = (st', Ok aid) ∧
    tree_inv st' vm' al' il ∧ tree_room st' vm' al' il k ∧ extends vm vm' ∧
    labelled vm' al' s aid a ∧ (∀ s' h, history vm al il s' h → history vm' al' il s' h) ∧
    ∀ s' aid a, labelled vm' al' s' aid a → s' = s ∨ labelled vm al s' aid a.
Proof.
  intros Hp [HP Hs] s Hi Hroom Hk.
  destruct (write_value_step st vm al il (text s) (k + 1)) as (st1 & lab & vm1 & Hw & Hi1 & Hroom1 & Hx & Hl);
    [done..|lia|].
  assert (Hh1 : ∀ s' h, history vm al il s' h → history vm1 al il s' h)
    by (intros s' h; by apply (history_extends st vm vm1 al il)).
  unfold findOrCreateAttributeForPath. destruct p as [|c0 p0]; [done|]. set (p := c0 :: p0) in *.
  erewrite op_bind_ok by by apply op_wrap_ok. cbv beta.
  erewrite op_bind_ok by reflexivity. cbv beta.
  rewrite li_lookup_abs by apply Hi1.
  destruct (li_abs (hashIndex st1) !! lab) as [aid|] eqn:Hidx.
  - apply (ti_index _ _ _ _ Hi1) in Hidx as (a & Ha & Hla).
    exists st1, aid, a, vm1, al. split_and!; [done|done| |done| |done|].
    + by apply (tree_room_weaken _ _ _ _ (k + 1)); [lia|].
    + split; [done|by rewrite Hla].
    + intros s' j x Hlx. right. by apply (labelled_extends st vm vm1 al il).
  - assert (Hno : ∀ aid a, ¬ labelled vm1 al s aid a).
    { intros aid a [Ha Hla].
      assert (E : AttributeStore.LabelValueID a = lab) by (eapply live_unique; [apply Hi1|done|done]).
      assert (li_abs (hashIndex st1) !! lab = Some aid) by (apply (ti_index _ _ _ _ Hi1); eauto).
      congruence. }
    pose proof Hroom1 as (Hcap & Hra & Hri).
    destruct (live_range _ vm1 lab _ (ti_values _ _ _ _ Hi1) Hl) as [Hu _].
    destruct (WriteAttribute_rep (attributeStore st1) al lab 0 0) as (ats & Hwa & Hats);
      [apply Hi1|done|done|done| |].
    { unfold AttributeRecordSize in *. lia. }
    destruct (tree_inv_new_attribute st1 vm1 al il lab s ats Hi1 Hl Hno Hats) as (Hi2 & Hlab & Hh2 & Hcov).
    eexists _, (len al + 1), _, vm1, (al ++ [_]). split_and!; [|exact Hi2| |done|exact Hlab| |].
    + erewrite op_bind_ok by by apply op_wrap_ok, op_zoom_ok. cbv beta.
      by erewrite op_bind_ok by reflexivity.
    + destruct Hcap as [Hc1 Hc2]. split; [split|].
      * intros t Ht. pose proof (Hc1 t Ht). cbn [valueStore]. lia.
      * intros id v n Hm. pose proof (Hc2 id v n Hm). lia.
      * rewrite len_app. change (len [mkAttribute (len al + 1) lab 0 0]) with 1.
        unfold AttributeRecordSize, InstanceRecordSize in *. lia.
    + intros s' h Hh. by apply Hh2, Hh1.
    + intros s' j x [->|Hlx]%Hcov; [by left|]. right. by apply (labelled_extends st vm vm1 al il).
Qed.

Lemma labelled_alter vm al s aid a id v : 1 ≤ id →
  labelled vm (alter_attr (set_first v) id al) s aid a ↔
  if decide (aid = id) then ∃ a0, labelled vm al s aid a0 ∧ a = set_first v a0
  else labelled vm al s aid a.
Proof.
  intros Hid. unfold labelled. rewrite attr_at_alter by done. case_decide; [|done]. split.
  - intros [(a0 & Ha0 & ->)%fmap_Some Hl]. by exists a0.
  - intros (a0 & [Ha0 Hl] & ->). by rewrite Ha0.
Qed.

(** Pushing a version on the chain of a label. *)
Lemma tree_inv_new_instance st vm al il s aid a id v now author ins ats c h :
  tree_inv st vm al il → labelled vm al s aid a → live vm id v →
  chain il (FirstInstanceID a) c → Forall2 (shows vm) c h →
  let i := mkInstance (len il + 1) id (FirstInstanceID a) now author in
  let al' := alter_attr (set_first (len il + 1)) aid al in
  instances_rep ins (il ++ [i]) → attributes_rep ats al' →
  let st' := mkTree (valueStore st) ins ats (hashIndex st) in
  tree_inv st' vm al' (il ++ [i]) ∧
  history vm al' (il ++ [i]) s (mkVersion v now author :: h) ∧
  (∀ s' h', s' ≠ s → history vm al il s' h' → history vm al' (il ++ [i]) s' h') ∧
  ∀ s' aid' a', labelled vm al' s' aid' a' → ∃ a0, labelled vm al s' aid' a0.
Proof.
  intros Hi Hlab Hl Hc Hs i al' Hins Hats st'. pose proof Hi as [H1 H2 H3 H4 H5 H6 H7 H8 H9].
  pose proof (attr_at_range _ _ _ (proj1 Hlab)) as Hrg.
  pose proof (H8 aid a (proj1 Hlab)) as Hfirst.
  assert (Hlen : len (il ++ [i]) = len il + 1) by (rewrite len_app; done).
  assert (Hattr : ∀ j x, attr_at al' j = Some x → ∃ x0, attr_at al j = Some x0 ∧
    AttributeStore.LabelValueID x = AttributeStore.LabelValueID x0 ∧
    (FirstInstanceID x = len il + 1 ∨ x = x0)).
  { intros j x. unfold al'. rewrite attr_at_alter by lia. case_decide.
    - intros (x0 & Hx0 & ->)%fmap_Some. exists x0. auto.
    - intros Hx. exists x. auto. }
  split_and!; [split; unfold st'; cbn [valueStore instanceStore attributeStore hashIndex]; try done| | |].
  - apply chains_acyclic_snoc; [done|]. cbn. lia.
  - intros lab j. rewrite H7. split.
    + intros (x & Hx & Hlx). unfold al'. rewrite attr_at_alter by lia. case_decide; [|by exists x].
      exists (set_first (len il + 1) x). by rewrite Hx.
    + intros (x & Hx & Hlx). destruct (Hattr j x Hx) as (x0 & ? & ? & _). exists x0. split; [done|congruence].
  - intros j x Hx. rewrite Hlen. destruct (Hattr j x Hx) as (x0 & Hx0 & _ & [->| ->]).
    + pose proof (len_nonneg il). lia.
    + pose proof (H8 j x0 Hx0). lia.
  - intros j x Hx. destruct (Hattr j x Hx) as (x0 & Hx0 & -> & _). by apply (H9 j).
  - left. exists aid, (set_first (len il + 1) a), (i :: c). split_and!.
    + unfold al'. apply labelled_alter; [lia|]. rewrite decide_True by done. by exists a.
    + cbn [set_first FirstInstanceID]. by apply chain_new.
    + by constructor.
  - intros s' h' Hne [(j & x & d & Hlx & Hd & Hsd)|[Hn ->]].
    + left. assert (j ≠ aid).
      { intros ->. destruct Hne. destruct Hlx as [Hx1 Hx2], Hlab as [Hx3 Hx4].
        assert (E : text s' = text s) by (eapply live_functional; [done|congruence]). by injection E. }
      exists j, x, d. split_and!; [|by apply chain_snoc|done].
      apply labelled_alter; [lia|]. by rewrite decide_False.
    + right. split; [|done]. intros j x Hlx. apply labelled_alter in Hlx; [|lia].
      case_decide; [destruct Hlx as (x0 & Hlx & _)|]; by eapply Hn.
  - intros s' j x Hlx. apply labelled_alter in Hlx; [|lia].
    case_decide; [destruct Hlx as (x0 & Hlx & _); by exists x0|by exists x].
Qed.

Definition write_cost (p : path) (v : Value) : Z := op_cost (OWrite v) + (path_cost p + 2).

(** What a write does to the histories, and whether it changed anything. *)
Definition push (now : Z) (p : path) (v : Value) (author : Z) (h : histories) : histories * bool :=
  let s := join_path p in
  if bool_decide (v_value <$> head (h s) = Some v) then (h, false)
  else (λ s', if decide (s' = s) then mkVersion v now author :: h s else h s', true).

Lemma Write_step st k now p v author h : p ≠ [] → path_ok p → P v → value_ok v →
  is_i64 now → is_u64 author → 0 ≤ k → tree_rep (write_cost p v + k) st h →
  ∃ st', WriteReportingChange now p v author st = (st', Ok (push now p v author h).2) ∧
    tree_rep k st' (push now p v author h).1.
Proof.
  intros Hp Hok HP Hv Hnow Hau Hk (vm & al & il & Hi & Hroom & Hh).
  set (s := join_path p) in *. pose proof (path_cost_pos p) as Hcost.
  destruct (write_value_step st vm al il v (path_cost p + (k + 1 + 1)))
    as (st1 & id & vm1 & Hw & Hi1 & Hroom1 & Hx1 & Hl1); [done|done|done| |lia|].
  { eapply tree_room_weaken; [|done]. unfold write_cost. lia. }
  destruct (find_or_create_step st1 vm1 al il p (k + 1) Hp Hok Hi1 Hroom1 ltac:(lia))
    as (st2 & aid & a & vm2 & al2 & Hf & Hi2 & Hroom2 & Hx2 & Hlab & Hh2 & Hcov2).
  assert (Hhist : ∀ s' , history vm2 al2 il s' (h s')).
  { intros s'. apply Hh2, (history_extends st vm vm1 al il); [done..|apply Hh]. }
  assert (Hcov : ∀ s' j x, labelled vm2 al2 s' j x → s' = s ∨ h s' ≠ []).
  { intros s' j x [->|Hlx]%Hcov2; [by left|]. right.
    by apply (proj2 Hh s' j x), (labelled_extends st vm vm1 al il). }
  assert (Hl2 : live vm2 id v) by by apply Hx2.
  destruct (Hhist s) as [(aid' & a' & c & Hlab' & Hc & Hs)|[Hn _]]; [|by destruct (Hn aid a)].
  destruct (labelled_unique st2 vm2 al2 il _ _ _ _ _ Hi2 Hlab' Hlab) as [-> ->].
  unfold WriteReportingChange. destruct p as [|c0 p0]; [done|]. set (p := c0 :: p0) in *.
  erewrite op_bind_ok by by apply op_wrap_ok. cbv beta.
  erewrite op_bind_ok by by apply op_wrap_ok. cbv beta.
  erewrite op_bind_ok by (unfold from_state;
    by rewrite (ReadAttribute_rep _ _ _ _ (ti_attrs _ _ _ _ Hi2) (proj1 Hlab))). cbv beta.
  assert (Hsame : (if FirstInstanceID a =? 0 then mret false else
      from_state (λ st0 : StorageTree I, (λ i, ValueID i =? id) <$>
        wrap_res "failed to read current instance"
          (ReadInstance (instanceStore st0) (FirstInstanceID a)))) st2 =
      (st2, Ok (bool_decide (v_value <$> head (h s) = Some v)))).
  { destruct (Z.eqb_spec (FirstInstanceID a) 0) as [He|Hne].
    - rewrite He in Hc. apply chain_zero in Hc as ->. apply Forall2_nil_inv_l in Hs as ->. done.
    - destruct (chain_nonzero _ _ _ Hne Hc) as (i & c' & -> & Hin).
      apply Forall2_cons_inv_l in Hs as (ver & h' & [Hvi _] & _ & ->).
      destruct (walk_step _ il _ i (ti_insts _ _ _ _ Hi2) Hin) as [_ Hrd].
      unfold from_state. rewrite Hrd. ress. do 2 f_equal. apply eq_true_iff_eq.
      rewrite Z.eqb_eq, bool_decide_eq_true. cbn. split.
      + intros E. f_equal. rewrite E in Hvi. by eapply live_functional.
      + intros [= E]. rewrite E in Hvi. eapply live_unique; [apply Hi2|done|done]. }
  erewrite op_bind_ok by exact Hsame. cbv beta. unfold push. fold s.
  case_bool_decide as Hhead; cbn [fst snd].
  { exists st2. split; [done|]. exists vm2, al2, il. split_and!; [done| |].
    - by apply (tree_room_weaken _ _ _ _ (k + 1)); [lia|].
    - split; [done|]. intros s' j x [->|?]%Hcov; [|done]. by destruct (h s). }
  pose proof Hroom2 as (Hcap & Hra & Hri).
  pose proof (ti_first _ _ _ _ Hi2 aid a (proj1 Hlab)) as Hfirst.
  destruct (live_range _ vm2 id v (ti_values _ _ _ _ Hi2) Hl2) as [Hu _].
  destruct (WriteInstance_rep (instanceStore st2) il now id (FirstInstanceID a) author)
    as (ins & Hwi & Hins).
  { apply Hi2. } { done. }
  { unfold is_u64, InstanceRecordSize in *. lia. } { done. } { done. }
  { unfold InstanceRecordSize in *. lia. }
  destruct (UpdateAttributeFirstInstance_rep (attributeStore st2) al2 aid a (len il + 1))
    as (ats & Hua & Hats); [apply Hi2|apply Hlab| |].
  { pose proof (len_nonneg il). unfold is_u64, InstanceRecordSize in *. lia. }
  destruct (tree_inv_new_instance st2 vm2 al2 il s aid a id v now author ins ats c (h s)
    Hi2 Hlab Hl2 Hc Hs Hins Hats) as (Hi3 & Hpush & Hother & Hcov3).
  eexists. split.
  - erewrite op_bind_ok by by apply op_wrap_ok, op_zoom_ok. cbv beta.
    erewrite op_bind_ok by by apply op_wrap_ok, op_zoom_ok. reflexivity.
  - eexists vm2, _, _. split_and!; [exact Hi3| |].
    + split; [by apply (tree_room_weaken _ _ _ _ (k + 1) k ltac:(lia) Hroom2)|].
      rewrite len_alter, len_app. change (len [_]) with 1.
      unfold AttributeRecordSize, InstanceRecordSize in *. lia.
    + split; intros s'; case_decide as Hs'; [by subst|by apply Hother|done|].
      intros j x [x0 Hlx]%Hcov3. by apply Hcov in Hlx as [?|?].
Qed.

(** *** Listing *)

Lemma has_prefix_spec s pre : has_prefix s pre = true ↔ ∃ t, s = pre ++ t.
Proof.
  revert s. induction pre as [|x pre IH]; intros s.
  - split; [by exists s|by destruct s].
  - destruct s as [|y s]; [split; [done|by intros [t [=]]]|].
    change (bool_decide (x = y) && has_prefix s pre = true ↔ ∃ t, y :: s = x :: pre ++ t).
    rewrite andb_true_iff, bool_decide_eq_true, IH. split.
    + intros [-> [t ->]]. by exists t.
    + intros [t [= -> ->]]. split; [done|by exists t].
Qed.

Lemma ids_fold st vm al il k pre ids : ∀ leaves, tree_inv st vm al il → tree_room st vm al il k →
  Forall (λ id, 1 ≤ id ≤ len al) ids → NoDup leaves →
  ∃ st' leaves', fold_left (λ acc id, leaf_step pre id acc) ids (st, leaves) = (st', leaves') ∧
    tree_inv st' vm al il ∧ tree_room st' vm al il k ∧ NoDup leaves' ∧
    ∀ x, x ∈ leaves' ↔ x ∈ leaves ∨
      (x ≠ [] ∧ ∃ aid a, aid ∈ ids ∧ labelled vm al (pre ++ x) aid a).
Proof.
  revert st. induction ids as [|id ids IH]; intros st leaves Hi Hroom Hids Hnd.
  { exists st, leaves. split_and!; [done..|]. intros x. split; [by left|].
    intros [?|(_ & aid & a & Hin & _)]; [done|]. by apply not_elem_of_nil in Hin. }
  apply Forall_cons in Hids as [Hid Hids]. destruct (attr_at_is_Some al id Hid) as [a Ha].
  destruct (ti_label _ _ _ _ Hi id a Ha) as [s Hs].
  destruct (read_value_step st vm al il k _ _ Hi Hroom Hs) as (st1 & Hrd & Hi1 & Hroom1 & _).
  assert (Hlab : labelled vm al s id a) by done.
  assert (Hone : ∀ x, labelled vm al (pre ++ x) id a ↔ s = pre ++ x).
  { intros x. split; [|by intros <-]. intros [_ Hx].
    assert (E : text s = text (pre ++ x)) by (eapply live_functional; done). by injection E. }
  assert (Hall : ∀ x, (∃ aid a0, aid ∈ id :: ids ∧ labelled vm al (pre ++ x) aid a0) ↔
    s = pre ++ x ∨ ∃ aid a0, aid ∈ ids ∧ labelled vm al (pre ++ x) aid a0).
  { intros x. split.
    - intros (j & y & [->|Hj]%elem_of_cons & Hy); [left|right; by exists j, y].
      apply Hone. destruct Hy as [Hy1 Hy2]. split; [done|]. congruence.
    - intros [->|(j & y & Hj & Hy)]; [exists id, a; split; [left|by apply Hone]|].
      exists j, y. split; [by right|done]. }
  assert (Hstep : ∃ leaves1, leaf_step pre id (st, leaves) = (st1, leaves1) ∧ NoDup leaves1 ∧
    ∀ x, x ∈ leaves1 ↔ x ∈ leaves ∨ (x ≠ [] ∧ s = pre ++ x)).
  { unfold leaf_step. rewrite (ReadAttribute_rep _ _ _ _ (ti_attrs _ _ _ _ Hi) Ha), Hrd. cbn [text Data].
    destruct (has_prefix s pre) eqn:Hp; cbn [negb].
    - apply has_prefix_spec in Hp as [t ->]. rewrite drop_app_len.
      assert (Hx : ∀ x, pre ++ t = pre ++ x ↔ x = t) by (intros x; rewrite (inj_iff (pre ++.)); naive_solver).
      destruct (decide (t = [])) as [->|Ht]; [rewrite bool_decide_true by done; cbn|
        rewrite (bool_decide_false (t = [])) by done; cbn;
        destruct (decide (t ∈ leaves)); [rewrite bool_decide_true by done|rewrite bool_decide_false by done]].
      + exists leaves. split_and!; [done..|]. intros x. rewrite Hx. naive_solver.
      + exists leaves. split_and!; [done..|]. intros x. rewrite Hx. naive_solver.
      + exists (leaves ++ [t]). split_and!; [done| |].
        * apply NoDup_app. split_and!; [done| |apply NoDup_singleton].
          intros x Hx1 ->%list_elem_of_singleton. done.
        * intros x. rewrite elem_of_app, list_elem_of_singleton, Hx. naive_solver.
    - exists leaves. split_and!; [done..|]. intros x. split; [by left|]. intros [?|[_ ->]]; [done|].
      assert (has_prefix (pre ++ x) pre = true) as E by (apply has_prefix_spec; by exists x). congruence. }
  destruct Hstep as (leaves1 & Hstep & Hnd1 & Hin1). cbn [fold_left]. rewrite Hstep.
  destruct (IH st1 leaves1 Hi1 Hroom1 Hids Hnd1) as (st' & leaves' & Hf & Hi' & Hroom' & Hnd' & Hin').
  exists st', leaves'. split_and!; [done..|]. intros x. rewrite Hin', Hin1, Hall. tauto.
Qed.

Lemma ListLeafPaths_step st k p h : p ≠ [] → tree_rep k st h →
  ∃ st' leaves, ListLeafPaths p st = (st', Ok leaves) ∧ tree_rep k st' h ∧ NoDup leaves ∧
    ∀ x, x ∈ leaves ↔ x ≠ [] ∧ h (join_path p ++ [dot] ++ x) ≠ [].
Proof.
  intros Hp (vm & al & il & Hi & Hroom & Hh).
  destruct (ids_fold st vm al il k (join_path p ++ [dot]) (attribute_ids st) [] Hi Hroom)
    as (st' & leaves & Hf & Hi' & Hroom' & Hnd & Hin).
  - apply Forall_forall. intros id Hid. unfold attribute_ids in Hid.
    rewrite (GetAttributeCount_rep _ _ (ti_attrs _ _ _ _ Hi)) in Hid. apply elem_of_seqZ in Hid. lia.
  - constructor.
  - exists st', leaves. split_and!; [|by exists vm, al, il|done|].
    + unfold ListLeafPaths. destruct p; [done|]. by rewrite Hf.
    + intros x. rewrite Hin, <- app_assoc. split.
      * intros [Hx|(Hx & aid & a & _ & Hl)]; [by apply not_elem_of_nil in Hx|].
        split; [done|]. by apply (proj2 Hh _ aid a).
      * intros [Hx Hne]. right. split; [done|].
        destruct (proj1 Hh (join_path p ++ [dot] ++ x)) as [(aid & a & c & Hl & _)|[_ ?]]; [|done].
        exists aid, a. split; [|done]. unfold attribute_ids.
        rewrite (GetAttributeCount_rep _ _ (ti_attrs _ _ _ _ Hi)). apply elem_of_seqZ.
        pose proof (attr_at_range _ _ _ (proj1 Hl)). lia.
Qed.

(** *** Sequences of operations *)

Inductive top :=
  | TWrite (now : Z) (p : path) (v : Value) (author : Z)
  | TRead (p : path)
  | TReadAt (p : path) (timestamp : Z)
  | TList (p : path).

Inductive answer :=
  | AChanged (changed : bool)
  | AValue (v : Value)
  | ALeaves (leaves : list (list byte))
  | AFailed
  | ARunning.

Definition value_answer (r : res Value) : answer :=
  match r with Ok v => AValue v | _ => AFailed end.

(** The code's answer to an operation. *)
Definition run_top (o : top) (st : StorageTree I) : StorageTree I * answer :=
  match o with
  | TWrite now p v author =>
      let '(st, r) := WriteReportingChange now p v author st in
      (st, match r with Ok changed => AChanged changed | _ => AFailed end)
  | TRead p => let '(st, r) := Read p st in (st, value_answer r)
  | TReadAt p t =>
      match ReadAt (walk_fuel st) p t st with
      | Some (st, r) => (st, value_answer r)
      | None => (st, ARunning)
      end
  | TList p =>
      let '(st, r) := ListLeafPaths p st in
      (st, match r with Ok leaves => ALeaves leaves | _ => AFailed end)
  end.

(** The answers the histories allow. *)
Inductive spec_top (h : histories) : top → answer → histories → Prop :=
  | spec_write now p v author : p ≠ [] →
      spec_top h (TWrite now p v author) (AChanged (push now p v author h).2) (push now p v author h).1
  | spec_read p : p ≠ [] →
      spec_top h (TRead p) (from_option (AValue ∘ v_value) AFailed (head (h (join_path p)))) h
  | spec_read_at p t : p ≠ [] →
      spec_top h (TReadAt p t) (from_option (AValue ∘ v_value) AFailed (at_time t (h (join_path p)))) h
  | spec_list p leaves : p ≠ [] → NoDup leaves →
      (∀ x, x ∈ leaves ↔ x ≠ [] ∧ h (join_path p ++ [dot] ++ x) ≠ []) →
      spec_top h (TList p) (ALeaves leaves) h
  | spec_empty_write now v author : spec_top h (TWrite now [] v author) AFailed h
  | spec_empty_read : spec_top h (TRead []) AFailed h
  | spec_empty_read_at t : spec_top h (TReadAt [] t) AFailed h
  | spec_empty_list : spec_top h (TList []) AFailed h.

Definition top_ok (o : top) : Prop :=
  match o with
  | TWrite now p v author =>
      path_ok p ∧ P v ∧ value_ok v ∧ is_i64 now ∧ is_u64 author
  | TRead p | TReadAt p _ => path_ok p
  | TList _ => True
  end.

Definition top_cost (o : top) : Z :=
  match o with
  | TWrite _ p v _ => write_cost p v
  | TRead p | TReadAt p _ => path_cost p
  | TList _ => 0
  end.

Lemma tree_rep_weaken k k' st h : k' ≤ k → tree_rep k st h → tree_rep k' st h.
Proof.
  intros Hk (vm & al & il & Hi & Hroom & Hh). exists vm, al, il.
  split_and!; [done|by eapply tree_room_weaken|done].
Qed.

Lemma top_cost_nonneg o : 0 ≤ top_cost o.
Proof.
  destruct o as [now p v a|p|p t|p]; cbn [top_cost]; try pose proof (path_cost_pos p); [|lia..].
  unfold write_cost. cbn [op_cost]. pose proof (len_serializeValue_pos v). lia.
Qed.

Lemma top_step o st k h : top_ok o → 0 ≤ k → tree_rep (top_cost o + k) st h →
  ∃ st' r h', run_top o st = (st', r) ∧ spec_top h o r h' ∧ tree_rep k st' h'.
Proof.
  intros Hok Hk Hrep. pose proof (top_cost_nonneg o) as Hc.
  assert (Hw : tree_rep k st h) by (apply (tree_rep_weaken (top_cost o + k)); [lia|done]).
  destruct o as [now p v a|p|p t|p]; cbn [top_ok top_cost run_top] in *;
    (destruct (decide (p = [])) as [->|Hp]; [eexists st, _, h; by split_and!; [..|constructor|]|]).
  - destruct Hok as (Hp1 & HP & Hv & Hn & Ha).
    destruct (Write_step st k now p v a h) as (st' & -> & Hr); [done..|].
    eexists st', _, _. split_and!; [done|by constructor|done].
  - destruct (Read_step st k p h) as (st' & r & -> & Hr & Hres); [done..|].
    eexists st', _, h. split_and!; [done| |done].
    destruct (head (h (join_path p))) as [ver|] eqn:E.
    + subst r. cbn [value_answer]. pose proof (spec_read h p Hp) as Hs. by rewrite E in Hs.
    + pose proof (spec_read h p Hp) as Hs. rewrite E in Hs. by destruct r.
  - destruct (ReadAt_step st k p t h) as (st' & r & -> & Hr & Hres); [done..|].
    eexists st', _, h. split_and!; [done| |done].
    pose proof (spec_read_at h p t Hp) as Hs.
    destruct (at_time t (h (join_path p))) as [ver|]; [by subst r|by destruct r].
  - destruct (ListLeafPaths_step st k p h) as (st' & leaves & -> & Hr & Hnd & Hin); [done..|].
    eexists st', _, h. split_and!; [done|by constructor|done].
Qed.

Fixpoint run_tops (ops : list top) (st : StorageTree I) : StorageTree I * list answer :=
  match ops with
  | [] => (st, [])
  | o :: ops => let '(st, r) := run_top o st in let '(st, rs) := run_tops ops st in (st, r :: rs)
  end.

Inductive spec_tops : histories → list top → list answer → histories → Prop :=
  | spec_tops_nil h : spec_tops h [] [] h
  | spec_tops_cons h o r h1 ops rs h2 :
      spec_top h o r h1 → spec_tops h1 ops rs h2 → spec_tops h (o :: ops) (r :: rs) h2.

Definition tops_cost (ops : list top) : Z := foldr (λ o c, top_cost o + c) 0 ops.

Lemma tops_cost_nonneg ops : 0 ≤ tops_cost ops.
Proof.
  induction ops as [|o ops IH]; [done|]. change (0 ≤ top_cost o + tops_cost ops).
  pose proof (top_cost_nonneg o). lia.
Qed.

Lemma tops_steps ops : ∀ st h, Forall top_ok ops → tree_rep (tops_cost ops) st h →
  ∃ st' rs h', run_tops ops st = (st', rs) ∧ spec_tops h ops rs h' ∧ tree_rep 0 st' h'.
Proof.
  induction ops as [|o ops IH]; intros st h Hok Hrep.
  { exists st, [], h. split_and!; [done|constructor|done]. }
  apply Forall_cons in Hok as [Ho Hok].
  destruct (top_step o st (tops_cost ops) h Ho (tops_cost_nonneg ops) Hrep)
    as (st1 & r & h1 & Hrun & Hs & Hrep1).
  destruct (IH st1 h1 Hok Hrep1) as (st2 & rs & h2 & Hrun2 & Hs2 & Hrep2).
  exists st2, (r :: rs), h2. cbn [run_tops]. rewrite Hrun, Hrun2.
  split_and!; [done|by econstructor|done].
Qed.

End Refinement.

(** ** A new database *)

Definition empty_directory : Directory :=
  {| dir_values := ∅; dir_large := []; dir_instances := []; dir_attributes := [] |}.

Definition new_tree : StorageTree HashIndex.HashIndex :=
  mkTree fresh (NewInstanceStore []) (NewAttributeStore []) (HashIndex.NewHashIndex 0).

Lemma new_tree_opens : NewStorageTree empty_directory = Ok new_tree.
Proof.
  unfold NewStorageTree, new_tree. cbn [dir_values dir_large dir_instances dir_attributes empty_directory].
  fold fresh. reflexivity.
Qed.

Lemma new_tree_rep P : tree_rep P (2 ^ 40) new_tree (λ _, []).
Proof.
  assert (Hattr : ∀ aid a, attr_at [] aid = Some a → False).
  { intros aid a (k & Hk & _)%attr_at_lookup. done. }
  assert (Hlab : ∀ s aid a, ¬ labelled ∅ [] s aid a) by (intros s aid a [Ha _]; by apply Hattr in Ha).
  destruct (HashIndex.NewHashIndex_spec 0) as [Hok Habs]; [done|].
  exists ∅, [], []. split_and!.
  - split; unfold new_tree; cbn [valueStore instanceStore attributeStore hashIndex].
    + exact fresh_rep.
    + intros id v n Hm. by rewrite lookup_empty in Hm.
    + by split.
    + by split.
    + intros k i Hk. done.
    + exact Hok.
    + intros lab aid. cbn [li_abs HashIndex_LabelIndex]. rewrite Habs, lookup_empty.
      split; [done|]. by intros (a & Ha%Hattr & _).
    + intros aid a Ha. by apply Hattr in Ha.
    + intros aid a Ha. by apply Hattr in Ha.
  - split; [split|done].
    + intros t Ht. cbn [new_tree valueStore].
      assert (t = 0 ∨ t = 1 ∨ t = 2 ∨ t = 3) as [->|[->|[->| ->]]] by lia; by vm_compute.
    + intros id v n Hm. by rewrite lookup_empty in Hm.
  - split; [|intros s aid a Hl; by apply Hlab in Hl]. intros s. right. split; [|done]. apply Hlab.
Qed.

(** ** A reopened database *)

Lemma NewStorageTree_close P st vm al il :
  tree_inv P st vm al il →
  ∃ hi, NewStorageTree (Close st) =
      Ok (mkTree (reopened (valueStore st)) (instanceStore st) (attributeStore st) hi) ∧
    HashIndex.ok hi ∧ HashIndex.abs hi = HashIndex.label_map al.
Proof.
  intros Hi. unfold NewStorageTree, Close. cbn [dir_values dir_large dir_instances dir_attributes].
  rewrite (NewAttributeStore_rep _ _ (ti_attrs _ _ _ _ _ Hi)).
  destruct (HashIndex.NewHashIndex_spec 0) as [Hok0 _]; [done|].
  destruct (HashIndex.RebuildFromAttributeStore_spec _ _ _ (ti_attrs _ _ _ _ _ Hi) Hok0)
    as (hi & -> & Hok & Habs).
  exists hi. split_and!; [|done..]. f_equal.
  assert (NewInstanceStore (is_file (instanceStore st)) = instanceStore st) as ->; [|done].
  apply NewInstanceStore_rep with il, (ti_insts _ _ _ _ _ Hi).
Qed.

(** A label whose record does not fit tier 0 is not found after a restart. *)
Lemma reopened_not_found P st vm al il s :
  (∀ v w, P v → P w → hashValue v = hashValue w → v = w) →
  tree_inv P st vm al il → P (text s) → is_u32 (len s) → 58 < len s →
  room (valueStore st) (value_tier (text s)) (len (serializeValue (text s))) →
  ∀ hi, HashIndex.ok hi → HashIndex.abs hi = HashIndex.label_map al →
  ∃ vs2 lab, let st0 := mkTree (reopened (valueStore st)) (instanceStore st) (attributeStore st) hi in
    findValueIDForString s st0 =
      (mkTree vs2 (instanceStore st) (attributeStore st) hi, Ok lab) ∧ lab ≠ 0 ∧
    HashIndex.Lookup hi lab = None.
Proof.
  intros Hinj Hi HP Hs Hlen Hroom hi Hok Habs.
  assert (Hlen' : len (serializeValue (text s)) = 6 + len s) by (rewrite len_serializeValue; done).
  assert (Htier : value_tier (text s) ≠ 0).
  { unfold value_tier, determineTier, Tier0MaxSize. rewrite Hlen', (proj2 (Z.leb_gt _ _)) by lia.
    repeat case_match; lia. }
  assert (Hlook : ∀ lab, (∀ aid a, attr_at al aid = Some a → AttributeStore.LabelValueID a ≠ lab) →
    HashIndex.Lookup hi lab = None).
  { intros lab Hno. rewrite HashIndex.Lookup_abs, Habs by done.
    destruct (HashIndex.label_map al !! lab) as [aid|] eqn:Hm; [|done].
    apply HashIndex.label_map_lookup in Hm as [(a & Ha & Hla) _]; [by destruct (Hno aid a Ha)|].
    apply (ar_ids _ _ (ti_attrs _ _ _ _ _ Hi)). }
  unfold findValueIDForString, FindValueIDForData. cbn [valueStore].
  change {| TypeTag := TypeText; Data := s |} with (text s).
  destruct (hashToValueID (reopened (valueStore st)) !! hashValue (text s)) as [lid|] eqn:Hh.
  - destruct (reopened_hash _ _ _ _ (ti_values _ _ _ _ _ Hi) Hh) as (Hrg & Ht0 & Hlive).
    cbn [from_option id]. rewrite (proj2 (Z.eqb_neq _ _)) by lia. cbn [negb].
    eexists _, lid. split_and!; [done|lia|]. apply Hlook. intros aid a Ha Hla.
    destruct (ti_label _ _ _ _ _ Hi aid a Ha) as [s' Hs']. rewrite Hla in Hs'.
    destruct Hs' as [n Hn]. pose proof (Hlive _ _ Hn) as Heq.
    apply Hinj in Heq; [|by eapply (ti_play _ _ _ _ _ Hi)|done]. injection Heq as ->.
    pose proof (sr_home _ _ (ti_values _ _ _ _ _ Hi) lid (text s) n Hn). congruence.
  - cbn [from_option Z.eqb negb].
    destruct (reopened_write_new _ _ _ (ti_values _ _ _ _ _ Hi) Hh Hroom) as (vs2 & lab & Hw & Hn & Hne).
    exists vs2, lab. split_and!; [|done|].
    + apply op_wrap_ok. unfold on_values. by rewrite (op_zoom_ok _ _ _ _ vs2 lab) by done.
    + apply Hlook. intros aid a Ha Hla.
      destruct (ti_label _ _ _ _ _ Hi aid a Ha) as [s' [n Hs']]. congruence.
Qed.

(** ** Properties *)

(** C1: the tree implements temporal paths.  From any represented tree, any
    sequence of writes, reads, reads in the past and listings with room in the
    files answers exactly as the histories of the dot-joined paths say, and
    always answers: a write pushes a version (value, time, author) on its own
    path only and reports a change, unless the value is the current one, when
    nothing changes; a read gives the newest version, a read in the past the
    newest version not after that time, and both fail when there is none; a
    listing gives each non-empty suffix of a written path under the prefix
    once; an empty path fails and changes nothing.  [P] are the values in
    play, which must have distinct hashes; the index is any [LabelIndex]. *)
Theorem tree_implements_histories {I} `{LabelIndex I} (P : Value → Prop) ops
    (st : StorageTree I) h :
  (∀ v w, P v → P w → hashValue v = hashValue w → v = w) →
  Forall (top_ok P) ops → tree_rep P (tops_cost ops) st h →
  ∃ st' rs h', run_tops ops st = (st', rs) ∧ spec_tops h ops rs h' ∧ tree_rep P 0 st' h'.
Proof. intros Hinj Hok Hrep. by apply (tops_steps P Hinj). Qed.

Definition demo_path : path := [b "a"; b "b"].
Definition demo_ops : list top :=
  [TWrite 10 demo_path (text (b "x")) 7; TWrite 20 demo_path (text (b "y")) 7;
   TWrite 30 demo_path (text (b "y")) 7; TRead demo_path; TReadAt demo_path 15;
   TReadAt demo_path 5; TRead [b "z"]; TList [b "a"]].
Definition demo_values (v : Value) : Prop :=
  v ∈ [text (b "x"); text (b "y"); text (b "a.b"); text (b "z")].

Lemma demo_distinct v w : demo_values v → demo_values w → hashValue v = hashValue w → v = w.
Proof. apply distinct_hashes_inj. refine (bool_decide_unpack _ _). vm_compute. exact Logic.I. Qed.

Lemma tree_implements_histories_witness :
  ∃ st' rs h', run_tops demo_ops new_tree = (st', rs) ∧ spec_tops (λ _, []) demo_ops rs h' ∧
    rs = [AChanged true; AChanged true; AChanged false; AValue (text (b "y"));
          AValue (text (b "x")); AFailed; AFailed; ALeaves [b "b"]].
Proof.
  destruct (tree_implements_histories demo_values demo_ops new_tree (λ _, []) demo_distinct)
    as (st' & rs & h' & H1 & H2 & _).
  - repeat apply Forall_cons_2; try apply Forall_nil_2; cbn [top_ok]; unfold path_ok;
      repeat match goal with |- _ ∧ _ => split end; try exact Logic.I;
      unfold demo_values; refine (bool_decide_unpack _ _); vm_compute; exact Logic.I.
  - eapply tree_rep_weaken; [|apply new_tree_rep]. by vm_compute.
  - exists st', rs, h'. split; [exact H1|]. split; [exact H2|].
    assert (E : rs = (run_tops demo_ops new_tree).2) by (rewrite H1; reflexivity).
    rewrite E. vm_compute. reflexivity.
Defined.

(** C5: long paths are lost on restart.  Closing a tree and opening its
    directory always succeeds, with the same instances and attributes; but a
    path of more than 58 bytes that was written (its history is not empty)
    reads as "path not found", because its label is outside the range of value
    IDs the hash map is rebuilt from. *)
Theorem restart_loses_long_paths P st k h p :
  (∀ v w, P v → P w → hashValue v = hashValue w → v = w) →
  tree_rep P k st h → path_cost p ≤ k →
  p ≠ [] → path_ok P p → 58 < len (join_path p) → h (join_path p) ≠ [] →
  ∃ st', NewStorageTree (Close st) = Ok st' ∧
    instanceStore st' = instanceStore st ∧ attributeStore st' = attributeStore st ∧
    (∃ v, (Read p st).2 = Ok v) ∧ (Read p st').2 = Err "path not found".
Proof.
  intros Hinj Hrep Hk Hp [HP Hs] Hlen Hwritten.
  destruct (Read_step P Hinj st (k - path_cost p) p h) as (st1 & r & Hrd & _ & Hr);
    [done|done|lia|by rewrite Zplus_minus|].
  destruct Hrep as (vm & al & il & Hi & Hroom & _).
  destruct (NewStorageTree_close P st vm al il Hi) as (hi & Hopen & Hok & Habs).
  assert (Hspace : room (valueStore st) (value_tier (text (join_path p)))
    (len (serializeValue (text (join_path p))))).
  { destruct Hroom as ([Hc _] & _). unfold room.
    pose proof (Hc (value_tier (text (join_path p))) (determineTier_range _)).
    unfold path_cost in Hk. cbn [op_cost] in Hk. lia. }
  destruct (reopened_not_found P st vm al il (join_path p) Hinj Hi HP Hs Hlen Hspace hi Hok Habs)
    as (vs2 & lab & Hf & Hne & Hno).
  eexists. split; [exact Hopen|]. split; [done|]. split; [done|]. split.
  { rewrite Hrd. destruct (h (join_path p)) as [|ver l]; [done|]. cbn in Hr. subst r. by eexists. }
  set (st0 := mkTree _ _ _ hi) in *.
  assert (Hfind : findAttributeForPath p st0 =
    (mkTree vs2 (instanceStore st) (attributeStore st) hi, Ok 0)).
  { unfold findAttributeForPath. destruct p as [|c p]; [done|].
    erewrite op_bind_ok by (apply op_try_ok; exact Hf). cbv beta iota.
    rewrite (proj2 (Z.eqb_neq _ _)) by done. unfold from_state.
    cbn [hashIndex li_lookup HashIndex_LabelIndex]. by rewrite Hno. }
  unfold Read. erewrite op_bind_err; [done|]. unfold attribute_of. destruct p as [|c p]; [done|].
  erewrite op_bind_ok by (apply op_wrap_ok; exact Hfind). done.
Qed.

Definition long_path : path := [replicate 60 Byte.x61].
Definition long_values (v : Value) : Prop := v ∈ [text (b "x"); text (replicate 60 Byte.x61)].

Lemma long_distinct v w : long_values v → long_values w → hashValue v = hashValue w → v = w.
Proof. apply distinct_hashes_inj. refine (bool_decide_unpack _ _). vm_compute. exact Logic.I. Qed.

Lemma restart_loses_long_paths_witness :
  ∃ st st', WriteReportingChange 10 long_path (text (b "x")) 7 new_tree = (st, Ok true) ∧
    (Read long_path st).2 = Ok (text (b "x")) ∧
    NewStorageTree (Close st) = Ok st' ∧ (Read long_path st').2 = Err "path not found".
Proof.
  assert (Hpath : path_ok long_values long_path) by (split; [right; left|by vm_compute]).
  destruct (Write_step long_values long_distinct new_tree 1000 10 long_path (text (b "x")) 7 (λ _, []))
    as (st & Hw & Hrep); [discriminate|exact Hpath|left|by vm_compute|by vm_compute|by vm_compute|lia| |].
  - eapply tree_rep_weaken; [|apply new_tree_rep]. by vm_compute.
  - destruct (restart_loses_long_paths long_values st 1000 _ long_path long_distinct Hrep)
      as (st' & H1 & _ & _ & _ & H2);
      [by vm_compute|discriminate|exact Hpath|by vm_compute|by vm_compute|].
    exists st, st'. split; [exact Hw|]. split; [|by split].
    assert (E : st = (WriteReportingChange 10 long_path (text (b "x")) 7 new_tree).1)
      by (rewrite Hw; reflexivity).
    rewrite E. vm_compute. reflexivity.
Defined.
