(* ===== verification/Wire.v ===== *)
(** * The wire format (internal/protocol: encode.go, decode.go)

    The message frame, the encoders and readers of tagged fields, and the field
    loop every payload decoder is an instance of.  A [bytes.Reader] is the
    bytes still to read; a reader returns the value and what is left.  The
    payloads themselves are in [Messages]. *)
From S2P Require Import Prelude GoHash ValueCodec.

(** ** Readers *)

Definition Reader (A : Type) : Type := list byte → res (A * list byte).

#[global] Instance reader_ret : MRet Reader := λ A a bs, Ok (a, bs).
#[global] Instance reader_bind : MBind Reader := λ A B f m bs,
  match m bs with
  | Ok (a, bs) => f a bs
  | Err e => Err e
  | Panic e => Panic e
  end.
#[global] Instance reader_fmap : FMap Reader := λ A B f m bs,
  match m bs with
  | Ok (a, bs) => Ok (f a, bs)
  | Err e => Err e
  | Panic e => Panic e
  end.

Definition reader_wrap {A} (ctx : string) (m : Reader A) : Reader A := λ bs, wrap_res ctx (m bs).
Definition reader_err {A} (msg : string) : Reader A := λ _, Err msg.

Definition ReadByte : Reader byte := λ bs,
  match bs with x :: bs => Ok (x, bs) | [] => Err "EOF" end.

(** [binary.Read] of a fixed-size big-endian integer. *)
Definition read_be (n : nat) : Reader Z := λ bs,
  if (length bs <? n)%nat then Err "EOF" else Ok (unbe (take n bs), drop n bs).
Definition read_int64 : Reader Z := i64 <$> read_be 8.
Definition read_int32 : Reader Z := i32 <$> read_be 4.

(** [data := make([]byte, n); k, err := reader.Read(data); err != nil || k != n]:
    a [bytes.Reader] with nothing left gives EOF even to an empty buffer. *)
Definition read_data (n : Z) (msg : string) : Reader (list byte) := λ bs,
  match bs with
  | [] => Err msg
  | _ => if len bs <? n then Err msg else Ok (take (Z.to_nat n) bs, drop (Z.to_nat n) bs)
  end.

Definition readString : Reader (list byte) :=
  length ← reader_wrap "failed to read string length" (read_be 4);
  read_data length "failed to read string data".

Definition readBool : Reader bool :=
  (λ x, negb (bool_decide (x = Byte.x00))) <$> reader_wrap "failed to read bool byte" ReadByte.

(** [success, err := reader.ReadByte()], the inline form of [readBool]. *)
Definition read_flag : Reader bool := (λ x, negb (bool_decide (x = Byte.x00))) <$> ReadByte.

Fixpoint read_strings (n : nat) : Reader (list (list byte)) :=
  match n with
  | O => mret []
  | S n =>
      str ← reader_wrap "failed to read string" readString;
      result ← read_strings n;
      mret (str :: result)
  end.

Definition readStringSlice : Reader (list (list byte)) :=
  length ← reader_wrap "failed to read slice length" (read_be 4);
  read_strings (Z.to_nat length).

Definition readValue : Reader Value :=
  typeTag ← reader_wrap "failed to read value type tag" ReadByte;
  length ← reader_wrap "failed to read value data length" (read_be 4);
  data ← read_data length "failed to read value data";
  mret {| TypeTag := typeTag; Data := data |}.

Definition byte_z (x : byte) : Z := byte.unsigned x.

(** [length > uint32(reader.Len())], then [reader.Seek(length, io.SeekCurrent)]. *)
Definition skip_data (length : Z) : Reader unit := λ bs,
  if u32 (len bs) <? length then Err "invalid field length"
  else Ok (tt, drop (Z.to_nat length) bs).

Definition skipField (tag : byte) : Reader unit :=
  if (0x01 <=? byte_z tag) && (byte_z tag <=? 0x10) then
    length ← reader_wrap "failed to read field length" (read_be 4);
    skip_data length
  else (λ _, tt) <$> ReadByte.

(** The payload decoders' loop.  [field tag] is the case of the [switch] on
    [tag], an update of the message; [None] is the default case.  [fuel]
    bounds the iterations: [None] means they were not enough. *)
Fixpoint decode_fields {M} (field : byte → option (Reader (M → M))) (fuel : nat) (msg : M)
  (bs : list byte) : option (res M) :=
  match bs with
  | [] => Some (Ok msg)
  | tag :: bs =>
      match fuel with
      | O => None
      | S fuel =>
          let step : Reader (M → M) :=
            match field tag with
            | Some r => r
            | None => (λ _ m, m) <$> reader_wrap "failed to skip unknown field" (skipField tag)
            end in
          match step bs with
          | Ok (f, bs) => decode_fields field fuel (f msg) bs
          | Err e => Some (Err e)
          | Panic e => Some (Panic e)
          end
      end
  end.

(** Each iteration reads at least its tag: the length of the payload is fuel enough. *)
Definition decode_payload {M} (field : byte → option (Reader (M → M))) (msg : M)
  (payload : list byte) : option (res M) := decode_fields field (length payload) msg payload.

(** The decoders of a payload that is one field. *)
Definition decode_single {A} (r : Reader A) (payload : list byte) (expectedTag : byte) : res A :=
  match wrap_res "failed to read tag" (ReadByte payload) with
  | Ok (tag, bs) =>
      if negb (bool_decide (tag = expectedTag)) then Err "unexpected tag"
      else fst <$> r bs
  | Err e => Err e
  | Panic e => Panic e
  end.
Definition decodeStringSlice := decode_single readStringSlice.
Definition decodeValue := decode_single readValue.

(** ** Encoders of tagged fields

    [binary.Write] to a [bytes.Buffer] does not fail. *)

Definition encode_len (n : Z) : list byte := be 4 (u32 n).
Definition enc_string (s : list byte) : list byte := encode_len (len s) ++ s.

Definition encodeStringSlice (tag : byte) (slice : list (list byte)) : list byte :=
  [tag] ++ encode_len (len slice) ++ (slice ≫= enc_string).
Definition encodeString (tag : byte) (s : list byte) : list byte := [tag] ++ enc_string s.
Definition encodeValue (tag : byte) (value : Value) : list byte :=
  [tag] ++ [TypeTag value] ++ encode_len (len (Data value)) ++ Data value.
Definition encodeBool (tag : byte) (v : bool) : list byte :=
  [tag] ++ [if v then Byte.x01 else Byte.x00].
Definition encodeUint64 (tag : byte) (val : Z) : list byte := [tag] ++ be 8 val.
Definition encodeInt64 (tag : byte) (val : Z) : list byte := [tag] ++ be 8 (u64 val).
Definition encodeUint32 (tag : byte) (val : Z) : list byte := [tag] ++ be 4 val.
Definition encodeInt32 (tag : byte) (val : Z) : list byte := [tag] ++ be 4 (u32 val).

(** A field written only when the string is not empty. *)
Definition encode_nonempty (tag : byte) (s : list byte) : list byte :=
  match s with [] => [] | _ => encodeString tag s end.

(** ** The frame *)

Record Message := mkMessage {
  Version : Z;
  Type_ : Z;
  Sequence : Z;
  PayloadLength : Z;
  Payload : list byte;
  Checksum : Z
}.

Definition protocol_version : Z := 0x01.

Definition EncodeMessage (msg : Message) : res (list byte) :=
  if negb (len (Payload msg) =? PayloadLength msg) then Err "payload length mismatch" else
  Ok (be 1 (Version msg) ++ be 1 (Type_ msg) ++ be 4 (Sequence msg) ++ be 4 (PayloadLength msg) ++
      Payload msg ++ be 4 (Checksum msg)).

Definition CreateMessage (msgType sequence : Z) (payload : list byte) : Message :=
  {| Version := protocol_version; Type_ := msgType; Sequence := sequence;
     PayloadLength := u32 (len payload); Payload := payload; Checksum := crc32 payload |}.

Definition decode_frame (data_len : Z) : Reader Message :=
  version ← reader_wrap "failed to decode version" (read_be 1);
  type ← reader_wrap "failed to decode type" (read_be 1);
  sequence ← reader_wrap "failed to decode sequence" (read_be 4);
  payloadLength ← reader_wrap "failed to decode payload length" (read_be 4);
  if negb (data_len =? 14 + payloadLength) then reader_err "message size mismatch" else
  payload ← read_data payloadLength "failed to read payload";
  checksum ← reader_wrap "failed to decode checksum" (read_be 4);
  if negb (checksum =? crc32 payload) then reader_err "checksum mismatch" else
  if negb (version =? protocol_version) then reader_err "unsupported protocol version" else
  mret {| Version := version; Type_ := type; Sequence := sequence;
          PayloadLength := payloadLength; Payload := payload; Checksum := checksum |}.

Definition DecodeMessage (data : list byte) : res Message :=
  if len data <? 14 then Err "message too short" else fst <$> decode_frame (len data) data.

(** ** Lemmas: readers on what the encoders write *)

Lemma reader_bind_ok {A B} (m : Reader A) (f : A → Reader B) bs a rest :
  m bs = Ok (a, rest) → (m ≫= f) bs = f a rest.
Proof. intros H. unfold mbind, reader_bind. by rewrite H. Qed.
Lemma reader_wrap_ok {A} ctx (m : Reader A) bs a rest :
  m bs = Ok (a, rest) → reader_wrap ctx m bs = Ok (a, rest).
Proof. intros H. unfold reader_wrap. by rewrite H. Qed.
Lemma reader_fmap_ok {A B} (g : A → B) (m : Reader A) bs a rest :
  m bs = Ok (a, rest) → (g <$> m) bs = Ok (g a, rest).
Proof. intros H. unfold fmap, reader_fmap. by rewrite H. Qed.

Lemma read_be_be n z rest : read_be n (be n z ++ rest) = Ok (z mod 2 ^ (Z.of_nat n * 8), rest).
Proof.
  unfold read_be. rewrite length_app, length_be, (proj2 (Nat.ltb_ge _ _)) by lia.
  by rewrite take_be_app, drop_be_app, unbe_be.
Qed.

Lemma read_be_small n z rest : 0 ≤ z < 2 ^ (Z.of_nat n * 8) → read_be n (be n z ++ rest) = Ok (z, rest).
Proof. intros. by rewrite read_be_be, Z.mod_small. Qed.

Lemma read_u64_be z rest : is_u64 z → read_be 8 (be 8 z ++ rest) = Ok (z, rest).
Proof. intros. by apply read_be_small. Qed.
Lemma read_u32_be z rest : is_u32 z → read_be 4 (be 4 z ++ rest) = Ok (z, rest).
Proof. intros. by apply read_be_small. Qed.

Lemma read_int64_be z rest : is_i64 z → read_int64 (be 8 (u64 z) ++ rest) = Ok (z, rest).
Proof.
  intros. unfold read_int64. rewrite (reader_fmap_ok _ _ _ (u64 z) rest).
  - by rewrite i64_u64.
  - apply read_u64_be, u64_range.
Qed.

Lemma read_int32_be z rest : is_i32 z → read_int32 (be 4 (u32 z) ++ rest) = Ok (z, rest).
Proof.
  intros. unfold read_int32. rewrite (reader_fmap_ok _ _ _ (u32 z) rest).
  - by rewrite i32_u32.
  - apply read_be_small. apply Z.mod_pos_bound. lia.
Qed.

Lemma read_flag_bool (v : bool) rest : read_flag ([if v then Byte.x01 else Byte.x00] ++ rest) = Ok (v, rest).
Proof. by destruct v. Qed.
Lemma readBool_bool (v : bool) rest : readBool ([if v then Byte.x01 else Byte.x00] ++ rest) = Ok (v, rest).
Proof. by destruct v. Qed.

(** A string that is not the empty end of its payload. *)
Definition not_at_end (s rest : list byte) : Prop := s ≠ [] ∨ rest ≠ [].

Lemma read_data_app s rest msg : not_at_end s rest →
  read_data (len s) msg (s ++ rest) = Ok (s, rest).
Proof.
  intros Hne. unfold read_data. destruct (s ++ rest) as [|x l] eqn:E.
  { apply app_nil in E as [-> ->]. by destruct Hne. }
  rewrite <- E, len_app. pose proof (len_nonneg rest). rewrite (proj2 (Z.ltb_ge _ _)) by lia.
  unfold len. by rewrite Nat2Z.id, take_app_len, drop_app_len.
Qed.

Lemma readString_enc s rest : is_u32 (len s) → not_at_end s rest →
  readString (enc_string s ++ rest) = Ok (s, rest).
Proof.
  intros Hs Hne. unfold readString, enc_string, encode_len. rewrite u32_small by done.
  rewrite <- app_assoc.
  erewrite reader_bind_ok by by apply reader_wrap_ok, read_u32_be. by apply read_data_app.
Qed.

Lemma readString_enc_end : ∃ e, readString (enc_string []) = Err e.
Proof. eexists. reflexivity. Qed.

Lemma readValue_enc v rest : is_u32 (len (Data v)) → not_at_end (Data v) rest →
  readValue ([TypeTag v] ++ encode_len (len (Data v)) ++ Data v ++ rest) = Ok (v, rest).
Proof.
  intros Hv Hne. unfold readValue, encode_len. rewrite u32_small by done.
  erewrite reader_bind_ok by by apply reader_wrap_ok.
  erewrite reader_bind_ok by by apply reader_wrap_ok, read_u32_be.
  erewrite reader_bind_ok by by apply read_data_app. by destruct v.
Qed.

(** All the strings fit, and the last is not the empty end of the payload. *)
Definition strings_ok (l : list (list byte)) (rest : list byte) : Prop :=
  is_u32 (len l) ∧ Forall (λ s, is_u32 (len s)) l ∧ (rest ≠ [] ∨ last l ≠ Some []).

Lemma enc_string_nonnil s rest : enc_string s ++ rest ≠ [].
Proof.
  intros E. apply (f_equal length) in E. unfold enc_string, encode_len in E.
  rewrite !length_app, length_be in E. simpl in E. lia.
Qed.

Lemma read_strings_enc l rest : Forall (λ s, is_u32 (len s)) l → rest ≠ [] ∨ last l ≠ Some [] →
  read_strings (length l) ((l ≫= enc_string) ++ rest) = Ok (l, rest).
Proof.
  intros Hl Hend. induction Hl as [|s l Hs _ IH]; [done|].
  change ((s :: l) ≫= enc_string) with (enc_string s ++ (l ≫= enc_string)).
  rewrite <- app_assoc. cbn [length read_strings].
  assert (Hne : not_at_end s ((l ≫= enc_string) ++ rest)).
  { destruct l as [|s' l].
    - destruct Hend as [?|Hlast]; [by right|]. left. intros ->. by destruct Hlast.
    - right. change ((s' :: l) ≫= enc_string) with (enc_string s' ++ (l ≫= enc_string)).
      rewrite <- app_assoc. apply enc_string_nonnil. }
  erewrite reader_bind_ok by by apply reader_wrap_ok, readString_enc.
  erewrite reader_bind_ok; [done|]. apply IH. destruct l; [|done].
  destruct Hend; [by left|by right].
Qed.

Lemma readStringSlice_enc l rest : strings_ok l rest →
  readStringSlice (encode_len (len l) ++ (l ≫= enc_string) ++ rest) = Ok (l, rest).
Proof.
  intros (Hn & Hl & Hend). unfold readStringSlice, encode_len. rewrite u32_small by done.
  erewrite reader_bind_ok by by apply reader_wrap_ok, read_u32_be.
  unfold len. rewrite Nat2Z.id. by apply read_strings_enc.
Qed.

(** ** Lemmas: the field loop *)

Lemma decode_fields_step {M} (field : byte → option (Reader (M → M))) r f fuel msg tag bs rest :
  field tag = Some r → r bs = Ok (f, rest) →
  decode_fields field (S fuel) msg (tag :: bs) = decode_fields field fuel (f msg) rest.
Proof. intros Hf Hr. cbn [decode_fields]. by rewrite Hf, Hr. Qed.

(** A reader leaves no more than it was given. *)
Definition shrinks {A} (r : Reader A) : Prop :=
  ∀ bs, match r bs with
        | Ok (_, rest) => (length rest ≤ length bs)%nat
        | Err _ => True
        | Panic _ => False
        end.

Lemma shrinks_ret {A} (a : A) : shrinks (mret a).
Proof. intros bs. cbn. lia. Qed.
Lemma shrinks_bind {A B} (m : Reader A) (f : A → Reader B) :
  shrinks m → (∀ a, shrinks (f a)) → shrinks (m ≫= f).
Proof.
  intros Hm Hf bs. unfold mbind, reader_bind. specialize (Hm bs).
  destruct (m bs) as [[a rest]| |]; [|done..]. specialize (Hf a rest).
  destruct (f a rest) as [[c rest']| |]; [lia|done..].
Qed.
Lemma shrinks_fmap {A B} (g : A → B) (m : Reader A) : shrinks m → shrinks (g <$> m).
Proof.
  intros Hm bs. unfold fmap, reader_fmap. specialize (Hm bs). by destruct (m bs) as [[a rest]| |].
Qed.
Lemma shrinks_wrap {A} ctx (m : Reader A) : shrinks m → shrinks (reader_wrap ctx m).
Proof.
  intros Hm bs. unfold reader_wrap. specialize (Hm bs). by destruct (m bs) as [[a rest]| |].
Qed.
Lemma shrinks_ReadByte : shrinks ReadByte.
Proof. intros [|x bs]; cbn; [done|lia]. Qed.
Lemma shrinks_read_be n : shrinks (read_be n).
Proof. intros bs. unfold read_be. destruct (length bs <? n)%nat; [done|]. rewrite length_drop. lia. Qed.
Lemma shrinks_read_data n msg : shrinks (read_data n msg).
Proof.
  intros [|x bs]; unfold read_data; [done|].
  destruct (len (x :: bs) <? n); [done|]. rewrite length_drop. lia.
Qed.

#[export] Hint Resolve shrinks_ret shrinks_bind shrinks_fmap shrinks_wrap shrinks_ReadByte
  shrinks_read_be shrinks_read_data : amorph.

Lemma shrinks_readString : shrinks readString.
Proof. unfold readString. auto with amorph. Qed.
Lemma shrinks_readBool : shrinks readBool.
Proof. unfold readBool. auto with amorph. Qed.
Lemma shrinks_read_flag : shrinks read_flag.
Proof. unfold read_flag. auto with amorph. Qed.
Lemma shrinks_read_int64 : shrinks read_int64.
Proof. unfold read_int64. auto with amorph. Qed.
Lemma shrinks_read_int32 : shrinks read_int32.
Proof. unfold read_int32. auto with amorph. Qed.
Lemma shrinks_readValue : shrinks readValue.
Proof. unfold readValue. auto 10 with amorph. Qed.
Lemma shrinks_read_strings n : shrinks (read_strings n).
Proof. induction n; cbn [read_strings]; auto 10 using shrinks_readString with amorph. Qed.
Lemma shrinks_readStringSlice : shrinks readStringSlice.
Proof. unfold readStringSlice. auto using shrinks_read_strings with amorph. Qed.

#[export] Hint Resolve shrinks_readString shrinks_readBool shrinks_read_flag shrinks_read_int64
  shrinks_read_int32 shrinks_readValue shrinks_readStringSlice : amorph.

Lemma shrinks_skipField tag : shrinks (skipField tag).
Proof.
  unfold skipField. destruct (_ && _); [|auto with amorph].
  apply shrinks_bind; [auto with amorph|]. intros n bs. unfold skip_data. destruct (_ <? _); [done|].
  rewrite length_drop. lia.
Qed.

(** Skipping a length-prefixed field with one of the first sixteen tags. *)
Lemma skipField_string tag s rest : 0x01 ≤ byte_z tag ≤ 0x10 → is_u32 (len (s ++ rest)) →
  skipField tag (enc_string s ++ rest) = Ok (tt, rest).
Proof.
  intros Ht Hl. unfold skipField. rewrite (proj2 (andb_true_iff _ _)) by (split; apply Z.leb_le; lia).
  unfold enc_string, encode_len. rewrite <- app_assoc. rewrite len_app in Hl.
  pose proof (len_nonneg s). pose proof (len_nonneg rest).
  assert (is_u32 (len s)) by (unfold is_u32 in *; lia). rewrite u32_small by done.
  erewrite reader_bind_ok by by apply reader_wrap_ok, read_u32_be.
  unfold skip_data. rewrite len_app, u32_small by done. rewrite (proj2 (Z.ltb_ge _ _)) by lia.
  unfold len. by rewrite Nat2Z.id, drop_app_len.
Qed.

(** Every payload decodes to a message or an error, within its length. *)
Lemma decode_payload_total {M} (field : byte → option (Reader (M → M))) msg payload :
  (∀ tag r, field tag = Some r → shrinks r) →
  ∃ r, decode_payload field msg payload = Some r ∧ (is_ok r = true ∨ is_err r = true).
Proof.
  intros Hf. unfold decode_payload.
  assert (Hgen : ∀ fuel bs msg, (length bs ≤ fuel)%nat →
    ∃ r, decode_fields field fuel msg bs = Some r ∧ (is_ok r = true ∨ is_err r = true)).
  { induction fuel as [|fuel IH]; intros [|tag bs] m Hl; cbn in Hl; try lia;
      [by exists (Ok m); auto..|].
    cbn [decode_fields]. set (step := match field tag with Some r => r | None => _ end).
    assert (Hs : shrinks step).
    { unfold step. destruct (field tag) eqn:E; [by eapply Hf|].
      auto using shrinks_skipField with amorph. }
    specialize (Hs bs). destruct (step bs) as [[f rest]|e|e]; [|by exists (Err e); auto|done].
    apply IH. lia. }
  by apply Hgen.
Qed.

(** ** Lemmas: frames *)

Lemma len_header v t s n : len (be 1 v ++ be 1 t ++ be 4 s ++ be 4 n) = 10.
Proof. lens. Qed.

Definition frame (v t s n : Z) (payload : list byte) (c : Z) : list byte :=
  be 1 v ++ be 1 t ++ be 4 s ++ be 4 n ++ payload ++ be 4 c.

Lemma len_frame v t s n p c : len (frame v t s n p c) = 14 + len p.
Proof. unfold frame. lens. Qed.

Definition is_u8 (z : Z) : Prop := 0 ≤ z < 2 ^ 8.

(** What decoding a frame of in-range fields comes down to: its checks. *)
Lemma DecodeMessage_frame v t s p c : is_u8 v → is_u8 t → is_u32 s → is_u32 (len p) → is_u32 c →
  DecodeMessage (frame v t s (len p) p c) =
    if negb (c =? crc32 p) then Err "checksum mismatch" else
    if negb (v =? protocol_version) then Err "unsupported protocol version" else
    Ok (mkMessage v t s (len p) p c).
Proof.
  intros Hv Ht Hs Hp Hc. unfold DecodeMessage. rewrite len_frame. pose proof (len_nonneg p).
  rewrite (proj2 (Z.ltb_ge _ _)) by lia. unfold frame, decode_frame.
  erewrite reader_bind_ok by by apply reader_wrap_ok, read_be_small.
  erewrite reader_bind_ok by by apply reader_wrap_ok, read_be_small.
  erewrite reader_bind_ok by by apply reader_wrap_ok, read_be_small.
  erewrite reader_bind_ok by by apply reader_wrap_ok, read_be_small.
  rewrite Z.eqb_refl. cbn [negb].
  assert (Hne : be 4 c ≠ []).
  { intros E. apply (f_equal length) in E. rewrite length_be in E. done. }
  erewrite reader_bind_ok by (apply read_data_app; by right).
  erewrite reader_bind_ok.
  2: { apply reader_wrap_ok. rewrite <- (app_nil_r (be 4 c)). by apply read_be_small. }
  destruct (c =? crc32 p); [|done]. cbn [negb]. by destruct (v =? protocol_version).
Qed.

(** Any byte string of at least ten bytes is a header and a rest. *)
Lemma read_be_inv n bs z rest : read_be n bs = Ok (z, rest) →
  bs = be n z ++ rest ∧ 0 ≤ z < 2 ^ (Z.of_nat n * 8).
Proof.
  unfold read_be. destruct (Nat.ltb_spec (length bs) n); [done|]. intros [= <- <-].
  assert (Hl : length (take n bs) = n) by (rewrite length_take; lia). split.
  - by rewrite be_unbe, take_drop.
  - pose proof (unbe_bound (take n bs)) as Hb. unfold len in Hb. rewrite Hl in Hb.
    by rewrite Z.mul_comm.
Qed.

Lemma reader_wrap_inv {A} ctx (m : Reader A) bs r : reader_wrap ctx m bs = Ok r → m bs = Ok r.
Proof. unfold reader_wrap. by destruct (m bs). Qed.

Lemma reader_bind_inv {A B} (m : Reader A) (f : A → Reader B) bs r :
  (m ≫= f) bs = Ok r → ∃ a rest, m bs = Ok (a, rest) ∧ f a rest = Ok r.
Proof. unfold mbind, reader_bind. destruct (m bs) as [[a rest]| |]; [|done..]. by exists a, rest. Qed.

Lemma read_data_inv n msg bs d rest : 0 ≤ n → read_data n msg bs = Ok (d, rest) →
  bs = d ++ rest ∧ len d = n.
Proof.
  intros Hn. unfold read_data. destruct bs as [|x bs]; [done|]. set (l := x :: bs).
  destruct (Z.ltb_spec (len l) n); [done|]. intros [= <- <-]. split; [by rewrite take_drop|].
  rewrite len_take. unfold len in *. lia.
Qed.

Lemma decode_frame_inv n bs m rest : decode_frame n bs = Ok (m, rest) →
  bs = frame (Version m) (Type_ m) (Sequence m) (PayloadLength m) (Payload m) (Checksum m) ++ rest ∧
  n = 14 + PayloadLength m ∧ PayloadLength m = len (Payload m) ∧ is_u32 (len (Payload m)) ∧
  is_u8 (Type_ m) ∧ is_u32 (Sequence m) ∧
  Version m = protocol_version ∧ Checksum m = crc32 (Payload m).
Proof.
  unfold decode_frame.
  intros (v & b1 & [-> Hv]%reader_wrap_inv%read_be_inv & H)%reader_bind_inv.
  apply reader_bind_inv in H as (t & b2 & [-> Ht]%reader_wrap_inv%read_be_inv & H).
  apply reader_bind_inv in H as (s & b3 & [-> Hs]%reader_wrap_inv%read_be_inv & H).
  apply reader_bind_inv in H as (k & b4 & [-> Hk]%reader_wrap_inv%read_be_inv & H).
  destruct (Z.eqb_spec n (14 + k)) as [Hn|]; [|done]. cbn [negb] in H.
  apply reader_bind_inv in H as (p & b5 & [-> Hp]%read_data_inv & H); [|lia].
  apply reader_bind_inv in H as (c & b6 & [-> Hc]%reader_wrap_inv%read_be_inv & H).
  destruct (Z.eqb_spec c (crc32 p)) as [Hcrc|]; [|done]. cbn [negb] in H.
  destruct (Z.eqb_spec v protocol_version) as [Hver|]; [|done]. injection H as <- <-.
  cbn [Version Type_ Sequence PayloadLength Payload Checksum]. unfold frame.
  split_and!; try done; rewrite <- ?app_assoc; try done; unfold is_u32; lia.
Qed.

Lemma shrinks_decode_frame n : shrinks (decode_frame n).
Proof.
  unfold decode_frame, reader_err.
  repeat first [apply shrinks_bind; [auto with amorph|intros] | case_goal; [by intros []|]
    | progress auto with amorph].
Qed.

Lemma crc32_u32 p : is_u32 (crc32 p).
Proof. apply crc32_range. Qed.

Lemma EncodeMessage_create t s p : is_u32 (len p) →
  EncodeMessage (CreateMessage t s p) = Ok (frame protocol_version t s (len p) p (crc32 p)).
Proof.
  intros Hp. unfold EncodeMessage, CreateMessage. cbn [Payload PayloadLength].
  by rewrite u32_small, Z.eqb_refl by done.
Qed.

(** ** Properties *)

(** C36: frames round-trip and are canonical.  The frame of a message made by
    [CreateMessage] decodes to that message; conversely the only byte string
    that decodes to a message is its encoding, and that message has the
    protocol's version, the exact payload length and the payload's checksum. *)
Theorem frame_roundtrip t s p bs m :
  is_u8 t → is_u32 s → is_u32 (len p) →
  (∃ data, EncodeMessage (CreateMessage t s p) = Ok data ∧
     DecodeMessage data = Ok (CreateMessage t s p)) ∧
  (DecodeMessage bs = Ok m →
     EncodeMessage m = Ok bs ∧ m = CreateMessage (Type_ m) (Sequence m) (Payload m)).
Proof.
  intros Ht Hs Hp. split.
  - rewrite EncodeMessage_create by done. eexists. split; [done|].
    rewrite DecodeMessage_frame by (done || apply crc32_u32). rewrite Z.eqb_refl. cbn [negb].
    unfold CreateMessage. by rewrite u32_small.
  - unfold DecodeMessage. destruct (len bs <? 14); [done|].
    destruct (decode_frame (len bs) bs) as [[m' rest]| |] eqn:Hd; [|done..]. intros [= <-].
    apply decode_frame_inv in Hd as (Hbs & Hn & Hl & Hu & _ & _ & Hv & Hc).
    assert (Hrest : rest = []).
    { apply (f_equal len) in Hbs. rewrite len_app, len_frame in Hbs.
      destruct rest; [done|]. rewrite len_cons in Hbs. pose proof (len_nonneg rest). lia. }
    subst rest. rewrite app_nil_r in Hbs. split.
    + unfold EncodeMessage. rewrite <- Hl, Z.eqb_refl. cbn [negb]. by f_equal.
    + destruct m'; cbn in *. unfold CreateMessage. rewrite u32_small by done. by subst.
Qed.

Lemma frame_roundtrip_witness :
  ∃ data, EncodeMessage (CreateMessage 16 7 (b "hello")) = Ok data ∧
    DecodeMessage data = Ok (CreateMessage 16 7 (b "hello")).
Proof.
  destruct (frame_roundtrip 16 7 (b "hello") [] (CreateMessage 0 0 [])) as [H _];
    [split; lia|split; lia|split; by vm_compute|exact H].
Defined.

(** What the checksum protects.  A frame in which one payload byte was
    changed is always rejected; but the checksum covers the payload only, so a
    changed message type or sequence number is accepted as it stands. *)
Theorem frame_corruption t s p1 v v' p2 t' s' :
  is_u8 t → is_u32 s → is_u32 (len (p1 ++ v :: p2)) → v ≠ v' → is_u8 t' → is_u32 s' →
  let c := crc32 (p1 ++ v :: p2) in
  let n := len (p1 ++ v :: p2) in
  EncodeMessage (CreateMessage t s (p1 ++ v :: p2)) =
    Ok (frame protocol_version t s n (p1 ++ v :: p2) c) ∧
  DecodeMessage (frame protocol_version t s n (p1 ++ v' :: p2) c) = Err "checksum mismatch" ∧
  DecodeMessage (frame protocol_version t' s' n (p1 ++ v :: p2) c) =
    Ok (CreateMessage t' s' (p1 ++ v :: p2)).
Proof.
  intros Ht Hs Hp Hne Ht' Hs' c n.
  assert (Hlen : n = len (p1 ++ v' :: p2)) by (unfold n; by rewrite !len_app, !len_cons).
  split_and!.
  - by apply EncodeMessage_create.
  - rewrite Hlen in *. rewrite DecodeMessage_frame; [|done..|by rewrite <- Hlen|apply crc32_u32].
    rewrite (proj2 (Z.eqb_neq _ _)); [done|]. by apply crc32_byte_change.
  - unfold n. rewrite DecodeMessage_frame by (done || apply crc32_u32).
    rewrite Z.eqb_refl. cbn [negb]. unfold CreateMessage. by rewrite u32_small.
Qed.

Lemma frame_corruption_witness :
  DecodeMessage (frame protocol_version 16 7 3 (b "cut") (crc32 (b "cat"))) = Err "checksum mismatch" ∧
  DecodeMessage (frame protocol_version 18 9 3 (b "cat") (crc32 (b "cat"))) =
    Ok (CreateMessage 18 9 (b "cat")).
Proof.
  destruct (frame_corruption 16 7 (b "c") Byte.x61 Byte.x75 (b "t") 18 9) as (_ & H1 & H2);
    [split; lia|split; lia|split; by vm_compute|discriminate|split; lia|split; lia|].
  split; [exact H1|exact H2].
Defined.
