(* ===== verification/WireMessage.v ===== *)
(** * Messages on the wire: the interface and its automation

    [WireMessage] is what a message type promises to the connection code that
    ships it: a payload encoder and decoder that agree.  The lemmas here run the
    field loop of [Wire] over what the field encoders write, one lemma per kind
    of field; the tactics [roundtrip] and [totality] assemble them, so that each
    message of [Messages], [AuthMessages] and [MeshMessages] discharges the
    interface with one line per law. *)
From S2P Require Import Prelude GoHash ValueCodec Wire.

(** ** The interface *)

(** A decoder that returned a message or an error: no panic, no endless loop. *)
Definition terminates {M} (r : option (res M)) : Prop :=
  ∃ x, r = Some x ∧ (is_ok x = true ∨ is_err x = true).

Class WireMessage (M : Type) := {
  wm_encode : M → list byte;
  wm_decode : list byte → option (res M);
  wm_ok : M → Prop;
  wm_roundtrip m : wm_ok m → wm_decode (wm_encode m) = Some (Ok m);
  wm_total bs : terminates (wm_decode bs)
}.

(** ** Shared definitions *)

(** The fields of a message written one after another to its buffer. *)
Definition fields (l : list (list byte)) : list byte := mjoin l.

Definition zero_value : Value := mkValue Byte.x00 [].

(** A [uint64] read through an [int64]: [uint64(id)]. *)
Definition read_agent_id : Reader Z := u64 <$> read_int64.

(** The length of the path and of each component fit the wire format's [uint32]. *)
Definition path_fits (l : list (list byte)) : Prop :=
  is_u32 (len l) ∧ Forall (λ s, is_u32 (len s)) l.

(** ** Lemmas: the field loop on encoded fields *)

(** The loop takes [m] to [m'] on [bs]: the runs of [decode_fields] that meet
    only known fields. *)
Inductive parses {M} (field : byte → option (Reader (M → M))) : M → list byte → M → Prop :=
  | parses_nil m : parses field m [] m
  | parses_cons tag r f m bs rest m' :
      field tag = Some r → r bs = Ok (f, rest) → parses field (f m) rest m' →
      parses field m (tag :: bs) m'.

Lemma parses_decode {M} (field : byte → option (Reader (M → M))) m bs m' :
  (∀ tag r, field tag = Some r → shrinks r) →
  parses field m bs m' → decode_payload field m bs = Some (Ok m').
Proof.
  intros Hs Hp. unfold decode_payload.
  cut (∀ n, (length bs ≤ n)%nat → decode_fields field n m bs = Some (Ok m')); [auto|].
  induction Hp as [m|tag r f m bs rest m' Hf Hr _ IH]; intros [|n] Hl; cbn [length] in Hl;
    try done; try lia.
  erewrite decode_fields_step by done. apply IH.
  pose proof (Hs _ _ Hf bs) as Hle. rewrite Hr in Hle. lia.
Qed.

Lemma fields_cons_tag tag bs xs : fields (([tag] ++ bs) :: xs) = tag :: (bs ++ fields xs).
Proof. done. Qed.

Section fields.
Context {M : Type} (field : byte → option (Reader (M → M))).
Implicit Types (m : M) (xs : list (list byte)).

Lemma parses_field {A} (g : A → M → M) ctx r a m tag bs xs m' :
  field tag = Some (g <$> reader_wrap ctx r) → r (bs ++ fields xs) = Ok (a, fields xs) →
  parses field (g a m) (fields xs) m' → parses field m (fields (([tag] ++ bs) :: xs)) m'.
Proof.
  intros Hf Hr Hp. rewrite fields_cons_tag. eapply parses_cons; [done| |done]. by apply reader_fmap_ok, reader_wrap_ok.
Qed.

Lemma parses_skip m xs m' : parses field m (fields xs) m' → parses field m (fields ([] :: xs)) m'.
Proof. done. Qed.

Lemma parses_string g ctx m tag s xs m' :
  field tag = Some (g <$> reader_wrap ctx readString) → is_u32 (len s) →
  not_at_end s (fields xs) → parses field (g s m) (fields xs) m' →
  parses field m (fields (encodeString tag s :: xs)) m'.
Proof. intros. eapply parses_field; [done| |done]. by apply readString_enc. Qed.

Lemma parses_nonempty g ctx m tag s xs m' :
  field tag = Some (g <$> reader_wrap ctx readString) → is_u32 (len s) → s ≠ [] →
  parses field (g s m) (fields xs) m' →
  parses field m (fields (encode_nonempty tag s :: xs)) m'.
Proof.
  intros. destruct s; [done|]. eapply parses_string; [done|done|by left|done].
Qed.

Lemma parses_strings g ctx m tag l xs m' :
  field tag = Some (g <$> reader_wrap ctx readStringSlice) → path_fits l →
  fields xs ≠ [] ∨ last l ≠ Some [] → parses field (g l m) (fields xs) m' →
  parses field m (fields (encodeStringSlice tag l :: xs)) m'.
Proof.
  intros ? [] ? ?. eapply parses_field; [done| |done]. rewrite <- app_assoc.
  by apply readStringSlice_enc.
Qed.

Lemma parses_value g ctx m tag v xs m' :
  field tag = Some (g <$> reader_wrap ctx readValue) → is_u32 (len (Data v)) →
  not_at_end (Data v) (fields xs) → parses field (g v m) (fields xs) m' →
  parses field m (fields (encodeValue tag v :: xs)) m'.
Proof.
  intros. eapply parses_field; [done| |done]. rewrite <- !app_assoc. by apply readValue_enc.
Qed.

Lemma parses_flag g ctx m tag v xs m' :
  field tag = Some (g <$> reader_wrap ctx read_flag) → parses field (g v m) (fields xs) m' →
  parses field m (fields (encodeBool tag v :: xs)) m'.
Proof. intros. eapply parses_field; [done| |done]. apply read_flag_bool. Qed.

Lemma parses_bool g ctx m tag v xs m' :
  field tag = Some (g <$> reader_wrap ctx readBool) → parses field (g v m) (fields xs) m' →
  parses field m (fields (encodeBool tag v :: xs)) m'.
Proof. intros. eapply parses_field; [done| |done]. apply readBool_bool. Qed.

Lemma parses_i64 g ctx m tag z xs m' :
  field tag = Some (g <$> reader_wrap ctx read_int64) → is_i64 z →
  parses field (g z m) (fields xs) m' → parses field m (fields (encodeInt64 tag z :: xs)) m'.
Proof. intros. eapply parses_field; [done| |done]. by apply read_int64_be. Qed.

Lemma parses_agent_id g ctx m tag z xs m' :
  field tag = Some (g <$> reader_wrap ctx read_agent_id) → is_u64 z →
  parses field (g z m) (fields xs) m' →
  parses field m (fields (encodeInt64 tag (i64 z) :: xs)) m'.
Proof.
  intros. eapply parses_field; [done| |done]. unfold read_agent_id.
  erewrite reader_fmap_ok by by apply read_int64_be, i64_range. by rewrite u64_i64.
Qed.

Lemma parses_i32 g ctx m tag z xs m' :
  field tag = Some (g <$> reader_wrap ctx read_int32) → is_i32 z →
  parses field (g z m) (fields xs) m' →
  parses field m (fields (encodeInt32 tag (i32 z) :: xs)) m'.
Proof.
  intros. eapply parses_field; [done| |done]. rewrite i32_small by done. by apply read_int32_be.
Qed.

Lemma parses_u64 g ctx m tag z xs m' :
  field tag = Some (g <$> reader_wrap ctx (read_be 8)) → is_u64 z →
  parses field (g z m) (fields xs) m' → parses field m (fields (encodeUint64 tag z :: xs)) m'.
Proof. intros. eapply parses_field; [done| |done]. by apply read_u64_be. Qed.

Lemma parses_u32 g ctx m tag z xs m' :
  field tag = Some (g <$> reader_wrap ctx (read_be 4)) → is_u32 z →
  parses field (g z m) (fields xs) m' → parses field m (fields (encodeUint32 tag z :: xs)) m'.
Proof. intros. eapply parses_field; [done| |done]. by apply read_u32_be. Qed.
End fields.

Lemma shrinks_read_agent_id : shrinks read_agent_id.
Proof. unfold read_agent_id. auto with amorph. Qed.
#[export] Hint Resolve shrinks_read_agent_id shrinks_skipField : amorph.

(** ** Automation *)

(** Reducing an encoding stops at the fields' encoders. *)
#[global] Arguments fields : simpl never.
#[global] Arguments encodeStringSlice : simpl never.
#[global] Arguments encodeString : simpl never.
#[global] Arguments encode_nonempty : simpl never.
#[global] Arguments encodeValue : simpl never.
#[global] Arguments encodeBool : simpl never.
#[global] Arguments encodeUint64 : simpl never.
#[global] Arguments encodeInt64 : simpl never.
#[global] Arguments encodeUint32 : simpl never.
#[global] Arguments encodeInt32 : simpl never.
#[global] Arguments skipField : simpl never.
#[global] Arguments i32 : simpl never.
#[global] Arguments i64 : simpl never.
#[global] Arguments is_u32 : simpl never.
#[global] Arguments is_u64 : simpl never.
#[global] Arguments is_i32 : simpl never.
#[global] Arguments is_i64 : simpl never.
#[global] Arguments len : simpl never.

(** Every field reader of a message shrinks its input. *)
Ltac totality :=
  intros tag r; destruct tag; cbn; intros [= <-]; auto with amorph.

(** The side condition of a string that could be last. *)
Ltac not_end :=
  first [ assumption | right; discriminate | left; discriminate | left; assumption
        | right; assumption
        | match goal with H : _ ∨ _ |- _ => destruct H; not_end end | done ].

(** One field of the encoding: the lemma of its kind. *)
Ltac parse_field :=
  lazymatch goal with
  | |- parses _ _ (fields []) _ => apply parses_nil
  | |- parses _ _ (fields ([] :: _)) _ => apply parses_skip
  | |- parses _ _ (fields (encode_nonempty _ [] :: _)) _ => apply parses_skip
  | |- parses _ _ (fields (encode_nonempty _ _ :: _)) _ =>
      eapply parses_nonempty; [reflexivity|assumption|discriminate|]
  | |- parses _ _ (fields (encodeString _ _ :: _)) _ =>
      eapply parses_string; [reflexivity|assumption|not_end|]
  | |- parses _ _ (fields (encodeStringSlice _ _ :: _)) _ =>
      eapply parses_strings; [reflexivity|assumption|not_end|]
  | |- parses _ _ (fields (encodeValue _ _ :: _)) _ =>
      eapply parses_value; [reflexivity|assumption|not_end|]
  | |- parses _ _ (fields (encodeBool _ _ :: _)) _ =>
      first [eapply parses_flag; [reflexivity|] | eapply parses_bool; [reflexivity|]]
  | |- parses _ _ (fields (encodeInt64 _ (i64 _) :: _)) _ =>
      eapply parses_agent_id; [reflexivity|assumption|]
  | |- parses _ _ (fields (encodeInt64 _ _ :: _)) _ => eapply parses_i64; [reflexivity|assumption|]
  | |- parses _ _ (fields (encodeInt32 _ _ :: _)) _ => eapply parses_i32; [reflexivity|assumption|]
  | |- parses _ _ (fields (encodeUint64 _ _ :: _)) _ => eapply parses_u64; [reflexivity|assumption|]
  | |- parses _ _ (fields (encodeUint32 _ _ :: _)) _ => eapply parses_u32; [reflexivity|assumption|]
  end.

(** An optional string is absent or there. *)
Ltac split_optional :=
  repeat match goal with
  | |- context [encode_nonempty _ ?s] => is_var s; destruct s
  end.

Ltac destruct_ands := repeat match goal with H : _ ∧ _ |- _ => destruct H end.

(** [roundtrip m]: from [ok m] to the decoder's answer on the encoding of [m]. *)
Ltac roundtrip m :=
  destruct m; intros Hok; red in Hok; cbn in Hok; destruct_ands; subst;
  apply parses_decode; [by totality|];
  match goal with |- parses _ _ ?e _ => let e' := eval red in e in change e with e' end;
  cbn; split_optional; repeat parse_field.
