(* ===== verification/Messages.v ===== *)
(** * Client messages (internal/protocol)

    Reads, writes, purges, children, status, stop, compaction, errors, code
    execution and extraction: a record, an encoder, the cases of the decoder's
    [switch] ([x_field]), the decoder and the condition under which they agree
    ([x_ok]) per message.  Payloads that are one field (READ, READ_RESPONSE, ...)
    are decoded without the field loop. *)
From S2P Require Import Prelude GoHash ValueCodec AttributeStore StorageTree Wire WireMessage.

(** ** Messages decoded by the field loop *)

(** *** ReadAtMessage *)

Record ReadAtMessage := mkReadAtMessage { rat_Path : list (list byte); rat_Timestamp : Z }.

Definition EncodeReadAtMessage (msg : ReadAtMessage) : list byte :=
  fields [ encodeStringSlice Byte.x01 (rat_Path msg);
           encodeInt64 Byte.x02 (rat_Timestamp msg) ].

Definition rat_field (tag : byte) :
  option (Reader (ReadAtMessage → ReadAtMessage)) :=
  match tag with
  | Byte.x01 => Some ((λ v m, mkReadAtMessage v (rat_Timestamp m)) <$>
      reader_wrap "failed to decode path" readStringSlice)
  | Byte.x02 => Some ((λ v m, mkReadAtMessage (rat_Path m) v) <$>
      reader_wrap "failed to decode timestamp" read_int64)
  | _ => None
  end.

Definition DecodeReadAtMessage : list byte → option (res ReadAtMessage) :=
  decode_payload rat_field (mkReadAtMessage [] 0).

Definition rat_ok (m : ReadAtMessage) : Prop :=
  path_fits (rat_Path m) ∧ is_i64 (rat_Timestamp m).

(** *** WriteMessage *)

Record WriteMessage := mkWriteMessage {
  wr_Path : list (list byte); wr_Value : Value; wr_Author : Z
}.

Definition EncodeWriteMessage (msg : WriteMessage) : list byte :=
  fields [ encodeStringSlice Byte.x01 (wr_Path msg);
           encodeValue Byte.x02 (wr_Value msg);
           encodeUint64 Byte.x03 (wr_Author msg) ].

Definition wr_field (tag : byte) :
  option (Reader (WriteMessage → WriteMessage)) :=
  match tag with
  | Byte.x01 => Some ((λ v m, mkWriteMessage v (wr_Value m) (wr_Author m)) <$>
      reader_wrap "failed to decode path" readStringSlice)
  | Byte.x02 => Some ((λ v m, mkWriteMessage (wr_Path m) v (wr_Author m)) <$>
      reader_wrap "failed to decode value" readValue)
  | Byte.x03 => Some ((λ v m, mkWriteMessage (wr_Path m) (wr_Value m) v) <$>
      reader_wrap "failed to decode author" (read_be 8))
  | _ => None
  end.

Definition DecodeWriteMessage : list byte → option (res WriteMessage) :=
  decode_payload wr_field (mkWriteMessage [] zero_value 0).

Definition wr_ok (m : WriteMessage) : Prop :=
  path_fits (wr_Path m) ∧ is_u32 (len (Data (wr_Value m))) ∧ is_u64 (wr_Author m).

(** *** WriteAckMessage *)

Record WriteAckMessage := mkWriteAckMessage { wa_Success : bool; wa_Error : list byte }.

Definition EncodeWriteAckMessage (msg : WriteAckMessage) : list byte :=
  fields [ encodeBool Byte.x01 (wa_Success msg);
           encode_nonempty Byte.x02 (wa_Error msg) ].

Definition wa_field (tag : byte) :
  option (Reader (WriteAckMessage → WriteAckMessage)) :=
  match tag with
  | Byte.x01 => Some ((λ v m, mkWriteAckMessage v (wa_Error m)) <$>
      reader_wrap "failed to decode success" read_flag)
  | Byte.x02 => Some ((λ v m, mkWriteAckMessage (wa_Success m) v) <$>
      reader_wrap "failed to decode error" readString)
  | _ => None
  end.

Definition DecodeWriteAckMessage : list byte → option (res WriteAckMessage) :=
  decode_payload wa_field (mkWriteAckMessage false []).

Definition wa_ok (m : WriteAckMessage) : Prop :=
  is_u32 (len (wa_Error m)).

(** *** PurgeMessage *)

Record PurgeMessage := mkPurgeMessage {
  pu_Path : list (list byte); pu_From : Z; pu_To : Z; pu_Author : Z
}.

Definition EncodePurgeMessage (msg : PurgeMessage) : list byte :=
  fields [ encodeStringSlice Byte.x01 (pu_Path msg);
           encodeInt64 Byte.x02 (pu_From msg);
           encodeInt64 Byte.x03 (pu_To msg);
           encodeUint64 Byte.x04 (pu_Author msg) ].

Definition pu_field (tag : byte) :
  option (Reader (PurgeMessage → PurgeMessage)) :=
  match tag with
  | Byte.x01 => Some ((λ v m, mkPurgeMessage v (pu_From m) (pu_To m) (pu_Author m)) <$>
      reader_wrap "failed to decode path" readStringSlice)
  | Byte.x02 => Some ((λ v m, mkPurgeMessage (pu_Path m) v (pu_To m) (pu_Author m)) <$>
      reader_wrap "failed to decode from" read_int64)
  | Byte.x03 => Some ((λ v m, mkPurgeMessage (pu_Path m) (pu_From m) v (pu_Author m)) <$>
      reader_wrap "failed to decode to" read_int64)
  | Byte.x04 => Some ((λ v m, mkPurgeMessage (pu_Path m) (pu_From m) (pu_To m) v) <$>
      reader_wrap "failed to decode author" (read_be 8))
  | _ => None
  end.

Definition DecodePurgeMessage : list byte → option (res PurgeMessage) :=
  decode_payload pu_field (mkPurgeMessage [] 0 0 0).

Definition pu_ok (m : PurgeMessage) : Prop :=
  path_fits (pu_Path m) ∧ is_i64 (pu_From m) ∧ is_i64 (pu_To m) ∧ is_u64 (pu_Author m).

(** *** PurgeAckMessage *)

Record PurgeAckMessage := mkPurgeAckMessage { pa_Success : bool; pa_Error : list byte }.

Definition EncodePurgeAckMessage (msg : PurgeAckMessage) : list byte :=
  fields [ encodeBool Byte.x01 (pa_Success msg);
           encode_nonempty Byte.x02 (pa_Error msg) ].

Definition pa_field (tag : byte) :
  option (Reader (PurgeAckMessage → PurgeAckMessage)) :=
  match tag with
  | Byte.x01 => Some ((λ v m, mkPurgeAckMessage v (pa_Error m)) <$>
      reader_wrap "failed to decode success" read_flag)
  | _ => Some ((λ _ m, m) <$> reader_wrap "failed to skip unknown tag" (skipField tag))
  end.

Definition DecodePurgeAckMessage : list byte → option (res PurgeAckMessage) :=
  decode_payload pa_field (mkPurgeAckMessage false []).

Definition pa_ok (m : PurgeAckMessage) : Prop :=
  pa_Error m = [].

(** *** StatusResponseMessage *)

Record StatusResponseMessage := mkStatusResponseMessage {
  sr_Uptime : Z; sr_NodeIdentity : list byte; sr_LocalSocket : list byte; sr_NetworkPort : Z;
  sr_Connections : Z; sr_DataSize : Z
}.

Definition EncodeStatusResponseMessage (msg : StatusResponseMessage) : list byte :=
  fields [ encodeInt64 Byte.x01 (sr_Uptime msg);
           encodeString Byte.x02 (sr_NodeIdentity msg);
           encodeString Byte.x03 (sr_LocalSocket msg);
           encodeInt32 Byte.x04 (i32 (sr_NetworkPort msg));
           encodeInt32 Byte.x05 (i32 (sr_Connections msg));
           encodeInt64 Byte.x06 (sr_DataSize msg) ].

Definition sr_field (tag : byte) :
  option (Reader (StatusResponseMessage → StatusResponseMessage)) :=
  match tag with
  | Byte.x01 => Some ((λ v m, mkStatusResponseMessage v (sr_NodeIdentity m) (sr_LocalSocket m)
        (sr_NetworkPort m) (sr_Connections m) (sr_DataSize m)) <$>
      reader_wrap "failed to decode uptime" read_int64)
  | Byte.x02 => Some ((λ v m, mkStatusResponseMessage (sr_Uptime m) v (sr_LocalSocket m)
        (sr_NetworkPort m) (sr_Connections m) (sr_DataSize m)) <$>
      reader_wrap "failed to decode node identity" readString)
  | Byte.x03 => Some ((λ v m, mkStatusResponseMessage (sr_Uptime m) (sr_NodeIdentity m) v
        (sr_NetworkPort m) (sr_Connections m) (sr_DataSize m)) <$>
      reader_wrap "failed to decode local socket" readString)
  | Byte.x04 => Some ((λ v m, mkStatusResponseMessage (sr_Uptime m) (sr_NodeIdentity m)
        (sr_LocalSocket m) v (sr_Connections m) (sr_DataSize m)) <$>
      reader_wrap "failed to decode network port" read_int32)
  | Byte.x05 => Some ((λ v m, mkStatusResponseMessage (sr_Uptime m) (sr_NodeIdentity m)
        (sr_LocalSocket m) (sr_NetworkPort m) v (sr_DataSize m)) <$>
      reader_wrap "failed to decode connections" read_int32)
  | Byte.x06 => Some ((λ v m, mkStatusResponseMessage (sr_Uptime m) (sr_NodeIdentity m)
        (sr_LocalSocket m) (sr_NetworkPort m) (sr_Connections m) v) <$>
      reader_wrap "failed to decode data size" read_int64)
  | _ => None
  end.

Definition DecodeStatusResponseMessage : list byte → option (res StatusResponseMessage) :=
  decode_payload sr_field (mkStatusResponseMessage 0 [] [] 0 0 0).

Definition sr_ok (m : StatusResponseMessage) : Prop :=
  is_i64 (sr_Uptime m) ∧ is_u32 (len (sr_NodeIdentity m)) ∧ is_u32 (len (sr_LocalSocket m)) ∧
  is_i32 (sr_NetworkPort m) ∧ is_i32 (sr_Connections m) ∧ is_i64 (sr_DataSize m).

(** *** StopAckMessage *)

Record StopAckMessage := mkStopAckMessage { sa_Success : bool; sa_Error : list byte }.

Definition EncodeStopAckMessage (msg : StopAckMessage) : list byte :=
  fields [ encodeBool Byte.x01 (sa_Success msg);
           encode_nonempty Byte.x02 (sa_Error msg) ].

Definition sa_field (tag : byte) :
  option (Reader (StopAckMessage → StopAckMessage)) :=
  match tag with
  | Byte.x01 => Some ((λ v m, mkStopAckMessage v (sa_Error m)) <$>
      reader_wrap "failed to decode success" read_flag)
  | Byte.x02 => Some ((λ v m, mkStopAckMessage (sa_Success m) v) <$>
      reader_wrap "failed to decode error" readString)
  | _ => None
  end.

Definition DecodeStopAckMessage : list byte → option (res StopAckMessage) :=
  decode_payload sa_field (mkStopAckMessage false []).

Definition sa_ok (m : StopAckMessage) : Prop :=
  is_u32 (len (sa_Error m)).

(** *** CompactAckMessage *)

Record CompactAckMessage := mkCompactAckMessage {
  ca_Success : bool; ca_Error : list byte; ca_SpaceReclaimed : Z
}.

Definition EncodeCompactAckMessage (msg : CompactAckMessage) : list byte :=
  fields [ encodeBool Byte.x01 (ca_Success msg);
           encode_nonempty Byte.x02 (ca_Error msg);
           encodeInt64 Byte.x03 (ca_SpaceReclaimed msg) ].

Definition ca_field (tag : byte) :
  option (Reader (CompactAckMessage → CompactAckMessage)) :=
  match tag with
  | Byte.x01 => Some ((λ v m, mkCompactAckMessage v (ca_Error m) (ca_SpaceReclaimed m)) <$>
      reader_wrap "failed to decode success" read_flag)
  | Byte.x02 => Some ((λ v m, mkCompactAckMessage (ca_Success m) v (ca_SpaceReclaimed m)) <$>
      reader_wrap "failed to decode error" readString)
  | Byte.x03 => Some ((λ v m, mkCompactAckMessage (ca_Success m) (ca_Error m) v) <$>
      reader_wrap "failed to decode space reclaimed" read_int64)
  | _ => None
  end.

Definition DecodeCompactAckMessage : list byte → option (res CompactAckMessage) :=
  decode_payload ca_field (mkCompactAckMessage false [] 0).

Definition ca_ok (m : CompactAckMessage) : Prop :=
  is_u32 (len (ca_Error m)) ∧ is_i64 (ca_SpaceReclaimed m).

(** *** ErrorMessage *)

Record ErrorMessage := mkErrorMessage { er_Code : Z; er_Message : list byte }.

Definition EncodeErrorMessage (msg : ErrorMessage) : list byte :=
  fields [ encodeUint32 Byte.x01 (er_Code msg);
           encodeString Byte.x02 (er_Message msg) ].

Definition er_field (tag : byte) :
  option (Reader (ErrorMessage → ErrorMessage)) :=
  match tag with
  | Byte.x01 => Some ((λ v m, mkErrorMessage v (er_Message m)) <$>
      reader_wrap "failed to decode error code" (read_be 4))
  | Byte.x02 => Some ((λ v m, mkErrorMessage (er_Code m) v) <$>
      reader_wrap "failed to decode error message" readString)
  | _ => None
  end.

Definition DecodeErrorMessage : list byte → option (res ErrorMessage) :=
  decode_payload er_field (mkErrorMessage 0 []).

Definition er_ok (m : ErrorMessage) : Prop :=
  is_u32 (er_Code m) ∧ is_u32 (len (er_Message m)) ∧ er_Message m ≠ [].

(** *** ExecuteMessage *)

Record ExecuteMessage := mkExecuteMessage { ex_Code : list byte }.

Definition EncodeExecuteMessage (msg : ExecuteMessage) : list byte :=
  fields [ encodeString Byte.x01 (ex_Code msg) ].

Definition ex_field (tag : byte) :
  option (Reader (ExecuteMessage → ExecuteMessage)) :=
  match tag with
  | Byte.x01 => Some ((λ v _, mkExecuteMessage v) <$>
      reader_wrap "failed to decode code" readString)
  | _ => None
  end.

Definition DecodeExecuteMessage : list byte → option (res ExecuteMessage) :=
  decode_payload ex_field (mkExecuteMessage []).

Definition ex_ok (m : ExecuteMessage) : Prop :=
  is_u32 (len (ex_Code m)) ∧ ex_Code m ≠ [].

(** *** ExtractMessage *)

Record ExtractMessage := mkExtractMessage { xt_Path : list (list byte) }.

Definition EncodeExtractMessage (msg : ExtractMessage) : list byte :=
  fields [ encodeStringSlice Byte.x01 (xt_Path msg) ].

Definition xt_field (tag : byte) :
  option (Reader (ExtractMessage → ExtractMessage)) :=
  match tag with
  | Byte.x01 => Some ((λ v _, mkExtractMessage v) <$>
      reader_wrap "failed to decode path" readStringSlice)
  | _ => None
  end.

Definition DecodeExtractMessage : list byte → option (res ExtractMessage) :=
  decode_payload xt_field (mkExtractMessage []).

Definition xt_ok (m : ExtractMessage) : Prop :=
  path_fits (xt_Path m) ∧ last (xt_Path m) ≠ Some [].

(** *** ExecuteResponseMessage: a result on success, an error on failure *)

Record ExecuteResponseMessage := mkExecuteResponseMessage {
  xr_Success : bool; xr_Result : Value; xr_Error : list byte
}.

Definition EncodeExecuteResponseMessage (msg : ExecuteResponseMessage) : list byte :=
  fields [ encodeBool Byte.x01 (xr_Success msg);
           if xr_Success msg && ((0 <? len (Data (xr_Result msg))) ||
                negb (bool_decide (TypeTag (xr_Result msg) = Byte.x00)))
           then encodeValue Byte.x02 (xr_Result msg) else [];
           if negb (xr_Success msg) && negb (bool_decide (xr_Error msg = []))
           then encodeString Byte.x03 (xr_Error msg) else [] ].

Definition xr_field (tag : byte) :
  option (Reader (ExecuteResponseMessage → ExecuteResponseMessage)) :=
  match tag with
  | Byte.x01 => Some ((λ v m, mkExecuteResponseMessage v (xr_Result m) (xr_Error m)) <$>
      reader_wrap "failed to decode success" readBool)
  | Byte.x02 => Some ((λ v m, mkExecuteResponseMessage (xr_Success m) v (xr_Error m)) <$>
      reader_wrap "failed to decode result" readValue)
  | Byte.x03 => Some ((λ v m, mkExecuteResponseMessage (xr_Success m) (xr_Result m) v) <$>
      reader_wrap "failed to decode error" readString)
  | _ => None
  end.

Definition DecodeExecuteResponseMessage : list byte → option (res ExecuteResponseMessage) :=
  decode_payload xr_field (mkExecuteResponseMessage false zero_value []).

Definition xr_ok (m : ExecuteResponseMessage) : Prop :=
  is_u32 (len (xr_Error m)) ∧ is_u32 (len (Data (xr_Result m))) ∧
  if xr_Success m then xr_Error m = [] ∧ (Data (xr_Result m) ≠ [] ∨ xr_Result m = zero_value)
  else xr_Result m = zero_value.

(** *** ExtractResponseMessage: a script on success, an error on failure *)

Record ExtractResponseMessage := mkExtractResponseMessage {
  xs_Success : bool; xs_Script : list byte; xs_Error : list byte
}.

Definition EncodeExtractResponseMessage (msg : ExtractResponseMessage) : list byte :=
  fields [ encodeBool Byte.x01 (xs_Success msg);
           if xs_Success msg then encodeString Byte.x02 (xs_Script msg)
           else encodeString Byte.x03 (xs_Error msg) ].

Definition xs_field (tag : byte) :
  option (Reader (ExtractResponseMessage → ExtractResponseMessage)) :=
  match tag with
  | Byte.x01 => Some ((λ v m, mkExtractResponseMessage v (xs_Script m) (xs_Error m)) <$>
      reader_wrap "failed to decode success" readBool)
  | Byte.x02 => Some ((λ v m, mkExtractResponseMessage (xs_Success m) v (xs_Error m)) <$>
      reader_wrap "failed to decode script" readString)
  | Byte.x03 => Some ((λ v m, mkExtractResponseMessage (xs_Success m) (xs_Script m) v) <$>
      reader_wrap "failed to decode error" readString)
  | _ => None
  end.

Definition DecodeExtractResponseMessage : list byte → option (res ExtractResponseMessage) :=
  decode_payload xs_field (mkExtractResponseMessage false [] []).

Definition xs_ok (m : ExtractResponseMessage) : Prop :=
  is_u32 (len (xs_Script m)) ∧ is_u32 (len (xs_Error m)) ∧
  if xs_Success m then xs_Script m ≠ [] ∧ xs_Error m = [] else xs_Error m ≠ [] ∧ xs_Script m = [].

(** ** Messages of one field *)

Record StatusMessage := mkStatusMessage {}.
Definition EncodeStatusMessage (msg : StatusMessage) : list byte := [].

Record ReadMessage := mkReadMessage { rd_Path : list (list byte) }.
Definition EncodeReadMessage (msg : ReadMessage) : list byte :=
  encodeStringSlice Byte.x01 (rd_Path msg).
Definition DecodeReadMessage (payload : list byte) : res ReadMessage :=
  mkReadMessage <$> wrap_res "failed to decode path" (decodeStringSlice payload Byte.x01).

Record ReadResponseMessage := mkReadResponseMessage { rrm_Value : Value }.
Definition EncodeReadResponseMessage (msg : ReadResponseMessage) : list byte :=
  encodeValue Byte.x01 (rrm_Value msg).
Definition DecodeReadResponseMessage (payload : list byte) : res ReadResponseMessage :=
  mkReadResponseMessage <$> wrap_res "failed to decode value" (decodeValue payload Byte.x01).

Record ReadAtResponseMessage := mkReadAtResponseMessage { rar_Value : Value }.
Definition EncodeReadAtResponseMessage (msg : ReadAtResponseMessage) : list byte :=
  encodeValue Byte.x01 (rar_Value msg).
Definition DecodeReadAtResponseMessage (payload : list byte) : res ReadAtResponseMessage :=
  mkReadAtResponseMessage <$> wrap_res "failed to decode value" (decodeValue payload Byte.x01).

Record ChildrenMessage := mkChildrenMessage { ch_Path : list (list byte) }.
Definition EncodeChildrenMessage (msg : ChildrenMessage) : list byte :=
  encodeStringSlice Byte.x01 (ch_Path msg).
Definition DecodeChildrenMessage (payload : list byte) : res ChildrenMessage :=
  mkChildrenMessage <$> wrap_res "failed to decode path" (decodeStringSlice payload Byte.x01).

(** A path the decoders of one slice give back: its last component is not empty. *)
Definition path_ok (p : list (list byte)) : Prop := path_fits p ∧ last p ≠ Some [].
Definition value_ok (v : Value) : Prop := is_u32 (len (Data v)) ∧ Data v ≠ [].

(** *** ChildrenResponseMessage *)

Record ChildrenResponseMessage := mkChildrenResponseMessage { crm_Children : list NamedAttribute }.

Definition encode_child (child : NamedAttribute) : list byte :=
  be 8 (AttrID (na_attr child)) ++ be 8 (LabelValueID (na_attr child)) ++
  be 8 (FirstInstanceID (na_attr child)) ++ be 8 (NextAttributeID (na_attr child)) ++
  enc_string (na_name child).

Definition EncodeChildrenResponseMessage (msg : ChildrenResponseMessage) : list byte :=
  [Byte.x01] ++ encode_len (len (crm_Children msg)) ++ (crm_Children msg ≫= encode_child).

(** [int(nameLen) > reader.Len()], then [io.ReadFull]: fails on a short buffer only. *)
Definition read_full (n : Z) (msg : string) : Reader (list byte) := λ bs,
  if len bs <? n then Err msg else Ok (take (Z.to_nat n) bs, drop (Z.to_nat n) bs).

Definition read_child : Reader NamedAttribute :=
  id ← reader_wrap "failed to decode attribute field" (read_be 8);
  label ← reader_wrap "failed to decode attribute field" (read_be 8);
  first ← reader_wrap "failed to decode attribute field" (read_be 8);
  next ← reader_wrap "failed to decode attribute field" (read_be 8);
  nameLen ← reader_wrap "failed to decode child name length" (read_be 4);
  name ← read_full nameLen "child name length exceeds remaining payload";
  mret (mkNamed (mkAttribute id label first next) name).

Fixpoint read_children (count : nat) : Reader (list NamedAttribute) :=
  match count with
  | O => mret []
  | S count =>
      child ← read_child;
      children ← read_children count;
      mret (child :: children)
  end.

Definition guard_count (count : Z) : Reader unit := λ bs,
  if len bs <? count * 36 then Err "children count exceeds payload size" else Ok (tt, bs).

Definition DecodeChildrenResponseMessage (payload : list byte) : res ChildrenResponseMessage :=
  match wrap_res "failed to read tag" (ReadByte payload) with
  | Ok (tag, bs) =>
      if negb (bool_decide (tag = Byte.x01)) then Err "unexpected tag for children response" else
      fst <$> (count ← reader_wrap "failed to decode children count" (read_be 4);
               _ ← guard_count count;
               children ← read_children (Z.to_nat count);
               mret (mkChildrenResponseMessage children) : Reader _) bs
  | Err e => Err e
  | Panic e => Panic e
  end.

Definition child_ok (child : NamedAttribute) : Prop :=
  is_u64 (AttrID (na_attr child)) ∧ is_u64 (LabelValueID (na_attr child)) ∧
  is_u64 (FirstInstanceID (na_attr child)) ∧ is_u64 (NextAttributeID (na_attr child)) ∧
  is_u32 (len (na_name child)).
Definition children_ok (m : ChildrenResponseMessage) : Prop :=
  is_u32 (len (crm_Children m)) ∧ Forall child_ok (crm_Children m).

(** ** The laws of each message *)

Lemma rat_roundtrip m :
  rat_ok m → DecodeReadAtMessage (EncodeReadAtMessage m) = Some (Ok m).
Proof. roundtrip m. Qed.
Lemma rat_total bs : terminates (DecodeReadAtMessage bs).
Proof. by apply decode_payload_total; totality. Qed.

Lemma wr_roundtrip m :
  wr_ok m → DecodeWriteMessage (EncodeWriteMessage m) = Some (Ok m).
Proof. roundtrip m. Qed.
Lemma wr_total bs : terminates (DecodeWriteMessage bs).
Proof. by apply decode_payload_total; totality. Qed.

Lemma wa_roundtrip m :
  wa_ok m → DecodeWriteAckMessage (EncodeWriteAckMessage m) = Some (Ok m).
Proof. roundtrip m. Qed.
Lemma wa_total bs : terminates (DecodeWriteAckMessage bs).
Proof. by apply decode_payload_total; totality. Qed.

Lemma pu_roundtrip m :
  pu_ok m → DecodePurgeMessage (EncodePurgeMessage m) = Some (Ok m).
Proof. roundtrip m. Qed.
Lemma pu_total bs : terminates (DecodePurgeMessage bs).
Proof. by apply decode_payload_total; totality. Qed.

Lemma pa_roundtrip m :
  pa_ok m → DecodePurgeAckMessage (EncodePurgeAckMessage m) = Some (Ok m).
Proof. roundtrip m. Qed.
Lemma pa_total bs : terminates (DecodePurgeAckMessage bs).
Proof. by apply decode_payload_total; totality. Qed.

Lemma sr_roundtrip m :
  sr_ok m → DecodeStatusResponseMessage (EncodeStatusResponseMessage m) = Some (Ok m).
Proof. roundtrip m. Qed.
Lemma sr_total bs : terminates (DecodeStatusResponseMessage bs).
Proof. by apply decode_payload_total; totality. Qed.

Lemma sa_roundtrip m :
  sa_ok m → DecodeStopAckMessage (EncodeStopAckMessage m) = Some (Ok m).
Proof. roundtrip m. Qed.
Lemma sa_total bs : terminates (DecodeStopAckMessage bs).
Proof. by apply decode_payload_total; totality. Qed.

Lemma ca_roundtrip m :
  ca_ok m → DecodeCompactAckMessage (EncodeCompactAckMessage m) = Some (Ok m).
Proof. roundtrip m. Qed.
Lemma ca_total bs : terminates (DecodeCompactAckMessage bs).
Proof. by apply decode_payload_total; totality. Qed.

Lemma er_roundtrip m :
  er_ok m → DecodeErrorMessage (EncodeErrorMessage m) = Some (Ok m).
Proof. roundtrip m. Qed.
Lemma er_total bs : terminates (DecodeErrorMessage bs).
Proof. by apply decode_payload_total; totality. Qed.

Lemma ex_roundtrip m :
  ex_ok m → DecodeExecuteMessage (EncodeExecuteMessage m) = Some (Ok m).
Proof. roundtrip m. Qed.
Lemma ex_total bs : terminates (DecodeExecuteMessage bs).
Proof. by apply decode_payload_total; totality. Qed.

Lemma xt_roundtrip m :
  xt_ok m → DecodeExtractMessage (EncodeExtractMessage m) = Some (Ok m).
Proof. roundtrip m. Qed.
Lemma xt_total bs : terminates (DecodeExtractMessage bs).
Proof. by apply decode_payload_total; totality. Qed.

Lemma xs_total bs : terminates (DecodeExtractResponseMessage bs).
Proof. by apply decode_payload_total; totality. Qed.
Lemma xs_roundtrip m : xs_ok m →
  DecodeExtractResponseMessage (EncodeExtractResponseMessage m) = Some (Ok m).
Proof.
  destruct m as [[] s e]; intros (Hs & He & Hne & Hz); cbn in Hs, He, Hne, Hz; subst;
    (apply parses_decode; [by totality|]); unfold EncodeExtractResponseMessage; cbn;
    repeat parse_field.
Qed.

Lemma xr_total bs : terminates (DecodeExecuteResponseMessage bs).
Proof. by apply decode_payload_total; totality. Qed.
Lemma xr_roundtrip m : xr_ok m →
  DecodeExecuteResponseMessage (EncodeExecuteResponseMessage m) = Some (Ok m).
Proof.
  destruct m as [[] [tg [|x d]] e]; intros (He & Hv & Hok); cbn in He, Hv, Hok;
    [destruct Hok as [-> [?|[= ->]]]; [done|]|destruct Hok as [-> _]|injection Hok as ->|done];
    (apply parses_decode; [by totality|]); unfold EncodeExecuteResponseMessage; cbn.
  - change (0 <? len []) with false. rewrite bool_decide_true by done. cbn. repeat parse_field.
  - rewrite (proj2 (Z.ltb_lt _ _)) by (lens; pose proof (len_nonneg d); lia). cbn. repeat parse_field.
  - destruct e; [rewrite bool_decide_true by done|rewrite bool_decide_false by done];
      cbn; repeat parse_field.
Qed.

(** ** The laws of the messages of one field *)

Lemma decode_single_ok {A} (r : Reader A) tag bs a rest :
  r bs = Ok (a, rest) → decode_single r (tag :: bs) tag = Ok a.
Proof. intros H. unfold decode_single. cbn. by rewrite bool_decide_true, H. Qed.

Lemma decodeStringSlice_enc tag l : path_ok l →
  decodeStringSlice (encodeStringSlice tag l) tag = Ok l.
Proof.
  intros [[Hn Hl] Hlast]. eapply decode_single_ok.
  rewrite <- (app_nil_r (_ ≫= _)). apply readStringSlice_enc. split_and!; auto.
Qed.

Lemma decodeValue_enc tag v : value_ok v → decodeValue (encodeValue tag v) tag = Ok v.
Proof.
  intros [Hl Hne]. eapply decode_single_ok.
  rewrite <- (app_nil_r (Data v)) at 2. apply readValue_enc; [done|by left].
Qed.

Lemma decode_single_total {A} (r : Reader A) payload tag : shrinks r →
  terminates (Some (decode_single r payload tag)).
Proof.
  intros Hr. eexists; split; [done|]. unfold decode_single. destruct payload as [|x bs]; cbn; [auto|].
  destruct (negb _); [by auto|]. specialize (Hr bs). destruct (r bs) as [[]| |]; cbn; auto.
Qed.

Lemma terminates_map {A B} (f : A → B) ctx r :
  terminates (Some r) → terminates (Some (f <$> wrap_res ctx r)).
Proof. intros (x & [= ->] & Hx). eexists; split; [done|]. destruct x; cbn in *; tauto. Qed.

Lemma rd_roundtrip m : path_ok (rd_Path m) → DecodeReadMessage (EncodeReadMessage m) = Ok m.
Proof.
  intros. unfold DecodeReadMessage, EncodeReadMessage. rewrite decodeStringSlice_enc by done.
  by destruct m.
Qed.
Lemma ch_roundtrip m : path_ok (ch_Path m) → DecodeChildrenMessage (EncodeChildrenMessage m) = Ok m.
Proof.
  intros. unfold DecodeChildrenMessage, EncodeChildrenMessage.
  rewrite decodeStringSlice_enc by done. by destruct m.
Qed.
Lemma rrm_roundtrip m : value_ok (rrm_Value m) →
  DecodeReadResponseMessage (EncodeReadResponseMessage m) = Ok m.
Proof.
  intros. unfold DecodeReadResponseMessage, EncodeReadResponseMessage.
  rewrite decodeValue_enc by done. by destruct m.
Qed.
Lemma rar_roundtrip m : value_ok (rar_Value m) →
  DecodeReadAtResponseMessage (EncodeReadAtResponseMessage m) = Ok m.
Proof.
  intros. unfold DecodeReadAtResponseMessage, EncodeReadAtResponseMessage.
  rewrite decodeValue_enc by done. by destruct m.
Qed.

(** ** The laws of the children response *)

Lemma read_full_app s rest msg : read_full (len s) msg (s ++ rest) = Ok (s, rest).
Proof.
  unfold read_full. rewrite len_app. pose proof (len_nonneg rest).
  rewrite (proj2 (Z.ltb_ge _ _)) by lia. unfold len. by rewrite Nat2Z.id, take_app_len, drop_app_len.
Qed.

Lemma read_child_enc c rest : child_ok c → read_child (encode_child c ++ rest) = Ok (c, rest).
Proof.
  destruct c as [[i l f n] name]. intros (Hi & Hl & Hf & Hn & Hs). cbn in *.
  unfold read_child, encode_child, enc_string, encode_len. cbn [na_attr na_name AttrID LabelValueID
    FirstInstanceID NextAttributeID]. rewrite <- !app_assoc, u32_small by done.
  do 4 (erewrite reader_bind_ok by by apply reader_wrap_ok, read_u64_be).
  erewrite reader_bind_ok by by apply reader_wrap_ok, read_u32_be.
  erewrite reader_bind_ok by apply read_full_app. done.
Qed.

Lemma read_children_enc l rest : Forall child_ok l →
  read_children (length l) ((l ≫= encode_child) ++ rest) = Ok (l, rest).
Proof.
  intros Hl. induction Hl as [|c l Hc _ IH]; [done|].
  change ((c :: l) ≫= encode_child) with (encode_child c ++ (l ≫= encode_child)).
  rewrite <- app_assoc. cbn [length read_children].
  erewrite reader_bind_ok by by apply read_child_enc. by erewrite reader_bind_ok.
Qed.

Lemma len_encode_children l : len l * 36 ≤ len (l ≫= encode_child).
Proof.
  induction l as [|c l IH]; [done|].
  change ((c :: l) ≫= encode_child) with (encode_child c ++ (l ≫= encode_child)).
  assert (36 ≤ len (encode_child c)).
  { unfold encode_child, enc_string, encode_len. pose proof (len_nonneg (na_name c)). lens. }
  lens.
Qed.

Lemma crm_roundtrip m : children_ok m →
  DecodeChildrenResponseMessage (EncodeChildrenResponseMessage m) = Ok m.
Proof.
  destruct m as [l]. intros [Hn Hl]. cbn in Hn, Hl.
  unfold DecodeChildrenResponseMessage, EncodeChildrenResponseMessage. cbn -[be len Z.mul].
  unfold encode_len. rewrite u32_small by done.
  erewrite reader_bind_ok by by apply reader_wrap_ok, read_u32_be.
  erewrite reader_bind_ok.
  2: { unfold guard_count. pose proof (len_encode_children l). by rewrite (proj2 (Z.ltb_ge _ _)). }
  rewrite <- (app_nil_r (l ≫= encode_child)). unfold len. rewrite Nat2Z.id.
  erewrite reader_bind_ok by by apply read_children_enc. done.
Qed.

Lemma shrinks_read_full n msg : shrinks (read_full n msg).
Proof. intros bs. unfold read_full. destruct (_ <? n); [done|]. rewrite length_drop. lia. Qed.
Lemma shrinks_read_child : shrinks read_child.
Proof. unfold read_child. auto 20 using shrinks_read_full with amorph. Qed.
Lemma shrinks_read_children n : shrinks (read_children n).
Proof. induction n; cbn [read_children]; auto 10 using shrinks_read_child with amorph. Qed.
Lemma shrinks_guard_count n : shrinks (guard_count n).
Proof. intros bs. unfold guard_count. by destruct (_ <? _). Qed.

Lemma rd_total bs : terminates (Some (DecodeReadMessage bs)).
Proof. apply terminates_map, decode_single_total. auto with amorph. Qed.
Lemma ch_total bs : terminates (Some (DecodeChildrenMessage bs)).
Proof. apply terminates_map, decode_single_total. auto with amorph. Qed.
Lemma rrm_total bs : terminates (Some (DecodeReadResponseMessage bs)).
Proof. apply terminates_map, decode_single_total. auto with amorph. Qed.
Lemma rar_total bs : terminates (Some (DecodeReadAtResponseMessage bs)).
Proof. apply terminates_map, decode_single_total. auto with amorph. Qed.
Lemma crm_total bs : terminates (Some (DecodeChildrenResponseMessage bs)).
Proof.
  eexists; split; [done|]. unfold DecodeChildrenResponseMessage.
  destruct bs as [|x bs]; cbn [wrap_res ReadByte]; [auto|]. destruct (negb _); [by auto|].
  set (r := mbind _ _). assert (Hr : shrinks r).
  { unfold r. auto 20 using shrinks_guard_count, shrinks_read_children with amorph. }
  specialize (Hr bs). destruct (r bs) as [[]| |]; cbn; auto.
Qed.

(** ** The interface *)

#[global] Instance rat_wire : WireMessage ReadAtMessage := {
  wm_encode := EncodeReadAtMessage; wm_decode := DecodeReadAtMessage; wm_ok := rat_ok;
  wm_roundtrip := rat_roundtrip; wm_total := rat_total }.
#[global] Instance wr_wire : WireMessage WriteMessage := {
  wm_encode := EncodeWriteMessage; wm_decode := DecodeWriteMessage; wm_ok := wr_ok;
  wm_roundtrip := wr_roundtrip; wm_total := wr_total }.
#[global] Instance wa_wire : WireMessage WriteAckMessage := {
  wm_encode := EncodeWriteAckMessage; wm_decode := DecodeWriteAckMessage; wm_ok := wa_ok;
  wm_roundtrip := wa_roundtrip; wm_total := wa_total }.
#[global] Instance pu_wire : WireMessage PurgeMessage := {
  wm_encode := EncodePurgeMessage; wm_decode := DecodePurgeMessage; wm_ok := pu_ok;
  wm_roundtrip := pu_roundtrip; wm_total := pu_total }.
#[global] Instance pa_wire : WireMessage PurgeAckMessage := {
  wm_encode := EncodePurgeAckMessage; wm_decode := DecodePurgeAckMessage; wm_ok := pa_ok;
  wm_roundtrip := pa_roundtrip; wm_total := pa_total }.
#[global] Instance sr_wire : WireMessage StatusResponseMessage := {
  wm_encode := EncodeStatusResponseMessage; wm_decode := DecodeStatusResponseMessage; wm_ok := sr_ok;
  wm_roundtrip := sr_roundtrip; wm_total := sr_total }.
#[global] Instance sa_wire : WireMessage StopAckMessage := {
  wm_encode := EncodeStopAckMessage; wm_decode := DecodeStopAckMessage; wm_ok := sa_ok;
  wm_roundtrip := sa_roundtrip; wm_total := sa_total }.
#[global] Instance ca_wire : WireMessage CompactAckMessage := {
  wm_encode := EncodeCompactAckMessage; wm_decode := DecodeCompactAckMessage; wm_ok := ca_ok;
  wm_roundtrip := ca_roundtrip; wm_total := ca_total }.
#[global] Instance er_wire : WireMessage ErrorMessage := {
  wm_encode := EncodeErrorMessage; wm_decode := DecodeErrorMessage; wm_ok := er_ok;
  wm_roundtrip := er_roundtrip; wm_total := er_total }.
#[global] Instance ex_wire : WireMessage ExecuteMessage := {
  wm_encode := EncodeExecuteMessage; wm_decode := DecodeExecuteMessage; wm_ok := ex_ok;
  wm_roundtrip := ex_roundtrip; wm_total := ex_total }.
#[global] Instance xt_wire : WireMessage ExtractMessage := {
  wm_encode := EncodeExtractMessage; wm_decode := DecodeExtractMessage; wm_ok := xt_ok;
  wm_roundtrip := xt_roundtrip; wm_total := xt_total }.
#[global] Instance xr_wire : WireMessage ExecuteResponseMessage := {
  wm_encode := EncodeExecuteResponseMessage; wm_decode := DecodeExecuteResponseMessage; wm_ok := xr_ok;
  wm_roundtrip := xr_roundtrip; wm_total := xr_total }.
#[global] Instance xs_wire : WireMessage ExtractResponseMessage := {
  wm_encode := EncodeExtractResponseMessage; wm_decode := DecodeExtractResponseMessage; wm_ok := xs_ok;
  wm_roundtrip := xs_roundtrip; wm_total := xs_total }.
#[global] Instance rd_wire : WireMessage ReadMessage := {
  wm_encode := EncodeReadMessage; wm_decode bs := Some (DecodeReadMessage bs);
  wm_ok m := path_ok (rd_Path m); wm_roundtrip m H := f_equal Some (rd_roundtrip m H);
  wm_total := rd_total }.
#[global] Instance ch_wire : WireMessage ChildrenMessage := {
  wm_encode := EncodeChildrenMessage; wm_decode bs := Some (DecodeChildrenMessage bs);
  wm_ok m := path_ok (ch_Path m); wm_roundtrip m H := f_equal Some (ch_roundtrip m H);
  wm_total := ch_total }.
#[global] Instance rrm_wire : WireMessage ReadResponseMessage := {
  wm_encode := EncodeReadResponseMessage; wm_decode bs := Some (DecodeReadResponseMessage bs);
  wm_ok m := value_ok (rrm_Value m); wm_roundtrip m H := f_equal Some (rrm_roundtrip m H);
  wm_total := rrm_total }.
#[global] Instance rar_wire : WireMessage ReadAtResponseMessage := {
  wm_encode := EncodeReadAtResponseMessage; wm_decode bs := Some (DecodeReadAtResponseMessage bs);
  wm_ok m := value_ok (rar_Value m); wm_roundtrip m H := f_equal Some (rar_roundtrip m H);
  wm_total := rar_total }.
#[global] Instance crm_wire : WireMessage ChildrenResponseMessage := {
  wm_encode := EncodeChildrenResponseMessage; wm_decode bs := Some (DecodeChildrenResponseMessage bs);
  wm_ok m := children_ok m; wm_roundtrip m H := f_equal Some (crm_roundtrip m H);
  wm_total := crm_total }.

(** ** Lemmas for the properties *)

Lemma read_full_inv n msg bs d rest : 0 ≤ n → read_full n msg bs = Ok (d, rest) →
  bs = d ++ rest ∧ len d = n.
Proof.
  intros Hn. unfold read_full. destruct (Z.ltb_spec (len bs) n); [done|].
  intros [= <- <-]. split; [by rewrite take_drop|]. rewrite len_take. unfold len in *. lia.
Qed.

Lemma read_child_inv bs c rest : read_child bs = Ok (c, rest) →
  bs = encode_child c ++ rest ∧ child_ok c.
Proof.
  unfold read_child.
  intros (i & b1 & [-> Hi]%reader_wrap_inv%read_be_inv & H)%reader_bind_inv.
  apply reader_bind_inv in H as (l & b2 & [-> Hl]%reader_wrap_inv%read_be_inv & H).
  apply reader_bind_inv in H as (f & b3 & [-> Hf]%reader_wrap_inv%read_be_inv & H).
  apply reader_bind_inv in H as (n & b4 & [-> Hn]%reader_wrap_inv%read_be_inv & H).
  apply reader_bind_inv in H as (k & b5 & [-> Hk]%reader_wrap_inv%read_be_inv & H).
  apply reader_bind_inv in H as (name & b6 & [-> Hlen]%read_full_inv & H); [|lia].
  injection H as <- <-. subst k. split; [|done].
  unfold encode_child, enc_string, encode_len. cbn [na_attr na_name AttrID LabelValueID
    FirstInstanceID NextAttributeID]. by rewrite u32_small, <- !app_assoc.
Qed.

Lemma read_children_inv n bs l rest : read_children n bs = Ok (l, rest) →
  bs = (l ≫= encode_child) ++ rest ∧ length l = n ∧ Forall child_ok l.
Proof.
  revert bs l rest. induction n as [|n IH]; cbn [read_children]; intros bs l rest H.
  { injection H as <- <-. auto. }
  apply reader_bind_inv in H as (c & b1 & [-> Hc]%read_child_inv & H).
  apply reader_bind_inv in H as (l' & b2 & (-> & Hn & Hl)%IH & H). injection H as <- <-.
  split_and!; [|cbn; lia|by constructor].
  change ((c :: l') ≫= encode_child) with (encode_child c ++ (l' ≫= encode_child)).
  by rewrite <- app_assoc.
Qed.

(** ** Properties *)

(** C37: client messages survive the wire.  For every request and response of the
    client protocol that satisfies its condition - strings, paths and data
    shorter than 2^32, integers in range, and no empty string or value at the
    very end of the payload - the decoder returns exactly the message that was
    encoded. *)
Theorem client_messages_roundtrip :
  (∀ m, rat_ok m →
     DecodeReadAtMessage (EncodeReadAtMessage m) = Some (Ok m)) ∧
  (∀ m, wr_ok m →
     DecodeWriteMessage (EncodeWriteMessage m) = Some (Ok m)) ∧
  (∀ m, wa_ok m →
     DecodeWriteAckMessage (EncodeWriteAckMessage m) = Some (Ok m)) ∧
  (∀ m, pu_ok m →
     DecodePurgeMessage (EncodePurgeMessage m) = Some (Ok m)) ∧
  (∀ m, pa_ok m →
     DecodePurgeAckMessage (EncodePurgeAckMessage m) = Some (Ok m)) ∧
  (∀ m, sr_ok m →
     DecodeStatusResponseMessage (EncodeStatusResponseMessage m) = Some (Ok m)) ∧
  (∀ m, sa_ok m →
     DecodeStopAckMessage (EncodeStopAckMessage m) = Some (Ok m)) ∧
  (∀ m, ca_ok m →
     DecodeCompactAckMessage (EncodeCompactAckMessage m) = Some (Ok m)) ∧
  (∀ m, er_ok m →
     DecodeErrorMessage (EncodeErrorMessage m) = Some (Ok m)) ∧
  (∀ m, ex_ok m →
     DecodeExecuteMessage (EncodeExecuteMessage m) = Some (Ok m)) ∧
  (∀ m, xt_ok m →
     DecodeExtractMessage (EncodeExtractMessage m) = Some (Ok m)) ∧
  (∀ m, xr_ok m → DecodeExecuteResponseMessage (EncodeExecuteResponseMessage m) = Some (Ok m)) ∧
  (∀ m, xs_ok m → DecodeExtractResponseMessage (EncodeExtractResponseMessage m) = Some (Ok m)) ∧
  (∀ m, path_ok (rd_Path m) → DecodeReadMessage (EncodeReadMessage m) = Ok m) ∧
  (∀ m, path_ok (ch_Path m) → DecodeChildrenMessage (EncodeChildrenMessage m) = Ok m) ∧
  (∀ m, value_ok (rrm_Value m) →
     DecodeReadResponseMessage (EncodeReadResponseMessage m) = Ok m) ∧
  (∀ m, value_ok (rar_Value m) →
     DecodeReadAtResponseMessage (EncodeReadAtResponseMessage m) = Ok m).
Proof.
  split_and!; intros;
    auto using rat_roundtrip, wr_roundtrip, wa_roundtrip, pu_roundtrip, pa_roundtrip, sr_roundtrip,
      sa_roundtrip, ca_roundtrip, er_roundtrip, ex_roundtrip, xt_roundtrip, xr_roundtrip,
      xs_roundtrip, rd_roundtrip, ch_roundtrip, rrm_roundtrip, rar_roundtrip.
Qed.

Lemma client_messages_roundtrip_witness :
  let m := mkWriteMessage [b "world"; b "name"] (mkValue Byte.x01 []) (2 ^ 64 - 1) in
  DecodeWriteMessage (EncodeWriteMessage m) = Some (Ok m).
Proof.
  destruct client_messages_roundtrip as (_ & H & _). intros m. apply (H m).
  split_and!; by apply (bool_decide_unpack _); vm_compute.
Defined.

(** Children responses are canonical.  A list of children decodes back to
    itself, names that are empty or last included; and whatever bytes decode to
    a response are the encoding of that response, possibly followed by bytes the
    decoder ignores - so the count it accepts is never more than the payload
    holds. *)
Theorem children_response_canonical m bs m' :
  children_ok m →
  DecodeChildrenResponseMessage (EncodeChildrenResponseMessage m) = Ok m ∧
  (DecodeChildrenResponseMessage bs = Ok m' →
     children_ok m' ∧ len (crm_Children m') * 36 < len bs ∧
     ∃ extra, bs = EncodeChildrenResponseMessage m' ++ extra).
Proof.
  intros Hm. split; [by apply crm_roundtrip|]. unfold DecodeChildrenResponseMessage.
  destruct bs as [|x bs]; [done|]. cbn [wrap_res ReadByte].
  destruct (bool_decide_reflect (x = Byte.x01)) as [->|]; [|done]. cbn [negb].
  set (r := mbind _ _). destruct (r bs) as [[m1 rest]| |] eqn:Hr; [|done..]. intros [= ->].
  apply reader_bind_inv in Hr as (n & b1 & [-> Hn]%reader_wrap_inv%read_be_inv & H).
  apply reader_bind_inv in H as (? & b2 & Hg & H). unfold guard_count in Hg.
  destruct (Z.ltb_spec (len b1) (n * 36)) as [|Hle]; [done|]. injection Hg as _ <-.
  apply reader_bind_inv in H as (l & b3 & (-> & Hlen & Hl)%read_children_inv & H).
  injection H as <- <-. assert (Hnl : len l = n) by (unfold len; lia). subst n.
  unfold children_ok, EncodeChildrenResponseMessage, encode_len. cbn [crm_Children].
  rewrite u32_small by done. split_and!; [done|done| |].
  - rewrite len_cons, len_app, len_be. lia.
  - exists b3. by rewrite <- !app_assoc.
Qed.

Lemma children_response_canonical_witness :
  let m := mkChildrenResponseMessage [mkNamed (mkAttribute 1 2 3 0) (b "name");
                                      mkNamed (mkAttribute 2 5 0 0) []] in
  DecodeChildrenResponseMessage (EncodeChildrenResponseMessage m) = Ok m.
Proof.
  intros m. destruct (children_response_canonical m [] m) as [H _]; [|exact H].
  split; [by vm_compute|]. repeat constructor; by vm_compute.
Defined.

(** Empty values are written but cannot be read back over the wire.  The
    server accepts a WRITE of a value without data, such as the empty text, but
    the decoder of every response that carries it fails, and so does the decoder
    of a request whose path ends in an empty component and of an EXECUTE of the
    empty program: [reader.Read] into an empty buffer at the end of the payload
    is an end-of-file error. *)
Theorem empty_value_unreadable tag p author :
  path_fits p → is_u64 author →
  let v := mkValue tag [] in
  let m := mkWriteMessage p v author in
  DecodeWriteMessage (EncodeWriteMessage m) = Some (Ok m) ∧
  is_err (DecodeReadResponseMessage (EncodeReadResponseMessage (mkReadResponseMessage v))) = true ∧
  is_err (DecodeReadAtResponseMessage
    (EncodeReadAtResponseMessage (mkReadAtResponseMessage v))) = true ∧
  (tag ≠ Byte.x00 → ∃ e, DecodeExecuteResponseMessage
    (EncodeExecuteResponseMessage (mkExecuteResponseMessage true v [])) = Some (Err e)) ∧
  (∃ e, DecodeExecuteMessage (EncodeExecuteMessage (mkExecuteMessage [])) = Some (Err e)) ∧
  is_err (DecodeReadMessage (EncodeReadMessage (mkReadMessage [[]]))) = true.
Proof.
  intros Hp Ha v m. split_and!; [by apply wr_roundtrip|done|done| |by eexists|done].
  intros Ht. unfold EncodeExecuteResponseMessage, v. cbn [xr_Success xr_Result Data TypeTag xr_Error].
  rewrite bool_decide_false by done. by eexists.
Qed.

Lemma empty_value_unreadable_witness :
  is_err (DecodeReadResponseMessage
    (EncodeReadResponseMessage (mkReadResponseMessage (mkValue Byte.x01 [])))) = true.
Proof.
  destruct (empty_value_unreadable Byte.x01 [b "a"] 7) as (_ & H & _);
    [split; [by vm_compute|repeat constructor; by vm_compute]|by vm_compute|exact H].
Defined.

(** A PURGE_ACK loses its error.  The encoder sends the reason a purge failed,
    the decoder skips that field: the client sees the failure without a reason,
    unlike a WRITE_ACK with the same fields. *)
Theorem purge_ack_loses_error success e :
  is_u32 (len e) →
  DecodePurgeAckMessage (EncodePurgeAckMessage (mkPurgeAckMessage success e)) =
    Some (Ok (mkPurgeAckMessage success [])) ∧
  DecodeWriteAckMessage (EncodeWriteAckMessage (mkWriteAckMessage success e)) =
    Some (Ok (mkWriteAckMessage success e)).
Proof.
  intros He. split; [|by apply wa_roundtrip].
  destruct e as [|x e]; [by apply pa_roundtrip|].
  apply parses_decode; [by totality|].
  unfold EncodePurgeAckMessage. cbn. parse_field. unfold encode_nonempty, encodeString.
  rewrite fields_cons_tag. apply parses_cons with (r := (λ _ m, m) <$> reader_wrap "failed to skip unknown tag"
    (skipField Byte.x02)) (f := λ m, m) (rest := []); [done| |apply parses_nil].
  apply (reader_fmap_ok (λ _ m, m) _ _ tt), reader_wrap_ok, skipField_string; [by vm_compute|].
  by rewrite app_nil_r.
Qed.

Lemma purge_ack_loses_error_witness :
  DecodePurgeAckMessage (EncodePurgeAckMessage (mkPurgeAckMessage false (b "denied"))) =
    Some (Ok (mkPurgeAckMessage false [])).
Proof. destruct (purge_ack_loses_error false (b "denied")) as [H _]; [by vm_compute|exact H]. Defined.
