(* ===== verification/AuthMessages.v ===== *)
(** * Authentication and enrollment messages (internal/protocol)

    WHOAMI_RESPONSE, the AUTH_ handshake, REGISTER and INVITE_CREATE_RESULT: a
    record, an encoder, the cases of the decoder's [switch] ([x_field]), the
    decoder and the condition under which they agree ([x_ok]) per message. *)
From S2P Require Import Prelude GoHash ValueCodec Wire WireMessage.

(** ** Messages *)

(** *** WhoAmIResponseMessage *)

Record WhoAmIResponseMessage := mkWhoAmIResponseMessage {
  who_AgentID : Z; who_Identity : list byte
}.

Definition EncodeWhoAmIResponseMessage (msg : WhoAmIResponseMessage) : list byte :=
  fields [ encodeInt64 Byte.x01 (i64 (who_AgentID msg));
           encodeString Byte.x02 (who_Identity msg) ].

Definition who_field (tag : byte) :
  option (Reader (WhoAmIResponseMessage → WhoAmIResponseMessage)) :=
  match tag with
  | Byte.x01 => Some ((λ v m, mkWhoAmIResponseMessage v (who_Identity m)) <$>
      reader_wrap "failed to decode agent id" read_agent_id)
  | Byte.x02 => Some ((λ v m, mkWhoAmIResponseMessage (who_AgentID m) v) <$>
      reader_wrap "failed to decode identity" readString)
  | _ => None
  end.

Definition DecodeWhoAmIResponseMessage : list byte → option (res WhoAmIResponseMessage) :=
  decode_payload who_field (mkWhoAmIResponseMessage 0 []).

Definition who_ok (m : WhoAmIResponseMessage) : Prop :=
  is_u64 (who_AgentID m) ∧ is_u32 (len (who_Identity m)) ∧ who_Identity m ≠ [].

(** *** AuthInitMessage *)

Record AuthInitMessage := mkAuthInitMessage { ai_Identity : list byte }.

Definition EncodeAuthInitMessage (msg : AuthInitMessage) : list byte :=
  fields [ encodeString Byte.x01 (ai_Identity msg) ].

Definition ai_field (tag : byte) :
  option (Reader (AuthInitMessage → AuthInitMessage)) :=
  match tag with
  | Byte.x01 => Some ((λ v _, mkAuthInitMessage v) <$>
      reader_wrap "failed to decode identity" readString)
  | _ => None
  end.

Definition DecodeAuthInitMessage : list byte → option (res AuthInitMessage) :=
  decode_payload ai_field (mkAuthInitMessage []).

Definition ai_ok (m : AuthInitMessage) : Prop :=
  is_u32 (len (ai_Identity m)) ∧ ai_Identity m ≠ [].

(** *** AuthChallengeMessage *)

Record AuthChallengeMessage := mkAuthChallengeMessage { ac_Challenge : list byte }.

Definition EncodeAuthChallengeMessage (msg : AuthChallengeMessage) : list byte :=
  fields [ encodeString Byte.x01 (ac_Challenge msg) ].

Definition ac_field (tag : byte) :
  option (Reader (AuthChallengeMessage → AuthChallengeMessage)) :=
  match tag with
  | Byte.x01 => Some ((λ v _, mkAuthChallengeMessage v) <$>
      reader_wrap "failed to decode challenge" readString)
  | _ => None
  end.

Definition DecodeAuthChallengeMessage : list byte → option (res AuthChallengeMessage) :=
  decode_payload ac_field (mkAuthChallengeMessage []).

Definition ac_ok (m : AuthChallengeMessage) : Prop :=
  is_u32 (len (ac_Challenge m)) ∧ ac_Challenge m ≠ [].

(** *** AuthResponseMessage *)

Record AuthResponseMessage := mkAuthResponseMessage { ars_Response : list byte }.

Definition EncodeAuthResponseMessage (msg : AuthResponseMessage) : list byte :=
  fields [ encodeString Byte.x01 (ars_Response msg) ].

Definition ars_field (tag : byte) :
  option (Reader (AuthResponseMessage → AuthResponseMessage)) :=
  match tag with
  | Byte.x01 => Some ((λ v _, mkAuthResponseMessage v) <$>
      reader_wrap "failed to decode response" readString)
  | _ => None
  end.

Definition DecodeAuthResponseMessage : list byte → option (res AuthResponseMessage) :=
  decode_payload ars_field (mkAuthResponseMessage []).

Definition ars_ok (m : AuthResponseMessage) : Prop :=
  is_u32 (len (ars_Response m)) ∧ ars_Response m ≠ [].

(** *** AuthResultMessage *)

Record AuthResultMessage := mkAuthResultMessage {
  are_Success : bool; are_AgentID : Z; are_Identity : list byte; are_Error : list byte
}.

Definition EncodeAuthResultMessage (msg : AuthResultMessage) : list byte :=
  fields [ encodeBool Byte.x01 (are_Success msg);
           encodeInt64 Byte.x02 (i64 (are_AgentID msg));
           encode_nonempty Byte.x03 (are_Identity msg);
           encode_nonempty Byte.x04 (are_Error msg) ].

Definition are_field (tag : byte) :
  option (Reader (AuthResultMessage → AuthResultMessage)) :=
  match tag with
  | Byte.x01 => Some ((λ v m, mkAuthResultMessage v (are_AgentID m) (are_Identity m)
        (are_Error m)) <$>
      reader_wrap "failed to decode success" read_flag)
  | Byte.x02 => Some ((λ v m, mkAuthResultMessage (are_Success m) v (are_Identity m)
        (are_Error m)) <$>
      reader_wrap "failed to decode agent id" read_agent_id)
  | Byte.x03 => Some ((λ v m, mkAuthResultMessage (are_Success m) (are_AgentID m) v (are_Error m)) <$>
      reader_wrap "failed to decode identity" readString)
  | Byte.x04 => Some ((λ v m, mkAuthResultMessage (are_Success m) (are_AgentID m)
        (are_Identity m) v) <$>
      reader_wrap "failed to decode error" readString)
  | _ => None
  end.

Definition DecodeAuthResultMessage : list byte → option (res AuthResultMessage) :=
  decode_payload are_field (mkAuthResultMessage false 0 [] []).

Definition are_ok (m : AuthResultMessage) : Prop :=
  is_u64 (are_AgentID m) ∧ is_u32 (len (are_Identity m)) ∧ is_u32 (len (are_Error m)).

(** *** RegisterMessage *)

Record RegisterMessage := mkRegisterMessage {
  rg_Identity : list byte; rg_PublicKey : list byte; rg_Token : list byte
}.

Definition EncodeRegisterMessage (msg : RegisterMessage) : list byte :=
  fields [ encodeString Byte.x01 (rg_Identity msg);
           encodeString Byte.x02 (rg_PublicKey msg);
           encodeString Byte.x03 (rg_Token msg) ].

Definition rg_field (tag : byte) :
  option (Reader (RegisterMessage → RegisterMessage)) :=
  match tag with
  | Byte.x01 => Some ((λ v m, mkRegisterMessage v (rg_PublicKey m) (rg_Token m)) <$>
      reader_wrap "failed to decode identity" readString)
  | Byte.x02 => Some ((λ v m, mkRegisterMessage (rg_Identity m) v (rg_Token m)) <$>
      reader_wrap "failed to decode public key" readString)
  | Byte.x03 => Some ((λ v m, mkRegisterMessage (rg_Identity m) (rg_PublicKey m) v) <$>
      reader_wrap "failed to decode token" readString)
  | _ => None
  end.

Definition DecodeRegisterMessage : list byte → option (res RegisterMessage) :=
  decode_payload rg_field (mkRegisterMessage [] [] []).

Definition rg_ok (m : RegisterMessage) : Prop :=
  is_u32 (len (rg_Identity m)) ∧ is_u32 (len (rg_PublicKey m)) ∧ is_u32 (len (rg_Token m)) ∧
  rg_Token m ≠ [].

(** *** RegisterResultMessage *)

Record RegisterResultMessage := mkRegisterResultMessage {
  rr_Success : bool; rr_AgentID : Z; rr_Error : list byte
}.

Definition EncodeRegisterResultMessage (msg : RegisterResultMessage) : list byte :=
  fields [ encodeBool Byte.x01 (rr_Success msg);
           encodeInt64 Byte.x02 (i64 (rr_AgentID msg));
           encode_nonempty Byte.x03 (rr_Error msg) ].

Definition rr_field (tag : byte) :
  option (Reader (RegisterResultMessage → RegisterResultMessage)) :=
  match tag with
  | Byte.x01 => Some ((λ v m, mkRegisterResultMessage v (rr_AgentID m) (rr_Error m)) <$>
      reader_wrap "failed to decode success" read_flag)
  | Byte.x02 => Some ((λ v m, mkRegisterResultMessage (rr_Success m) v (rr_Error m)) <$>
      reader_wrap "failed to decode agent id" read_agent_id)
  | Byte.x03 => Some ((λ v m, mkRegisterResultMessage (rr_Success m) (rr_AgentID m) v) <$>
      reader_wrap "failed to decode error" readString)
  | _ => None
  end.

Definition DecodeRegisterResultMessage : list byte → option (res RegisterResultMessage) :=
  decode_payload rr_field (mkRegisterResultMessage false 0 []).

Definition rr_ok (m : RegisterResultMessage) : Prop :=
  is_u64 (rr_AgentID m) ∧ is_u32 (len (rr_Error m)).

(** *** InviteCreateResultMessage *)

Record InviteCreateResultMessage := mkInviteCreateResultMessage {
  ic_Success : bool; ic_Token : list byte; ic_Error : list byte
}.

Definition EncodeInviteCreateResultMessage (msg : InviteCreateResultMessage) : list byte :=
  fields [ encodeBool Byte.x01 (ic_Success msg);
           encode_nonempty Byte.x02 (ic_Token msg);
           encode_nonempty Byte.x03 (ic_Error msg) ].

Definition ic_field (tag : byte) :
  option (Reader (InviteCreateResultMessage → InviteCreateResultMessage)) :=
  match tag with
  | Byte.x01 => Some ((λ v m, mkInviteCreateResultMessage v (ic_Token m) (ic_Error m)) <$>
      reader_wrap "failed to decode success" read_flag)
  | Byte.x02 => Some ((λ v m, mkInviteCreateResultMessage (ic_Success m) v (ic_Error m)) <$>
      reader_wrap "failed to decode token" readString)
  | Byte.x03 => Some ((λ v m, mkInviteCreateResultMessage (ic_Success m) (ic_Token m) v) <$>
      reader_wrap "failed to decode error" readString)
  | _ => None
  end.

Definition DecodeInviteCreateResultMessage : list byte → option (res InviteCreateResultMessage) :=
  decode_payload ic_field (mkInviteCreateResultMessage false [] []).

Definition ic_ok (m : InviteCreateResultMessage) : Prop :=
  is_u32 (len (ic_Token m)) ∧ is_u32 (len (ic_Error m)).

(** ** The laws of each message *)

Lemma who_roundtrip m :
  who_ok m → DecodeWhoAmIResponseMessage (EncodeWhoAmIResponseMessage m) = Some (Ok m).
Proof. roundtrip m. Qed.
Lemma who_total bs : terminates (DecodeWhoAmIResponseMessage bs).
Proof. by apply decode_payload_total; totality. Qed.

Lemma ai_roundtrip m :
  ai_ok m → DecodeAuthInitMessage (EncodeAuthInitMessage m) = Some (Ok m).
Proof. roundtrip m. Qed.
Lemma ai_total bs : terminates (DecodeAuthInitMessage bs).
Proof. by apply decode_payload_total; totality. Qed.

Lemma ac_roundtrip m :
  ac_ok m → DecodeAuthChallengeMessage (EncodeAuthChallengeMessage m) = Some (Ok m).
Proof. roundtrip m. Qed.
Lemma ac_total bs : terminates (DecodeAuthChallengeMessage bs).
Proof. by apply decode_payload_total; totality. Qed.

Lemma ars_roundtrip m :
  ars_ok m → DecodeAuthResponseMessage (EncodeAuthResponseMessage m) = Some (Ok m).
Proof. roundtrip m. Qed.
Lemma ars_total bs : terminates (DecodeAuthResponseMessage bs).
Proof. by apply decode_payload_total; totality. Qed.

Lemma are_roundtrip m :
  are_ok m → DecodeAuthResultMessage (EncodeAuthResultMessage m) = Some (Ok m).
Proof. roundtrip m. Qed.
Lemma are_total bs : terminates (DecodeAuthResultMessage bs).
Proof. by apply decode_payload_total; totality. Qed.

Lemma rg_roundtrip m :
  rg_ok m → DecodeRegisterMessage (EncodeRegisterMessage m) = Some (Ok m).
Proof. roundtrip m. Qed.
Lemma rg_total bs : terminates (DecodeRegisterMessage bs).
Proof. by apply decode_payload_total; totality. Qed.

Lemma rr_roundtrip m :
  rr_ok m → DecodeRegisterResultMessage (EncodeRegisterResultMessage m) = Some (Ok m).
Proof. roundtrip m. Qed.
Lemma rr_total bs : terminates (DecodeRegisterResultMessage bs).
Proof. by apply decode_payload_total; totality. Qed.

Lemma ic_roundtrip m :
  ic_ok m → DecodeInviteCreateResultMessage (EncodeInviteCreateResultMessage m) = Some (Ok m).
Proof. roundtrip m. Qed.
Lemma ic_total bs : terminates (DecodeInviteCreateResultMessage bs).
Proof. by apply decode_payload_total; totality. Qed.

(** ** The interface *)

#[global] Instance who_wire : WireMessage WhoAmIResponseMessage := {
  wm_encode := EncodeWhoAmIResponseMessage; wm_decode := DecodeWhoAmIResponseMessage; wm_ok := who_ok;
  wm_roundtrip := who_roundtrip; wm_total := who_total }.
#[global] Instance ai_wire : WireMessage AuthInitMessage := {
  wm_encode := EncodeAuthInitMessage; wm_decode := DecodeAuthInitMessage; wm_ok := ai_ok;
  wm_roundtrip := ai_roundtrip; wm_total := ai_total }.
#[global] Instance ac_wire : WireMessage AuthChallengeMessage := {
  wm_encode := EncodeAuthChallengeMessage; wm_decode := DecodeAuthChallengeMessage; wm_ok := ac_ok;
  wm_roundtrip := ac_roundtrip; wm_total := ac_total }.
#[global] Instance ars_wire : WireMessage AuthResponseMessage := {
  wm_encode := EncodeAuthResponseMessage; wm_decode := DecodeAuthResponseMessage; wm_ok := ars_ok;
  wm_roundtrip := ars_roundtrip; wm_total := ars_total }.
#[global] Instance are_wire : WireMessage AuthResultMessage := {
  wm_encode := EncodeAuthResultMessage; wm_decode := DecodeAuthResultMessage; wm_ok := are_ok;
  wm_roundtrip := are_roundtrip; wm_total := are_total }.
#[global] Instance rg_wire : WireMessage RegisterMessage := {
  wm_encode := EncodeRegisterMessage; wm_decode := DecodeRegisterMessage; wm_ok := rg_ok;
  wm_roundtrip := rg_roundtrip; wm_total := rg_total }.
#[global] Instance rr_wire : WireMessage RegisterResultMessage := {
  wm_encode := EncodeRegisterResultMessage; wm_decode := DecodeRegisterResultMessage; wm_ok := rr_ok;
  wm_roundtrip := rr_roundtrip; wm_total := rr_total }.
#[global] Instance ic_wire : WireMessage InviteCreateResultMessage := {
  wm_encode := EncodeInviteCreateResultMessage; wm_decode := DecodeInviteCreateResultMessage; wm_ok := ic_ok;
  wm_roundtrip := ic_roundtrip; wm_total := ic_total }.

(** ** Properties *)

(** Authentication messages survive the wire.  For every message of the
    handshake and of enrollment that satisfies its condition - each string
    shorter than 2^32 bytes and not the empty end of the payload - the decoder
    returns exactly the message that was encoded; in particular a [uint64] agent
    id sent as an [int64] comes back bit for bit. *)
Theorem auth_messages_roundtrip :
  (∀ m, who_ok m →
     DecodeWhoAmIResponseMessage (EncodeWhoAmIResponseMessage m) = Some (Ok m)) ∧
  (∀ m, ai_ok m →
     DecodeAuthInitMessage (EncodeAuthInitMessage m) = Some (Ok m)) ∧
  (∀ m, ac_ok m →
     DecodeAuthChallengeMessage (EncodeAuthChallengeMessage m) = Some (Ok m)) ∧
  (∀ m, ars_ok m →
     DecodeAuthResponseMessage (EncodeAuthResponseMessage m) = Some (Ok m)) ∧
  (∀ m, are_ok m →
     DecodeAuthResultMessage (EncodeAuthResultMessage m) = Some (Ok m)) ∧
  (∀ m, rg_ok m →
     DecodeRegisterMessage (EncodeRegisterMessage m) = Some (Ok m)) ∧
  (∀ m, rr_ok m →
     DecodeRegisterResultMessage (EncodeRegisterResultMessage m) = Some (Ok m)) ∧
  (∀ m, ic_ok m →
     DecodeInviteCreateResultMessage (EncodeInviteCreateResultMessage m) = Some (Ok m)).
Proof.
  split_and!; intros;
    auto using who_roundtrip, ai_roundtrip, ac_roundtrip, ars_roundtrip, are_roundtrip,
      rg_roundtrip, rr_roundtrip, ic_roundtrip.
Qed.

Lemma auth_messages_roundtrip_witness :
  let m := mkAuthResultMessage true (2 ^ 64 - 1) (b "ko-ra") [] in
  DecodeAuthResultMessage (EncodeAuthResultMessage m) = Some (Ok m).
Proof.
  destruct auth_messages_roundtrip as (_ & _ & _ & _ & H & _).
  intros m. apply (H m). split_and!; try done; by apply (bool_decide_unpack _); vm_compute.
Defined.
