(* ===== verification/MeshMessages.v ===== *)
(** * Mesh management messages (internal/protocol)

    Creating, describing, discovering and joining a mesh, and bridges to other
    meshes: a record, an encoder, the cases of the decoder's [switch]
    ([x_field]), the decoder and the condition under which they agree ([x_ok])
    per message. *)
From S2P Require Import Prelude GoHash ValueCodec Wire WireMessage.

(** ** Messages *)

(** *** CreateMeshMessage *)

Record CreateMeshMessage := mkCreateMeshMessage { cm_Name : list byte }.

Definition EncodeCreateMeshMessage (msg : CreateMeshMessage) : list byte :=
  fields [ encodeString Byte.x01 (cm_Name msg) ].

Definition cm_field (tag : byte) :
  option (Reader (CreateMeshMessage → CreateMeshMessage)) :=
  match tag with
  | Byte.x01 => Some ((λ v _, mkCreateMeshMessage v) <$>
      reader_wrap "failed to decode mesh name" readString)
  | _ => None
  end.

Definition DecodeCreateMeshMessage : list byte → option (res CreateMeshMessage) :=
  decode_payload cm_field (mkCreateMeshMessage []).

Definition cm_ok (m : CreateMeshMessage) : Prop :=
  is_u32 (len (cm_Name m)) ∧ cm_Name m ≠ [].

(** *** CreateMeshAckMessage *)

Record CreateMeshAckMessage := mkCreateMeshAckMessage {
  cma_Success : bool; cma_Message : list byte; cma_MeshName : list byte; cma_NodeID : list byte;
  cma_IsFounder : bool
}.

Definition EncodeCreateMeshAckMessage (msg : CreateMeshAckMessage) : list byte :=
  fields [ encodeBool Byte.x01 (cma_Success msg);
           encodeString Byte.x02 (cma_Message msg);
           encode_nonempty Byte.x03 (cma_MeshName msg);
           encode_nonempty Byte.x04 (cma_NodeID msg);
           encodeBool Byte.x05 (cma_IsFounder msg) ].

Definition cma_field (tag : byte) :
  option (Reader (CreateMeshAckMessage → CreateMeshAckMessage)) :=
  match tag with
  | Byte.x01 => Some ((λ v m, mkCreateMeshAckMessage v (cma_Message m) (cma_MeshName m)
        (cma_NodeID m) (cma_IsFounder m)) <$>
      reader_wrap "failed to decode success" read_flag)
  | Byte.x02 => Some ((λ v m, mkCreateMeshAckMessage (cma_Success m) v (cma_MeshName m)
        (cma_NodeID m) (cma_IsFounder m)) <$>
      reader_wrap "failed to decode message" readString)
  | Byte.x03 => Some ((λ v m, mkCreateMeshAckMessage (cma_Success m) (cma_Message m) v
        (cma_NodeID m) (cma_IsFounder m)) <$>
      reader_wrap "failed to decode mesh name" readString)
  | Byte.x04 => Some ((λ v m, mkCreateMeshAckMessage (cma_Success m) (cma_Message m)
        (cma_MeshName m) v (cma_IsFounder m)) <$>
      reader_wrap "failed to decode node ID" readString)
  | Byte.x05 => Some ((λ v m, mkCreateMeshAckMessage (cma_Success m) (cma_Message m)
        (cma_MeshName m) (cma_NodeID m) v) <$>
      reader_wrap "failed to decode is founder" read_flag)
  | _ => None
  end.

Definition DecodeCreateMeshAckMessage : list byte → option (res CreateMeshAckMessage) :=
  decode_payload cma_field (mkCreateMeshAckMessage false [] [] [] false).

Definition cma_ok (m : CreateMeshAckMessage) : Prop :=
  is_u32 (len (cma_Message m)) ∧ is_u32 (len (cma_MeshName m)) ∧ is_u32 (len (cma_NodeID m)).

(** *** DiscoverMeshResponseMessage *)

Record DiscoverMeshResponseMessage := mkDiscoverMeshResponseMessage {
  dm_MeshName : list byte; dm_FounderIdentity : list byte; dm_MemberCount : Z; dm_ZoneCount : Z;
  dm_RequiresAuth : bool; dm_FoundedAt : Z
}.

Definition EncodeDiscoverMeshResponseMessage (msg : DiscoverMeshResponseMessage) : list byte :=
  fields [ encodeString Byte.x01 (dm_MeshName msg);
           encodeString Byte.x02 (dm_FounderIdentity msg);
           encodeInt32 Byte.x03 (i32 (dm_MemberCount msg));
           encodeInt32 Byte.x04 (i32 (dm_ZoneCount msg));
           encodeBool Byte.x05 (dm_RequiresAuth msg);
           encodeInt64 Byte.x06 (dm_FoundedAt msg) ].

Definition dm_field (tag : byte) :
  option (Reader (DiscoverMeshResponseMessage → DiscoverMeshResponseMessage)) :=
  match tag with
  | Byte.x01 => Some ((λ v m, mkDiscoverMeshResponseMessage v (dm_FounderIdentity m)
        (dm_MemberCount m) (dm_ZoneCount m) (dm_RequiresAuth m) (dm_FoundedAt m)) <$>
      reader_wrap "failed to decode mesh name" readString)
  | Byte.x02 => Some ((λ v m, mkDiscoverMeshResponseMessage (dm_MeshName m) v (dm_MemberCount m)
        (dm_ZoneCount m) (dm_RequiresAuth m) (dm_FoundedAt m)) <$>
      reader_wrap "failed to decode founder identity" readString)
  | Byte.x03 => Some ((λ v m, mkDiscoverMeshResponseMessage (dm_MeshName m)
        (dm_FounderIdentity m) v (dm_ZoneCount m) (dm_RequiresAuth m) (dm_FoundedAt m)) <$>
      reader_wrap "failed to decode member count" read_int32)
  | Byte.x04 => Some ((λ v m, mkDiscoverMeshResponseMessage (dm_MeshName m)
        (dm_FounderIdentity m) (dm_MemberCount m) v (dm_RequiresAuth m) (dm_FoundedAt m)) <$>
      reader_wrap "failed to decode zone count" read_int32)
  | Byte.x05 => Some ((λ v m, mkDiscoverMeshResponseMessage (dm_MeshName m)
        (dm_FounderIdentity m) (dm_MemberCount m) (dm_ZoneCount m) v (dm_FoundedAt m)) <$>
      reader_wrap "failed to decode requires auth" read_flag)
  | Byte.x06 => Some ((λ v m, mkDiscoverMeshResponseMessage (dm_MeshName m)
        (dm_FounderIdentity m) (dm_MemberCount m) (dm_ZoneCount m) (dm_RequiresAuth m) v) <$>
      reader_wrap "failed to decode founded at" read_int64)
  | _ => None
  end.

Definition DecodeDiscoverMeshResponseMessage : list byte → option (res DiscoverMeshResponseMessage) :=
  decode_payload dm_field (mkDiscoverMeshResponseMessage [] [] 0 0 false 0).

Definition dm_ok (m : DiscoverMeshResponseMessage) : Prop :=
  is_u32 (len (dm_MeshName m)) ∧ is_u32 (len (dm_FounderIdentity m)) ∧
  is_i32 (dm_MemberCount m) ∧ is_i32 (dm_ZoneCount m) ∧ is_i64 (dm_FoundedAt m).

(** *** JoinMeshMessage *)

Record JoinMeshMessage := mkJoinMeshMessage {
  jm_NodeIdentity : list byte; jm_MeshName : list byte
}.

Definition EncodeJoinMeshMessage (msg : JoinMeshMessage) : list byte :=
  fields [ encodeString Byte.x01 (jm_NodeIdentity msg);
           encodeString Byte.x02 (jm_MeshName msg) ].

Definition jm_field (tag : byte) :
  option (Reader (JoinMeshMessage → JoinMeshMessage)) :=
  match tag with
  | Byte.x01 => Some ((λ v m, mkJoinMeshMessage v (jm_MeshName m)) <$>
      reader_wrap "failed to decode node identity" readString)
  | Byte.x02 => Some ((λ v m, mkJoinMeshMessage (jm_NodeIdentity m) v) <$>
      reader_wrap "failed to decode mesh name" readString)
  | _ => None
  end.

Definition DecodeJoinMeshMessage : list byte → option (res JoinMeshMessage) :=
  decode_payload jm_field (mkJoinMeshMessage [] []).

Definition jm_ok (m : JoinMeshMessage) : Prop :=
  is_u32 (len (jm_NodeIdentity m)) ∧ is_u32 (len (jm_MeshName m)) ∧ jm_MeshName m ≠ [].

(** *** JoinMeshAckMessage *)

Record JoinMeshAckMessage := mkJoinMeshAckMessage {
  jma_Success : bool; jma_Message : list byte; jma_AssignedZone : list byte; jma_MemberCount : Z
}.

Definition EncodeJoinMeshAckMessage (msg : JoinMeshAckMessage) : list byte :=
  fields [ encodeBool Byte.x01 (jma_Success msg);
           encodeString Byte.x02 (jma_Message msg);
           encode_nonempty Byte.x03 (jma_AssignedZone msg);
           encodeInt32 Byte.x04 (i32 (jma_MemberCount msg)) ].

Definition jma_field (tag : byte) :
  option (Reader (JoinMeshAckMessage → JoinMeshAckMessage)) :=
  match tag with
  | Byte.x01 => Some ((λ v m, mkJoinMeshAckMessage v (jma_Message m) (jma_AssignedZone m)
        (jma_MemberCount m)) <$>
      reader_wrap "failed to decode success" read_flag)
  | Byte.x02 => Some ((λ v m, mkJoinMeshAckMessage (jma_Success m) v (jma_AssignedZone m)
        (jma_MemberCount m)) <$>
      reader_wrap "failed to decode message" readString)
  | Byte.x03 => Some ((λ v m, mkJoinMeshAckMessage (jma_Success m) (jma_Message m) v
        (jma_MemberCount m)) <$>
      reader_wrap "failed to decode assigned zone" readString)
  | Byte.x04 => Some ((λ v m, mkJoinMeshAckMessage (jma_Success m) (jma_Message m)
        (jma_AssignedZone m) v) <$>
      reader_wrap "failed to decode member count" read_int32)
  | _ => None
  end.

Definition DecodeJoinMeshAckMessage : list byte → option (res JoinMeshAckMessage) :=
  decode_payload jma_field (mkJoinMeshAckMessage false [] [] 0).

Definition jma_ok (m : JoinMeshAckMessage) : Prop :=
  is_u32 (len (jma_Message m)) ∧ is_u32 (len (jma_AssignedZone m)) ∧ is_i32 (jma_MemberCount m).

(** *** CreateBridgeMessage *)

Record CreateBridgeMessage := mkCreateBridgeMessage {
  cb_TargetAddress : list byte; cb_NodeIdentity : list byte
}.

Definition EncodeCreateBridgeMessage (msg : CreateBridgeMessage) : list byte :=
  fields [ encodeString Byte.x01 (cb_TargetAddress msg);
           encodeString Byte.x02 (cb_NodeIdentity msg) ].

Definition cb_field (tag : byte) :
  option (Reader (CreateBridgeMessage → CreateBridgeMessage)) :=
  match tag with
  | Byte.x01 => Some ((λ v m, mkCreateBridgeMessage v (cb_NodeIdentity m)) <$>
      reader_wrap "failed to decode target address" readString)
  | Byte.x02 => Some ((λ v m, mkCreateBridgeMessage (cb_TargetAddress m) v) <$>
      reader_wrap "failed to decode node identity" readString)
  | _ => None
  end.

Definition DecodeCreateBridgeMessage : list byte → option (res CreateBridgeMessage) :=
  decode_payload cb_field (mkCreateBridgeMessage [] []).

Definition cb_ok (m : CreateBridgeMessage) : Prop :=
  is_u32 (len (cb_TargetAddress m)) ∧ is_u32 (len (cb_NodeIdentity m)) ∧ cb_NodeIdentity m ≠ [].

(** *** CreateBridgeAckMessage *)

Record CreateBridgeAckMessage := mkCreateBridgeAckMessage {
  cba_Success : bool; cba_Message : list byte; cba_TargetMeshName : list byte;
  cba_BridgeIdentity : list byte; cba_BridgeStatus : list byte
}.

Definition EncodeCreateBridgeAckMessage (msg : CreateBridgeAckMessage) : list byte :=
  fields [ encodeBool Byte.x01 (cba_Success msg);
           encodeString Byte.x02 (cba_Message msg);
           encode_nonempty Byte.x03 (cba_TargetMeshName msg);
           encode_nonempty Byte.x04 (cba_BridgeIdentity msg);
           encode_nonempty Byte.x05 (cba_BridgeStatus msg) ].

Definition cba_field (tag : byte) :
  option (Reader (CreateBridgeAckMessage → CreateBridgeAckMessage)) :=
  match tag with
  | Byte.x01 => Some ((λ v m, mkCreateBridgeAckMessage v (cba_Message m) (cba_TargetMeshName m)
        (cba_BridgeIdentity m) (cba_BridgeStatus m)) <$>
      reader_wrap "failed to decode success" read_flag)
  | Byte.x02 => Some ((λ v m, mkCreateBridgeAckMessage (cba_Success m) v (cba_TargetMeshName m)
        (cba_BridgeIdentity m) (cba_BridgeStatus m)) <$>
      reader_wrap "failed to decode message" readString)
  | Byte.x03 => Some ((λ v m, mkCreateBridgeAckMessage (cba_Success m) (cba_Message m) v
        (cba_BridgeIdentity m) (cba_BridgeStatus m)) <$>
      reader_wrap "failed to decode target mesh name" readString)
  | Byte.x04 => Some ((λ v m, mkCreateBridgeAckMessage (cba_Success m) (cba_Message m)
        (cba_TargetMeshName m) v (cba_BridgeStatus m)) <$>
      reader_wrap "failed to decode bridge identity" readString)
  | Byte.x05 => Some ((λ v m, mkCreateBridgeAckMessage (cba_Success m) (cba_Message m)
        (cba_TargetMeshName m) (cba_BridgeIdentity m) v) <$>
      reader_wrap "failed to decode bridge status" readString)
  | _ => None
  end.

Definition DecodeCreateBridgeAckMessage : list byte → option (res CreateBridgeAckMessage) :=
  decode_payload cba_field (mkCreateBridgeAckMessage false [] [] [] []).

Definition cba_ok (m : CreateBridgeAckMessage) : Prop :=
  is_u32 (len (cba_Message m)) ∧
  (cba_Message m ≠ [] ∨ cba_TargetMeshName m ≠ [] ∨ cba_BridgeIdentity m ≠ [] ∨ cba_BridgeStatus m ≠ []) ∧
  is_u32 (len (cba_TargetMeshName m)) ∧ is_u32 (len (cba_BridgeIdentity m)) ∧
  is_u32 (len (cba_BridgeStatus m)).

(** *** MeshStatusMessage and DiscoverMeshMessage: no fields, anything skipped *)

Record MeshStatusMessage := mkMeshStatusMessage {}.
Definition EncodeMeshStatusMessage (msg : MeshStatusMessage) : list byte := [].
Definition DecodeMeshStatusMessage : list byte → option (res MeshStatusMessage) :=
  decode_payload (λ _, None) mkMeshStatusMessage.
Definition mst_ok (m : MeshStatusMessage) : Prop := True.

Record DiscoverMeshMessage := mkDiscoverMeshMessage {}.
Definition EncodeDiscoverMeshMessage (msg : DiscoverMeshMessage) : list byte := [].
Definition DecodeDiscoverMeshMessage : list byte → option (res DiscoverMeshMessage) :=
  decode_payload (λ _, None) mkDiscoverMeshMessage.
Definition dis_ok (m : DiscoverMeshMessage) : Prop := True.

(** *** MeshStatusResponseMessage

    A [*int64] is an optional integer; the map of bridges is in the message but
    not on the wire. *)

Record BridgeStatusInfo := mkBridgeStatusInfo {
  bsi_Address : list byte; bsi_Status : list byte; bsi_Identity : list byte;
  bsi_ConnectedAt : option Z
}.

Record MeshStatusResponseMessage := mkMeshStatusResponseMessage {
  ms_MeshName : list byte; ms_Status : list byte; ms_IsFounder : bool;
  ms_NodeIdentity : list byte; ms_MemberCount : Z; ms_ZoneCount : Z;
  ms_FoundedAt : option Z; ms_Bridges : gmap (list byte) BridgeStatusInfo
}.

Definition encode_optional_int64 (tag : byte) (v : option Z) : list byte :=
  match v with Some z => encodeInt64 tag z | None => [] end.

Definition EncodeMeshStatusResponseMessage (msg : MeshStatusResponseMessage) : list byte :=
  fields [ encodeString Byte.x01 (ms_MeshName msg);
           encodeString Byte.x02 (ms_Status msg);
           encodeBool Byte.x03 (ms_IsFounder msg);
           encodeString Byte.x04 (ms_NodeIdentity msg);
           encodeInt32 Byte.x05 (i32 (ms_MemberCount msg));
           encodeInt32 Byte.x06 (i32 (ms_ZoneCount msg));
           encode_optional_int64 Byte.x07 (ms_FoundedAt msg) ].

Definition ms_field (tag : byte) :
  option (Reader (MeshStatusResponseMessage → MeshStatusResponseMessage)) :=
  match tag with
  | Byte.x01 => Some ((λ v m, mkMeshStatusResponseMessage v (ms_Status m) (ms_IsFounder m)
        (ms_NodeIdentity m) (ms_MemberCount m) (ms_ZoneCount m) (ms_FoundedAt m) (ms_Bridges m)) <$>
      reader_wrap "failed to decode mesh name" readString)
  | Byte.x02 => Some ((λ v m, mkMeshStatusResponseMessage (ms_MeshName m) v (ms_IsFounder m)
        (ms_NodeIdentity m) (ms_MemberCount m) (ms_ZoneCount m) (ms_FoundedAt m) (ms_Bridges m)) <$>
      reader_wrap "failed to decode status" readString)
  | Byte.x03 => Some ((λ v m, mkMeshStatusResponseMessage (ms_MeshName m) (ms_Status m) v
        (ms_NodeIdentity m) (ms_MemberCount m) (ms_ZoneCount m) (ms_FoundedAt m) (ms_Bridges m)) <$>
      reader_wrap "failed to decode is founder" read_flag)
  | Byte.x04 => Some ((λ v m, mkMeshStatusResponseMessage (ms_MeshName m) (ms_Status m)
        (ms_IsFounder m) v (ms_MemberCount m) (ms_ZoneCount m) (ms_FoundedAt m) (ms_Bridges m)) <$>
      reader_wrap "failed to decode node identity" readString)
  | Byte.x05 => Some ((λ v m, mkMeshStatusResponseMessage (ms_MeshName m) (ms_Status m)
        (ms_IsFounder m) (ms_NodeIdentity m) v (ms_ZoneCount m) (ms_FoundedAt m) (ms_Bridges m)) <$>
      reader_wrap "failed to decode member count" read_int32)
  | Byte.x06 => Some ((λ v m, mkMeshStatusResponseMessage (ms_MeshName m) (ms_Status m)
        (ms_IsFounder m) (ms_NodeIdentity m) (ms_MemberCount m) v (ms_FoundedAt m) (ms_Bridges m)) <$>
      reader_wrap "failed to decode zone count" read_int32)
  | Byte.x07 => Some ((λ v m, mkMeshStatusResponseMessage (ms_MeshName m) (ms_Status m)
        (ms_IsFounder m) (ms_NodeIdentity m) (ms_MemberCount m) (ms_ZoneCount m) (Some v)
        (ms_Bridges m)) <$>
      reader_wrap "failed to decode founded at" read_int64)
  | _ => None
  end.

Definition DecodeMeshStatusResponseMessage : list byte → option (res MeshStatusResponseMessage) :=
  decode_payload ms_field (mkMeshStatusResponseMessage [] [] false [] 0 0 None ∅).

Definition ms_ok (m : MeshStatusResponseMessage) : Prop :=
  is_u32 (len (ms_MeshName m)) ∧ is_u32 (len (ms_Status m)) ∧ is_u32 (len (ms_NodeIdentity m)) ∧
  is_i32 (ms_MemberCount m) ∧ is_i32 (ms_ZoneCount m) ∧ (∀ z, ms_FoundedAt m = Some z → is_i64 z) ∧
  ms_Bridges m = ∅.

(** ** The laws of each message *)

Lemma cm_roundtrip m :
  cm_ok m → DecodeCreateMeshMessage (EncodeCreateMeshMessage m) = Some (Ok m).
Proof. roundtrip m. Qed.
Lemma cm_total bs : terminates (DecodeCreateMeshMessage bs).
Proof. by apply decode_payload_total; totality. Qed.

Lemma cma_roundtrip m :
  cma_ok m → DecodeCreateMeshAckMessage (EncodeCreateMeshAckMessage m) = Some (Ok m).
Proof. roundtrip m. Qed.
Lemma cma_total bs : terminates (DecodeCreateMeshAckMessage bs).
Proof. by apply decode_payload_total; totality. Qed.

Lemma dm_roundtrip m :
  dm_ok m → DecodeDiscoverMeshResponseMessage (EncodeDiscoverMeshResponseMessage m) = Some (Ok m).
Proof. roundtrip m. Qed.
Lemma dm_total bs : terminates (DecodeDiscoverMeshResponseMessage bs).
Proof. by apply decode_payload_total; totality. Qed.

Lemma jm_roundtrip m :
  jm_ok m → DecodeJoinMeshMessage (EncodeJoinMeshMessage m) = Some (Ok m).
Proof. roundtrip m. Qed.
Lemma jm_total bs : terminates (DecodeJoinMeshMessage bs).
Proof. by apply decode_payload_total; totality. Qed.

Lemma jma_roundtrip m :
  jma_ok m → DecodeJoinMeshAckMessage (EncodeJoinMeshAckMessage m) = Some (Ok m).
Proof. roundtrip m. Qed.
Lemma jma_total bs : terminates (DecodeJoinMeshAckMessage bs).
Proof. by apply decode_payload_total; totality. Qed.

Lemma cb_roundtrip m :
  cb_ok m → DecodeCreateBridgeMessage (EncodeCreateBridgeMessage m) = Some (Ok m).
Proof. roundtrip m. Qed.
Lemma cb_total bs : terminates (DecodeCreateBridgeMessage bs).
Proof. by apply decode_payload_total; totality. Qed.

Lemma cba_roundtrip m :
  cba_ok m → DecodeCreateBridgeAckMessage (EncodeCreateBridgeAckMessage m) = Some (Ok m).
Proof. roundtrip m. Qed.
Lemma cba_total bs : terminates (DecodeCreateBridgeAckMessage bs).
Proof. by apply decode_payload_total; totality. Qed.

Lemma mst_roundtrip m : mst_ok m → DecodeMeshStatusMessage (EncodeMeshStatusMessage m) = Some (Ok m).
Proof. by destruct m. Qed.
Lemma mst_total bs : terminates (DecodeMeshStatusMessage bs).
Proof. by apply decode_payload_total. Qed.

Lemma dis_roundtrip m : dis_ok m → DecodeDiscoverMeshMessage (EncodeDiscoverMeshMessage m) = Some (Ok m).
Proof. by destruct m. Qed.
Lemma dis_total bs : terminates (DecodeDiscoverMeshMessage bs).
Proof. by apply decode_payload_total. Qed.

Lemma ms_total bs : terminates (DecodeMeshStatusResponseMessage bs).
Proof. by apply decode_payload_total; totality. Qed.

(** What is sent of a status: everything but the bridges. *)
Lemma ms_roundtrip_but_bridges m :
  ms_ok (mkMeshStatusResponseMessage (ms_MeshName m) (ms_Status m) (ms_IsFounder m)
    (ms_NodeIdentity m) (ms_MemberCount m) (ms_ZoneCount m) (ms_FoundedAt m) ∅) →
  DecodeMeshStatusResponseMessage (EncodeMeshStatusResponseMessage m) =
    Some (Ok (mkMeshStatusResponseMessage (ms_MeshName m) (ms_Status m) (ms_IsFounder m)
      (ms_NodeIdentity m) (ms_MemberCount m) (ms_ZoneCount m) (ms_FoundedAt m) ∅)).
Proof.
  destruct m as [n s f i c z [t|] br]; intros Hok; red in Hok; cbn in Hok; destruct_ands;
    [assert (is_i64 t) by auto|]; apply parses_decode; try (by totality);
    unfold EncodeMeshStatusResponseMessage, encode_optional_int64; cbn; repeat parse_field.
Qed.

Lemma ms_roundtrip m : ms_ok m →
  DecodeMeshStatusResponseMessage (EncodeMeshStatusResponseMessage m) = Some (Ok m).
Proof.
  intros Hok. destruct m. assert (Hb := Hok). destruct Hb as (_ & _ & _ & _ & _ & _ & Hb).
  cbn in Hb. subst. by apply ms_roundtrip_but_bridges.
Qed.

(** ** The interface *)

#[global] Instance cm_wire : WireMessage CreateMeshMessage := {
  wm_encode := EncodeCreateMeshMessage; wm_decode := DecodeCreateMeshMessage; wm_ok := cm_ok;
  wm_roundtrip := cm_roundtrip; wm_total := cm_total }.
#[global] Instance cma_wire : WireMessage CreateMeshAckMessage := {
  wm_encode := EncodeCreateMeshAckMessage; wm_decode := DecodeCreateMeshAckMessage; wm_ok := cma_ok;
  wm_roundtrip := cma_roundtrip; wm_total := cma_total }.
#[global] Instance dm_wire : WireMessage DiscoverMeshResponseMessage := {
  wm_encode := EncodeDiscoverMeshResponseMessage; wm_decode := DecodeDiscoverMeshResponseMessage; wm_ok := dm_ok;
  wm_roundtrip := dm_roundtrip; wm_total := dm_total }.
#[global] Instance jm_wire : WireMessage JoinMeshMessage := {
  wm_encode := EncodeJoinMeshMessage; wm_decode := DecodeJoinMeshMessage; wm_ok := jm_ok;
  wm_roundtrip := jm_roundtrip; wm_total := jm_total }.
#[global] Instance jma_wire : WireMessage JoinMeshAckMessage := {
  wm_encode := EncodeJoinMeshAckMessage; wm_decode := DecodeJoinMeshAckMessage; wm_ok := jma_ok;
  wm_roundtrip := jma_roundtrip; wm_total := jma_total }.
#[global] Instance cb_wire : WireMessage CreateBridgeMessage := {
  wm_encode := EncodeCreateBridgeMessage; wm_decode := DecodeCreateBridgeMessage; wm_ok := cb_ok;
  wm_roundtrip := cb_roundtrip; wm_total := cb_total }.
#[global] Instance cba_wire : WireMessage CreateBridgeAckMessage := {
  wm_encode := EncodeCreateBridgeAckMessage; wm_decode := DecodeCreateBridgeAckMessage; wm_ok := cba_ok;
  wm_roundtrip := cba_roundtrip; wm_total := cba_total }.
#[global] Instance mst_wire : WireMessage MeshStatusMessage := {
  wm_encode := EncodeMeshStatusMessage; wm_decode := DecodeMeshStatusMessage; wm_ok := mst_ok;
  wm_roundtrip := mst_roundtrip; wm_total := mst_total }.
#[global] Instance dis_wire : WireMessage DiscoverMeshMessage := {
  wm_encode := EncodeDiscoverMeshMessage; wm_decode := DecodeDiscoverMeshMessage; wm_ok := dis_ok;
  wm_roundtrip := dis_roundtrip; wm_total := dis_total }.
#[global] Instance ms_wire : WireMessage MeshStatusResponseMessage := {
  wm_encode := EncodeMeshStatusResponseMessage; wm_decode := DecodeMeshStatusResponseMessage; wm_ok := ms_ok;
  wm_roundtrip := ms_roundtrip; wm_total := ms_total }.

(** ** Properties *)



(** What a mesh status loses.  The bridges of a status never reach the
    client, whatever they are, and a member or zone count beyond [int32] arrives
    reduced to 32 bits; the rest arrives. *)
Theorem mesh_status_lossy m :
  ms_ok (mkMeshStatusResponseMessage (ms_MeshName m) (ms_Status m) (ms_IsFounder m)
    (ms_NodeIdentity m) (i32 (ms_MemberCount m)) (i32 (ms_ZoneCount m)) (ms_FoundedAt m) ∅) →
  DecodeMeshStatusResponseMessage (EncodeMeshStatusResponseMessage m) =
    Some (Ok (mkMeshStatusResponseMessage (ms_MeshName m) (ms_Status m) (ms_IsFounder m)
      (ms_NodeIdentity m) (i32 (ms_MemberCount m)) (i32 (ms_ZoneCount m)) (ms_FoundedAt m) ∅)).
Proof.
  intros Hok. rewrite <- ms_roundtrip by done.
  assert (Hi : ∀ z, i32 (i32 z) = i32 z).
  { intros z. apply i32_small, i32_range. }
  unfold EncodeMeshStatusResponseMessage. cbn. by rewrite !Hi.
Qed.

Lemma mesh_status_lossy_witness :
  let bridges := {[ b "m2" := mkBridgeStatusInfo (b "h:1") (b "up") [] None ]} in
  DecodeMeshStatusResponseMessage (EncodeMeshStatusResponseMessage
    (mkMeshStatusResponseMessage (b "m") [] true (b "n") (2 ^ 32 + 5) 1 None bridges)) =
  Some (Ok (mkMeshStatusResponseMessage (b "m") [] true (b "n") 5 1 None ∅)).
Proof.
  intros bridges. refine (mesh_status_lossy (mkMeshStatusResponseMessage _ _ _ _ _ _ _ _) _).
  split_and!; try done; by apply (bool_decide_unpack _); vm_compute.
Defined.
