(* ===== verification/Protocol.v ===== *)
(** * The protocol as a whole (internal/protocol)

    Properties of every message at once: any message with the [WireMessage]
    interface crosses a connection inside a frame, every payload decoder ends
    with a message or an error, and a decoder ignores fields added by a later
    version. *)
From S2P Require Import Prelude GoHash ValueCodec AttributeStore StorageTree Wire.
From S2P Require Import WireMessage Messages AuthMessages MeshMessages.

(** ** One side of a connection *)

(** Encode a message and frame it, as the client and the service do before they
    write to the connection. *)
Definition send {M} `{WireMessage M} (msgType sequence : Z) (m : M) : res (list byte) :=
  EncodeMessage (CreateMessage msgType sequence (wm_encode m)).

(** Decode a frame, then its payload. *)
Definition receive {M} `{WireMessage M} (data : list byte) : option (res (Z * Z * M)) :=
  match DecodeMessage data with
  | Ok msg => fmap (M := res) (λ m, (Type_ msg, Sequence msg, m)) <$> wm_decode (Payload msg)
  | Err e => Some (Err e)
  | Panic e => Some (Panic e)
  end.

(** A decoder that returns a message or an error for any bytes. *)
Definition total_decoder {M} (decode : list byte → option (res M)) : Prop :=
  ∀ bs, terminates (decode bs).

(** ** Lemmas: readers and what follows *)

(** A reader looks no further than it reads, but for the end of the payload: more
    bytes after it do not change what it returned. *)
Definition regular {A} (r : Reader A) : Prop :=
  ∀ bs a rest, r bs = Ok (a, rest) →
    (length rest ≤ length bs)%nat ∧
    ∀ k, is_u32 (len (bs ++ k)) → r (bs ++ k) = Ok (a, rest ++ k).

Lemma regular_ret {A} (a : A) : regular (mret a).
Proof. intros bs a' rest [= <- <-]. auto. Qed.
Lemma regular_bind {A B} (m : Reader A) (f : A → Reader B) :
  regular m → (∀ a, regular (f a)) → regular (m ≫= f).
Proof.
  intros Hm Hf bs c rest (a & b1 & [Hl1 H1]%Hm & [Hl2 H2]%Hf)%reader_bind_inv.
  split; [lia|]. intros k Hk. erewrite reader_bind_ok by by apply H1. apply H2.
  unfold is_u32 in *. rewrite len_app in *. unfold len in *. lia.
Qed.
Lemma regular_fmap {A B} (g : A → B) (m : Reader A) : regular m → regular (g <$> m).
Proof.
  intros Hm bs c rest. unfold fmap, reader_fmap.
  destruct (m bs) as [[a b1]| |] eqn:E; [|done..]. intros [= <- <-].
  apply Hm in E as [Hl H]. split; [done|]. intros k Hk. by rewrite H.
Qed.
Lemma regular_wrap {A} ctx (m : Reader A) : regular m → regular (reader_wrap ctx m).
Proof.
  intros Hm bs c rest [Hl H]%reader_wrap_inv%Hm. split; [done|].
  intros k Hk. by apply reader_wrap_ok, H.
Qed.
Lemma regular_ReadByte : regular ReadByte.
Proof. intros [|x bs] a rest; [done|]. intros [= <- <-]. split; [cbn; lia|done]. Qed.
Lemma regular_read_be n : regular (read_be n).
Proof.
  intros bs a rest H. pose proof (shrinks_read_be n bs) as Hs. rewrite H in Hs. split; [done|].
  intros k _. apply read_be_inv in H as [-> Hb]. rewrite <- app_assoc. by apply read_be_small.
Qed.
Lemma regular_read_data n msg : regular (read_data n msg).
Proof.
  intros bs d rest H. pose proof (shrinks_read_data n msg bs) as Hs. rewrite H in Hs.
  split; [done|]. intros k _. unfold read_data in *. destruct bs as [|x bs]; [done|].
  cbn [app]. destruct (Z.ltb_spec (len (x :: bs)) n); [done|]. injection H as <- <-.
  change (x :: bs ++ k) with ((x :: bs) ++ k). rewrite len_app. pose proof (len_nonneg k).
  rewrite (proj2 (Z.ltb_ge _ _)) by lia. unfold len in *.
  by rewrite take_app_le, drop_app_le by lia.
Qed.
Lemma regular_skip_data n : regular (skip_data n).
Proof.
  intros bs u rest. unfold skip_data. destruct (Z.ltb_spec (u32 (len bs)) n); [done|].
  intros [= <- <-]. split; [rewrite length_drop; lia|]. intros k Hk.
  assert (Hb : is_u32 (len bs)).
  { unfold is_u32 in *. rewrite len_app in Hk. pose proof (len_nonneg k).
    pose proof (len_nonneg bs). lia. }
  rewrite u32_small in * by done. rewrite len_app in *. pose proof (len_nonneg k).
  rewrite (proj2 (Z.ltb_ge _ _)) by lia. unfold len in *. by rewrite drop_app_le by lia.
Qed.

#[export] Hint Resolve regular_ret regular_bind regular_fmap regular_wrap regular_ReadByte
  regular_read_be regular_read_data regular_skip_data : amorph.

Lemma regular_readString : regular readString.
Proof. unfold readString. auto with amorph. Qed.
Lemma regular_readBool : regular readBool.
Proof. unfold readBool. auto with amorph. Qed.
Lemma regular_read_flag : regular read_flag.
Proof. unfold read_flag. auto with amorph. Qed.
Lemma regular_read_int64 : regular read_int64.
Proof. unfold read_int64. auto with amorph. Qed.
Lemma regular_read_int32 : regular read_int32.
Proof. unfold read_int32. auto with amorph. Qed.
Lemma regular_read_agent_id : regular read_agent_id.
Proof. unfold read_agent_id. auto using regular_read_int64 with amorph. Qed.
Lemma regular_readValue : regular readValue.
Proof. unfold readValue. auto 10 with amorph. Qed.
Lemma regular_read_strings n : regular (read_strings n).
Proof. induction n; cbn [read_strings]; auto 10 using regular_readString with amorph. Qed.
Lemma regular_readStringSlice : regular readStringSlice.
Proof. unfold readStringSlice. auto using regular_read_strings with amorph. Qed.
Lemma regular_skipField tag : regular (skipField tag).
Proof. unfold skipField. destruct (_ && _); auto with amorph. Qed.

#[export] Hint Resolve regular_readString regular_readBool regular_read_flag regular_read_int64
  regular_read_int32 regular_read_agent_id regular_readValue regular_readStringSlice
  regular_skipField : amorph.

(** Every field reader is regular. *)
Ltac regularity :=
  intros tag r; destruct tag; cbn; intros [= <-]; auto with amorph.

(** More fuel does not change an answer. *)
Lemma decode_fields_more {M} (field : byte → option (Reader (M → M))) n n' m bs r :
  decode_fields field n m bs = Some r → (n ≤ n')%nat → decode_fields field n' m bs = Some r.
Proof.
  revert n' m bs. induction n as [|n IH]; intros n' m [|tag bs] H Hn; try (by destruct n').
  destruct n' as [|n']; [lia|]. cbn [decode_fields] in *.
  destruct (match field tag with Some r => r | None => _ end bs) as [[f rest]| |]; [|done..].
  apply IH; [done|lia].
Qed.

(** Decoding two payloads one after the other. *)
Lemma decode_fields_app {M} (field : byte → option (Reader (M → M))) n n' m m' bs k r :
  (∀ tag r, field tag = Some r → regular r) → is_u32 (len (bs ++ k)) →
  decode_fields field n m bs = Some (Ok m') → decode_fields field n' m' k = Some r →
  decode_fields field (n + n') m (bs ++ k) = Some r.
Proof.
  intros Hf. revert m bs. induction n as [|n IH]; intros m [|tag bs] Hl H Hk.
  - injection H as ->. exact Hk.
  - discriminate H.
  - injection H as ->. apply decode_fields_more with (n := n'); [exact Hk|apply Nat.le_add_l].
  - cbn [app decode_fields Nat.add] in *.
    set (step := match field tag with Some r => r | None => _ end) in *.
    assert (Hr : regular step).
    { unfold step. destruct (field tag) eqn:E; [by eapply Hf|]. auto with amorph. }
    destruct (step bs) as [[f rest]| |] eqn:E; [|done..]. apply Hr in E as [Hs E].
    rewrite len_cons, len_app in Hl. unfold is_u32, len in *.
    rewrite E by (rewrite length_app; lia). apply IH; [rewrite length_app; lia|done..].
Qed.

(** ** Properties *)



(** C38: decoding always ends, in a message or an error.  Whatever bytes a peer
    sends as a payload, each of the decoders returns - no panic, no endless
    loop: every iteration of a decoder's loop reads at least its tag.  (The
    buffers that length prefixes ask for are assumed to be allocated.) *)
Theorem decoders_total :
  total_decoder (λ bs, Some (DecodeMessage bs)) ∧
  total_decoder DecodeReadAtMessage ∧ total_decoder DecodeWriteMessage ∧
  total_decoder DecodeWriteAckMessage ∧ total_decoder DecodePurgeMessage ∧
  total_decoder DecodePurgeAckMessage ∧ total_decoder DecodeStatusResponseMessage ∧
  total_decoder DecodeStopAckMessage ∧ total_decoder DecodeCompactAckMessage ∧
  total_decoder DecodeErrorMessage ∧ total_decoder DecodeExecuteMessage ∧
  total_decoder DecodeExtractMessage ∧ total_decoder DecodeExecuteResponseMessage ∧
  total_decoder DecodeExtractResponseMessage ∧ total_decoder (λ bs, Some (DecodeReadMessage bs)) ∧
  total_decoder (λ bs, Some (DecodeReadResponseMessage bs)) ∧
  total_decoder (λ bs, Some (DecodeReadAtResponseMessage bs)) ∧
  total_decoder (λ bs, Some (DecodeChildrenMessage bs)) ∧
  total_decoder (λ bs, Some (DecodeChildrenResponseMessage bs)) ∧
  total_decoder DecodeWhoAmIResponseMessage ∧ total_decoder DecodeAuthInitMessage ∧
  total_decoder DecodeAuthChallengeMessage ∧ total_decoder DecodeAuthResponseMessage ∧
  total_decoder DecodeAuthResultMessage ∧ total_decoder DecodeRegisterMessage ∧
  total_decoder DecodeRegisterResultMessage ∧ total_decoder DecodeInviteCreateResultMessage ∧
  total_decoder DecodeCreateMeshMessage ∧ total_decoder DecodeCreateMeshAckMessage ∧
  total_decoder DecodeMeshStatusMessage ∧ total_decoder DecodeMeshStatusResponseMessage ∧
  total_decoder DecodeDiscoverMeshMessage ∧ total_decoder DecodeDiscoverMeshResponseMessage ∧
  total_decoder DecodeJoinMeshMessage ∧ total_decoder DecodeJoinMeshAckMessage ∧
  total_decoder DecodeCreateBridgeMessage ∧ total_decoder DecodeCreateBridgeAckMessage.
Proof.
  split.
  { intros bs. eexists; split; [done|]. unfold DecodeMessage. destruct (_ <? _); [by auto|].
    pose proof (shrinks_decode_frame (len bs) bs) as Hs.
    destruct (decode_frame (len bs) bs) as [[]| |]; cbn; [auto..|done]. }
  split_and!; match goal with |- @total_decoder ?M _ => exact (wm_total (M := M)) end.
Qed.

(** Decoders ignore the fields of a later version.  If a payload decodes to a
    message then so does the payload followed by a length-prefixed field with a
    tag the decoder does not know, up to 0x10, whatever the field holds.  Not so
    beyond 0x10: there one byte is skipped and the field's contents are read as
    fields, so that a failed WRITE_ACK followed by such a field decodes as a
    success. *)
Theorem unknown_fields_skipped {M} (field : byte → option (Reader (M → M))) m0 m bs tag data :
  (∀ tag r, field tag = Some r → regular r) →
  decode_payload field m0 bs = Some (Ok m) →
  field tag = None → 0x01 ≤ byte_z tag ≤ 0x10 → is_u32 (len bs + len data + 5) →
  decode_payload field m0 (bs ++ encodeString tag data) = Some (Ok m) ∧
  DecodeWriteAckMessage (EncodeWriteAckMessage (mkWriteAckMessage false [])) =
    Some (Ok (mkWriteAckMessage false [])) ∧
  DecodeWriteAckMessage (EncodeWriteAckMessage (mkWriteAckMessage false []) ++
    encodeString Byte.x11 [Byte.x01]) = Some (Ok (mkWriteAckMessage true [])).
Proof.
  intros Hf Hd Hn Ht Hl. split; [|split; [by apply wa_roundtrip; vm_compute|by vm_compute]].
  unfold decode_payload in *. rewrite length_app.
  assert (Hlen : len (bs ++ encodeString tag data) = len bs + len data + 5).
  { unfold encodeString, enc_string, encode_len. lens. }
  eapply decode_fields_app; [done|by rewrite Hlen|exact Hd|].
  unfold encodeString. cbn [app length decode_fields]. rewrite Hn.
  erewrite reader_fmap_ok.
  2: { apply reader_wrap_ok. rewrite <- (app_nil_r (enc_string data)).
       apply skipField_string; [done|]. rewrite app_nil_r.
       unfold is_u32 in *. pose proof (len_nonneg bs). pose proof (len_nonneg data). lia. }
  by destruct (length _).
Qed.

Lemma unknown_fields_skipped_witness :
  let m := mkWriteAckMessage true [] in
  DecodeWriteAckMessage (EncodeWriteAckMessage m ++ encodeString Byte.x05 (b "later")) =
    Some (Ok m).
Proof.
  intros m. destruct (unknown_fields_skipped wa_field (mkWriteAckMessage false []) m
    (EncodeWriteAckMessage m) Byte.x05 (b "later")) as [H _];
    [regularity|by vm_compute|done|by vm_compute|by vm_compute|exact H].
Defined.
