(* ===== verification/Utf8.v ===== *)
(** * Text ([unicode/utf8], [strings], decimal numbers)

    Decoding and encoding of runes as the Go library does it: a rune is an
    integer, invalid bytes decode one at a time to the replacement rune.  The
    functions on strings and the decimal formats that the program uses. *)
From S2P Require Import Prelude.

(** ** Runes *)

Definition RuneError : Z := 0xFFFD.

Definition byte_at (l : list byte) (i : nat) : Z := byte.unsigned (default Byte.x00 (l !! i)).

Definition between (lo hi x : Z) : bool := (lo <=? x) && (x <=? hi).

(** The bounds of the second byte after each leading byte. *)
Definition second_ok (b0 b1 : Z) : bool :=
  if b0 =? 0xE0 then between 0xA0 0xBF b1
  else if b0 =? 0xED then between 0x80 0x9F b1
  else if b0 =? 0xF0 then between 0x90 0xBF b1
  else if b0 =? 0xF4 then between 0x80 0x8F b1
  else between 0x80 0xBF b1.

(** [utf8.DecodeRuneInString]: the first rune and its size. *)
Definition DecodeRune (s : list byte) : Z * nat :=
  match s with
  | [] => (RuneError, 0%nat)
  | _ =>
      let b0 := byte_at s 0 in let b1 := byte_at s 1 in
      let b2 := byte_at s 2 in let b3 := byte_at s 3 in
      let tail x := between 0x80 0xBF x in
      if b0 <? 0x80 then (b0, 1%nat)
      else if between 0xC2 0xDF b0 then
        if (2 <=? length s)%nat && tail b1
        then (Z.lor (Z.shiftl (Z.land b0 0x1F) 6) (Z.land b1 0x3F), 2%nat) else (RuneError, 1%nat)
      else if between 0xE0 0xEF b0 then
        if (3 <=? length s)%nat && second_ok b0 b1 && tail b2
        then (Z.lor (Z.shiftl (Z.land b0 0x0F) 12)
               (Z.lor (Z.shiftl (Z.land b1 0x3F) 6) (Z.land b2 0x3F)), 3%nat)
        else (RuneError, 1%nat)
      else if between 0xF0 0xF4 b0 then
        if (4 <=? length s)%nat && second_ok b0 b1 && tail b2 && tail b3
        then (Z.lor (Z.shiftl (Z.land b0 0x07) 18)
               (Z.lor (Z.shiftl (Z.land b1 0x3F) 12)
                 (Z.lor (Z.shiftl (Z.land b2 0x3F) 6) (Z.land b3 0x3F))), 4%nat)
        else (RuneError, 1%nat)
      else (RuneError, 1%nat)
  end.

Definition byte_of (z : Z) : byte := byte.of_Z z.

(** [string(rune)]. *)
Definition EncodeRune (r : Z) : list byte :=
  let cont k := byte_of (Z.lor 0x80 (Z.land (Z.shiftr r k) 0x3F)) in
  let invalid := [Byte.xef; Byte.xbf; Byte.xbd] in
  if r <? 0 then invalid
  else if r <? 0x80 then [byte_of r]
  else if r <? 0x800 then [byte_of (Z.lor 0xC0 (Z.shiftr r 6)); cont 0]
  else if between 0xD800 0xDFFF r then invalid
  else if r <? 0x10000 then [byte_of (Z.lor 0xE0 (Z.shiftr r 12)); cont 6; cont 0]
  else if r <=? 0x10FFFF
  then [byte_of (Z.lor 0xF0 (Z.shiftr r 18)); cont 12; cont 6; cont 0]
  else invalid.

(** [utf8.Valid]; the length is fuel enough. *)
Fixpoint valid_utf8 (fuel : nat) (s : list byte) : bool :=
  match s, fuel with
  | [], _ => true
  | _, O => false
  | _, S fuel =>
      let '(r, n) := DecodeRune s in
      if (r =? RuneError) && (n =? 1)%nat then false else valid_utf8 fuel (drop n s)
  end.
Definition Valid (s : list byte) : bool := valid_utf8 (length s) s.

(** ** Space *)

(** The encodings of the runes with the Unicode property White_Space. *)
Definition spaces : list (list byte) :=
  EncodeRune <$> [0x20; 0x09; 0x0A; 0x0B; 0x0C; 0x0D; 0x85; 0xA0; 0x1680; 0x2000; 0x2001; 0x2002;
    0x2003; 0x2004; 0x2005; 0x2006; 0x2007; 0x2008; 0x2009; 0x200A; 0x2028; 0x2029; 0x202F;
    0x205F; 0x3000].

Definition starts_with (s prefix : list byte) : bool :=
  bool_decide (take (length prefix) s = prefix).
Definition ends_with (s suffix : list byte) : bool :=
  (length suffix <=? length s)%nat &&
  bool_decide (drop (length s - length suffix) s = suffix).

Fixpoint trim_left (fuel : nat) (s : list byte) : list byte :=
  match fuel with
  | O => s
  | S fuel =>
      match list_find (λ sp, starts_with s sp = true) spaces with
      | Some (_, sp) => trim_left fuel (drop (length sp) s)
      | None => s
      end
  end.
Fixpoint trim_right (fuel : nat) (s : list byte) : list byte :=
  match fuel with
  | O => s
  | S fuel =>
      match list_find (λ sp, ends_with s sp = true) spaces with
      | Some (_, sp) => trim_right fuel (take (length s - length sp) s)
      | None => s
      end
  end.

(** [strings.TrimSpace]; each round removes at least a byte. *)
Definition TrimSpace (s : list byte) : list byte :=
  let s := trim_left (length s) s in trim_right (length s) s.

(** ** Searching, cutting and writing numbers ([strings], [strconv]) *)

(** [strings.Contains]. *)
Definition contains (s pat : list byte) : bool :=
  existsb (λ i, starts_with (drop i s) pat) (seq 0 (S (length s))).

(** [strings.TrimPrefix]. *)
Definition TrimPrefix (s prefix : list byte) : list byte :=
  if starts_with s prefix then drop (length prefix) s else s.

(** [strings.Join]. *)
Fixpoint Join (parts : list (list byte)) (sep : list byte) : list byte :=
  match parts with
  | [] => []
  | [s] => s
  | s :: rest => s ++ sep ++ Join rest sep
  end.

(** [strings.Split] on a separator of one byte. *)
Fixpoint split_byte (s : list byte) (sep : byte) : list (list byte) :=
  match s with
  | [] => [[]]
  | x :: s =>
      let parts := split_byte s sep in
      if bool_decide (x = sep) then [] :: parts
      else match parts with p :: parts => (x :: p) :: parts | [] => [[x]] end
  end.

Definition digit (n : Z) : byte := byte_of (0x30 + n mod 10).

(** The decimal digits of a number; [fuel] is their number at most. *)
Fixpoint decimal_digits (fuel : nat) (n : Z) (acc : list byte) : list byte :=
  match fuel with
  | O => acc
  | S fuel => if n <? 10 then digit n :: acc else decimal_digits fuel (n / 10) (digit n :: acc)
  end.
Definition decimal (n : Z) : list byte :=
  decimal_digits (S (Z.to_nat (Z.log2 (Z.max 1 n)))) n [].

(** [%d] and [%0wd]. *)
Definition format_int (n : Z) : list byte :=
  if n <? 0 then b "-" ++ decimal (- n) else decimal n.
Definition zero_pad (w : nat) (s : list byte) : list byte :=
  replicate (w - length s) Byte.x30 ++ s.
Definition format_padded (w : nat) (n : Z) : list byte :=
  if n <? 0 then b "-" ++ zero_pad (w - 1) (decimal (- n)) else zero_pad w (decimal n).

(** ** Lemmas *)

Lemma byte_range x : 0 ≤ byte.unsigned x < 256.
Proof. apply byte.unsigned_range. Qed.

(** A rune takes at least a byte and no more than there are. *)
Lemma DecodeRune_size s : s ≠ [] → (1 ≤ (DecodeRune s).2 ≤ length s)%nat.
Proof.
  intros Hs. unfold DecodeRune. destruct s as [|x s]; [done|].
  repeat match goal with
  | |- context [if ?c then _ else _] => destruct c eqn:?
  end; cbn [snd]; cbn [length] in *; rewrite ?andb_true_iff, ?Nat.leb_le in *; lia.
Qed.

Lemma DecodeRune_ascii x s : byte.unsigned x < 0x80 → DecodeRune (x :: s) = (byte.unsigned x, 1%nat).
Proof.
  intros Hx. unfold DecodeRune. change (byte_at (x :: s) 0) with (byte.unsigned x).
  by rewrite (proj2 (Z.ltb_lt _ _)).
Qed.

Lemma lor_ge_l a c : 0 ≤ a → 0 ≤ c → a ≤ Z.lor a c.
Proof.
  intros. apply Z.ldiff_le; [by apply Z.lor_nonneg|].
  apply Z.bits_inj'. intros n Hn. rewrite Z.ldiff_spec, Z.lor_spec, Z.bits_0.
  by destruct (Z.testbit a n).
Qed.
Lemma lor_ge_r a c : 0 ≤ a → 0 ≤ c → c ≤ Z.lor a c.
Proof. rewrite Z.lor_comm. intros. by apply lor_ge_l. Qed.
Lemma land_nonneg_r a m : 0 ≤ m → 0 ≤ Z.land a m.
Proof. intros. apply Z.land_nonneg. by right. Qed.

(** A fact of one byte, by cases. *)
Lemma byte_forall (P : Z → bool) :
  forallb (λ n, P n) (seqZ 0 256) = true → ∀ x, P (byte.unsigned x) = true.
Proof.
  rewrite forallb_forall. intros H x. apply H. rewrite <- list_elem_of_In.
  apply elem_of_seqZ. pose proof (byte_range x). lia.
Qed.

Lemma land_lead (lo hi m v : Z) :
  forallb (λ n, implb (between lo hi n) (v <=? Z.land n m)) (seqZ 0 256) = true →
  ∀ x, lo ≤ byte.unsigned x ≤ hi → v ≤ Z.land (byte.unsigned x) m.
Proof.
  intros H x Hx. pose proof (byte_forall _ H x) as Hi. cbv beta in Hi.
  unfold between in Hi. rewrite (proj2 (andb_true_iff _ _)) in Hi by (split; apply Z.leb_le; lia).
  by apply Z.leb_le.
Qed.

Lemma shiftl_lower v a n : 0 ≤ n → v ≤ a → v * 2 ^ n ≤ Z.shiftl a n.
Proof. intros. rewrite Z.shiftl_mul_pow2 by done. nia. Qed.
Lemma shiftl_nonneg a n : 0 ≤ a → 0 ≤ Z.shiftl a n.
Proof. apply Z.shiftl_nonneg. Qed.

(** The only runes below 0x80 are the ASCII bytes. *)
Lemma DecodeRune_lt x s : (DecodeRune (x :: s)).1 < 0x80 → byte.unsigned x < 0x80.
Proof.
  set (x1 := default Byte.x00 (s !! 0%nat)).
  unfold DecodeRune. change (byte_at (x :: s) 0) with (byte.unsigned x).
  change (byte_at (x :: s) 1) with (byte.unsigned x1).
  destruct (Z.ltb_spec (byte.unsigned x) 0x80) as [|Hge]; [done|].
  assert (Hpos : ∀ a m n, 0 ≤ m → 0 ≤ Z.shiftl (Z.land a m) n).
  { intros. by apply shiftl_nonneg, land_nonneg_r. }
  assert (Hlow : ∀ a m, 0 ≤ m → 0 ≤ Z.land a m) by (intros; by apply land_nonneg_r).
  destruct (between 0xC2 0xDF _) eqn:H2.
  { destruct (_ && _); [|cbn; unfold RuneError; lia]. cbn [fst]. intros Hlt.
    unfold between in H2. apply andb_true_iff in H2 as [Ha%Z.leb_le Hb%Z.leb_le].
    pose proof (land_lead 0xC2 0xDF 0x1F 2 eq_refl x (conj Ha Hb)) as Hl.
    pose proof (shiftl_lower _ _ 6 (Pos2Z.is_nonneg _) Hl).
    pose proof (Hlow (byte.unsigned x1) 0x3F).
    pose proof (lor_ge_l (Z.shiftl (Z.land (byte.unsigned x) 0x1F) 6)
      (Z.land (byte.unsigned x1) 0x3F)). lia. }
  destruct (between 0xE0 0xEF _) eqn:H3.
  { destruct (_ && _) eqn:Hok; [|cbn; unfold RuneError; lia]. cbn [fst]. intros Hlt.
    unfold between in H3. apply andb_true_iff in H3 as [Ha%Z.leb_le Hb%Z.leb_le].
    apply andb_true_iff in Hok as [[_ Hok]%andb_true_iff _].
    set (low := Z.land (byte_at (x :: s) 2) 0x3F) in *.
    assert (0 ≤ low) by (apply Hlow; done).
    pose proof (Hpos (byte.unsigned x) 0x0F 12).
    pose proof (Hpos (byte.unsigned x1) 0x3F 6).
    assert (0 ≤ Z.lor (Z.shiftl (Z.land (byte.unsigned x1) 0x3F) 6) low) by (apply Z.lor_nonneg; split; [apply Hpos|]; done).
    destruct (decide (byte.unsigned x = 0xE0)) as [He|He].
    - rewrite He in Hok. cbn in Hok. unfold between in Hok.
      apply andb_true_iff in Hok as [Hc%Z.leb_le Hd%Z.leb_le].
      pose proof (land_lead 0xA0 0xBF 0x3F 0x20 eq_refl x1 (conj Hc Hd)) as Hl.
      pose proof (shiftl_lower _ _ 6 (Pos2Z.is_nonneg _) Hl).
      pose proof (lor_ge_l (Z.shiftl (Z.land (byte.unsigned x1) 0x3F) 6) low).
      pose proof (lor_ge_r (Z.shiftl (Z.land (byte.unsigned x) 0x0F) 12)
        (Z.lor (Z.shiftl (Z.land (byte.unsigned x1) 0x3F) 6) low)). lia.
    - assert (0xE1 ≤ byte.unsigned x ≤ 0xEF) as Hr by lia.
      pose proof (land_lead 0xE1 0xEF 0x0F 1 eq_refl x Hr) as Hl.
      pose proof (shiftl_lower _ _ 12 (Pos2Z.is_nonneg _) Hl).
      pose proof (lor_ge_l (Z.shiftl (Z.land (byte.unsigned x) 0x0F) 12)
        (Z.lor (Z.shiftl (Z.land (byte.unsigned x1) 0x3F) 6) low)). lia. }
  destruct (between 0xF0 0xF4 _) eqn:H4; [|cbn; unfold RuneError; lia].
  destruct (_ && _) eqn:Hok; [|cbn; unfold RuneError; lia]. cbn [fst]. intros Hlt.
  unfold between in H4. apply andb_true_iff in H4 as [Ha%Z.leb_le Hb%Z.leb_le].
  apply andb_true_iff in Hok as [[[_ Hok]%andb_true_iff _]%andb_true_iff _].
  set (low := Z.lor (Z.shiftl (Z.land (byte_at (x :: s) 2) 0x3F) 6) _) in *.
  assert (0 ≤ low) by (apply Z.lor_nonneg; split; [apply Hpos|apply Hlow]; done).
  pose proof (Hpos (byte.unsigned x) 0x07 18).
  pose proof (Hpos (byte.unsigned x1) 0x3F 12).
  assert (0 ≤ Z.lor (Z.shiftl (Z.land (byte.unsigned x1) 0x3F) 12) low) by (apply Z.lor_nonneg; split; [apply Hpos|]; done).
  destruct (decide (byte.unsigned x = 0xF0)) as [He|He].
  - rewrite He in Hok. cbn in Hok. unfold between in Hok.
    apply andb_true_iff in Hok as [Hc%Z.leb_le Hd%Z.leb_le].
    pose proof (land_lead 0x90 0xBF 0x3F 0x10 eq_refl x1 (conj Hc Hd)) as Hl.
    pose proof (shiftl_lower _ _ 12 (Pos2Z.is_nonneg _) Hl).
    pose proof (lor_ge_l (Z.shiftl (Z.land (byte.unsigned x1) 0x3F) 12) low).
    pose proof (lor_ge_r (Z.shiftl (Z.land (byte.unsigned x) 0x07) 18)
      (Z.lor (Z.shiftl (Z.land (byte.unsigned x1) 0x3F) 12) low)). lia.
  - assert (0xF1 ≤ byte.unsigned x ≤ 0xF4) as Hr by lia.
    pose proof (land_lead 0xF1 0xF4 0x07 1 eq_refl x Hr) as Hl.
    pose proof (shiftl_lower _ _ 18 (Pos2Z.is_nonneg _) Hl).
    pose proof (lor_ge_l (Z.shiftl (Z.land (byte.unsigned x) 0x07) 18)
      (Z.lor (Z.shiftl (Z.land (byte.unsigned x1) 0x3F) 12) low)). lia.
Qed.

(** A rune of more than a byte has no ASCII byte after the first: decoding does not
    run over an ASCII byte. *)
Lemma DecodeRune_boundary t x u : t ≠ [] → byte.unsigned x < 0x80 →
  ((DecodeRune (t ++ x :: u)).2 ≤ length t)%nat.
Proof.
  intros Ht Hx. unfold DecodeRune. destruct t as [|b0 t]; [done|]. cbn [app].
  assert (Hat : ∀ i, (i < 3)%nat → length t = i → byte_at ((b0 :: t) ++ x :: u) (S i) < 0x80).
  { intros i _ <-. unfold byte_at. rewrite lookup_app_r by (cbn; lia).
    replace (S (length t) - length (b0 :: t))%nat with 0%nat by (cbn; lia). done. }
  cbn [app] in Hat.
  assert (Hsec : ∀ b0 b1, b1 < 0x80 → second_ok b0 b1 = false).
  { intros a c Hc. unfold second_ok, between. repeat case_match; lia. }
  assert (Htail : ∀ c, c < 0x80 → between 0x80 0xBF c = false) by (intros; unfold between; lia).
  repeat match goal with
  | |- context [if ?c then _ else _] => destruct c eqn:?
  end; cbn [snd]; try (cbn; lia);
    repeat match goal with H : _ && _ = true |- _ => apply andb_true_iff in H as [? ?] end;
    destruct t as [|b1 [|b2 [|b3 t]]]; try (cbn; lia);
    first [ pose proof (Hat 0%nat ltac:(lia) eq_refl) as Hl
          | pose proof (Hat 1%nat ltac:(lia) eq_refl) as Hl
          | pose proof (Hat 2%nat ltac:(lia) eq_refl) as Hl ];
    rewrite ?(Hsec _ _ Hl), ?(Htail _ Hl) in *; done.
Qed.
