(* ===== verification/MblTokens.v ===== *)
(** * MBL tokens (internal/mbl/lexer/tokens.go)

    The token types in the order of their Go constants, tokens, and the tables
    of keywords and modifiers. *)
From S2P Require Import Prelude.

(** [IF_] is the source's [IF], a reserved word here. *)
Inductive TokenType : Type :=
  | ILLEGAL | EOF | NEWLINE | IDENT | TEXT | INTERP_TEXT | NUMBER | TIME | MONEY | IF_ | ELSE
  | WHILE | FOR | IN | CONSIDER | WATCH | APPEND | AS | RETURN | BREAK | PASS | NEW | CATCH
  | PROCEDURE | AND | OR | NOT | TRUE | FALSE | MY | WORLD | QUOTE | TAB | NEWLINE_LITERAL
  | EMPTY | PI | EULER | NOTHING | UNKNOWN | ANYTHING | EMBED | SPREAD | PLUS | MINUS | MULTIPLY
  | DIVIDE | MODULO | POWER | CONCAT | EQUAL | NOT_EQUAL | GT | LT | GTE | LTE | ASSIGN | RANGE
  | DEFINE | LPAREN | RPAREN | LBRACKET | RBRACKET | LBRACE | RBRACE | COMMA | DOT | SEMICOLON
  | INDENT | DEDENT | COPY | LINK | RESET | EXCLUDE | PROTECTED | CASCADE | QUIETLY | COMMENT
  | BLOCK_COMMENT.

Definition token_types : list TokenType :=
  [ ILLEGAL; EOF; NEWLINE; IDENT; TEXT; INTERP_TEXT; NUMBER; TIME; MONEY; IF_; ELSE; WHILE; FOR;
    IN; CONSIDER; WATCH; APPEND; AS; RETURN; BREAK; PASS; NEW; CATCH; PROCEDURE; AND; OR; NOT;
    TRUE; FALSE; MY; WORLD; QUOTE; TAB; NEWLINE_LITERAL; EMPTY; PI; EULER; NOTHING; UNKNOWN;
    ANYTHING; EMBED; SPREAD; PLUS; MINUS; MULTIPLY; DIVIDE; MODULO; POWER; CONCAT; EQUAL;
    NOT_EQUAL; GT; LT; GTE; LTE; ASSIGN; RANGE; DEFINE; LPAREN; RPAREN; LBRACKET; RBRACKET;
    LBRACE; RBRACE; COMMA; DOT; SEMICOLON; INDENT; DEDENT; COPY; LINK; RESET; EXCLUDE;
    PROTECTED; CASCADE; QUIETLY; COMMENT; BLOCK_COMMENT ].

(** The integer of the constant ([iota]). *)
Definition token_code (t : TokenType) : nat :=
  match t with
  | ILLEGAL => 0%nat | EOF => 1%nat | NEWLINE => 2%nat | IDENT => 3%nat | TEXT => 4%nat
  | INTERP_TEXT => 5%nat | NUMBER => 6%nat | TIME => 7%nat | MONEY => 8%nat | IF_ => 9%nat
  | ELSE => 10%nat | WHILE => 11%nat | FOR => 12%nat | IN => 13%nat | CONSIDER => 14%nat
  | WATCH => 15%nat | APPEND => 16%nat | AS => 17%nat | RETURN => 18%nat | BREAK => 19%nat
  | PASS => 20%nat | NEW => 21%nat | CATCH => 22%nat | PROCEDURE => 23%nat | AND => 24%nat
  | OR => 25%nat | NOT => 26%nat | TRUE => 27%nat | FALSE => 28%nat | MY => 29%nat
  | WORLD => 30%nat | QUOTE => 31%nat | TAB => 32%nat | NEWLINE_LITERAL => 33%nat
  | EMPTY => 34%nat | PI => 35%nat | EULER => 36%nat | NOTHING => 37%nat | UNKNOWN => 38%nat
  | ANYTHING => 39%nat | EMBED => 40%nat | SPREAD => 41%nat | PLUS => 42%nat | MINUS => 43%nat
  | MULTIPLY => 44%nat | DIVIDE => 45%nat | MODULO => 46%nat | POWER => 47%nat
  | CONCAT => 48%nat | EQUAL => 49%nat | NOT_EQUAL => 50%nat | GT => 51%nat | LT => 52%nat
  | GTE => 53%nat | LTE => 54%nat | ASSIGN => 55%nat | RANGE => 56%nat | DEFINE => 57%nat
  | LPAREN => 58%nat | RPAREN => 59%nat | LBRACKET => 60%nat | RBRACKET => 61%nat
  | LBRACE => 62%nat | RBRACE => 63%nat | COMMA => 64%nat | DOT => 65%nat | SEMICOLON => 66%nat
  | INDENT => 67%nat | DEDENT => 68%nat | COPY => 69%nat | LINK => 70%nat | RESET => 71%nat
  | EXCLUDE => 72%nat | PROTECTED => 73%nat | CASCADE => 74%nat | QUIETLY => 75%nat
  | COMMENT => 76%nat | BLOCK_COMMENT => 77%nat
  end.

Lemma token_code_lookup t : token_types !! token_code t = Some t.
Proof. by destruct t. Qed.
#[global] Instance token_code_inj : Inj (=) (=) token_code.
Proof.
  intros t1 t2 E. apply (inj Some). by rewrite <- !token_code_lookup, E.
Qed.
#[global] Instance TokenType_eq_dec : EqDecision TokenType.
Proof.
  intros t1 t2. destruct (decide (token_code t1 = token_code t2)) as [E|E].
  - left. by apply (inj token_code).
  - right. by intros ->.
Defined.

Definition TokenType_String (t : TokenType) : string :=
  match t with
  | ILLEGAL => "ILLEGAL" | EOF => "EOF" | NEWLINE => "NEWLINE" | IDENT => "IDENT"
  | TEXT => "TEXT" | INTERP_TEXT => "INTERP_TEXT" | NUMBER => "NUMBER" | TIME => "TIME"
  | MONEY => "MONEY" | IF_ => "IF" | ELSE => "ELSE" | WHILE => "WHILE" | FOR => "FOR"
  | IN => "IN" | CONSIDER => "CONSIDER" | WATCH => "WATCH" | APPEND => "APPEND" | AS => "AS"
  | RETURN => "RETURN" | BREAK => "BREAK" | PASS => "PASS" | NEW => "NEW" | CATCH => "CATCH"
  | PROCEDURE => "PROCEDURE" | AND => "AND" | OR => "OR" | NOT => "NOT" | TRUE => "TRUE"
  | FALSE => "FALSE" | MY => "MY" | WORLD => "WORLD" | QUOTE => "QUOTE" | TAB => "TAB"
  | NEWLINE_LITERAL => "NEWLINE_LITERAL" | EMPTY => "EMPTY" | PI => "PI" | EULER => "EULER"
  | NOTHING => "NOTHING" | UNKNOWN => "UNKNOWN" | ANYTHING => "ANYTHING" | EMBED => "EMBED"
  | SPREAD => "SPREAD" | PLUS => "PLUS" | MINUS => "MINUS" | MULTIPLY => "MULTIPLY"
  | DIVIDE => "DIVIDE" | MODULO => "MODULO" | POWER => "POWER" | CONCAT => "CONCAT"
  | EQUAL => "EQUAL" | NOT_EQUAL => "NOT_EQUAL" | GT => "GT" | LT => "LT" | GTE => "GTE"
  | LTE => "LTE" | ASSIGN => "ASSIGN" | RANGE => "RANGE" | DEFINE => "DEFINE"
  | LPAREN => "LPAREN" | RPAREN => "RPAREN" | LBRACKET => "LBRACKET" | RBRACKET => "RBRACKET"
  | LBRACE => "LBRACE" | RBRACE => "RBRACE" | COMMA => "COMMA" | DOT => "DOT"
  | SEMICOLON => "SEMICOLON" | INDENT => "INDENT" | DEDENT => "DEDENT" | COPY => "COPY"
  | LINK => "LINK" | RESET => "RESET" | EXCLUDE => "EXCLUDE" | PROTECTED => "PROTECTED"
  | CASCADE => "CASCADE" | QUIETLY => "QUIETLY" | COMMENT => "COMMENT"
  | BLOCK_COMMENT => "BLOCK_COMMENT"
  end.

Record Token := mkToken {
  Type_ : TokenType; Literal : list byte; Line : Z; Column : Z; Position : nat
}.

Definition keywords : list (string * TokenType) :=
  [ ("if", IF_); ("else", ELSE); ("while", WHILE); ("for", FOR); ("in", IN);
    ("consider", CONSIDER); ("watch", WATCH); ("append", APPEND); ("as", AS);
    ("return", RETURN); ("break", BREAK); ("pass", PASS); ("new", NEW); ("catch", CATCH);
    ("procedure", PROCEDURE); ("and", AND); ("or", OR); ("not", NOT); ("true", TRUE);
    ("false", FALSE); ("my", MY); ("world", WORLD); ("quote", QUOTE); ("tab", TAB);
    ("newline", NEWLINE_LITERAL); ("empty", EMPTY); ("pi", PI); ("euler", EULER);
    ("nothing", NOTHING); ("unknown", UNKNOWN); ("anything", ANYTHING); ("embed", EMBED);
    ("quietly", QUIETLY) ].

Definition modifiers : list (string * TokenType) :=
  [ ("copy", COPY); ("link", LINK); ("reset", RESET); ("exclude", EXCLUDE);
    ("protected", PROTECTED); ("cascade", CASCADE); ("quietly", QUIETLY) ].

(** A lookup in one of the tables. *)
Definition table_lookup (table : list (string * TokenType)) (word : list byte) : option TokenType :=
  snd <$> (snd <$> list_find (λ e, b e.1 = word) table).

Definition LookupIdent (ident : list byte) : TokenType :=
  default IDENT (table_lookup keywords ident).
Definition LookupModifier (modifier : list byte) : TokenType :=
  default IDENT (table_lookup modifiers modifier).

(** ** Lemmas *)

Lemma table_lookup_in table word t : table_lookup table word = Some t → t ∈ snd <$> table.
Proof.
  unfold table_lookup. destruct (list_find _ table) as [[i e]|] eqn:E; [|done].
  intros [= <-]. apply list_find_Some in E as (Hi & _ & _).
  apply list_elem_of_fmap. exists e. split; [done|]. by eapply list_elem_of_lookup_2.
Qed.
