(* ===== verification/MblLexer.v ===== *)
(** * The MBL lexer (internal/mbl/lexer/lexer.go)

    MBL is the language of programs stored in the database.  The lexer turns a
    source text into tokens, one call of [NextToken] at a time; blocks are marked
    by INDENT and DEDENT tokens made from the indentation of lines.  The
    [Lexer] struct is a record, a method that moves it returns the moved record.
    Which runes are letters ([unicode.IsLetter]) is a table of the Go library, a
    variable here, known on ASCII.  Loops over the input take its length as
    fuel; [advance] and [read_while_stops] show it is enough. *)
From S2P Require Import Prelude Utf8 MblTokens.

(** ** State *)

Record Lexer := mkLexer {
  input : list byte;
  position : nat;
  readPosition : nat;
  ch : Z;
  line : Z;
  column : Z;
  indentStack : list Z;  (* the last element first *)
  pendingDedents : Z;
  atLineStart : bool;
  previousToken : TokenType
}.

(** The fields that reading characters leaves alone, and those it sets. *)
Definition set_chars (l : Lexer) (pos rpos : nat) (c ln col : Z) (start : bool) : Lexer :=
  mkLexer (input l) pos rpos c ln col (indentStack l) (pendingDedents l) start (previousToken l).
Definition set_indent (l : Lexer) (stack : list Z) (pending : Z) (start : bool) : Lexer :=
  mkLexer (input l) (position l) (readPosition l) (ch l) (line l) (column l) stack pending start
    (previousToken l).
Definition set_previous (l : Lexer) (t : TokenType) : Lexer :=
  mkLexer (input l) (position l) (readPosition l) (ch l) (line l) (column l) (indentStack l)
    (pendingDedents l) (atLineStart l) t.

(** [l.input[from:to]]. *)
Definition slice (l : Lexer) (from to : nat) : list byte :=
  take (to - from) (drop from (input l)).

Definition cNL : Z := 0x0A.
Definition cTAB : Z := 0x09.
Definition cSP : Z := 0x20.
Definition cCR : Z := 0x0D.
Definition cQUOTE : Z := 0x22.
Definition cHASH : Z := 0x23.
Definition cUNDER : Z := 0x5F.
Definition cTILDE : Z := 0x7E.
Definition cDOT : Z := 0x2E.

(** ** Characters *)

Definition readChar (l : Lexer) : Lexer :=
  let '(c, rpos) :=
    if (length (input l) <=? readPosition l)%nat then (0, readPosition l)
    else let '(c, size) := DecodeRune (drop (readPosition l) (input l)) in
         (c, (readPosition l + size)%nat) in
  let pos := readPosition l in
  if c =? cNL then set_chars l pos rpos c (line l + 1) 0 true
  else if negb (c =? cTAB) || negb (atLineStart l) then
    let col := column l + 1 in
    set_chars l pos rpos c (line l) col
      (if negb (c =? cSP) && negb (c =? cTAB) && (1 <? col) then false else atLineStart l)
  else set_chars l pos rpos c (line l) (column l) (atLineStart l).

Definition peekChar (l : Lexer) : Z :=
  if (length (input l) <=? readPosition l)%nat then 0
  else fst (DecodeRune (drop (readPosition l) (input l))).

Definition New (src : list byte) : Lexer :=
  readChar (mkLexer src 0 0 0 1 0 [0] 0 true ILLEGAL).

(** [for p(l.ch) { l.readChar() }], for a [p] that stops at the end of the input. *)
Fixpoint read_loop (fuel : nat) (p : Z → bool) (l : Lexer) : Lexer :=
  match fuel with
  | O => l
  | S fuel => if p (ch l) then read_loop fuel p (readChar l) else l
  end.
Definition read_while (p : Z → bool) (l : Lexer) : Lexer :=
  read_loop (S (length (input l))) p l.

Definition isDigit (c : Z) : bool := between 0x30 0x39 c.

Section Lexer.
Context (IsLetter : Z → bool).

Definition isLetter (c : Z) : bool := IsLetter c || (c =? cUNDER).

(** ** Identifiers and numbers *)

Definition MAX_IDENTIFIER_LENGTH : nat := 255.
Definition MAX_NUMBER_LENGTH : nat := 100.

(** At most [n] iterations, the limit on identifiers. *)
Definition readIdentifier (l : Lexer) : Lexer * list byte :=
  let l' := read_loop MAX_IDENTIFIER_LENGTH (λ c, isLetter c || isDigit c || (c =? cUNDER)) l in
  (l', slice l' (position l) (position l')).

(** A run of digits: underscores are skipped, [digitCount] is limited. *)
Fixpoint read_digits (fuel : nat) (l : Lexer) (result : list byte) (digitCount : nat) :
  Lexer * list byte * nat :=
  match fuel with
  | O => (l, result, digitCount)
  | S fuel =>
      if (isDigit (ch l) || (ch l =? cUNDER)) && (digitCount <? MAX_NUMBER_LENGTH)%nat then
        if ch l =? cUNDER then read_digits fuel (readChar l) result digitCount
        else read_digits fuel (readChar l) (result ++ EncodeRune (ch l)) (S digitCount)
      else (l, result, digitCount)
  end.

(** Write the current character and read the next one. *)
Definition take_char (s : Lexer * list byte * nat) : Lexer * list byte * nat :=
  let '(l, result, digitCount) := s in (readChar l, result ++ EncodeRune (ch l), S digitCount).

Definition digits_of (s : Lexer * list byte * nat) : Lexer * list byte * nat :=
  let '(l, result, digitCount) := s in read_digits (S (length (input l))) l result digitCount.

Definition below_limit (s : Lexer * list byte * nat) : bool := (s.2 <? MAX_NUMBER_LENGTH)%nat.

Definition readNumber (l : Lexer) : Lexer * list byte :=
  let s := digits_of (l, [], 0%nat) in
  let s := if (ch s.1.1 =? cDOT) && isDigit (peekChar s.1.1) && below_limit s
           then digits_of (take_char s) else s in
  let s := if ((ch s.1.1 =? 0x65) || (ch s.1.1 =? 0x45)) && below_limit s then
             let s := take_char s in
             let s := if ((ch s.1.1 =? 0x2B) || (ch s.1.1 =? 0x2D)) && below_limit s
                      then take_char s else s in
             digits_of s
           else s in
  (s.1.1, s.1.2).

(** ** Text literals *)

Definition MaxConsecutiveQuotes : nat := 10.

Definition readString (l : Lexer) : Lexer * list byte * bool :=
  let startPos := position l in
  let l := read_while (λ c, negb (c =? 0) && negb (c =? cQUOTE)) (readChar l) in
  if ch l =? 0 then (l, slice l startPos (position l), false)
  else let l := readChar l in (l, slice l startPos (position l), true).

(** The length of the run of quotes that starts [s]. *)
Fixpoint quote_run (s : list byte) : nat :=
  match s with
  | x :: s => if bool_decide (x = Byte.x22) then S (quote_run s) else O
  | [] => O
  end.

(** [findSigilClose] of the input from an offset, as the distance to go. *)
Fixpoint sigil_close (fuel : nat) (s : list byte) (openQuotes : nat) (sigil : byte) : option nat :=
  match fuel with
  | O => None
  | S fuel =>
      match s with
      | [] => None
      | x :: rest =>
          if negb (bool_decide (x = Byte.x22)) then S <$> sigil_close fuel rest openQuotes sigil
          else
            let run := quote_run s in
            if (openQuotes <=? run)%nat && bool_decide (s !! run = Some sigil)
            then Some (S run)
            else (λ n, (run + n)%nat) <$> sigil_close fuel (drop run s) openQuotes sigil
      end
  end.
Definition findSigilClose (src : list byte) (from openQuotes : nat) (sigil : byte) : option nat :=
  (λ n, (from + n)%nat) <$> sigil_close (S (length src)) (drop from src) openQuotes sigil.

(** The longest opening run, at most [openQuotes], that has a close. *)
Fixpoint find_close (l : Lexer) (runStart openQuotes : nat) (sigil : byte) : option nat :=
  match openQuotes with
  | O => None
  | S n =>
      match findSigilClose (input l) (runStart + S n) (S n) sigil with
      | Some close => Some close
      | None => find_close l runStart n sigil
      end
  end.

(** [for l.position < end { l.readChar() }]. *)
Fixpoint read_to (fuel : nat) (target : nat) (l : Lexer) : Lexer :=
  match fuel with
  | O => l
  | S fuel => if (position l <? target)%nat then read_to fuel target (readChar l) else l
  end.

Definition readSigilString (sigil : byte) (l : Lexer) : Lexer * list byte * bool :=
  let startPos := position l in
  let runStart := (startPos + 1)%nat in
  let maxRun := Nat.min (quote_run (drop runStart (input l))) MaxConsecutiveQuotes in
  match find_close l runStart maxRun sigil with
  | Some close =>
      let l := read_to (S (length (input l))) close l in
      (l, slice l startPos (position l), true)
  | None =>
      let l := read_while (λ c, negb (c =? 0)) l in
      (l, slice l startPos (position l), false)
  end.

(** The longest closing run, at most [openQuotes], that matches the opening one. *)
Fixpoint unquote_run (literal : list byte) (openQuotes : nat) : option (list byte) :=
  match openQuotes with
  | O => None
  | S n =>
      if (length literal <? 2 * openQuotes + 2)%nat then unquote_run literal n
      else if bool_decide (take openQuotes (drop (length literal - 1 - openQuotes) literal) =
                           replicate openQuotes Byte.x22)
      then Some (take (length literal - 2 - 2 * openQuotes) (drop (1 + openQuotes) literal))
      else unquote_run literal n
  end.

Definition UnquoteText (literal : list byte) : list byte * bool :=
  let first := default Byte.x00 (head literal) in
  let final := default Byte.x00 (last literal) in
  if (4 <=? length literal)%nat &&
     (bool_decide (first = Byte.x5f) || bool_decide (first = Byte.x7e)) && bool_decide (final = first)
  then
    let maxRun := Nat.min (quote_run (take (length literal - 2) (drop 1 literal)))
                    MaxConsecutiveQuotes in
    match unquote_run literal maxRun with
    | Some s => (s, true)
    | None => (literal, false)
    end
  else if (2 <=? length literal)%nat && bool_decide (first = Byte.x22) && bool_decide (final = Byte.x22)
  then (take (length literal - 2) (drop 1 literal), true)
  else (literal, false).

(** ** Times, amounts and comments *)

Definition readTimeLiteral (l : Lexer) : Lexer * list byte :=
  let start := position l in
  let l := readChar l in
  let l :=
    if isLetter (ch l) then read_while (λ c, isLetter c || isDigit c || (c =? cUNDER)) l
    else
      let l := read_while (λ c, isDigit c || (c =? 0x2D)) l in
      if (ch l =? cSP) && isDigit (peekChar l)
      then read_while (λ c, isDigit c || (c =? 0x3A) || (c =? cDOT)) (readChar l)
      else l in
  (l, slice l start (position l)).

Definition readMoneyLiteral (l : Lexer) : Lexer * list byte :=
  let start := position l in
  let l := read_while (λ c, isDigit c || (c =? cDOT)) (readChar l) in
  let l := read_while (λ c, c =? cSP) l in
  let l := read_while isLetter l in
  (l, slice l start (position l)).

(** [for l.ch == '#' && hashCount < n { hashCount++; l.readChar() }]. *)
Fixpoint read_hashes (n : nat) (l : Lexer) : Lexer * nat :=
  match n with
  | O => (l, 0%nat)
  | S n => if ch l =? cHASH then let '(l, k) := read_hashes n (readChar l) in (l, S k) else (l, 0%nat)
  end.

(** Back to [tempPos]: the position and the character, not the line and column. *)
Definition backtrack (tempPos : nat) (l : Lexer) : Lexer :=
  if (tempPos <? length (input l))%nat then
    let '(c, size) := DecodeRune (drop tempPos (input l)) in
    set_chars l tempPos (tempPos + size) c (line l) (column l) (atLineStart l)
  else set_chars l tempPos (tempPos + 1) (ch l) (line l) (column l) (atLineStart l).

Fixpoint read_block_comment (fuel openHashCount : nat) (l : Lexer) : Lexer :=
  match fuel with
  | O => l
  | S fuel =>
      if ch l =? 0 then l
      else if ch l =? cHASH then
        let tempPos := position l in
        let '(l, hashCount) := read_hashes openHashCount l in
        if (hashCount =? openHashCount)%nat then l
        else read_block_comment fuel openHashCount (readChar (backtrack tempPos l))
      else read_block_comment fuel openHashCount (readChar l)
  end.

(** The token a method ends with: a type and the text read since [start]. *)
Definition token_here (t : TokenType) (start : nat) (l : Lexer) : Token :=
  mkToken t (slice l start (position l)) (line l) (column l) start.

Definition readComment (l : Lexer) : Lexer * Token :=
  let start := position l in
  let l := read_while (λ c, c =? cHASH) l in
  let openHashCount := (position l - start)%nat in
  if (openHashCount =? 1)%nat then
    let l := read_while (λ c, negb (c =? cNL) && negb (c =? 0) && negb (c =? cHASH)) l in
    let l := if ch l =? cHASH then readChar l else l in
    (l, token_here COMMENT start l)
  else
    let l := read_block_comment (S (length (input l))) openHashCount l in
    (l, token_here BLOCK_COMMENT start l).

(** ** Modifiers *)

(** [for ... input[tempPos] != ')' && input[tempPos] != '\n' { tempPos++ }]. *)
Fixpoint until_paren (s : list byte) : nat :=
  match s with
  | x :: s => if bool_decide (x = Byte.x29) || bool_decide (x = Byte.x0a) then O else S (until_paren s)
  | [] => O
  end.

Definition is_digit_byte (x : byte) : bool := isDigit (byte.unsigned x).

Definition isStandaloneModifier (l : Lexer) : bool :=
  if negb (ch l =? 0x28) then false else
  let wordStart := readPosition l in
  let tempPos := (wordStart + until_paren (drop wordStart (input l)))%nat in
  if negb (bool_decide (input l !! tempPos = Some Byte.x29)) then false else
  if bool_decide (input l !! S tempPos = Some Byte.x3a) then false else
  let word := slice l wordStart tempPos in
  if bool_decide (word = []) then false else
  if bool_decide (is_Some (table_lookup modifiers word)) then true else
  let wordTrimmed := TrimSpace word in
  if starts_with wordTrimmed (b "reset ") then true else
  let prev := byte.unsigned (default Byte.x00 (input l !! (position l - 1)%nat)) in
  if (0 <? position l)%nat && ((prev =? cUNDER) || IsLetter prev || isDigit prev) then false else
  if negb (bool_decide (wordTrimmed = [])) && negb (contains wordTrimmed (b ".")) &&
     negb (contains wordTrimmed (b " ")) && negb (contains wordTrimmed [Byte.x22]) &&
     negb (existsb is_digit_byte wordTrimmed)
  then let first := fst (DecodeRune wordTrimmed) in IsLetter first || (first =? cUNDER)
  else false.

Definition isModifier (l : Lexer) : bool :=
  if negb (ch l =? 0x28) then false else
  let tempPos := (readPosition l + until_paren (drop (readPosition l) (input l)))%nat in
  if negb (bool_decide (input l !! tempPos = Some Byte.x29)) then false else
  bool_decide (is_Some (table_lookup modifiers (slice l (readPosition l) tempPos))).

Definition readModifier (l : Lexer) : Lexer * Token :=
  let start := position l in
  let l := readChar l in
  let wordStart := position l in
  let l := read_while (λ c, negb (c =? 0x29) && negb (c =? 0) && negb (c =? cNL)) l in
  let word := slice l wordStart (position l) in
  let l := if ch l =? 0x29 then readChar l else l in
  let t := match table_lookup modifiers word with
           | Some t => t
           | None => if starts_with (TrimSpace word) (b "reset ") then RESET else IDENT
           end in
  (l, token_here t start l).

(** ** Indentation *)

(** [for l.ch == '\t' || l.ch == ' '], counting both. *)
Fixpoint read_indent (fuel : nat) (spaces tabs : Z) (l : Lexer) : Lexer * Z * Z :=
  match fuel with
  | O => (l, spaces, tabs)
  | S fuel =>
      if ch l =? cTAB then read_indent fuel spaces (tabs + 1) (readChar l)
      else if ch l =? cSP then read_indent fuel (spaces + 1) tabs (readChar l)
      else (l, spaces, tabs)
  end.

(** Pop the levels above [level]; the bottom one stays. *)
Fixpoint pop_levels (stack : list Z) (level dedentCount : Z) : list Z * Z :=
  match stack with
  | top :: ((_ :: _) as rest) =>
      if level <? top then pop_levels rest level (dedentCount + 1) else (stack, dedentCount)
  | _ => (stack, dedentCount)
  end.

(** [None]: the method goes on to [NextToken], with the start of the line behind it. *)
Definition handleIndentation (l : Lexer) : Lexer * option Token :=
  let startPos := position l in
  let '(l, spacesCount, tabsCount) := read_indent (S (length (input l))) 0 0 l in
  let tok t lit pos l := Some (mkToken t lit (line l) (column l) pos) in
  if (0 <? tabsCount) && (0 <? spacesCount)
  then (l, tok ILLEGAL (b "mixed tabs and spaces in indentation") (position l) l) else
  let indentLevel := if 0 <? tabsCount then tabsCount else spacesCount / 4 in
  if (ch l =? cNL) || (ch l =? 0) || (ch l =? cHASH) then
    if ch l =? cNL then let l := readChar l in (l, tok NEWLINE [Byte.x0a] (position l) l)
    else (set_indent l (indentStack l) (pendingDedents l) false, None)
  else
  let currentLevel := default 0 (head (indentStack l)) in
  if currentLevel <? indentLevel then
    let l := set_indent l (indentLevel :: indentStack l) (pendingDedents l) false in
    (l, tok INDENT [] startPos l)
  else if indentLevel <? currentLevel then
    let '(stack, dedentCount) := pop_levels (indentStack l) indentLevel 0 in
    if negb (default 0 (head stack) =? indentLevel) then
      let l := set_indent l stack (pendingDedents l) false in
      (l, tok ILLEGAL (b "invalid indentation level") startPos l)
    else if 0 <? dedentCount then
      let l := set_indent l stack (dedentCount - 1) false in
      (l, tok DEDENT [] startPos l)
    else (set_indent l stack (pendingDedents l) false, None)
  else (set_indent l (indentStack l) (pendingDedents l) false, None).

(** ** Tokens *)

Definition skipWhitespace (l : Lexer) : Lexer := read_while (λ c, (c =? cSP) || (c =? cCR)) l.

Definition lookupIdentWithContext (l : Lexer) (ident : list byte) : TokenType :=
  if bool_decide (previousToken l = RANGE) &&
     (bool_decide (ident = b "append") || bool_decide (ident = b "prepend"))
  then IDENT else LookupIdent ident.

(** The operators and delimiters of one character. *)
Definition single_char (c : Z) : option TokenType :=
  match c with
  | 0x29 => Some RPAREN | 0x5B => Some LBRACKET | 0x5D => Some RBRACKET | 0x7B => Some LBRACE
  | 0x7D => Some RBRACE | 0x2C => Some COMMA | 0x3B => Some SEMICOLON | 0x3A => Some DEFINE
  | 0x2B => Some PLUS | 0x2D => Some MINUS | 0x2A => Some MULTIPLY | 0x2F => Some DIVIDE
  | 0x25 => Some MODULO | 0x5E => Some POWER | 0x26 => Some CONCAT | 0x3D => Some ASSIGN
  | _ => None
  end.

(** Those that may be followed by [=], with the token of the character alone. *)
Definition with_equals (c : Z) : option (TokenType * TokenType) :=
  match c with
  | 0x21 => Some (NOT_EQUAL, ILLEGAL) | 0x3F => Some (EQUAL, ILLEGAL)
  | 0x3E => Some (GTE, GT) | 0x3C => Some (LTE, LT)
  | _ => None
  end.

Definition is_currency (c : Z) : bool :=
  (c =? 0xA4) || (c =? 0x24) || (c =? 0x20AC) || (c =? 0xA3) || (c =? 0xA5).

(** The part of [NextToken] after dedents and indentation. *)
Definition scan (l : Lexer) : Lexer * Token :=
  let l := skipWhitespace l in
  let tok t lit := mkToken t lit (line l) (column l) (position l) in
  (* the cases that reach the end of the function record the token's type *)
  let done t lit l' := (set_previous l' t, tok t lit) in
  let one t := done t (EncodeRune (ch l)) (readChar l) in
  if ((ch l =? cUNDER) || (ch l =? cTILDE)) && (peekChar l =? cQUOTE) then
    let '(l', literal, terminated) := readSigilString (byte_of (ch l)) l in
    done (if negb terminated then ILLEGAL else if ch l =? cTILDE then INTERP_TEXT else TEXT)
      literal l'
  else if ch l =? 0 then
    if (1 <? length (indentStack l))%nat then
      let pending := Z.of_nat (length (indentStack l)) - 1 in
      (set_indent l [0] (pending - 1) (atLineStart l), tok DEDENT [])
    else done EOF [] l
  else if ch l =? cNL then one NEWLINE
  else if ch l =? cHASH then readComment l
  else if ch l =? cQUOTE then
    let '(l', literal, terminated) := readString l in
    done (if terminated then TEXT else ILLEGAL) literal l'
  else if ch l =? 0x40 then let '(l', literal) := readTimeLiteral l in done TIME literal l'
  else if is_currency (ch l) then let '(l', literal) := readMoneyLiteral l in done MONEY literal l'
  else if ch l =? 0x28 then if isStandaloneModifier l then readModifier l else one LPAREN
  else if ch l =? cDOT then
    if peekChar l =? cDOT then
      let l1 := readChar l in
      if peekChar l1 =? cDOT then done SPREAD (b "...") (readChar (readChar l1))
      else done RANGE (EncodeRune (ch l) ++ EncodeRune (ch l1)) (readChar l1)
    else one DOT
  else match single_char (ch l) with
  | Some t => one t
  | None =>
  match with_equals (ch l) with
  | Some (two, alone) =>
      if peekChar l =? 0x3D then
        let l1 := readChar l in done two (EncodeRune (ch l) ++ EncodeRune (ch l1)) (readChar l1)
      else one alone
  | None =>
      if isLetter (ch l) then
        let '(l', literal) := readIdentifier l in
        (l', tok (lookupIdentWithContext l' literal) literal)
      else if isDigit (ch l) then
        let startPos := position l in
        let '(l', literal) := readNumber l in
        if ch l' =? cDOT then
          let l' := readChar l' in (l', tok ILLEGAL (slice l' startPos (position l')))
        else (l', tok NUMBER literal)
      else one ILLEGAL
  end end.

(** The recursive calls of [handleIndentation] find no pending dedents and the
    line begun: they are [scan]. *)
Definition NextToken (l : Lexer) : Lexer * Token :=
  if 0 <? pendingDedents l then
    let l := set_indent l (indentStack l) (pendingDedents l - 1) (atLineStart l) in
    (l, mkToken DEDENT [] (line l) (column l) (position l))
  else if atLineStart l then
    match handleIndentation l with
    | (l, Some tok) => (l, tok)
    | (l, None) => scan l
    end
  else scan l.

(** All the tokens, up to EOF; [None]: [fuel] tokens were not all. *)
Fixpoint tokens (fuel : nat) (l : Lexer) : option (list Token) :=
  match fuel with
  | O => None
  | S fuel =>
      let '(l, tok) := NextToken l in
      if bool_decide (Type_ tok = EOF) then Some [tok] else (tok ::.) <$> tokens fuel l
  end.

(** ** Looking ahead in the statement *)

(** The rest of the input from the current character. *)
Definition remaining (l : Lexer) : list byte := drop (position l) (input l).

(** [for i := 0; i <= len(remaining)-len(pattern); i++]. *)
Fixpoint contains_pattern (n : nat) (s pattern : list byte) : bool :=
  match n with
  | O => false
  | S n =>
      if starts_with s pattern then true
      else match s with
      | x :: s => if bool_decide (x = Byte.x0a) then false else contains_pattern n s pattern
      | [] => false
      end
  end.
Definition ContainsPattern (l : Lexer) (pattern : list byte) : bool :=
  contains_pattern (S (length (remaining l)) - length pattern) (remaining l) pattern.

(** The scan of [HasTopLevelAssignment]: [prev] is the byte before [s], 0 at first. *)
Fixpoint top_level_assignment (s : list byte) (prev : Z) (depth : Z) (inString skip : bool) : bool :=
  match s with
  | [] => false
  | x :: rest =>
      let c := byte.unsigned x in
      if skip then top_level_assignment rest c depth inString false
      else if c =? cNL then false
      else if inString then
        if c =? 0x5C then top_level_assignment rest c depth true true
        else top_level_assignment rest c depth (negb (c =? cQUOTE)) false
      else if c =? cQUOTE then top_level_assignment rest c depth true false
      else if c =? 0x5B then top_level_assignment rest c (depth + 1) false false
      else if c =? 0x5D then top_level_assignment rest c (if 0 <? depth then depth - 1 else depth) false false
      else if (c =? 0x3D) && (depth =? 0) then
        let next := byte.unsigned (default Byte.x00 (head rest)) in
        if (prev =? 0x3D) || (prev =? 0x3E) || (prev =? 0x3C) || (prev =? 0x21) || (prev =? 0x3F) ||
           (next =? 0x3D)
        then top_level_assignment rest c depth false false else true
      else top_level_assignment rest c depth false false
  end.
Definition HasTopLevelAssignment (l : Lexer) : bool :=
  top_level_assignment (remaining l) 0 0 false false.

Fixpoint until_newline (s : list byte) : list byte :=
  match s with
  | x :: s => if bool_decide (x = Byte.x0a) then [] else x :: until_newline s
  | [] => []
  end.
Definition EndsWithPattern (l : Lexer) (pattern : list byte) : bool :=
  ends_with (until_newline (remaining l)) pattern.

End Lexer.

(** The letters of Latin-1, to run the lexer. *)
Definition latin1_letter (c : Z) : bool :=
  between 0x41 0x5A c || between 0x61 0x7A c || (c =? 0xAA) || (c =? 0xB5) || (c =? 0xBA) ||
  (between 0xC0 0xFF c && negb (c =? 0xD7) && negb (c =? 0xF7)).

Definition lex (s : string) : option (list TokenType) :=
  (λ ts : list Token, Type_ <$> ts) <$>
    tokens latin1_letter (2 * String.length s + 2)%nat (New (b s)).

(** ** Lemmas: moving over the input *)

(** The current character is the one at the position. *)
Definition at_char (l : Lexer) : Prop :=
  if (position l <? length (input l))%nat then
    ch l = fst (DecodeRune (drop (position l) (input l))) ∧
    readPosition l = (position l + snd (DecodeRune (drop (position l) (input l))))%nat
  else position l = length (input l) ∧ ch l = 0 ∧ readPosition l = length (input l).

(** Reading characters: the input and the indentation stay. *)
Record moves (l l' : Lexer) : Prop := {
  mv_char : at_char l';
  mv_input : input l' = input l;
  mv_stack : indentStack l' = indentStack l;
  mv_pending : pendingDedents l' = pendingDedents l;
  mv_position : (position l ≤ position l')%nat
}.

Lemma moves_refl l : at_char l → moves l l.
Proof. by intros; split. Qed.
Lemma moves_trans l1 l2 l3 : moves l1 l2 → moves l2 l3 → moves l1 l3.
Proof. intros [] []. split; congruence || lia. Qed.
Lemma moves_previous l l' t : moves l l' → moves l (set_previous l' t).
Proof. intros []. by split. Qed.

Lemma at_char_bound l : at_char l → (position l ≤ length (input l))%nat.
Proof. unfold at_char. destruct (Nat.ltb_spec (position l) (length (input l))); lia. Qed.

Lemma at_char_nonzero l : at_char l → ch l ≠ 0 → (position l < length (input l))%nat.
Proof.
  unfold at_char. destruct (Nat.ltb_spec (position l) (length (input l))); [done|].
  by intros (_ & -> & _).
Qed.

Lemma readPosition_spec l : at_char l →
  (position l ≤ readPosition l ≤ length (input l))%nat ∧
  ((position l < length (input l))%nat → (position l < readPosition l)%nat).
Proof.
  unfold at_char. destruct (Nat.ltb_spec (position l) (length (input l))) as [Hlt|]; [|lia].
  intros [_ ->]. assert (drop (position l) (input l) ≠ []) as Hne.
  { intros E. apply (f_equal length) in E. rewrite length_drop in E. cbn in E. lia. }
  pose proof (DecodeRune_size _ Hne) as Hs. rewrite length_drop in Hs. lia.
Qed.

Lemma set_chars_at l pos rpos c ln col st :
  at_char (set_chars l pos rpos c ln col st) ↔
  if (pos <? length (input l))%nat then
    c = fst (DecodeRune (drop pos (input l))) ∧
    rpos = (pos + snd (DecodeRune (drop pos (input l))))%nat
  else pos = length (input l) ∧ c = 0 ∧ rpos = length (input l).
Proof. done. Qed.

Lemma readChar_position l : position (readChar l) = readPosition l.
Proof.
  unfold readChar. destruct (if (_ <=? _)%nat then _ else _) as [c rpos].
  by destruct (c =? cNL), (negb (c =? cTAB) || negb (atLineStart l)).
Qed.

Lemma readChar_moves l : at_char l → moves l (readChar l).
Proof.
  intros Hl. pose proof (readPosition_spec l Hl) as [Hb _].
  assert (Hgen : ∀ ln col st c rpos,
    (if (length (input l) <=? readPosition l)%nat then (0, readPosition l)
     else let '(c, size) := DecodeRune (drop (readPosition l) (input l)) in
          (c, (readPosition l + size)%nat)) = (c, rpos) →
    moves l (set_chars l (readPosition l) rpos c ln col st)).
  { intros ln col st c rpos E. split; [|done..|cbn; lia]. apply set_chars_at.
    destruct (Nat.leb_spec (length (input l)) (readPosition l)).
    - injection E as <- <-. rewrite (proj2 (Nat.ltb_ge _ _)) by lia. lia.
    - destruct (DecodeRune _) as [c' size] eqn:Hd. injection E as <- <-.
      by rewrite (proj2 (Nat.ltb_lt _ _)). }
  unfold readChar. destruct (if (_ <=? _)%nat then _ else _) as [c rpos] eqn:E.
  destruct (c =? cNL), (negb (c =? cTAB) || negb (atLineStart l)); by apply Hgen.
Qed.

Lemma readChar_strict l : at_char l → ch l ≠ 0 → (position l < position (readChar l))%nat.
Proof.
  intros Hl Hc. rewrite readChar_position. apply (readPosition_spec l Hl).
  by apply at_char_nonzero.
Qed.

Lemma read_loop_moves n p l : at_char l → moves l (read_loop n p l).
Proof.
  revert l. induction n as [|n IH]; intros l Hl; cbn [read_loop]; [by apply moves_refl|].
  destruct (p (ch l)); [|by apply moves_refl].
  pose proof (readChar_moves l Hl) as Hm. eapply moves_trans; [done|]. apply IH, Hm.
Qed.

Lemma read_loop_strict n p l : at_char l → ch l ≠ 0 → p (ch l) = true →
  (position l < position (read_loop (S n) p l))%nat.
Proof.
  intros Hl Hc Hp. cbn [read_loop]. rewrite Hp.
  pose proof (readChar_strict l Hl Hc). pose proof (readChar_moves l Hl) as Hm.
  pose proof (mv_position _ _ (read_loop_moves n p (readChar l) (mv_char _ _ Hm))). lia.
Qed.

(** The length of the input is fuel enough: the loop ends because its condition
    fails. *)
Lemma read_while_stops p l : at_char l → p 0 = false → p (ch (read_while p l)) = false.
Proof.
  intros Hl H0. unfold read_while.
  assert (Hgen : ∀ n l, at_char l → (length (input l) - position l < n)%nat →
    p (ch (read_loop n p l)) = false).
  { intros n. induction n as [|n IH]; intros k Hk Hn; [lia|]. cbn [read_loop].
    destruct (p (ch k)) eqn:Hp; [|done].
    assert (Hc : ch k ≠ 0) by (intros E; rewrite E in Hp; congruence).
    pose proof (readChar_moves k Hk) as Hm. pose proof (readChar_strict k Hk Hc).
    pose proof (at_char_nonzero k Hk Hc).
    apply IH; [apply Hm|]. rewrite (mv_input _ _ Hm). lia. }
  apply Hgen; [done|lia].
Qed.

Lemma read_while_moves p l : at_char l → moves l (read_while p l).
Proof. apply read_loop_moves. Qed.

Lemma read_to_moves n target l : at_char l → moves l (read_to n target l).
Proof.
  revert l. induction n as [|n IH]; intros l Hl; cbn [read_to]; [by apply moves_refl|].
  destruct (_ <? _)%nat; [|by apply moves_refl].
  pose proof (readChar_moves l Hl) as Hm. eapply moves_trans; [done|]. apply IH, Hm.
Qed.

(** A move past at least a character. *)
Definition passes (l l' : Lexer) : Prop := moves l l' ∧ (position l < position l')%nat.

Lemma passes_moves l1 l2 l3 : passes l1 l2 → moves l2 l3 → passes l1 l3.
Proof. intros [Hm Hp] Hm'. split; [by eapply moves_trans|]. destruct Hm'. lia. Qed.
Lemma moves_passes l1 l2 l3 : moves l1 l2 → passes l2 l3 → passes l1 l3.
Proof. intros Hm [Hm' Hp]. split; [by eapply moves_trans|]. destruct Hm. lia. Qed.
Lemma passes_previous l l' t : passes l l' → passes l (set_previous l' t).
Proof. intros [Hm Hp]. split; [by apply moves_previous|done]. Qed.
Lemma readChar_passes l : at_char l → ch l ≠ 0 → passes l (readChar l).
Proof. intros. split; [by apply readChar_moves|by apply readChar_strict]. Qed.
Lemma read_while_passes p l : at_char l → ch l ≠ 0 → p (ch l) = true → passes l (read_while p l).
Proof. intros. split; [by apply read_while_moves|by apply read_loop_strict]. Qed.

Lemma moves_at l l' : moves l l' → at_char l'.
Proof. apply mv_char. Qed.
Lemma passes_at l l' : passes l l' → at_char l'.
Proof. intros [[] _]. done. Qed.

Lemma New_at src : at_char (New src) ∧ input (New src) = src.
Proof.
  unfold New. set (l := mkLexer _ _ _ _ _ _ _ _ _ _).
  assert (Hi : input (readChar l) = src ∧ at_char (readChar l)); [|tauto].
  unfold readChar. cbn [readPosition input l].
  destruct (if (_ <=? _)%nat then _ else _) as [c rpos] eqn:E.
  assert (Hgen : ∀ ln col st, at_char (set_chars l 0 rpos c ln col st)).
  { intros. apply set_chars_at. cbn [input l].
    destruct (Nat.leb_spec (length src) 0).
    - injection E as <- <-. rewrite (proj2 (Nat.ltb_ge _ _)) by lia. lia.
    - destruct (DecodeRune _) as [c' size]. injection E as <- <-.
      by rewrite (proj2 (Nat.ltb_lt _ _)). }
  destruct (c =? cNL), (negb (c =? cTAB) || negb (atLineStart l)); split; done || apply Hgen.
Qed.

(** ** Lemmas: each kind of token passes its first character *)

Section tokens.
Context (IsLetter : Z → bool).
Implicit Types l : Lexer.

Lemma readIdentifier_passes l : at_char l → ch l ≠ 0 → isLetter IsLetter (ch l) = true →
  passes l (readIdentifier IsLetter l).1.
Proof.
  intros Hl Hc Hi. split; [by apply read_loop_moves|].
  apply read_loop_strict; [done..|]. by rewrite Hi.
Qed.

Lemma read_digits_moves n l r k : at_char l → moves l (read_digits n l r k).1.1.
Proof.
  revert l r k. induction n as [|n IH]; intros l r k Hl; cbn [read_digits]; [by apply moves_refl|].
  pose proof (readChar_moves l Hl) as Hm. pose proof (mv_char _ _ Hm).
  destruct (_ && _); [|by apply moves_refl].
  destruct (ch l =? cUNDER); (eapply moves_trans; [done|]; by apply IH).
Qed.

Lemma read_digits_strict n l r k : at_char l → ch l ≠ 0 → isDigit (ch l) = true → (k < 100)%nat →
  (position l < position (read_digits (S n) l r k).1.1)%nat.
Proof.
  intros Hl Hc Hd Hk. cbn [read_digits]. rewrite Hd. cbn [orb andb].
  unfold MAX_NUMBER_LENGTH. rewrite (proj2 (Nat.ltb_lt _ _)) by done.
  pose proof (readChar_strict l Hl Hc). pose proof (mv_char _ _ (readChar_moves l Hl)) as Hr.
  destruct (ch l =? cUNDER);
    match goal with |- context [read_digits n (readChar l) ?r ?k] =>
      pose proof (mv_position _ _ (read_digits_moves n (readChar l) r k Hr)) end; lia.
Qed.

Lemma digits_of_moves (s : Lexer * list byte * nat) : at_char s.1.1 → moves s.1.1 (digits_of s).1.1.
Proof. destruct s as [[l r] k]. apply read_digits_moves. Qed.
Lemma take_char_moves (s : Lexer * list byte * nat) : at_char s.1.1 → moves s.1.1 (take_char s).1.1.
Proof. destruct s as [[l r] k]. apply readChar_moves. Qed.

Lemma readNumber_passes l : at_char l → ch l ≠ 0 → isDigit (ch l) = true → passes l (readNumber l).1.
Proof.
  intros Hl Hc Hd.
  assert (Hlift : ∀ (f : Lexer * list byte * nat → Lexer * list byte * nat),
    (∀ s, at_char s.1.1 → moves s.1.1 (f s).1.1) →
    ∀ s, passes l s.1.1 → passes l (f s).1.1).
  { intros f Hf s Hs. eapply passes_moves; [done|]. by apply Hf, passes_at with l. }
  unfold readNumber. cbv zeta. cbn [fst].
  set (s1 := digits_of (l, [], 0%nat)).
  assert (H1 : passes l s1.1.1).
  { split; [by apply read_digits_moves|apply read_digits_strict; done || lia]. }
  set (s2 := if _ && _ && below_limit s1 then _ else s1).
  assert (H2 : passes l s2.1.1).
  { unfold s2. destruct (_ && _); [|done].
    by apply (Hlift _ digits_of_moves), (Hlift _ take_char_moves). }
  destruct (_ && below_limit s2); [|done].
  apply (Hlift _ digits_of_moves). destruct (_ && below_limit (take_char s2));
    repeat apply (Hlift _ take_char_moves); done.
Qed.

Lemma readString_passes l : at_char l → ch l ≠ 0 → passes l (readString l).1.1.
Proof.
  intros Hl Hc. unfold readString. pose proof (readChar_passes l Hl Hc) as Hp.
  pose proof (read_while_moves (λ c, negb (c =? 0) && negb (c =? cQUOTE)) _ (passes_at _ _ Hp)) as Hm.
  pose proof (passes_moves _ _ _ Hp Hm) as Hpm. destruct (_ =? 0); [done|].
  eapply passes_moves; [done|]. apply readChar_moves, Hm.
Qed.

Lemma find_close_bound l k n sigil e : find_close l k n sigil = Some e → (k < e)%nat.
Proof.
  induction n as [|n IH]; cbn [find_close]; [done|].
  destruct (findSigilClose _ _ _ _) eqn:E; [|done]. intros [= <-].
  unfold findSigilClose in E. apply fmap_Some in E as (d & _ & ->). lia.
Qed.

Lemma readSigilString_passes sigil l : at_char l → ch l ≠ 0 → passes l (readSigilString sigil l).1.1.
Proof.
  intros Hl Hc. unfold readSigilString. pose proof (readChar_strict l Hl Hc) as Hs.
  destruct (find_close _ _ _ _) as [e|] eqn:E; cbn [fst].
  - apply find_close_bound in E. split; [by apply read_to_moves|]. cbn [read_to].
    rewrite (proj2 (Nat.ltb_lt _ _)) by lia.
    pose proof (mv_position _ _ (read_to_moves (length (input l)) e (readChar l)
      (mv_char _ _ (readChar_moves l Hl)))). lia.
  - apply read_while_passes; [done..|]. by destruct (Z.eqb_spec (ch l) 0).
Qed.

Lemma readTimeLiteral_passes l : at_char l → ch l ≠ 0 → passes l (readTimeLiteral IsLetter l).1.
Proof.
  intros Hl Hc. unfold readTimeLiteral. cbn [fst].
  pose proof (readChar_passes l Hl Hc) as Hp. eapply passes_moves; [done|].
  apply passes_at in Hp. destruct (isLetter _ _); [by apply read_while_moves|].
  pose proof (read_while_moves (λ c, isDigit c || (c =? 0x2D)) _ Hp) as Hm.
  destruct (_ && _); [|done]. eapply moves_trans; [done|]. apply mv_char in Hm.
  eapply moves_trans; [by apply readChar_moves|]. by apply read_while_moves, (mv_char _ _ (readChar_moves _ Hm)).
Qed.

Lemma readMoneyLiteral_passes l : at_char l → ch l ≠ 0 → passes l (readMoneyLiteral IsLetter l).1.
Proof.
  intros Hl Hc. unfold readMoneyLiteral. cbn [fst].
  pose proof (readChar_passes l Hl Hc) as Hp.
  pose proof (read_while_moves (λ c, isDigit c || (c =? cDOT)) _ (passes_at _ _ Hp)) as H1.
  pose proof (read_while_moves (λ c, c =? cSP) _ (mv_char _ _ H1)) as H2.
  pose proof (read_while_moves (isLetter IsLetter) _ (mv_char _ _ H2)) as H3.
  eapply passes_moves; [done|]. by eapply moves_trans; [|eapply moves_trans].
Qed.

Lemma read_hashes_moves n l : at_char l → moves l (read_hashes n l).1.
Proof.
  revert l. induction n as [|n IH]; intros l Hl; cbn [read_hashes]; [by apply moves_refl|].
  destruct (_ =? _); [|by apply moves_refl]. pose proof (readChar_moves l Hl) as Hm.
  specialize (IH _ (mv_char _ _ Hm)). destruct (read_hashes n (readChar l)) as [l' k].
  by eapply moves_trans.
Qed.

Lemma backtrack_moves l l' : at_char l → (position l < length (input l))%nat → moves l l' →
  moves l (backtrack (position l) l').
Proof.
  intros Hl Hlt [_ Hi Hst Hpd _]. unfold backtrack. rewrite Hi, (proj2 (Nat.ltb_lt _ _)) by done.
  destruct (DecodeRune _) as [c size] eqn:E. split; [|done..].
  apply set_chars_at. rewrite Hi. by rewrite (proj2 (Nat.ltb_lt _ _)), E.
Qed.

Lemma read_block_comment_moves n k l : at_char l → moves l (read_block_comment n k l).
Proof.
  revert l. induction n as [|n IH]; intros l Hl; cbn [read_block_comment]; [by apply moves_refl|].
  destruct (Z.eqb_spec (ch l) 0) as [|Hc]; [by apply moves_refl|].
  destruct (_ =? cHASH).
  - pose proof (read_hashes_moves k l Hl) as Hm. destruct (read_hashes k l) as [l' j]. cbn [fst] in Hm.
    destruct (_ =? _)%nat; [done|].
    pose proof (backtrack_moves l l' Hl (at_char_nonzero l Hl Hc) Hm) as Hb.
    eapply moves_trans; [done|]. pose proof (readChar_moves _ (mv_char _ _ Hb)) as Hr.
    eapply moves_trans; [done|]. apply IH, Hr.
  - pose proof (readChar_moves l Hl) as Hr. eapply moves_trans; [done|]. apply IH, Hr.
Qed.

Lemma readComment_passes l : at_char l → ch l = cHASH → passes l (readComment l).1.
Proof.
  intros Hl Hc. unfold readComment. cbv zeta.
  set (l1 := read_while (λ c, c =? cHASH) l).
  assert (Hp : passes l l1) by (apply read_while_passes; [done|by rewrite Hc|by rewrite Hc]).
  pose proof (passes_at _ _ Hp) as Ha. destruct (_ =? 1)%nat; cbn [fst].
  - set (l2 := read_while _ l1). assert (Hm : moves l1 l2) by by apply read_while_moves.
    pose proof (passes_moves _ _ _ Hp Hm) as Hpm. destruct (_ =? _); [|done].
    eapply passes_moves; [done|]. apply readChar_moves, Hm.
  - eapply passes_moves; [done|]. by apply read_block_comment_moves.
Qed.

Lemma readModifier_passes l : at_char l → ch l ≠ 0 → passes l (readModifier l).1.
Proof.
  intros Hl Hc. unfold readModifier. cbv zeta. cbn [fst].
  pose proof (readChar_passes l Hl Hc) as Hp.
  set (l2 := read_while _ (readChar l)).
  assert (Hm : moves (readChar l) l2) by (apply read_while_moves; by eapply passes_at).
  pose proof (passes_moves _ _ _ Hp Hm) as Hpm. destruct (_ =? _); [|done].
  eapply passes_moves; [done|]. apply readChar_moves, Hm.
Qed.

Lemma read_indent_moves n s k l : at_char l → moves l (read_indent n s k l).1.1.
Proof.
  revert s k l. induction n as [|n IH]; intros s k l Hl; cbn [read_indent]; [by apply moves_refl|].
  pose proof (readChar_moves l Hl) as Hm.
  destruct (_ =? cTAB); [|destruct (_ =? cSP); [|by apply moves_refl]];
    (eapply moves_trans; [done|]; apply IH, Hm).
Qed.
End tokens.

(** ** Lemmas: the next token *)

(** The types of tokens that are neither the end nor about blocks. *)
Definition plain (t : TokenType) : Prop := t ≠ INDENT ∧ t ≠ DEDENT ∧ t ≠ EOF.
#[global] Instance plain_dec t : Decision (plain t).
Proof. unfold plain. apply _. Defined.

Lemma table_plain table word t :
  Forall plain (snd <$> table) → table_lookup table word = Some t → plain t.
Proof. intros Ht H%table_lookup_in. by eapply Forall_forall. Qed.

Lemma lookupIdent_plain l ident : plain (lookupIdentWithContext l ident).
Proof.
  unfold lookupIdentWithContext, LookupIdent. destruct (_ && _); [done|].
  destruct (table_lookup keywords ident) eqn:E; [|done].
  eapply table_plain; [|done]. apply (bool_decide_unpack _). by vm_compute.
Qed.

Lemma single_char_plain c t : single_char c = Some t → plain t.
Proof. unfold single_char. repeat case_match; intros [= <-]; done. Qed.
Lemma with_equals_plain c t1 t2 : with_equals c = Some (t1, t2) → plain t1 ∧ plain t2.
Proof. unfold with_equals. repeat case_match; intros [= <- <-]; done. Qed.

Section next.
Context (IsLetter : Z → bool).
Implicit Types l : Lexer.

Lemma readModifier_plain l : plain (Type_ (readModifier l).2).
Proof.
  unfold readModifier. cbn [snd token_here Type_]. destruct (table_lookup _ _) eqn:E.
  - eapply table_plain; [|done]. apply (bool_decide_unpack _). by vm_compute.
  - by destruct (starts_with _ _).
Qed.

Lemma readComment_plain l : plain (Type_ (readComment l).2).
Proof. unfold readComment. cbv zeta. by destruct (_ =? 1)%nat. Qed.

(** What [scan] does: a token past at least a character, or the end. *)
Definition scanned (l : Lexer) (p : Lexer * Token) : Prop :=
  (passes l p.1 ∧ plain (Type_ p.2)) ∨
  (∃ l1, moves l l1 ∧
    if (1 <? length (indentStack l))%nat
    then p.1 = set_indent l1 [0] (Z.of_nat (length (indentStack l)) - 2) (atLineStart l1) ∧
         Type_ p.2 = DEDENT
    else p.1 = set_previous l1 EOF ∧ Type_ p.2 = EOF).

Lemma scan_plain l l1 (p : Lexer * Token) :
  moves l l1 → passes l1 p.1 → plain (Type_ p.2) → scanned l p.
Proof. intros. left. split; [by eapply moves_passes|done]. Qed.

Lemma peek_nonzero l : at_char l → peekChar l ≠ 0 → ch (readChar l) ≠ 0 ∧ at_char (readChar l).
Proof.
  intros Hl Hp. split; [|by apply (readChar_moves l)].
  assert (E : ch (readChar l) = peekChar l); [|by rewrite E].
  unfold readChar, peekChar. destruct (_ <=? _)%nat; [by destruct (_ || _)|].
  destruct (DecodeRune _) as [c size]. cbn [fst].
  by destruct (c =? cNL), (negb (c =? cTAB) || negb (atLineStart l)).
Qed.

Lemma two_chars l t1 t2 : at_char l → ch l ≠ 0 → peekChar l ≠ 0 →
  passes l (set_previous (readChar (readChar l)) t1) ∧
  (peekChar (readChar l) ≠ 0 → passes l (set_previous (readChar (readChar (readChar l))) t2)).
Proof.
  intros Hl Hc Hp. pose proof (readChar_passes l Hl Hc) as H1.
  destruct (peek_nonzero l Hl Hp) as [Hc1 Ha1].
  pose proof (readChar_moves _ Ha1) as H2. pose proof (passes_moves _ _ _ H1 H2) as H12.
  split; [by apply passes_previous|]. intros _. apply passes_previous.
  eapply passes_moves; [done|]. apply readChar_moves, H2.
Qed.

Lemma eqb_nonzero c d : (c =? d) = true → d ≠ 0 → c ≠ 0.
Proof. intros ->%Z.eqb_eq. done. Qed.

Lemma scan_spec l : at_char l → scanned l (scan IsLetter l).
Proof.
  intros Hl0. pose proof (read_while_moves (λ c, (c =? cSP) || (c =? cCR)) l Hl0) as Hm.
  unfold scan, skipWhitespace. set (l1 := read_while _ l) in *. cbv zeta.
  pose proof (mv_char _ _ Hm) as Hl.
  destruct (_ && (peekChar l1 =? cQUOTE)) eqn:Hsig.
  { assert (Hc : ch l1 ≠ 0).
    { apply andb_true_iff in Hsig as [[H|H]%orb_true_iff _]; by apply (eqb_nonzero _ _ H). }
    pose proof (readSigilString_passes (byte_of (ch l1)) l1 Hl Hc) as Hp.
    destruct (readSigilString _ l1) as [[l2 lit] []]; cbn in Hp |- *;
      (apply (scan_plain l l1); [done|by apply passes_previous|]; by destruct (_ =? cTILDE)). }
  clear Hsig. destruct (Z.eqb_spec (ch l1) 0) as [H0|Hc].
  { right. exists l1. split; [done|]. rewrite (mv_stack _ _ Hm).
    destruct (1 <? length (indentStack l))%nat; cbn [fst snd]; [|done]. split; [|done].
    f_equal. lia. }
  assert (Hone : ∀ t tk, plain (Type_ tk) → scanned l (set_previous (readChar l1) t, tk)).
  { intros t tk Ht. apply (scan_plain l l1); [done| |done].
    by apply passes_previous, readChar_passes. }
  destruct (ch l1 =? cNL); [by apply Hone|].
  destruct (Z.eqb_spec (ch l1) cHASH) as [Hh|_].
  { apply (scan_plain l l1); [done|by apply readComment_passes|apply readComment_plain]. }
  destruct (ch l1 =? cQUOTE).
  { pose proof (readString_passes l1 Hl Hc) as Hp. destruct (readString l1) as [[l2 lit] []];
      (apply (scan_plain l l1); [done|by apply passes_previous|done]). }
  destruct (ch l1 =? 0x40).
  { pose proof (readTimeLiteral_passes IsLetter l1 Hl Hc) as Hp.
    destruct (readTimeLiteral IsLetter l1) as [l2 lit].
    apply (scan_plain l l1); [done|by apply passes_previous|done]. }
  destruct (is_currency (ch l1)).
  { pose proof (readMoneyLiteral_passes IsLetter l1 Hl Hc) as Hp.
    destruct (readMoneyLiteral IsLetter l1) as [l2 lit].
    apply (scan_plain l l1); [done|by apply passes_previous|done]. }
  destruct (ch l1 =? 0x28).
  { destruct (isStandaloneModifier IsLetter l1); [|by apply Hone].
    apply (scan_plain l l1); [done|by apply readModifier_passes|apply readModifier_plain]. }
  destruct (ch l1 =? cDOT).
  { destruct (peekChar l1 =? cDOT) eqn:Hp1; [|by apply Hone].
    destruct (two_chars l1 RANGE SPREAD Hl Hc) as [H2 H3]; [by eapply eqb_nonzero|].
    destruct (peekChar (readChar l1) =? cDOT) eqn:Hp2;
      (apply (scan_plain l l1); [done|cbn [fst]|done]); [|done].
    apply H3. by eapply eqb_nonzero. }
  destruct (single_char (ch l1)) as [t|] eqn:Hs; [apply Hone; by eapply single_char_plain|].
  destruct (with_equals (ch l1)) as [[t1 t2]|] eqn:Hw.
  { apply with_equals_plain in Hw as [Ht1 Ht2].
    destruct (peekChar l1 =? 0x3D) eqn:Hp1; [|by apply Hone].
    apply (scan_plain l l1); [done| |done].
    apply (two_chars l1 t1 t1 Hl Hc). by eapply eqb_nonzero. }
  destruct (isLetter IsLetter (ch l1)) eqn:Hi.
  { pose proof (readIdentifier_passes IsLetter l1 Hl Hc Hi) as Hp.
    destruct (readIdentifier IsLetter l1) as [l2 lit].
    apply (scan_plain l l1); [done..|]. apply lookupIdent_plain. }
  destruct (isDigit (ch l1)) eqn:Hd; [|by apply Hone].
  pose proof (readNumber_passes l1 Hl Hc Hd) as Hp.
  destruct (readNumber l1) as [l2 lit]. cbn [fst] in Hp.
  destruct (ch l2 =? cDOT); (apply (scan_plain l l1); [done| |done]); [|done].
  eapply passes_moves; [done|]. apply readChar_moves. by eapply passes_at.
Qed.

(** The invariant of the lexer between tokens. *)
Record lexer_ok (l : Lexer) : Prop := {
  lo_char : at_char l;
  lo_stack : last (indentStack l) = Some 0;
  lo_sorted : StronglySorted Z.gt (indentStack l);
  lo_pending : 0 ≤ pendingDedents l
}.

(** The blocks open, closings to come included. *)
Definition blocks (l : Lexer) : Z := len (indentStack l) - 1 + pendingDedents l.
(** What is left to do: every token but EOF makes it smaller. *)
Definition todo (l : Lexer) : Z :=
  2 * (len (input l) - Z.of_nat (position l)) + pendingDedents l + len (indentStack l).

Definition block_change (t : TokenType) : Z :=
  match t with INDENT => 1 | DEDENT => -1 | _ => 0 end.

Lemma plain_change t : plain t → block_change t = 0.
Proof. intros (? & ? & ?). by destruct t. Qed.

Definition stepped (l : Lexer) (p : Lexer * Token) : Prop :=
  lexer_ok p.1 ∧ input p.1 = input l ∧
  (if bool_decide (Type_ p.2 = EOF) then blocks p.1 = 0 ∧ todo p.1 ≤ todo l else todo p.1 < todo l) ∧
  (blocks p.1 = blocks l + block_change (Type_ p.2) ∨
   (Type_ p.2 = ILLEGAL ∧ blocks p.1 < blocks l)).

Lemma ok_stack_pos l : lexer_ok l → 1 ≤ len (indentStack l).
Proof. intros [_ Hs _ _]. destruct (indentStack l); [done|]. rewrite len_cons. pose proof (len_nonneg l0). lia. Qed.

Lemma passes_stepped l l' tk : lexer_ok l → passes l l' → plain (Type_ tk) → stepped l (l', tk).
Proof.
  intros [Hc Hs Ho Hp] [[Hc' Hi Hs' Hp' _] Hlt] Hpl. split_and!; cbn [fst snd].
  - split; [done|by rewrite Hs'|by rewrite Hs'|by rewrite Hp'].
  - done.
  - rewrite bool_decide_false by apply Hpl. unfold todo. rewrite Hi, Hs', Hp'. lia.
  - left. unfold blocks. rewrite Hs', Hp', plain_change by done. lia.
Qed.

Lemma scan_stepped l : lexer_ok l → pendingDedents l = 0 → stepped l (scan IsLetter l).
Proof.
  intros Hok Hp0. pose proof (ok_stack_pos l Hok) as Hpos.
  destruct (scan IsLetter l) as [l' tk] eqn:E. pose proof (scan_spec l (lo_char l Hok)) as H.
  rewrite E in H. destruct H as [[Hpass Hpl]|(l1 & [Hc Hi Hs Hp Hle] & H)].
  { by apply passes_stepped. }
  unfold len in Hpos. destruct (Nat.ltb_spec 1 (length (indentStack l))); cbn [fst snd] in H;
    destruct H as [-> Ht]; unfold stepped; cbn [fst snd]; rewrite Ht.
  - rewrite bool_decide_false by done. split_and!; [split; [done|done|by repeat constructor|cbn; lia]|done| |].
    + unfold todo, len. cbn [set_indent input position pendingDedents indentStack length].
      rewrite Hi. lia.
    + left. unfold blocks, len. cbn [set_indent indentStack pendingDedents length block_change]. lia.
  - rewrite bool_decide_true by done. split_and!;
      [split; [done|cbn; rewrite Hs; apply Hok..|cbn; rewrite Hp; apply Hok]|done| | |];
      unfold blocks, todo, len;
      cbn [set_previous input position indentStack pendingDedents block_change];
      rewrite ?Hi, ?Hs, ?Hp; [lia..|]. left. lia.
Qed.

Lemma pop_levels_spec stack level k : last stack = Some 0 → 0 ≤ level →
  last (pop_levels stack level k).1 = Some 0 ∧
  (pop_levels stack level k).1 `suffix_of` stack ∧
  len (pop_levels stack level k).1 = len stack + k - (pop_levels stack level k).2 ∧
  k ≤ (pop_levels stack level k).2 ∧
  (level < default 0 (head stack) → k < (pop_levels stack level k).2).
Proof.
  revert k. induction stack as [|top rest IH]; intros k Hlast Hlev; [done|].
  destruct rest as [|next rest].
  { injection Hlast as ->. cbn [pop_levels]. cbn [fst snd head default]. split_and!; [done|done|lia|lia|]. cbn. lia. }
  change (pop_levels (top :: next :: rest) level k) with
    (if level <? top then pop_levels (next :: rest) level (k + 1) else (top :: next :: rest, k)).
  destruct (Z.ltb_spec level top).
  - destruct (IH (k + 1)) as (H1 & Hsuf & H2 & H3 & _); [done|done|]. rewrite len_cons.
    split_and!; [done|by apply suffix_cons_r|lia|lia|lia].
  - cbn [fst snd head default]. split_and!; [done|done|lia|lia|]. cbn. lia.
Qed.

Lemma read_indent_counts n s k l : 0 ≤ s → 0 ≤ k →
  s ≤ (read_indent n s k l).1.2 ∧ k ≤ (read_indent n s k l).2 ∧
  ((read_indent n s k l).1.2 = s ∧ (read_indent n s k l).2 = k ∨
   (at_char l → (position l < position (read_indent n s k l).1.1)%nat)).
Proof.
  revert s k l. induction n as [|n IH]; intros s k l Hs Hk; cbn [read_indent]; [cbn; split_and!; [lia|lia|by left]|].
  destruct (ch l =? cTAB) eqn:Ht; [|destruct (ch l =? cSP) eqn:Hp; [|cbn; split_and!; [lia|lia|by left]]].
  - destruct (IH s (k + 1) (readChar l)) as (H1 & H2 & _); [lia..|].
    split_and!; [lia|lia|]. right. intros Hl.
    pose proof (readChar_strict l Hl (eqb_nonzero _ _ Ht ltac:(done))).
    pose proof (mv_position _ _ (read_indent_moves n s (k + 1) _ (mv_char _ _ (readChar_moves l Hl)))). lia.
  - destruct (IH (s + 1) k (readChar l)) as (H1 & H2 & _); [lia..|].
    split_and!; [lia|lia|]. right. intros Hl.
    pose proof (readChar_strict l Hl (eqb_nonzero _ _ Hp ltac:(done))).
    pose proof (mv_position _ _ (read_indent_moves n (s + 1) k _ (mv_char _ _ (readChar_moves l Hl)))). lia.
Qed.

Lemma stack_head_bound l : lexer_ok l → 0 ≤ default 0 (head (indentStack l)) ∧
  Forall (λ x, x ≤ default 0 (head (indentStack l))) (indentStack l).
Proof.
  intros [_ Hs Ho _]. destruct (indentStack l) as [|top rest]; [done|].
  inversion Ho as [|? ? Ho' Hall]; subst. cbn [head default]. split.
  - destruct rest as [|y rest]; [injection Hs as ->; cbn; lia|]. cbn.
    assert (Hin : 0 ∈ y :: rest) by by apply last_Some_elem_of.
    rewrite Forall_forall in Hall. specialize (Hall _ Hin). lia.
  - constructor; [cbn; lia|]. eapply Forall_impl; [done|]. intros. cbn in *. lia.
Qed.

(** Characters read before the line's tokens do not change what is to be shown. *)
Lemma stepped_moves l l1 start p : moves l l1 → lexer_ok l →
  (lexer_ok (set_indent l1 (indentStack l1) (pendingDedents l1) start) →
   stepped (set_indent l1 (indentStack l1) (pendingDedents l1) start) p) → stepped l p.
Proof.
  intros [Hc Hi Hs Hp Hle] [_ Ls Lo Lp] H.
  destruct H as (Hok & Hi' & Htodo & Hblocks).
  { split; cbn; [done|by rewrite Hs|by rewrite Hs|by rewrite Hp]. }
  revert Hi' Htodo Hblocks. unfold stepped, todo, blocks.
  cbn [set_indent input indentStack pendingDedents position]. rewrite Hi, Hs, Hp.
  intros Hi' Htodo Hblocks. split_and!; [done|done| |done].
  destruct (bool_decide _); lia.
Qed.

Lemma popped_step l l1 level k stack pending start tk : lexer_ok l → moves l l1 →
  pendingDedents l = 0 → 0 ≤ level < default 0 (head (indentStack l)) →
  pop_levels (indentStack l) level 0 = (stack, k) →
  (pending = k - 1 ∧ Type_ tk = DEDENT ∨ pending = 0 ∧ Type_ tk = ILLEGAL) →
  stepped l (set_indent l1 stack pending start, tk).
Proof.
  intros Hok [Hc Hi _ _ Hle] Hp0 Hlev E Htk.
  destruct (pop_levels_spec (indentStack l) level 0 (lo_stack l Hok)) as (H1 & [pre H2] & H3 & _ & H4); [lia|].
  rewrite E in H1, H2, H3, H4. cbn [fst snd] in *. specialize (H4 ltac:(lia)).
  unfold stepped, todo, blocks.
  cbn [set_indent input indentStack pendingDedents position fst snd].
  assert (Ho : StronglySorted Z.gt stack).
  { pose proof (lo_sorted l Hok) as Ho. rewrite H2 in Ho. by apply StronglySorted_app in Ho as (_ & _ & ?). }
  destruct Htk as [[-> Ht]|[-> Ht]]; rewrite Ht; cbn [block_change];
    (split_and!; [split; [done|done|done|cbn; lia]|done| |]);
    rewrite ?bool_decide_false by done; rewrite ?Hi; [lia|left; lia|lia|right; split; [done|lia]].
Qed.

Lemma indentation_step l : lexer_ok l → pendingDedents l = 0 →
  match handleIndentation l with
  | (l', Some tk) => stepped l (l', tk)
  | (l', None) => stepped l (scan IsLetter l')
  end.
Proof.
  intros Hok Hp0. unfold handleIndentation.
  pose proof (read_indent_moves (S (length (input l))) 0 0 l (lo_char l Hok)) as Hm.
  destruct (read_indent_counts (S (length (input l))) 0 0 l) as (Hs & Ht & Hcount); [lia..|].
  destruct (read_indent _ _ _ l) as [[l1 spaces] tabs]. cbn [fst snd] in *.
  assert (Hmoved : 0 < spaces ∨ 0 < tabs → passes l l1).
  { intros H. split; [done|]. destruct Hcount as [[-> ->]|Hcount]; [lia|]. apply Hcount, Hok. }
  destruct ((0 <? tabs) && (0 <? spaces)) eqn:Hmix.
  { apply passes_stepped; [done| |done]. apply Hmoved. lia. }
  set (level := if 0 <? tabs then tabs else spaces / 4).
  assert (0 ≤ level ∧ (0 < level → passes l l1)) as [Hlev0 Hlevel].
  { unfold level. destruct (Z.ltb_spec 0 tabs); split; [lia|intros; apply Hmoved; lia|apply Z.div_pos; lia|].
    intros Hpos. apply Hmoved. left. destruct (decide (0 < spaces)); [done|].
    rewrite Z.div_small in Hpos; lia. }
  clearbody level.
  assert (Hplainline : stepped l (scan IsLetter
    (set_indent l1 (indentStack l1) (pendingDedents l1) false))).
  { apply (stepped_moves l l1 false); [done..|]. intros Hok'. apply scan_stepped; [done|].
    cbn. by rewrite (mv_pending _ _ Hm). }
  destruct ((ch l1 =? cNL) || (ch l1 =? 0) || (ch l1 =? cHASH)).
  { destruct (ch l1 =? cNL) eqn:Hnl; [|done]. apply passes_stepped; [done| |done].
    eapply moves_passes; [done|]. apply readChar_passes; [apply Hm|]. by eapply eqb_nonzero. }
  rewrite (mv_stack _ _ Hm) in *. destruct (stack_head_bound l Hok) as [Hcur Hall].
  destruct (Z.ltb_spec (default 0 (head (indentStack l))) level).
  { destruct Hlevel as [[Hc Hi Hst Hpd Hle] Hlt]; [lia|].
    unfold stepped, todo, blocks. cbn [set_indent input indentStack pendingDedents position fst snd Type_].
    rewrite bool_decide_false, Hi, Hpd by done. rewrite len_cons. cbn [block_change].
    split_and!; [|done|lia|left; lia].
    split; cbn [set_indent indentStack pendingDedents];
      [done|by rewrite last_cons, (lo_stack l Hok)|constructor; [apply Hok|]|lia].
    eapply Forall_impl; [done|]. cbn. intros. lia. }
  destruct (Z.ltb_spec level (default 0 (head (indentStack l)))); [|done].
  destruct (pop_levels (indentStack l) level 0) as [stack k] eqn:E.
  assert (0 ≤ level < default 0 (head (indentStack l))) by lia.
  destruct (negb _).
  { eapply popped_step; [done..|]. right. rewrite (mv_pending _ _ Hm). done. }
  destruct (Z.ltb_spec 0 k).
  { eapply popped_step; [done..|]. by left. }
  destruct (pop_levels_spec (indentStack l) level 0 (lo_stack l Hok)) as (_ & _ & _ & _ & H4); [lia|].
  rewrite E in H4. cbn in H4. lia.
Qed.

Lemma NextToken_step l : lexer_ok l → stepped l (NextToken IsLetter l).
Proof.
  intros Hok. unfold NextToken. pose proof (lo_pending l Hok).
  destruct (Z.ltb_spec 0 (pendingDedents l)).
  { unfold stepped, todo, blocks. cbn [set_indent input indentStack pendingDedents position fst snd Type_].
    rewrite bool_decide_false by done. cbn [block_change].
    split_and!; [split; cbn; [apply Hok..|lia]|done|lia|left; lia]. }
  destruct (atLineStart l); [|apply scan_stepped; [done|lia]].
  pose proof (indentation_step l Hok) as Hi.
  destruct (handleIndentation l) as [l' [tk|]]; apply Hi; lia.
Qed.

Lemma New_fields src : position (New src) = 0%nat ∧ indentStack (New src) = [0] ∧
  pendingDedents (New src) = 0.
Proof.
  unfold New, readChar. set (l := mkLexer _ _ _ _ _ _ _ _ _ _).
  destruct (if (_ <=? _)%nat then _ else _) as [c rpos].
  by destruct (c =? cNL), (negb (c =? cTAB) || negb (atLineStart l)).
Qed.

Lemma New_ok src : lexer_ok (New src).
Proof.
  destruct (New_at src) as [Hc _]. destruct (New_fields src) as (_ & Hs & Hp).
  split; rewrite ?Hs, ?Hp; [done|done|by repeat constructor|done].
Qed.

Lemma New_start src : blocks (New src) = 0 ∧ todo (New src) = 2 * len src + 1.
Proof.
  destruct (New_at src) as [_ Hi]. destruct (New_fields src) as (Hpos & Hs & Hp).
  unfold blocks, todo. rewrite Hi, Hpos, Hs, Hp. unfold len. cbn [length]. lia.
Qed.

(** ** Totality and balance *)

Lemma tokens_total_from n l : lexer_ok l → todo l < Z.of_nat n →
  ∃ ts, tokens IsLetter n l = Some ts ∧ (length ts ≤ n)%nat ∧
    Type_ <$> last ts = Some EOF ∧ EOF ∉ Type_ <$> removelast ts.
Proof.
  revert l. induction n as [|n IH]; intros l Hok Hn.
  { pose proof (ok_stack_pos l Hok). pose proof (lo_pending l Hok).
    pose proof (at_char_bound l (lo_char l Hok)). unfold todo, len in *. lia. }
  cbn [tokens]. destruct (NextToken_step l Hok) as (Hok' & Hi & Htodo & _).
  destruct (NextToken IsLetter l) as [l' tk]. cbn [fst snd] in *.
  destruct (decide (Type_ tk = EOF)) as [HE|HE].
  - rewrite bool_decide_true by done. exists [tk]. cbn. rewrite HE.
    split_and!; [done|lia|done|apply not_elem_of_nil].
  - rewrite bool_decide_false in * by done.
    destruct (IH l') as (ts & -> & Hlen & Hlast & Hno); [done|lia|].
    exists (tk :: ts). destruct ts as [|t ts]; [done|].
    split_and!; [done|cbn in *; lia|done|]. cbn [removelast fmap list_fmap].
    apply not_elem_of_cons. by split.
Qed.

(** The blocks a list of tokens opens and does not close. *)
Definition open_blocks (ts : list Token) : Z :=
  foldr (λ tk n, block_change (Type_ tk) + n) 0 ts.

Lemma tokens_balanced_from n l ts : lexer_ok l → tokens IsLetter n l = Some ts →
  (∀ k, 0 ≤ blocks l + open_blocks (take k ts)) ∧
  (ILLEGAL ∉ Type_ <$> ts → blocks l + open_blocks ts = 0).
Proof.
  revert l ts. induction n as [|n IH]; intros l ts Hok; [done|]. cbn [tokens].
  destruct (NextToken_step l Hok) as (Hok' & _ & Htodo & Hblocks).
  destruct (NextToken IsLetter l) as [l' tk]. cbn [fst snd] in *.
  assert (Hpos : ∀ l, lexer_ok l → 0 ≤ blocks l).
  { intros k Hk. pose proof (ok_stack_pos k Hk). pose proof (lo_pending k Hk). unfold blocks. lia. }
  pose proof (Hpos l Hok). pose proof (Hpos l' Hok').
  assert (Hstep : blocks l' ≤ blocks l + block_change (Type_ tk)).
  { destruct Hblocks as [|[-> ?]]; cbn; lia. }
  destruct (decide (Type_ tk = EOF)) as [HE|HE].
  - rewrite bool_decide_true in * by done. intros [= <-]. rewrite HE in *. cbn in Hblocks.
    split; [intros []; cbn; rewrite ?HE, ?take_nil; cbn; lia|]. cbn. rewrite HE. cbn.
    destruct Hblocks as [|[? ?]]; [lia|done].
  - rewrite bool_decide_false in * by done. destruct (tokens IsLetter n l') as [ts'|] eqn:E; [|done].
    intros [= <-]. destruct (IH l' ts') as [Hpre Hall]; [done..|]. split.
    + intros [|k]; cbn; [lia|]. specialize (Hpre k). unfold open_blocks in Hpre. lia.
    + cbn. intros [HI Hno]%not_elem_of_cons. specialize (Hall Hno). unfold open_blocks in Hall.
      destruct Hblocks as [|[? ?]]; [lia|congruence].
Qed.
End next.

(** ** Lemmas: reading up to an ASCII byte *)

Lemma at_char_remaining l x u : at_char l → remaining l = x :: u →
  ch l = (DecodeRune (x :: u)).1 ∧ readPosition l = (position l + (DecodeRune (x :: u)).2)%nat.
Proof.
  unfold remaining, at_char. intros Hl E.
  destruct (Nat.ltb_spec (position l) (length (input l))) as [|Hge]; [by rewrite E in Hl|].
  by rewrite drop_ge in E.
Qed.

Lemma ascii_current l x u : at_char l → remaining l = x :: u → byte.unsigned x < 0x80 →
  ch l = byte.unsigned x ∧ readPosition l = S (position l).
Proof.
  intros Hl E Hx. destruct (at_char_remaining l x u Hl E) as [-> ->].
  rewrite DecodeRune_ascii by done. cbn. lia.
Qed.

Lemma readChar_remaining l : at_char l →
  remaining (readChar l) = drop (readPosition l - position l) (remaining l).
Proof.
  intros Hl. unfold remaining. rewrite readChar_position, (mv_input _ _ (readChar_moves l Hl)), drop_drop.
  f_equal. pose proof (readPosition_spec l Hl). lia.
Qed.

Lemma readChar_within l t x u : at_char l → remaining l = t ++ x :: u → t ≠ [] →
  byte.unsigned x < 0x80 →
  ∃ t1 t2, t = t1 ++ t2 ∧ t1 ≠ [] ∧ remaining (readChar l) = t2 ++ x :: u ∧
    position (readChar l) = (position l + length t1)%nat.
Proof.
  intros Hl E Ht Hx. pose proof (DecodeRune_boundary t x u Ht Hx) as Hb.
  pose proof (DecodeRune_size (t ++ x :: u)) as Hs.
  destruct t as [|y t]; [done|]. cbn [app] in *.
  destruct (at_char_remaining l _ _ Hl E) as [_ Hr]. set (n := (DecodeRune _).2) in *.
  exists (take n (y :: t)), (drop n (y :: t)).
  assert (1 ≤ n)%nat by (apply Hs; done).
  split_and!.
  - by rewrite take_drop.
  - by destruct n; [lia|].
  - rewrite readChar_remaining, E, Hr by done. replace (position l + n - position l)%nat with n by lia.
    rewrite (app_comm_cons t (x :: u) y), drop_app_le by done. done.
  - rewrite readChar_position, Hr, length_take. cbn in *. lia.
Qed.

(** [p] holds of the runes of [t]: of its ASCII bytes and of all other runes. *)
Definition holds_over (p : Z → bool) (t : list byte) : Prop :=
  Forall (λ y, p (byte.unsigned y) = true) t ∧ ∀ c, 0x80 ≤ c → p c = true.

Lemma holds_current p l t x u : at_char l → remaining l = t ++ x :: u → t ≠ [] →
  holds_over p t → p (ch l) = true.
Proof.
  intros Hl E Ht [Hall Hbig]. destruct t as [|y t]; [done|]. cbn [app] in E.
  destruct (at_char_remaining l _ _ Hl E) as [-> _].
  destruct (Z.lt_ge_cases (DecodeRune (y :: t ++ x :: u)).1 0x80) as [Hlt|Hge]; [|by apply Hbig].
  rewrite DecodeRune_ascii by by eapply DecodeRune_lt. by inversion Hall.
Qed.

Lemma read_loop_over n p l t x u : at_char l → remaining l = t ++ x :: u →
  byte.unsigned x < 0x80 → p (byte.unsigned x) = false → holds_over p t → (length t < n)%nat →
  remaining (read_loop n p l) = x :: u ∧ ch (read_loop n p l) = byte.unsigned x ∧
  position (read_loop n p l) = (position l + length t)%nat.
Proof.
  intros Hl E Hx Hp Hall Hn. revert l t Hl E Hall Hn.
  induction n as [|n IH]; intros l t Hl E Hall Hn; [lia|]. cbn [read_loop].
  destruct (decide (t = [])) as [->|Ht].
  - destruct (ascii_current l x u Hl E Hx) as [Hc _]. rewrite Hc, Hp. cbn. split_and!; [done..|lia].
  - rewrite (holds_current p l t x u) by done.
    destruct (readChar_within l t x u Hl E Ht Hx) as (t1 & t2 & -> & Ht1 & Hr & Hpos).
    rewrite length_app in *. destruct t1 as [|y t1]; [done|]. cbn [length] in *.
    destruct (IH (readChar l) t2) as (H1 & H2 & H3).
    + by apply (readChar_moves l).
    + done.
    + destruct Hall as [Hall Hbig]. split; [|done]. by apply Forall_app in Hall as [_ ?].
    + lia.
    + split_and!; [done..|lia].
Qed.

Lemma read_to_over n target l t x u : at_char l → remaining l = t ++ x :: u →
  byte.unsigned x < 0x80 → target = S (position l + length t) → (length t + 1 < n)%nat →
  position (read_to n target l) = target.
Proof.
  intros Hl E Hx. revert l t Hl E.
  induction n as [|n IH]; intros l t Hl E Htarget Hn; [lia|]. cbn [read_to].
  rewrite (proj2 (Nat.ltb_lt _ _)) by lia.
  destruct (decide (t = [])) as [->|Ht].
  - destruct (ascii_current l x u Hl E Hx) as [_ Hr].
    assert (Hpos : position (readChar l) = target) by (rewrite readChar_position; cbn in *; lia).
    destruct n; [cbn in *; lia|]. cbn [read_to]. by rewrite (proj2 (Nat.ltb_ge _ _)) by lia.
  - destruct (readChar_within l t x u Hl E Ht Hx) as (t1 & t2 & -> & Ht1 & Hr & Hpos).
    rewrite length_app in *. destruct t1 as [|y t1]; [done|]. cbn [length] in *.
    apply (IH _ t2); [by apply (readChar_moves l)|done|lia|lia].
Qed.

Lemma slice_remaining l l' n : at_char l → input l' = input l → position l' = (position l + n)%nat →
  slice l' (position l) (position l') = take n (remaining l).
Proof.
  intros _ Hi Hpos. unfold slice, remaining. rewrite Hi, Hpos. f_equal. lia.
Qed.

(** ** Lemmas: quotes and sigils *)

Definition quotes (k : nat) : list byte := replicate k Byte.x22.

Lemma quote_run_le s : (quote_run s ≤ length s)%nat.
Proof. induction s as [|y s IH]; cbn [quote_run length]; [lia|]. case_bool_decide; lia. Qed.
Lemma quote_run_quotes k s : quote_run (quotes k ++ s) = (k + quote_run s)%nat.
Proof. induction k as [|k IH]; [done|]. unfold quotes in *. cbn. by rewrite IH. Qed.
Lemma quote_run_other x s : x ≠ Byte.x22 → quote_run (x :: s) = 0%nat.
Proof. intros. cbn. by rewrite bool_decide_false. Qed.
Lemma quote_run_split s : s = quotes (quote_run s) ++ drop (quote_run s) s.
Proof.
  unfold quotes. induction s as [|y s IH]; [done|]. cbn. case_bool_decide as Hy; [|done].
  cbn. by rewrite Hy, <- IH.
Qed.
Lemma quote_run_app s u : (quote_run s < length s)%nat → quote_run (s ++ u) = quote_run s.
Proof.
  induction s as [|y s IH]; cbn [quote_run app length]; [lia|]. case_bool_decide; [|done].
  intros. rewrite IH; lia.
Qed.

Lemma sigil_close_app k sigil rest : (1 ≤ k)%nat → sigil ≠ Byte.x22 → ∀ n m s,
  sigil_close m s k sigil = None → (length s < m)%nat → (length s < n)%nat →
  sigil_close n (s ++ quotes k ++ sigil :: rest) k sigil = Some (length s + k + 1)%nat.
Proof.
  intros Hk Hsg. induction n as [|n IH]; intros m s Hnone Hm Hn; [lia|].
  assert (Hend : ∀ j, sigil_close (S n) (quotes (j + k) ++ sigil :: rest) k sigil = Some (S (j + k))).
  { intros j. set (u := quotes (j + k) ++ sigil :: rest).
    assert (Hrun : quote_run u = (j + k)%nat) by (unfold u; rewrite quote_run_quotes, quote_run_other by done; lia).
    assert (Hat : u !! (j + k)%nat = Some sigil).
    { unfold u, quotes. rewrite lookup_app_r by (rewrite length_replicate; lia).
      by rewrite length_replicate, Nat.sub_diag. }
    assert (Hne : ∃ v, u = Byte.x22 :: v) by (unfold u; destruct (j + k)%nat eqn:?; [lia|by eexists]).
    destruct Hne as [v Hv]. cbn [sigil_close]. rewrite Hv at 1. rewrite Hrun, Hat.
    rewrite bool_decide_true by done. rewrite (proj2 (Nat.leb_le k (j + k))) by lia.
    rewrite bool_decide_true by done. done. }
  destruct s as [|x s].
  { etrans; [apply (Hend 0%nat)|]. cbn. f_equal. lia. }
  destruct m as [|m]; [cbn in Hm; lia|].
  destruct (decide (x = Byte.x22)) as [->|Hx].
  - pose proof (quote_run_le (Byte.x22 :: s)) as Hle.
    destruct (decide (quote_run (Byte.x22 :: s) = length (Byte.x22 :: s))) as [Hall|Hlt].
    + set (w := Byte.x22 :: s) in *.
      assert (Hq : w = quotes (length w)).
      { pose proof (quote_run_split w) as Hsplit. rewrite drop_ge, app_nil_r in Hsplit by lia. congruence. }
      replace (w ++ quotes k ++ sigil :: rest) with (quotes (length w + k) ++ sigil :: rest).
      { rewrite Hend. f_equal. lia. }
      unfold quotes in *. by rewrite replicate_add, <- (assoc_L (++)), <- Hq.
    + pose proof (quote_run_app (Byte.x22 :: s) (quotes k ++ sigil :: rest)) as Happ.
      cbn [sigil_close] in Hnone |- *. cbn [app] in Happ |- *.
      rewrite Happ by lia. clear Happ. rewrite bool_decide_true in Hnone |- * by done.
      cbn [negb] in Hnone |- *. set (r := quote_run (Byte.x22 :: s)) in *.
      assert (Hr1 : (1 ≤ r)%nat) by (unfold r; cbn; rewrite ?bool_decide_true by done; lia).
      rewrite app_comm_cons, lookup_app_l by lia.
      destruct (_ && _); [done|].
      destruct (sigil_close m (drop r (Byte.x22 :: s)) k sigil) eqn:E; [done|].
      rewrite drop_app_le by lia.
      rewrite (IH _ _ E) by (rewrite length_drop; cbn [length] in *; lia).
      cbn [fmap option_fmap option_map]. rewrite length_drop. f_equal. cbn [length] in *. lia.
  - cbn [sigil_close app] in Hnone |- *. rewrite bool_decide_false in Hnone |- * by done.
    cbn [negb] in Hnone |- *. destruct (sigil_close m s k sigil) eqn:E; [done|].
    rewrite (IH _ _ E) by (cbn in *; lia). done.
Qed.

(** ** Text literals written and read *)

(** The ways to write a text: between quotes, or between a sigil and [k] quotes. *)
Inductive quoting := Plain | Sigil (tilde : bool) (k : nat).

Definition sigil_byte (tilde : bool) : byte := if tilde then Byte.x7e else Byte.x5f.

Definition quote_text (q : quoting) (s : list byte) : list byte :=
  match q with
  | Plain => Byte.x22 :: s ++ [Byte.x22]
  | Sigil tilde k => sigil_byte tilde :: quotes k ++ s ++ quotes k ++ [sigil_byte tilde]
  end.

Definition quoted_type (q : quoting) : TokenType :=
  match q with Sigil true _ => INTERP_TEXT | _ => TEXT end.

(** The texts each way can write. *)
Definition can_quote (q : quoting) (s : list byte) : bool :=
  match q with
  | Plain => forallb (λ x, negb (bool_decide (x = Byte.x22)) && negb (bool_decide (x = Byte.x00))) s
  | Sigil tilde k =>
      (1 <=? k)%nat && (k <=? MaxConsecutiveQuotes)%nat &&
      negb (bool_decide (s = [])) && negb (bool_decide (head s = Some Byte.x22)) &&
      bool_decide (sigil_close (S (length s)) s k (sigil_byte tilde) = None)
  end.

Lemma skipWhitespace_none l : ch l ≠ cSP → ch l ≠ cCR → skipWhitespace l = l.
Proof.
  intros H1 H2. unfold skipWhitespace, read_while. cbn [read_loop].
  by rewrite (proj2 (Z.eqb_neq _ _) H1), (proj2 (Z.eqb_neq _ _) H2).
Qed.

Lemma remaining_lt l x u : remaining l = x :: u → (position l + S (length u) = length (input l))%nat.
Proof.
  unfold remaining. intros E. apply (f_equal length) in E. rewrite length_drop in E. cbn in E. lia.
Qed.

Lemma text_holds_over s : can_quote Plain s = true →
  holds_over (λ c, negb (c =? 0) && negb (c =? cQUOTE)) s.
Proof.
  unfold can_quote. rewrite forallb_forall. intros H. split.
  - apply Forall_forall. intros x Hx%list_elem_of_In. specialize (H x Hx).
    destruct x; (reflexivity || (by vm_compute in H)).
  - intros c Hc. unfold cQUOTE. lia.
Qed.

Lemma readString_reads l s rest : at_char l → remaining l = quote_text Plain s ++ rest →
  can_quote Plain s = true →
  ∃ l', readString l = (l', quote_text Plain s, true) ∧
    position l' = (position l + length (quote_text Plain s))%nat.
Proof.
  intros Hl E Hs. cbn [quote_text app] in E. rewrite <- (assoc_L (++)) in E. cbn [app] in E.
  destruct (ascii_current l _ _ Hl E eq_refl) as [Hc Hr].
  pose proof (readChar_moves l Hl) as Hm1. pose proof (readChar_remaining l Hl) as E1.
  rewrite E, Hr, Nat.sub_succ_l, Nat.sub_diag in E1 by lia. cbn [drop] in E1.
  pose proof (remaining_lt _ _ _ E) as Hlen.
  destruct (read_loop_over (S (length (input (readChar l)))) (λ c, negb (c =? 0) && negb (c =? cQUOTE))
    (readChar l) s Byte.x22 rest (mv_char _ _ Hm1) E1 eq_refl eq_refl (text_holds_over s Hs))
    as (E2 & Hc2 & Hp2).
  { rewrite (mv_input _ _ Hm1). rewrite length_app in Hlen. cbn in Hlen. lia. }
  unfold readString, read_while. set (l2 := read_loop _ _ _) in *. rewrite Hc2.
  change (byte.unsigned Byte.x22 =? 0) with false. cbv iota.
  assert (Hm2 : moves (readChar l) l2) by apply read_loop_moves, Hm1.
  pose proof (readChar_moves l2 (mv_char _ _ Hm2)) as Hm3.
  destruct (ascii_current l2 _ _ (mv_char _ _ Hm2) E2 eq_refl) as [_ Hr2].
  assert (Hpos : position (readChar l2) = (position l + length (quote_text Plain s))%nat).
  { rewrite readChar_position, Hr2, Hp2, readChar_position, Hr. cbn. rewrite length_app. cbn. lia. }
  exists (readChar l2). split; [|done].
  rewrite (slice_remaining l (readChar l2) (length (quote_text Plain s))); [|done| |done].
  - f_equal. f_equal. rewrite E. change (Byte.x22 :: s ++ Byte.x22 :: rest)
      with (Byte.x22 :: s ++ [Byte.x22] ++ rest). rewrite (assoc_L (++)), app_comm_cons.
    apply take_app_len.
  - by rewrite (mv_input _ _ Hm3), (mv_input _ _ Hm2), (mv_input _ _ Hm1).
Qed.

Lemma find_close_reads l k tilde s rest :
  remaining l = quote_text (Sigil tilde k) s ++ rest → can_quote (Sigil tilde k) s = true →
  find_close l (S (position l)) k (sigil_byte tilde) =
    Some (position l + length (quote_text (Sigil tilde k) s))%nat.
Proof.
  intros E Hs. unfold can_quote in Hs. rewrite !andb_true_iff in Hs.
  destruct Hs as [[[[Hk1%Nat.leb_le Hk2%Nat.leb_le] Hne] Hh] Hnone%bool_decide_eq_true].
  destruct k as [|k]; [lia|]. cbn [find_close]. unfold findSigilClose.
  unfold remaining in E.
  assert (Hd : drop (S (position l) + S k) (input l) =
    s ++ quotes (S k) ++ sigil_byte tilde :: rest).
  { replace (S (position l) + S k)%nat with (position l + S (S k))%nat by lia.
    rewrite <- drop_drop, E. cbn [quote_text app]. rewrite <- !(assoc_L (++)).
    change (drop (S (S k)) (sigil_byte tilde :: ?u)) with (drop (S k) u).
    by rewrite drop_app_length' by (symmetry; apply length_replicate). }
  rewrite Hd, (sigil_close_app (S k) (sigil_byte tilde) rest ltac:(lia) ltac:(by destruct tilde)
    _ _ s Hnone); [|lia|].
  - cbn [fmap option_fmap option_map]. f_equal. cbn [quote_text length].
    rewrite !length_app. unfold quotes. rewrite !length_replicate. cbn [length]. lia.
  - apply (f_equal length) in Hd. rewrite length_drop, length_app in Hd. lia.
Qed.

Lemma readSigilString_reads l k tilde s rest : at_char l →
  remaining l = quote_text (Sigil tilde k) s ++ rest → can_quote (Sigil tilde k) s = true →
  ∃ l', readSigilString (sigil_byte tilde) l = (l', quote_text (Sigil tilde k) s, true) ∧
    position l' = (position l + length (quote_text (Sigil tilde k) s))%nat.
Proof.
  intros Hl E Hs. pose proof (find_close_reads l k tilde s rest E Hs) as Hclose.
  unfold can_quote in Hs. rewrite !andb_true_iff, !negb_true_iff, !bool_decide_eq_false in Hs.
  destruct Hs as [[[[Hk1%Nat.leb_le Hk2%Nat.leb_le] Hne] Hh] _].
  unfold readSigilString.
  assert (Hrun : quote_run (drop (position l + 1) (input l)) = k).
  { rewrite <- drop_drop. unfold remaining in E. rewrite E. cbn [quote_text app drop].
    rewrite <- !(assoc_L (++)), drop_0, quote_run_quotes. destruct s as [|x s]; [done|].
    cbn [app]. rewrite quote_run_other; [lia|]. intros ->. by apply Hh. }
  rewrite Hrun, Nat.min_l by done. replace (position l + 1)%nat with (S (position l)) by lia.
  rewrite Hclose. cbv iota. set (target := (position l + _)%nat).
  set (body := sigil_byte tilde :: quotes k ++ s ++ quotes k).
  assert (E' : remaining l = body ++ sigil_byte tilde :: rest).
  { rewrite E. unfold body. cbn [quote_text app]. by rewrite <- !(assoc_L (++)). }
  assert (Hlit : quote_text (Sigil tilde k) s = body ++ [sigil_byte tilde]).
  { unfold body. cbn [quote_text app]. by rewrite <- !(assoc_L (++)). }
  assert (Hpos : position (read_to (S (length (input l))) target l) = target).
  { apply (read_to_over _ _ l body (sigil_byte tilde) rest); [done|done|by destruct tilde| |].
    - unfold target. rewrite Hlit, length_app. cbn [length]. lia.
    - unfold remaining in E'. apply (f_equal length) in E'.
      rewrite length_drop, length_app in E'. cbn [length] in E'. lia. }
  exists (read_to (S (length (input l))) target l). split; [|done].
  rewrite (slice_remaining l _ (length (quote_text (Sigil tilde k) s))); [|done| |done].
  - f_equal. f_equal. rewrite E. apply take_app_len.
  - apply (mv_input _ _ (read_to_moves _ _ l Hl)).
Qed.

Lemma unquote_quoted q s : can_quote q s = true → UnquoteText (quote_text q s) = (s, true).
Proof.
  intros Hs. destruct q as [|tilde k]; cbn [quote_text]; unfold UnquoteText.
  - rewrite app_comm_cons, last_snoc, length_app. cbn [length head app default].
    rewrite (bool_decide_false (Byte.x22 = Byte.x5f)), (bool_decide_false (Byte.x22 = Byte.x7e)) by done.
    rewrite andb_false_r. cbn [andb]. rewrite bool_decide_true by done.
    rewrite (proj2 (Nat.leb_le _ _)) by lia. cbn [andb].
    replace (S (length s) + 1 - 2)%nat with (length s) by lia.
    change (drop 1 (Byte.x22 :: s ++ [Byte.x22])) with (s ++ [Byte.x22]). by rewrite take_app_len.
  - unfold can_quote in Hs. rewrite !andb_true_iff, !negb_true_iff, !bool_decide_eq_false in Hs.
    destruct Hs as [[[[Hk1%Nat.leb_le Hk2%Nat.leb_le] Hne] Hh] _].
    set (g := sigil_byte tilde). set (lit := g :: quotes k ++ s ++ quotes k ++ [g]).
    assert (Hlit : lit = (g :: quotes k ++ s ++ quotes k) ++ [g]).
    { unfold lit. cbn [app]. by rewrite <- !(assoc_L (++)). }
    assert (Hlen : length lit = (2 * k + length s + 2)%nat).
    { unfold lit. cbn [length]. rewrite !length_app. unfold quotes. rewrite !length_replicate. cbn. lia. }
    assert (Hlast : last lit = Some g) by (by rewrite Hlit, last_snoc).
    assert (Hs1 : (1 ≤ length s)%nat) by (destruct s; [done|cbn; lia]).
    rewrite Hlast, Hlen. cbn [default]. change (default Byte.x00 (head lit)) with g.
    rewrite (proj2 (Nat.leb_le _ _)) by lia.
    assert (Hg : bool_decide (g = Byte.x5f) || bool_decide (g = Byte.x7e) = true) by by destruct tilde.
    rewrite Hg, bool_decide_true by done. cbn [andb].
    assert (Hmid : take (2 * k + length s + 2 - 2) (drop 1 lit) = quotes k ++ s ++ quotes k).
    { rewrite Hlit. change (drop 1 ((g :: ?u) ++ [g])) with (u ++ [g]). rewrite take_app_le.
      - apply take_ge. unfold quotes. rewrite !length_app, !length_replicate. lia.
      - unfold quotes. rewrite !length_app, !length_replicate. lia. }
    rewrite Hmid, quote_run_quotes. destruct s as [|x s]; [done|].
    cbn [app]. rewrite quote_run_other by (intros ->; by apply Hh).
    rewrite Nat.add_0_r, Nat.min_l by done. destruct k as [|k]; [lia|]. cbn [unquote_run].
    rewrite Hlen, (proj2 (Nat.ltb_ge _ _)) by lia. set (t := x :: s) in *.
    assert (Hend : drop (2 * S k + length t + 2 - 1 - S k) lit = quotes (S k) ++ [g]).
    { replace (2 * S k + length t + 2 - 1 - S k)%nat with (length (g :: quotes (S k) ++ t)).
      - unfold lit. rewrite (assoc_L (++) (quotes (S k)) t), app_comm_cons. apply drop_app_len.
      - cbn [length]. unfold quotes. rewrite length_app, length_replicate. lia. }
    assert (Hq : take (S k) (quotes (S k) ++ [g]) = quotes (S k)).
    { rewrite take_app_length'; [done|]. unfold quotes. by rewrite length_replicate. }
    rewrite Hend, Hq, bool_decide_true by done.
    f_equal. replace (2 * S k + length t + 2 - 2 - 2 * S k)%nat with (length t) by lia.
    unfold lit. change (drop (1 + S k) (g :: ?u)) with (drop (S k) u).
    rewrite drop_app_length' by (unfold quotes; by rewrite length_replicate). apply take_app_len.
Qed.

(** The first character of a literal written is the quote or the sigil, and is
    none of the characters that skip or start a line. *)
Lemma scan_text IsLetter l q s rest : at_char l → can_quote q s = true →
  remaining l = quote_text q s ++ rest →
  ∃ l', scan IsLetter l = (l', mkToken (quoted_type q) (quote_text q s) (line l) (column l) (position l)) ∧
    position l' = (position l + length (quote_text q s))%nat.
Proof.
  intros Hl Hs E. destruct q as [|tilde k].
  - destruct (ascii_current l Byte.x22 (s ++ [Byte.x22] ++ rest) Hl) as [Hc _]; [|done|].
    { rewrite E. cbn [quote_text app]. by rewrite <- (assoc_L (++)). }
    destruct (readString_reads l s rest Hl E Hs) as (l' & Hr & Hp).
    unfold scan. rewrite skipWhitespace_none by by rewrite Hc.
    rewrite Hr, Hc. cbv beta iota zeta. exists (set_previous l' TEXT). split; [reflexivity|done].
  - assert (Hk : ∃ j, k = S j).
    { unfold can_quote in Hs. destruct k; [done|by eexists]. }
    destruct Hk as [j ->]. set (g := sigil_byte tilde).
    assert (E' : remaining l = g :: Byte.x22 :: quotes j ++ s ++ quotes (S j) ++ [g] ++ rest).
    { rewrite E. cbn [quote_text app]. by rewrite <- !(assoc_L (++)). }
    assert (Hg : byte.unsigned g < 0x80) by by destruct tilde.
    destruct (ascii_current l _ _ Hl E' Hg) as [Hc Hr].
    assert (Hpeek : peekChar l = cQUOTE).
    { unfold peekChar. rewrite Hr. pose proof (remaining_lt _ _ _ E') as Hlen. cbn [length] in Hlen.
      rewrite (proj2 (Nat.leb_gt _ _)) by lia. replace (S (position l)) with (position l + 1)%nat by lia.
      rewrite <- drop_drop. unfold remaining in E'. rewrite E'. done. }
    destruct (readSigilString_reads l (S j) tilde s rest Hl E Hs) as (l' & Hread & Hp).
    assert (Hb : byte_of (ch l) = g) by (rewrite Hc; by destruct tilde).
    unfold scan. rewrite skipWhitespace_none; [|rewrite Hc; by destruct tilde..].
    rewrite Hpeek, Hb. fold g in Hread. rewrite Hread, Hc.
    exists (set_previous l' (quoted_type (Sigil tilde (S j)))). split; [by destruct tilde|done].
Qed.

(** ** Properties *)

(** C21: every source tokenizes: at most two tokens for each byte and two more reach
    EOF, and EOF is the last token and no other. *)
Theorem lexer_total (IsLetter : Z → bool) (src : list byte) :
  ∃ ts, tokens IsLetter (2 * length src + 2) (New src) = Some ts ∧
    (length ts ≤ 2 * length src + 2)%nat ∧
    Type_ <$> last ts = Some EOF ∧ EOF ∉ Type_ <$> removelast ts.
Proof.
  apply tokens_total_from; [apply New_ok|]. destruct (New_start src) as [_ ->]. unfold len. lia.
Qed.

(** C22: blocks nest: no prefix of the tokens of a source closes more blocks than it
    opened, and without an ILLEGAL token every block opened is closed at EOF. *)
Theorem indentation_balanced (IsLetter : Z → bool) (src : list byte) :
  ∃ ts, tokens IsLetter (2 * length src + 2) (New src) = Some ts ∧
    (∀ k, 0 ≤ open_blocks (take k ts)) ∧ (ILLEGAL ∉ Type_ <$> ts → open_blocks ts = 0).
Proof.
  destruct (New_start src) as [Hblocks Htodo].
  destruct (tokens_total_from IsLetter (2 * length src + 2) (New src) (New_ok src)) as (ts & E & _).
  { rewrite Htodo. unfold len. lia. }
  exists ts. split; [done|].
  pose proof (tokens_balanced_from IsLetter _ _ _ (New_ok src) E) as H. by rewrite Hblocks in H.
Qed.

(** C23: a text written in any of the literal forms that can write it is read as one
    token of the form's type, spanning the literal, whose unquoted text is the
    text. *)
Theorem text_literal_roundtrip (IsLetter : Z → bool) l q s rest :
  lexer_ok l → pendingDedents l = 0 → atLineStart l = false →
  remaining l = quote_text q s ++ rest → can_quote q s = true →
  ∃ l' tk, NextToken IsLetter l = (l', tk) ∧ Type_ tk = quoted_type q ∧
    remaining l' = rest ∧ UnquoteText (Literal tk) = (s, true).
Proof.
  intros Hok Hp0 Hst E Hs. unfold NextToken. rewrite Hp0, Hst. cbn [Z.ltb Z.compare].
  pose proof (scan_stepped IsLetter l Hok Hp0) as (_ & Hi & _).
  destruct (scan_text IsLetter l q s rest (lo_char l Hok) Hs E) as (l' & Es & Hpos).
  rewrite Es in Hi |- *. exists l', (mkToken (quoted_type q) (quote_text q s) (line l) (column l) (position l)).
  split_and!; [done|done| |by apply unquote_quoted].
  unfold remaining in *. cbn [fst] in Hi. rewrite Hi, Hpos, <- drop_drop, E. apply drop_app_len.
Qed.

(** The lexer after [x=], before a literal of a brace and quotes. *)
Definition after_assign (src : list byte) : Lexer :=
  let l := (NextToken latin1_letter (New src)).1 in (NextToken latin1_letter l).1.

Lemma after_assign_ok src : lexer_ok (after_assign src).
Proof.
  unfold after_assign. destruct (NextToken_step latin1_letter (New src) (New_ok src)) as (Hok & _).
  by destruct (NextToken_step latin1_letter _ Hok) as (Hok' & _).
Qed.

Lemma text_literal_roundtrip_witness :
  let s := b "say " ++ [Byte.x22] ++ b "hi_" in
  let l := after_assign (b "x=" ++ quote_text (Sigil false 2) s ++ b " & y") in
  ∃ l' tk, NextToken latin1_letter l = (l', tk) ∧ Type_ tk = quoted_type (Sigil false 2) ∧
    remaining l' = b " & y" ∧ UnquoteText (Literal tk) = (s, true).
Proof.
  intros s l.
  apply (text_literal_roundtrip latin1_letter l (Sigil false 2) s (b " & y"));
    [|vm_compute; reflexivity..].
  apply after_assign_ok.
Defined.

(** The empty extended literal is not safe: followed anywhere later by another
    one, the two and all between are read as one text, since the two quotes of
    an empty literal are taken as a longer opening run whenever that closes. *)
Theorem empty_extended_literal_swallows (IsLetter : Z → bool) l u rest :
  let empty := quote_text (Sigil false 1) [] in
  lexer_ok l → pendingDedents l = 0 → atLineStart l = false →
  remaining l = empty ++ u ++ empty ++ rest → can_quote (Sigil false 2) (b "_" ++ u ++ b "_") = true →
  ∃ l' tk, NextToken IsLetter l = (l', tk) ∧ Type_ tk = TEXT ∧ remaining l' = rest ∧
    UnquoteText (Literal tk) = (b "_" ++ u ++ b "_", true).
Proof.
  intros empty Hok Hp0 Hst E Hs. unfold NextToken. rewrite Hp0, Hst. cbn [Z.ltb Z.compare].
  assert (E' : remaining l = quote_text (Sigil false 2) (b "_" ++ u ++ b "_") ++ rest).
  { rewrite E. cbn. by rewrite <- !(assoc_L (++)). }
  pose proof (scan_stepped IsLetter l Hok Hp0) as (_ & Hi & _).
  destruct (scan_text IsLetter l _ _ rest (lo_char l Hok) Hs E') as (l' & Es & Hpos).
  rewrite Es in Hi |- *. eexists l', _. split_and!; [done|done| |by apply unquote_quoted].
  unfold remaining in *. cbn [fst] in Hi. rewrite Hi, Hpos, <- drop_drop, E'. apply drop_app_len.
Qed.

Lemma empty_extended_literal_swallows_witness :
  let empty := quote_text (Sigil false 1) [] in
  let l := after_assign (b "x=" ++ empty ++ b " & y & " ++ empty ++ b "z") in
  ∃ l' tk, NextToken latin1_letter l = (l', tk) ∧ Type_ tk = TEXT ∧ remaining l' = b "z" ∧
    UnquoteText (Literal tk) = (b "_" ++ b " & y & " ++ b "_", true).
Proof.
  intros empty l.
  apply (empty_extended_literal_swallows latin1_letter l (b " & y & ") (b "z"));
    [|vm_compute; reflexivity..].
  apply after_assign_ok.
Defined.

(** A text that spans lines ends at the start of a line for the lexer: the rest of
    its line is measured for indentation and closes the block it is in. *)
Example multiline_text_closes_block :
  let src := b "if a:" ++ [Byte.x0a; Byte.x09] ++ b "x = " ++
    [Byte.x22; Byte.x0a; Byte.x22] ++ b " & y" in
  (λ ts : list Token, Type_ <$> ts) <$> tokens latin1_letter (2 * length src + 2) (New src)
  = Some [IF_; IDENT; DEFINE; NEWLINE; INDENT; IDENT; ASSIGN; TEXT; DEDENT; CONCAT; IDENT; EOF].
Proof. by vm_compute. Qed.

(** Only tokens that reach the end of [NextToken] are remembered, and names are not:
    after a name the words [append] and [prepend] depend on the token before. *)
Example append_after_range :
  lex "a..b append c" = Some [IDENT; RANGE; IDENT; IDENT; IDENT; EOF] ∧
  lex "a.b append c" = Some [IDENT; DOT; IDENT; APPEND; IDENT; EOF].
Proof. by vm_compute. Qed.
