(* ===== verification/GoFloat.v ===== *)
(** * float64 as bits ([float64], [math])

    A [float64] is its 64-bit pattern.  Arithmetic goes through the Standard
    Library's [spec_float] with the precision and range of binary64; the bits
    of a NaN result, which the language leaves open, are those of [math.NaN]. *)
From Stdlib Require Import SpecFloat.
From S2P Require Import Prelude.

Definition prec : Z := 53.
Definition emax : Z := 1024.

(** [math.Float64frombits], [math.Float64bits]. *)
Definition float_of_bits (bits : Z) : spec_float :=
  let s := negb (bits / 2 ^ 63 mod 2 =? 0) in
  let e := bits / 2 ^ 52 mod 2 ^ 11 in
  let m := bits mod 2 ^ 52 in
  if e =? 0 then
    match m with Zpos p => S754_finite s p (-1074) | _ => S754_zero s end
  else if e =? 2047 then
    if m =? 0 then S754_infinity s else S754_nan
  else match m + 2 ^ 52 with Zpos p => S754_finite s p (e - 1075) | _ => S754_nan end.

Definition nan_bits : Z := 0x7FF8000000000001.

Definition bits_of_float (f : spec_float) : Z :=
  let sign s := if s : bool then 2 ^ 63 else 0 in
  match f with
  | S754_zero s => sign s
  | S754_infinity s => sign s + 2047 * 2 ^ 52
  | S754_nan => nan_bits
  | S754_finite s m e =>
      if Zpos m <? 2 ^ 52 then sign s + Zpos m
      else sign s + (e + 1075) * 2 ^ 52 + (Zpos m - 2 ^ 52)
  end.

(** ** Comparison *)

Definition IsNaN (a : Z) : bool :=
  match float_of_bits a with S754_nan => true | _ => false end.
Definition IsInf (a : Z) : bool :=
  match float_of_bits a with S754_infinity _ => true | _ => false end.

Definition fcompare (a c : Z) : option comparison := SFcompare (float_of_bits a) (float_of_bits c).
Definition flt (a c : Z) : bool := match fcompare a c with Some Lt => true | _ => false end.
Definition fgt (a c : Z) : bool := match fcompare a c with Some Gt => true | _ => false end.
Definition feq (a c : Z) : bool := match fcompare a c with Some Eq => true | _ => false end.

(** ** Arithmetic *)

Definition fop (op : Z → Z → spec_float → spec_float → spec_float) (a c : Z) : Z :=
  bits_of_float (op prec emax (float_of_bits a) (float_of_bits c)).
Definition fadd : Z → Z → Z := fop SFadd.
Definition fsub : Z → Z → Z := fop SFsub.
Definition fmul : Z → Z → Z := fop SFmul.
Definition fdiv : Z → Z → Z := fop SFdiv.

(** [float64(n)] of an integer, rounded to the nearest even. *)
Definition float_of_int (n : Z) : Z := bits_of_float (binary_normalize prec emax n 0 false).

(** [math.Mod]: the exact remainder with the sign of the first operand. *)
Definition Mod (a c : Z) : Z :=
  match float_of_bits a, float_of_bits c with
  | S754_nan, _ | _, S754_nan | S754_infinity _, _ | _, S754_zero _ => nan_bits
  | S754_zero _, _ | _, S754_infinity _ => a
  | S754_finite s m1 e1, S754_finite _ m2 e2 =>
      let e := Z.min e1 e2 in
      let r := (Zpos m1 * 2 ^ (e1 - e)) mod (Zpos m2 * 2 ^ (e2 - e)) in
      if r =? 0 then bits_of_float (S754_zero s)
      else bits_of_float (binary_normalize prec emax (if s : bool then - r else r) e s)
  end.

(** ** Lemmas *)

Lemma fcompare_swap a c : fcompare c a = CompOpp <$> fcompare a c.
Proof.
  unfold fcompare. destruct (float_of_bits a) as [[]|[]| |[] m1 e1], (float_of_bits c) as [[]|[]| |[] m2 e2];
    try done; cbn; rewrite (Z.compare_antisym e1 e2);
    change (Pos.compare_cont Eq m1 m2) with (Pos.compare m1 m2);
    change (Pos.compare_cont Eq m2 m1) with (Pos.compare m2 m1);
    rewrite ?(Pos.compare_antisym m1 m2);
    destruct (e1 ?= e2), (m1 ?= m2)%positive; done.
Qed.

Lemma fcompare_nan a c : fcompare a c = None ↔ IsNaN a = true ∨ IsNaN c = true.
Proof.
  unfold fcompare, IsNaN.
  destruct (float_of_bits a) as [[]|[]| |[] m1 e1], (float_of_bits c) as [[]|[]| |[] m2 e2]; cbn;
    repeat case_match; naive_solver.
Qed.

Lemma fcompare_refl a : IsNaN a = false → fcompare a a = Some Eq.
Proof.
  unfold fcompare, IsNaN. destruct (float_of_bits a) as [[]|[]| |[] m e]; try done; intros _; cbn;
    rewrite Z.compare_refl; by rewrite Pos.compare_cont_refl.
Qed.

Lemma flt_swap a c : flt a c = fgt c a.
Proof. unfold flt, fgt. rewrite (fcompare_swap c a). by destruct (fcompare c a) as [[]|]. Qed.

(** The pattern of a number is found again. *)
Lemma bits_of_float_of_bits z : is_u64 z → IsNaN z = false → bits_of_float (float_of_bits z) = z.
Proof.
  intros [Hlo Hhi] Hn. unfold IsNaN, float_of_bits in Hn. unfold float_of_bits.
  set (e := z / 2 ^ 52 mod 2 ^ 11) in *. set (m := z mod 2 ^ 52) in *.
  set (q := z / 2 ^ 63 mod 2).
  assert (Hz : z = q * 2 ^ 63 + e * 2 ^ 52 + m).
  { unfold q, e, m. change (2 ^ 63) with (2 ^ 52 * 2 ^ 11). rewrite <- Z.div_div by done.
    pose proof (Z.div_mod z (2 ^ 52)). pose proof (Z.div_mod (z / 2 ^ 52) (2 ^ 11)).
    assert (z / 2 ^ 52 / 2 ^ 11 < 2) by (rewrite Z.div_div by done; by apply Z.div_lt_upper_bound).
    assert (0 ≤ z / 2 ^ 52 / 2 ^ 11) by (apply Z.div_pos; [apply Z.div_pos|]; done).
    rewrite (Z.mod_small (z / 2 ^ 52 / 2 ^ 11) 2) by lia. lia. }
  assert (Hm : 0 ≤ m < 2 ^ 52) by (apply Z.mod_pos_bound; lia).
  assert (He : 0 ≤ e < 2 ^ 11) by (apply Z.mod_pos_bound; lia).
  assert (Hq : q = 0 ∨ q = 1) by (unfold q; pose proof (Z.mod_pos_bound (z / 2 ^ 63) 2); lia).
  assert (Hsign : ∀ s : bool, s = negb (q =? 0) → (if s then 2 ^ 63 else 0) = q * 2 ^ 63).
  { intros ? ->. by destruct Hq as [-> | ->]. }
  clearbody q e m. specialize (Hsign _ eq_refl).
  destruct (Z.eqb_spec e 0) as [->|].
  - destruct m as [|p|p]; cbn [bits_of_float]; rewrite ?Hsign; [lia| |lia].
    destruct (Z.ltb_spec (Zpos p) (2 ^ 52)); lia.
  - destruct (Z.eqb_spec e 2047) as [->|].
    + destruct (m =? 0) eqn:E; [|done]. apply Z.eqb_eq in E. cbn [bits_of_float]. rewrite Hsign. lia.
    + destruct (m + 2 ^ 52) as [|p|p] eqn:Hp; [lia| |lia]. cbn [bits_of_float]. rewrite Hsign.
      destruct (Z.ltb_spec (Zpos p) (2 ^ 52)); lia.
Qed.

(** 1, 2.5 and 0.1 + 0.2 as the machine has them. *)
Example float_examples :
  float_of_int 1 = 0x3FF0000000000000 ∧ fadd 0x3FB999999999999A 0x3FC999999999999A = 0x3FD3333333333334 ∧
  Mod (float_of_int (-7)) (float_of_int 3) = float_of_int (-1) ∧
  fdiv (float_of_int 5) (float_of_int 2) = 0x4004000000000000 ∧
  float_of_int (2 ^ 53 + 1) = float_of_int (2 ^ 53).
Proof. by vm_compute. Qed.
