(* ===== verification/GoTime.v ===== *)
(** * Time ([time])

    An instant is its nanoseconds since 1970 in UTC with the offset of its zone,
    which the calendar fields depend on.  Dates are those of the proleptic
    Gregorian calendar, computed as the Go library does: by cycles of 400, 100,
    4 and 1 years.  Parsing covers the elements of the layouts the program uses. *)
From S2P Require Import Prelude Utf8.

(** ** The calendar *)

Definition is_leap (y : Z) : bool :=
  (y mod 4 =? 0) && (negb (y mod 100 =? 0) || (y mod 400 =? 0)).

(** Days from 0001-01-01 to the first day of a year. *)
Definition days_before_year (y : Z) : Z :=
  365 * (y - 1) + (y - 1) / 4 - (y - 1) / 100 + (y - 1) / 400.

(** Days before a month of the year, 1 to 13. *)
Definition days_before_month (leap : bool) (m : Z) : Z :=
  default 0 ([0; 31; 59; 90; 120; 151; 181; 212; 243; 273; 304; 334; 365] !! Z.to_nat (m - 1)) +
  (if leap && (3 <=? m) then 1 else 0).

(** The year of a day counted from 0001-01-01, and the day in the year. *)
Definition year_day (n : Z) : Z * Z :=
  let n400 := n / 146097 in let d := n mod 146097 in
  let n100 := d / 36524 in let n100 := n100 - n100 / 4 in let d := d - 36524 * n100 in
  let n4 := d / 1461 in let d := d - 1461 * n4 in
  let n1 := d / 365 in let n1 := n1 - n1 / 4 in
  (400 * n400 + 100 * n100 + 4 * n4 + n1 + 1, d - 365 * n1).

(** The month of a day of the year: how many months begin by it. *)
Definition month_of (leap : bool) (yday : Z) : Z :=
  len (filter (λ m, days_before_month leap m ≤ yday) (seqZ 1 12)).

(** Year, month and day. *)
Definition civil (n : Z) : Z * Z * Z :=
  let '(y, yday) := year_day n in
  let m := month_of (is_leap y) yday in
  (y, m, yday - days_before_month (is_leap y) m + 1).

Definition days_in (m y : Z) : Z :=
  days_before_month (is_leap y) (m + 1) - days_before_month (is_leap y) m.

(** Days to a date; months and days out of range carry over. *)
Definition days_of (year month day : Z) : Z :=
  let y := year + (month - 1) / 12 in
  let m := (month - 1) mod 12 + 1 in
  days_before_year y + days_before_month (is_leap y) m + day - 1.

(** ** Instants *)

Record Timestamp := mkTimestamp { unix_nano : Z; zone : Z }.
#[global] Instance Timestamp_eq_dec : EqDecision Timestamp.
Proof. solve_decision. Defined.

Definition second : Z := 10 ^ 9.
Definition unix_epoch_day : Z := 719162.
Definition day_seconds : Z := 86400.

(** Seconds of local time since 0001-01-01. *)
Definition local_seconds (t : Timestamp) : Z :=
  unix_nano t / second + zone t + unix_epoch_day * day_seconds.

Definition DateOf (t : Timestamp) : Z * Z * Z := civil (local_seconds t / day_seconds).
Definition Year (t : Timestamp) : Z := (DateOf t).1.1.
Definition Month (t : Timestamp) : Z := (DateOf t).1.2.
Definition Day (t : Timestamp) : Z := (DateOf t).2.
Definition Hour (t : Timestamp) : Z := local_seconds t mod day_seconds / 3600.
Definition Minute (t : Timestamp) : Z := local_seconds t mod 3600 / 60.
Definition Second (t : Timestamp) : Z := local_seconds t mod 60.
Definition Nanosecond (t : Timestamp) : Z := unix_nano t mod second.

(** [time.Date(..., time.UTC)]. *)
Definition Date (year month day hour min sec nsec : Z) : Timestamp :=
  mkTimestamp
    (((days_of year month day - unix_epoch_day) * day_seconds + hour * 3600 + min * 60 + sec) * second
      + nsec) 0.

(** [t.Add(d)], [t.AddDate(y, m, d)] of a UTC time. *)
Definition Add (t : Timestamp) (d : Z) : Timestamp := mkTimestamp (unix_nano t + d) (zone t).
Definition AddDate (t : Timestamp) (y m d : Z) : Timestamp :=
  Date (Year t + y) (Month t + m) (Day t + d) (Hour t) (Minute t) (Second t) (Nanosecond t).

Definition Before (t u : Timestamp) : bool := unix_nano t <? unix_nano u.
Definition After (t u : Timestamp) : bool := unix_nano u <? unix_nano t.
Definition SameInstant (t u : Timestamp) : bool := unix_nano t =? unix_nano u.

(** [t.Unix()], [t.UnixMicro()] and [time.UnixMicro(us).UTC()]. *)
Definition Unix (t : Timestamp) : Z := unix_nano t / second.
Definition UnixMicro (t : Timestamp) : Z := i64 (unix_nano t / 1000).
Definition of_micro (us : Z) : Timestamp := mkTimestamp (us * 1000) 0.

(** [time.Time{}], the first instant of year 1. *)
Definition zero_time : Timestamp := mkTimestamp (- unix_epoch_day * day_seconds * second) 0.

(** ** Lemmas: the calendar *)

Ltac divlia := Z.to_euclidean_division_equations; lia.

Lemma year_day_spec n :
  days_before_year (year_day n).1 + (year_day n).2 = n ∧
  0 ≤ (year_day n).2 < 365 + (if is_leap (year_day n).1 then 1 else 0).
Proof.
  unfold year_day. cbn [fst snd].
  set (a := n / 146097). set (d := n mod 146097).
  assert (Hd : 0 ≤ d < 146097) by (apply Z.mod_pos_bound; lia).
  assert (Hn : n = 146097 * a + d) by (apply Z.div_mod; lia).
  set (h := d / 36524 - d / 36524 / 4).
  assert (Hh : 0 ≤ h ≤ 3 ∧ 0 ≤ d - 36524 * h < 36524 + (if h =? 3 then 1 else 0)).
  { clear Hn. assert (d / 36524 = 0 ∨ d / 36524 = 1 ∨ d / 36524 = 2 ∨ d / 36524 = 3 ∨ d / 36524 = 4) as Hc by divlia.
    assert (Hv : h = if d / 36524 =? 4 then 3 else d / 36524)
      by (unfold h; by destruct Hc as [E|[E|[E|[E|E]]]]; rewrite E).
    rewrite Hv. destruct Hc as [E|[E|[E|[E|E]]]]; rewrite E; cbn; divlia. }
  set (d2 := d - 36524 * h) in *. set (c := d2 / 1461).
  assert (Hc : 0 ≤ c ≤ 24 ∧ 0 ≤ d2 - 1461 * c < 1461) by (unfold c; destruct (h =? 3); divlia).
  set (d3 := d2 - 1461 * c) in *. set (e := d3 / 365 - d3 / 365 / 4).
  assert (He : 0 ≤ e ≤ 3 ∧ 0 ≤ d3 - 365 * e < 365 + (if e =? 3 then 1 else 0)).
  { assert (d3 / 365 = 0 ∨ d3 / 365 = 1 ∨ d3 / 365 = 2 ∨ d3 / 365 = 3 ∨ d3 / 365 = 4) as Hc' by divlia.
    assert (Hv : e = if d3 / 365 =? 4 then 3 else d3 / 365)
      by (unfold e; by destruct Hc' as [E|[E|[E|[E|E]]]]; rewrite E).
    rewrite Hv. destruct Hc' as [E|[E|[E|[E|E]]]]; rewrite E; cbn; divlia. }
  assert (Hlast : c = 24 → h ≠ 3 → d3 < 1460).
  { unfold d3. destruct (Z.eqb_spec h 3); divlia. }
  clearbody a d h c e.
  assert (Hy : days_before_year (400 * a + 100 * h + 4 * c + e + 1) =
    146097 * a + 36524 * h + 1461 * c + 365 * e).
  { unfold days_before_year. replace (400 * a + 100 * h + 4 * c + e + 1 - 1)
      with (400 * a + 100 * h + 4 * c + e) by divlia.
    replace ((400 * a + 100 * h + 4 * c + e) / 4) with (100 * a + 25 * h + c) by divlia.
    replace ((400 * a + 100 * h + 4 * c + e) / 100) with (4 * a + h) by divlia.
    replace ((400 * a + 100 * h + 4 * c + e) / 400) with a by divlia. divlia. }
  assert (Hl : is_leap (400 * a + 100 * h + 4 * c + e + 1) = (e =? 3) && (negb (c =? 24) || (h =? 3))).
  { unfold is_leap.
    destruct (Z.eqb_spec e 3), (Z.eqb_spec c 24), (Z.eqb_spec h 3); cbn; divlia. }
  rewrite Hy, Hl. split; [divlia|].
  destruct (Z.eqb_spec e 3), (Z.eqb_spec c 24), (Z.eqb_spec h 3); cbn; divlia.
Qed.

Lemma days_before_year_succ y :
  days_before_year (y + 1) = days_before_year y + 365 + (if is_leap y then 1 else 0).
Proof.
  unfold days_before_year, is_leap.
  destruct (Z.eqb_spec (y mod 4) 0), (Z.eqb_spec (y mod 100) 0), (Z.eqb_spec (y mod 400) 0);
    cbn; divlia.
Qed.

Lemma days_before_year_mono y y' : y ≤ y' → days_before_year y ≤ days_before_year y'.
Proof. intros. unfold days_before_year. divlia. Qed.

(** A day is in one year only. *)
Lemma year_day_unique y k n : days_before_year y + k = n →
  0 ≤ k < 365 + (if is_leap y then 1 else 0) → year_day n = (y, k).
Proof.
  intros Hn Hk. destruct (year_day_spec n) as [Hs Hr]. destruct (year_day n) as [y' k']. cbn [fst snd] in *.
  pose proof (days_before_year_succ y). pose proof (days_before_year_succ y').
  destruct (Z.lt_trichotomy y y') as [Hlt|[->|Hlt]]; [| |].
  - pose proof (days_before_year_mono (y + 1) y'). lia.
  - f_equal. lia.
  - pose proof (days_before_year_mono (y' + 1) y). lia.
Qed.

(** A fact of the integers of a range, by cases. *)
Lemma by_range (P : Z → bool) lo n x :
  forallb P (seqZ lo n) = true → lo ≤ x < lo + n → P x = true.
Proof.
  rewrite forallb_forall. intros H Hx. apply H, list_elem_of_In, elem_of_seqZ. lia.
Qed.

Lemma month_of_spec leap k : 0 ≤ k < 365 + (if leap : bool then 1 else 0) →
  1 ≤ month_of leap k ≤ 12 ∧
  days_before_month leap (month_of leap k) ≤ k < days_before_month leap (month_of leap k + 1).
Proof.
  intros Hk.
  pose (P := λ (leap : bool) k, bool_decide (k < 365 + (if leap then 1 else 0) →
    1 ≤ month_of leap k ≤ 12 ∧
    days_before_month leap (month_of leap k) ≤ k < days_before_month leap (month_of leap k + 1))).
  assert (H : P leap k = true).
  { apply (by_range (P leap) 0 366); [by destruct leap; vm_compute|destruct leap; lia]. }
  apply bool_decide_eq_true in H. apply H. lia.
Qed.

(** A month and a day of it. *)
Definition valid_date (y m d : Z) : Prop := 1 ≤ m ≤ 12 ∧ 1 ≤ d ≤ days_in m y.
#[global] Instance valid_date_dec y m d : Decision (valid_date y m d).
Proof. unfold valid_date. apply _. Defined.

Lemma month_of_unique leap m d : 1 ≤ m ≤ 12 →
  1 ≤ d ≤ days_before_month leap (m + 1) - days_before_month leap m →
  month_of leap (days_before_month leap m + d - 1) = m ∧
  0 ≤ days_before_month leap m + d - 1 < 365 + (if leap : bool then 1 else 0).
Proof.
  intros Hm Hd. pose (k := days_before_month leap m + d - 1). fold k.
  assert (Hb : 0 ≤ days_before_month leap m ∧
    days_before_month leap (m + 1) ≤ 365 + (if leap then 1 else 0)).
  { pose (P := λ m, bool_decide (0 ≤ days_before_month leap m ∧
      days_before_month leap (m + 1) ≤ 365 + (if leap then 1 else 0))).
    assert (H : P m = true) by (apply (by_range P 1 12); [by destruct leap; vm_compute|lia]).
    by apply bool_decide_eq_true in H. }
  assert (Hk : 0 ≤ k < 365 + (if leap then 1 else 0)) by (unfold k; lia).
  split; [|done]. destruct (month_of_spec leap k Hk) as [Hr Hbet].
  assert (Hmono : ∀ a c, 1 ≤ a → a ≤ c ≤ 13 → days_before_month leap a ≤ days_before_month leap c).
  { intros a c Ha Hc.
    pose (P := λ a, forallb (λ c, implb (a <=? c)
      (days_before_month leap a <=? days_before_month leap c)) (seqZ 1 13)).
    assert (H : P a = true) by (apply (by_range P 1 13); [by destruct leap; vm_compute|lia]).
    pose proof (by_range _ 1 13 c H) as Hac. cbv beta in Hac.
    rewrite (proj2 (Z.leb_le a c)) in Hac by lia. apply Z.leb_le, Hac. lia. }
  destruct (Z.lt_trichotomy (month_of leap k) m) as [Hlt|[->|Hlt]]; [|done|].
  - pose proof (Hmono (month_of leap k + 1) m). unfold k in *. lia.
  - pose proof (Hmono (m + 1) (month_of leap k)). unfold k in *. lia.
Qed.

Lemma civil_days_of y m d : valid_date y m d → civil (days_of y m d) = (y, m, d).
Proof.
  intros [Hm Hd]. unfold days_in in Hd.
  destruct (month_of_unique (is_leap y) m d Hm Hd) as [Hmo Hk]. unfold civil, days_of.
  replace ((m - 1) / 12) with 0 by divlia. replace ((m - 1) mod 12 + 1) with m by divlia.
  rewrite Z.add_0_r.
  rewrite (year_day_unique y (days_before_month (is_leap y) m + d - 1)) by lia.
  rewrite Hmo. f_equal. lia.
Qed.

Lemma days_of_civil n :
  valid_date (civil n).1.1 (civil n).1.2 (civil n).2 ∧
  days_of (civil n).1.1 (civil n).1.2 (civil n).2 = n.
Proof.
  unfold civil. destruct (year_day_spec n) as [Hn Hk].
  destruct (year_day n) as [y k]. cbn [fst snd] in *.
  destruct (month_of_spec (is_leap y) k Hk) as [Hm Hb]. split.
  - split; cbn [fst snd]; [done|]. unfold days_in. lia.
  - unfold days_of. set (m := month_of (is_leap y) k) in *.
    replace ((m - 1) / 12) with 0 by divlia. replace ((m - 1) mod 12 + 1) with m by divlia.
    rewrite Z.add_0_r. lia.
Qed.

(** ** Lemmas: instants *)

(** The fields of a clock time. *)
Definition valid_clock (h mi s ns : Z) : Prop :=
  0 ≤ h < 24 ∧ 0 ≤ mi < 60 ∧ 0 ≤ s < 60 ∧ 0 ≤ ns < second.

Lemma Date_fields y m d h mi s ns : valid_date y m d → valid_clock h mi s ns →
  let t := Date y m d h mi s ns in
  DateOf t = (y, m, d) ∧ Hour t = h ∧ Minute t = mi ∧ Second t = s ∧ Nanosecond t = ns.
Proof.
  intros Hd (Hh & Hmi & Hs & Hns) t.
  assert (Hnano : unix_nano t / second =
    (days_of y m d - unix_epoch_day) * day_seconds + h * 3600 + mi * 60 + s).
  { unfold t, Date. cbn [unix_nano]. rewrite Z.div_add_l by done. rewrite (Z.div_small ns) by done. lia. }
  assert (Hlocal : local_seconds t = days_of y m d * day_seconds + h * 3600 + mi * 60 + s).
  { unfold local_seconds. rewrite Hnano. cbn [t Date zone]. lia. }
  unfold DateOf, Hour, Minute, Second, Nanosecond. rewrite Hlocal. unfold day_seconds in *.
  replace ((days_of y m d * 86400 + h * 3600 + mi * 60 + s) / 86400) with (days_of y m d) by divlia.
  rewrite civil_days_of by done. split_and!; [done|divlia|divlia|divlia|].
  unfold t, Date. cbn [unix_nano]. rewrite Z.add_comm, Z.mod_add, Z.mod_small by done. done.
Qed.

(** An instant in UTC is its date and clock. *)
Lemma Date_of_fields t : zone t = 0 →
  valid_date (Year t) (Month t) (Day t) ∧ valid_clock (Hour t) (Minute t) (Second t) (Nanosecond t) ∧
  Date (Year t) (Month t) (Day t) (Hour t) (Minute t) (Second t) (Nanosecond t) = t.
Proof.
  intros Hz. destruct t as [ns z]. cbn [zone] in Hz. subst z.
  unfold Year, Month, Day, DateOf, Hour, Minute, Second, Nanosecond. cbn [unix_nano].
  set (t := mkTimestamp ns 0). set (n := local_seconds t / day_seconds).
  destruct (days_of_civil n) as [Hv Hn]. split; [done|].
  assert (Hl : local_seconds t = n * day_seconds + local_seconds t mod day_seconds).
  { unfold n, day_seconds. divlia. }
  split.
  { unfold valid_clock, day_seconds. split_and!; divlia || apply Z.mod_pos_bound; done. }
  unfold Date. f_equal. rewrite Hn.
  assert (E : (n - unix_epoch_day) * day_seconds + local_seconds t mod day_seconds / 3600 * 3600 +
    local_seconds t mod 3600 / 60 * 60 + local_seconds t mod 60 = ns / second).
  { unfold local_seconds in *. cbn [t unix_nano zone] in *. unfold day_seconds, unix_epoch_day in *. divlia. }
  rewrite E. rewrite (Z.div_mod ns second) at 3 by done. lia.
Qed.

(** ** Lemmas: periods *)

Lemma days_of_next_month y m : 1 ≤ m ≤ 12 → days_of y (m + 1) 1 = days_of y m 1 + days_in m y.
Proof.
  intros Hm. unfold days_of, days_in. replace ((m - 1) / 12) with 0 by divlia.
  replace ((m - 1) mod 12 + 1) with m by divlia. replace (m + 1 - 1) with m by lia. rewrite Z.add_0_r.
  destruct (decide (m = 12)) as [->|].
  - change (12 / 12) with 1. change (12 mod 12 + 1) with 1. rewrite days_before_year_succ.
    assert (H1 : ∀ l, days_before_month l 1 = 0) by by intros [].
    assert (H13 : ∀ l : bool, days_before_month l (12 + 1) = 365 + (if l then 1 else 0)) by by intros [].
    rewrite H1, H13. lia.
  - replace (m / 12) with 0 by divlia. replace (m mod 12 + 1) with (m + 1) by divlia. rewrite Z.add_0_r. lia.
Qed.

Lemma civil_in_month y m n : 1 ≤ m ≤ 12 →
  days_of y m 1 ≤ n < days_of y (m + 1) 1 ↔ (civil n).1 = (y, m).
Proof.
  intros Hm. rewrite days_of_next_month by done. split.
  - intros Hn. assert (E : n = days_of y m (n - days_of y m 1 + 1)) by (unfold days_of; lia).
    rewrite E, civil_days_of; [done|]. split; [done|]. lia.
  - intros E. destruct (days_of_civil n) as [[_ Hd] Hn]. destruct (civil n) as [[y' m'] d].
    cbn [fst snd] in *. injection E as -> ->. unfold days_of in *. lia.
Qed.

Lemma civil_in_year y n : days_of y 1 1 ≤ n < days_of (y + 1) 1 1 ↔ (civil n).1.1 = y.
Proof.
  assert (Hd : ∀ y, days_of y 1 1 = days_before_year y).
  { intros. unfold days_of. change ((1 - 1) / 12) with 0. change ((1 - 1) mod 12 + 1) with 1.
    rewrite Z.add_0_r. assert (H1 : ∀ l, days_before_month l 1 = 0) by by intros []. rewrite H1. lia. }
  rewrite !Hd, days_before_year_succ. unfold civil. split.
  - intros Hn. rewrite (year_day_unique y (n - days_before_year y)) by lia. done.
  - destruct (year_day_spec n). destruct (year_day n) as [y' k]. cbn [fst snd] in *. intros <-. lia.
Qed.

Lemma civil_inj n n' : civil n = civil n' → n = n'.
Proof.
  intros E. rewrite <- (proj2 (days_of_civil n)), <- (proj2 (days_of_civil n')), E. done.
Qed.

(** A period of whole seconds, as its seconds. *)
Lemma within_seconds ns a n : a * second ≤ ns ≤ (a + n) * second - 1 ↔ a ≤ ns / second < a + n.
Proof.
  assert (Hs : 0 < second) by done. pose proof (Z.div_mod ns second ltac:(done)).
  pose proof (Z.mod_pos_bound ns second Hs). nia.
Qed.

(** Seconds of local time of a date and clock. *)
Lemma unix_nano_Date y m d h mi s :
  unix_nano (Date y m d h mi s 0) =
  (days_of y m d * day_seconds + h * 3600 + mi * 60 + s - unix_epoch_day * day_seconds) * second.
Proof. unfold Date. cbn [unix_nano]. lia. Qed.

Lemma local_seconds_utc t : zone t = 0 →
  local_seconds t = unix_nano t / second + unix_epoch_day * day_seconds.
Proof. unfold local_seconds. lia. Qed.

(** The fields of a time down to a precision: year, month, ..., second. *)
Definition fields_to (n : nat) (t : Timestamp) : list Z :=
  take n [Year t; Month t; Day t; Hour t; Minute t; Second t].

(** The clock of two times agrees when they are in the same interval of [k]
    seconds, for the divisors that clocks have. *)
Lemma same_day t u : DateOf t = DateOf u ↔ local_seconds t / day_seconds = local_seconds u / day_seconds.
Proof. unfold DateOf. split; [apply civil_inj|by intros ->]. Qed.
Lemma same_hour t u : DateOf t = DateOf u ∧ Hour t = Hour u ↔
  local_seconds t / 3600 = local_seconds u / 3600.
Proof. rewrite same_day. unfold Hour, day_seconds. divlia. Qed.
Lemma same_minute t u : DateOf t = DateOf u ∧ Hour t = Hour u ∧ Minute t = Minute u ↔
  local_seconds t / 60 = local_seconds u / 60.
Proof. rewrite same_day. unfold Hour, Minute, day_seconds. divlia. Qed.
Lemma same_second t u : DateOf t = DateOf u ∧ Hour t = Hour u ∧ Minute t = Minute u ∧ Second t = Second u ↔
  local_seconds t = local_seconds u.
Proof. rewrite same_day. unfold Hour, Minute, Second, day_seconds. divlia. Qed.
