(* ===== verification/GoTimeFormat.v ===== *)
(** * Reading and writing times ([time.ParseInLocation], [time.Format])

    A layout is the list of its elements, each with the text before it; the
    elements are those of the layouts the program uses.  Reading follows the
    Go library: hours may have one digit, a fraction may follow the seconds
    unless the layout has one, spaces of the layout match any number of spaces,
    dates must exist. *)
From S2P Require Import Prelude Utf8 GoTime.

Inductive element :=
  | LongYear | ZeroMonth | ZeroDay | HourElement | ZeroMinute | ZeroSecond
  | FracSecond (digits : nat) | ColonTZ.
#[global] Instance element_eq_dec : EqDecision element.
Proof. solve_decision. Defined.

Definition layout : Type := list (list byte * element).

Record parsed := mkParsed {
  p_year : Z; p_month : Z; p_day : Z; p_hour : Z; p_min : Z; p_sec : Z; p_nsec : Z;
  p_zone : Z
}.
Definition no_fields : parsed := mkParsed 0 (-1) (-1) 0 0 0 0 0.

(** ** Reading *)

Definition digit_byte (x : byte) : bool := between 0x30 0x39 (byte.unsigned x).
Definition digit_value (x : byte) : Z := byte.unsigned x - 0x30.
Definition digit_at (s : list byte) (i : nat) : bool :=
  match s !! i with Some x => digit_byte x | None => false end.

Definition getnum (s : list byte) (fixed : bool) : option (Z * list byte) :=
  match s with
  | x :: s =>
      if negb (digit_byte x) then None else
      match s with
      | y :: s' =>
          if digit_byte y then Some (digit_value x * 10 + digit_value y, s')
          else if fixed then None else Some (digit_value x, s)
      | [] => if fixed then None else Some (digit_value x, [])
      end
  | [] => None
  end.

(** [atoi]: an optional sign and digits. *)
Definition atoi (s : list byte) : option Z :=
  let '(neg, s) := match s with
    | x :: rest => if bool_decide (x = Byte.x2d) then (true, rest)
                   else if bool_decide (x = Byte.x2b) then (false, rest) else (false, s)
    | [] => (false, []) end in
  if forallb digit_byte s then
    let n := foldl (λ n x, n * 10 + digit_value x) 0 s in Some (if neg : bool then - n else n)
  else None.

Definition comma_or_period (x : byte) : bool := bool_decide (x = Byte.x2e) || bool_decide (x = Byte.x2c).

(** [parseNanoseconds] of the first [nbytes] bytes. *)
Definition parseNanoseconds (s : list byte) (nbytes : nat) : option Z :=
  let nbytes := Nat.min nbytes 10 in
  match s with
  | x :: rest =>
      if comma_or_period x then
        ns ← atoi (take (nbytes - 1) rest);
        if ns <? 0 then None else Some (ns * 10 ^ (10 - Z.of_nat nbytes))
      else None
  | [] => None
  end.

Fixpoint cutspace (s : list byte) : list byte :=
  match s with x :: s' => if bool_decide (x = Byte.x20) then cutspace s' else s | [] => [] end.

(** [skip(value, prefix)]. *)
Fixpoint skip_text (value prefix : list byte) : option (list byte) :=
  match prefix with
  | [] => Some value
  | p :: prefix' =>
      if bool_decide (p = Byte.x20) then
        match value with
        | x :: _ => if bool_decide (x = Byte.x20) then skip_text (cutspace value) prefix' else None
        | [] => skip_text [] prefix'
        end
      else match value with
      | x :: value' => if bool_decide (x = p) then skip_text value' prefix' else None
      | [] => None
      end
  end.

Fixpoint digits_prefix (s : list byte) : nat :=
  match s with x :: s => if digit_byte x then S (digits_prefix s) else O | [] => O end.

Definition is_fraction (next : option element) : bool :=
  match next with Some (FracSecond _) => true | _ => false end.

(** One element; [next] is the one after it. *)
Definition parse_element (e : element) (next : option element) (s : list byte) (f : parsed) :
  option (list byte * parsed) :=
  match e with
  | LongYear =>
      if (length s <? 4)%nat || negb (digit_at s 0) then None else
      y ← atoi (take 4 s);
      Some (drop 4 s, mkParsed y (p_month f) (p_day f) (p_hour f) (p_min f) (p_sec f) (p_nsec f) (p_zone f))
  | ZeroMonth =>
      '(m, s) ← getnum s true;
      if between 1 12 m
      then Some (s, mkParsed (p_year f) m (p_day f) (p_hour f) (p_min f) (p_sec f) (p_nsec f) (p_zone f))
      else None
  | ZeroDay =>
      '(d, s) ← getnum s true;
      Some (s, mkParsed (p_year f) (p_month f) d (p_hour f) (p_min f) (p_sec f) (p_nsec f) (p_zone f))
  | HourElement =>
      '(h, s) ← getnum s false;
      if h <? 24
      then Some (s, mkParsed (p_year f) (p_month f) (p_day f) h (p_min f) (p_sec f) (p_nsec f) (p_zone f))
      else None
  | ZeroMinute =>
      '(m, s) ← getnum s true;
      if m <? 60
      then Some (s, mkParsed (p_year f) (p_month f) (p_day f) (p_hour f) m (p_sec f) (p_nsec f) (p_zone f))
      else None
  | ZeroSecond =>
      '(sec, s) ← getnum s true;
      if negb (sec <? 60) then None else
      let f := mkParsed (p_year f) (p_month f) (p_day f) (p_hour f) (p_min f) sec (p_nsec f) (p_zone f) in
      match s with
      | x :: rest =>
          if comma_or_period x && digit_at rest 0 && negb (is_fraction next) then
            let n := S (digits_prefix rest) in
            ns ← parseNanoseconds s n;
            Some (drop n s, mkParsed (p_year f) (p_month f) (p_day f) (p_hour f) (p_min f) (p_sec f) ns (p_zone f))
          else Some (s, f)
      | [] => Some (s, f)
      end
  | FracSecond digits =>
      let n := S digits in
      if (length s <? n)%nat then None else
      ns ← parseNanoseconds s n;
      Some (drop n s, mkParsed (p_year f) (p_month f) (p_day f) (p_hour f) (p_min f) (p_sec f) ns (p_zone f))
  | ColonTZ =>
      match s with
      | [] => None
      | sign :: rest =>
          if bool_decide (sign = Byte.x5a) then Some (rest, f) else
          if (length s <? 6)%nat || negb (bool_decide (s !! 3%nat = Some Byte.x3a)) then None else
          '(hr, _) ← getnum (take 2 rest) true;
          '(mm, _) ← getnum (take 2 (drop 3 rest)) true;
          if (24 <? hr) || (60 <? mm) then None else
          let offset := (hr * 60 + mm) * 60 in
          let set z := Some (drop 6 s, mkParsed (p_year f) (p_month f) (p_day f) (p_hour f) (p_min f)
                         (p_sec f) (p_nsec f) z) in
          if bool_decide (sign = Byte.x2b) then set offset
          else if bool_decide (sign = Byte.x2d) then set (- offset) else None
      end
  end.

Fixpoint parse_layout (l : layout) (s : list byte) (f : parsed) : option parsed :=
  match l with
  | [] => if bool_decide (s = []) then Some f else None
  | (prefix, e) :: l =>
      s ← skip_text s prefix;
      '(s, f) ← parse_element e (snd <$> head l) s f;
      parse_layout l s f
  end.

(** [time.ParseInLocation(layout, s, time.UTC)]; a zone shifts the instant. *)
Definition ParseInLocation (l : layout) (s : list byte) : option Timestamp :=
  f ← parse_layout l s no_fields;
  let month := if p_month f <? 0 then 1 else p_month f in
  let day := if p_day f <? 0 then 1 else p_day f in
  if (day <? 1) || (days_in month (p_year f) <? day) then None else
  let t := Date (p_year f) month day (p_hour f) (p_min f) (p_sec f) (p_nsec f) in
  Some (mkTimestamp (unix_nano t - p_zone f * second) (p_zone f)).

(** ** Writing *)

(** [t.Format("2006-01-02 15:04:05.000000")]; the year has at least four digits
    besides its sign, the fraction is cut. *)
Definition format_micro (t : Timestamp) : list byte :=
  (if Year t <? 0 then b "-" ++ zero_pad 4 (decimal (- Year t)) else zero_pad 4 (decimal (Year t))) ++
  b "-" ++ format_padded 2 (Month t) ++ b "-" ++ format_padded 2 (Day t) ++
  b " " ++ format_padded 2 (Hour t) ++ b ":" ++ format_padded 2 (Minute t) ++ b ":" ++
  format_padded 2 (Second t) ++ b "." ++ format_padded 6 (Nanosecond t / 1000).

(** ** Lemmas: numbers of fixed width *)

(** The [w] digits of a number below [10 ^ w]. *)
Fixpoint fixed_digits (w : nat) (n : Z) : list byte :=
  match w with
  | O => []
  | S w => fixed_digits w (n / 10) ++ [digit n]
  end.

Lemma length_fixed_digits w n : length (fixed_digits w n) = w.
Proof.
  revert n. induction w as [|w IH]; intros n; [done|]. cbn. rewrite length_app, IH. cbn. lia.
Qed.

Lemma digit_facts n :
  digit_byte (digit n) = true ∧ digit_value (digit n) = n mod 10 ∧
  digit n ≠ Byte.x2d ∧ digit n ≠ Byte.x2b ∧ digit n ≠ Byte.x2e.
Proof.
  pose (P := λ k, bool_decide (digit_byte (byte_of (0x30 + k)) = true ∧
    digit_value (byte_of (0x30 + k)) = k ∧ byte_of (0x30 + k) ≠ Byte.x2d ∧
    byte_of (0x30 + k) ≠ Byte.x2b ∧ byte_of (0x30 + k) ≠ Byte.x2e)).
  assert (H : P (n mod 10) = true).
  { apply (by_range P 0 10); [by vm_compute|]. pose proof (Z.mod_pos_bound n 10). lia. }
  by apply bool_decide_eq_true in H.
Qed.

Lemma decimal_digits_acc fuel n acc : decimal_digits fuel n acc = decimal_digits fuel n [] ++ acc.
Proof.
  revert n acc. induction fuel as [|fuel IH]; intros n acc; [done|]. cbn [decimal_digits].
  destruct (n <? 10); [done|]. rewrite IH, (IH _ [digit n]), <- (assoc_L (++)). done.
Qed.

Lemma pad_digits w fuel n : 0 ≤ n < 10 ^ Z.of_nat w → (1 ≤ w)%nat → n < 10 ^ Z.of_nat fuel → (1 ≤ fuel)%nat →
  zero_pad w (decimal_digits fuel n []) = fixed_digits w n ∧
  (length (decimal_digits fuel n []) ≤ w)%nat.
Proof.
  revert fuel n. induction w as [|w IH]; intros fuel n Hn Hw Hf Hf1; [lia|].
  destruct fuel as [|fuel]; [lia|]. cbn [decimal_digits fixed_digits].
  rewrite !Nat2Z.inj_succ, !Z.pow_succ_r in * by lia.
  destruct (Z.ltb_spec n 10) as [Hlt|Hge].
  - rewrite Z.div_small by lia. unfold zero_pad. cbn [length]. rewrite Nat.sub_succ, Nat.sub_0_r.
    split; [|lia]. f_equal. clear. induction w as [|w IH]; [done|].
    cbn [fixed_digits]. rewrite Z.div_0_l, <- IH by done.
    change (digit 0) with Byte.x30. by rewrite <- (replicate_S_end w Byte.x30).
  - rewrite decimal_digits_acc.
    destruct w as [|w]; [cbn in Hn; lia|]. destruct fuel as [|fuel]; [cbn in Hf; lia|].
    destruct (IH (S fuel) (n / 10)) as [E Hl]; [|lia| |lia|].
    { split; [by apply Z.div_pos; lia|apply Z.div_lt_upper_bound; lia]. }
    { apply Z.div_lt_upper_bound; lia. }
    unfold zero_pad in *. rewrite length_app. cbn [length]. rewrite <- E.
    split; [|lia]. rewrite (assoc_L (++)). do 2 f_equal. f_equal. lia.
Qed.

Lemma zero_pad_decimal w n : 0 ≤ n < 10 ^ Z.of_nat w → (1 ≤ w)%nat →
  zero_pad w (decimal n) = fixed_digits w n.
Proof.
  intros Hn Hw. apply pad_digits; [done|done| |lia].
  rewrite Nat2Z.inj_succ, Z2Nat.id by apply Z.log2_nonneg.
  destruct (Z.log2_spec (Z.max 1 n)) as [_ H]; [lia|].
  assert (2 ^ Z.succ (Z.log2 (Z.max 1 n)) ≤ 10 ^ Z.succ (Z.log2 (Z.max 1 n))); [|lia].
  apply Z.pow_le_mono_l. pose proof (Z.log2_nonneg (Z.max 1 n)). lia.
Qed.

Lemma format_padded_fixed w n : 0 ≤ n < 10 ^ Z.of_nat w → (1 ≤ w)%nat →
  format_padded w n = fixed_digits w n.
Proof.
  intros. unfold format_padded. rewrite (proj2 (Z.ltb_ge _ _)) by lia. by apply zero_pad_decimal.
Qed.

Lemma fixed_digits_all w n : forallb digit_byte (fixed_digits w n) = true.
Proof.
  revert n. induction w as [|w IH]; intros n; [done|]. cbn. rewrite forallb_app, IH. cbn.
  by rewrite (proj1 (digit_facts n)).
Qed.

Lemma fixed_digits_value w n : 0 ≤ n < 10 ^ Z.of_nat w →
  foldl (λ n x, n * 10 + digit_value x) 0 (fixed_digits w n) = n.
Proof.
  revert n. induction w as [|w IH]; intros n Hn; [cbn in *; lia|].
  rewrite Nat2Z.inj_succ, Z.pow_succ_r in Hn by lia. cbn [fixed_digits].
  rewrite foldl_app, IH; [|split; [apply Z.div_pos; lia|apply Z.div_lt_upper_bound; lia]].
  cbn [foldl]. rewrite (proj1 (proj2 (digit_facts n))). pose proof (Z.div_mod n 10). lia.
Qed.

Lemma fixed_digits_cons w n : fixed_digits (S w) n = digit (n / 10 ^ Z.of_nat w) :: fixed_digits w n.
Proof.
  revert n. induction w as [|w IH]; intros n.
  - cbn [fixed_digits app]. by rewrite Z.div_1_r.
  - cbn [fixed_digits] in *. rewrite IH. cbn [app].
    rewrite Z.div_div, Nat2Z.inj_succ, Z.pow_succ_r by lia. done.
Qed.

Lemma atoi_fixed w n : 0 ≤ n < 10 ^ Z.of_nat w → (1 ≤ w)%nat → atoi (fixed_digits w n) = Some n.
Proof.
  intros Hn Hw. destruct w as [|w]; [lia|]. unfold atoi. rewrite fixed_digits_cons.
  destruct (digit_facts (n / 10 ^ Z.of_nat w)) as (_ & _ & H1 & H2 & _).
  rewrite !bool_decide_false by done. rewrite <- fixed_digits_cons, fixed_digits_all.
  by rewrite fixed_digits_value.
Qed.

Lemma getnum_fixed n fixed rest : 0 ≤ n < 100 → getnum (fixed_digits 2 n ++ rest) fixed = Some (n, rest).
Proof.
  intros Hn. rewrite !fixed_digits_cons. cbn [fixed_digits app getnum].
  change (10 ^ Z.of_nat 1) with 10. change (10 ^ Z.of_nat 0) with 1. rewrite Z.div_1_r.
  destruct (digit_facts n) as (H1 & H2 & _), (digit_facts (n / 10)) as (H3 & H4 & _).
  rewrite H1, H3, H2, H4. cbn [negb]. do 2 f_equal. divlia.
Qed.

(** ** Lemmas: reading fields of fixed width *)

Section fields.
Implicit Types (l : layout) (r : list byte) (f : parsed).

Lemma parse_year l r f y : 0 ≤ y < 10000 →
  parse_layout (([], LongYear) :: l) (fixed_digits 4 y ++ r) f =
  parse_layout l r (mkParsed y (p_month f) (p_day f) (p_hour f) (p_min f) (p_sec f) (p_nsec f) (p_zone f)).
Proof.
  intros Hy. cbn [parse_layout skip_text mbind option_bind]. unfold parse_element.
  pose proof (length_fixed_digits 4 y) as Hlen.
  assert (Hd : digit_at (fixed_digits 4 y ++ r) 0 = true).
  { rewrite fixed_digits_cons. cbn. apply digit_facts. }
  rewrite Hd, (proj2 (Nat.ltb_ge _ _)) by (rewrite length_app; lia). cbn [orb negb].
  rewrite take_app_length', drop_app_length' by done. by rewrite (atoi_fixed 4 y) by lia.
Qed.

(** A text of one byte, not a space, in a layout. *)
Lemma skip_byte (x : byte) r : x ≠ Byte.x20 → skip_text (x :: r) [x] = Some r.
Proof. intros. cbn. by rewrite bool_decide_false, bool_decide_true. Qed.

Lemma parse_month l r f m : 1 ≤ m ≤ 12 →
  parse_layout ((b "-", ZeroMonth) :: l) (b "-" ++ fixed_digits 2 m ++ r) f =
  parse_layout l r (mkParsed (p_year f) m (p_day f) (p_hour f) (p_min f) (p_sec f) (p_nsec f) (p_zone f)).
Proof.
  intros Hm. cbn [parse_layout]. change (b "-") with [Byte.x2d]. cbn [app].
  rewrite skip_byte by done. cbn [mbind option_bind parse_element].
  rewrite getnum_fixed by lia. cbn [mbind option_bind].
  unfold between. rewrite !(proj2 (Z.leb_le _ _)) by lia. done.
Qed.

Lemma parse_day l r f d : 1 ≤ d < 100 →
  parse_layout ((b "-", ZeroDay) :: l) (b "-" ++ fixed_digits 2 d ++ r) f =
  parse_layout l r (mkParsed (p_year f) (p_month f) d (p_hour f) (p_min f) (p_sec f) (p_nsec f) (p_zone f)).
Proof.
  intros Hd. cbn [parse_layout]. change (b "-") with [Byte.x2d]. cbn [app].
  rewrite skip_byte by done. cbn [mbind option_bind parse_element]. by rewrite getnum_fixed by lia.
Qed.

Lemma skip_space r n : 0 ≤ n → skip_text (b " " ++ fixed_digits 2 n ++ r) (b " ") = Some (fixed_digits 2 n ++ r).
Proof.
  intros Hn. change (b " ") with [Byte.x20]. rewrite fixed_digits_cons. cbn [app skip_text].
  rewrite !bool_decide_true by done. cbn [cutspace]. rewrite bool_decide_true by done.
  rewrite bool_decide_false; [done|]. pose proof (proj1 (digit_facts (n / 10 ^ Z.of_nat 1))) as H.
  intros E. by rewrite E in H.
Qed.

Lemma parse_hour l r f h : 0 ≤ h < 24 →
  parse_layout ((b " ", HourElement) :: l) (b " " ++ fixed_digits 2 h ++ r) f =
  parse_layout l r (mkParsed (p_year f) (p_month f) (p_day f) h (p_min f) (p_sec f) (p_nsec f) (p_zone f)).
Proof.
  intros Hh. cbn [parse_layout]. rewrite skip_space by lia. cbn [mbind option_bind parse_element].
  rewrite getnum_fixed by lia. cbn [mbind option_bind]. by rewrite (proj2 (Z.ltb_lt _ _)) by lia.
Qed.

Lemma parse_minute l r f m : 0 ≤ m < 60 →
  parse_layout ((b ":", ZeroMinute) :: l) (b ":" ++ fixed_digits 2 m ++ r) f =
  parse_layout l r (mkParsed (p_year f) (p_month f) (p_day f) (p_hour f) m (p_sec f) (p_nsec f) (p_zone f)).
Proof.
  intros Hm. cbn [parse_layout]. change (b ":") with [Byte.x3a]. cbn [app].
  rewrite skip_byte by done. cbn [mbind option_bind parse_element].
  rewrite getnum_fixed by lia. cbn [mbind option_bind]. by rewrite (proj2 (Z.ltb_lt _ _)) by lia.
Qed.

Lemma digits_prefix_all s : forallb digit_byte s = true → digits_prefix s = length s.
Proof. induction s as [|x s IH]; [done|]. cbn. intros [-> H]%andb_true_iff. by rewrite IH. Qed.

(** Seconds at the end of the text, and seconds before a fraction the layout lacks. *)
Lemma parse_second f s : 0 ≤ s < 60 →
  parse_layout [(b ":", ZeroSecond)] (b ":" ++ fixed_digits 2 s) f =
  Some (mkParsed (p_year f) (p_month f) (p_day f) (p_hour f) (p_min f) s (p_nsec f) (p_zone f)).
Proof.
  intros Hs. rewrite <- (app_nil_r (fixed_digits 2 s)). cbn [parse_layout].
  change (b ":") with [Byte.x3a]. cbn [app].
  rewrite skip_byte by done. cbn [mbind option_bind parse_element head fmap option_fmap option_map].
  rewrite getnum_fixed by lia. cbn [mbind option_bind]. by rewrite (proj2 (Z.ltb_lt _ _)) by lia.
Qed.

Lemma parse_second_fraction f s us : 0 ≤ s < 60 → 0 ≤ us < 10 ^ 6 →
  parse_layout [(b ":", ZeroSecond)] (b ":" ++ fixed_digits 2 s ++ b "." ++ fixed_digits 6 us) f =
  Some (mkParsed (p_year f) (p_month f) (p_day f) (p_hour f) (p_min f) s (us * 1000) (p_zone f)).
Proof.
  intros Hs Hus. cbn [parse_layout]. change (b ":") with [Byte.x3a]. change (b ".") with [Byte.x2e]. cbn [app].
  rewrite skip_byte by done. cbn [mbind option_bind parse_element head fmap option_fmap option_map].
  rewrite getnum_fixed by lia. cbn [mbind option_bind]. rewrite (proj2 (Z.ltb_lt _ _)) by lia. cbn [negb].
  assert (Hd : digit_at (fixed_digits 6 us) 0 = true) by (rewrite fixed_digits_cons; cbn; apply digit_facts).
  rewrite Hd. change (comma_or_period Byte.x2e) with true. cbn [andb is_fraction negb].
  rewrite digits_prefix_all by apply fixed_digits_all. rewrite length_fixed_digits.
  unfold parseNanoseconds. cbn [Nat.min Nat.sub comma_or_period].
  change (comma_or_period Byte.x2e) with true. cbv iota.
  rewrite take_ge by (rewrite length_fixed_digits; lia). rewrite (atoi_fixed 6 us) by lia.
  cbn [mbind option_bind]. rewrite (proj2 (Z.ltb_ge _ _)) by lia. cbn [mbind option_bind].
  change (drop 7 (Byte.x2e :: ?u)) with (drop 6 u).
  rewrite drop_ge by (rewrite length_fixed_digits; lia). done.
Qed.

(** The last element of a layout at the end of the text. *)
Lemma parse_year_end f y : 0 ≤ y < 10000 →
  parse_layout [([], LongYear)] (fixed_digits 4 y) f =
  Some (mkParsed y (p_month f) (p_day f) (p_hour f) (p_min f) (p_sec f) (p_nsec f) (p_zone f)).
Proof. intros. rewrite <- (app_nil_r (fixed_digits 4 y)). by rewrite parse_year. Qed.
Lemma parse_month_end f m : 1 ≤ m ≤ 12 →
  parse_layout [(b "-", ZeroMonth)] (b "-" ++ fixed_digits 2 m) f =
  Some (mkParsed (p_year f) m (p_day f) (p_hour f) (p_min f) (p_sec f) (p_nsec f) (p_zone f)).
Proof. intros. rewrite <- (app_nil_r (fixed_digits 2 m)). by rewrite parse_month. Qed.
Lemma parse_day_end f d : 1 ≤ d < 100 →
  parse_layout [(b "-", ZeroDay)] (b "-" ++ fixed_digits 2 d) f =
  Some (mkParsed (p_year f) (p_month f) d (p_hour f) (p_min f) (p_sec f) (p_nsec f) (p_zone f)).
Proof. intros. rewrite <- (app_nil_r (fixed_digits 2 d)). by rewrite parse_day. Qed.
Lemma parse_minute_end f m : 0 ≤ m < 60 →
  parse_layout [(b ":", ZeroMinute)] (b ":" ++ fixed_digits 2 m) f =
  Some (mkParsed (p_year f) (p_month f) (p_day f) (p_hour f) m (p_sec f) (p_nsec f) (p_zone f)).
Proof. intros. rewrite <- (app_nil_r (fixed_digits 2 m)). by rewrite parse_minute. Qed.

(** Text left over. *)
Lemma parse_left r f : r ≠ [] → parse_layout [] r f = None.
Proof. intros. cbn. by rewrite bool_decide_false. Qed.
End fields.
