(* ===== verification/MblValue.v ===== *)
(** * MBL values (internal/types/types.go, internal/types/serialize.go)

    The values of MBL and their binary form, which is what the database stores
    and the protocol carries.  [any] is a Go [interface{}]: an MBL value, or a
    Go value that [CreateValue] makes one of.  A float64 is its bits, a map the
    list of its entries in the order an iteration over it takes.  Slices with
    bounds computed in 32 bits are written out: they can panic. *)
From S2P Require Import Prelude Utf8 GoTime GoFloat.

(** ** Data *)

Inductive any : Type :=
  | Text (value : list byte)
  | Number (bits : Z)
  | Time (timestamp : Timestamp) (precision : byte)
  | Money (amount : Z) (currencyCode : list byte)
  | Picture (width height : Z) (data : list byte)
  | Reference (attributeID : Z)
  | Nothing
  | Unknown (reason : list byte)
  | Anything
  | Boolean (value : bool)
  | List (elements : list any)
  | Record (fields : list (list byte * any))
  (* Go values: string, float64, the integer types, bool, nil, slices and maps
     of interfaces; others are known by what json.Marshal gives for them, and an
     object of a named type, a pointer say, by its type and address as well *)
  | GoString (value : list byte)
  | GoFloat64 (bits : Z)
  | GoInt (value : Z)
  | GoBool (value : bool)
  | GoNil
  | GoSlice (elements : list any)
  | GoMap (fields : list (list byte * any))
  | GoOther (json : res (list byte))
  | GoObject (type : string) (address : Z) (json : res (list byte)).

Definition TypeText : byte := Byte.x01.
Definition TypeNumber : byte := Byte.x02.
Definition TypeTime : byte := Byte.x03.
Definition TypeMoney : byte := Byte.x04.
Definition TypePicture : byte := Byte.x05.
Definition TypeReference : byte := Byte.x06.
Definition TypeBoolean : byte := Byte.x0a.
Definition TypeList : byte := Byte.x0b.
Definition TypeRecord : byte := Byte.x0c.
Definition TypeNothing : byte := Byte.xf0.
Definition TypeUnknown : byte := Byte.xf1.
Definition TypeAnything : byte := Byte.xf2.

Definition PrecisionYear : byte := Byte.x01.
Definition PrecisionMonth : byte := Byte.x02.
Definition PrecisionDay : byte := Byte.x03.
Definition PrecisionHour : byte := Byte.x04.
Definition PrecisionMinute : byte := Byte.x05.
Definition PrecisionSecond : byte := Byte.x06.
Definition PrecisionSubsecond : byte := Byte.x07.

(** ** Writing *)

(** The value [CreateValue] makes; nested values are left as they are. *)
Definition CreateValue (v : any) : res any :=
  match v with
  | GoString s => Ok (Text s)
  | GoFloat64 bits => Ok (Number bits)
  | GoInt n => Ok (Number (float_of_int n))
  | GoBool x => Ok (Boolean x)
  | GoNil | GoSlice _ | GoMap _ | GoOther _ | GoObject _ _ _ => Err "unsupported type"
  | _ => Ok v
  end.

(** [TypeTag] of the value made. *)
Definition TypeTag (v : any) : byte :=
  match v with
  | Text _ | GoString _ => TypeText
  | Number _ | GoFloat64 _ | GoInt _ => TypeNumber
  | Time _ _ => TypeTime
  | Money _ _ => TypeMoney
  | Picture _ _ _ => TypePicture
  | Reference _ => TypeReference
  | Unknown _ => TypeUnknown
  | Anything => TypeAnything
  | Boolean _ | GoBool _ => TypeBoolean
  | List _ => TypeList
  | Record _ => TypeRecord
  | Nothing | GoNil | GoSlice _ | GoMap _ | GoOther _ | GoObject _ _ _ => TypeNothing
  end.

(** A text after its length, the form of Text and Unknown. *)
Definition length_prefixed (s : list byte) : list byte := le 4 (len s) ++ s.
Definition Text_Serialize (s : list byte) : list byte := length_prefixed s.
Definition Number_Serialize (bits : Z) : list byte := le 8 bits.
Definition Time_Serialize (t : Timestamp) (precision : byte) : list byte :=
  le 8 (UnixMicro t) ++ [precision].

(** [[]byte(code)[:3]]: a shorter code is filled by the zeros of the buffer the
    conversion fills. *)
Definition currency_bytes (code : list byte) : list byte := take 3 (code ++ replicate 3 Byte.x00).

Definition Money_Serialize (amount : Z) (code : list byte) : list byte :=
  le 8 amount ++ currency_bytes code.
Definition Picture_Serialize (w h : Z) (data : list byte) : list byte := le 4 w ++ le 4 h ++ data.
Definition Reference_Serialize (id : Z) : list byte := le 8 id.
Definition Unknown_Serialize (reason : list byte) : list byte := length_prefixed reason.
Definition Boolean_Serialize (x : bool) : list byte := [if x then Byte.x01 else Byte.x00].

(** A nested value: tag, length, data. *)
Definition tagged (tag : byte) (data : list byte) : list byte := tag :: le 4 (len data) ++ data.

(** [Serialize] of the value that [CreateValue] makes. *)
Fixpoint Serialize (v : any) : list byte :=
  match v with
  | Text s | GoString s => Text_Serialize s
  | Number bits | GoFloat64 bits => Number_Serialize bits
  | GoInt n => Number_Serialize (float_of_int n)
  | Time t precision => Time_Serialize t precision
  | Money amount code => Money_Serialize amount code
  | Picture w h data => Picture_Serialize w h data
  | Reference id => Reference_Serialize id
  | Unknown reason => Unknown_Serialize reason
  | Boolean x | GoBool x => Boolean_Serialize x
  | List elements =>
      le 4 (len elements) ++
      concat (map (λ e, if is_ok (CreateValue e) then tagged (TypeTag e) (Serialize e) else [])
        elements)
  | Record fields =>
      le 4 (len fields) ++
      concat (map (λ '(key, e),
        if is_ok (CreateValue e) then
          let keyData := Text_Serialize key in
          le 4 (len keyData) ++ keyData ++ tagged (TypeTag e) (Serialize e)
        else []) fields)
  | Nothing | Anything | GoNil | GoSlice _ | GoMap _ | GoOther _ | GoObject _ _ _ => []
  end.

Record SerializedValue := mkSerialized { sv_tag : byte; sv_data : list byte }.
Definition ToSerializedValue (v : any) : SerializedValue := mkSerialized (TypeTag v) (Serialize v).

(** [SerializeValue]: slices, maps and nil too, and JSON for the rest. *)
Definition SerializeValue (v : any) : list byte :=
  match v with
  | GoSlice elements => Serialize (List elements)
  | GoMap fields => Serialize (Record fields)
  | GoNil => Serialize Nothing
  | GoOther (Ok data) | GoObject _ _ (Ok data) => data
  | GoOther (Err e) | GoOther (Panic e) | GoObject _ _ (Err e) | GoObject _ _ (Panic e) => Serialize (Unknown (b "serialization error: " ++ b e))
  | _ => Serialize v
  end.

(** ** Reading *)

(** A text after its length: the sum of 4 and the length is taken in 32 bits. *)
Definition read_prefixed (short truncated invalid : string) (data : list byte) : res (list byte) :=
  if len data <? 4 then Err short else
  let length := unle (take 4 data) in
  let stop := u32 (4 + length) in
  if len data <? stop then Err truncated else
  if stop <? 4 then Panic "slice bounds out of range" else
  let text := take (Z.to_nat (stop - 4)) (drop 4 data) in
  if Valid text then Ok text else Err invalid.

Definition DeserializeText (data : list byte) : res any :=
  Text <$> read_prefixed "text data too short" "text data truncated" "invalid UTF-8 in text data" data.
Definition DeserializeNumber (data : list byte) : res any :=
  if negb (len data =? 8) then Err "number data must be 8 bytes" else Ok (Number (unle data)).
Definition DeserializeTime (data : list byte) : res any :=
  if negb (len data =? 9) then Err "time data must be 9 bytes" else
  let micros := i64 (unle (take 8 data)) in
  let precision := default Byte.x00 (data !! 8%nat) in
  if (byte.unsigned precision <? 1) || (7 <? byte.unsigned precision)
  then Err "invalid time precision"
  else Ok (Time (of_micro micros) precision).
Definition DeserializeMoney (data : list byte) : res any :=
  if negb (len data =? 11) then Err "money data must be 11 bytes" else
  Ok (Money (unle (take 8 data)) (drop 8 data)).
Definition DeserializePicture (data : list byte) : res any :=
  if len data <? 8 then Err "picture data too short" else
  Ok (Picture (unle (take 4 data)) (unle (take 4 (drop 4 data))) (drop 8 data)).
Definition DeserializeReference (data : list byte) : res any :=
  if negb (len data =? 8) then Err "reference data must be 8 bytes" else Ok (Reference (unle data)).
Definition DeserializeNothing (data : list byte) : res any :=
  if negb (len data =? 0) then Err "nothing data must be empty" else Ok Nothing.
Definition DeserializeUnknown (data : list byte) : res any :=
  Unknown <$> read_prefixed "unknown data too short" "unknown data truncated"
    "invalid UTF-8 in unknown reason" data.
Definition DeserializeAnything (data : list byte) : res any :=
  if negb (len data =? 0) then Err "anything data must be empty" else Ok Anything.
Definition DeserializeBoolean (data : list byte) : res any :=
  match data with
  | [x] => Ok (Boolean (negb (bool_decide (x = Byte.x00))))
  | _ => Err "boolean data must be 1 byte"
  end.

Section nested.
Context (deserialize : byte → list byte → res any).

(** A tagged value at the front of the rest of the data. *)
Definition read_tagged (short truncated failed : string) (r : list byte) : res (any * list byte) :=
  if len r <? 5 then Err short else
  let tag := default Byte.x00 (head r) in
  let length := unle (take 4 (drop 1 r)) in
  if len r - 5 <? length then Err truncated else
  v ← wrap_res failed (deserialize tag (take (Z.to_nat length) (drop 5 r)));
  Ok (v, drop (5 + Z.to_nat length) r).

(** The elements while [count] are due and data is left. *)
Fixpoint read_elements (fuel : nat) (count : Z) (r : list byte) : res (list any) :=
  match fuel with
  | O => Ok []
  | S fuel =>
      if (count =? 0) || (len r =? 0) then Ok [] else
      '(v, r) ← read_tagged "list element data truncated" "list element data truncated"
        "failed to deserialize list element" r;
      vs ← read_elements fuel (count - 1) r;
      Ok (v :: vs)
  end.

Definition DeserializeList (data : list byte) : res any :=
  if len data <? 4 then Err "list data too short" else
  List <$> read_elements (length data) (unle (take 4 data)) (drop 4 data).

(** [fields[key] = value]. *)
Fixpoint set_field {A} (key : list byte) (v : A) (fields : list (list byte * A)) :
  list (list byte * A) :=
  match fields with
  | (k, w) :: fields => if bool_decide (k = key) then (k, v) :: fields else (k, w) :: set_field key v fields
  | [] => [(key, v)]
  end.

Definition read_field (r : list byte) : res (list byte * any * list byte) :=
  if len r <? 4 then Err "record field data truncated" else
  let keyLength := unle (take 4 r) in
  if len r - 4 <? keyLength then Err "record field key truncated" else
  keyText ← wrap_res "failed to deserialize record key"
    (read_prefixed "text data too short" "text data truncated" "invalid UTF-8 in text data"
      (take (Z.to_nat keyLength) (drop 4 r)));
  '(v, r) ← read_tagged "record field value truncated" "record field value data truncated"
    "failed to deserialize record value" (drop (4 + Z.to_nat keyLength) r);
  Ok (keyText, v, r).

Fixpoint read_fields (fuel : nat) (count : Z) (r : list byte) (fields : list (list byte * any)) :
  res (list (list byte * any)) :=
  match fuel with
  | O => Ok fields
  | S fuel =>
      if (count =? 0) || (len r =? 0) then Ok fields else
      '(key, v, r) ← read_field r;
      read_fields fuel (count - 1) r (set_field key v fields)
  end.

Definition DeserializeRecord (data : list byte) : res any :=
  if len data <? 4 then Err "record data too short" else
  Record <$> read_fields (length data) (unle (take 4 data)) (drop 4 data) [].
End nested.

(** Nested data is shorter: its length is fuel enough. *)
Fixpoint deserialize_value (fuel : nat) (tag : byte) (data : list byte) : res any :=
  match fuel with
  | O => Err "unreachable"
  | S fuel =>
      if bool_decide (tag = TypeText) then DeserializeText data
      else if bool_decide (tag = TypeNumber) then DeserializeNumber data
      else if bool_decide (tag = TypeTime) then DeserializeTime data
      else if bool_decide (tag = TypeMoney) then DeserializeMoney data
      else if bool_decide (tag = TypePicture) then DeserializePicture data
      else if bool_decide (tag = TypeReference) then DeserializeReference data
      else if bool_decide (tag = TypeNothing) then DeserializeNothing data
      else if bool_decide (tag = TypeUnknown) then DeserializeUnknown data
      else if bool_decide (tag = TypeAnything) then DeserializeAnything data
      else if bool_decide (tag = TypeBoolean) then DeserializeBoolean data
      else if bool_decide (tag = TypeList) then DeserializeList (deserialize_value fuel) data
      else if bool_decide (tag = TypeRecord) then DeserializeRecord (deserialize_value fuel) data
      else Err "unknown type tag"
  end.
Definition DeserializeValue (v : SerializedValue) : res any :=
  deserialize_value (S (length (sv_data v))) (sv_tag v) (sv_data v).

(** ** What can be stored, and what is read back *)

(** Sizes that fit 32 bits, numbers that fit their width, valid UTF-8, keys once. *)
Definition text_ok (s : list byte) : bool := Valid s && (len s <? 2 ^ 32 - 4).

Fixpoint storable (v : any) : bool :=
  match v with
  | Text s | GoString s | Unknown s => text_ok s
  | Number bits | GoFloat64 bits => bool_decide (is_u64 bits)
  | GoInt n => bool_decide (is_u64 (float_of_int n))
  | Time _ precision => between 1 7 (byte.unsigned precision)
  | Money amount _ => bool_decide (is_u64 amount)
  | Picture w h _ => bool_decide (is_u32 w) && bool_decide (is_u32 h)
  | Reference id => bool_decide (is_u64 id)
  | Nothing | Anything | Boolean _ | GoBool _ => true
  | List elements =>
      (len elements <? 2 ^ 32) &&
      forallb (λ e, implb (is_ok (CreateValue e)) (storable e && (len (Serialize e) <? 2 ^ 32))) elements
  | Record fields =>
      (len fields <? 2 ^ 32) && bool_decide (NoDup fields.*1) &&
      forallb (λ '(key, e), implb (is_ok (CreateValue e))
        (text_ok key && (len key + 4 <? 2 ^ 32) && storable e && (len (Serialize e) <? 2 ^ 32))) fields
  | GoNil | GoSlice _ | GoMap _ | GoOther _ | GoObject _ _ _ => false
  end.

(** The value read back: microseconds in UTC, three bytes of currency, MBL values
    for Go ones, without the elements that [CreateValue] refuses. *)
Fixpoint stored (v : any) : any :=
  match v with
  | GoString s => Text s
  | GoFloat64 bits => Number bits
  | GoInt n => Number (float_of_int n)
  | GoBool x => Boolean x
  | Time t precision => Time (of_micro (UnixMicro t)) precision
  | Money amount code => Money amount (currency_bytes code)
  | List elements =>
      List (concat (map (λ e, if is_ok (CreateValue e) then [stored e] else []) elements))
  | Record fields =>
      Record (concat (map (λ '(key, e), if is_ok (CreateValue e) then [(key, stored e)] else []) fields))
  | _ => v
  end.

(** Induction on nested values. *)
Lemma any_nested_ind (P : any → Prop) :
  (∀ v, match v with List _ | Record _ => True | _ => P v end) →
  (∀ es, Forall P es → P (List es)) → (∀ fs, Forall (λ f, P f.2) fs → P (Record fs)) →
  ∀ v, P v.
Proof.
  intros Hleaf Hlist Hrecord. fix IH 1. intros v. pose proof (Hleaf v) as Hv.
  destruct v; try exact Hv.
  - apply Hlist. induction elements as [|e es IHes]; constructor; [apply IH|done].
  - apply Hrecord. induction fields as [|[k e] fs IHfs]; constructor; [apply IH|done].
Qed.

(** ** Lemmas: reading what was written *)

Lemma len_currency code : length (currency_bytes code) = 3%nat.
Proof. unfold currency_bytes. rewrite length_take, length_app, length_replicate. lia. Qed.

Lemma read_prefixed_ok s short truncated invalid : text_ok s = true →
  read_prefixed short truncated invalid (length_prefixed s) = Ok s.
Proof.
  unfold text_ok. rewrite andb_true_iff. intros [Hv Hl%Z.ltb_lt]. pose proof (len_nonneg s).
  unfold read_prefixed, length_prefixed. autorewrite with len.
  rewrite (proj2 (Z.ltb_ge _ _)) by lia.
  rewrite take_le_app, drop_le_app, unle_le_small by lia. cbv zeta.
  rewrite u32_small by (unfold is_u32; lia).
  rewrite !(proj2 (Z.ltb_ge _ _)) by lia.
  rewrite take_ge by (unfold len in *; lia). by rewrite Hv.
Qed.

Lemma length_tagged tag data : length (tagged tag data) = (5 + length data)%nat.
Proof. unfold tagged. cbn. by rewrite length_app, length_le. Qed.

Lemma read_tagged_ok deserialize short truncated failed tag data v rest :
  len data < 2 ^ 32 → deserialize tag data = Ok v →
  read_tagged deserialize short truncated failed (tagged tag data ++ rest) = Ok (v, rest).
Proof.
  intros Hl Hd. unfold read_tagged, tagged. pose proof (len_nonneg data). pose proof (len_nonneg rest).
  cbn [app head default]. rewrite <- (assoc_L (++)). autorewrite with len.
  rewrite (proj2 (Z.ltb_ge _ _)) by lia.
  change (drop 1 (tag :: ?u)) with u. change (drop 5 (tag :: ?u)) with (drop 4 u).
  change (drop (5 + ?n) (tag :: ?u)) with (drop (4 + n) u).
  rewrite take_le_app, drop_le_app, drop_le_app_add, unle_le_small by lia. cbv zeta.
  rewrite (proj2 (Z.ltb_ge _ _)) by lia.
  unfold len. rewrite Nat2Z.id, take_app_len, drop_app_len, ?Hd. unfold id. by rewrite Hd.
Qed.

Section read.
Context (deserialize : byte → list byte → res any) (encode : any → list byte) (decoded : any → any).

(** Lists of values that each read back read back. *)
Lemma read_elements_ok fuel count es :
  Forall (λ e, is_ok (CreateValue e) = true →
    len (encode e) < 2 ^ 32 ∧ deserialize (TypeTag e) (encode e) = Ok (decoded e)) es →
  let data := concat (map (λ e, if is_ok (CreateValue e) then tagged (TypeTag e) (encode e) else []) es) in
  (length data ≤ fuel)%nat → len es ≤ count →
  read_elements deserialize fuel count data =
    Ok (concat (map (λ e, if is_ok (CreateValue e) then [decoded e] else []) es)).
Proof.
  intros Hall. revert fuel count. induction Hall as [|e es He _ IH]; intros fuel count data Hf Hc.
  { destruct fuel; cbn; [done|]. by rewrite orb_true_r. }
  rewrite len_cons in Hc. pose proof (len_nonneg es). unfold data in *. cbn [map concat] in *.
  destruct (is_ok (CreateValue e)); [|apply IH; [done|lia]].
  destruct (He eq_refl) as [Hlen Hd].
  destruct fuel as [|fuel]; [rewrite length_app, length_tagged in Hf; lia|]. cbn [read_elements].
  rewrite (proj2 (Z.eqb_neq count 0)) by lia.
  rewrite (proj2 (Z.eqb_neq (len _) 0)).
  2: { unfold tagged. autorewrite with len. pose proof (len_nonneg (encode e)).
       match goal with |- context [len (concat ?x)] => pose proof (len_nonneg (concat x)) end. lia. }
  cbn [orb]. erewrite read_tagged_ok by done. ress.
  rewrite IH; [done| |lia]. rewrite length_app, length_tagged in Hf. lia.
Qed.

Lemma set_field_new key (v : any) fields : key ∉ fields.*1 → set_field key v fields = fields ++ [(key, v)].
Proof.
  induction fields as [|[k w] fields IH]; [done|]. cbn. intros [Hk Hf]%not_elem_of_cons.
  rewrite bool_decide_false by congruence. by rewrite IH.
Qed.

Lemma read_field_ok key e v rest : text_ok key = true → len key + 4 < 2 ^ 32 →
  len (encode e) < 2 ^ 32 → deserialize (TypeTag e) (encode e) = Ok v →
  read_field deserialize (le 4 (len (Text_Serialize key)) ++ Text_Serialize key ++
    tagged (TypeTag e) (encode e) ++ rest) = Ok (key, v, rest).
Proof.
  intros Hk Hkl Hl Hd. unfold read_field. pose proof (len_nonneg key).
  assert (Hpl : len (Text_Serialize key) = len key + 4) by (unfold Text_Serialize, length_prefixed; autorewrite with len; lia).
  set (kd := Text_Serialize key) in *. set (td := tagged (TypeTag e) (encode e)) in *.
  pose proof (len_nonneg td). pose proof (len_nonneg rest). autorewrite with len.
  rewrite (proj2 (Z.ltb_ge _ _)) by lia.
  rewrite take_le_app, drop_le_app, drop_le_app_add, unle_le_small by lia. cbv zeta.
  rewrite (proj2 (Z.ltb_ge _ _)) by lia.
  unfold len at 1 2. rewrite Nat2Z.id, take_app_len, drop_app_len.
  unfold kd, Text_Serialize. rewrite read_prefixed_ok by done. ress. unfold td. by erewrite read_tagged_ok.
Qed.

Lemma read_fields_ok fuel count fs done :
  NoDup (done.*1 ++ fs.*1) →
  Forall (λ f, is_ok (CreateValue f.2) = true → text_ok f.1 = true ∧ len f.1 + 4 < 2 ^ 32 ∧
    len (encode f.2) < 2 ^ 32 ∧ deserialize (TypeTag f.2) (encode f.2) = Ok (decoded f.2)) fs →
  let data := concat (map (λ '(key, e), if is_ok (CreateValue e) then
      le 4 (len (Text_Serialize key)) ++ Text_Serialize key ++ tagged (TypeTag e) (encode e) else []) fs) in
  (length data ≤ fuel)%nat → len fs ≤ count →
  read_fields deserialize fuel count data done =
    Ok (done ++ concat (map (λ '(key, e), if is_ok (CreateValue e) then [(key, decoded e)] else []) fs)).
Proof.
  intros Hnd Hall. revert fuel count done Hnd.
  induction Hall as [|[key e] fs He _ IH]; intros fuel count done Hnd data Hf Hc.
  { rewrite app_nil_r. destruct fuel; cbn; [reflexivity|]. by rewrite orb_true_r. }
  rewrite len_cons in Hc. pose proof (len_nonneg fs). unfold data in *. cbn [map concat fst snd] in *.
  cbn [fmap list_fmap fst] in Hnd.
  destruct (is_ok (CreateValue e)).
  2: { apply IH; [|done|lia]. rewrite NoDup_app in *. rewrite NoDup_cons in Hnd. set_solver. }
  destruct (He eq_refl) as (Hk & Hkl & Hlen & Hd).
  destruct fuel as [|fuel]; [rewrite !length_app, length_le in Hf; lia|].
  cbn [read_fields]. rewrite (proj2 (Z.eqb_neq count 0)) by lia.
  rewrite <- !(assoc_L (++)) in *.
  rewrite (proj2 (Z.eqb_neq (len _) 0)).
  2: { autorewrite with len. repeat match goal with |- context [len ?x] =>
         lazymatch goal with H : 0 ≤ len x |- _ => fail | _ => pose proof (len_nonneg x) end end. lia. }
  cbn [orb]. erewrite read_field_ok by done. ress.
  rewrite set_field_new, IH.
  - cbn [app]. by rewrite <- (assoc_L (++)).
  - by rewrite fmap_app, <- (assoc_L (++)).
  - rewrite !length_app, length_le in Hf. lia.
  - lia.
  - rewrite NoDup_app in Hnd. intros Hin. destruct Hnd as (_ & Hdis & _). apply (Hdis key Hin). set_solver.
Qed.
End read.

Lemma concat_length_in {A B} (f : A → list B) x l : x ∈ l → (length (f x) ≤ length (concat (map f l)))%nat.
Proof.
  induction 1 as [x l|x y l _ IH]; cbn; rewrite length_app; lia.
Qed.

Lemma deserialize_serialize_value v : storable v = true → ∀ fuel, (length (Serialize v) < fuel)%nat →
  deserialize_value fuel (TypeTag v) (Serialize v) = Ok (stored v).
Proof.
  pattern v. revert v. apply any_nested_ind; [intros v|intros es IH|intros fs IH]; cbv beta.
  - destruct v; try done; intros Hs [|fuel] Hf; try lia; cbn [deserialize_value TypeTag Serialize stored];
      unfold Text_Serialize, Number_Serialize, Time_Serialize, Money_Serialize, Picture_Serialize,
        Reference_Serialize, Unknown_Serialize, Boolean_Serialize;
      cbn [bool_decide decide]; cbv [TypeText TypeNumber TypeTime TypeMoney TypePicture TypeReference
        TypeBoolean TypeList TypeRecord TypeNothing TypeUnknown TypeAnything]; cbn [storable] in Hs;
      rewrite ?(bool_decide_false (_ = _)) by done; rewrite ?bool_decide_true by done;
      rewrite ?bool_decide_eq_true in Hs.
    + unfold DeserializeText. by rewrite read_prefixed_ok.
    + unfold DeserializeNumber. autorewrite with len. cbn. by rewrite unle_le_small.
    + unfold DeserializeTime. autorewrite with len. cbn [Z.eqb negb].
      rewrite take_le_app, unle_le. change (Z.of_nat 8 * 8) with 64.
      rewrite lookup_app_r, length_le by by rewrite length_le. cbn [Nat.sub lookup list_lookup].
      unfold between in Hs. apply andb_true_iff in Hs as [H1%Z.leb_le H2%Z.leb_le].
      change (8 + (1 + 0) =? 9) with true. cbn [negb default from_option id].
      rewrite (proj2 (Z.ltb_ge _ _)), (proj2 (Z.ltb_ge 7 _)) by (unfold id; lia). cbn [orb].
      unfold UnixMicro. fold (u64 (i64 (unix_nano timestamp / 1000))).
      rewrite i64_u64 by apply i64_range. done.
    + unfold DeserializeMoney. unfold len. rewrite length_app, len_currency, length_le. cbn [Z.eqb negb].
      rewrite take_le_app, drop_le_app, unle_le_small by done. done.
    + unfold DeserializePicture. apply andb_true_iff in Hs as [Hw Hh].
      rewrite !bool_decide_eq_true in Hw, Hh. autorewrite with len. pose proof (len_nonneg data).
      rewrite (proj2 (Z.ltb_ge _ _)) by lia.
      change 8%nat with (4 + 4)%nat. rewrite drop_le_app_add, take_le_app, !drop_le_app, take_le_app.
      by rewrite !unle_le_small.
    + unfold DeserializeReference. autorewrite with len. cbn. by rewrite unle_le_small.
    + done.
    + unfold DeserializeUnknown. by rewrite read_prefixed_ok.
    + done.
    + by destruct value.
    + unfold DeserializeText. by rewrite read_prefixed_ok.
    + unfold DeserializeNumber. autorewrite with len. cbn. by rewrite unle_le_small.
    + unfold DeserializeNumber. autorewrite with len. cbn [Z.eqb negb]. by rewrite unle_le_small.
    + by destruct value.
  - cbn [storable]. rewrite andb_true_iff, forallb_forall. intros [Hl%Z.ltb_lt Hall] [|fuel] Hf; [lia|].
    change (deserialize_value (S fuel) (TypeTag (List es)) (Serialize (List es)))
      with (DeserializeList (deserialize_value fuel) (Serialize (List es))).
    cbn [Serialize stored] in *. unfold DeserializeList. pose proof (len_nonneg es).
    set (f := λ e, if is_ok (CreateValue e) then tagged (TypeTag e) (Serialize e) else []) in *.
    autorewrite with len. pose proof (len_nonneg (concat (map f es))).
    rewrite (proj2 (Z.ltb_ge _ _)) by lia. rewrite take_le_app, drop_le_app, unle_le_small by lia.
    rewrite length_app, length_le in *.
    rewrite (read_elements_ok _ Serialize stored); [done| |fold f; lia|lia].
    apply Forall_forall. intros e He Hok. rewrite Forall_forall in IH.
    pose proof (Hall e (proj1 (list_elem_of_In _ _) He)) as Hst. rewrite Hok in Hst.
    apply andb_true_iff in Hst as [Hst Hlen%Z.ltb_lt]. split; [done|].
    apply IH; [done..|]. pose proof (concat_length_in f e es He) as Hin. unfold f in Hin at 1.
    rewrite Hok, length_tagged in Hin. lia.
  - cbn [storable]. rewrite !andb_true_iff, forallb_forall. intros [[Hl%Z.ltb_lt Hnd] Hall] [|fuel] Hf; [lia|].
    apply bool_decide_eq_true in Hnd.
    change (deserialize_value (S fuel) (TypeTag (Record fs)) (Serialize (Record fs)))
      with (DeserializeRecord (deserialize_value fuel) (Serialize (Record fs))).
    cbn [Serialize stored] in *. unfold DeserializeRecord. pose proof (len_nonneg fs).
    set (f := λ '(key, e), if is_ok (CreateValue e) then _ else _) in *.
    autorewrite with len. pose proof (len_nonneg (concat (map f fs))).
    rewrite (proj2 (Z.ltb_ge _ _)) by lia. rewrite take_le_app, drop_le_app, unle_le_small by lia.
    rewrite length_app, length_le in *.
    rewrite (read_fields_ok _ Serialize stored); [done|done| |fold f; lia|lia].
    apply Forall_forall. intros [key e] He Hok. cbn [fst snd] in *. rewrite Forall_forall in IH.
    pose proof (Hall _ (proj1 (list_elem_of_In _ _) He)) as Hst. cbv beta iota in Hst. rewrite Hok in Hst.
    cbn [implb] in Hst. rewrite !andb_true_iff in Hst.
    destruct Hst as [[[Hk Hkl%Z.ltb_lt] Hst] Hlen%Z.ltb_lt].
    split_and!; [done..|]. apply (IH _ He); [done|].
    pose proof (concat_length_in f _ fs He) as Hin. unfold f in Hin at 1.
    rewrite Hok, !length_app, length_tagged in Hin. cbn [snd]. lia.
Qed.

(** Reading a text panics exactly when 4 and its length pass 32 bits. *)
Lemma read_prefixed_panic short truncated invalid data :
  (∃ msg, read_prefixed short truncated invalid data = Panic msg) ↔
  4 ≤ len data ∧ 2 ^ 32 - 4 ≤ unle (take 4 data).
Proof.
  unfold read_prefixed. destruct (Z.ltb_spec (len data) 4) as [|Hlen].
  { split; [by intros [? ?]|lia]. }
  pose proof (unle_bound (take 4 data)) as Hb. rewrite len_take in Hb.
  rewrite Z.min_l in Hb by lia. change (2 ^ (8 * Z.of_nat 4)) with (2 ^ 32) in Hb.
  set (n := unle (take 4 data)) in *. cbv zeta. unfold u32.
  destruct (Z.lt_ge_cases n (2 ^ 32 - 4)).
  - rewrite Z.mod_small by lia. split; [|lia].
    intros [msg Hp]. destruct (_ <? _); [done|]. rewrite (proj2 (Z.ltb_ge _ _)) in Hp by lia.
    by destruct (Valid _).
  - replace ((4 + n) mod 2 ^ 32) with (4 + n - 2 ^ 32)
      by (rewrite <- (Z.mod_small (4 + n - 2 ^ 32) (2 ^ 32)) by lia;
          rewrite <- (Z_mod_plus_full _ 1); f_equal; lia).
    split; [done|]. intros _. rewrite (proj2 (Z.ltb_ge _ _)), (proj2 (Z.ltb_lt _ _)) by lia. by eexists.
Qed.

(** ** Properties *)

(** C29: a value that can be stored is read back from its tag and its bytes, as the
    same value to the precision of the format: times in microseconds, three
    bytes of currency, lists and records at any depth. *)
Theorem value_roundtrip v : storable v = true →
  DeserializeValue (ToSerializedValue v) = Ok (stored v).
Proof. intros Hv. apply deserialize_serialize_value; [done|]. cbn. lia. Qed.

Lemma value_roundtrip_witness :
  let t := Date 2026 1 15 12 30 0 123456789 in
  let v := Record [(b "when", Time t PrecisionSubsecond);
                   (b "pair", List [GoInt 7; GoNil; Text (b "x"); Money (float_of_int 5) (b "EUR")])] in
  DeserializeValue (ToSerializedValue v) =
    Ok (Record [(b "when", Time (Date 2026 1 15 12 30 0 123456000) PrecisionSubsecond);
                (b "pair", List [Number (float_of_int 7); Text (b "x"); Money (float_of_int 5) (b "EUR")])]).
Proof. intros t v. apply (value_roundtrip v). vm_compute. reflexivity. Defined.

(** C34: reading the bytes of a Text or an Unknown is an error or a value unless the
    length they claim is within 4 of 2^32: then, and only then, it panics,
    whatever follows. *)
Theorem text_length_wraps data :
  let panics r := ∃ msg, r = Panic msg in
  (panics (DeserializeValue (mkSerialized TypeText data)) ↔
    4 ≤ len data ∧ 2 ^ 32 - 4 ≤ unle (take 4 data)) ∧
  (panics (DeserializeValue (mkSerialized TypeUnknown data)) ↔
    4 ≤ len data ∧ 2 ^ 32 - 4 ≤ unle (take 4 data)).
Proof.
  intros panics.
  assert (H : ∀ (f : list byte → any) short truncated invalid,
    panics (f <$> read_prefixed short truncated invalid data) ↔
    4 ≤ len data ∧ 2 ^ 32 - 4 ≤ unle (take 4 data)).
  { intros f short truncated invalid. rewrite <- (read_prefixed_panic short truncated invalid data).
    unfold panics. destruct (read_prefixed _ _ _ _); cbn; naive_solver. }
  split; apply H.
Qed.

(** A record has as many binary forms as its entries have orders. *)
Example record_bytes_depend_on_order :
  let fields := [(b "a", Number (float_of_int 1)); (b "b", Number (float_of_int 2))] in
  Serialize (Record fields) ≠ Serialize (Record (rev fields)).
Proof. by vm_compute. Qed.
