(* ===== verification/MblCompare.v ===== *)
(** * Comparison of MBL values (internal/types/compare.go)

    Ordering and equality of values.  Texts compare byte by byte, numbers as
    float64, times by the period their precision covers.  Records are compared
    in the order an iteration over the left one takes. *)
From S2P Require Import Prelude Utf8 GoTime GoFloat MblValue.

Inductive ComparisonResult := ComparisonLess | ComparisonEqual | ComparisonGreater | ComparisonInvalid.
#[global] Instance ComparisonResult_eq_dec : EqDecision ComparisonResult.
Proof. solve_decision. Defined.

Definition ComparisonResult_String (r : ComparisonResult) : list byte :=
  match r with
  | ComparisonLess => b "less" | ComparisonEqual => b "equal"
  | ComparisonGreater => b "greater" | ComparisonInvalid => b "invalid"
  end.

(** [if l < r ... else if l > r ... else equal]. *)
Definition by_order (less greater : bool) : ComparisonResult :=
  if less then ComparisonLess else if greater then ComparisonGreater else ComparisonEqual.

(** Go's [<] on strings. *)
Fixpoint bytes_lt (s t : list byte) : bool :=
  match s, t with
  | _, [] => false
  | [], _ => true
  | x :: s, y :: t =>
      if byte.unsigned x <? byte.unsigned y then true
      else if byte.unsigned y <? byte.unsigned x then false else bytes_lt s t
  end.

Definition compareTexts (left right : list byte) : ComparisonResult :=
  by_order (bytes_lt left right) (bytes_lt right left).
Definition compareNumbers (left right : Z) : ComparisonResult :=
  if IsNaN left || IsNaN right then ComparisonInvalid
  else by_order (flt left right) (fgt left right).
Definition compareMoneys (left right : Z * list byte) : ComparisonResult :=
  if negb (bool_decide (left.2 = right.2)) then ComparisonInvalid
  else by_order (flt left.1 right.1) (fgt left.1 right.1).
Definition compareReferences (left right : Z) : ComparisonResult :=
  by_order (left <? right) (right <? left).
Definition compareUnknowns (left right : list byte) : ComparisonResult :=
  by_order (bytes_lt left right) (bytes_lt right left).
Definition compareBooleans (left right : bool) : ComparisonResult :=
  if bool_decide (left = right) then ComparisonEqual
  else if negb left && right then ComparisonLess else ComparisonGreater.

(** ** Times *)

Definition hour_ns : Z := 3600 * second.
Definition minute_ns : Z := 60 * second.

(** The period a time covers. *)
Definition getTimeRange (t : Timestamp) (precision : byte) : Timestamp * Timestamp :=
  let until next := Add next (-1) in
  if bool_decide (precision = PrecisionYear) then
    (Date (Year t) 1 1 0 0 0 0, until (Date (Year t + 1) 1 1 0 0 0 0))
  else if bool_decide (precision = PrecisionMonth) then
    let start := Date (Year t) (Month t) 1 0 0 0 0 in (start, until (AddDate start 0 1 0))
  else if bool_decide (precision = PrecisionDay) then
    let start := Date (Year t) (Month t) (Day t) 0 0 0 0 in (start, until (AddDate start 0 0 1))
  else if bool_decide (precision = PrecisionHour) then
    let start := Date (Year t) (Month t) (Day t) (Hour t) 0 0 0 in (start, until (Add start hour_ns))
  else if bool_decide (precision = PrecisionMinute) then
    let start := Date (Year t) (Month t) (Day t) (Hour t) (Minute t) 0 0 in
    (start, until (Add start minute_ns))
  else if bool_decide (precision = PrecisionSecond) then
    let start := Date (Year t) (Month t) (Day t) (Hour t) (Minute t) (Second t) 0 in
    (start, until (Add start second))
  else if bool_decide (precision = PrecisionSubsecond) then (t, t)
  else (zero_time, zero_time).
Definition TimeRange := getTimeRange.

Definition precision_lt (p q : byte) : bool := byte.unsigned p <? byte.unsigned q.

(** The more precise time, then the less precise one. *)
Definition order_precision (left right : Timestamp * byte) : (Timestamp * byte) * (Timestamp * byte) :=
  if precision_lt right.2 left.2 then (left, right) else (right, left).

Definition compareTimes (left right : Timestamp * byte) : ComparisonResult :=
  if bool_decide (left.2 = right.2) then by_order (Before left.1 right.1) (After left.1 right.1)
  else
    let '(more, less) := order_precision left right in
    let '(rangeStart, rangeEnd) := getTimeRange less.1 less.2 in
    let result := by_order (Before more.1 rangeStart) (After more.1 rangeEnd) in
    if precision_lt left.2 right.2 then
      match result with
      | ComparisonLess => ComparisonGreater
      | ComparisonGreater => ComparisonLess
      | r => r
      end
    else result.

Definition timeEquals (left right : Timestamp * byte) : bool :=
  if bool_decide (left.2 = right.2) then SameInstant left.1 right.1
  else
    let '(more, less) := order_precision left right in
    let '(rangeStart, rangeEnd) := getTimeRange less.1 less.2 in
    negb (Before more.1 rangeStart) && negb (After more.1 rangeEnd).

(** ** All values *)

Fixpoint field_lookup {A} (key : list byte) (fields : list (list byte * A)) : option A :=
  match fields with
  | (k, v) :: fields => if bool_decide (k = key) then Some v else field_lookup key fields
  | [] => None
  end.

Fixpoint Compare (left right : any) : ComparisonResult :=
  match left, right with
  | Text l, Text r => compareTexts l r
  | Number l, Number r => compareNumbers l r
  | Time l p, Time r q => compareTimes (l, p) (r, q)
  | Money l c, Money r d => compareMoneys (l, c) (r, d)
  | Reference l, Reference r => compareReferences l r
  | Nothing, Nothing | Anything, Anything => ComparisonEqual
  | Unknown l, Unknown r => compareUnknowns l r
  | Boolean l, Boolean r => compareBooleans l r
  | List ls, List rs =>
      (fix compareLists ls rs :=
        match ls, rs with
        | [], [] => ComparisonEqual
        | [], _ => ComparisonLess
        | _, [] => ComparisonGreater
        | l :: ls, r :: rs =>
            match Compare l r with ComparisonEqual => compareLists ls rs | c => c end
        end) ls rs
  | Record ls, Record rs =>
      if len ls <? len rs then ComparisonLess
      else if len rs <? len ls then ComparisonGreater
      else (fix compareRecords ls :=
        match ls with
        | [] => ComparisonEqual
        | (key, l) :: ls =>
            match field_lookup key rs with
            | None => ComparisonInvalid
            | Some r => match Compare l r with ComparisonEqual => compareRecords ls | c => c end
            end
        end) ls
  | _, _ => ComparisonInvalid
  end.

Definition is_result (r c : ComparisonResult) : bool := bool_decide (r = c).

Definition Equal (left right : any) : bool :=
  match left, right with
  | Time l p, Time r q => timeEquals (l, p) (r, q)
  | _, _ => is_result (Compare left right) ComparisonEqual
  end.
Definition Less (left right : any) : bool := is_result (Compare left right) ComparisonLess.
Definition Greater (left right : any) : bool := is_result (Compare left right) ComparisonGreater.
Definition LessEqual (left right : any) : bool :=
  is_result (Compare left right) ComparisonLess || is_result (Compare left right) ComparisonEqual.
Definition GreaterEqual (left right : any) : bool :=
  is_result (Compare left right) ComparisonGreater || is_result (Compare left right) ComparisonEqual.

(** ** Lemmas: swapping the sides *)

Definition swapped (r : ComparisonResult) : ComparisonResult :=
  match r with
  | ComparisonLess => ComparisonGreater | ComparisonGreater => ComparisonLess | r => r
  end.

Lemma by_order_swap less greater : (less = true → greater = false) →
  by_order greater less = swapped (by_order less greater).
Proof. destruct less, greater; intros H; try done. by specialize (H eq_refl). Qed.

Lemma bytes_lt_asym s t : bytes_lt s t = true → bytes_lt t s = false.
Proof.
  revert t. induction s as [|x s IH]; intros [|y t]; try done. cbn.
  destruct (Z.ltb_spec (byte.unsigned x) (byte.unsigned y)), (Z.ltb_spec (byte.unsigned y) (byte.unsigned x));
    try done; lia || apply IH.
Qed.

Lemma bytes_lt_total s t : bytes_lt s t = false → bytes_lt t s = false → s = t.
Proof.
  revert t. induction s as [|x s IH]; intros [|y t]; try done. cbn.
  destruct (Z.ltb_spec (byte.unsigned x) (byte.unsigned y)), (Z.ltb_spec (byte.unsigned y) (byte.unsigned x));
    try done. intros H1 H2. f_equal; [|by apply IH].
  rewrite <- (byte.of_Z_unsigned x), <- (byte.of_Z_unsigned y). f_equal. lia.
Qed.

Lemma by_order_float_swap l r : by_order (flt r l) (fgt r l) = swapped (by_order (flt l r) (fgt l r)).
Proof.
  rewrite (flt_swap r l), <- (flt_swap l r).
  apply by_order_swap. unfold flt, fgt. by destruct (fcompare l r) as [[]|].
Qed.

Lemma compareNumbers_swap l r : compareNumbers r l = swapped (compareNumbers l r).
Proof.
  unfold compareNumbers. rewrite (orb_comm (IsNaN r)). destruct (_ || _); [done|].
  apply by_order_float_swap.
Qed.
Lemma compareMoneys_swap l r : compareMoneys r l = swapped (compareMoneys l r).
Proof.
  unfold compareMoneys. rewrite (bool_decide_ext (r.2 = l.2) (l.2 = r.2)) by done.
  destruct (negb _); [done|]. apply by_order_float_swap.
Qed.
Lemma compareTexts_swap l r : compareTexts r l = swapped (compareTexts l r).
Proof. apply by_order_swap, bytes_lt_asym. Qed.
Lemma compareReferences_swap l r : compareReferences r l = swapped (compareReferences l r).
Proof. apply by_order_swap. lia. Qed.

Lemma swapped_swapped r : swapped (swapped r) = r.
Proof. by destruct r. Qed.

Lemma order_precision_swap l r : l.2 ≠ r.2 → order_precision r l = order_precision l r.
Proof.
  intros Hne. unfold order_precision, precision_lt.
  destruct (Z.ltb_spec (byte.unsigned l.2) (byte.unsigned r.2)),
    (Z.ltb_spec (byte.unsigned r.2) (byte.unsigned l.2)); try done; try lia.
  exfalso. apply Hne. rewrite <- (byte.of_Z_unsigned l.2), <- (byte.of_Z_unsigned r.2). f_equal. lia.
Qed.

Lemma compareTimes_swap l r : compareTimes r l = swapped (compareTimes l r).
Proof.
  unfold compareTimes. rewrite (bool_decide_ext (r.2 = l.2) (l.2 = r.2)) by done.
  destruct (bool_decide (l.2 = r.2)) eqn:E.
  - unfold Before, After. apply by_order_swap. lia.
  - apply bool_decide_eq_false in E. rewrite (order_precision_swap l r) by done.
    destruct (order_precision l r) as [more less]. destruct (getTimeRange less.1 less.2) as [s e].
    assert (Hp : precision_lt r.2 l.2 = negb (precision_lt l.2 r.2)).
    { unfold precision_lt.
      destruct (Z.ltb_spec (byte.unsigned l.2) (byte.unsigned r.2)),
        (Z.ltb_spec (byte.unsigned r.2) (byte.unsigned l.2)); try done; try lia.
      exfalso. apply E. rewrite <- (byte.of_Z_unsigned l.2), <- (byte.of_Z_unsigned r.2). f_equal. lia. }
    rewrite Hp. by destruct (precision_lt l.2 r.2), (by_order _ _).
Qed.

(** Values without records, whose comparison no iteration order can change. *)
Fixpoint record_free (v : any) : bool :=
  match v with
  | Record _ => false
  | List es => forallb record_free es
  | _ => true
  end.

Lemma Compare_swap l r : record_free l = true → Compare r l = swapped (Compare l r).
Proof.
  revert r. pattern l. revert l. apply any_nested_ind; [intros l|intros ls IH|intros ls _]; cbv beta.
  - destruct l; try done; intros [] Hf; try done; cbn [Compare].
    + apply compareTexts_swap.
    + apply compareNumbers_swap.
    + apply compareTimes_swap.
    + apply compareMoneys_swap.
    + apply compareReferences_swap.
    + apply compareTexts_swap.
    + by destruct value, value0.
  - intros [] Hf; try done. cbn [record_free] in Hf. cbn [Compare]. revert elements Hf.
    induction IH as [|l ls Hl _ IHls]; intros [|r rs] Hf; try done.
    cbn [forallb] in Hf. apply andb_true_iff in Hf as [Hfl Hfs].
    rewrite (Hl r Hfl). destruct (Compare l r); cbn [swapped]; try done. by apply IHls.
  - done.
Qed.

Lemma timeEquals_compare l r :
  timeEquals l r = is_result (compareTimes l r) ComparisonEqual.
Proof.
  unfold timeEquals, compareTimes, SameInstant, Before, After, by_order.
  destruct (bool_decide (l.2 = r.2)).
  - destruct (Z.eqb_spec (unix_nano l.1) (unix_nano r.1)),
      (Z.ltb_spec (unix_nano l.1) (unix_nano r.1)), (Z.ltb_spec (unix_nano r.1) (unix_nano l.1));
      try done; lia.
  - destruct (order_precision l r) as [more less]. destruct (getTimeRange less.1 less.2) as [s e].
    by destruct (unix_nano more.1 <? unix_nano s), (unix_nano e <? unix_nano more.1), (precision_lt l.2 r.2).
Qed.

(** ** Lemmas: the period of a time *)

Definition in_range (u : Timestamp) (range : Timestamp * Timestamp) : Prop :=
  unix_nano range.1 ≤ unix_nano u ≤ unix_nano range.2.

(** A range of [n] whole seconds of UTC from second [a]. *)
Definition covers (range : Timestamp * Timestamp) (a n : Z) : Prop :=
  unix_nano range.1 = (a - unix_epoch_day * day_seconds) * second ∧
  unix_nano range.2 = (a + n - unix_epoch_day * day_seconds) * second - 1.

Lemma in_covers range a n u : covers range a n → zone u = 0 →
  in_range u range ↔ a ≤ local_seconds u < a + n.
Proof.
  intros [E1 E2] Hu. unfold in_range. rewrite E1, E2, (local_seconds_utc u Hu).
  pose proof (within_seconds (unix_nano u) (a - unix_epoch_day * day_seconds) n). lia.
Qed.

(** From a date on, to another or for some seconds. *)
Lemma covers_dates y m d y' m' d' :
  covers (Date y m d 0 0 0 0, Add (Date y' m' d' 0 0 0 0) (-1)) (days_of y m d * day_seconds)
    ((days_of y' m' d' - days_of y m d) * day_seconds).
Proof. unfold covers. cbn [fst snd Add unix_nano]. rewrite !unix_nano_Date. lia. Qed.
Lemma covers_add y m d h mi s n :
  covers (Date y m d h mi s 0, Add (Add (Date y m d h mi s 0) (n * second)) (-1))
    (days_of y m d * day_seconds + h * 3600 + mi * 60 + s) n.
Proof. unfold covers. cbn [fst snd Add unix_nano]. rewrite !unix_nano_Date. lia. Qed.

Lemma AddDate_midnight y m d y' m' d' : valid_date y m d →
  AddDate (Date y m d 0 0 0 0) y' m' d' = Date (y + y') (m + m') (d + d') 0 0 0 0.
Proof.
  intros Hd. destruct (Date_fields y m d 0 0 0 0 Hd) as (F1 & F2 & F3 & F4 & F5); [done|].
  unfold AddDate, Year, Month, Day. by rewrite F1, F2, F3, F4, F5.
Qed.

Lemma DateOf_fields t : DateOf t = (Year t, Month t, Day t).
Proof. unfold Year, Month, Day. by destruct (DateOf t) as [[] ?]. Qed.

Lemma days_of_time t : days_of (Year t) (Month t) (Day t) = local_seconds t / day_seconds.
Proof. unfold Year, Month, Day, DateOf. apply (days_of_civil _). Qed.

(** The period of each precision is the interval of times with the same fields. *)
Section period.
Context (t u : Timestamp) (Hu : zone u = 0) (Hv : valid_date (Year t) (Month t) (Day t)).

Lemma in_year : in_range u (getTimeRange t PrecisionYear) ↔ Year u = Year t.
Proof.
  etrans; [apply (in_covers _ _ _ u (covers_dates _ _ _ _ _ _) Hu)|].
  etrans; [|apply (civil_in_year (Year t) (local_seconds u / day_seconds))]. unfold day_seconds. divlia.
Qed.

Lemma in_month : in_range u (getTimeRange t PrecisionMonth) ↔ Year u = Year t ∧ Month u = Month t.
Proof.
  destruct Hv as [Hm Hd].
  change (getTimeRange t PrecisionMonth) with
    (let s := Date (Year t) (Month t) 1 0 0 0 0 in (s, Add (AddDate s 0 1 0) (-1))). cbv zeta.
  rewrite AddDate_midnight by (split; [done|lia]). rewrite !Z.add_0_r.
  etrans; [apply (in_covers _ _ _ u (covers_dates _ _ _ _ _ _) Hu)|].
  pose proof (civil_in_month (Year t) (Month t) (local_seconds u / day_seconds) Hm) as H.
  change (civil (local_seconds u / day_seconds)) with (DateOf u) in H. rewrite DateOf_fields in H. cbn [fst] in H.
  rewrite pair_eq in H. etrans; [|exact H]. unfold day_seconds. divlia.
Qed.

Lemma in_day : in_range u (getTimeRange t PrecisionDay) ↔ DateOf u = DateOf t.
Proof.
  change (getTimeRange t PrecisionDay) with
    (let s := Date (Year t) (Month t) (Day t) 0 0 0 0 in (s, Add (AddDate s 0 0 1) (-1))). cbv zeta.
  rewrite AddDate_midnight by done. rewrite !Z.add_0_r.
  etrans; [apply (in_covers _ _ _ u (covers_dates _ _ _ _ _ _) Hu)|].
  rewrite (same_day u t). replace (days_of (Year t) (Month t) (Day t + 1)) with
    (days_of (Year t) (Month t) (Day t) + 1) by (unfold days_of; lia).
  rewrite days_of_time. unfold day_seconds. divlia.
Qed.

Lemma in_hour : in_range u (getTimeRange t PrecisionHour) ↔ DateOf u = DateOf t ∧ Hour u = Hour t.
Proof.
  etrans; [apply (in_covers _ _ _ u (covers_add _ _ _ _ _ _ 3600) Hu)|].
  rewrite days_of_time, (same_hour u t). unfold Hour, day_seconds. divlia.
Qed.

Lemma in_minute : in_range u (getTimeRange t PrecisionMinute) ↔
  DateOf u = DateOf t ∧ Hour u = Hour t ∧ Minute u = Minute t.
Proof.
  etrans; [apply (in_covers _ _ _ u (covers_add _ _ _ _ _ _ 60) Hu)|].
  rewrite days_of_time, (same_minute u t). unfold Hour, Minute, day_seconds. divlia.
Qed.

Lemma in_second : in_range u (getTimeRange t PrecisionSecond) ↔
  DateOf u = DateOf t ∧ Hour u = Hour t ∧ Minute u = Minute t ∧ Second u = Second t.
Proof.
  etrans; [apply (in_covers _ _ _ u (covers_add _ _ _ _ _ _ 1) Hu)|].
  rewrite days_of_time, (same_second u t). unfold Hour, Minute, Second, day_seconds. divlia.
Qed.
End period.

Lemma in_getTimeRange t u p : zone t = 0 → zone u = 0 → 1 ≤ byte.unsigned p ≤ 6 →
  in_range u (getTimeRange t p) ↔
  fields_to (Z.to_nat (byte.unsigned p)) u = fields_to (Z.to_nat (byte.unsigned p)) t.
Proof.
  intros Ht Hu Hp. destruct (Date_of_fields t Ht) as (Hv & _).
  assert (p = PrecisionYear ∨ p = PrecisionMonth ∨ p = PrecisionDay ∨ p = PrecisionHour ∨
    p = PrecisionMinute ∨ p = PrecisionSecond) as H.
  { destruct p; cbn in Hp; try lia; tauto. }
  destruct H as [->|[->|[->|[->|[->| ->]]]]];
    [rewrite in_year by done; change (fields_to _ ?x) with [Year x]
    |rewrite in_month by done; change (fields_to _ ?x) with [Year x; Month x]
    |rewrite in_day by done; change (fields_to _ ?x) with [Year x; Month x; Day x]
    |rewrite in_hour by done; change (fields_to _ ?x) with [Year x; Month x; Day x; Hour x]
    |rewrite in_minute by done; change (fields_to _ ?x) with [Year x; Month x; Day x; Hour x; Minute x]
    |rewrite in_second by done;
     change (fields_to _ ?x) with [Year x; Month x; Day x; Hour x; Minute x; Second x]];
    rewrite ?DateOf_fields; naive_solver congruence.
Qed.

(** ** Properties *)





(** The period of a time is taken in its own zone but placed in UTC: with an
    offset a time to the second is not within its own second. *)
Example offset_time_outside_its_second :
  let t := mkTimestamp (unix_nano (Date 2026 1 15 12 0 0 0)) 7200 in
  timeEquals (t, PrecisionSecond) (t, PrecisionSubsecond) = false.
Proof. by vm_compute. Qed.

(** An amount that is no number equals every amount; a number that is none equals none. *)
Example nan_amounts_equal :
  Equal (Money nan_bits (b "EUR")) (Money (float_of_int 5) (b "EUR")) = true ∧
  Equal (Number nan_bits) (Number nan_bits) = false.
Proof. by vm_compute. Qed.

(** Which of two records is less depends on the order of iteration. *)
Example record_order_by_iteration :
  let x := (b "a", Number (float_of_int 1)) in let y := (b "b", Number (float_of_int 2)) in
  let right := Record [(b "a", Number (float_of_int 2)); (b "b", Number (float_of_int 1))] in
  Compare (Record [x; y]) right = ComparisonLess ∧ Compare (Record [y; x]) right = ComparisonGreater.
Proof. by vm_compute. Qed.
