(* ===== verification/MblCoerce.v ===== *)
(** * Coercion and arithmetic of MBL values (internal/types/coerce.go)

    Numbers from texts, texts from any value, the arithmetic operators, truth,
    and the literals of times.  The shortest decimal form of a float64, its
    reading and powers are functions of the Go library, variables here. *)
From S2P Require Import Prelude Utf8 GoTime GoTimeFormat GoFloat MblValue MblCompare.

Record CoercionResult := mkCoercion { cr_value : any; cr_ok : bool }.

(** ** Time literals *)

(** A layout from its elements and the texts before them. *)
Definition ymd : layout := [([], LongYear); (b "-", ZeroMonth); (b "-", ZeroDay)].
Definition clock (sep : string) : layout :=
  [(b sep, HourElement); (b ":", ZeroMinute); (b ":", ZeroSecond)].

Definition timeLayouts : list (layout * byte) :=
  [ ([([], LongYear)], PrecisionYear);
    ([([], LongYear); (b "-", ZeroMonth)], PrecisionMonth);
    (ymd, PrecisionDay);
    (ymd ++ [(b " ", HourElement)], PrecisionHour);
    (ymd ++ [(b " ", HourElement); (b ":", ZeroMinute)], PrecisionMinute);
    (ymd ++ clock " ", PrecisionSecond);
    (ymd ++ clock " " ++ [([], FracSecond 6)], PrecisionSubsecond);
    (ymd ++ clock "T", PrecisionSecond);
    (ymd ++ clock "T" ++ [([], ColonTZ)], PrecisionSecond) ].

(** The first layout that reads the text. *)
Fixpoint parse_layouts (layouts : list (layout * byte)) (s : list byte) : res (Timestamp * byte) :=
  match layouts with
  | [] => Err "cannot parse time"
  | (l, precision) :: layouts =>
      match ParseInLocation l s with
      | None => parse_layouts layouts s
      | Some parsed =>
          Ok (parsed, if bool_decide (precision = PrecisionSecond) && contains s (b ".")
                      then PrecisionSubsecond else precision)
      end
  end.
Definition ParseTimeLiteral (s : list byte) : res (Timestamp * byte) :=
  parse_layouts timeLayouts (TrimPrefix s (b "@")).

Definition two (n : Z) : list byte := format_padded 2 n.

Definition formatTimeByPrecision (t : Timestamp) (precision : byte) : list byte :=
  let date := format_padded 4 (Year t) ++ b "-" ++ two (Month t) ++ b "-" ++ two (Day t) in
  if bool_decide (precision = PrecisionYear) then format_padded 4 (Year t)
  else if bool_decide (precision = PrecisionMonth) then format_padded 4 (Year t) ++ b "-" ++ two (Month t)
  else if bool_decide (precision = PrecisionDay) then date
  else if bool_decide (precision = PrecisionHour) then date ++ b " " ++ two (Hour t) ++ b ":00"
  else if bool_decide (precision = PrecisionMinute)
  then date ++ b " " ++ two (Hour t) ++ b ":" ++ two (Minute t)
  else if bool_decide (precision = PrecisionSecond)
  then date ++ b " " ++ two (Hour t) ++ b ":" ++ two (Minute t) ++ b ":" ++ two (Second t)
  else format_micro t.

(** ** Coercion *)

Section coerce.
Context (ParseFloat : list byte → option Z) (FormatFloat : Z → list byte)
  (FormatFixed2 : Z → list byte) (Pow : Z → Z → Z)
  (type_name : any → list byte) (format_v : any → list byte).

Definition CoerceToNumber (v : any) : CoercionResult :=
  match v with
  | Number bits => mkCoercion (Number bits) true
  | Text s =>
      match ParseFloat s with
      | Some bits => mkCoercion (Number bits) true
      | None => mkCoercion (Unknown (b "cannot convert text to number: " ++ s)) false
      end
  | Money amount _ => mkCoercion (Number amount) true
  | Time t _ => mkCoercion (Number (float_of_int (Unix t))) true
  | _ => mkCoercion (Unknown (b "cannot coerce " ++ type_name v ++ b " to number")) false
  end.

(** The text of a value; coercion to text never fails. *)
Fixpoint to_text (v : any) : list byte :=
  match v with
  | Text s => s
  | Number bits => FormatFloat bits
  | Money amount code => FormatFixed2 amount ++ b " " ++ code
  | Time t precision => formatTimeByPrecision t precision
  | Reference id => b "@" ++ format_int id
  | Nothing => []
  | Unknown reason => b "Unknown: " ++ reason
  | Anything => b "Anything"
  | List elements => b "[" ++ Join (map to_text elements) (b ", ") ++ b "]"
  | Record fields =>
      b "{" ++ Join (map (λ '(key, e), key ++ b ": " ++ to_text e) fields) (b ", ") ++ b "}"
  | Boolean x | GoBool x => if x then b "true" else b "false"
  | Picture w h _ => b "Picture(" ++ format_int w ++ b "x" ++ format_int h ++ b ")"
  | GoString s => s
  | GoInt n => format_int n
  | GoFloat64 _ | GoNil | GoSlice _ | GoMap _ | GoOther _ | GoObject _ _ _ => format_v v
  end.
Definition CoerceToText (v : any) : CoercionResult := mkCoercion (Text (to_text v)) true.

(** ** Arithmetic *)

(** An operator on the numbers of its operands: an Unknown operand is the result,
    the left one first; then an operand that is no number gives its reason.  The last
    case is a type assertion that holds. *)
Definition arithmetic (op : Z → Z → any) (left right : any) : any :=
  match left, right with
  | Unknown reason, _ => Unknown reason
  | _, Unknown reason => Unknown reason
  | _, _ =>
      let leftNum := CoerceToNumber left in
      let rightNum := CoerceToNumber right in
      if negb (cr_ok leftNum) then cr_value leftNum
      else if negb (cr_ok rightNum) then cr_value rightNum
      else match cr_value leftNum, cr_value rightNum with
      | Number l, Number r => op l r
      | _, _ => Nothing
      end
  end.

Definition Add : any → any → any := arithmetic (λ l r, Number (fadd l r)).
Definition Subtract : any → any → any := arithmetic (λ l r, Number (fsub l r)).
Definition Multiply : any → any → any := arithmetic (λ l r, Number (fmul l r)).
Definition Power : any → any → any := arithmetic (λ l r,
  let result := Pow l r in
  if IsInf result || IsNaN result then Unknown (b "exponentiation result out of range")
  else Number result).
Definition Divide : any → any → any := arithmetic (λ l r,
  if feq r 0 then Unknown (b "division by zero") else Number (fdiv l r)).
Definition Modulo : any → any → any := arithmetic (λ l r,
  if feq r 0 then Unknown (b "modulo by zero") else Number (Mod l r)).

Definition Concatenate (left right : any) : any :=
  let leftText := CoerceToText left in
  let rightText := CoerceToText right in
  if negb (cr_ok leftText) then cr_value leftText
  else if negb (cr_ok rightText) then cr_value rightText
  else match cr_value leftText, cr_value rightText with
  | Text l, Text r => Text (l ++ r)
  | _, _ => Nothing
  end.
End coerce.

(** ** Truth *)

Definition isTruthy (v : any) : bool :=
  match v with
  | Number bits => negb (feq bits 0)
  | Text s => negb (bool_decide (s = []))
  | Boolean x => x
  | Nothing | Unknown _ => false
  | Time t _ => negb (SameInstant t zero_time) && negb (Unix t =? 0)
  | List elements => negb (len elements =? 0)
  | Record fields => negb (len fields =? 0)
  | _ => true
  end.
Definition LogicalAnd (left right : any) : bool := isTruthy left && isTruthy right.
Definition LogicalOr (left right : any) : bool := isTruthy left || isTruthy right.
Definition LogicalNot (v : any) : bool := negb (isTruthy v).

(** ** Lemmas: the literals of times *)

(** The text of a time down to the seconds, and its fields. *)
Definition date_text (y m d : Z) : list byte :=
  fixed_digits 4 y ++ b "-" ++ fixed_digits 2 m ++ b "-" ++ fixed_digits 2 d.

Ltac parse_steps :=
  repeat first [rewrite parse_year by lia | rewrite parse_month by lia | rewrite parse_day by lia
               |rewrite parse_hour by lia | rewrite parse_minute by lia];
  first [by rewrite parse_left by done | by rewrite parse_year_end by lia
        |by rewrite parse_month_end by lia | by rewrite parse_day_end by lia
        |by rewrite parse_minute_end by lia | by rewrite parse_second by lia
        |by rewrite parse_second_fraction by lia].
Lemma ParseInLocation_left l s : parse_layout l s no_fields = None → ParseInLocation l s = None.
Proof. unfold ParseInLocation. by intros ->. Qed.

Lemma ParseInLocation_ok l s y m d h mi sec ns :
  parse_layout l s no_fields = Some (mkParsed y m d h mi sec ns 0) →
  valid_date y (if m <? 0 then 1 else m) (if d <? 0 then 1 else d) →
  ParseInLocation l s = Some (Date y (if m <? 0 then 1 else m) (if d <? 0 then 1 else d) h mi sec ns).
Proof.
  intros E [Hm Hd]. unfold ParseInLocation. rewrite E. cbn [mbind option_bind p_year p_month p_day p_hour
    p_min p_sec p_nsec p_zone].
  rewrite !(proj2 (Z.ltb_ge _ _)) by lia. cbn [orb]. f_equal.
  unfold Date. cbn [unix_nano]. f_equal. lia.
Qed.

Ltac layout_fails := rewrite ParseInLocation_left by parse_steps.
Ltac layout_reads := erewrite ParseInLocation_ok; [|parse_steps|];
  cbn [p_year p_month p_day p_hour p_min p_sec p_nsec p_zone].

Lemma digits_not_at n w s : (1 ≤ w)%nat → TrimPrefix (fixed_digits w n ++ s) (b "@") = fixed_digits w n ++ s.
Proof.
  intros Hw. destruct w as [|w]; [lia|]. rewrite fixed_digits_cons. unfold TrimPrefix, starts_with.
  cbn [app length b take]. rewrite bool_decide_false; [done|].
  intros [= E]. pose proof (proj1 (digit_facts (n / 10 ^ Z.of_nat w))) as H. by rewrite E in H.
Qed.

Lemma days_in_bound m y : 1 ≤ m ≤ 12 → 28 ≤ days_in m y ≤ 31.
Proof.
  intros Hm. pose (P := λ m, bool_decide (∀ l : bool, 28 ≤ days_before_month l (m + 1) - days_before_month l m ≤ 31)).
  assert (H : P m = true) by (apply (by_range P 1 12); [by vm_compute|lia]).
  apply bool_decide_eq_true in H. apply H.
Qed.

Lemma contains_byte s x : contains s [x] = true ↔ x ∈ s.
Proof.
  unfold contains. rewrite existsb_exists. split.
  - intros (i & _ & H). unfold starts_with in H. apply bool_decide_eq_true in H.
    cbn [length] in H. rewrite <- (take_drop i s), elem_of_app. right.
    destruct (drop i s) as [|y u]; [done|]. injection H as ->. by left.
  - intros (i & Hi)%list_elem_of_lookup_1. exists i. split.
    + apply in_seq. apply lookup_lt_Some in Hi. lia.
    + unfold starts_with. rewrite (drop_S _ _ _ Hi). cbn. by apply bool_decide_eq_true.
Qed.

Lemma period_not_in_digits w n : Byte.x2e ∉ fixed_digits w n.
Proof.
  revert n. induction w as [|w IH]; intros n; cbn; [apply not_elem_of_nil|].
  rewrite elem_of_app, list_elem_of_singleton. intros [H|H]; [by eapply IH|].
  destruct (digit_facts n) as (_ & _ & _ & _ & Hd). congruence.
Qed.

Lemma no_period s : Byte.x2e ∉ s → contains s (b ".") = false.
Proof. intros H. apply not_true_is_false. change (b ".") with [Byte.x2e]. by rewrite contains_byte. Qed.
Lemma has_period s : Byte.x2e ∈ s → contains s (b ".") = true.
Proof. change (b ".") with [Byte.x2e]. by rewrite contains_byte. Qed.

Section literal.
Context (t : Timestamp) (Hz : zone t = 0) (Hy : 0 ≤ Year t < 10000).

Lemma time_fields : valid_date (Year t) (Month t) (Day t) ∧ 1 ≤ Month t ≤ 12 ∧ 1 ≤ Day t < 100 ∧
  0 ≤ Hour t < 24 ∧ 0 ≤ Minute t < 60 ∧ 0 ≤ Second t < 60 ∧ 0 ≤ Nanosecond t / 1000 < 10 ^ 6.
Proof.
  destruct (Date_of_fields t Hz) as (Hv & (Hh & Hmi & Hs & Hns) & _). pose proof Hv as [Hm Hd].
  pose proof (days_in_bound (Month t) (Year t) Hm). unfold second in Hns.
  split_and!; try lia; try done; [apply Z.div_pos; lia|apply Z.div_lt_upper_bound; lia].
Qed.

Lemma format_fixed p : 1 ≤ byte.unsigned p ≤ 7 →
  let y := fixed_digits 4 (Year t) in let m := b "-" ++ fixed_digits 2 (Month t) in
  let d := b "-" ++ fixed_digits 2 (Day t) in let h := b " " ++ fixed_digits 2 (Hour t) in
  let mi := b ":" ++ fixed_digits 2 (Minute t) in let s := b ":" ++ fixed_digits 2 (Second t) in
  formatTimeByPrecision t p =
    if bool_decide (p = PrecisionYear) then y
    else if bool_decide (p = PrecisionMonth) then y ++ m
    else if bool_decide (p = PrecisionDay) then y ++ m ++ d
    else if bool_decide (p = PrecisionHour) then y ++ m ++ d ++ h ++ b ":" ++ fixed_digits 2 0
    else if bool_decide (p = PrecisionMinute) then y ++ m ++ d ++ h ++ mi
    else if bool_decide (p = PrecisionSecond) then y ++ m ++ d ++ h ++ mi ++ s
    else y ++ m ++ d ++ h ++ mi ++ s ++ b "." ++ fixed_digits 6 (Nanosecond t / 1000).
Proof.
  intros Hp. destruct time_fields as (_ & Hm & Hd & Hh & Hmi & Hs & Hns). cbv zeta.
  unfold formatTimeByPrecision, format_micro, two.
  rewrite (proj2 (Z.ltb_ge _ _)) by lia.
  rewrite zero_pad_decimal by lia. rewrite !format_padded_fixed by lia.
  change (fixed_digits 2 0) with (b "00"). change (b ":00") with (b ":" ++ b "00").
  by repeat case_bool_decide; rewrite <- ?(assoc_L (++)).
Qed.
End literal.

(** The start of the period a time covers, microseconds for the finest. *)
Definition literal_value (t : Timestamp) (p : byte) : Timestamp :=
  if bool_decide (p = PrecisionSubsecond) then of_micro (unix_nano t / 1000)
  else (getTimeRange t p).1.

Lemma micro_cut k ns : k * second + ns / 1000 * 1000 = (k * second + ns) / 1000 * 1000.
Proof.
  assert (E : k * second = k * 1000000 * 1000) by (unfold second; lia).
  rewrite E, Z.div_add_l by done. lia.
Qed.

Lemma Date_split y m d h mi s : ∃ k, ∀ ns, Date y m d h mi s ns = mkTimestamp (k * second + ns) 0.
Proof. by eexists. Qed.

Lemma micro_of_fields t : zone t = 0 →
  Date (Year t) (Month t) (Day t) (Hour t) (Minute t) (Second t) (Nanosecond t / 1000 * 1000) =
  of_micro (unix_nano t / 1000).
Proof.
  intros Hz. destruct (Date_of_fields t Hz) as (_ & _ & E).
  destruct (Date_split (Year t) (Month t) (Day t) (Hour t) (Minute t) (Second t)) as [k Hk].
  rewrite Hk in E |- *. rewrite micro_cut. unfold of_micro. rewrite <- E at 2. reflexivity.
Qed.

Lemma parse_formatted t p : zone t = 0 → 0 ≤ Year t < 10000 → 1 ≤ byte.unsigned p ≤ 7 →
  parse_layouts timeLayouts (formatTimeByPrecision t p) =
  Ok (literal_value t p, if bool_decide (p = PrecisionHour) then PrecisionMinute else p).
Proof.
  intros Hz Hy Hp. destruct (time_fields t Hz) as (Hv & Hm & Hd & Hh & Hmi & Hs & Hns).
  assert (Hv1 : valid_date (Year t) (Month t) 1) by (split; [done|pose proof (days_in_bound (Month t) (Year t) Hm); lia]).
  assert (Hvy : valid_date (Year t) 1 1) by (split; [lia|pose proof (days_in_bound 1 (Year t)); lia]).
  assert (Hm0 : (Month t <? 0) = false) by lia. assert (Hd0 : (Day t <? 0) = false) by lia.
  rewrite format_fixed by done.
  assert (p = PrecisionYear ∨ p = PrecisionMonth ∨ p = PrecisionDay ∨ p = PrecisionHour ∨
    p = PrecisionMinute ∨ p = PrecisionSecond ∨ p = PrecisionSubsecond) as H.
  { destruct p; cbn in Hp; try lia; tauto. }
  unfold timeLayouts, ymd, clock. cbn [parse_layouts app].
  destruct H as [->|[->|[->|[->|[->|[->| ->]]]]]];
    rewrite ?(bool_decide_false (_ = _)), ?bool_decide_true by done; rewrite <- ?(assoc_L (++)).
  - layout_reads; [reflexivity|done].
  - layout_fails. layout_reads; rewrite ?Hm0; [reflexivity|done].
  - do 2 layout_fails. layout_reads; rewrite ?Hm0, ?Hd0; [reflexivity|done].
  - do 4 layout_fails. layout_reads; rewrite ?Hm0, ?Hd0; [reflexivity|done].
  - do 4 layout_fails. layout_reads; rewrite ?Hm0, ?Hd0; [reflexivity|done].
  - do 5 layout_fails. layout_reads; rewrite ?Hm0, ?Hd0; [|done].
    rewrite no_period by (rewrite !not_elem_of_app; split_and!;
      first [apply period_not_in_digits | by apply (bool_decide_unpack _); vm_compute]).
    reflexivity.
  - do 5 layout_fails. layout_reads; rewrite ?Hm0, ?Hd0; [|done].
    rewrite has_period by (rewrite !elem_of_app; do 11 right; left; by left).
    rewrite ?bool_decide_true by done. cbn [andb p_nsec p_hour p_min p_year].
    unfold literal_value. rewrite bool_decide_true by done. by rewrite <- micro_of_fields.
Qed.

Lemma format_not_at t p : zone t = 0 → 0 ≤ Year t < 10000 → 1 ≤ byte.unsigned p ≤ 7 →
  TrimPrefix (formatTimeByPrecision t p) (b "@") = formatTimeByPrecision t p.
Proof.
  intros. rewrite format_fixed by done.
  repeat case_bool_decide; try (by apply digits_not_at; lia).
Qed.

(** ** Lemmas: arithmetic *)

Definition is_unknown (v : any) : bool := match v with Unknown _ => true | _ => false end.
Definition is_number (v : any) : bool := match v with Number _ => true | _ => false end.

Section arithmetic.
Context (ParseFloat : list byte → option Z) (type_name : any → list byte).

Lemma CoerceToNumber_cases v :
  (∃ bits, CoerceToNumber ParseFloat type_name v = mkCoercion (Number bits) true) ∨
  (∃ reason, CoerceToNumber ParseFloat type_name v = mkCoercion (Unknown reason) false).
Proof. destruct v; cbn; try case_match; eauto. Qed.

Lemma arithmetic_ok op : (∀ l r, is_number (op l r) || is_unknown (op l r) = true) → ∀ l r reason,
  let arith := arithmetic ParseFloat type_name op in
  (is_number (arith l r) || is_unknown (arith l r)) = true ∧
  arith (Unknown reason) r = Unknown reason ∧
  arith l (Unknown reason) = (if is_unknown l then l else Unknown reason) ∧
  implb (is_number (arith l r))
    (cr_ok (CoerceToNumber ParseFloat type_name l) && cr_ok (CoerceToNumber ParseFloat type_name r)) = true.
Proof.
  intros Hop l r reason arith.
  assert (Harith : (∃ s, arith l r = Unknown s) ∨
    ∃ x y, arith l r = op x y ∧ cr_ok (CoerceToNumber ParseFloat type_name l) = true ∧
      cr_ok (CoerceToNumber ParseFloat type_name r) = true).
  { assert (E : arith l r = if is_unknown l then l else if is_unknown r then r else
      let cl := CoerceToNumber ParseFloat type_name l in let cr := CoerceToNumber ParseFloat type_name r in
      if negb (cr_ok cl) then cr_value cl else if negb (cr_ok cr) then cr_value cr
      else match cr_value cl, cr_value cr with Number a, Number c => op a c | _, _ => Nothing end)
      by by destruct l; try done; destruct r.
    rewrite E. destruct (is_unknown l) eqn:Hl; [destruct l; eauto; done|].
    destruct (is_unknown r) eqn:Hr; [destruct r; eauto; done|].
    destruct (CoerceToNumber_cases l) as [[x ->]|[s ->]], (CoerceToNumber_cases r) as [[y ->]|[s' ->]];
      cbn; eauto 7. }
  split_and!; [|done|by destruct l|]; destruct Harith as [[s ->]|(x & y & -> & Hl & Hr)]; try done.
  rewrite Hl, Hr. by destruct (is_number _).
Qed.
End arithmetic.

(** ** Properties *)

(** C32: the text of a time in UTC, in the years 0 to 9999, read as a literal gives
    the start of the period the time covers with the same precision, so writing
    and reading lose nothing a time of that precision says - except that a time
    to the hour is written with its minutes and comes back to the minute. *)
Theorem time_literal_roundtrip t p : zone t = 0 → 0 ≤ Year t < 10000 → 1 ≤ byte.unsigned p ≤ 7 →
  ParseTimeLiteral (formatTimeByPrecision t p) =
  Ok (literal_value t p, if bool_decide (p = PrecisionHour) then PrecisionMinute else p).
Proof.
  intros. unfold ParseTimeLiteral. rewrite format_not_at by done. by apply parse_formatted.
Qed.

Lemma time_literal_roundtrip_witness :
  let t := Date 2024 2 29 23 59 58 123456789 in
  formatTimeByPrecision t PrecisionSubsecond = b "2024-02-29 23:59:58.123456" ∧
  ParseTimeLiteral (formatTimeByPrecision t PrecisionSubsecond) =
    Ok (Date 2024 2 29 23 59 58 123456000, PrecisionSubsecond).
Proof.
  intros t. split; [vm_compute; reflexivity|].
  assert (H : ParseTimeLiteral (formatTimeByPrecision t PrecisionSubsecond) =
    Ok (literal_value t PrecisionSubsecond, PrecisionSubsecond)).
  { apply (time_literal_roundtrip t PrecisionSubsecond);
      [reflexivity|vm_compute; split; [discriminate|reflexivity]|vm_compute; split; discriminate]. }
  rewrite H. vm_compute. reflexivity.
Defined.

(** C33: every arithmetic operator, on any two values, gives a number or an Unknown;
    an Unknown operand is the result, the left one when both are; and a number
    is the result only of operands that coerce to numbers. *)
Theorem arithmetic_results ParseFloat Pow type_name :
  Forall (λ op, ∀ l r reason,
      (is_number (op l r) || is_unknown (op l r)) = true ∧
      op (Unknown reason) r = Unknown reason ∧
      op l (Unknown reason) = (if is_unknown l then l else Unknown reason) ∧
      implb (is_number (op l r))
        (cr_ok (CoerceToNumber ParseFloat type_name l) && cr_ok (CoerceToNumber ParseFloat type_name r)) = true)
    [Add ParseFloat type_name; Subtract ParseFloat type_name; Multiply ParseFloat type_name;
     Power ParseFloat Pow type_name; Divide ParseFloat type_name; Modulo ParseFloat type_name].
Proof.
  repeat apply Forall_cons_2; try apply Forall_nil; try done; apply arithmetic_ok; intros; try done;
    cbv beta zeta; by case_match.
Qed.

(** A comma before the fraction is read too, but then the time is to the second. *)
Example comma_fraction :
  ParseTimeLiteral (b "@2026-01-15 12:00:00,5") = Ok (Date 2026 1 15 12 0 0 500000000, PrecisionSecond).
Proof. by vm_compute. Qed.
