(* ===== verification/MblPath.v ===== *)
(** * Paths and agent types (internal/types/path.go, internal/types/agent.go)

    Paths of the database and of other meshes, mesh names, and the conversion of
    a bridge path to the path of the agent that represents the mesh.  Case
    mapping beyond ASCII is a table of the Go library, a variable here. *)
From S2P Require Import Prelude Utf8.

(** ** Agent types *)

Inductive AgentType := NodeAgent | MobileAgent.
#[global] Instance AgentType_eq_dec : EqDecision AgentType.
Proof. solve_decision. Defined.

Definition AgentType_String (a : AgentType) : list byte :=
  match a with NodeAgent => b "node" | MobileAgent => b "mobile" end.
(** [UnmarshalJSON] of the string the JSON holds. *)
Definition UnmarshalJSON (s : list byte) : res AgentType :=
  if bool_decide (s = b "node") then Ok NodeAgent
  else if bool_decide (s = b "mobile") then Ok MobileAgent
  else Err "invalid agent type".
Definition IsValid (a : AgentType) : bool := bool_decide (a = NodeAgent) || bool_decide (a = MobileAgent).
Definition CanReplicate (a : AgentType) : bool := bool_decide (a = MobileAgent).
Definition RequiresMeshStorage (a : AgentType) : bool := bool_decide (a = MobileAgent).

(** ** Paths *)

Inductive PathType := LocalPath | BridgePath | WorldPath | InvalidPath.
#[global] Instance PathType_eq_dec : EqDecision PathType.
Proof. solve_decision. Defined.

Abbreviation path := (list (list byte)).

Record ParsedPath := mkParsedPath {
  pp_Type : PathType;
  OriginalPath : path;
  MeshName : list byte;
  pp_LocalPath : path;
  pp_Error : option string
}.

Definition lower_letter (x : byte) : bool := between 0x61 0x7A (byte.unsigned x).
Definition upper_letter (x : byte) : bool := between 0x41 0x5A (byte.unsigned x).
Definition decimal_digit (x : byte) : bool := between 0x30 0x39 (byte.unsigned x).
Definition alphanumeric (x : byte) : bool := lower_letter x || upper_letter x || decimal_digit x.

(** The regular expression of mesh names: at least two characters, letters and
    digits at the ends, hyphens and underscores within. *)
Definition mesh_name_regex (s : list byte) : bool :=
  (2 <=? length s)%nat &&
  alphanumeric (default Byte.x00 (head s)) && alphanumeric (default Byte.x00 (last s)) &&
  forallb (λ x, alphanumeric x || bool_decide (x = Byte.x5f) || bool_decide (x = Byte.x2d)) s.

Definition reserved_mesh_names : list (list byte) :=
  [ b "local"; b "localhost"; b "world"; b "global"; b "system"; b "admin"; b "root"; b "default";
    b "main"; b "primary"; b "secondary"; b "backup"; b "test"; b "testing"; b "dev";
    b "development"; b "prod"; b "production"; b "staging"; b "debug"; b "null"; b "undefined";
    b "unknown"; b "standalone" ].
Definition reserved_components : list (list byte) := [ []; b "."; b ".."; b "my"; b "world" ].

Definition isReservedComponent (component : list byte) : bool :=
  existsb (λ r, bool_decide (component = r)) reserved_components.

Section paths.
Context (ToLower ToUpper : list byte → list byte).

Definition isReservedMeshName (meshName : list byte) : bool :=
  existsb (λ r, bool_decide (ToLower meshName = r)) reserved_mesh_names.

Definition IsValidMeshName (meshName : list byte) : bool :=
  if bool_decide (meshName = []) then false
  else if (length meshName <? 2)%nat || (63 <? length meshName)%nat then false
  else if isReservedMeshName meshName then false
  else mesh_name_regex meshName.

Definition invalid_path (p : path) (error : string) : ParsedPath :=
  mkParsedPath InvalidPath p [] [] (Some error).

Definition parseBridgePath (p : path) : ParsedPath :=
  match p with
  | _ :: meshName :: localPath =>
      if negb (IsValidMeshName meshName) then invalid_path p "invalid mesh name in bridge path"
      else mkParsedPath BridgePath p meshName localPath None
  | _ => invalid_path p "bridge path too short"
  end.
Definition parseWorldPath (p : path) : ParsedPath := mkParsedPath WorldPath p [] p None.
Definition parseLocalPath (p : path) : ParsedPath :=
  if existsb isReservedComponent p then invalid_path p "path contains reserved component"
  else mkParsedPath LocalPath p [] p None.

Definition ParsePath (p : path) : ParsedPath :=
  match p with
  | [] => invalid_path p "empty path"
  | first :: _ =>
      if bool_decide (first = b "my") then parseBridgePath p
      else if bool_decide (first = b "world") then parseWorldPath p
      else parseLocalPath p
  end.

Definition ConvertBridgePathToAgentPath (p : path) (bridgeIdentityID : list byte) : res path :=
  let parsed := ParsePath p in
  if negb (bool_decide (pp_Type parsed = BridgePath)) then Err "not a bridge path" else
  match pp_Error parsed with
  | Some e => Err e
  | None => Ok ([b "world"; b "agent"; bridgeIdentityID] ++ pp_LocalPath parsed)
  end.
Definition GetMeshNameFromBridgePath (p : path) : res (list byte) :=
  let parsed := ParsePath p in
  if negb (bool_decide (pp_Type parsed = BridgePath)) then Err "not a bridge path" else
  match pp_Error parsed with
  | Some e => Err e
  | None => Ok (MeshName parsed)
  end.

Definition is_type (t : PathType) (p : path) : bool :=
  bool_decide (pp_Type (ParsePath p) = t) && bool_decide (pp_Error (ParsePath p) = None).
Definition IsBridgePath : path → bool := is_type BridgePath.
Definition IsLocalPath : path → bool := is_type LocalPath.
Definition IsWorldPath : path → bool := is_type WorldPath.
Definition ValidatePath (p : path) : option string := pp_Error (ParsePath p).

Definition hyphen_or_alphanumeric (x : byte) : bool := alphanumeric x || bool_decide (x = Byte.x2d).
Definition isAlphanumericWithHyphens (s : list byte) : bool := forallb hyphen_or_alphanumeric s.
Definition hex_digit_or_hyphen (x : byte) : bool :=
  decimal_digit x || between 0x61 0x66 (byte.unsigned x) || between 0x41 0x46 (byte.unsigned x) ||
  bool_decide (x = Byte.x2d).

Definition isLikelyIdentity (component : list byte) : bool :=
  if (length component <? 8)%nat then false else
  let hasHyphen := contains component (b "-") in
  let hasMixedCase := negb (bool_decide (ToLower component = component)) &&
                      negb (bool_decide (ToUpper component = component)) in
  let isHexLike := forallb hex_digit_or_hyphen component in
  (hasHyphen && isAlphanumericWithHyphens component) || isHexLike || hasMixedCase.

Fixpoint NormalizePath (p : path) : path :=
  match p with
  | [] => []
  | component :: p =>
      let component := TrimSpace component in
      if bool_decide (component = []) then NormalizePath p
      else (if isLikelyIdentity component then component else ToLower component) :: NormalizePath p
  end.

Definition FormatPath (p : path) : list byte := Join p (b ".").
Definition ParsePathString (s : list byte) : path :=
  if bool_decide (s = []) then [] else split_byte s Byte.x2e.

(** ** Lemmas *)

(** What a path is parsed to, in one place. *)
Lemma ParsePath_spec p :
  ParsePath p =
  match p with
  | [] => invalid_path [] "empty path"
  | first :: rest =>
      if bool_decide (first = b "my") then
        match rest with
        | mesh :: local =>
            if IsValidMeshName mesh then mkParsedPath BridgePath p mesh local None
            else invalid_path p "invalid mesh name in bridge path"
        | [] => invalid_path p "bridge path too short"
        end
      else if bool_decide (first = b "world") then mkParsedPath WorldPath p [] p None
      else if existsb isReservedComponent p then invalid_path p "path contains reserved component"
      else mkParsedPath LocalPath p [] p None
  end.
Proof.
  destruct p as [|first rest]; [done|]. unfold ParsePath, parseBridgePath, parseLocalPath.
  case_bool_decide; [|done]. destruct rest as [|mesh local]; [done|].
  by destruct (IsValidMeshName mesh).
Qed.

(** A path joined and split again, when no component holds a dot. *)
Lemma split_join (p : path) : p ≠ [] → Forall (λ c, Byte.x2e ∉ c) p →
  split_byte (Join p (b ".")) Byte.x2e = p.
Proof.
  assert (Hone : ∀ c rest, Byte.x2e ∉ c →
    split_byte (c ++ Byte.x2e :: rest) Byte.x2e = c :: split_byte rest Byte.x2e ∧
    split_byte c Byte.x2e = [c]).
  { intros c rest. induction c as [|x c IH]; intros Hc; [cbn; by rewrite bool_decide_true|].
    apply not_elem_of_cons in Hc as [Hx Hc]. destruct (IH Hc) as [E1 E2].
    cbn. rewrite E1, E2, bool_decide_false by congruence. done. }
  intros Hp Hall. induction Hall as [|c p Hc Hall IH]; [done|].
  destruct p as [|c' p]; [by apply (Hone c [])|].
  change (Join (c :: c' :: p) (b ".")) with (c ++ Byte.x2e :: Join (c' :: p) (b ".")).
  rewrite (proj1 (Hone c _ Hc)). by rewrite IH.
Qed.

(** The path of an agent is a world path, and the rest of a bridge path survives. *)
Lemma bridge_path_converts p id : IsBridgePath p = true →
  ∃ mesh local, p = b "my" :: mesh :: local ∧
    GetMeshNameFromBridgePath p = Ok mesh ∧ IsValidMeshName mesh = true ∧
    ConvertBridgePathToAgentPath p id = Ok (b "world" :: b "agent" :: id :: local) ∧
    IsWorldPath (b "world" :: b "agent" :: id :: local) = true.
Proof.
  unfold IsBridgePath, is_type. rewrite andb_true_iff, !bool_decide_eq_true. intros [Ht He].
  unfold GetMeshNameFromBridgePath, ConvertBridgePathToAgentPath. rewrite He, bool_decide_true by done.
  cbn [negb]. rewrite ParsePath_spec in *. destruct p as [|first rest]; [done|].
  case_bool_decide as Hmy; [subst|by repeat case_match].
  destruct rest as [|mesh local]; [done|]. destruct (IsValidMeshName mesh) eqn:Hm; [|done].
  by exists mesh, local.
Qed.
End paths.
