(* ===== verification/MblAst.v ===== *)
(** * The syntax tree of MBL (internal/mbl/parser/ast.go)

    Expressions and statements with the fields of the source's structs, and the
    [String] methods that print them.  A Go interface or pointer can be nil:
    [NilExpression] is a nil [Expression], [NilStatement] a nil [Statement], and
    [NilPointer] a nil pointer of a statement type inside a [Statement], which
    is not equal to nil; a pointer to a block or a string is an [option].
    Printing a nil panics.  The map [Dynamic] of a path is the list of its
    entries.  The field [Pairs] of a record literal repeats its [Fields] and
    is left out. *)
From S2P Require Import Prelude Utf8 GoTime MblTokens MblValue.

(** ** Nodes *)

Inductive Expression : Type :=
  | NilExpression
  | PathExpression (tok : Token) (Parts : list bytes) (Dynamic : list (nat * Expression))
  | BinaryExpression (tok : Token) (Left : Expression) (Operator : bytes) (Right : Expression)
  | UnaryExpression (tok : Token) (Operator : bytes) (Right : Expression)
  | LiteralExpression (tok : Token) (Value : any)
  | InterpolatedStringExpression (tok : Token) (Parts : list InterpolationPart)
  | ReferenceExpression (tok : Token) (Path : Expression)
  | ModifierExpression (tok : Token) (Modifier : bytes) (Value : Expression)
  | CallExpression (tok : Token) (Function : Expression) (Arguments : list Expression)
  | CollectionOperationExpression (tok : Token) (Object : Expression) (Method : bytes)
      (Arguments : list Expression)
  | BracketFilterExpression (tok : Token) (Left : Expression) (Filters : list Expression)
  | ProjectionExpression (tok : Token) (Left : Expression) (Fields : list bytes)
  | RecordExpression (tok : Token) (Fields : list RecordField)
  | ListExpression (tok : Token) (Elements : list Expression)
  | WatchExpression (tok : Token) (Paths : list Expression) (IsAppend : bool) (Alias : bytes)
      (Body : option BlockStatement)
  | ProcedureExpression (tok : Token) (Parameters : list bytes) (Body : option BlockStatement)
with InterpolationPart : Type :=
  | mkPart (Literal_ : bytes) (Path : Expression)
with RecordField : Type :=
  | mkField (Key : Expression) (Modifier : option bytes) (ResetExpr Value : Expression)
with BlockStatement : Type :=
  | mkBlock (tok : Token) (Statements : list Statement)
with Statement : Type :=
  | NilStatement
  | NilPointer (type : string)
  | Block (body : BlockStatement)
  | QuietlyBlockStatement (tok : Token) (Body : BlockStatement)
  | AssignmentStatement (tok : Token) (Name : Expression) (Value : Expression)
      (Modifier : option bytes) (ModifierAfterAssign : bool)
  | IfStatement (tok : Token) (Condition : Expression) (Consequence : option BlockStatement)
      (Alternative : Statement)
  | WhileStatement (tok : Token) (Condition : Expression) (Body : BlockStatement)
  | ForStatement (tok : Token) (Variables : list bytes) (Iterable : Expression)
      (Body : BlockStatement)
  | ConsiderStatement (tok : Token) (Value : Expression) (Cases : list ConsiderCase)
      (Default : option BlockStatement)
  | ProcedureStatement (tok : Token) (Name : bytes) (Parameters : list bytes)
      (Body : BlockStatement)
  | ReturnStatement (tok : Token) (ReturnValue : Expression)
  | PassStatement (tok : Token)
  | BreakStatement (tok : Token)
  | ScopeStatement (tok : Token) (Path : bytes) (Body : option BlockStatement)
  | WatchStatement (tok : Token) (Name : bytes) (IsAppend : bool) (Paths Filters : list Expression)
      (BindingName : bytes) (Body : BlockStatement)
  | ExpressionStatement (tok : Token) (Expr : Expression)
  | InstantiationStatement (tok : Token) (type : bytes) (Modifier : option bytes)
      (Sources : list InstantiationSource) (Properties : Expression)
  | EmbedDirectiveStatement (tok : Token) (Path : Expression)
  | DefinitionStatement (tok : Token) (Name Value : Expression)
  | CatchStatement (tok : Token) (TryBody : BlockStatement) (ElseClauses : list ElseClause)
      (FinalElse : option BlockStatement)
with ConsiderCase : Type :=
  | mkCase (tok : Token) (Value : Expression) (Body : BlockStatement)
with InstantiationSource : Type :=
  | TemplateName (name : bytes)
  | InlineRecord (record : Expression)
with ElseClause : Type :=
  | mkElse (tok : Token) (ErrorType : bytes) (Body : option BlockStatement).

Record Program := mkProgram { pr_token : Token; pr_statements : list Statement }.

(** The comparisons [e == nil] and [s == nil] of interface values. *)
Definition is_nil (e : Expression) : bool := match e with NilExpression => true | _ => false end.
Definition stmt_nil (s : Statement) : bool := match s with NilStatement => true | _ => false end.

(** The statements kept of one parsed: none if it is nil. *)
Definition kept (s : Statement) : list Statement := if stmt_nil s then [] else [s].

Definition Statements (x : BlockStatement) : list Statement := let '(mkBlock _ ss) := x in ss.

(** ** Printing *)

Definition nil_deref {A} : res A := Panic "invalid memory address or nil pointer dereference".

Definition res_all {A} (l : list (res A)) : res (list A) :=
  foldr (λ m acc, x ← m; xs ← acc; Ok (x :: xs)) (Ok []) l.

Definition comma (l : list (res bytes)) : res bytes :=
  (λ parts, Join parts (b ", ")) <$> res_all l.

(** [strings.ReplaceAll(s, "\n", "\n  ")]. *)
Definition indent_lines (s : bytes) : bytes :=
  concat (map (λ x, if bool_decide (x = Byte.x0a) then Byte.x0a :: b "  " else [x]) s).

(** The parts of a path with computed segments: [[e]] for those, and a dot
    before every other part but the first. *)
Fixpoint dynamic_parts (idx : nat) (parts : list bytes) (dynamic : list (nat * res bytes)) :
    res bytes :=
  match parts with
  | [] => Ok []
  | part :: parts =>
      here ← match list_find (λ e, e.1 = idx) dynamic with
             | Some (_, (_, e)) => (λ s, b "[" ++ s ++ b "]") <$> e
             | None => Ok ((if (0 <? idx)%nat then b "." else []) ++ part)
             end;
      (here ++.) <$> dynamic_parts (S idx) parts dynamic
  end.

(** The [String] methods.  A block is printed between braces. *)
Fixpoint Expression_String (e : Expression) : res bytes :=
  match e with
  | NilExpression => nil_deref
  | PathExpression _ parts dynamic =>
      if bool_decide (length dynamic = 0%nat) then Ok (Join parts (b "."))
      else dynamic_parts 0 parts (map (λ '(idx, e), (idx, Expression_String e)) dynamic)
  | BinaryExpression _ l op r =>
      left ← Expression_String l; right ← Expression_String r;
      Ok (if bool_decide (op = b " ") then left ++ b " " ++ right
          else b "(" ++ left ++ b " " ++ op ++ b " " ++ right ++ b ")")
  | UnaryExpression _ op r =>
      right ← Expression_String r;
      Ok (b "(" ++ op ++ (if bool_decide (op = b "not") then b " " else []) ++ right ++ b ")")
  | LiteralExpression tok _ => Ok (Literal tok)
  | InterpolatedStringExpression tok _ => Ok (Literal tok)
  | ReferenceExpression _ path => (λ s, b "(link)" ++ s) <$> Expression_String path
  | ModifierExpression _ modifier value =>
      (λ s, modifier ++ b " " ++ s) <$> Expression_String value
  | CallExpression _ function arguments =>
      args ← comma (map Expression_String arguments); f ← Expression_String function;
      Ok (f ++ b "(" ++ args ++ b ")")
  | CollectionOperationExpression _ object method arguments =>
      args ← comma (map Expression_String arguments); o ← Expression_String object;
      Ok (o ++ b ".." ++ method ++
          (if bool_decide (length arguments = 0%nat) then [] else b "(" ++ args ++ b ")"))
  | BracketFilterExpression _ l filters =>
      fs ← comma (map Expression_String filters); left ← Expression_String l;
      Ok (left ++ b "[" ++ fs ++ b "]")
  | ProjectionExpression _ l fields =>
      left ← Expression_String l; Ok (left ++ b "{ " ++ Join fields (b ", ") ++ b " }")
  | RecordExpression _ fields =>
      fs ← comma (map RecordField_String fields); Ok (b "{" ++ fs ++ b "}")
  | ListExpression _ elements =>
      es ← comma (map Expression_String elements); Ok (b "[" ++ es ++ b "]")
  | WatchExpression _ paths append alias body =>
      ps ← comma (map Expression_String paths);
      rest ← match body with
             | Some body => (λ s, b ": " ++ s) <$> Block_String body
             | None => Ok []
             end;
      Ok (b "watch" ++ (if append then b " append" else []) ++ b "(" ++ ps ++ b ")" ++
          (if bool_decide (alias = []) then [] else b " as " ++ alias) ++ rest)
  | ProcedureExpression _ parameters body =>
      rest ← match body with Some body => Block_String body | None => nil_deref end;
      Ok (b "procedure(" ++ Join parameters (b ", ") ++ b "): " ++ rest)
  end
with RecordField_String (f : RecordField) : res bytes :=
  match f with
  | mkField key modifier reset value =>
      k ← Expression_String key;
      m ← match modifier with
          | None => Ok []
          | Some name =>
              r ← match reset with
                  | NilExpression => Ok []
                  | _ => (λ s, b " " ++ s) <$> Expression_String reset
                  end;
              Ok (b ":(" ++ name ++ r ++ b ")")
          end;
      v ← Expression_String value;
      Ok (k ++ m ++ b ": " ++ v)
  end
with Block_String (x : BlockStatement) : res bytes :=
  match x with
  | mkBlock _ statements =>
      lines ← res_all (map Statement_String statements);
      Ok (b "{" ++ [Byte.x0a] ++
          concat (map (λ s, b "  " ++ indent_lines s ++ [Byte.x0a]) lines) ++ b "}")
  end
with Statement_String (s : Statement) : res bytes :=
  match s with
  | NilStatement | NilPointer _ => nil_deref
  | Block body => Block_String body
  | QuietlyBlockStatement _ body => (λ s, b "quietly: " ++ s) <$> Block_String body
  | AssignmentStatement _ name value modifier after =>
      n ← Expression_String name; v ← Expression_String value;
      Ok (match modifier with
          | Some m => if after then n ++ b " = (" ++ m ++ b ") " ++ v
                      else n ++ b " :(" ++ m ++ b ") = " ++ v
          | None => n ++ b " = " ++ v
          end)
  | IfStatement _ condition consequence alternative =>
      c ← Expression_String condition;
      body ← match consequence with Some body => Block_String body | None => nil_deref end;
      rest ← match alternative with
             | NilStatement => Ok []
             | _ => (λ s, b " else " ++ s) <$> Statement_String alternative
             end;
      Ok (b "if " ++ c ++ b ": " ++ body ++ rest)
  | WhileStatement _ condition body =>
      c ← Expression_String condition; s ← Block_String body;
      Ok (b "while " ++ c ++ b ": " ++ s)
  | ForStatement _ variables iterable body =>
      i ← Expression_String iterable; s ← Block_String body;
      Ok (b "for " ++ Join variables (b ", ") ++ b " in " ++ i ++ b ": " ++ s)
  | ConsiderStatement _ value cases default =>
      v ← Expression_String value; cs ← res_all (map Case_String cases);
      d ← match default with
          | Some body => (λ s, b "default: " ++ s) <$> Block_String body
          | None => Ok []
          end;
      Ok (b "consider " ++ v ++ b ": " ++ concat cs ++ d)
  | ProcedureStatement _ name parameters body =>
      s ← Block_String body; Ok (name ++ b "(" ++ Join parameters (b ", ") ++ b "): " ++ s)
  | ReturnStatement _ value =>
      match value with
      | NilExpression => Ok (b "return")
      | _ => (λ s, b "return " ++ s) <$> Expression_String value
      end
  | PassStatement _ => Ok (b "pass")
  | BreakStatement _ => Ok (b "break")
  | ScopeStatement _ path body =>
      match body with
      | Some body => (λ s, path ++ b ": " ++ s) <$> Block_String body
      | None => Ok path
      end
  | WatchStatement _ name append paths filters binding body =>
      s ← Block_String body;
      target ←
        if append then
          first ← match paths with path :: _ => Expression_String path | [] => Ok [] end;
          fs ← comma (map Expression_String filters);
          Ok (b " append(" ++ first ++
              (if bool_decide (length filters = 0%nat) then [] else b "[" ++ fs ++ b "]") ++ b ")" ++
              (if bool_decide (binding = []) then [] else b " as " ++ binding))
        else (λ ps, b "(" ++ ps ++ b ")") <$> comma (map Expression_String paths);
      Ok (name ++ b ": watch" ++ target ++ b ": " ++ s)
  | ExpressionStatement _ e =>
      match e with NilExpression => Ok [] | _ => Expression_String e end
  | InstantiationStatement _ type modifier sources properties =>
      ss ← comma (map Source_String sources);
      ps ← match properties with
           | NilExpression => Ok []
           | _ => (λ s, b " " ++ s) <$> Expression_String properties
           end;
      Ok (b "new " ++ type ++
          match modifier with Some m => b ":(" ++ m ++ b ")" | None => [] end ++
          (if bool_decide (length sources = 0%nat) then [] else b " " ++ ss) ++ ps)
  | EmbedDirectiveStatement tok path =>
      (λ s, (if bool_decide (Type_ tok = SPREAD) then b "..." else b "embed ") ++ s) <$>
        Expression_String path
  | DefinitionStatement _ name value =>
      n ← Expression_String name; v ← Expression_String value; Ok (n ++ b ": " ++ v)
  | CatchStatement _ body clauses final =>
      s ← Block_String body; cs ← res_all (map Else_String clauses);
      f ← match final with
          | Some body => (λ s, b " else: " ++ s) <$> Block_String body
          | None => Ok []
          end;
      Ok (b "catch: " ++ s ++ concat cs ++ f)
  end
with Case_String (c : ConsiderCase) : res bytes :=
  match c with
  | mkCase _ value body =>
      v ← Expression_String value; s ← Block_String body;
      Ok (b "case " ++ v ++ b ": " ++ s ++ b " ")
  end
with Source_String (s : InstantiationSource) : res bytes :=
  match s with
  | TemplateName name => Ok name
  | InlineRecord record => Expression_String record
  end
with Else_String (c : ElseClause) : res bytes :=
  match c with
  | mkElse _ type body =>
      s ← match body with Some body => Block_String body | None => nil_deref end;
      Ok (b " else" ++ (if bool_decide (type = []) then [] else b " " ++ type) ++ b ": " ++ s)
  end.

Definition Program_String (p : Program) : res bytes :=
  @concat byte <$> res_all (map Statement_String (pr_statements p)).

(** [bodyToMBLCode] of the interpreter: the code handed to the watcher engine,
    which parses it anew each time the watcher fires. *)
Definition bodyToMBLCode (body : option BlockStatement) : res bytes :=
  match body with
  | None => Ok []
  | Some (mkBlock _ statements) =>
      (λ lines, Join lines [Byte.x0a]) <$> res_all (map Statement_String statements)
  end.

(** ** Complete trees

    A tree with a node wherever the source's printing and evaluation take one:
    nil is left only where it is a choice of the language (a return without a
    value, an if without an else, no reset expression, no properties), and for
    the body of an else clause that has none. *)
Definition All {A} (P : A → Prop) (l : list A) : Prop := foldr (λ x Q, P x ∧ Q) True l.
Definition is_some_and {A} (P : A → Prop) (o : option A) : Prop :=
  match o with Some x => P x | None => False end.
Definition if_some {A} (P : A → Prop) (o : option A) : Prop :=
  match o with Some x => P x | None => True end.

Fixpoint complete (e : Expression) : Prop :=
  match e with
  | NilExpression => False
  | PathExpression _ _ dynamic => All (λ '(_, e), complete e) dynamic
  | BinaryExpression _ l _ r => complete l ∧ complete r
  | UnaryExpression _ _ r => complete r
  | LiteralExpression _ _ => True
  | InterpolatedStringExpression _ parts => All complete_part parts
  | ReferenceExpression _ path => complete path
  | ModifierExpression _ _ value => complete value
  | CallExpression _ function arguments => complete function ∧ All complete arguments
  | CollectionOperationExpression _ object _ arguments => complete object ∧ All complete arguments
  | BracketFilterExpression _ l filters => complete l ∧ All complete filters
  | ProjectionExpression _ l _ => complete l
  | RecordExpression _ fields => All complete_field fields
  | ListExpression _ elements => All complete elements
  | WatchExpression _ paths _ _ body => All complete paths ∧ if_some complete_block body
  | ProcedureExpression _ _ body => is_some_and complete_block body
  end
with complete_part (x : InterpolationPart) : Prop :=
  match x with mkPart _ path => match path with NilExpression => True | _ => complete path end end
with complete_field (f : RecordField) : Prop :=
  match f with
  | mkField key _ reset value =>
      complete key ∧ match reset with NilExpression => True | _ => complete reset end ∧
      complete value
  end
with complete_block (x : BlockStatement) : Prop :=
  match x with mkBlock _ statements => All complete_statement statements end
with complete_statement (s : Statement) : Prop :=
  match s with
  | NilStatement | NilPointer _ => False
  | Block body | QuietlyBlockStatement _ body => complete_block body
  | AssignmentStatement _ name value _ _ => complete name ∧ complete value
  | IfStatement _ condition consequence alternative =>
      complete condition ∧ is_some_and complete_block consequence ∧
      match alternative with NilStatement => True | _ => complete_statement alternative end
  | WhileStatement _ condition body => complete condition ∧ complete_block body
  | ForStatement _ _ iterable body => complete iterable ∧ complete_block body
  | ConsiderStatement _ value cases default =>
      complete value ∧ All complete_case cases ∧ if_some complete_block default
  | ProcedureStatement _ _ _ body => complete_block body
  | ReturnStatement _ value => match value with NilExpression => True | _ => complete value end
  | PassStatement _ | BreakStatement _ => True
  | ScopeStatement _ _ body => if_some complete_block body
  | WatchStatement _ _ _ paths filters _ body =>
      All complete paths ∧ All complete filters ∧ complete_block body
  | ExpressionStatement _ e => complete e
  | InstantiationStatement _ _ _ sources properties =>
      All complete_source sources ∧
      match properties with NilExpression => True | _ => complete properties end
  | EmbedDirectiveStatement _ path => complete path
  | DefinitionStatement _ name value => complete name ∧ complete value
  | CatchStatement _ body clauses final =>
      complete_block body ∧ All complete_else clauses ∧ if_some complete_block final
  end
with complete_case (c : ConsiderCase) : Prop :=
  match c with mkCase _ value body => complete value ∧ complete_block body end
with complete_source (s : InstantiationSource) : Prop :=
  match s with TemplateName _ => True | InlineRecord record => complete record end
with complete_else (c : ElseClause) : Prop :=
  match c with mkElse _ _ body => if_some complete_block body end.

(** A nil is a choice here. *)
Definition optional (e : Expression) : Prop := is_nil e = true ∨ complete e.

Lemma All_app {A} (P : A → Prop) l k : All P l → All P k → All P (l ++ k).
Proof. intros H Hk. induction l; [done|]. destruct H. split; [done|]. by apply IHl. Qed.
Lemma All_snoc {A} (P : A → Prop) l x : All P l → P x → All P (l ++ [x]).
Proof. intros. apply All_app; [done|]. by split. Qed.
Lemma complete_kept s : complete_statement s → All complete_statement (kept s).
Proof. by destruct s; cbn; auto. Qed.
Lemma optional_match e : optional e → match e with NilExpression => True | _ => complete e end.
Proof. intros []; by destruct e. Qed.
