(* ===== verification/MblParser.v ===== *)
(** * The MBL parser (internal/mbl/parser/parser.go)

    A Pratt parser over the lexer with one token of lookahead.  A method is an
    operation on the [Parser]; the tables of parse functions are functions of
    the token type, and the limits, which never change, are constants.  The
    parser returns no Go errors: it collects messages, and the [Err] of an
    operation stands for fuel run out, which does not happen.  A loop has the
    measure of the state it begins in as fuel.  The recursive calls of
    [parseExpression] and [parseStatement], and the parsers made for a source
    inside a token, are the fields of [Rec].  [Quote] ([%q]), the reading and the
    shortest form of a float64 are functions of the Go library. *)
From S2P Require Import Prelude Utf8 GoTime MblTokens MblLexer MblValue MblCoerce MblAst.

(** ** The parser *)

(** Operator precedence levels, lowest to highest. *)
Module Precedence.
Definition LOWEST : Z := 1.
Definition OR : Z := 2.
Definition AND : Z := 3.
Definition NOT : Z := 4.
Definition EQUALS : Z := 5.
Definition CONCAT : Z := 6.
Definition SUM : Z := 7.
Definition PRODUCT : Z := 8.
Definition POWER : Z := 9.
Definition UNARY : Z := 10.
Definition RANGE : Z := 11.
Definition CALL : Z := 12.
End Precedence.

Definition LOWEST : Z := Precedence.LOWEST.

Record Parser := mkParser {
  lexer : Lexer;
  currentToken : Token;
  peekToken : Token;
  errors : list bytes;
  recursionDepth : Z;
  nodeCount : Z
}.
Definition maxRecursionDepth : Z := 1000.
Definition maxNodes : Z := 100000.

Definition set_tokens (l : Lexer) (current peek : Token) (p : Parser) : Parser :=
  mkParser l current peek (errors p) (recursionDepth p) (nodeCount p).
Definition add_error (msg : bytes) (p : Parser) : Parser :=
  mkParser (lexer p) (currentToken p) (peekToken p) (errors p ++ [msg]) (recursionDepth p)
    (nodeCount p).
Definition set_depth (d : Z) (p : Parser) : Parser :=
  mkParser (lexer p) (currentToken p) (peekToken p) (errors p) d (nodeCount p).
Definition set_count (n : Z) (p : Parser) : Parser :=
  mkParser (lexer p) (currentToken p) (peekToken p) (errors p) (recursionDepth p) n.

Definition current (p : Parser) : TokenType := Type_ (currentToken p).
Definition peek (p : Parser) : TokenType := Type_ (peekToken p).
Definition currentTokenIs (t : TokenType) (p : Parser) : bool := bool_decide (current p = t).
Definition peekTokenIs (t : TokenType) (p : Parser) : bool := bool_decide (peek p = t).

Definition precedences (t : TokenType) : option Z :=
  match t with
  | OR => Some Precedence.OR
  | AND => Some Precedence.AND
  | NOT => Some Precedence.NOT
  | EQUAL | ASSIGN | GT | LT | GTE | LTE => Some Precedence.EQUALS
  | CONCAT => Some Precedence.CONCAT
  | PLUS | MINUS => Some Precedence.SUM
  | MULTIPLY | DIVIDE | MODULO => Some Precedence.PRODUCT
  | POWER => Some Precedence.POWER
  | RANGE => Some Precedence.RANGE
  | DOT | LBRACKET | LBRACE | LPAREN => Some Precedence.CALL
  | _ => None
  end.
Definition peekPrecedence (p : Parser) : Z := default LOWEST (precedences (peek p)).
Definition currentPrecedence (p : Parser) : Z := default LOWEST (precedences (current p)).

(** Read the state. *)
Definition get {A} (f : Parser → A) : Op Parser A := λ p, (p, Ok (f p)).
Definition current_literal (p : Parser) : bytes := Literal (currentToken p).

(** ** Loops

    [measure] bounds the calls of [nextToken] that change anything: a token to
    come is peeked at and then current, the one peeked at becomes current, and
    EOF does not count. *)
Definition token_weight (t : Token) : Z := if bool_decide (Type_ t = EOF) then 0 else 1.
Definition measure (p : Parser) : Z :=
  token_weight (currentToken p) + 2 * (token_weight (peekToken p) + todo (lexer p)).
Definition loop_fuel (p : Parser) : nat := Z.to_nat (measure p).

Definition out_of_fuel {A} : Op Parser A := op_err "out of fuel".

(** [for cond { body }] with the variables of the loop as [a]; [inr] is a
    [break] or [return] in the body. *)
Fixpoint loop_n {A B} (n : nat) (cond : Parser → bool) (body : A → Op Parser (A + B)) (a : A) :
    Op Parser (A + B) :=
  c ← get cond;
  if c : bool then
    match n with
    | O => out_of_fuel
    | S n =>
        r ← body a;
        match r with
        | inl a => loop_n n cond body a
        | inr x => mret (inr x)
        end
    end
  else mret (inl a).
Definition loop {A B} (cond : Parser → bool) (body : A → Op Parser (A + B)) (a : A) :
    Op Parser (A + B) :=
  λ p, loop_n (loop_fuel p) cond body a p.

(** The loop's variables, however it ended. *)
Definition merged {A} (r : A + A) : A := match r with inl x | inr x => x end.

Section Parser.
Context (IsLetter : Z → bool) (Quote : list byte → list byte).
Context (ParseFloat : list byte → option Z) (FormatFloat : Z → list byte).

(** ** Tokens and errors *)

Definition nextToken : Op Parser unit := op_modify (λ p,
  let '(l, tok) := NextToken IsLetter (lexer p) in set_tokens l (peekToken p) tok p).

Definition New (l : Lexer) : Parser :=
  let zero := mkToken ILLEGAL [] 0 0 0 in
  let p := (nextToken (mkParser l zero zero [] 0 0)).1 in
  (nextToken p).1.

Definition is_comment (p : Parser) : bool :=
  currentTokenIs COMMENT p || currentTokenIs BLOCK_COMMENT p.
(** Pass the tokens that [cond] holds of. *)
Definition skip_while (cond : Parser → bool) : Op Parser unit :=
  loop (B := unit) cond (λ _, nextToken;; mret (inl tt)) tt;; mret tt.
Definition skipComments : Op Parser unit := skip_while is_comment.
(** [for p.peekToken.Type == lexer.NEWLINE { p.nextToken() }]. *)
Definition skipNewlines : Op Parser unit := skip_while (peekTokenIs NEWLINE).

Definition error (msg : bytes) : Op Parser unit := op_modify (add_error msg).
Definition at_token (t : Token) : bytes :=
  b " at line " ++ format_int (Line t) ++ b ", column " ++ format_int (Column t).
Definition at_line (t : Token) : bytes := b " at line " ++ format_int (Line t).
Definition type_name (t : TokenType) : bytes := b (TokenType_String t).

Definition peekError (t : TokenType) : Op Parser unit :=
  tok ← get peekToken;
  error (b "expected next token to be " ++ type_name t ++ b ", got " ++ type_name (Type_ tok) ++
         b " instead" ++ at_token tok).

Definition noPrefixParseFnError (t : TokenType) : Op Parser unit :=
  tok ← get currentToken; next ← get peek;
  error
    (if bool_decide (t = ASSIGN) then
       if bool_decide (next = ASSIGN)
       then b "invalid operator '=='" ++ at_token tok ++ b ". Use '?=' for equality comparison"
       else b "unexpected '='" ++ at_token tok ++ b ". If using '==' for comparison, use '?=' instead"
     else b "unexpected token " ++ type_name t ++ at_token tok).

Definition expectPeek (t : TokenType) : Op Parser bool :=
  here ← get (peekTokenIs t);
  if here : bool then nextToken;; mret true else peekError t;; mret false.
(** [if !p.expectPeek(t) { return d }]. *)
Definition expect_or {A} (t : TokenType) (d : A) (k : Op Parser A) : Op Parser A :=
  ok ← expectPeek t; if ok : bool then k else mret d.
Notation "'expect' t 'or' d ; k" := (expect_or t d k)
  (at level 200, t at level 9, d at level 9, k at level 200).

(** ** Limits *)

Definition depth_message : bytes :=
  b "maximum recursion depth (" ++ format_int maxRecursionDepth ++ b ") exceeded".
Definition count_message : bytes :=
  b "maximum node count (" ++ format_int maxNodes ++ b ") exceeded".

Definition incrementRecursionDepth : Op Parser bool :=
  op_modify (λ p, set_depth (recursionDepth p + 1) p);;
  d ← get recursionDepth;
  if maxRecursionDepth <? d then error depth_message;; mret false else mret true.
Definition decrementRecursionDepth : Op Parser unit :=
  op_modify (λ p, if 0 <? recursionDepth p then set_depth (recursionDepth p - 1) p else p).
Definition incrementNodeCount : Op Parser bool :=
  op_modify (λ p, set_count (nodeCount p + 1) p);;
  n ← get nodeCount;
  if maxNodes <? n then error count_message;; mret false else mret true.

(** The guards at the start of [parseExpression] and [parseStatement], with the
    deferred decrement; a refused call has none. *)
Definition guarded {A} (d : A) (m : Op Parser A) : Op Parser A :=
  ok ← incrementRecursionDepth;
  if ok : bool then
    x ← (ok ← incrementNodeCount; if ok : bool then m else mret d);
    decrementRecursionDepth;; mret x
  else mret d.

Definition is_critical (e : bytes) : bool :=
  contains e (b "maximum recursion depth") || contains e (b "maximum node count").
Definition hasCriticalError (p : Parser) : bool := existsb is_critical (errors p).

(** ** Recursion *)

(** A nested parser made for [source] is returned with its expression. *)
Record Rec := mkRec {
  rec_expression : Z → Op Parser Expression;
  rec_statement : Op Parser Statement;
  rec_sub : bytes → res (Parser * Expression)
}.

Section Methods.
Context (rec : Rec).
Local Notation expression := (rec_expression rec).
Local Notation statement := (rec_statement rec).

(** [f(); for peek == COMMA { nextToken(); nextToken(); f() }], the list of the
    results. *)
Definition comma_list {A} (f : Op Parser A) : Op Parser (list A) :=
  x ← f;
  r ← loop (peekTokenIs COMMA) (λ acc, nextToken;; nextToken;; y ← f; mret (inl (acc ++ [y]))) [x];
  mret (merged r).

Definition parseExpressionList (end_ : TokenType) : Op Parser (list Expression) :=
  here ← get (peekTokenIs end_);
  if here : bool then nextToken;; mret [] else
  nextToken;; args ← comma_list (expression LOWEST);
  expect end_ or []; mret args.

(** ** Prefix parse functions *)

(** A literal of the current token. *)
Definition literal (v : Token → any) : Op Parser Expression :=
  tok ← get currentToken; mret (LiteralExpression tok (v tok)).

Definition parseIdentifier : Op Parser Expression :=
  tok ← get currentToken; mret (PathExpression tok [Literal tok] []).

(** [for peek == DOT], the segments whose token [ok] admits. *)
Definition dotted (ok : TokenType → bool) (parts : list bytes) : Op Parser (list bytes) :=
  r ← loop (peekTokenIs DOT) (λ parts,
        nextToken;; nextToken;;
        tok ← get currentToken;
        mret (if ok (Type_ tok) then inl (parts ++ [Literal tok]) else inr parts)) parts;
  mret (merged r).
Definition ident_or_time (t : TokenType) : bool :=
  bool_decide (t = IDENT) || bool_decide (t = TIME).

Definition parseMyExpression : Op Parser Expression :=
  tok ← get currentToken; parts ← dotted ident_or_time [b "my"]; mret (PathExpression tok parts []).
Definition parseWorldExpression : Op Parser Expression :=
  tok ← get currentToken; parts ← dotted (λ t, bool_decide (t = IDENT)) [b "world"];
  mret (PathExpression tok parts []).

Definition parseStringLiteral : Op Parser Expression := literal (λ t, GoString (Literal t)).

Definition is_path (e : Expression) : bool :=
  match e with PathExpression _ _ _ => true | _ => false end.

Definition parseInterpolationPath (source : bytes) (tok : Token) : Op Parser Expression :=
  r ← op_lift (rec_sub rec source);
  let '(sub, expr) := r in
  let text s := s ++ Quote source in
  if negb (bool_decide (length (errors sub) = 0%nat)) || is_nil expr then
    error (text (b "invalid path ") ++ b " in interpolating text literal" ++ at_line tok);;
    mret NilExpression
  else if negb (peekTokenIs EOF sub) && negb (currentTokenIs EOF sub) then
    error (text (b "invalid path ") ++ b " in interpolating text literal" ++ at_line tok);;
    mret NilExpression
  else if negb (is_path expr) then
    error (text (b "only paths may be interpolated, got ") ++ at_line tok);; mret NilExpression
  else mret expr.

(** The literal run read so far as a part. *)
Definition flush (literal : bytes) : list InterpolationPart :=
  if bool_decide (length literal = 0%nat) then [] else [mkPart literal NilExpression].

(** The loop over the body: [fuel] is at least its length. *)
Fixpoint interpolate (fuel : nat) (tok : Token) (body literal : bytes)
    (parts : list InterpolationPart) : Op Parser (list InterpolationPart) :=
  match fuel, body with
  | _, [] => mret (parts ++ flush literal)
  | O, _ => out_of_fuel
  | S fuel, x :: rest =>
      if starts_with body (b "{{") then interpolate fuel tok (drop 2 body) (literal ++ b "{") parts
      else if bool_decide (x = Byte.x7b) then
        match fst <$> list_find (λ y, y = Byte.x7d) body with
        | None => error (b "unclosed { in interpolating text literal" ++ at_line tok);; mret parts
        | Some end_ =>
            let source := TrimSpace (take (end_ - 1) rest) in
            if bool_decide (source = []) then
              error (b "empty {} in interpolating text literal" ++ at_line tok);; mret parts
            else
              path ← parseInterpolationPath source tok;
              if is_nil path then mret parts
              else interpolate fuel tok (drop (end_ + 1) body) []
                     (parts ++ flush literal ++ [mkPart [] path])
        end
      else interpolate fuel tok rest (literal ++ [x]) parts
  end.

Definition parseInterpolatedString : Op Parser Expression :=
  tok ← get currentToken;
  let '(body, ok) := UnquoteText (Literal tok) in
  if ok : bool then
    parts ← interpolate (length body) tok body [] [];
    mret (InterpolatedStringExpression tok parts)
  else
    error (b "malformed interpolating text literal " ++ Quote (Literal tok) ++ at_line tok);;
    mret (InterpolatedStringExpression tok []).

(** [strconv.ParseInt(s, 0, 64)] of digits and dots, which is what a NUMBER token
    holds: digits after a zero are octal. *)
Definition ParseInt (s : bytes) : option Z :=
  match s with
  | [] => None
  | x :: rest =>
      let '(base, digits) := if bool_decide (x = Byte.x30) then (8, rest) else (10, s) in
      n ← foldl (λ acc y,
            n ← acc; let v := byte.unsigned y - 0x30 in
            if (0 <=? v) && (v <? base) then Some (n * base + v) else None) (Some 0) digits;
      if n <? 2 ^ 63 then Some n else None
  end.

Definition parseNumberLiteral : Op Parser Expression :=
  tok ← get currentToken;
  match ParseInt (Literal tok) with
  | Some value => mret (LiteralExpression tok (GoInt value))
  | None =>
      match ParseFloat (Literal tok) with
      | Some bits => mret (LiteralExpression tok (GoFloat64 bits))
      | None =>
          error (b "could not parse " ++ Quote (Literal tok) ++ b " as number");;
          mret NilExpression
      end
  end.

Definition is_ascii_letter (x : byte) : bool :=
  between 0x61 0x7A (byte.unsigned x) || between 0x41 0x5A (byte.unsigned x).

Definition parseTimeLiteral : Op Parser Expression :=
  tok ← get currentToken;
  let lit := Literal tok in
  if bool_decide (lit = b "@") || bool_decide (TrimSpace lit = b "@") then
    mret (PathExpression tok [b "@"] [])
  else if starts_with lit (b "@") && negb (contains lit (b "-")) &&
          match TrimPrefix lit (b "@") with x :: _ => is_ascii_letter x | [] => false end then
    mret (PathExpression tok [lit] [])
  else match ParseTimeLiteral lit with
  | Ok (t, precision) => mret (LiteralExpression tok (Time t precision))
  | _ => error (b "could not parse " ++ Quote lit ++ b " as time");; mret NilExpression
  end.

Definition parseMoneyLiteral : Op Parser Expression := literal (λ t, GoString (Literal t)).
Definition parseBooleanLiteral : Op Parser Expression :=
  literal (λ t, GoBool (bool_decide (Type_ t = TRUE))).
Definition parseNothingLiteral : Op Parser Expression := literal (λ _, GoNil).

Definition plain_quoted (s : bytes) : bool :=
  (2 <=? length s)%nat && bool_decide (head s = Some Byte.x22) && bool_decide (last s = Some Byte.x22).
(** [s[1 : len(s)-1]]. *)
Definition inner (s : bytes) : bytes := take (length s - 2) (drop 1 s).

Definition parseUnknownLiteral : Op Parser Expression :=
  unknownToken ← get currentToken;
  called ← get (peekTokenIs LPAREN);
  if called : bool then
    nextToken;; nextToken;;
    tok ← get currentToken;
    if negb (bool_decide (Type_ tok = TEXT)) then
      error (b "expected string reason after unknown(" ++ at_token unknownToken);;
      mret NilExpression
    else
      let reason := if plain_quoted (Literal tok) then inner (Literal tok) else Literal tok in
      closed ← get (peekTokenIs RPAREN);
      if negb closed then
        error (b "expected ) after unknown reason" ++ at_token tok);; mret NilExpression
      else nextToken;; mret (LiteralExpression unknownToken (Unknown reason))
  else mret (LiteralExpression unknownToken (Unknown (b "unknown"))).

Definition parseAnythingLiteral : Op Parser Expression := literal (λ _, GoString (b "Anything")).
Definition parsePiLiteral : Op Parser Expression := literal (λ _, GoFloat64 0x400921FB54442D18).
Definition parseEulerLiteral : Op Parser Expression := literal (λ _, GoFloat64 0x4005BF0A8B145769).
Definition parseEmptyLiteral : Op Parser Expression := literal (λ _, GoString []).
Definition parseQuoteLiteral : Op Parser Expression := literal (λ _, GoString [Byte.x22]).
Definition parseTabLiteral : Op Parser Expression := literal (λ _, GoString [Byte.x09]).
Definition parseNewlineLiteral : Op Parser Expression := literal (λ _, GoString [Byte.x0a]).

Definition parseLinkReference : Op Parser Expression :=
  linkToken ← get currentToken;
  nextToken;;
  path ← expression LOWEST;
  if is_nil path then
    error (b "expected path expression after (link)" ++ at_token linkToken);; mret NilExpression
  else mret (ReferenceExpression linkToken path).

Definition parseUnaryExpression : Op Parser Expression :=
  tok ← get currentToken;
  nextToken;;
  right ← expression Precedence.UNARY;
  mret (UnaryExpression tok (Literal tok) right).

Definition parseQuietlyExpression : Op Parser Expression :=
  tok ← get currentToken; next ← get peek;
  match next with
  | TEXT | NUMBER | IDENT | MY =>
      nextToken;;
      right ← expression LOWEST;
      mret (BinaryExpression tok (LiteralExpression tok (GoString (Literal tok))) (b " ") right)
  | _ => mret (LiteralExpression tok (GoString (b "quietly")))
  end.

Definition parseGroupedExpression : Op Parser Expression :=
  nextToken;;
  exp ← expression LOWEST;
  expect RPAREN or NilExpression; mret exp.

(** [modifierLiteral[1 : len(modifierLiteral)-1]] of a literal in parentheses. *)
Definition modifier_value (lit : bytes) : option bytes :=
  if (2 <? length lit)%nat && bool_decide (head lit = Some Byte.x28) &&
     bool_decide (last lit = Some Byte.x29)
  then Some (inner lit) else None.

Definition parseResetExpression (exprStr : bytes) : Op Parser Expression :=
  r ← op_lift (rec_sub rec exprStr);
  let '(sub, expr) := r in
  mret (if is_nil expr || negb (bool_decide (length (errors sub) = 0%nat))
        then LiteralExpression (mkToken TEXT exprStr 0 0 0) (GoString exprStr)
        else expr).

(** The modifier after the colon of a field, and its expression. *)
Definition field_modifier (lit : bytes) : Op Parser (option bytes * Expression) :=
  match modifier_value lit with
  | None => mret (None, NilExpression)
  | Some value =>
      if starts_with value (b "reset ") then
        let source := TrimSpace (drop 6 value) in
        e ← (if bool_decide (source = []) then mret NilExpression else parseResetExpression source);
        mret (Some (b "reset"), e)
      else mret (Some value, NilExpression)
  end.

Definition parseRecordField : Op Parser (option RecordField) :=
  key ← expression LOWEST;
  expect DEFINE or None;
  next ← get peek;
  m ← match next with
      | COPY | LINK | RESET | EXCLUDE => nextToken;; lit ← get current_literal; field_modifier lit
      | _ => mret (None, NilExpression)
      end;
  nextToken;;
  value ← expression LOWEST;
  mret (Some (mkField key m.1 m.2 value)).

Definition parseRecordLiteral : Op Parser Expression :=
  tok ← get currentToken;
  none ← get (peekTokenIs RBRACE);
  if none : bool then nextToken;; mret (RecordExpression tok []) else
  nextToken;;
  fields ← comma_list parseRecordField;
  expect RBRACE or NilExpression; mret (RecordExpression tok (omap id fields)).

Definition parseListLiteral : Op Parser Expression :=
  tok ← get currentToken;
  none ← get (peekTokenIs RBRACKET);
  if none : bool then nextToken;; mret (ListExpression tok []) else
  nextToken;;
  elements ← comma_list (expression LOWEST);
  expect RBRACKET or NilExpression; mret (ListExpression tok elements).

Definition parseDefinitionExpression : Op Parser Expression :=
  tok ← get currentToken;
  error (b "unexpected definition" ++ at_token tok ++ b " - definitions must start with a name");;
  mret NilExpression.

Definition parseModifierExpression : Op Parser Expression :=
  tok ← get currentToken; next ← get peek;
  match next with
  | TEXT | NUMBER | IDENT | MY | WORLD | LBRACE | LBRACKET =>
      nextToken;; value ← expression LOWEST; mret (ModifierExpression tok (Literal tok) value)
  | _ => mret (LiteralExpression tok (GoString (Literal tok)))
  end.

Definition parseNewExpression : Op Parser Expression :=
  newToken ← get currentToken;
  expect LPAREN or NilExpression;
  nextToken;;
  template ← expression LOWEST;
  expect RPAREN or NilExpression;
  mret (CallExpression newToken (PathExpression newToken [b "new"] []) [template]).

(** ** Infix parse functions *)

Definition parseBinaryExpression (left : Expression) : Op Parser Expression :=
  tok ← get currentToken; precedence ← get currentPrecedence;
  nextToken;;
  right ← expression (if bool_decide (Type_ tok = POWER) then precedence - 1 else precedence);
  mret (BinaryExpression tok left (Literal tok) right).

Definition is_collection_method (name : bytes) : bool :=
  existsb (λ m, bool_decide (name = b m)) ["count"; "remove"; "combine"; "append"; "prepend"].

Definition parseCollectionOperation (left : Expression) : Op Parser Expression :=
  next ← get (λ p, Literal (peekToken p));
  if is_collection_method next then
    nextToken;;
    tok ← get currentToken; called ← get (peekTokenIs LPAREN);
    arguments ← (if called : bool then nextToken;; parseExpressionList RPAREN else mret []);
    mret (CollectionOperationExpression tok left (Literal tok) arguments)
  else parseBinaryExpression left.

(** The path [left] is extended in place; nothing else holds it. *)
Definition parseCallExpression (left : Expression) : Op Parser Expression :=
  here ← get current;
  match here with
  | DOT =>
      next ← get peek;
      if ident_or_time next then
        nextToken;;
        tok ← get currentToken; called ← get (peekTokenIs LPAREN);
        match left with
        | PathExpression first parts dynamic =>
            let path := PathExpression first (parts ++ [Literal tok]) dynamic in
            if called : bool then
              nextToken;;
              paren ← get currentToken; arguments ← parseExpressionList RPAREN;
              mret (CallExpression paren path arguments)
            else mret path
        | _ =>
            arguments ← (if called : bool then nextToken;; parseExpressionList RPAREN else mret []);
            mret (CallExpression tok left arguments)
        end
      else peekError IDENT;; mret NilExpression
  | LPAREN =>
      tok ← get currentToken; arguments ← parseExpressionList RPAREN;
      mret (CallExpression tok left arguments)
  | _ => mret left
  end.

Definition parseFilterExpression : Op Parser Expression :=
  left ← expression LOWEST;
  assigned ← get (peekTokenIs ASSIGN);
  if assigned : bool then
    nextToken;;
    tok ← get currentToken;
    nextToken;;
    right ← expression Precedence.EQUALS;
    mret (BinaryExpression tok left (b "=") right)
  else mret left.

Definition parseBracketFilterExpression (left : Expression) : Op Parser Expression :=
  tok ← get currentToken;
  nextToken;;
  filters ← comma_list parseFilterExpression;
  next ← get peekToken;
  if negb (bool_decide (Type_ next = RBRACKET)) then
    error (b "missing closing bracket (])" ++ at_token next);; mret NilExpression
  else nextToken;; mret (BracketFilterExpression tok left filters).

(** The name of a field, if the current token is one. *)
Definition projection_field : Op Parser (option bytes) :=
  tok ← get currentToken;
  if bool_decide (Type_ tok = IDENT) then mret (Some (Literal tok))
  else
    error (b "expected identifier in projection, got " ++ type_name (Type_ tok) ++ at_token tok);;
    mret None.

Definition parseProjectionExpression (left : Expression) : Op Parser Expression :=
  tok ← get currentToken;
  nextToken;;
  first ← projection_field;
  match first with
  | None => mret NilExpression
  | Some first =>
      r ← loop (peekTokenIs COMMA) (λ fields,
            nextToken;; nextToken;;
            field ← projection_field;
            mret (match field with Some f => inl (fields ++ [f]) | None => inr tt end)) [first];
      match r with
      | inr _ => mret NilExpression
      | inl fields => expect RBRACE or NilExpression; mret (ProjectionExpression tok left fields)
      end
  end.

(** ** Blocks and bodies *)

Definition parseBlockStatement : Op Parser BlockStatement :=
  tok ← get currentToken;
  nextToken;;
  r ← loop (B := list Statement) (λ p, negb (currentTokenIs DEDENT p) && negb (currentTokenIs EOF p))
        (λ block,
          skipComments;;
          newline ← get (currentTokenIs NEWLINE);
          if newline : bool then nextToken;; mret (inl block)
          else stmt ← statement; nextToken;; mret (inl (block ++ kept stmt))) [];
  mret (mkBlock tok (merged r)).

Definition parseSameLineBlock : Op Parser BlockStatement :=
  tok ← get currentToken;
  nextToken;;
  r ← loop (λ p, negb (currentTokenIs EOF p) && negb (currentTokenIs NEWLINE p) &&
                 negb (currentTokenIs DEDENT p))
        (λ block,
          skipComments;;
          stmt ← statement;
          more ← get (peekTokenIs SEMICOLON);
          if more : bool then nextToken;; nextToken;; mret (inl (block ++ kept stmt))
          else mret (inr (block ++ kept stmt))) [];
  mret (mkBlock tok (merged r)).

(** Pass the newlines, expect an INDENT and parse the block, or return [d]. *)
Definition indented_or {A} (d : A) (k : BlockStatement → Op Parser A) : Op Parser A :=
  skipNewlines;; expect INDENT or d; body ← parseBlockStatement; k body.

(** One statement as a block, nil if it is nil. *)
Definition single_statement (stmt : Statement) : Op Parser (option BlockStatement) :=
  tok ← get currentToken;
  mret (if stmt_nil stmt then None else Some (mkBlock tok [stmt])).

(** A body after a colon: an indented block, or a statement on the same line
    which, as [checked] says, must not be at the end of the input. *)
Definition body_or {A} (checked : bool) (d : A) (k : BlockStatement → Op Parser A) : Op Parser A :=
  multi ← get (peekTokenIs NEWLINE);
  if multi : bool then indented_or d k
  else
    nextToken;;
    tok ← get currentToken;
    if checked && bool_decide (Type_ tok = EOF) then
      error (b "empty procedure body" ++ at_token tok ++ b ". Procedures must have a body");; mret d
    else
      stmt ← statement; body ← single_statement stmt;
      match body with Some body => k body | None => mret d end.

(** [for peek == COMMA { nextToken(); if !expectPeek(IDENT) { return } ... }]. *)
Definition more_idents (first : bytes) : Op Parser (list bytes + unit) :=
  loop (peekTokenIs COMMA) (λ names,
    nextToken;;
    expect IDENT or (inr tt);
    name ← get current_literal; mret (inl (names ++ [name]))) [first].

Definition parseWatchExpression : Op Parser Expression :=
  tok ← get currentToken;
  append ← get (peekTokenIs APPEND);
  (if append : bool then nextToken else mret tt);;
  expect LPAREN or NilExpression;
  nextToken;;
  first ← expression LOWEST;
  if is_nil first then mret NilExpression else
  r ← loop (peekTokenIs COMMA) (λ paths,
        nextToken;; nextToken;;
        path ← expression LOWEST;
        mret (if is_nil path then inr tt else inl (paths ++ [path]))) [first];
  match r with
  | inr _ => mret NilExpression
  | inl paths =>
      expect RPAREN or NilExpression;
      named ← get (peekTokenIs AS);
      alias ← (if named : bool then
                 nextToken;; expect IDENT or None; name ← get current_literal; mret (Some name)
               else mret (Some []));
      match alias with
      | None => mret NilExpression
      | Some alias =>
          colon ← get (peekTokenIs DEFINE);
          if colon : bool then
            nextToken;;
            body_or false NilExpression (λ body,
              mret (WatchExpression tok paths append alias (Some body)))
          else mret (WatchExpression tok paths append alias None)
      end
  end.

Definition parseProcedureExpression : Op Parser Expression :=
  tok ← get currentToken;
  expect LPAREN or NilExpression;
  none ← get (peekTokenIs RPAREN);
  r ← (if none : bool then mret (inl [])
       else nextToken;; first ← get current_literal; more_idents first);
  match r with
  | inr _ => mret NilExpression
  | inl parameters =>
      expect RPAREN or NilExpression;
      expect DEFINE or NilExpression;
      body_or true NilExpression (λ body, mret (ProcedureExpression tok parameters (Some body)))
  end.

(** ** The Pratt loop *)

Definition prefixParseFns (t : TokenType) : option (Op Parser Expression) :=
  match t with
  | IDENT => Some parseIdentifier
  | MY => Some parseMyExpression
  | WORLD => Some parseWorldExpression
  | TEXT => Some parseStringLiteral
  | INTERP_TEXT => Some parseInterpolatedString
  | NUMBER => Some parseNumberLiteral
  | TIME => Some parseTimeLiteral
  | MONEY => Some parseMoneyLiteral
  | TRUE | FALSE => Some parseBooleanLiteral
  | NOTHING => Some parseNothingLiteral
  | UNKNOWN => Some parseUnknownLiteral
  | ANYTHING => Some parseAnythingLiteral
  | PI => Some parsePiLiteral
  | EULER => Some parseEulerLiteral
  | EMPTY => Some parseEmptyLiteral
  | QUOTE => Some parseQuoteLiteral
  | TAB => Some parseTabLiteral
  | NEWLINE_LITERAL => Some parseNewlineLiteral
  | LINK => Some parseLinkReference
  | MINUS | PLUS | NOT => Some parseUnaryExpression
  | QUIETLY => Some parseQuietlyExpression
  | LPAREN => Some parseGroupedExpression
  | LBRACE => Some parseRecordLiteral
  | LBRACKET => Some parseListLiteral
  | DEFINE => Some parseDefinitionExpression
  | WATCH => Some parseWatchExpression
  | PROCEDURE => Some parseProcedureExpression
  | COPY | RESET | EXCLUDE | CASCADE => Some parseModifierExpression
  | NEW => Some parseNewExpression
  | _ => None
  end.

Definition infixParseFns (t : TokenType) : option (Expression → Op Parser Expression) :=
  match t with
  | OR | AND | EQUAL | ASSIGN | GT | LT | GTE | LTE | CONCAT | PLUS | MINUS | MULTIPLY | DIVIDE
  | MODULO | POWER => Some parseBinaryExpression
  | RANGE => Some parseCollectionOperation
  | DOT | LPAREN => Some parseCallExpression
  | LBRACKET => Some parseBracketFilterExpression
  | LBRACE => Some parseProjectionExpression
  | _ => None
  end.

(** The condition of the loop, and its body. *)
Definition binds_tighter (precedence : Z) (p : Parser) : bool :=
  negb (peekTokenIs NEWLINE p) && (precedence <? peekPrecedence p).
Definition infix_step (leftExp : Expression) : Op Parser (Expression + Expression) :=
  next ← get peek;
  match infixParseFns next with
  | None => mret (inr leftExp)
  | Some infix => nextToken;; e ← infix leftExp; mret (inl e)
  end.

Definition parseExpression (precedence : Z) : Op Parser Expression :=
  guarded NilExpression (
    here ← get current;
    match prefixParseFns here with
    | None => noPrefixParseFnError here;; mret NilExpression
    | Some prefix =>
        leftExp ← prefix;
        r ← loop (binds_tighter precedence) infix_step leftExp;
        mret (merged r)
    end).

(** ** Paths *)

Definition parsePathExpression : Op Parser (Token * list bytes) :=
  tok ← get currentToken; parts ← dotted ident_or_time [Literal tok]; mret (tok, parts).

(** One [[key]] of a target: the parts and entries of the path with it. *)
Definition parsePathTargetSelector (parts : list bytes) (dynamic : list (nat * Expression)) :
    Op Parser (option (list bytes * list (nat * Expression))) :=
  nextToken;; nextToken;;
  key ← expression LOWEST;
  if is_nil key then mret None else
  expect RBRACKET or None;
  let static part := mret (Some (parts ++ [part], dynamic)) in
  match key with
  | LiteralExpression _ (GoString v) => static (if plain_quoted v then inner v else v)
  | LiteralExpression _ (GoInt v) => static (format_int v)
  | LiteralExpression _ (GoFloat64 v) => static (FormatFloat v)
  | _ => mret (Some (parts ++ [[]], dynamic ++ [(length parts, key)]))
  end.

Definition parsePathTarget : Op Parser Expression :=
  tok ← get currentToken;
  r ← loop (λ p, peekTokenIs DOT p || peekTokenIs LBRACKET p) (λ '(parts, dynamic),
        bracket ← get (peekTokenIs LBRACKET);
        if bracket : bool then
          selected ← parsePathTargetSelector parts dynamic;
          mret (match selected with Some path => inl path | None => inr (parts, dynamic) end)
        else
          nextToken;; nextToken;;
          segment ← get currentToken;
          mret (if ident_or_time (Type_ segment) then inl (parts ++ [Literal segment], dynamic)
                else inr (parts, dynamic))) ([Literal tok], []);
  mret (PathExpression tok (merged r).1 (merged r).2).

Definition parseScopeRelativeExpression : Op Parser Expression :=
  next ← get peekToken;
  if negb (bool_decide (Type_ next = IDENT)) then
    error (b "expected identifier after '.'" ++ at_token next);; mret NilExpression
  else
    tok ← get currentToken;
    nextToken;;
    first ← get current_literal;
    r ← loop (λ p, peekTokenIs DOT p && negb (bool_decide (Literal (peekToken p) = []))) (λ parts,
          nextToken;;
          ident ← get (peekTokenIs IDENT);
          if ident : bool then
            nextToken;; name ← get current_literal; mret (inl (parts ++ [name]))
          else mret (inr parts)) [[]; first];
    mret (PathExpression tok (merged r) []).

(** ** Looking ahead *)

Definition path_start (p : Parser) : bool :=
  currentTokenIs IDENT p || currentTokenIs MY p || currentTokenIs WORLD p.
Definition line_contains (pattern : string) (p : Parser) : bool :=
  ContainsPattern (lexer p) (b pattern).

Definition looksLikePathAssignment (p : Parser) : bool :=
  if peekTokenIs ASSIGN p then true
  else if peekTokenIs DEFINE p then true
  else if line_contains ": " p && negb (line_contains "procedure" p) && negb (line_contains "watch" p)
  then true
  else HasTopLevelAssignment (lexer p).

Definition isSimpleAssignment (p : Parser) : bool :=
  if negb (path_start p) then false
  else if peekTokenIs ASSIGN p then true
  else if peekTokenIs DEFINE p then negb (line_contains "watch" p)
  else if peekTokenIs DOT p then
    if currentTokenIs MY p || currentTokenIs WORLD p then looksLikePathAssignment p else false
  else false.

Definition knownFunctions : list string :=
  [ "len"; "text"; "number"; "add"; "output"; "upper"; "lower"; "trim"; "substring"; "find";
    "replace"; "split"; "abs"; "floor"; "ceil"; "max"; "min"; "round"; "multiply"; "process";
    "call" ].

Definition isProcedureDefinition (p : Parser) : bool :=
  if negb (currentTokenIs IDENT p) || negb (peekTokenIs LPAREN p) then false
  else if negb (Column (currentToken p) =? 1) then false
  else if existsb (λ f, bool_decide (current_literal p = b f)) knownFunctions then false
  else line_contains "):" p.

Definition isWatchStatement (p : Parser) : bool :=
  if negb (currentTokenIs IDENT p) || negb (peekTokenIs DEFINE p) then false
  else line_contains "watch" p.

Definition isScopeStatement (p : Parser) : bool :=
  if negb (path_start p) then false
  else line_contains ".:" p || ContainsPattern (lexer p) [Byte.x2e; Byte.x0a; Byte.x3a] ||
       (EndsWithPattern (lexer p) (b ".") && negb (line_contains "[" p)).

Definition isDefinition (p : Parser) : bool :=
  if negb (path_start p) then false
  else if peekTokenIs ASSIGN p then false
  else if peekTokenIs LPAREN p then false
  else
    let rhsIsProcedure := line_contains "procedure" p in
    let rhsIsWatch := line_contains "watch" p in
    if peekTokenIs DEFINE p then
      if rhsIsWatch then false
      else if rhsIsProcedure then true
      else negb (line_contains ": " p)
    else if line_contains ": " p && negb (HasTopLevelAssignment (lexer p))
    then rhsIsProcedure || rhsIsWatch
    else false.

(** ** Statements *)

Definition skip_if (t : TokenType) : Op Parser unit :=
  here ← get (peekTokenIs t); if here : bool then nextToken else mret tt.
(** "Consume optional semicolon or newline". *)
Definition skip_separator : Op Parser unit :=
  here ← get (peekTokenIs SEMICOLON); if here : bool then nextToken else skip_if NEWLINE.

Definition parseExpressionStatement : Op Parser Statement :=
  tok ← get currentToken;
  e ← expression LOWEST;
  skip_if NEWLINE;;
  mret (ExpressionStatement tok e).

Definition parseScopeStatement : Op Parser Statement :=
  tok ← get currentToken;
  nextToken;;
  r ← loop (currentTokenIs DOT) (λ path,
        nextToken;;
        segment ← get currentToken;
        let path := path ++ b "." in
        match Type_ segment with
        | IDENT => nextToken;; mret (inl (path ++ Literal segment))
        | _ => mret (inr path)
        end) (Literal tok);
  let path := merged r in
  colon ← get (currentTokenIs DEFINE);
  if colon : bool then
    nextToken;;
    skipNewlines;;
    block ← get (peekTokenIs INDENT);
    if block : bool then
      nextToken;; body ← parseBlockStatement; mret (ScopeStatement tok path (Some body))
    else mret (ScopeStatement tok path None)
  else mret (ScopeStatement tok path None).

(** The right side of an assignment after [=]. *)
Definition assigned_value (tok : Token) (name : Expression) (modifier : option bytes) :
    Op Parser Statement :=
  nextToken;; nextToken;;
  quietly ← get (currentTokenIs QUIETLY);
  (if quietly : bool then nextToken else mret tt);;
  value ← expression LOWEST;
  skip_if NEWLINE;;
  mret (AssignmentStatement tok name value
          (if quietly : bool then Some (b "quietly") else modifier) quietly).

Definition parseAssignmentStatement : Op Parser Statement :=
  tok ← get currentToken;
  name ← parsePathTarget;
  (* what is left once a modifier may have been read *)
  let rest modifier :=
    assigned ← get (peekTokenIs ASSIGN);
    if assigned : bool then assigned_value tok name modifier
    else mret (ExpressionStatement tok name) in
  colon ← get (peekTokenIs DEFINE);
  if colon : bool then
    nextToken;;
    next ← get peek;
    match next with
    | COPY | LINK | RESET | EXCLUDE | PROTECTED | CASCADE | QUIETLY =>
        nextToken;;
        lit ← get current_literal;
        rest ((λ value, if starts_with value (b "reset ") then b "reset" else value) <$>
              modifier_value lit)
    | NEWLINE => rest None
    | _ =>
        nextToken;;
        value ← expression LOWEST;
        skip_separator;;
        mret (AssignmentStatement tok name value None false)
    end
  else rest None.

Definition parseEmbedDirectiveStatement : Op Parser Statement :=
  tok ← get currentToken;
  nextToken;;
  path ← expression LOWEST;
  skip_separator;;
  mret (EmbedDirectiveStatement tok path).

(** The consequence of an if, after its colon. *)
Definition consequence_or {A} (d : A) (k : option BlockStatement → Op Parser A) : Op Parser A :=
  multi ← get (peekTokenIs NEWLINE);
  if multi : bool then indented_or d (λ body, k (Some body))
  else nextToken;; stmt ← statement; body ← single_statement stmt; k body.

(** Up to the [else]: what was read before it, or the statement without one. *)
Definition if_turn : Op Parser (Token * Expression * option BlockStatement + Statement) :=
  let nil := inr (NilPointer "IfStatement") in
  tok ← get currentToken;
  nextToken;;
  condition ← expression LOWEST;
  next ← get peekToken;
  if negb (bool_decide (Type_ next = DEFINE)) then
    error (b "missing colon (:) after if condition" ++ at_token next);; mret nil
  else
    nextToken;;
    consequence_or nil (λ consequence,
      more ← get (peekTokenIs ELSE);
      if more : bool then nextToken;; mret (inl (tok, condition, consequence))
      else mret (inr (IfStatement tok condition consequence NilStatement))).

(** [parseIfStatement]; [fuel] bounds the chain of [else if]. *)
Fixpoint parse_if (fuel : nat) : Op Parser Statement :=
  match fuel with
  | O => out_of_fuel
  | S fuel =>
      r ← if_turn;
      match r with
      | inr stmt => mret stmt
      | inl (tok, condition, consequence) =>
          elif ← get (peekTokenIs IF_);
          if elif : bool then
            nextToken;;
            alternative ← parse_if fuel;
            mret (IfStatement tok condition consequence alternative)
          else
            let nil := NilPointer "IfStatement" in
            expect DEFINE or nil;
            indented_or nil (λ body, mret (IfStatement tok condition consequence (Block body)))
      end
  end.
Definition parseIfStatement : Op Parser Statement := λ p, parse_if (S (loop_fuel p)) p.

Definition parseQuietlyBlockStatement : Op Parser Statement :=
  tok ← get currentToken;
  expect DEFINE or NilStatement;
  indented_or NilStatement (λ body, mret (QuietlyBlockStatement tok body)).

Definition parseWhileStatement : Op Parser Statement :=
  let nil := NilPointer "WhileStatement" in
  tok ← get currentToken;
  nextToken;;
  condition ← expression LOWEST;
  expect DEFINE or nil;
  indented_or nil (λ body, mret (WhileStatement tok condition body)).

Definition parseForStatement : Op Parser Statement :=
  let nil := NilPointer "ForStatement" in
  tok ← get currentToken;
  expect IDENT or nil;
  first ← get current_literal;
  names ← more_idents first;
  match names with
  | inr _ => mret nil
  | inl variables =>
      expect IN or nil;
      nextToken;;
      iterable ← expression LOWEST;
      expect DEFINE or nil;
      indented_or nil (λ body, mret (ForStatement tok variables iterable body))
  end.

(** One turn of the loop over cases; [None]: the statement is given up. *)
Definition consider_step (acc : list ConsiderCase * option BlockStatement) :
    Op Parser (list ConsiderCase * option BlockStatement + unit) :=
  let '(cases, default_) := acc in
  tok ← get currentToken;
  if bool_decide (Type_ tok = IDENT) && bool_decide (Literal tok = b "case") then
    nextToken;;
    value ← expression LOWEST;
    expect DEFINE or (inr tt);
    expect INDENT or (inr tt);
    body ← parseBlockStatement;
    end_ ← get currentToken;
    mret (inl (cases ++ [mkCase end_ value body], default_))
  else if bool_decide (Type_ tok = IDENT) && bool_decide (Literal tok = b "default") then
    nextToken;;
    expect DEFINE or (inr tt);
    expect INDENT or (inr tt);
    body ← parseBlockStatement;
    mret (inl (cases, Some body))
  else nextToken;; mret (inl acc).

Definition parseConsiderStatement : Op Parser Statement :=
  let nil := NilPointer "ConsiderStatement" in
  tok ← get currentToken;
  nextToken;;
  value ← expression LOWEST;
  expect DEFINE or nil;
  expect INDENT or nil;
  r ← loop (λ p, negb (currentTokenIs DEDENT p) && negb (currentTokenIs EOF p)) consider_step
        ([], None);
  mret (match r with
        | inl (cases, default_) => ConsiderStatement tok value cases default_
        | inr _ => nil
        end).

Definition parseReturnStatement : Op Parser Statement :=
  tok ← get currentToken;
  next ← get peek;
  match next with
  | NEWLINE | EOF => mret (ReturnStatement tok NilExpression)
  | _ =>
      nextToken;;
      value ← expression LOWEST;
      skip_if NEWLINE;;
      mret (ReturnStatement tok value)
  end.

Definition parsePassStatement : Op Parser Statement :=
  tok ← get currentToken; skip_separator;; mret (PassStatement tok).
Definition parseBreakStatement : Op Parser Statement :=
  tok ← get currentToken; skip_separator;; mret (BreakStatement tok).

(** The watcher after its name: paths, filters, binding and body. *)
Definition watcher (name : bytes) : Op Parser Statement :=
  tok ← get currentToken;
  append ← get (peekTokenIs APPEND);
  if append : bool then
    nextToken;;
    expect LPAREN or NilStatement;
    nextToken;;
    path ← expression LOWEST;
    let '(watched, filters) := match path with
                               | BracketFilterExpression _ object filters => (object, filters)
                               | _ => (path, [])
                               end in
    expect RPAREN or NilStatement;
    expect AS or NilStatement;
    expect IDENT or NilStatement;
    binding ← get current_literal;
    expect DEFINE or NilStatement;
    indented_or NilStatement (λ body, mret (WatchStatement tok name true [watched] filters binding body))
  else
    expect LPAREN or NilStatement;
    nextToken;;
    paths ← comma_list (expression LOWEST);
    expect RPAREN or NilStatement;
    expect DEFINE or NilStatement;
    indented_or NilStatement (λ body, mret (WatchStatement tok name false paths [] [] body)).

Definition parseWatchStatement : Op Parser Statement :=
  first ← get (currentTokenIs WATCH);
  if first : bool then
    next ← get peek;
    match next with
    | IDENT | MY | WORLD =>
        nextToken;;
        path ← parsePathExpression;
        watcher (Join path.2 (b "."))
    | _ => parseExpressionStatement
    end
  else
    name ← get current_literal;
    expect DEFINE or NilStatement;
    expect WATCH or NilStatement;
    watcher name.

(** [p.parseRecordLiteral().( *RecordExpression)]. *)
Definition record_literal : Op Parser Expression :=
  record ← parseRecordLiteral;
  match record with
  | NilExpression => op_lift (Panic "interface conversion: interface is nil, not *RecordExpression")
  | _ => mret record
  end.

Definition parseInstantiationStatement : Op Parser Statement :=
  tok ← get currentToken;
  expect IDENT or (NilPointer "InstantiationStatement");
  type ← get current_literal;
  colon ← get (peekTokenIs DEFINE);
  modifier ← (if colon : bool then
                nextToken;;
                next ← get peek;
                match next with
                | COPY | LINK | RESET | EXCLUDE =>
                    nextToken;; lit ← get current_literal; mret (modifier_value lit)
                | _ => mret None
                end
              else mret None);
  r ← loop (λ p, peekTokenIs IDENT p || peekTokenIs LBRACE p) (λ sources,
        nextToken;;
        source ← get currentToken;
        source ← (if bool_decide (Type_ source = IDENT) then mret (TemplateName (Literal source))
                  else record ← record_literal; mret (InlineRecord record));
        more ← get (peekTokenIs COMMA);
        if more : bool then nextToken;; mret (inl (sources ++ [source]))
        else mret (inr (sources ++ [source]))) [];
  brace ← get (peekTokenIs LBRACE);
  properties ← (if brace : bool then nextToken;; record_literal else mret NilExpression);
  mret (InstantiationStatement tok type modifier (merged r) properties).

Definition parseProcedureStatement : Op Parser Statement :=
  let nil := NilPointer "ProcedureStatement" in
  tok ← get currentToken;
  expect LPAREN or nil;
  none ← get (peekTokenIs RPAREN);
  parameters ← (if none : bool then mret [] else nextToken;; comma_list (get current_literal));
  expect RPAREN or nil;
  expect DEFINE or nil;
  multi ← get (peekTokenIs NEWLINE);
  if multi : bool then
    indented_or nil (λ body, mret (ProcedureStatement tok (Literal tok) parameters body))
  else body ← parseSameLineBlock; mret (ProcedureStatement tok (Literal tok) parameters body).

Definition parseTypeFirstProcedureStatement : Op Parser Statement :=
  procToken ← get currentToken;
  expect IDENT or NilStatement;
  nameToken ← get currentToken;
  expect LPAREN or NilStatement;
  none ← get (peekTokenIs RPAREN);
  r ← (if none : bool then mret (inl [])
       else expect IDENT or (inr tt); first ← get current_literal; more_idents first);
  match r with
  | inr _ => mret NilStatement
  | inl parameters =>
      expect RPAREN or NilStatement;
      expect DEFINE or NilStatement;
      body_or true NilStatement (λ body,
        mret (DefinitionStatement procToken (PathExpression nameToken [Literal nameToken] [])
                (ProcedureExpression procToken parameters (Some body))))
  end.

Definition parseDefinitionStatement : Op Parser Statement :=
  tok ← get currentToken;
  path ← parsePathExpression;
  expect DEFINE or NilStatement;
  nextToken;;
  value ← expression LOWEST;
  mret (if is_nil value then NilStatement
        else DefinitionStatement tok (PathExpression path.1 path.2 []) value).

(** The clauses after a catch; [inr]: an invalid clause ends the statement. *)
Definition else_step (clauses : list ElseClause) : Op Parser (list ElseClause + list ElseClause) :=
  nextToken;;
  tok ← get currentToken; next ← get peekToken;
  if bool_decide (Type_ next = UNKNOWN) ||
     (bool_decide (Type_ next = IDENT) && bool_decide (Literal next = b "unknown")) then
    nextToken;;
    type ← get current_literal;
    expect DEFINE or (inr clauses);
    skipNewlines;;
    block ← get (peekTokenIs INDENT);
    body ← (if block : bool then nextToken;; body ← parseBlockStatement; mret (Some body)
            else mret None);
    mret (inl (clauses ++ [mkElse tok type body]))
  else noPrefixParseFnError (Type_ next);; mret (inr clauses).

Definition parseCatchStatement : Op Parser Statement :=
  tok ← get currentToken;
  expect DEFINE or NilStatement;
  indented_or NilStatement (λ body,
    r ← loop (peekTokenIs ELSE) else_step [];
    mret (CatchStatement tok body (merged r) None)).

Definition parseScopeRelativeAssignment : Op Parser Statement :=
  tok ← get currentToken;
  name ← parseScopeRelativeExpression;
  if is_nil name then mret NilStatement else
  expect ASSIGN or NilStatement;
  nextToken;;
  value ← expression LOWEST;
  mret (if is_nil value then NilStatement else AssignmentStatement tok name value None false).

(** The statement of a token that names none: what follows decides. *)
Definition by_lookahead : Op Parser Statement := λ p,
  (if path_start p then
     if isDefinition p then parseDefinitionStatement
     else if isSimpleAssignment p then parseAssignmentStatement
     else if isProcedureDefinition p then parseProcedureStatement
     else if isWatchStatement p then parseWatchStatement
     else if isScopeStatement p then parseScopeStatement
     else parseExpressionStatement
   else parseExpressionStatement) p.

(** The statement of the current token. *)
Definition dispatch : Op Parser Statement :=
  quietly ← get (λ p, currentTokenIs QUIETLY p && peekTokenIs DEFINE p);
  if quietly : bool then parseQuietlyBlockStatement else
  here ← get current;
  match here with
  | IF_ => parseIfStatement
  | WHILE => parseWhileStatement
  | FOR => parseForStatement
  | CONSIDER => parseConsiderStatement
  | WATCH => parseWatchStatement
  | PROCEDURE =>
      named ← get (peekTokenIs IDENT);
      if named : bool then parseTypeFirstProcedureStatement else parseExpressionStatement
  | CATCH => parseCatchStatement
  | RETURN => parseReturnStatement
  | PASS => parsePassStatement
  | BREAK => parseBreakStatement
  | NEW => parseInstantiationStatement
  | EMBED | SPREAD => parseEmbedDirectiveStatement
  | DOT => parseScopeRelativeAssignment
  | _ => by_lookahead
  end.

Definition parseStatement : Op Parser Statement := guarded NilStatement (skipComments;; dispatch).

Definition program_step (statements : list Statement) : Op Parser (list Statement + list Statement) :=
  skipComments;;
  here ← get current;
  match here with
  | EOF => mret (inr statements)
  | NEWLINE => nextToken;; mret (inl statements)
  | _ =>
      stmt ← parseStatement;
      let statements := statements ++ kept stmt in
      critical ← get hasCriticalError;
      if critical : bool then mret (inr statements) else
      more ← get (peekTokenIs SEMICOLON);
      (if more : bool then nextToken else mret tt);; nextToken;; mret (inl statements)
  end.

Definition parse_program : Op Parser Program :=
  tok ← get currentToken;
  r ← loop (λ p, negb (currentTokenIs EOF p)) program_step [];
  mret (mkProgram tok (merged r)).
End Methods.

(** ** The recursion tied

    A call at depth [d] recurses at depth [d + 1], and one beyond the limit does
    not recurse: [maxRecursionDepth + 1] levels are enough for one parser.  A
    nested parser has a shorter source. *)
Fixpoint level (sub : bytes → res (Parser * Expression)) (n : nat) : Rec :=
  match n with
  | O => mkRec (λ _, out_of_fuel) out_of_fuel sub
  | S n =>
      let r := level sub n in mkRec (parseExpression r) (parseStatement r) sub
  end.
Definition depth_fuel : nat := Z.to_nat maxRecursionDepth.

Fixpoint nested (fuel : nat) (source : bytes) : res (Parser * Expression) :=
  match fuel with
  | O => Err "out of fuel"
  | S fuel =>
      match parseExpression (level (nested fuel) depth_fuel) LOWEST (New (MblLexer.New source)) with
      | (p, Ok e) => Ok (p, e)
      | (_, Err e) => Err e
      | (_, Panic e) => Panic e
      end
  end.

Definition ParseProgram (fuel : nat) : Op Parser Program :=
  parse_program (level (nested fuel) depth_fuel).

(** [parser.New(lexer.New(source)).ParseProgram()]. *)
Definition parse (source : bytes) : Parser * res Program :=
  ParseProgram (length source) (New (MblLexer.New source)).
End Parser.
