(* ===== verification/MblParserRules.v ===== *)
(** * Rules for the operations of the MBL parser

    [Spec P D G m] says that [m], begun in a state of the parser's invariant
    where [P] holds, does not run out of fuel, leaves the invariant, only appends
    errors, leaves the recursion depth as it was but for one more each time it
    reported the limit, makes the measure smaller where [D] holds of its result,
    and returns a result in [G] unless it reported an error.  The rules follow
    the structure of an operation, and instances hold what is known of each. *)
From S2P Require Import Prelude Utf8 MblTokens MblLexer MblAst MblParser.

(** ** Tokens that carry a source *)

Definition carries (t : TokenType) : bool :=
  match t with INTERP_TEXT | COPY | LINK | RESET | EXCLUDE => true | _ => false end.

(** Trimming and unquoting make no text longer. *)
Lemma length_trim_left n s : (length (trim_left n s) ≤ length s)%nat.
Proof.
  revert s. induction n as [|n IH]; intros s; cbn [trim_left]; [lia|].
  destruct (list_find _ spaces) as [[i sp]|]; [|lia]. etrans; [apply IH|]. rewrite length_drop. lia.
Qed.
Lemma length_trim_right n s : (length (trim_right n s) ≤ length s)%nat.
Proof.
  revert s. induction n as [|n IH]; intros s; cbn [trim_right]; [lia|].
  destruct (list_find _ spaces) as [[i sp]|]; [|lia]. etrans; [apply IH|]. rewrite length_take. lia.
Qed.
Lemma length_TrimSpace s : (length (TrimSpace s) ≤ length s)%nat.
Proof. unfold TrimSpace. etrans; [apply length_trim_right|apply length_trim_left]. Qed.

Lemma length_unquote_run lit n s : unquote_run lit n = Some s → (length s ≤ length lit)%nat.
Proof.
  induction n as [|n IH]; cbn [unquote_run]; [done|]. destruct (_ <? _)%nat; [done|].
  case_bool_decide; [|done]. intros [= <-]. rewrite length_take, length_drop. lia.
Qed.
Lemma length_UnquoteText lit : (length (UnquoteText lit).1 ≤ length lit)%nat.
Proof.
  unfold UnquoteText. cbv zeta. destruct (_ && _ && _).
  - destruct (unquote_run lit _) eqn:E; [by eapply length_unquote_run|done].
  - destruct (_ && _ && _); cbn; [rewrite length_take, length_drop; lia|done].
Qed.

Section Tokens.
Context (IsLetter : Z → bool).

Definition bounded (k : nat) (tk : Token) : Prop :=
  carries (Type_ tk) = true → (length (Literal tk) ≤ k)%nat.

Lemma length_slice l i j : (length (slice l i j) ≤ length (input l))%nat.
Proof. unfold slice. rewrite length_take, length_drop. lia. Qed.

Lemma table_carries table word t : table_lookup table word = Some t →
  forallb (λ t, negb (carries t)) (snd <$> table) = true → carries t = false.
Proof.
  intros Hl%table_lookup_in Ht. rewrite forallb_forall in Ht. apply negb_true_iff, Ht.
  by apply list_elem_of_In.
Qed.
Lemma lookupIdent_carries l ident : carries (lookupIdentWithContext l ident) = false.
Proof.
  unfold lookupIdentWithContext, LookupIdent. destruct (_ && _); [done|].
  destruct (table_lookup keywords ident) eqn:E; [|done]. by eapply table_carries.
Qed.
Lemma single_char_carries c t : single_char c = Some t → carries t = false.
Proof. unfold single_char. intros. repeat case_match; simplify_eq; done. Qed.
Lemma with_equals_carries c t1 t2 : with_equals c = Some (t1, t2) →
  carries t1 = false ∧ carries t2 = false.
Proof. unfold with_equals. intros. repeat case_match; simplify_eq; done. Qed.

Lemma sigil_bounded l sigil : at_char l → ch l ≠ 0 →
  (length (readSigilString sigil l).1.2 ≤ length (input l))%nat.
Proof.
  intros Hl Hc. destruct (readSigilString_passes sigil l Hl Hc) as [Hm _].
  unfold readSigilString in *. cbv zeta in *.
  destruct (find_close _ _ _ _); cbn [fst snd] in *;
    (etrans; [apply length_slice|]); rewrite (mv_input _ _ Hm); lia.
Qed.

Lemma modifier_bounded l : at_char l → ch l ≠ 0 →
  (length (Literal (readModifier l).2) ≤ length (input l))%nat.
Proof.
  intros Hl Hc. destruct (readModifier_passes l Hl Hc) as [Hm _].
  unfold readModifier in *. cbv zeta in *. cbn [fst snd] in *. unfold token_here. cbn [Literal].
  etrans; [apply length_slice|]. rewrite (mv_input _ _ Hm). lia.
Qed.

Lemma scan_bounded l : at_char l → bounded (length (input l)) (scan IsLetter l).2.
Proof.
  intros Hl0. pose proof (read_while_moves (λ c, (c =? cSP) || (c =? cCR)) l Hl0) as Hm.
  unfold scan, skipWhitespace, bounded. set (l1 := read_while _ l) in *. cbv zeta.
  rewrite <- (mv_input _ _ Hm). pose proof (mv_char _ _ Hm) as Hl. clearbody l1.
  destruct (_ && (peekChar l1 =? cQUOTE)) eqn:Hsig.
  { assert (Hc : ch l1 ≠ 0).
    { apply andb_true_iff in Hsig as [[H|H]%orb_true_iff _]; by apply (eqb_nonzero _ _ H). }
    pose proof (sigil_bounded l1 (byte_of (ch l1)) Hl Hc).
    by destruct (readSigilString _ l1) as [[l2 lit] []]. }
  destruct (ch l1 =? 0) eqn:H0; [by destruct (1 <? _)%nat|].
  destruct (ch l1 =? cNL); [done|].
  destruct (ch l1 =? cHASH); [unfold readComment; cbv zeta; by destruct (_ =? 1)%nat|].
  destruct (ch l1 =? cQUOTE); [by destruct (readString l1) as [[l2 lit] []]|].
  destruct (ch l1 =? 0x40); [by destruct (readTimeLiteral IsLetter l1)|].
  destruct (is_currency (ch l1)); [by destruct (readMoneyLiteral IsLetter l1)|].
  destruct (ch l1 =? 0x28).
  { destruct (isStandaloneModifier IsLetter l1); [|done]. intros _.
    apply modifier_bounded; [done|]. by apply Z.eqb_neq. }
  destruct (ch l1 =? cDOT).
  { destruct (peekChar l1 =? cDOT); [|done]. by destruct (peekChar (readChar l1) =? cDOT). }
  destruct (single_char (ch l1)) as [t|] eqn:Hs.
  { cbn. by rewrite (single_char_carries _ _ Hs). }
  destruct (with_equals (ch l1)) as [[t1 t2]|] eqn:Hw.
  { apply with_equals_carries in Hw as [E1 E2].
    destruct (peekChar l1 =? 0x3D); cbn; [by rewrite E1|by rewrite E2]. }
  destruct (isLetter IsLetter (ch l1)).
  { destruct (readIdentifier IsLetter l1) as [l2 lit]. cbn. by rewrite lookupIdent_carries. }
  destruct (isDigit (ch l1)); [|done].
  destruct (readNumber l1) as [l2 lit]. by destruct (ch l2 =? cDOT).
Qed.

Lemma NextToken_bounded l : lexer_ok l → bounded (length (input l)) (NextToken IsLetter l).2.
Proof.
  intros Hok. unfold NextToken. destruct (0 <? pendingDedents l); [done|].
  destruct (atLineStart l); [|apply scan_bounded, Hok].
  unfold handleIndentation in *. cbv zeta in *.
  destruct (read_indent _ _ _ l) as [[l1 s] t] eqn:E.
  assert (Hm : moves l l1).
  { pose proof (read_indent_moves (S (length (input l))) 0 0 l (lo_char l Hok)) as H. by rewrite E in H. }
  assert (Hscan : ∀ stack, bounded (length (input l))
    (scan IsLetter (set_indent l1 stack (pendingDedents l1) false)).2).
  { intros. rewrite <- (mv_input _ _ Hm).
    apply (scan_bounded (set_indent l1 stack (pendingDedents l1) false)).
    apply (mv_char _ _ Hm). }
  repeat (case_match; simplify_eq; try done; try apply Hscan).
Qed.
End Tokens.

(** ** The invariant and what an operation may do *)

(** The limit was reported so many times. *)
Definition depth_errors (es : list bytes) : Z := len (filter (λ e, e = depth_message) es).

(** Nothing is left to read. *)
Definition spent (p : Parser) : Prop := current p = EOF ∧ peek p = EOF.
Definition same_tokens (p p' : Parser) : Prop :=
  lexer p' = lexer p ∧ currentToken p' = currentToken p ∧ peekToken p' = peekToken p.

(** [k] bounds the length of the source and of the sources in its tokens. *)
Record base (k : nat) (p : Parser) : Prop := {
  ba_lexer : lexer_ok (lexer p);
  ba_input : (length (input (lexer p)) ≤ k)%nat;
  ba_current : bounded k (currentToken p);
  ba_peek : bounded k (peekToken p);
  ba_depth : 0 ≤ recursionDepth p
}.
Record Adv (k : nat) (p p' : Parser) : Prop := {
  ad_base : base k p';
  ad_measure : measure p' ≤ measure p;
  ad_moved : ¬ spent p → same_tokens p p' ∨ measure p' < measure p;
  ad_errors : ∃ es, errors p' = errors p ++ es ∧
    recursionDepth p' = recursionDepth p + depth_errors es
}.

(** [n] levels of recursion are left at this depth. *)
Definition ready (k n : nat) (p : Parser) : Prop :=
  base k p ∧ (1 ≤ n)%nat ∧ maxRecursionDepth + 1 ≤ Z.of_nat n + recursionDepth p.

Class Spec {A} (k n : nat) (P : Parser → Prop) (D : A → bool) (G : A → Prop) (m : Op Parser A) :
    Prop :=
  spec : ∀ p, ready k n p → P p →
    match m p with
    | (p', Ok a) => Adv k p p' ∧ (¬ spent p → D a = true → measure p' < measure p) ∧
                    (errors p' = errors p → G a)
    | (_, Err _) => False
    | (_, Panic _) => True
    end.

Definition always (p : Parser) : Prop := True.
Definition never {A} (a : A) : bool := false.
Definition surely {A} (a : A) : bool := true.
Definition anything {A} (a : A) : Prop := True.
Definition is_inl {A B} (r : A + B) : bool := match r with inl _ => true | inr _ => false end.
(** The results of a loop that keeps [I], and breaks off with [J]. *)
Definition either {A B} (I : A → Prop) (J : B → Prop) (r : A + B) : Prop :=
  match r with inl a => I a | inr x => J x end.

Lemma depth_errors_nonneg es : 0 ≤ depth_errors es.
Proof. apply len_nonneg. Qed.
Lemma depth_errors_app es es' : depth_errors (es ++ es') = depth_errors es + depth_errors es'.
Proof. unfold depth_errors. by rewrite filter_app, len_app. Qed.

Lemma Adv_depth k p p' : Adv k p p' → recursionDepth p ≤ recursionDepth p'.
Proof. intros [_ _ _ (es & _ & ->)]. pose proof (depth_errors_nonneg es). lia. Qed.
Lemma Adv_ready k n p p' : ready k n p → Adv k p p' → ready k n p'.
Proof.
  intros (_ & Hn & Hd) Ha. pose proof (Adv_depth _ _ _ Ha). split_and!; [apply Ha|done|lia].
Qed.
Lemma measure_pos k n p : ready k n p → 0 < measure p.
Proof.
  intros [[Hl _ _ _ _] _]. pose proof (ok_stack_pos _ Hl). pose proof (lo_pending _ Hl).
  pose proof (at_char_bound _ (lo_char _ Hl)). unfold measure, token_weight, todo, len in *.
  destruct (bool_decide _), (bool_decide _); lia.
Qed.
Lemma same_tokens_spent p p' : same_tokens p p' → spent p' → spent p.
Proof. unfold spent, current, peek. by intros (_ & -> & ->). Qed.
Lemma same_tokens_measure p p' : same_tokens p p' → measure p' = measure p.
Proof. unfold measure. by intros (-> & -> & ->). Qed.

Lemma Adv_same k p p' es : base k p → same_tokens p p' → errors p' = errors p ++ es →
  recursionDepth p' = recursionDepth p + depth_errors es → Adv k p p'.
Proof.
  intros [] Hs He Hd. pose proof (depth_errors_nonneg es).
  pose proof (same_tokens_measure _ _ Hs). destruct Hs as (E1 & E2 & E3).
  split; [split; rewrite ?E1, ?E2, ?E3; [done..|lia]|lia|by left|by eauto].
Qed.
Lemma Adv_refl k p : base k p → Adv k p p.
Proof.
  intros Hb. eapply (Adv_same _ _ _ []); [done|done|by rewrite app_nil_r|].
  change (depth_errors []) with 0. lia.
Qed.

Lemma Adv_trans k p1 p2 p3 : Adv k p1 p2 → Adv k p2 p3 → Adv k p1 p3.
Proof.
  intros [_ Hm1 Hs1 (es1 & E1 & D1)] [Hb Hm2 Hs2 (es2 & E2 & D2)]. split; [done|lia| |].
  - intros Hn. destruct (Hs1 Hn) as [Hs|]; [|right; lia].
    destruct Hs2 as [Hs'|]; [by intros ?%(same_tokens_spent _ _ Hs)| |].
    + left. destruct Hs as (? & ? & ?), Hs' as (? & ? & ?). split_and!; congruence.
    + right. rewrite <- (same_tokens_measure _ _ Hs). lia.
  - exists (es1 ++ es2). rewrite E2, E1, depth_errors_app, <- app_assoc. split; [done|lia].
Qed.
(** Errors unchanged over two steps are unchanged over each. *)
Lemma Adv_errors k p1 p2 p3 : Adv k p1 p2 → Adv k p2 p3 → errors p3 = errors p1 →
  errors p2 = errors p1 ∧ errors p3 = errors p2.
Proof.
  intros [_ _ _ (es1 & E1 & _)] [_ _ _ (es2 & E2 & _)]. rewrite E2, E1, <- app_assoc.
  intros E. assert (H : es1 ++ es2 = []) by (apply (app_inv_head (errors p1)); by rewrite app_nil_r).
  apply app_nil in H as [-> ->]. by rewrite !app_nil_r.
Qed.

(** ** The rules *)

Section Rules.
Context (k n : nat).
Local Notation Spec := (Spec k n).

Lemma spec_weaken {A} (P P' : Parser → Prop) D D' G G' (m : Op Parser A) :
  Spec P D G m → (∀ p, P' p → P p) → (∀ a, D' a = true → D a = true) → (∀ a, G a → G' a) →
  Spec P' D' G' m.
Proof.
  intros Hm HP HD HG p Hr Hp. specialize (Hm p Hr (HP p Hp)). destruct (m p) as [p' [a|e|e]]; [|done..].
  destruct Hm as (Ha & Hd & Hg). split_and!; auto.
Qed.

Lemma spec_mret {A} P D G (a : A) : D a = false → G a → Spec P D G (mret a).
Proof.
  intros HD HG p Hr _. cbn. split_and!; [apply Adv_refl, Hr|congruence|done].
Qed.

(** The second operation begins in a state that the first leaves. *)
Definition left_by {A} P (D : A → bool) (m : Op Parser A) (a : A) (p' : Parser) : Prop :=
  ∃ p, ready k n p ∧ P p ∧ m p = (p', Ok a) ∧ Adv k p p' ∧
    (¬ spent p → D a = true → measure p' < measure p).
Lemma spec_bind_full {A B} P D1 G1 D G (m : Op Parser A) (f : A → Op Parser B) :
  Spec P D1 G1 m →
  (∀ a, Spec (left_by P D1 m a) (λ x, D x && negb (D1 a)) (λ x, G1 a → G x) (f a)) →
  Spec P D G (m ≫= f).
Proof.
  intros Hm Hf p Hr Hp. specialize (Hm p Hr Hp). unfold mbind, op_bind.
  destruct (m p) as [p1 [a|e|e]] eqn:E; [|done..]. destruct Hm as (Ha1 & Hd1 & Hg1).
  specialize (Hf a p1 (Adv_ready _ _ _ _ Hr Ha1)).
  destruct (f a p1) as [p2 [x|e|e]]; [|apply Hf; by exists p|done].
  destruct Hf as (Ha2 & Hd2 & Hg2); [by exists p|]. split_and!; [by eapply Adv_trans| |].
  - intros Hs HD. pose proof (ad_measure _ _ _ Ha2). destruct (D1 a) eqn:E1; [specialize (Hd1 Hs eq_refl); lia|].
    destruct (ad_moved _ _ _ Ha1 Hs) as [Hsame|]; [|lia].
    rewrite <- (same_tokens_measure _ _ Hsame). apply Hd2; [|by rewrite HD].
    by intros ?%(same_tokens_spent _ _ Hsame).
  - intros He. destruct (Adv_errors _ _ _ _ Ha1 Ha2 He) as [E1 E2]. auto.
Qed.
Lemma spec_bind_post {A B} P (Q : A → Parser → Prop) D1 G1 D G (m : Op Parser A)
    (f : A → Op Parser B) :
  Spec P D1 G1 m →
  (∀ p p' a, P p → m p = (p', Ok a) → Q a p') →
  (∀ a, Spec (Q a) (λ x, D x && negb (D1 a)) (λ x, G1 a → G x) (f a)) →
  Spec P D G (m ≫= f).
Proof.
  intros Hm HQ Hf. eapply spec_bind_full; [done|]. intros a p Hr (p0 & _ & Hp & E & _).
  apply Hf; eauto.
Qed.
Lemma spec_bind {A B} P D1 G1 D G (m : Op Parser A) (f : A → Op Parser B) :
  Spec P D1 G1 m →
  (∀ a, Spec always (λ x, D x && negb (D1 a)) (λ x, G1 a → G x) (f a)) →
  Spec P D G (m ≫= f).
Proof. intros Hm Hf. by apply (spec_bind_post P (λ _, always) D1 G1). Qed.

Lemma spec_get {A B} P D G (f : Parser → A) (g : A → Op Parser B) :
  (∀ x, Spec (λ p, P p ∧ f p = x) D G (g x)) → Spec P D G (get f ≫= g).
Proof. intros Hg p Hr Hp. apply (Hg (f p) p Hr). done. Qed.

#[export] Instance spec_read {A} P (f : Parser → A) : Spec P never anything (get f).
Proof. intros p Hr _. cbn. split_and!; [apply Adv_refl, Hr|done..]. Qed.

(** A condition known where an operation begins holds of what it is. *)
Lemma spec_pure {A} (P : Parser → Prop) (φ : Prop) D G (m : Op Parser A) :
  (∀ p, P p → φ) → (φ → Spec P D G m) → Spec P D G m.
Proof. intros Hφ Hm p Hr Hp. apply Hm; [by eapply Hφ|done..]. Qed.

Lemma spec_state {A} P D G (m : Parser → Op Parser A) :
  (∀ q, Spec (λ p, P p ∧ p = q) D G (m q)) → Spec P D G (λ p, m p p).
Proof. intros Hm p Hr Hp. by apply (Hm p p). Qed.

Lemma spec_any {A} P (m : Op Parser A) D G :
  Spec P D G m → Spec P never anything m.
Proof. intros Hm. by eapply spec_weaken. Qed.

(** What an operation that reports an error returns does not matter. *)
Definition unreachable {A} (a : A) : Prop := False.

Lemma spec_error P msg : msg ≠ depth_message → Spec P never unreachable (error msg).
Proof.
  intros Hmsg p [Hb _] _. cbn. split_and!; [|done|].
  - apply (Adv_same _ _ _ [msg]); [done|done|done|]. unfold depth_errors.
    rewrite filter_cons_False by done. change (recursionDepth p = recursionDepth p + 0). lia.
  - intros E%(f_equal length). rewrite length_app in E. cbn in E. lia.
Qed.

Lemma spec_lift {A} P (r : res A) : (∀ e, r ≠ Err e) → Spec P never (λ a, r = Ok a) (op_lift r).
Proof.
  intros Hr p Hp _. unfold op_lift. destruct r as [a|e|e]; [|by destruct (Hr e)|done].
  split_and!; [apply Adv_refl, Hp|done|done].
Qed.

Lemma loop_n_eq {A B} m cond (body : A → Op Parser (A + B)) a p :
  loop_n m cond body a p =
    if cond p then
      match m with
      | O => (p, Err "out of fuel")
      | S m =>
          match body a p with
          | (p', Ok (inl a')) => loop_n m cond body a' p'
          | (p', Ok (inr x)) => (p', Ok (inr x))
          | (p', Err e) => (p', Err e)
          | (p', Panic e) => (p', Panic e)
          end
      end
    else (p, Ok (inl a)).
Proof.
  destruct m; cbn [loop_n]; unfold mbind, op_bind, get; destruct (cond p); try done.
  by destruct (body a p) as [p' [[|]| |]].
Qed.

(** A loop runs while a token is left, and each turn takes one. *)
Lemma spec_loop {A B} P (cond : Parser → bool) (body : A → Op Parser (A + B)) a
    (I : A → Prop) (J : B → Prop) :
  (∀ a p, cond p = true → ¬ spent p ∨ ∀ p' a', body a p ≠ (p', Ok (inl a'))) →
  (∀ a, Spec (λ p, cond p = true) is_inl (λ r, I a → either I J r) (body a)) →
  Spec P never (λ r, I a → either I J r) (loop cond body a).
Proof.
  intros Hcond Hbody.
  assert (Hn : ∀ m a p, ready k n p → measure p ≤ Z.of_nat m →
    match loop_n m cond body a p with
    | (p', Ok r) => Adv k p p' ∧ (errors p' = errors p → I a → either I J r)
    | (_, Err _) => False
    | (_, Panic _) => True
    end).
  { clear a. induction m as [|m IH]; intros a p Hr Hm; rewrite loop_n_eq;
      (destruct (cond p) eqn:Hc; [|split; [apply Adv_refl, Hr|done]]);
      pose proof (Hcond a p Hc) as Hs; specialize (Hbody a p Hr Hc).
    - pose proof (measure_pos _ _ _ Hr). lia.
    - destruct (body a p) as [p1 [[a'|x]|e|e]]; [| |done..]; destruct Hbody as (Ha1 & Hd1 & Hg1).
      + destruct Hs as [Hs|Hs]; [|by destruct (Hs p1 a')]. specialize (Hd1 Hs eq_refl). specialize (IH a' p1 (Adv_ready _ _ _ _ Hr Ha1)).
        destruct (loop_n m cond body a' p1) as [p2 [r|e|e]]; [|apply IH; lia|done].
        destruct IH as [Ha2 Hg2]; [lia|]. split; [by eapply Adv_trans|]. intros E Hi.
        destruct (Adv_errors _ _ _ _ Ha1 Ha2 E). cbn in Hg1. auto.
      + cbn. split; [done|]. auto. }
  intros p Hr _. unfold loop, loop_fuel. specialize (Hn (Z.to_nat (measure p)) a p Hr).
  destruct (loop_n _ cond body a p) as [p' [r|e|e]]; [|apply Hn; lia|done].
  destruct Hn as [H1 H2]; [lia|]. split_and!; [done|done|auto].
Qed.

Context (IsLetter : Z → bool).
Local Notation nextToken := (MblParser.nextToken IsLetter).

#[export] Instance spec_nextToken P : Spec P surely anything nextToken.
Proof.
  intros p ([Hl Hi Hc Hk Hd] & _ & _) _. unfold MblParser.nextToken, op_modify.
  pose proof (NextToken_step IsLetter _ Hl) as (Hl' & Hi' & Ht & _).
  pose proof (NextToken_bounded IsLetter _ Hl) as Hb.
  destruct (NextToken IsLetter (lexer p)) as [l tk]. cbn [fst snd] in *.
  assert (token_weight tk + todo l ≤ todo (lexer p)).
  { unfold token_weight. revert Ht. destruct (bool_decide (Type_ tk = EOF)); lia. }
  assert (Hm : measure (set_tokens l (peekToken p) tk p) + token_weight (currentToken p) +
               token_weight (peekToken p) ≤ measure p).
  { unfold measure. cbn [set_tokens lexer currentToken peekToken]. lia. }
  assert (Hs : ¬ spent p → measure (set_tokens l (peekToken p) tk p) < measure p).
  { unfold spent, current, peek. unfold token_weight in Hm. intros Hs.
    repeat case_bool_decide; first [lia|by destruct Hs]. }
  split_and!; [|auto|done]. split.
  - split; cbn; rewrite ?Hi'; [done..| |done]. intros Hcar. etrans; [by apply Hb|]. by rewrite ?Hi'.
  - unfold token_weight in Hm. clear H. repeat case_bool_decide; lia.
  - auto.
  - exists []. cbn. rewrite app_nil_r. split; [done|]. change (depth_errors []) with 0. lia.
Qed.


#[export] Instance spec_peekError P t : Spec P never unreachable (peekError t).
Proof.
  unfold peekError. apply spec_get. intros tok. apply spec_error.
  intros E%(f_equal (take 3)). vm_compute in E. discriminate.
Qed.
#[export] Instance spec_noPrefix P t : Spec P never unreachable (noPrefixParseFnError t).
Proof.
  unfold noPrefixParseFnError. apply spec_get. intros tok. apply spec_get. intros next.
  apply spec_error. intros E%(f_equal (take 3)).
  destruct (bool_decide _); [destruct (bool_decide _)|]; vm_compute in E; discriminate.
Qed.

#[export] Instance spec_expectPeek P t :
  Spec P id (λ ok, ok = true) (expectPeek IsLetter t).
Proof.
  unfold expectPeek. apply spec_get. intros [].
  - eapply spec_bind; [apply spec_nextToken|]. intros ?. by apply spec_mret.
  - eapply spec_bind; [apply spec_peekError|]. intros ?. by apply spec_mret.
Qed.
Lemma spec_expect {A} P D G t (d : A) m : D d = false → Spec always never G m →
  Spec P D G (expect_or IsLetter t d m).
Proof.
  intros HD Hm. unfold expect_or. eapply spec_bind; [apply spec_expectPeek|]. intros []; cbn.
  - eapply spec_weaken; [exact Hm|done|by intros a; rewrite andb_false_r|done].
  - apply spec_mret; [by rewrite HD|done].
Qed.

#[export] Instance spec_skip_while P cond : (∀ p, cond p = true → ¬ spent p) →
  Spec P never anything (skip_while IsLetter cond).
Proof.
  intros Hc. unfold skip_while. eapply spec_bind.
  - apply (spec_loop _ _ _ _ anything anything); [by left; apply Hc|]. intros ?.
    eapply spec_bind; [apply spec_nextToken|]. intros ?. by apply spec_mret.
  - intros ?. by apply spec_mret.
Qed.
Lemma peek_not_spent t p : t ≠ EOF → peekTokenIs t p = true → ¬ spent p.
Proof. unfold peekTokenIs, spent. intros Ht ->%bool_decide_eq_true. naive_solver. Qed.
Lemma current_not_spent t p : t ≠ EOF → currentTokenIs t p = true → ¬ spent p.
Proof. unfold currentTokenIs, spent. intros Ht ->%bool_decide_eq_true. naive_solver. Qed.

#[export] Instance spec_skipComments P : Spec P never anything (skipComments IsLetter).
Proof.
  apply spec_skip_while. unfold is_comment.
  intros p [H|H]%orb_true_iff; by (eapply current_not_spent; [|exact H]).
Qed.
#[export] Instance spec_skipNewlines P : Spec P never anything (skipNewlines IsLetter).
Proof. apply spec_skip_while. intros p. by apply peek_not_spent. Qed.

#[export] Instance spec_incrementNodeCount P :
  Spec P never (λ ok, ok = true) incrementNodeCount.
Proof.
  intros p [Hb _] _. unfold incrementNodeCount, mbind, op_bind, get, op_modify.
  cbn [set_count nodeCount]. destruct (maxNodes <? nodeCount p + 1); cbn.
  - split_and!; [|done|].
    + apply (Adv_same _ _ _ [count_message]); [done..|].
      change (recursionDepth p = recursionDepth p + 0). lia.
    + intros E%(f_equal length). rewrite length_app in E. cbn in E. lia.
  - split_and!; [|done..]. apply (Adv_same _ _ _ []); [done..|by rewrite app_nil_r|].
    change (recursionDepth p = recursionDepth p + 0). lia.
Qed.
End Rules.

(** What happens one deeper happens here once the depth is put back. *)
Lemma Adv_deeper k p p' : base k p → Adv k (set_depth (recursionDepth p + 1) p) p' →
  Adv k p (set_depth (recursionDepth p' - 1) p').
Proof.
  intros Hb Ha. pose proof (Adv_depth _ _ _ Ha) as Hd. pose proof (ba_depth _ _ Hb).
  destruct Ha as [[] Hm Hs (es & He & Hes)]. cbn [set_depth recursionDepth] in *. split.
  - split; cbn [set_depth lexer currentToken peekToken recursionDepth]; [done..|lia].
  - exact Hm.
  - exact Hs.
  - exists es. split; [exact He|]. cbn [set_depth recursionDepth]. lia.
Qed.

Definition counted {A} (d : A) (m : Op Parser A) : Op Parser A :=
  ok ← incrementNodeCount; if ok : bool then m else mret d.
Lemma guarded_eq {A} (d : A) m p :
  guarded d m p =
    let p1 := set_depth (recursionDepth p + 1) p in
    if maxRecursionDepth <? recursionDepth p1 then (add_error depth_message p1, Ok d)
    else match counted d m p1 with
         | (p2, Ok a) =>
             (if 0 <? recursionDepth p2 then set_depth (recursionDepth p2 - 1) p2 else p2, Ok a)
         | (p2, Err e) => (p2, Err e)
         | (p2, Panic e) => (p2, Panic e)
         end.
Proof.
  unfold guarded, counted, incrementRecursionDepth, decrementRecursionDepth, error, get, op_modify.
  unfold mbind, op_bind, mret, op_ret. cbv zeta. cbn [set_depth recursionDepth].
  destruct (maxRecursionDepth <? _); [done|].
  destruct (incrementNodeCount _) as [p1 [[]|e|e]]; [|done..]. by destruct (m p1) as [p2 [a|e|e]].
Qed.

(** A guarded operation has one level more than its body. *)
Lemma spec_guarded {A} k n P G (d : A) m : Spec k n always never G m →
  Spec k (S n) P never G (guarded d m).
Proof.
  intros Hm p (Hb & _ & Hd) _. pose proof (ba_depth _ _ Hb). rewrite guarded_eq. cbv zeta.
  assert (Hb1 : base k (set_depth (recursionDepth p + 1) p)) by (split; cbn; [apply Hb..|lia]).
  cbn [set_depth recursionDepth] in *. destruct (Z.ltb_spec maxRecursionDepth (recursionDepth p + 1)).
  { split_and!; [|done|].
    - split; [split; cbn; [apply Hb..|lia]|reflexivity|by left|]. exists [depth_message]. done.
    - intros E%(f_equal length). cbn in E. rewrite length_app in E. cbn in E. lia. }
  assert (Hinner : Spec k n always never G (counted d m)).
  { eapply spec_bind; [apply _|].
    intros []; [eapply spec_weaken; [exact Hm|done..|by auto]|by apply spec_mret]. }
  specialize (Hinner _ ltac:(split_and!; [exact Hb1|lia|cbn; lia]) I).
  destruct (counted d m _) as [p2 [a|e|e]]; [|done..]. destruct Hinner as (Ha & _ & Hg).
  pose proof (Adv_depth _ _ _ Ha) as Hp2. cbn in Hp2.
  destruct (Z.ltb_spec 0 (recursionDepth p2)); [|lia].
  split_and!; [by apply Adv_deeper|done|exact Hg].
Qed.
