(* ===== verification/MblParserTotal.v ===== *)
(** * The MBL parser ends, and what a parse without errors gives

    Each operation of the parser meets its [Spec]: the parser never runs out of
    fuel, and a result is complete unless an error was reported. *)
From S2P Require Import Prelude Utf8 MblTokens MblLexer MblValue MblAst MblParser MblParserRules.

(** ** Automation *)

(** The conditions on measures, which compute. *)
Ltac spec_moved :=
  solve [ reflexivity | intros; cbn in *; rewrite ?andb_false_r in *; first [done | congruence] ].

Create HintDb complete discriminated.
#[export] Hint Resolve All_app All_snoc complete_kept : complete.

(** The conditions on results. *)
Ltac spec_good :=
  repeat match goal with
         | H : is_nil ?e = true |- _ => is_var e; destruct e; try discriminate H; clear H
         | H : stmt_nil ?s = true |- _ => is_var s; destruct s; try discriminate H; clear H
         end;
  solve [ done | intros; cbn in *; unfold anything, unreachable, either, merged, optional in *; repeat case_match; simplify_eq/=;
          intuition (eauto with complete) ].

(** An operation within another: a list of expressions is complete; where [None]
    or [inr] is failure it goes with an error; other results do not matter. *)
Ltac spec_inner := fail.
(** A body, and what is made of it. *)
Ltac spec_body := fail.
Ltac spec_step :=
  lazymatch goal with
  | |- Spec _ _ _ _ _ (mret (match ?x with _ => _ end)) => destruct x eqn:?
  | |- Spec _ _ _ _ _ (mret _) => apply spec_mret; [spec_moved|try spec_good]
  | |- Spec _ _ _ _ _ (get _ ≫= _) => apply spec_get; intros ?
  | |- Spec _ _ _ _ _ (indented_or _ _ _ _) => spec_body; [spec_moved|intros ?]
  | |- Spec _ _ _ _ _ (body_or _ _ _ _ _) => spec_body; [spec_moved|intros ?]
  | |- Spec _ _ _ _ _ (expect_or _ _ _ _) => apply spec_expect; [spec_moved|]
  | |- Spec _ _ _ _ _ (if ?c then _ else _) => destruct c eqn:?
  | |- Spec _ _ _ _ _ (let _ := _ in _) => cbv zeta
  | |- Spec _ _ _ _ _ (match ?x with _ => _ end) => destruct x eqn:?
  | |- Spec _ _ _ _ _ (_ ≫= _) =>
      eapply spec_bind; [first [typeclasses eauto | spec_inner]|intros ?]
  | |- Spec _ _ _ _ _ _ =>
      eapply spec_weaken; [typeclasses eauto|first [exact (λ _ _, I)|done]|spec_moved|try spec_good]
  end.
Ltac spec_inner ::=
  lazymatch goal with
  | |- Spec _ _ _ _ _ (loop _ _ _) => fail
  | |- @Spec (list Expression) ?k ?n ?P _ _ ?m =>
      refine (_ : Spec k n P never (All complete) m); repeat spec_step
  | |- @Spec Expression ?k ?n ?P _ _ ?m =>
      refine (_ : Spec k n P never optional m); repeat spec_step
  | |- @Spec (option BlockStatement) ?k ?n ?P _ _ ?m =>
      refine (_ : Spec k n P never (if_some complete_block) m); repeat spec_step
  | |- @Spec InstantiationSource ?k ?n ?P _ _ ?m =>
      refine (_ : Spec k n P never complete_source m); repeat spec_step
  | |- @Spec (option bytes) ?k ?n ?P _ _ ?m =>
      first [ refine (_ : Spec k n P never (is_some_and anything) m); solve [repeat spec_step]
            | refine (_ : Spec k n P never anything m); solve [repeat spec_step] ]
  | |- @Spec (_ + unit) ?k ?n ?P _ _ ?m =>
      refine (_ : Spec k n P never (either anything unreachable) m); repeat spec_step
  | |- Spec ?k ?n ?P _ _ ?m => refine (_ : Spec k n P never anything m); repeat spec_step
  end.
Ltac specs := repeat spec_step.

(** A message that is not that of the recursion limit. *)
Ltac not_depth := let E := fresh in intros E%(f_equal (take 3)); vm_compute in E; discriminate.
#[export] Hint Extern 1 (Spec _ _ _ _ _ (error _)) => apply spec_error; not_depth : typeclass_instances.

(** Loops read while a token of some type is ahead, or the current one is not EOF. *)
Ltac running :=
  let H := fresh in
  intros ? ? H; left; unfold spent; intros [? ?]; unfold currentTokenIs, peekTokenIs in H;
  repeat match goal with E : _ = EOF |- _ => rewrite ?E in H; clear E end;
  vm_compute in H; discriminate.
(** A loop that keeps [I] and breaks off with [J], and what follows it. *)
Ltac looping I J :=
  eapply spec_bind; [apply (spec_loop _ _ _ _ _ _ I J); [running|intros ?; specs]|intros ?; specs].


Section Total.
Context (IsLetter : Z → bool) (Quote : list byte → list byte).
Context (ParseFloat : list byte → option Z) (FormatFloat : Z → list byte).
Context (k n : nat) (rec : Rec).
Context (rec_expression_spec :
  ∀ P prec, Spec k n P never complete (rec_expression rec prec)).
Context (rec_statement_spec : ∀ P, Spec k n P never complete_statement (rec_statement rec)).
Context (rec_sub_spec : ∀ source, (length source < k)%nat →
  (∀ e, rec_sub rec source ≠ Err e) ∧
  (∀ sub e, rec_sub rec source = Ok (sub, e) → errors sub = [] → complete e)).

Local Notation Spec := (Spec k n).

#[local] Instance comma_list_spec {A} P D (G : A → Prop) (f : Op Parser A) :
  (∀ P, Spec P D G f) → Spec P never (All G) (comma_list IsLetter f).
Proof.
  intros Hf. unfold comma_list. eapply spec_bind; [apply Hf|intros x].
  looping (All G) (All G).
Qed.

#[local] Instance parseExpressionList_spec P end_ :
  Spec P never (All complete) (parseExpressionList IsLetter rec end_).
Proof. unfold parseExpressionList. specs. Qed.

#[local] Instance literal_spec P v : Spec P never complete (literal v).
Proof. unfold literal. specs. Qed.
#[local] Instance parseIdentifier_spec P : Spec P never complete parseIdentifier.
Proof. unfold parseIdentifier. specs. Qed.

#[local] Instance dotted_spec P ok parts : Spec P never anything (dotted IsLetter ok parts).
Proof. unfold dotted. looping (@anything (list bytes)) (@anything (list bytes)). Qed.
#[local] Instance parseMyExpression_spec P : Spec P never complete (parseMyExpression IsLetter).
Proof. unfold parseMyExpression. specs. Qed.
#[local] Instance parseWorldExpression_spec P : Spec P never complete (parseWorldExpression IsLetter).
Proof. unfold parseWorldExpression. specs. Qed.
#[local] Instance parseStringLiteral_spec P : Spec P never complete parseStringLiteral.
Proof. apply literal_spec. Qed.

(** A nested parser's expression, when the source is short enough. *)
Lemma sub_spec {A} P D G source (f : Parser * Expression → Op Parser A) : (length source < k)%nat →
  (∀ sub e, (errors sub = [] → complete e) → Spec always D G (f (sub, e))) →
  Spec P D G (op_lift (rec_sub rec source) ≫= f).
Proof.
  intros Hl Hf. destruct (rec_sub_spec _ Hl) as [Herr Hok].
  destruct (rec_sub rec source) as [[sub e]|e|e] eqn:E; [|by destruct (Herr e)|done].
  intros p Hr _. apply (Hf sub e (Hok _ _ eq_refl) p Hr I).
Qed.

Lemma no_errors (l : list bytes) : negb (bool_decide (length l = 0%nat)) = false → l = [].
Proof. by destruct l. Qed.

Lemma parseInterpolationPath_spec P source tok : (length source < k)%nat →
  Spec P never complete (parseInterpolationPath Quote rec source tok).
Proof.
  intros Hl. unfold parseInterpolationPath. apply sub_spec; [done|]. intros sub e He.
  specs. apply He. apply orb_false_iff in Heqb as [? _]. by apply no_errors.
Qed.

Lemma interpolate_spec P fuel tok body lit parts :
  (length body ≤ fuel)%nat → (length body ≤ k)%nat →
  Spec P never (λ ps, All complete_part parts → All complete_part ps)
    (interpolate Quote rec fuel tok body lit parts).
Proof.
  revert P body lit parts. induction fuel as [|fuel IH]; intros P body lit parts Hf Hk.
  { destruct body; [|cbn in Hf; lia]. cbn [interpolate]. unfold flush.
    case_bool_decide; apply spec_mret; [done| |done|]; rewrite ?app_nil_r; [done|].
    intros. by apply All_snoc. }
  destruct body as [|x rest]; cbn [interpolate].
  { unfold flush. case_bool_decide; apply spec_mret; [done| |done|]; rewrite ?app_nil_r; [done|].
    intros. by apply All_snoc. }
  cbn in Hf, Hk. destruct (starts_with _ _) eqn:Hs.
  { eapply spec_weaken; [apply IH; rewrite length_drop; cbn; lia|done..]. }
  case_bool_decide; [|eapply spec_weaken; [apply IH; lia|done..]].
  destruct (fst <$> _) as [end_|]; [|specs]. cbv zeta. case_bool_decide; [specs|].
  eapply spec_bind; [apply parseInterpolationPath_spec|intros path].
  { pose proof (length_TrimSpace (take (end_ - 1) rest)) as Ht. rewrite length_take in Ht. lia. }
  destruct (is_nil path) eqn:En; [specs|].
  eapply spec_weaken; [apply IH; rewrite length_drop; cbn; lia|done..|].
  cbn. intros ps Hps Hpath Hall. apply Hps, All_app; [done|]. unfold flush.
  case_bool_decide; cbn; destruct path; cbn in *; naive_solver.
Qed.

(** A token read by [get] is one of the parser's. *)
Lemma spec_get_token {A} P D G (f : Parser → Token) (g : Token → Op Parser A) :
  (∀ p, base k p → bounded k (f p)) →
  (∀ tok, bounded k tok → Spec (λ p, P p ∧ f p = tok) D G (g tok)) → Spec P D G (get f ≫= g).
Proof. intros Hf Hg p Hr Hp. apply (Hg (f p)); [apply Hf, Hr|done..]. Qed.

Lemma parseInterpolatedString_spec :
  Spec (λ p, current p = INTERP_TEXT) never complete (parseInterpolatedString Quote rec).
Proof.
  unfold parseInterpolatedString. apply spec_get_token; [apply ba_current|]. intros tok Hb.
  apply (spec_pure k n _ (Type_ tok = INTERP_TEXT)); [by intros p [<- <-]|]. intros Ht.
  pose proof (length_UnquoteText (Literal tok)). unfold bounded in Hb. rewrite Ht in Hb.
  specialize (Hb eq_refl). destruct (UnquoteText (Literal tok)) as [body []]; cbn in *; [|specs].
  eapply spec_bind; [apply interpolate_spec; lia|intros parts]. specs.
Qed.

#[local] Instance parseNumberLiteral_spec P :
  Spec P never complete (parseNumberLiteral Quote ParseFloat).
Proof. unfold parseNumberLiteral. specs. Qed.
#[local] Instance parseTimeLiteral_spec P : Spec P never complete (parseTimeLiteral Quote).
Proof. unfold parseTimeLiteral. specs. Qed.
#[local] Instance parseUnknownLiteral_spec P : Spec P never complete (parseUnknownLiteral IsLetter).
Proof. unfold parseUnknownLiteral. specs. Qed.
#[local] Instance parseLinkReference_spec P : Spec P never complete (parseLinkReference IsLetter rec).
Proof. unfold parseLinkReference. specs. Qed.
#[local] Instance parseUnaryExpression_spec P :
  Spec P never complete (parseUnaryExpression IsLetter rec).
Proof. unfold parseUnaryExpression. specs. Qed.
#[local] Instance parseQuietlyExpression_spec P :
  Spec P never complete (parseQuietlyExpression IsLetter rec).
Proof. unfold parseQuietlyExpression. specs. Qed.
#[local] Instance parseGroupedExpression_spec P :
  Spec P never complete (parseGroupedExpression IsLetter rec).
Proof. unfold parseGroupedExpression. specs. Qed.
#[local] Instance parseDefinitionExpression_spec P :
  Spec P never complete parseDefinitionExpression.
Proof. unfold parseDefinitionExpression. specs. Qed.
#[local] Instance parseModifierExpression_spec P :
  Spec P never complete (parseModifierExpression IsLetter rec).
Proof. unfold parseModifierExpression. specs. Qed.
#[local] Instance parseNewExpression_spec P : Spec P never complete (parseNewExpression IsLetter rec).
Proof. unfold parseNewExpression. specs. Qed.
#[local] Instance parseListLiteral_spec P : Spec P never complete (parseListLiteral IsLetter rec).
Proof. unfold parseListLiteral. specs. Qed.

(** ** Records *)

Lemma parseResetExpression_spec P source : (length source < k)%nat →
  Spec P never complete (parseResetExpression rec source).
Proof.
  intros Hl. unfold parseResetExpression. apply sub_spec; [done|]. intros sub e He.
  destruct (_ || _) eqn:E; specs. intros. apply He. apply orb_false_iff in E as [_ ?].
  by apply no_errors.
Qed.

Lemma field_modifier_spec P lit : (length lit ≤ k)%nat →
  Spec P never (λ m, optional m.2) (field_modifier rec lit).
Proof.
  intros Hl. unfold field_modifier. destruct (modifier_value lit) as [value|] eqn:E.
  2: { apply spec_mret; [done|by left]. }
  destruct (starts_with _ _); [|apply spec_mret; [done|by left]]. cbv zeta.
  eapply (spec_bind _ _ _ never optional).
  - case_bool_decide; [apply spec_mret; [done|by left]|].
    eapply spec_weaken; [apply parseResetExpression_spec|done|done|by right].
    unfold modifier_value in E. destruct (2 <? length lit)%nat eqn:H2; [|done].
    apply Nat.ltb_lt in H2. destruct (_ && _); [|done]. injection E as <-.
    pose proof (length_TrimSpace (drop 6 (inner lit))) as Ht. unfold inner in *.
    rewrite length_drop, length_take in Ht. lia.
  - intros e. by apply spec_mret.
Qed.

(** The modifier of a field, whose token may carry a source. *)
Lemma carried_spec : Spec (λ p, carries (peek p) = true) never (λ m, optional m.2)
  (nextToken IsLetter;; lit ← get current_literal; field_modifier rec lit).
Proof.
  eapply (spec_bind_post k n _ (λ _ p, carries (current p) = true) surely anything).
  - apply spec_nextToken.
  - intros p p' a Hp. unfold nextToken, op_modify. destruct (NextToken _ _) as [l tk].
    by intros [= <-].
  - intros u p Hr Hp.
    assert (Hl : (length (current_literal p) ≤ k)%nat).
    { by apply (ba_current k p); [apply Hr|]. }
    pose proof (field_modifier_spec always _ Hl p Hr I) as Hm.
    unfold mbind, op_bind, get.
    revert Hm. destruct (field_modifier rec (current_literal p) p) as [p' [m|e|e]]; [|done..].
    intros (? & _ & ?). split_and!; [done|done|auto].
Qed.

Definition complete_result (f : option RecordField) : Prop := is_some_and complete_field f.

#[local] Instance parseRecordField_spec P :
  Spec P never complete_result (parseRecordField IsLetter rec).
Proof.
  unfold parseRecordField. do 2 spec_step. apply spec_get. intros next.
  eapply (spec_bind _ _ _ never (λ m, optional m.2)); [|intros m; specs].
  - destruct next; first [apply spec_mret; [done|by left]
      | eapply spec_weaken; [apply carried_spec|by intros p [_ ->]|done..]].
  - cbn. intros. split_and!; [done|by apply optional_match|done].
Qed.

Lemma omap_fields fields : All complete_result fields → All complete_field (omap id fields).
Proof.
  induction fields as [|[f|] fields IH]; cbn; [done| |by intros [[] _]].
  intros [? ?]. split; [done|by apply IH].
Qed.
#[local] Instance parseRecordLiteral_spec P :
  Spec P never complete (parseRecordLiteral IsLetter rec).
Proof. unfold parseRecordLiteral. specs. cbn. auto using omap_fields. Qed.

(** ** Infix operations *)

(** A complete operand makes a complete expression. *)
Definition completes (left e : Expression) : Prop := complete left → complete e.

#[local] Instance parseBinaryExpression_spec P l :
  Spec P never (completes l) (parseBinaryExpression IsLetter rec l).
Proof. unfold parseBinaryExpression, completes. specs. Qed.
#[local] Instance parseCollectionOperation_spec P l :
  Spec P never (completes l) (parseCollectionOperation IsLetter rec l).
Proof.
  unfold parseCollectionOperation, completes. specs.
Qed.
#[local] Instance parseCallExpression_spec P l :
  Spec P never (completes l) (parseCallExpression IsLetter rec l).
Proof.
  unfold parseCallExpression, completes. spec_step.
  destruct x; specs.
Qed.
#[local] Instance parseFilterExpression_spec P :
  Spec P never complete (parseFilterExpression IsLetter rec).
Proof. unfold parseFilterExpression. specs. Qed.
#[local] Instance parseBracketFilterExpression_spec P l :
  Spec P never (completes l) (parseBracketFilterExpression IsLetter rec l).
Proof. unfold parseBracketFilterExpression, completes. specs. Qed.
#[local] Instance projection_field_spec P : Spec P never (is_some_and anything) projection_field.
Proof. unfold projection_field. specs. Qed.
#[local] Instance parseProjectionExpression_spec P l :
  Spec P never (completes l) (parseProjectionExpression IsLetter l).
Proof.
  unfold parseProjectionExpression, completes. do 3 spec_step. destruct a0; [|specs].
  looping (@anything (list bytes)) (@unreachable unit).
Qed.

(** ** Blocks and bodies *)

#[local] Instance parseBlockStatement_spec P :
  Spec P never complete_block (parseBlockStatement IsLetter rec).
Proof. unfold parseBlockStatement. do 2 spec_step. looping (All complete_statement) (All complete_statement). Qed.
#[local] Instance parseSameLineBlock_spec P :
  Spec P never complete_block (parseSameLineBlock IsLetter rec).
Proof. unfold parseSameLineBlock. do 2 spec_step. looping (All complete_statement) (All complete_statement). Qed.

Lemma indented_or_spec {A} P D G (d : A) f : D d = false →
  (∀ body, Spec always never (λ x, complete_block body → G x) (f body)) →
  Spec P D G (indented_or IsLetter rec d f).
Proof.
  intros HD Hf. unfold indented_or. spec_step. apply spec_expect; [by cbn; rewrite HD|].
  spec_step. eapply spec_weaken; [apply Hf|done|spec_moved|]. cbn. auto.
Qed.

#[local] Instance single_statement_spec P s :
  Spec P never (λ o, complete_statement s → is_some_and complete_block o) (single_statement s).
Proof.
  unfold single_statement. spec_step. apply spec_mret; [done|]. by destruct s; cbn; auto.
Qed.

Lemma body_or_spec {A} P D G checked (d : A) f : D d = false →
  (∀ body, Spec always never (λ x, complete_block body → G x) (f body)) →
  Spec P D G (body_or IsLetter rec checked d f).
Proof.
  intros HD Hf. unfold body_or. spec_step. destruct x; [by apply indented_or_spec|].
  do 2 spec_step. destruct (_ && _).
  - spec_step. apply spec_mret; [by cbn; rewrite HD|by intros []].
  - do 2 spec_step. destruct a1 as [body|]; [|apply spec_mret; [by cbn; rewrite HD|]].
    + eapply spec_weaken; [apply Hf|done|spec_moved|]. cbn. auto.
    + cbn. tauto.
Qed.

#[local] Instance more_idents_spec P first :
  Spec P never (either anything unreachable) (more_idents IsLetter first).
Proof.
  unfold more_idents. eapply spec_weaken.
  - apply (spec_loop k n always _ _ [first] anything unreachable); [running|intros names; specs].
  - done.
  - done.
  - cbn. unfold anything. intros [] ?; auto.
Qed.

Ltac spec_body ::= first [apply indented_or_spec | apply body_or_spec].

(** Expressions with a body. *)
#[local] Instance parseWatchExpression_spec P :
  Spec P never complete (parseWatchExpression IsLetter rec).
Proof.
  unfold parseWatchExpression. specs. looping (All complete) (@unreachable unit).
Qed.
#[local] Instance parseProcedureExpression_spec P :
  Spec P never complete (parseProcedureExpression IsLetter rec).
Proof. unfold parseProcedureExpression. specs. Qed.

(** ** Expressions *)

Lemma prefix_spec P t prefix :
  prefixParseFns IsLetter Quote ParseFloat rec t = Some prefix → t ≠ INTERP_TEXT →
  Spec P never complete prefix.
Proof. by destruct t; intros [= <-] ?; try apply _. Qed.

Lemma infix_spec P t infix l : infixParseFns IsLetter rec t = Some infix →
  Spec P never (completes l) (infix l).
Proof. by destruct t; intros [= <-]; apply _. Qed.

Lemma infix_step_spec P l : Spec P is_inl
  (λ r, complete l → either complete complete r) (infix_step IsLetter rec l).
Proof.
  unfold infix_step. spec_step. destruct (infixParseFns IsLetter rec x) as [infix|] eqn:E; [|specs].
  spec_step. eapply spec_bind; [by eapply infix_spec|intros e]. unfold completes. specs.
Qed.
(** Without a token ahead there is no infix operation. *)
Lemma infix_step_spent l p p' e : spent p → infix_step IsLetter rec l p ≠ (p', Ok (inl e)).
Proof.
  intros [_ Hk]. unfold infix_step, mbind, op_bind, get. rewrite Hk. by cbn.
Qed.

(** The call has one level more than its calls. *)
Lemma parseExpression_spec P prec : MblParserRules.Spec k (S n) P never complete
  (parseExpression IsLetter Quote ParseFloat rec prec).
Proof.
  unfold parseExpression. apply spec_guarded, spec_get. intros t.
  destruct (prefixParseFns _ _ _ _ t) as [prefix|] eqn:E; [|specs].
  eapply (spec_bind _ _ _ never complete).
  - destruct (decide (t = INTERP_TEXT)) as [->|Ht]; [|by eapply prefix_spec].
    injection E as <-. eapply spec_weaken; [apply parseInterpolatedString_spec|by intros p [_ ?]|done..].
  - intros e. eapply spec_bind; [apply (spec_loop k n _ _ _ _ complete complete)|intros r; specs].
    + intros l p _. destruct (decide (spent p)); [right; intros; by apply infix_step_spent|by left].
    + intros l. apply infix_step_spec.
Qed.

(** ** Statements *)

#[local] Instance skip_if_spec P t : Spec P never anything (skip_if IsLetter t).
Proof. unfold skip_if. specs. Qed.
#[local] Instance skip_separator_spec P : Spec P never anything (skip_separator IsLetter).
Proof. unfold skip_separator. specs. Qed.
#[local] Instance parsePathExpression_spec P : Spec P never anything (parsePathExpression IsLetter).
Proof. unfold parsePathExpression. specs. Qed.

(** A path under construction: its computed segments are complete. *)
Definition complete_path (path : list bytes * list (nat * Expression)) : Prop :=
  All (λ '(_, e), complete e) path.2.
#[local] Instance parsePathTargetSelector_spec P parts dynamic :
  Spec P surely (λ o, complete_path (parts, dynamic) → is_some_and complete_path o)
    (parsePathTargetSelector IsLetter FormatFloat rec parts dynamic).
Proof.
  unfold parsePathTargetSelector, complete_path. do 3 spec_step. destruct (is_nil a1) eqn:E; [specs|].
  spec_step. destruct a1 as [| | | |tok []| | | | | | | | | | |]; apply spec_mret; try done;
    cbn; intros; try done; try (by apply All_snoc).
Qed.
#[local] Instance parsePathTarget_spec P :
  Spec P never complete (parsePathTarget IsLetter FormatFloat rec).
Proof.
  unfold parsePathTarget. spec_step. eapply spec_bind; [apply (spec_loop k n _ _ _ _ complete_path complete_path)|].
  - running.
  - intros [parts dynamic]. spec_step. destruct x0; [|specs].
    spec_step. apply spec_mret; [spec_moved|]. destruct a; cbn; auto.
  - intros r. apply spec_mret; [done|]. intros H. unfold complete_path in H. destruct r; apply H; done.
Qed.

Lemma dot_literal_spent p :
  peekTokenIs DOT p && negb (bool_decide (Literal (peekToken p) = [])) = true → ¬ spent p.
Proof. intros [H _]%andb_true_iff. by apply (peek_not_spent DOT). Qed.

#[local] Instance parseScopeRelativeExpression_spec P :
  Spec P never complete (parseScopeRelativeExpression IsLetter).
Proof.
  unfold parseScopeRelativeExpression. specs.
  eapply spec_bind; [apply (spec_loop k n _ _ _ _ (@anything (list bytes)) (@anything (list bytes)))|].
  - intros ? p H. left. by apply dot_literal_spent.
  - intros parts. specs.
  - intros r. specs.
Qed.

#[local] Instance parseExpressionStatement_spec P :
  Spec P never complete_statement (parseExpressionStatement IsLetter rec).
Proof. unfold parseExpressionStatement. specs. Qed.

#[local] Instance parseScopeStatement_spec P :
  Spec P never complete_statement (parseScopeStatement IsLetter rec).
Proof. unfold parseScopeStatement. do 2 spec_step. looping (@anything bytes) (@anything bytes). Qed.

#[local] Instance assigned_value_spec P tok name m : Spec P never
  (λ s, complete name → complete_statement s) (assigned_value IsLetter rec tok name m).
Proof. unfold assigned_value. specs. Qed.
#[local] Instance parseAssignmentStatement_spec P :
  Spec P never complete_statement (parseAssignmentStatement IsLetter FormatFloat rec).
Proof. unfold parseAssignmentStatement. specs. Qed.
#[local] Instance parseEmbedDirectiveStatement_spec P :
  Spec P never complete_statement (parseEmbedDirectiveStatement IsLetter rec).
Proof. unfold parseEmbedDirectiveStatement. specs. Qed.

(** *** If *)

Lemma consequence_or_spec {A} P D G (d : A) f : D d = false →
  (∀ body, Spec always D (λ x, is_some_and complete_block body → G x) (f body)) →
  Spec P D G (consequence_or IsLetter rec d f).
Proof.
  intros HD Hf. unfold consequence_or. spec_step. destruct x.
  - unfold indented_or. spec_step. eapply spec_bind; [apply spec_expectPeek|intros []].
    + spec_step. eapply spec_weaken; [apply Hf|done|spec_moved|]. cbn. auto.
    + apply spec_mret; [by cbn; rewrite HD|done].
  - do 3 spec_step. eapply spec_weaken; [apply Hf|done|spec_moved|]. cbn. auto.
Qed.

(** What is read of an if is complete. *)
Definition complete_head (r : Token * Expression * option BlockStatement + Statement) : Prop :=
  match r with
  | inl (_, condition, consequence) => complete condition ∧ is_some_and complete_block consequence
  | inr s => complete_statement s
  end.
#[local] Instance if_turn_spec P : Spec P is_inl complete_head (if_turn IsLetter rec).
Proof.
  unfold if_turn. specs. apply consequence_or_spec; [spec_moved|]. intros body. spec_step. destruct x1.
  - spec_step. apply spec_mret; [spec_moved|]. cbn. auto.
  - apply spec_mret; [spec_moved|]. cbn. auto.
Qed.

Lemma parse_if_spec fuel : Spec (λ p, current p = IF_ ∧ measure p < Z.of_nat fuel) never
  complete_statement (parse_if IsLetter rec fuel).
Proof.
  induction fuel as [|fuel IH]; cbn [parse_if].
  { intros p Hr [_ Hm]. pose proof (measure_pos _ _ _ Hr). lia. }
  eapply spec_bind_full; [apply if_turn_spec|]. intros [[[tok c] body]|s].
  2: { apply spec_mret; [done|]. cbn. auto. }
  apply spec_get. intros elif. destruct elif.
  - eapply spec_bind_post with (Q := λ _ p, current p = IF_ ∧ measure p < Z.of_nat fuel).
    + apply spec_nextToken.
    + intros p1 p2 u [(p0 & Hr0 & [Hc Hm] & Ep & Ha & Hd) Hk%bool_decide_eq_true] En.
      pose proof (spec_nextToken k n IsLetter always p1 (Adv_ready _ _ _ _ Hr0 Ha) I) as Hn.
      rewrite En in Hn. destruct Hn as (Hn & _). pose proof (ad_measure _ _ _ Hn).
      assert (Hs : ¬ spent p0) by (intros [Hs _]; congruence). specialize (Hd Hs eq_refl).
      split; [|lia]. revert En Hk. unfold nextToken, op_modify. destruct (NextToken _ _). by intros [= <-].
    + intros u. eapply spec_bind; [apply IH|]. intros alt. apply spec_mret; [done|].
      cbn. intros. split_and!; [tauto..|]. by destruct alt.
  - cbv zeta. apply spec_expect; [done|]. apply indented_or_spec; [done|]. intros block.
    apply spec_mret; [done|]. cbn. tauto.
Qed.
Lemma parseIfStatement_spec P : (∀ p, P p → current p = IF_) →
  Spec P never complete_statement (parseIfStatement IsLetter rec).
Proof.
  intros HP p Hr Hp. apply (parse_if_spec (S (loop_fuel p)) p Hr). split; [by apply HP|].
  unfold loop_fuel. pose proof (measure_pos _ _ _ Hr). lia.
Qed.

(** *** The others *)

#[local] Instance parseQuietlyBlockStatement_spec P :
  Spec P never complete_statement (parseQuietlyBlockStatement IsLetter rec).
Proof. unfold parseQuietlyBlockStatement. specs. Qed.
#[local] Instance parseWhileStatement_spec P :
  Spec P never complete_statement (parseWhileStatement IsLetter rec).
Proof. unfold parseWhileStatement. specs. Qed.
#[local] Instance parseForStatement_spec P :
  Spec P never complete_statement (parseForStatement IsLetter rec).
Proof. unfold parseForStatement. specs. Qed.

Definition complete_cases (x : list ConsiderCase * option BlockStatement) : Prop :=
  All complete_case x.1 ∧ if_some complete_block x.2.
#[local] Instance consider_step_spec P acc : Spec P is_inl
  (λ r, complete_cases acc → either complete_cases unreachable r) (consider_step IsLetter rec acc).
Proof.
  unfold consider_step. destruct acc as [cases default_]. specs.
  - intros Hb He _ [Hc Hd]. split; [|done]. apply All_snoc; [done|]. by split.
  - by intros Hb _ [Hc _].
Qed.
#[local] Instance parseConsiderStatement_spec P :
  Spec P never complete_statement (parseConsiderStatement IsLetter rec).
Proof.
  unfold parseConsiderStatement. specs.
  eapply spec_bind; [apply (spec_loop k n _ _ _ _ complete_cases (@unreachable unit))|].
  - running.
  - intros acc. apply consider_step_spec.
  - intros [[cases d]|[]]; (apply spec_mret; [done|]); intros Hr; specialize (Hr (conj I I)); [|done].
    destruct Hr. cbn. auto.
Qed.
#[local] Instance parseReturnStatement_spec P :
  Spec P never complete_statement (parseReturnStatement IsLetter rec).
Proof. unfold parseReturnStatement. specs. Qed.
#[local] Instance parsePassStatement_spec P :
  Spec P never complete_statement (parsePassStatement IsLetter).
Proof. unfold parsePassStatement. specs. Qed.
#[local] Instance parseBreakStatement_spec P :
  Spec P never complete_statement (parseBreakStatement IsLetter).
Proof. unfold parseBreakStatement. specs. Qed.

#[local] Instance watcher_spec P name :
  Spec P never complete_statement (watcher IsLetter rec name).
Proof. unfold watcher. specs. Qed.
#[local] Instance parseWatchStatement_spec P :
  Spec P never complete_statement (parseWatchStatement IsLetter rec).
Proof. unfold parseWatchStatement. specs. Qed.
#[local] Instance panic_spec {A} P e : Spec P never (@unreachable A) (op_lift (Panic e)).
Proof. by intros p _ _. Qed.
#[local] Instance record_literal_spec P : Spec P never complete (record_literal IsLetter rec).
Proof. unfold record_literal. specs. Qed.
#[local] Instance parseInstantiationStatement_spec P :
  Spec P never complete_statement (parseInstantiationStatement IsLetter rec).
Proof.
  unfold parseInstantiationStatement. specs.
  looping (All complete_source) (All complete_source).
  intros Ho Hs _. split; [destruct a0; by apply Hs|by apply optional_match].
Qed.
#[local] Instance parseProcedureStatement_spec P :
  Spec P never complete_statement (parseProcedureStatement IsLetter rec).
Proof. unfold parseProcedureStatement. specs. Qed.
#[local] Instance parseTypeFirstProcedureStatement_spec P :
  Spec P never complete_statement (parseTypeFirstProcedureStatement IsLetter rec).
Proof. unfold parseTypeFirstProcedureStatement. specs. Qed.
#[local] Instance parseDefinitionStatement_spec P :
  Spec P never complete_statement (parseDefinitionStatement IsLetter rec).
Proof. unfold parseDefinitionStatement. specs. Qed.
#[local] Instance else_step_spec P clauses : Spec P is_inl
  (λ r, All complete_else clauses → either (All complete_else) (All complete_else) r)
  (else_step IsLetter rec clauses).
Proof. unfold else_step. specs. Qed.
#[local] Instance parseCatchStatement_spec P :
  Spec P never complete_statement (parseCatchStatement IsLetter rec).
Proof.
  unfold parseCatchStatement. specs. looping (All complete_else) (All complete_else).
Qed.
#[local] Instance parseScopeRelativeAssignment_spec P :
  Spec P never complete_statement (parseScopeRelativeAssignment IsLetter rec).
Proof. unfold parseScopeRelativeAssignment. specs. Qed.
#[local] Instance by_lookahead_spec P :
  Spec P never complete_statement (by_lookahead IsLetter FormatFloat rec).
Proof.
  apply (spec_state k n P never complete_statement). intros q.
  destruct (path_start q), (isDefinition q), (isSimpleAssignment q), (isProcedureDefinition q),
    (isWatchStatement q), (isScopeStatement q); apply _.
Qed.
#[local] Instance dispatch_spec P :
  Spec P never complete_statement (dispatch IsLetter FormatFloat rec).
Proof.
  unfold dispatch. apply spec_get. intros []; [apply _|]. apply spec_get. intros t.
  destruct t; try apply _; [apply parseIfStatement_spec; by intros p [_ ?]|]. specs.
Qed.

(** The call has one level more than its calls. *)
Lemma parseStatement_spec P :
  MblParserRules.Spec k (S n) P never complete_statement (parseStatement IsLetter FormatFloat rec).
Proof. unfold parseStatement. apply spec_guarded. specs. Qed.
End Total.

(** ** The whole parser *)

Section Parser.
Context (IsLetter : Z → bool) (Quote : list byte → list byte).
Context (ParseFloat : list byte → option Z) (FormatFloat : Z → list byte).

(** A parser for the sources inside tokens, good for sources shorter than [k]. *)
Definition good_sub (sub : bytes → res (Parser * Expression)) (k : nat) : Prop :=
  ∀ source, (length source < k)%nat → (∀ e, sub source ≠ Err e) ∧
    (∀ p e, sub source = Ok (p, e) → errors p = [] → complete e).

Lemma level_sub sub n : rec_sub (level IsLetter Quote ParseFloat FormatFloat sub n) = sub.
Proof. by destruct n. Qed.

Lemma level_spec k sub n : good_sub sub k →
  (∀ P prec, Spec k n P never complete
    (rec_expression (level IsLetter Quote ParseFloat FormatFloat sub n) prec)) ∧
  (∀ P, Spec k n P never complete_statement
    (rec_statement (level IsLetter Quote ParseFloat FormatFloat sub n))).
Proof.
  intros Hsub. induction n as [|n [IHe IHs]].
  { split; intros; intros p (_ & Hn & _); lia. }
  split; intros; cbn [level rec_expression rec_statement];
    [apply parseExpression_spec|apply parseStatement_spec]; rewrite ?level_sub; done.
Qed.

Lemma nextToken_fields p : errors (nextToken IsLetter p).1 = errors p ∧
  recursionDepth (nextToken IsLetter p).1 = recursionDepth p.
Proof. unfold nextToken, op_modify. cbn [fst]. by destruct (NextToken IsLetter (lexer p)). Qed.

Lemma New_spec source : let p := New IsLetter (MblLexer.New source) in
  ready (length source) (S depth_fuel) p ∧ errors p = [] ∧ recursionDepth p = 0.
Proof.
  cbv zeta. unfold New. set (p0 := mkParser _ _ _ _ _ _).
  assert (H0 : ready (length source) (S depth_fuel) p0).
  { split_and!; [|unfold depth_fuel; lia|by vm_compute]. destruct (New_at source) as [_ E].
    split; cbn; [apply New_ok|by rewrite E|done..]. }
  assert (Hnext : ∀ p, ready (length source) (S depth_fuel) p →
    ready (length source) (S depth_fuel) (nextToken IsLetter p).1).
  { intros p Hp. pose proof (spec_nextToken _ _ IsLetter always p Hp I) as Hn.
    destruct (nextToken IsLetter p) as [p' r] eqn:E. unfold nextToken, op_modify in E.
    injection E as <- <-. cbn [fst]. eapply Adv_ready; [exact Hp|apply Hn]. }
  split_and!; [by do 2 apply Hnext|..]; destruct (nextToken_fields p0) as [E1 E2],
    (nextToken_fields (nextToken IsLetter p0).1) as [E3 E4]; [by rewrite E3, E1|by rewrite E4, E2].
Qed.

Lemma nested_good fuel : good_sub (nested IsLetter Quote ParseFloat FormatFloat fuel) fuel.
Proof.
  induction fuel as [|fuel IH]; intros source Hl; [lia|]. cbn [nested].
  destruct (New_spec source) as (Hr & He & _). set (p := New IsLetter _) in *.
  assert (Hsub : good_sub (nested IsLetter Quote ParseFloat FormatFloat fuel) (length source)).
  { intros s Hs. apply IH. lia. }
  destruct (level_spec (length source) _ depth_fuel Hsub) as [Hexp Hstmt].
  pose proof (parseExpression_spec IsLetter Quote ParseFloat FormatFloat (length source) depth_fuel _
    Hexp Hstmt) as Hspec.
  rewrite level_sub in Hspec. specialize (Hspec Hsub always LOWEST p Hr I).
  destruct (parseExpression _ _ _ _ _ p) as [p' [e|e|e]]; [|done..].
  destruct Hspec as (_ & _ & Hg). split; [done|]. intros ? ? [= <- <-]. rewrite He in Hg. exact Hg.
Qed.

Lemma program_step_spec k n rec P acc :
  (∀ P, Spec k (S n) P never complete_statement
    (parseStatement IsLetter FormatFloat rec)) →
  Spec k (S n) P is_inl
    (λ r, All complete_statement acc → either (All complete_statement) (All complete_statement) r)
    (program_step IsLetter FormatFloat rec acc).
Proof.
  intros Hs. unfold program_step. specs.
Qed.

Lemma parse_program_spec k n rec :
  (∀ P, Spec k (S n) P never complete_statement (parseStatement IsLetter FormatFloat rec)) →
  Spec k (S n) always never (λ prog, All complete_statement (pr_statements prog))
    (parse_program IsLetter FormatFloat rec).
Proof.
  intros Hs. unfold parse_program. spec_step.
  eapply spec_bind; [apply (spec_loop _ _ _ _ _ _ (All complete_statement) (All complete_statement))|].
  - running.
  - intros acc. by apply program_step_spec.
  - intros r. specs.
Qed.

(** What holds of every parse. *)
Lemma parse_spec source :
  match parse IsLetter Quote ParseFloat FormatFloat source with
  | (p, Ok prog) =>
      recursionDepth p = depth_errors (errors p) ∧
      (errors p = [] → All complete_statement (pr_statements prog))
  | (_, Err _) => False
  | (_, Panic _) => True
  end.
Proof.
  destruct (New_spec source) as (Hr & He & Hd). unfold parse. set (p0 := New IsLetter _) in *.
  set (rec := level IsLetter Quote ParseFloat FormatFloat
    (nested IsLetter Quote ParseFloat FormatFloat (length source)) depth_fuel).
  destruct (level_spec (length source) _ depth_fuel (nested_good (length source))) as [Hexp Hstmt].
  assert (Hs : ∀ P, Spec (length source) (S depth_fuel) P never complete_statement
    (parseStatement IsLetter FormatFloat rec)).
  { intros P. apply parseStatement_spec; [done..|]. unfold rec. rewrite level_sub. apply nested_good. }
  pose proof (parse_program_spec (length source) depth_fuel rec Hs) as Hprog.
  specialize (Hprog p0 Hr I). unfold ParseProgram. fold rec.
  destruct (parse_program IsLetter FormatFloat rec p0) as [p [prog|e|e]]; [|done..].
  destruct Hprog as (Ha & _ & Hg). destruct (ad_errors _ _ _ Ha) as (es & E1 & E2).
  rewrite He in E1, Hg. rewrite E2, Hd, E1. split; [cbn; lia|by rewrite E1 in Hg].
Qed.

(** ** Theorems *)

(** C24: The parser ends on every source: neither its recursion, bounded by its own
    limit of 1000 and by the length of the sources nested in tokens, nor any of
    its loops, each of which takes a token a turn, runs out of fuel. *)
Theorem parser_total source :
  match (parse IsLetter Quote ParseFloat FormatFloat source).2 with
  | Err _ => False
  | Ok _ | Panic _ => True
  end.
Proof.
  pose proof (parse_spec source). by destruct (parse _ _ _ _ source) as [p [|e|e]].
Qed.

(** C26: A program parsed without errors has no missing nodes: nil is where the
    language makes it a choice, and no statement is a nil pointer. *)
Theorem error_free_is_complete source p prog :
  parse IsLetter Quote ParseFloat FormatFloat source = (p, Ok prog) → errors p = [] →
  All complete_statement (pr_statements prog).
Proof. intros E. pose proof (parse_spec source) as H. rewrite E in H. apply H. Qed.

(** C27: A call of the parser leaves the recursion depth as it was, but a call
    refused at the limit leaves it one higher: after a program the depth is the
    number of times the limit was reported. *)
Theorem refused_calls_leak_depth source p prog :
  parse IsLetter Quote ParseFloat FormatFloat source = (p, Ok prog) →
  recursionDepth p = depth_errors (errors p).
Proof. intros E. pose proof (parse_spec source) as H. rewrite E in H. apply H. Qed.
End Parser.

(** ** Running the parser *)

(** The parser of the examples: letters of Latin-1, no quoting, whole numbers. *)
Abbreviation run := (parse latin1_letter id (λ _, None) (λ _, [])).
Definition lines (ls : list string) : bytes := Join (map b ls) [Byte.x0a].

(** The program parsed. *)
Definition parsed (r : Parser * res Program) : Program :=
  match r.2 with Ok prog => prog | _ => mkProgram (mkToken EOF [] 0 0 0) [] end.

Definition good_source : bytes :=
  lines ["if my.a[0] > 1 + 2 * x:"; "    my.b = f(x)"; "else:"; "    pass"].
Definition good_parse : Parser * res Program := Eval vm_compute in run good_source.
Lemma good_parse_eq : run good_source = (good_parse.1, Ok (parsed good_parse)).
Proof. vm_compute. reflexivity. Qed.
Lemma error_free_is_complete_witness : errors good_parse.1 = [] ∧
  length (pr_statements (parsed good_parse)) = 1%nat ∧
  All complete_statement (pr_statements (parsed good_parse)).
Proof.
  split; [reflexivity|]. split; [reflexivity|].
  exact (error_free_is_complete latin1_letter id (λ _, None) (λ _, []) good_source _ _
    good_parse_eq eq_refl).
Defined.

Definition bad_source : bytes := lines ["my.a = "; "my.b = 1"].
Definition bad_parse : Parser * res Program := Eval vm_compute in run bad_source.
Lemma bad_parse_eq : run bad_source = (bad_parse.1, Ok (parsed bad_parse)).
Proof. vm_compute. reflexivity. Qed.
Lemma refused_calls_leak_depth_witness : length (errors bad_parse.1) = 1%nat ∧
  recursionDepth bad_parse.1 = depth_errors (errors bad_parse.1).
Proof.
  split; [reflexivity|].
  exact (refused_calls_leak_depth latin1_letter id (λ _, None) (λ _, []) bad_source _ _ bad_parse_eq).
Defined.
