(* ===== verification/MblParserCases.v ===== *)
(** * The MBL parser on particular programs

    What the parser makes of constructs that the language's documents, or the
    parser's own comments, describe. *)
From S2P Require Import Prelude Utf8 MblTokens MblLexer MblValue MblAst MblParser MblParserTotal.

(** The program parsed, without the places of its tokens: printed. *)
Definition printed (r : Parser * res Program) : res bytes :=
  (λ ss, Join ss [Byte.x0a]) <$> res_all (map Statement_String (pr_statements (parsed r))).

(** An instantiation whose record does not parse makes the parser panic: the
    nil that [parseRecordLiteral] returns is asserted to be a record. *)
Example malformed_instantiation_panics :
  (run (b "new person { name")).2 =
    Panic "interface conversion: interface is nil, not *RecordExpression".
Proof. vm_compute. reflexivity. Qed.

(** ** The body of a watcher, printed and parsed again *)

Definition guarded_write : bytes :=
  lines ["w: watch(my.a):"; "    if my.a > 1:"; "        my.alarm = true"].

(** The body of the watcher a program consists of. *)
Definition watcher_body (r : Parser * res Program) : option BlockStatement :=
  match pr_statements (parsed r) with
  | [WatchStatement _ _ _ _ _ _ body] => Some body
  | _ => None
  end.
(** What the watcher engine is given for it. *)
Definition body_code (source : bytes) : bytes :=
  match bodyToMBLCode (watcher_body (run source)) with Ok code => code | _ => [] end.

Definition conditional (s : Statement) : bool :=
  match s with IfStatement _ _ _ _ => true | _ => false end.
Definition assignment (s : Statement) : bool :=
  match s with AssignmentStatement _ _ _ _ _ => true | _ => false end.


(** ** Text that is split without an error *)

Definition quoted (s : string) : bytes := Byte.x22 :: b s ++ [Byte.x22].

(** A call whose text argument holds a colon and a space is read as a path
    alone and then its argument alone, without errors: the search for the colon
    of an assignment looks inside the text. *)
Example call_with_colon_in_text_is_split :
  let source := b "my.computer.output(" ++ quoted "Order: " ++ b " & order.id)" in
  errors (run source).1 = [] ∧
  printed (run source) =
    Ok (Join [b "my.computer.output"; b "(" ++ quoted "Order: " ++ b " & order.id)"] [Byte.x0a]).
Proof. vm_compute. split; reflexivity. Qed.

(** Without the colon it is a call. *)
Example call_with_plain_text :
  let source := b "my.computer.output(" ++ quoted "Order " ++ b " & order.id)" in
  errors (run source).1 = [] ∧ length (pr_statements (parsed (run source))) = 1%nat.
Proof. vm_compute. split; reflexivity. Qed.

(** A definition through a path with a modifier is read as the path and the value. *)
Example path_modifier_drops_the_value :
  errors (run (b "my.x: (copy) 5")).1 = [] ∧
  printed (run (b "my.x: (copy) 5")) = Ok (lines ["my.x"; "5"]).
Proof. vm_compute. split; reflexivity. Qed.

(** An else clause on one line has no body, and its statement is unconditional. *)
Example single_line_else_clause_is_unconditional :
  let r := run (lines ["catch:"; "    a = 1"; "else unknown: b = 2"]) in
  errors r.1 = [] ∧ map assignment (pr_statements (parsed r)) = [false; true] ∧
  printed r = Panic "invalid memory address or nil pointer dereference".
Proof. vm_compute. split_and!; reflexivity. Qed.

(** ** Documented forms that do not parse *)

Definition refused (source : bytes) : bool := negb (bool_decide (errors (run source).1 = [])).

(** A consider on lines of its own, a record on several lines, a reset expression
    with a call, a filter by time on a path, a comment at the end of a block. *)
Example consider_on_lines_refused : refused (lines ["consider x:"; "    1: a = 2"]) = true.
Proof. vm_compute. reflexivity. Qed.
Example record_on_lines_refused : refused (lines ["employee = {"; "    name: 1"; "}"]) = true.
Proof. vm_compute. reflexivity. Qed.
Example reset_with_call_refused : refused (b "{a:(reset now()) 1}") = true.
Proof. vm_compute. reflexivity. Qed.
Example time_filter_refused : refused (b "person.name[<@2026-01-01]") = true.
Proof. vm_compute. reflexivity. Qed.
Example final_comment_refused : refused (lines ["if a > 1:"; "    b = 1"; "    # comment"]) = true.
Proof. vm_compute. reflexivity. Qed.
(** A placeholder that starts with a dot. *)
Example ascent_in_placeholder_refused :
  refused (b "~" ++ quoted "{.y}" ++ b "~") = true.
Proof. vm_compute. reflexivity. Qed.
