(* ===== verification/MblPrecedence.v ===== *)
(** * Operator precedence in the MBL parser

    [Exp q ts e] is the reference grammar of the operators: the tokens [ts] are an
    expression whose outer operators bind at level [q] or tighter, with tree [e].
    Operators of one level associate to the left, powers to the right.  The
    Pratt parser returns the tree of the grammar. *)
From S2P Require Import Prelude Utf8 MblTokens MblLexer MblValue MblAst MblParser MblParserRules MblParserTotal.

(** ** The grammar *)

(** The level of an expression without outer binary operators. *)
Definition PRIMARY : Z := Precedence.UNARY + 1.

(** The operators that associate to the left, with their level. *)
Definition left_operator (t : TokenType) : option Z :=
  match t with
  | OR => Some Precedence.OR
  | AND => Some Precedence.AND
  | EQUAL | ASSIGN | GT | LT | GTE | LTE => Some Precedence.EQUALS
  | CONCAT => Some Precedence.CONCAT
  | PLUS | MINUS => Some Precedence.SUM
  | MULTIPLY | DIVIDE | MODULO => Some Precedence.PRODUCT
  | _ => None
  end.
Definition unary_operator (t : TokenType) : bool :=
  match t with MINUS | PLUS | NOT => true | _ => false end.

(** The expressions of one token. *)
Definition atom_of (tok : Token) : option Expression :=
  let lit v := Some (LiteralExpression tok v) in
  match Type_ tok with
  | IDENT => Some (PathExpression tok [Literal tok] [])
  | TEXT | MONEY => lit (GoString (Literal tok))
  | TRUE => lit (GoBool true)
  | FALSE => lit (GoBool false)
  | NOTHING => lit GoNil
  | _ => None
  end.

Inductive Exp : Z → list Token → Expression → Prop :=
  | Exp_tighter q ts e : q < PRIMARY → Exp (q + 1) ts e → Exp q ts e
  | Exp_left q tl l op tr r : left_operator (Type_ op) = Some q → Exp q tl l → Exp (q + 1) tr r →
      Exp q (tl ++ op :: tr) (BinaryExpression op l (Literal op) r)
  | Exp_power tl l op tr r : Type_ op = POWER → Exp PRIMARY tl l → Exp Precedence.POWER tr r →
      Exp Precedence.POWER (tl ++ op :: tr) (BinaryExpression op l (Literal op) r)
  | Exp_unary op ts e : unary_operator (Type_ op) = true → Exp PRIMARY ts e →
      Exp PRIMARY (op :: ts) (UnaryExpression op (Literal op) e)
  | Exp_paren lp ts e rp : Type_ lp = LPAREN → Type_ rp = RPAREN → Exp Precedence.OR ts e →
      Exp PRIMARY (lp :: ts ++ [rp]) e
  | Exp_atom tok e : atom_of tok = Some e → Exp PRIMARY [tok] e.

(** A token after the expression that does not belong to it. *)
Definition precedence_of (t : Token) : Z := default LOWEST (precedences (Type_ t)).
Definition follows (q : Z) (t : Token) : Prop :=
  precedence_of t ≤ Precedence.UNARY ∧
  (precedence_of t < q ∨ (precedence_of t = q ∧ q ≠ Precedence.POWER)).

Lemma Exp_nonempty q ts e : Exp q ts e → ts ≠ [].
Proof. induction 1; try done; by destruct tl. Qed.

(** ** Tokens to come *)

Section Precedence.
Context (IsLetter : Z → bool) (Quote : list byte → list byte).
Context (ParseFloat : list byte → option Z) (FormatFloat : Z → list byte).

(** The lexer gives these tokens. *)
Fixpoint yields (l : Lexer) (ts : list Token) : Prop :=
  match ts with
  | [] => True
  | t :: ts => (NextToken IsLetter l).2 = t ∧ yields (NextToken IsLetter l).1 ts
  end.
(** These are the current token, the one ahead, and those to come. *)
Definition at_tokens (p : Parser) (ts : list Token) : Prop :=
  match ts with
  | t :: t' :: ts => currentToken p = t ∧ peekToken p = t' ∧ yields (lexer p) ts
  | _ => False
  end.

Definition next (p : Parser) : Parser := (nextToken IsLetter p).1.
Lemma nextToken_eq p : nextToken IsLetter p = (next p, Ok tt).
Proof. unfold next, nextToken, op_modify. by destruct (NextToken IsLetter (lexer p)). Qed.
Lemma next_at p t t' t'' ts : at_tokens p (t :: t' :: t'' :: ts) → at_tokens (next p) (t' :: t'' :: ts).
Proof.
  unfold at_tokens, next, nextToken, op_modify. intros (_ & Hk & Hy & Hts).
  destruct (NextToken IsLetter (lexer p)) as [l tk]. cbn in *. auto.
Qed.
Lemma next_count p : nodeCount (next p) = nodeCount p ∧ errors (next p) = errors p.
Proof. unfold next, nextToken, op_modify. by destruct (NextToken IsLetter (lexer p)). Qed.
Lemma next_Adv k n p : ready k n p → Adv k p (next p) ∧ (¬ spent p → measure (next p) < measure p).
Proof.
  intros Hr. pose proof (spec_nextToken k n IsLetter always p Hr I) as H.
  rewrite nextToken_eq in H. destruct H as (Ha & Hd & _). auto.
Qed.

(** ** What the parser does with a derivation *)

Context (k : nat) (sub : bytes → res (Parser * Expression)) (Hsub : good_sub sub k).
Local Notation lv := (level IsLetter Quote ParseFloat FormatFloat sub).
Local Notation step n := (infix_step IsLetter (lv n)).

(** [parseExpression] behind its guards. *)
Definition body (prec : Z) (rec : Rec) : Op Parser Expression :=
  here ← get current;
  match prefixParseFns IsLetter Quote ParseFloat rec here with
  | None => noPrefixParseFnError here;; mret NilExpression
  | Some prefix =>
      leftExp ← prefix;
      r ← loop (binds_tighter prec) (infix_step IsLetter rec) leftExp;
      mret (merged r)
  end.
(** The rest of the body: [m] turns of the loop at most. *)
Definition rest_of (m : nat) (prec : Z) (rec : Rec) (e : Expression) : Op Parser Expression :=
  r ← loop_n m (binds_tighter prec) (infix_step IsLetter rec) e; mret (merged r).

Definition ends (p : Parser) (ts more : list Token) : Prop :=
  ∃ x, last ts = Some x ∧ at_tokens p (x :: more).

(** The body comes to the loop with the tree in hand, behind the derivation. *)
Definition claim (q : Z) (ts : list Token) (e : Expression) : Prop := ∀ n prec p t rest,
  prec < q → follows q t → at_tokens p (ts ++ t :: rest) → ready k n p → (length ts ≤ n)%nat →
  recursionDepth p + len ts ≤ maxRecursionDepth + 1 → nodeCount p + len ts ≤ maxNodes + 1 →
  ∃ p' m, body prec (lv n) p = rest_of m prec (lv n) e p' ∧ ends p' ts (t :: rest) ∧
    (loop_fuel p' ≤ m)%nat ∧ Adv k p p' ∧ errors p' = errors p ∧
    nodeCount p' ≤ nodeCount p + len ts - 1.

(** The whole call gives the tree. *)
Definition parses (q : Z) (ts : list Token) (e : Expression) : Prop := ∀ n prec p t rest,
  prec < q → follows q t → precedence_of t ≤ prec → at_tokens p (ts ++ t :: rest) →
  ready k (S n) p → (length ts ≤ n)%nat →
  recursionDepth p + len ts ≤ maxRecursionDepth → nodeCount p + len ts ≤ maxNodes →
  ∃ p', parseExpression IsLetter Quote ParseFloat (lv n) prec p = (p', Ok e) ∧
    ends p' ts (t :: rest) ∧ Adv k p p' ∧ errors p' = errors p ∧
    nodeCount p' ≤ nodeCount p + len ts.

Lemma parseExpression_Adv n prec p p' e : ready k (S n) p →
  parseExpression IsLetter Quote ParseFloat (lv n) prec p = (p', Ok e) → Adv k p p'.
Proof.
  intros Hr E. destruct (level_spec IsLetter Quote ParseFloat FormatFloat k sub n Hsub) as [He Hs].
  pose proof (parseExpression_spec IsLetter Quote ParseFloat FormatFloat k n (lv n) He Hs) as H.
  rewrite level_sub in H. specialize (H Hsub always prec p Hr I). rewrite E in H. apply H.
Qed.

(** Errors unchanged, the depth is unchanged. *)
Lemma Adv_same_depth p p' : Adv k p p' → errors p' = errors p → recursionDepth p' = recursionDepth p.
Proof.
  intros [_ _ _ (es & E1 & E2)] E. rewrite E2. rewrite E1 in E.
  assert (es = []) as -> by (apply (app_inv_head (errors p)); by rewrite app_nil_r).
  change (depth_errors []) with 0. lia.
Qed.

(** A token that binds no tighter ends the loop. *)
Lemma rest_of_stops m prec rec e p ts t rest : ends p ts (t :: rest) → precedence_of t ≤ prec →
  rest_of m prec rec e p = (p, Ok e).
Proof.
  intros (x & _ & _ & Hk & _) Hp. unfold rest_of, mbind, op_bind. rewrite loop_n_eq.
  unfold binds_tighter, peekPrecedence, peek, precedence_of in *. rewrite Hk.
  destruct (Z.ltb_spec prec (default LOWEST (precedences (Type_ t)))); [lia|].
  by rewrite andb_false_r.
Qed.

Lemma counted_ok {A} (d : A) m p : nodeCount p + 1 ≤ maxNodes →
  counted d m p = m (set_count (nodeCount p + 1) p).
Proof.
  intros H. unfold counted, incrementNodeCount, mbind, op_bind, op_modify, get.
  cbn [set_count nodeCount]. destruct (Z.ltb_spec maxNodes (nodeCount p + 1)); [lia|done].
Qed.

Lemma claim_parses q ts e : ts ≠ [] → claim q ts e → parses q ts e.
Proof.
  intros Hne Hc n prec p t rest Hprec Hf Ht Hat Hr Hn Hd Hcnt.
  assert (Hlen : 1 ≤ len ts) by (destruct ts; [done|rewrite len_cons; pose proof (len_nonneg ts); lia]).
  set (p2 := set_count (nodeCount p + 1) (set_depth (recursionDepth p + 1) p)).
  assert (Hr2 : ready k n p2).
  { destruct Hr as ([] & _ & Hd'). split_and!; [split; cbn; [done..|lia]|unfold len in *; lia|cbn; lia]. }
  destruct (Hc n prec p2 t rest) as (p' & m & E & He & Hm & Ha & Herr & Hc');
    [done..|exact Hat|done|done|cbn; lia|cbn; lia|].
  rewrite (rest_of_stops _ _ _ _ _ _ _ _ He Ht) in E.
  assert (Epar : ∃ p3, parseExpression IsLetter Quote ParseFloat (lv n) prec p = (p3, Ok e) ∧
    ends p3 ts (t :: rest) ∧ errors p3 = errors p' ∧ nodeCount p3 = nodeCount p').
  { unfold parseExpression. rewrite guarded_eq. cbv zeta. cbn [set_depth recursionDepth].
    destruct (Z.ltb_spec maxRecursionDepth (recursionDepth p + 1)); [lia|].
    rewrite counted_ok by (cbn; lia). fold (body prec (lv n)).
    change (set_count _ (set_depth (recursionDepth p + 1) p)) with p2. rewrite E.
    destruct (0 <? recursionDepth p'); eauto. }
  destruct Epar as (p3 & Ep & He3 & Herr3 & Hc3). exists p3.
  split_and!; [done|done|by eapply parseExpression_Adv|by rewrite Herr3, Herr|].
  rewrite Hc3. cbn in Hc'. lia.
Qed.

(** ** Operands *)

Lemma next_at_list p x l : at_tokens p (x :: l) → (2 ≤ length l)%nat → at_tokens (next p) l.
Proof. destruct l as [|y [|z l]]; cbn [length]; [lia..|]. intros H _. by eapply next_at. Qed.
Lemma next_depth n p : ready k n p → recursionDepth (next p) = recursionDepth p.
Proof.
  intros Hr. apply Adv_same_depth; [by apply (next_Adv k n)|apply next_count].
Qed.

Lemma body_prefix prec rec p f p1 e :
  prefixParseFns IsLetter Quote ParseFloat rec (current p) = Some f → f p = (p1, Ok e) →
  body prec rec p = rest_of (loop_fuel p1) prec rec e p1.
Proof.
  intros Hf E. unfold body, rest_of, mbind, op_bind, get. rewrite Hf, E. reflexivity.
Qed.

Lemma atom_prefix rec tok e p : atom_of tok = Some e → currentToken p = tok →
  ∃ f, prefixParseFns IsLetter Quote ParseFloat rec (Type_ tok) = Some f ∧ f p = (p, Ok e).
Proof.
  intros Ha Hp. unfold atom_of in Ha. destruct (Type_ tok) eqn:Ht; try discriminate Ha;
    injection Ha as <-; eexists; (split; [reflexivity|]);
    unfold parseStringLiteral, parseMoneyLiteral, parseBooleanLiteral, parseNothingLiteral,
      parseIdentifier, literal, mbind, op_bind, get; rewrite Hp; try done; by rewrite Ht.
Qed.

Lemma claim_atom tok e : atom_of tok = Some e → claim PRIMARY [tok] e.
Proof.
  intros Ha n prec p t rest Hprec Hf (Hc & Hk & Hy) Hr Hn Hd Hcnt.
  destruct (atom_prefix (lv n) tok e p Ha Hc) as (f & Hf1 & Hf2). exists p, (loop_fuel p).
  split_and!; [apply (body_prefix _ _ _ f); [by unfold current; rewrite Hc|done]|by exists tok|done
    |apply Adv_refl, Hr|done|lens].
Qed.

Lemma last_cons_Some {A} (x : A) l : l ≠ [] → last (x :: l) = last l.
Proof. by destruct l. Qed.

Lemma claim_unary op ts e : unary_operator (Type_ op) = true → ts ≠ [] →
  parses PRIMARY ts e → claim PRIMARY (op :: ts) (UnaryExpression op (Literal op) e).
Proof.
  intros Hop Hne Hts n prec p t rest Hprec Hf Hat Hr Hn Hd Hcnt.
  destruct n as [|n]; [cbn in Hn; lia|]. cbn in Hn. rewrite len_cons in *.
  destruct (next_Adv k (S n) p Hr) as [Ha1 _]. destruct (next_count p) as [Hc1 He1].
  pose proof (next_depth _ _ Hr) as Hd1.
  assert (Hcur : currentToken p = op) by (destruct ts; [done|apply Hat]).
  destruct (Hts n Precedence.UNARY (next p) t rest) as (p' & Ep & He & Ha2 & Herr & Hc2);
    [done|done|apply Hf| |by eapply Adv_ready|lia|lia|lia|].
  { eapply next_at_list; [exact Hat|]. rewrite length_app. destruct ts; [done|cbn; lia]. }
  exists p', (loop_fuel p'). split_and!; [|destruct He as (x & Hx & ?); exists x; by rewrite last_cons_Some
    |done|by eapply Adv_trans|by rewrite Herr|lia].
  apply (body_prefix _ _ _ (parseUnaryExpression IsLetter (lv (S n)))).
  - unfold current. rewrite Hcur. by destruct (Type_ op).
  - unfold parseUnaryExpression, mbind, op_bind, get. rewrite nextToken_eq.
    cbn [level rec_expression]. rewrite Ep. by rewrite Hcur.
Qed.

Lemma claim_paren lp ts e rp : Type_ lp = LPAREN → Type_ rp = RPAREN → ts ≠ [] →
  parses Precedence.OR ts e → claim PRIMARY (lp :: ts ++ [rp]) e.
Proof.
  intros Hlp Hrp Hne Hts n prec p t rest Hprec Hf Hat Hr Hn Hd Hcnt.
  destruct n as [|n]; [cbn in Hn; lia|]. cbn [length] in Hn. rewrite length_app in Hn. cbn in Hn.
  rewrite len_cons, len_app in *. change (len [rp]) with 1 in *.
  destruct (next_Adv k (S n) p Hr) as [Ha1 _]. destruct (next_count p) as [Hc1 He1].
  pose proof (next_depth _ _ Hr) as Hd1. cbn [app] in Hat. rewrite <- app_assoc in Hat. cbn [app] in Hat.
  assert (Hcur : currentToken p = lp) by (destruct ts; [done|apply Hat]).
  assert (Hpr : precedence_of rp = LOWEST) by (unfold precedence_of; by rewrite Hrp).
  destruct (Hts n LOWEST (next p) rp (t :: rest)) as (p2 & Ep & He & Ha2 & Herr & Hc2);
    [done| |by rewrite Hpr| |by eapply Adv_ready|lia|lia|lia|].
  { unfold follows. rewrite Hpr. split; [done|by left]. }
  { eapply next_at_list; [exact Hat|]. rewrite length_app. destruct ts; [done|cbn; lia]. }
  destruct He as (x & Hx & Hat2). pose proof Hat2 as (_ & Hk & _).
  assert (Hr2 : ready k (S n) p2) by (eapply Adv_ready; [|exact Ha2]; by eapply Adv_ready).
  destruct (next_Adv k (S n) p2 Hr2) as [Ha3 _]. destruct (next_count p2) as [Hc3 He3].
  exists (next p2), (loop_fuel (next p2)). split_and!; [| |done| |by rewrite He3, Herr|lia].
  - apply (body_prefix _ _ _ (parseGroupedExpression IsLetter (lv (S n)))).
    + unfold current. by rewrite Hcur, Hlp.
    + unfold parseGroupedExpression, expect_or, expectPeek, mbind, op_bind, get. rewrite nextToken_eq.
      cbn [level rec_expression]. rewrite Ep. unfold peekTokenIs, peek. rewrite Hk, Hrp.
      rewrite bool_decide_true by done. by rewrite nextToken_eq.
  - exists rp. split; [by rewrite last_cons_Some, last_snoc by (by destruct ts)|]. by eapply next_at.
  - eapply Adv_trans; [exact Ha1|]. by eapply Adv_trans.
Qed.

(** ** Operators *)

(** The precedence an operator's right operand is parsed with. *)
Definition right_precedence (op : Token) : Z :=
  if bool_decide (Type_ op = POWER) then precedence_of op - 1 else precedence_of op.

(** One turn of the loop: the operator and its right operand. *)
Lemma turn n prec p m l ts op tr r q t rest :
  infixParseFns IsLetter (lv (S n)) (Type_ op) = Some (parseBinaryExpression IsLetter (lv (S n))) →
  prec < precedence_of op → parses q tr r → tr ≠ [] → right_precedence op < q → follows q t →
  precedence_of t ≤ right_precedence op → ends p ts (op :: tr ++ t :: rest) → ready k (S n) p →
  (loop_fuel p ≤ m)%nat → (length tr ≤ n)%nat → recursionDepth p + len tr ≤ maxRecursionDepth →
  nodeCount p + len tr ≤ maxNodes →
  ∃ p' m', rest_of m prec (lv (S n)) l p =
      rest_of m' prec (lv (S n)) (BinaryExpression op l (Literal op) r) p' ∧
    ends p' tr (t :: rest) ∧ (loop_fuel p' ≤ m')%nat ∧ Adv k p p' ∧ errors p' = errors p ∧
    nodeCount p' ≤ nodeCount p + len tr.
Proof.
  intros Hinf Hprec Htr Hne Hq Hf Ht (x & _ & Hat) Hr Hm Hn Hd Hcnt. pose proof Hat as (_ & Hk & _).
  assert (Hop : Type_ op ≠ NEWLINE ∧ Type_ op ≠ EOF) by (split; intros E; rewrite E in Hinf; done).
  destruct (next_Adv k (S n) p Hr) as [Ha1 Hlt]. destruct (next_count p) as [Hc1 He1].
  assert (Hat1 : at_tokens (next p) (op :: tr ++ t :: rest)).
  { eapply next_at_list; [exact Hat|]. cbn. rewrite length_app. cbn. lia. }
  assert (Hr1 : ready k (S n) (next p)) by by eapply Adv_ready.
  destruct (next_Adv k (S n) (next p) Hr1) as [Ha2 _]. destruct (next_count (next p)) as [Hc2 He2].
  assert (Hat2 : at_tokens (next (next p)) (tr ++ t :: rest)).
  { eapply next_at_list; [exact Hat1|]. rewrite length_app. destruct tr; [done|cbn; lia]. }
  assert (Hr2 : ready k (S n) (next (next p))) by by eapply Adv_ready.
  pose proof (next_depth _ _ Hr) as Hd1. pose proof (next_depth _ _ Hr1) as Hd2.
  destruct (Htr n (right_precedence op) (next (next p)) t rest) as (p' & Ep & He & Ha3 & Herr & Hc3);
    [done..|lia|lia|].
  assert (Hstep : infix_step IsLetter (lv (S n)) l p =
    (p', Ok (inl (BinaryExpression op l (Literal op) r)))).
  { unfold infix_step, mbind, op_bind, get. unfold peek. rewrite Hk, Hinf. rewrite nextToken_eq.
    unfold parseBinaryExpression, mbind, op_bind, get. assert (Hcur : currentToken (next p) = op) by (destruct tr; [done|apply Hat1]). rewrite Hcur.
    rewrite nextToken_eq. cbn [level rec_expression]. unfold right_precedence, precedence_of in Ep.
    unfold currentPrecedence, current. rewrite Hcur, Ep. done. }
  assert (Hspent : ¬ spent p) by (intros [_ E]; unfold peek in E; rewrite Hk in E; by apply Hop).
  specialize (Hlt Hspent). pose proof (ad_measure _ _ _ Ha2). pose proof (ad_measure _ _ _ Ha3).
  pose proof (measure_pos _ _ _ Hr). unfold loop_fuel in *.
  destruct m as [|m]; [lia|]. exists p', m. split_and!; [|done|lia| |congruence|lia].
  - unfold rest_of at 1, mbind, op_bind. rewrite loop_n_eq, Hstep. unfold binds_tighter.
    unfold peekTokenIs, peekPrecedence, peek. rewrite Hk. rewrite bool_decide_false by apply Hop.
    unfold precedence_of in Hprec. destruct (Z.ltb_spec prec (default LOWEST (precedences (Type_ op)))); [|lia].
    reflexivity.
  - eapply Adv_trans; [exact Ha1|]. by eapply Adv_trans.
Qed.

Lemma last_operand {A} (l : list A) x k' : k' ≠ [] → last (l ++ x :: k') = last k'.
Proof.
  intros Hk. rewrite last_app, last_cons_Some by done.
  destruct (last k') eqn:E; [done|]. by apply last_None in E.
Qed.

(** An operator between what has been read and an operand. *)
Lemma claim_operator ql q0 q tl l op tr r :
  (∀ n, infixParseFns IsLetter (lv n) (Type_ op) = Some (parseBinaryExpression IsLetter (lv n))) →
  precedence_of op = q0 → q0 ≤ Precedence.UNARY → claim ql tl l → tl ≠ [] → (q0 < ql ∨ q0 = ql ∧ ql ≠ Precedence.POWER) →
  parses q tr r → tr ≠ [] → right_precedence op < q → q0 ≤ ql →
  (∀ t, follows q0 t → follows q t ∧ precedence_of t ≤ right_precedence op) →
  claim q0 (tl ++ op :: tr) (BinaryExpression op l (Literal op) r).
Proof.
  intros Hinf Hq0 Hun Hl Hnl Hfl Hr_ Hnr Hrp Hle Hfol n prec p t rest Hprec Hf Hat Hr Hn Hd Hcnt.
  rewrite length_app in Hn. cbn in Hn. destruct n as [|n]; [lia|]. rewrite len_app, len_cons in *.
  pose proof (len_nonneg tl). pose proof (len_nonneg tr). rewrite <- app_assoc in Hat. cbn in Hat.
  destruct (Hl (S n) prec p op (tr ++ t :: rest)) as (p1 & m & E1 & He1 & Hm1 & Ha1 & Herr1 & Hc1);
    [lia| |done|done|lia|lia|lia|]. { unfold follows. rewrite Hq0. done. }
  destruct (Hfol t Hf) as [Hf1 Hf2]. pose proof (Adv_same_depth _ _ Ha1 Herr1).
  destruct (turn n prec p1 m l tl op tr r q t rest) as (p2 & m2 & E2 & He2 & Hm2 & Ha2 & Herr2 & Hc2);
    [by apply Hinf|lia|done..|by eapply Adv_ready|done|lia|lia|lia|].
  exists p2, m2. split_and!; [by rewrite E1, E2| |done|by eapply Adv_trans|congruence|lia].
  destruct He2 as (x & Hx & ?). exists x. split; [by rewrite last_operand|done].
Qed.

Lemma left_operator_facts op q : left_operator (Type_ op) = Some q →
  (∀ n, infixParseFns IsLetter (lv n) (Type_ op) = Some (parseBinaryExpression IsLetter (lv n))) ∧
  precedence_of op = q ∧ right_precedence op = q ∧ q < Precedence.POWER.
Proof.
  unfold left_operator, right_precedence, precedence_of.
  destruct (Type_ op); intros H; try discriminate H; injection H as <-; by split_and!.
Qed.

Lemma derivation_claim q ts e : Exp q ts e → claim q ts e.
Proof.
  induction 1 as [q ts e Hq HE IH|q tl l op tr r Hop Hl IHl Hr IHr|tl l op tr r Hop Hl IHl Hr IHr
    |op ts e Hop HE IH|lp ts e rp Hlp Hrp HE IH|tok e Ha].
  - intros n prec p t rest Hprec [Hf1 Hf2]. apply IH; [lia|]. split; [done|left; lia].
  - destruct (left_operator_facts op q Hop) as (Hinf & Hpo & Hrp & Hlt). change Precedence.POWER with 9 in *.
    eapply (claim_operator q q (q + 1)); [exact Hinf|exact Hpo|change Precedence.UNARY with 10; lia|done|by eapply Exp_nonempty|right; change Precedence.POWER with 9; lia
      |apply claim_parses; [by eapply Exp_nonempty|done]|by eapply Exp_nonempty|lia|lia|].
    intros t [Hf1 Hf2]. rewrite Hrp. split; [split; [done|left; lia]|lia].
  - assert (Hpo : precedence_of op = Precedence.POWER) by (unfold precedence_of; by rewrite Hop).
    assert (Hrp : right_precedence op = Precedence.POWER - 1)
      by (unfold right_precedence; by rewrite Hpo, Hop).
    eapply (claim_operator PRIMARY Precedence.POWER Precedence.POWER);
      [by intros; rewrite Hop|done|done|done|by eapply Exp_nonempty|by left
      |apply claim_parses; [by eapply Exp_nonempty|done]|by eapply Exp_nonempty|lia|done|].
    intros t [Hf1 Hf2]. rewrite Hrp. split; [by split|]. destruct Hf2 as [|[_ []]]; [lia|done].
  - apply claim_unary; [done|by eapply Exp_nonempty|apply claim_parses; [by eapply Exp_nonempty|done]].
  - apply claim_paren; [done|done|by eapply Exp_nonempty|apply claim_parses; [by eapply Exp_nonempty|done]].
  - by apply claim_atom.
Qed.
End Precedence.

(** ** The theorem *)

Section Grammar.
Context (IsLetter : Z → bool) (Quote : list byte → list byte).
Context (ParseFloat : list byte → option Z) (FormatFloat : Z → list byte).

Lemma New_tokens source t t' ts :
  yields IsLetter (MblLexer.New source) (t :: t' :: ts) →
  at_tokens IsLetter (New IsLetter (MblLexer.New source)) (t :: t' :: ts).
Proof.
  cbn [yields]. unfold New, nextToken, op_modify, at_tokens. cbn [lexer].
  destruct (NextToken IsLetter (MblLexer.New source)) as [l1 tk1]. cbn.
  destruct (NextToken IsLetter l1) as [l2 tk2]. cbn. intros (-> & -> & Hy). auto.
Qed.
Lemma New_count source : nodeCount (New IsLetter (MblLexer.New source)) = 0.
Proof.
  unfold New, nextToken, op_modify. cbn [lexer].
  destruct (NextToken IsLetter (MblLexer.New source)) as [l1 tk1]. cbn.
  by destruct (NextToken IsLetter l1) as [l2 tk2].
Qed.

End Grammar.

(** [a - b * c ^ d - e], its tokens and its tree. *)
Definition operators_source : bytes := b "a - b * c ^ d - e".
Definition operator_tokens : list Token := Eval vm_compute in
  let fix go n l := match n with
    | O => []
    | S n => let '(l, t) := NextToken latin1_letter l in t :: go n l
    end in go 10%nat (MblLexer.New operators_source).
Definition tk (i : nat) : Token := nth i operator_tokens (mkToken EOF [] 0 0 0).
Definition path_of (i : nat) : Expression := PathExpression (tk i) [Literal (tk i)] [].
Definition binary (i : nat) (l r : Expression) : Expression :=
  BinaryExpression (tk i) l (Literal (tk i)) r.
Definition operator_tree : Expression :=
  binary 7 (binary 1 (path_of 0) (binary 3 (path_of 2) (binary 5 (path_of 4) (path_of 6)))) (path_of 8).

Lemma Exp_loosen q q' ts e : q ≤ q' ≤ PRIMARY → Exp q' ts e → Exp q ts e.
Proof.
  intros Hq H. remember (Z.to_nat (q' - q)) as d eqn:Ed. revert q Hq Ed.
  induction d as [|d IH]; intros q Hq Ed; [by assert (q = q') as -> by lia|].
  apply Exp_tighter; [lia|apply IH; lia].
Qed.

Lemma operator_tree_derived : Exp Precedence.OR (take 9 operator_tokens) operator_tree.
Proof.
  assert (Hatom : ∀ i q, atom_of (tk i) = Some (path_of i) → q ≤ PRIMARY → Exp q [tk i] (path_of i)).
  { intros i q H Hq. apply (Exp_loosen q PRIMARY); [lia|by apply Exp_atom]. }
  apply (Exp_loosen _ Precedence.SUM); [done|].
  apply (Exp_left _ [tk 0; tk 1; tk 2; tk 3; tk 4; tk 5; tk 6] _ (tk 7) [tk 8]); [done| |by apply Hatom].
  apply (Exp_left _ [tk 0] _ (tk 1) [tk 2; tk 3; tk 4; tk 5; tk 6]); [done|by apply Hatom|].
  apply (Exp_left Precedence.PRODUCT [tk 2] _ (tk 3) [tk 4; tk 5; tk 6]); [done|by apply Hatom|].
  by apply (Exp_power [tk 4] _ (tk 5) [tk 6]); [|apply Hatom..].
Qed.

