(* ===== verification/MblState.v ===== *)
(** * The state of the MBL interpreter (internal/mbl/interpreter/interpreter.go)

    Scopes, the commit buffer and what the interpreter needs of the database and
    of the world outside.  Scopes, procedures and watchers are shared by pointer
    in the source: they live in lists that only grow, and a pointer is an index.
    The path of the current scope is a slice that the source appends to in
    place: its backing array is in the state, so that paths made from it share
    their segments as they do in Go. *)
From stdpp Require Import gmap.
From S2P Require Import Prelude Utf8 GoTime GoFloat ValueCodec MblTokens MblValue MblAst.

(** ** What the interpreter uses *)

(** The database, [storage.Tree] with the methods of [StorageTree] that the
    interpreter looks for; the time of a write is the clock's. *)
Class Tree (T : Type) := {
  tree_Read : list bytes → Op T Value;
  tree_ReadAt : list bytes → Z → Op T Value;
  tree_WriteReportingChange : Z → list bytes → Value → Z → Op T bool;
  tree_ChildrenWithNames : list bytes → Op T (list bytes)
}.

(** What an XML decoder reads; names without their spaces. *)
Inductive XMLToken :=
  | StartElement (name : bytes) (attributes : list (bytes * bytes))
  | CharData (text : bytes)
  | EndElement
  | OtherToken.

(** Functions of the Go library: on texts, floats, requests, XML and passwords. *)
Class GoLib := {
  IsLetter : Z → bool;
  Quote : bytes → bytes;
  ParseFloat : bytes → option Z;
  FormatFloat : Z → bytes;
  FormatFixed2 : Z → bytes;
  FormatRFC3339 : Timestamp → bytes;
  Pow : Z → Z → Z;
  Floor : Z → Z;
  Ceil : Z → Z;
  Round : Z → Z;
  ToUpper : bytes → bytes;
  ToLower : bytes → bytes;
  FormatG : Z → bytes;       (* %g *)
  type_name : any → bytes;   (* %T *)
  format_v : any → bytes;    (* %v *)
  pointer_json : string → Z → res bytes;   (* json.Marshal of what a pointer points to *)
  NewRequest : bytes → bytes → option bytes;   (* the error of http.NewRequest *)
  xml_Unmarshal : bytes → option any;   (* into a map of strings to interfaces *)
  xml_tokens : bytes → list XMLToken;   (* those of a decoder before its first error *)
  IDKey : bytes → bytes → Z → bytes   (* argon2.IDKey with the interpreter's costs *)
}.

(** A request and the answer of [client.Do]: the error, or the status, the headers
    and the body or the error of reading it. *)
Record HttpRequest := mkRequest {
  hr_method : bytes; hr_url : bytes; hr_headers : list (bytes * bytes); hr_body : option bytes;
  hr_timeout : Z; hr_follow : bool
}.
Definition HttpAnswer : Type := bytes + Z * list (bytes * list bytes) * (bytes + bytes).

(** The clock, randomness, processes, files and the network, encoding/json, the
    import of fixed-width files, and the watcher engine a definition is
    registered with.  Errors are their texts; a walk gives each file's error, or
    its relative path, content and type. *)
Class External (W : Type) := {
  ext_Now : W → W * Timestamp;
  ext_Int : Z → W → W * option Z;
  ext_Random : Z → W → W * (bytes + bytes);   (* rand.Read of so many bytes *)
  ext_uuid : W → W * bytes;
  ext_Run : bytes → W → W * (bytes + Z * bytes * bytes);   (* exit code, stdout, stderr *)
  ext_ReadFile : bytes → W → W * (bytes + bytes);
  ext_WriteFile : bytes → bytes → W → W * option bytes;
  ext_fixed_width : bytes → bytes → W → W * any;
  ext_Do : HttpRequest → W → W * HttpAnswer;
  ext_walk : bytes → W → W * option (list (bytes + bytes * bytes * bytes));
  ext_Unmarshal : bytes → W → W * (bytes + any);
  ext_Marshal : any → W → W * (bytes + bytes);
  ext_register : bytes → list bytes → bytes → bool → bytes → list Expression → W → W * option bytes
}.

(** ** Paths that share an array *)

(** A slice of segments: an array nothing appends to, or the first segments of a
    shared array. *)
Inductive Path :=
  | Own (segments : list bytes)
  | Shared (array : nat) (length : nat).

Definition segments (arrays : list (list bytes)) (p : Path) : list bytes :=
  match p with
  | Own s => s
  | Shared a n => take n (default [] (arrays !! a))
  end.

(** The capacity [append] gives a slice of strings of capacity [old] that has to
    hold [need]: twice the old one, or what is needed if that is more.  (Up to
    sixteen segments, which the runtime's size classes hold exactly.) *)
Definition grow (old need : nat) : nat := if (2 * old <? need)%nat then need else (2 * old)%nat.

(** [append(p, xs...)]: in place if the array has room. *)
Definition append_path (arrays : list (list bytes)) (p : Path) (xs : list bytes) :
    list (list bytes) * Path :=
  let s := segments arrays p in
  let need := (length s + length xs)%nat in
  let fresh cap :=
    (arrays ++ [s ++ xs ++ replicate (grow cap need - need) []], Shared (length arrays) need) in
  match p with
  | Own _ => if bool_decide (xs = []) then (arrays, p) else fresh (length s)
  | Shared a n =>
      let array := default [] (arrays !! a) in
      if (need <=? length array)%nat
      then (<[a := take n array ++ xs ++ drop need array]> arrays, Shared a need)
      else fresh (length array)
  end.

(** ** Data *)

Record Scope := mkScope {
  local : gmap bytes any;
  parent : option nat;
  referenceMap : option (gmap Z (list bytes))
}.
Record PendingWrite := mkPending {
  pw_path : Path; pw_value : Value; pw_author : Z; pw_quiet : bool
}.
Record CommitCoordinator := mkCoordinator {
  pendingWrites : list PendingWrite; bufferLimit : Z
}.
Record Procedure := mkProcedure {
  pr_Name : bytes; pr_Parameters : list bytes; pr_Body : option BlockStatement; pr_Closure : nat;
  pr_DefScopePathRaw : list bytes; pr_DefScopePath : option Path
}.
Record Watcher := mkWatcher {
  wa_Name : bytes; wa_BindPath : Path; wa_Watching : list bytes; wa_IsAppend : bool;
  wa_BindingName : bytes; wa_Filters : list Expression; wa_Body : option BlockStatement;
  wa_Closure : nat
}.

Record Interpreter (T W : Type) := mkInterpreter {
  tree : T;
  world : W;
  agent : Z;
  scopes : list Scope;
  scope : nat;
  arrays : list (list bytes);
  currentScopePath : option Path;
  currentScopePathRaw : list bytes;
  writes : list PendingWrite;
  limit : Z;
  changedPaths : list (list bytes);
  quietDepth : Z;
  callDepth : Z;
  coordinator : option CommitCoordinator;
  procs : list Procedure;
  watches : list Watcher;
  procedures : gmap bytes nat;
  watchers : gmap bytes nat;
  watcherRegistrar : bool
}.
Arguments mkInterpreter {T W}.
Arguments tree {T W}.
Arguments world {T W}.
Arguments agent {T W}.
Arguments scopes {T W}.
Arguments scope {T W}.
Arguments arrays {T W}.
Arguments currentScopePath {T W}.
Arguments currentScopePathRaw {T W}.
Arguments writes {T W}.
Arguments limit {T W}.
Arguments changedPaths {T W}.
Arguments quietDepth {T W}.
Arguments callDepth {T W}.
Arguments coordinator {T W}.
Arguments procs {T W}.
Arguments watches {T W}.
Arguments procedures {T W}.
Arguments watchers {T W}.
Arguments watcherRegistrar {T W}.

(** Field updates. *)
Section Updates.
Context {T W : Type}.
Definition set_tree (x : T) (st : Interpreter T W) : Interpreter T W :=
  mkInterpreter x (world st) (agent st) (scopes st) (scope st) (arrays st) (currentScopePath st) (currentScopePathRaw st) (writes st) (limit st) (changedPaths st) (quietDepth st) (callDepth st) (coordinator st) (procs st) (watches st) (procedures st) (watchers st) (watcherRegistrar st).
Definition set_world (x : W) (st : Interpreter T W) : Interpreter T W :=
  mkInterpreter (tree st) x (agent st) (scopes st) (scope st) (arrays st) (currentScopePath st) (currentScopePathRaw st) (writes st) (limit st) (changedPaths st) (quietDepth st) (callDepth st) (coordinator st) (procs st) (watches st) (procedures st) (watchers st) (watcherRegistrar st).
Definition set_scopes (x : list Scope) (st : Interpreter T W) : Interpreter T W :=
  mkInterpreter (tree st) (world st) (agent st) x (scope st) (arrays st) (currentScopePath st) (currentScopePathRaw st) (writes st) (limit st) (changedPaths st) (quietDepth st) (callDepth st) (coordinator st) (procs st) (watches st) (procedures st) (watchers st) (watcherRegistrar st).
Definition set_scope (x : nat) (st : Interpreter T W) : Interpreter T W :=
  mkInterpreter (tree st) (world st) (agent st) (scopes st) x (arrays st) (currentScopePath st) (currentScopePathRaw st) (writes st) (limit st) (changedPaths st) (quietDepth st) (callDepth st) (coordinator st) (procs st) (watches st) (procedures st) (watchers st) (watcherRegistrar st).
Definition set_arrays (x : list (list bytes)) (st : Interpreter T W) : Interpreter T W :=
  mkInterpreter (tree st) (world st) (agent st) (scopes st) (scope st) x (currentScopePath st) (currentScopePathRaw st) (writes st) (limit st) (changedPaths st) (quietDepth st) (callDepth st) (coordinator st) (procs st) (watches st) (procedures st) (watchers st) (watcherRegistrar st).
Definition set_currentScopePath (x : option Path) (st : Interpreter T W) : Interpreter T W :=
  mkInterpreter (tree st) (world st) (agent st) (scopes st) (scope st) (arrays st) x (currentScopePathRaw st) (writes st) (limit st) (changedPaths st) (quietDepth st) (callDepth st) (coordinator st) (procs st) (watches st) (procedures st) (watchers st) (watcherRegistrar st).
Definition set_currentScopePathRaw (x : list bytes) (st : Interpreter T W) : Interpreter T W :=
  mkInterpreter (tree st) (world st) (agent st) (scopes st) (scope st) (arrays st) (currentScopePath st) x (writes st) (limit st) (changedPaths st) (quietDepth st) (callDepth st) (coordinator st) (procs st) (watches st) (procedures st) (watchers st) (watcherRegistrar st).
Definition set_writes (x : list PendingWrite) (st : Interpreter T W) : Interpreter T W :=
  mkInterpreter (tree st) (world st) (agent st) (scopes st) (scope st) (arrays st) (currentScopePath st) (currentScopePathRaw st) x (limit st) (changedPaths st) (quietDepth st) (callDepth st) (coordinator st) (procs st) (watches st) (procedures st) (watchers st) (watcherRegistrar st).
Definition set_changedPaths (x : list (list bytes)) (st : Interpreter T W) : Interpreter T W :=
  mkInterpreter (tree st) (world st) (agent st) (scopes st) (scope st) (arrays st) (currentScopePath st) (currentScopePathRaw st) (writes st) (limit st) x (quietDepth st) (callDepth st) (coordinator st) (procs st) (watches st) (procedures st) (watchers st) (watcherRegistrar st).
Definition set_quietDepth (x : Z) (st : Interpreter T W) : Interpreter T W :=
  mkInterpreter (tree st) (world st) (agent st) (scopes st) (scope st) (arrays st) (currentScopePath st) (currentScopePathRaw st) (writes st) (limit st) (changedPaths st) x (callDepth st) (coordinator st) (procs st) (watches st) (procedures st) (watchers st) (watcherRegistrar st).
Definition set_callDepth (x : Z) (st : Interpreter T W) : Interpreter T W :=
  mkInterpreter (tree st) (world st) (agent st) (scopes st) (scope st) (arrays st) (currentScopePath st) (currentScopePathRaw st) (writes st) (limit st) (changedPaths st) (quietDepth st) x (coordinator st) (procs st) (watches st) (procedures st) (watchers st) (watcherRegistrar st).
Definition set_coordinator (x : option CommitCoordinator) (st : Interpreter T W) : Interpreter T W :=
  mkInterpreter (tree st) (world st) (agent st) (scopes st) (scope st) (arrays st) (currentScopePath st) (currentScopePathRaw st) (writes st) (limit st) (changedPaths st) (quietDepth st) (callDepth st) x (procs st) (watches st) (procedures st) (watchers st) (watcherRegistrar st).
Definition set_procs (x : list Procedure) (st : Interpreter T W) : Interpreter T W :=
  mkInterpreter (tree st) (world st) (agent st) (scopes st) (scope st) (arrays st) (currentScopePath st) (currentScopePathRaw st) (writes st) (limit st) (changedPaths st) (quietDepth st) (callDepth st) (coordinator st) x (watches st) (procedures st) (watchers st) (watcherRegistrar st).
Definition set_watches (x : list Watcher) (st : Interpreter T W) : Interpreter T W :=
  mkInterpreter (tree st) (world st) (agent st) (scopes st) (scope st) (arrays st) (currentScopePath st) (currentScopePathRaw st) (writes st) (limit st) (changedPaths st) (quietDepth st) (callDepth st) (coordinator st) (procs st) x (procedures st) (watchers st) (watcherRegistrar st).
Definition set_procedures (x : gmap bytes nat) (st : Interpreter T W) : Interpreter T W :=
  mkInterpreter (tree st) (world st) (agent st) (scopes st) (scope st) (arrays st) (currentScopePath st) (currentScopePathRaw st) (writes st) (limit st) (changedPaths st) (quietDepth st) (callDepth st) (coordinator st) (procs st) (watches st) x (watchers st) (watcherRegistrar st).
Definition set_watchers (x : gmap bytes nat) (st : Interpreter T W) : Interpreter T W :=
  mkInterpreter (tree st) (world st) (agent st) (scopes st) (scope st) (arrays st) (currentScopePath st) (currentScopePathRaw st) (writes st) (limit st) (changedPaths st) (quietDepth st) (callDepth st) (coordinator st) (procs st) (watches st) (procedures st) x (watcherRegistrar st).
End Updates.


(** A pointer to a procedure or a watcher as a value. *)
Definition ProcedurePtr `{GoLib} (id : nat) : any :=
  let type := "*interpreter.Procedure"%string in GoObject type (Z.of_nat id) (pointer_json type (Z.of_nat id)).
Definition WatcherPtr `{GoLib} (id : nat) : any :=
  let type := "*interpreter.Watcher"%string in GoObject type (Z.of_nat id) (pointer_json type (Z.of_nat id)).
Definition procedure_id (v : any) : option nat :=
  match v with
  | GoObject type id _ => if bool_decide (type = "*interpreter.Procedure"%string) then Some (Z.to_nat id) else None
  | _ => None
  end.
Definition watcher_id (v : any) : option nat :=
  match v with
  | GoObject type id _ => if bool_decide (type = "*interpreter.Watcher"%string) then Some (Z.to_nat id) else None
  | _ => None
  end.

(** The value of [break], and the reason of an Unknown. *)
Definition break_signal : any := GoObject "interpreter.breakSignal" 0 (Ok (b "{}")).
Definition is_break (v : any) : bool :=
  match v with GoObject type _ _ => bool_decide (type = "interpreter.breakSignal"%string) | _ => false end.
Definition reason_of (v : any) : option bytes := match v with Unknown reason => Some reason | _ => None end.

Definition DefaultCommitBufferLimit : Z := 10000.
Definition MaxCallDepth : Z := 1000.
Definition NewScope : Scope := mkScope ∅ None (Some ∅).

(** ** Operations *)

Section Operations.
Context {T W : Type} `{Tree T} `{External W} `{GoLib}.
Local Abbreviation M A := (Op (Interpreter T W) A).

Definition gets {A} (f : Interpreter T W → A) : M A := λ st, (st, Ok (f st)).
Definition from_tree {A} (m : Op T A) : M A := op_zoom tree set_tree m.
Definition from_world {A} (m : W → W * A) : M A := λ st,
  let '(w, a) := m (world st) in (set_world w st, Ok a).

(** [Scope.Get]; [fuel] bounds the chain of enclosing scopes. *)
Fixpoint scope_Get (fuel : nat) (ss : list Scope) (id : nat) (name : bytes) : option any :=
  match fuel, ss !! id with
  | S fuel, Some s =>
      match local s !! name with
      | Some v => Some v
      | None => match parent s with Some p => scope_Get fuel ss p name | None => None end
      end
  | _, _ => None
  end.
Definition Get (name : bytes) : M (option any) :=
  gets (λ st, scope_Get (length (scopes st)) (scopes st) (scope st) name).

Definition alter_local (f : gmap bytes any → gmap bytes any) (id : nat) (ss : list Scope) : list Scope :=
  alter (λ s, mkScope (f (local s)) (parent s) (referenceMap s)) id ss.
(** [Scope.Set] of the current scope. *)
Definition Set_ (name : bytes) (value : any) : M unit :=
  op_modify (λ st, set_scopes (alter_local (<[name := value]>) (scope st) (scopes st)) st).

Fixpoint scope_Update (fuel : nat) (ss : list Scope) (id : nat) (name : bytes) (value : any) : list Scope :=
  let here := alter_local (<[name := value]>) id ss in
  match fuel, ss !! id with
  | S fuel, Some s =>
      match local s !! name, parent s with
      | None, Some p =>
          match scope_Get fuel ss p name with
          | Some _ => scope_Update fuel ss p name value
          | None => here
          end
      | _, _ => here
      end
  | _, _ => here
  end.
Definition Update (name : bytes) (value : any) : M unit := op_modify (λ st,
  set_scopes (scope_Update (length (scopes st)) (scopes st) (scope st) name value) st).

(** [s.NewChildScope()]: the index of the new scope. *)
Definition NewChildScope (s : nat) : M nat := λ st,
  (set_scopes (scopes st ++ [mkScope ∅ (Some s) None]) st, Ok (length (scopes st))).
Definition enter (s : nat) : M unit := op_modify (set_scope s).

(** ** The commit buffer *)

Definition dotted (p : list bytes) : bytes := Join p (b ".").
(** A path printed with %v. *)
Definition format_path (p : list bytes) : bytes := b "[" ++ Join p (b " ") ++ b "]".

(** Stage a write; nil, or the Unknown of a full buffer. *)
Definition stageWriteQuietly (p : Path) (value : Value) (author : Z) (quiet : bool) : M (option any) := λ st,
  if limit st <=? len (writes st) then (st, Ok (Some (Unknown (b "commit buffer exceeded"))))
  else (set_writes (writes st ++ [mkPending p value author (quiet || (0 <? quietDepth st))]) st, Ok None).
Definition stageWrite (p : Path) (value : Value) (author : Z) : M (option any) :=
  stageWriteQuietly p value author false.

Definition path_of (st : Interpreter T W) (p : Path) : list bytes := segments (arrays st) p.

Definition discardBuffer : M unit := op_modify (set_writes []).

(** The value of the last staged write to a path. *)
Definition getStagedWrite (p : list bytes) : M (option Value) :=
  gets (λ st, pw_value <$> last (filter (λ w, path_of st (pw_path w) = p) (writes st))).

(** One staged write applied: whether it changed anything, or the error. *)
Definition writeReportingChange (w : PendingWrite) : M (res bool) := λ st,
  let '(clock, now) := ext_Now (world st) in
  op_try (from_tree (tree_WriteReportingChange (UnixMicro now) (path_of st (pw_path w)) (pw_value w)
    (pw_author w))) (set_world clock st).

Definition announce (w : PendingWrite) : M unit :=
  op_modify (λ st, set_changedPaths (changedPaths st ++ [path_of st (pw_path w)]) st).

(** [flushBufferDirect]: nil, or the error. *)
Fixpoint flush_writes (ws : list PendingWrite) : M (option bytes) :=
  match ws with
  | [] => discardBuffer;; mret None
  | w :: ws =>
      r ← writeReportingChange w;
      match r with
      | Ok changed =>
          (if changed && negb (pw_quiet w) then announce w else mret tt);; flush_writes ws
      | Err e | Panic e =>
          discardBuffer;;
          p ← gets (λ st, path_of st (pw_path w));
          mret (Some (b "write failed for path " ++ format_path p ++ b ": " ++ b e))
      end
  end.
Definition flushBufferDirect : M (option bytes) := ws ← gets writes; flush_writes ws.

(** [CommitCoordinator.StageWrites]. *)
Definition StageWrites (cc : CommitCoordinator) (ws : list PendingWrite) : option CommitCoordinator :=
  if bufferLimit cc <? len (pendingWrites cc) + len ws then None
  else Some (mkCoordinator (pendingWrites cc ++ ws) (bufferLimit cc)).

Fixpoint announce_all (ws : list PendingWrite) : M unit :=
  match ws with
  | [] => mret tt
  | w :: ws => (if pw_quiet w then mret tt else announce w);; announce_all ws
  end.

Definition flushBuffer : M (option bytes) :=
  ws ← gets writes;
  if bool_decide (length ws = 0%nat) then mret None else
  c ← gets coordinator;
  match c with
  | None => flushBufferDirect
  | Some cc =>
      match StageWrites cc ws with
      | None =>
          discardBuffer;;
          mret (Some (b "failed to stage writes with coordinator: commit buffer exceeded: " ++
            format_int (len (pendingWrites cc)) ++ b " + " ++ format_int (len ws) ++ b " > " ++
            format_int (bufferLimit cc)))
      | Some cc' =>
          op_modify (set_coordinator (Some cc'));; announce_all ws;; discardBuffer;; mret None
      end
  end.

(** [GetWrittenPaths] and [ChangedPaths]. *)
Definition GetWrittenPaths (st : Interpreter T W) : list (list bytes) :=
  map (λ w, path_of st (pw_path w)) (filter (λ w, pw_quiet w = false) (writes st)).
Definition ChangedPaths : M (list (list bytes)) := λ st,
  (set_changedPaths [] st, Ok (changedPaths st)).

(** Whether an Unknown that is the result of a program discards its writes. *)
Definition shouldRollback (reason : bytes) : bool :=
  existsb (λ s, contains reason (b s))
    ["commit buffer exceeded"; "commit failed"; "failed to read path"; "failed to write path";
     "storage error"; "parse error"; "interpreter error";
     "unknown function"; "undefined_function"; "unsupported statement type";
     "unsupported expression type"].

(** ** Paths *)

Definition agent_home (st : Interpreter T W) : list bytes := [b "world"; b "agent"; format_int (agent st)].
Definition is_part (p : list bytes) (i : nat) (s : string) : bool := bool_decide (p !! i = Some (b s)).

Definition resolve (st : Interpreter T W) (parts : list bytes) : list bytes :=
  match parts with
  | [] => parts
  | first :: rest =>
      if bool_decide (first = b "my") then
        if is_part parts 1 "computer" then parts else agent_home st ++ rest
      else if bool_decide (first = b "world") then parts
      else agent_home st ++ parts
  end.
Definition resolvePath (parts : list bytes) : M (list bytes) := gets (λ st, resolve st parts).

(** [append] on a path of the state. *)
Definition append (p : Path) (xs : list bytes) : M Path := λ st,
  let '(a, p) := append_path (arrays st) p xs in (set_arrays a st, Ok p).

Definition resolveAbsolutePath (parts : list bytes) : M Path :=
  home ← gets agent_home; here ← gets currentScopePath;
  match parts with
  | [] => mret (Own [])
  | first :: rest =>
      if bool_decide (first = b "my") then append (Own home) rest
      else if bool_decide (first = b "world") then mret (Own parts)
      else match here with Some scope => append scope parts | None => mret (Own parts) end
  end.

(** A read of the database, its error handed on. *)
Definition read_tree (p : list bytes) : M (res Value) := op_try (from_tree (tree_Read p)).

Definition mblToStorage (v : any) : res Value :=
  x ← CreateValue v; Ok (mkValue (MblValue.TypeTag x) (Serialize x)).
Definition storageToMBL (v : Value) : res any :=
  DeserializeValue (mkSerialized (ValueCodec.TypeTag v) (Data v)).

(** The interpreter [New] and [NewWithCoordinator] make. *)
Definition New (t : T) (w : W) (agent : Z) (c : option CommitCoordinator) (registrar : bool) : Interpreter T W :=
  mkInterpreter t w agent [NewScope] 0 [] None [] [] DefaultCommitBufferLimit [] 0 0 c [] [] ∅ ∅ registrar.
End Operations.
