(* ===== verification/MblBuiltins.v ===== *)
(** * The built-in functions of the MBL interpreter (internal/mbl/interpreter/interpreter.go)

    The functions, operators and conversions of the interpreter that change no
    state: texts, numbers, lists, comparison with Unknowns, conversion of parsed
    literals, inheritance between records, JSON trees.  [res] is used where the
    source can panic. *)
From S2P Require Import Prelude Utf8 GoTime GoFloat MblTokens MblLexer MblValue MblCompare MblCoerce MblAst MblState.

(** ** Go library functions *)

(** [int(x)] of a float64: truncated; out of range, and NaN, give the least
    integer, as amd64 does. *)
Definition int_of_float (bits : Z) : Z :=
  let least := - 2 ^ 63 in
  match float_of_bits bits with
  | SpecFloat.S754_zero _ => 0
  | SpecFloat.S754_finite s m e =>
      let n := if 0 <=? e then Zpos m * 2 ^ e else Zpos m / 2 ^ (- e) in
      let n := if s then - n else n in
      if (least <=? n) && (n <? 2 ^ 63) then n else least
  | _ => least
  end.
(** [-x]. *)
Definition fneg (bits : Z) : Z := Z.lxor bits (2 ^ 63).

(** [strings.Index]. *)
Definition Index (s pat : bytes) : option nat :=
  fst <$> list_find (λ i, starts_with (drop i s) pat = true) (seq 0 (S (length s))).

(** The UTF-8 sequences of a text; [fuel] is its length. *)
Fixpoint explode (fuel : nat) (s : bytes) : list bytes :=
  match fuel, s with
  | S fuel, _ :: _ => let n := (DecodeRune s).2 in take n s :: explode fuel (drop n s)
  | _, _ => []
  end.
(** The parts of [s] between the places of a separator that is not empty. *)
Fixpoint split_parts (fuel : nat) (s sep : bytes) : list bytes :=
  match fuel with
  | O => [s]
  | S fuel =>
      match Index s sep with
      | Some i => take i s :: split_parts fuel (drop (i + length sep) s) sep
      | None => [s]
      end
  end.
(** [strings.Split] and [strings.ReplaceAll]. *)
Definition Split (s sep : bytes) : list bytes :=
  if bool_decide (sep = []) then explode (length s) s else split_parts (length s) s sep.
Definition ReplaceAll (s old new : bytes) : bytes :=
  if bool_decide (old = []) then new ++ concat (map (λ c, c ++ new) (explode (length s) s))
  else Join (split_parts (length s) s old) new.

(** The length of the white space a text starts with, 0 if with none. *)
Definition space_size (s : bytes) : nat :=
  match list_find (λ sp, starts_with s sp = true) spaces with Some (_, sp) => length sp | None => 0 end.
(** [strings.Fields]; [fuel] is the length of the text. *)
Fixpoint fields_from (fuel : nat) (s word : bytes) : list bytes :=
  let done := if bool_decide (word = []) then [] else [word] in
  match fuel, s with
  | S fuel, x :: rest =>
      match space_size s with
      | O => fields_from fuel rest (word ++ [x])
      | n => done ++ fields_from fuel (drop n s) []
      end
  | _, _ => done
  end.
Definition Fields (s : bytes) : list bytes := fields_from (length s) s [].

(** ** Truth, numbers and keys *)

Definition isTruthy (v : any) : bool :=
  match v with
  | Number bits => negb (feq bits 0)
  | Text s => negb (bool_decide (s = []))
  | Nothing | Unknown _ => false
  | Boolean x => x
  | List elements => 0 <? len elements
  | Record fields => 0 <? len fields
  | _ => true
  end.
Definition isNumeric (v : any) : bool := match v with Number _ | Money _ _ => true | _ => false end.
Definition isNothing (v : any) : bool := match v with Nothing => true | _ => false end.

Definition number_of (n : Z) : any := Number (float_of_int n).
Definition fail (s : string) : any := Unknown (b s).

(** [path[key]] and [path[condition]]. *)
Definition keySelectorExpr (filters : list Expression) : option Expression :=
  match filters with
  | [e] =>
      match e with
      | PathExpression _ parts _ =>
          match parts with
          | p :: _ => if starts_with p (b "@") then None else Some e
          | [] => Some e
          end
      | LiteralExpression _ (GoString _ | GoInt _ | GoFloat64 _) => Some e
      | BinaryExpression _ _ op _ =>
          if existsb (λ o, bool_decide (op = b o)) ["&"; "+"; "-"; "*"; "/"] then Some e else None
      | _ => None
      end
  | _ => None
  end.

(** [fmt.Sprintf] of %T for a node. *)
Definition expression_type (e : Expression) : bytes := b match e with
  | NilExpression => "<nil>"
  | PathExpression _ _ _ => "*parser.PathExpression"
  | BinaryExpression _ _ _ _ => "*parser.BinaryExpression"
  | UnaryExpression _ _ _ => "*parser.UnaryExpression"
  | LiteralExpression _ _ => "*parser.LiteralExpression"
  | InterpolatedStringExpression _ _ => "*parser.InterpolatedStringExpression"
  | ReferenceExpression _ _ => "*parser.ReferenceExpression"
  | ModifierExpression _ _ _ => "*parser.ModifierExpression"
  | CallExpression _ _ _ => "*parser.CallExpression"
  | CollectionOperationExpression _ _ _ _ => "*parser.CollectionOperationExpression"
  | BracketFilterExpression _ _ _ => "*parser.BracketFilterExpression"
  | ProjectionExpression _ _ _ => "*parser.ProjectionExpression"
  | RecordExpression _ _ => "*parser.RecordExpression"
  | ListExpression _ _ => "*parser.ListExpression"
  | WatchExpression _ _ _ _ _ => "*parser.WatchExpression"
  | ProcedureExpression _ _ _ => "*parser.ProcedureExpression"
  end%string.

Section Functions.
Context `{GoLib}.
Local Notation CoerceToText := (CoerceToText FormatFloat FormatFixed2 format_v).
Local Notation CoerceToNumber := (CoerceToNumber ParseFloat type_name).

(** [result := types.CoerceToText(v); if !result.Ok { return result.Value }]. *)
Definition with_text (v : any) (k : bytes → any) : any :=
  match CoerceToText v with mkCoercion (Text s) true => k s | r => cr_value r end.
Definition with_number (v : any) (k : Z → any) : any :=
  match CoerceToNumber v with mkCoercion (Number x) true => k x | r => cr_value r end.

(** [keyToString]: what a bracket key names. *)
Definition keyToString (v : any) : option bytes :=
  match v with
  | Text s => Some s
  | Number bits => Some (FormatFloat bits)
  | Boolean x => Some (if x then b "true" else b "false")
  | GoString s => Some s
  | _ => None
  end.

Definition negate (v : any) : any :=
  match v with
  | Number bits => Number (fneg bits)
  | Money amount code => Money (fneg amount) code
  | _ => Unknown (b "cannot negate non-numeric value: " ++ type_name v)
  end.

Definition convertToMBLType (v : any) : any :=
  match v with
  | GoInt n => Number (float_of_int n)
  | GoFloat64 bits => Number bits
  | GoString s =>
      if (1 <? len s) && starts_with s (b "?") then
        let reason := TrimPrefix s (b "?") in
        Unknown (if bool_decide (reason = []) then b "unknown" else reason)
      else Text (UnquoteText s).1
  | GoBool x => Boolean x
  | Text _ | Number _ | Boolean _ | Time _ _ | Money _ _ | Reference _ | Nothing | Unknown _
  | Anything | List _ | Record _ => v
  | _ => Text (format_v v)
  end.

(** [parseMoneyString]. *)
Definition parseMoneyString (s : bytes) : option any :=
  match Fields (TrimPrefix s [Byte.xc2; Byte.xa4]) with
  | [amount; currency] =>
      match ParseFloat amount with
      | Some x => if len currency =? 3 then Some (Money x currency) else None
      | None => None
      end
  | _ => None
  end.

(** ** Operators *)

(** [?=]. *)
Definition evalDefiniteEquality (left right : any) : any :=
  match reason_of right, reason_of left with
  | Some reason, Some reason' =>
      if bool_decide (reason = []) || bool_decide (reason = b "unknown") then Boolean true
      else Boolean (bool_decide (reason' = reason))
  | None, None => Boolean (Equal left right)
  | _, _ => Boolean false
  end.
Definition evalLogicalAnd (left right : any) : any :=
  if isTruthy left then Boolean (isTruthy right) else Boolean false.
Definition evalLogicalOr (left right : any) : any :=
  if isTruthy left then Boolean true else Boolean (isTruthy right).

(** A binary operator on the values of its operands. *)
Definition binary_operator (op : bytes) (left right : any) : any :=
  let op_is s := bool_decide (op = b s) in
  if op_is "?=" then evalDefiniteEquality left right
  else if op_is "&" then Concatenate FormatFloat FormatFixed2 format_v left right
  else match reason_of left, reason_of right with
  | Some reason, _ | None, Some reason => Unknown reason
  | None, None =>
      if op_is "+" then Add ParseFloat type_name left right
      else if op_is "-" then Subtract ParseFloat type_name left right
      else if op_is "*" then Multiply ParseFloat type_name left right
      else if op_is "/" then Divide ParseFloat type_name left right
      else if op_is "%" then Modulo ParseFloat type_name left right
      else if op_is "^" then Power ParseFloat Pow type_name left right
      else if op_is ">" then Boolean (Greater left right)
      else if op_is "<" then Boolean (Less left right)
      else if op_is ">=" then Boolean (GreaterEqual left right)
      else if op_is "<=" then Boolean (LessEqual left right)
      else if op_is "and" then evalLogicalAnd left right
      else if op_is "or" then evalLogicalOr left right
      else Unknown (b "unsupported binary operator: " ++ op)
  end.

Definition unary_operator (op : bytes) (operand : any) : any :=
  match operand with
  | Unknown reason => Unknown reason
  | _ =>
      if bool_decide (op = b "-") then negate operand
      else if bool_decide (op = b "+") then
        if isNumeric operand then operand else fail "unary plus requires numeric operand"
      else if bool_decide (op = b "not") then Boolean (negb (isTruthy operand))
      else Unknown (b "unsupported unary operator: " ++ op)
  end.

(** ** Functions of values *)

Definition evalLenFunction (args : list any) : any :=
  match args with
  | [v] =>
      match v with
      | Text s => number_of (len s)
      | List elements => number_of (len elements)
      | Record fields => number_of (len fields)
      | _ => Unknown (b "len() not supported for " ++ type_name v)
      end
  | _ => fail "len() requires exactly 1 argument"
  end.
Definition evalTextFunction (args : list any) : any :=
  match args with
  | [v] => cr_value (CoerceToText v)
  | _ => fail "text() requires exactly 1 argument"
  end.
Definition evalNumberFunction (args : list any) : any :=
  match args with
  | [v] => cr_value (CoerceToNumber v)
  | _ => fail "number() requires exactly 1 argument"
  end.
Fixpoint sum_from (total : any) (args : list any) : any :=
  match args with
  | [] => total
  | arg :: args =>
      match Add ParseFloat type_name total arg with
      | Unknown reason => Unknown reason
      | total => sum_from total args
      end
  end.
Definition evalAddFunction (args : list any) : any := sum_from (Number 0) args.
Definition evalOutputFunction (args : list any) : any := default Nothing (head args).

Definition text_function (name : string) (f : bytes → any) (args : list any) : any :=
  match args with
  | [v] => with_text v f
  | _ => Unknown (b name ++ b "() requires exactly 1 argument")
  end.
Definition evalUpperFunction := text_function "upper" (λ s, Text (ToUpper s)).
Definition evalLowerFunction := text_function "lower" (λ s, Text (ToLower s)).
Definition evalTrimFunction := text_function "trim" (λ s, Text (TrimSpace s)).

Definition number_function (name : string) (f : Z → any) (args : list any) : any :=
  match args with
  | [v] => with_number v f
  | _ => Unknown (b name ++ b "() requires exactly 1 argument")
  end.
Definition evalAbsFunction := number_function "abs" (λ x, Number (if flt x 0 then fneg x else x)).
Definition evalFloorFunction := number_function "floor" (λ x, Number (Floor x)).
Definition evalCeilFunction := number_function "ceil" (λ x, Number (Ceil x)).
Definition evalRoundFunction := number_function "round" (λ x, Number (Round x)).

(** The loop of [max] and [min]: [better value best] replaces the best so far. *)
Fixpoint extremum (name : string) (better : Z → Z → bool) (i : Z) (best : option Z) (args : list any) : any :=
  match args with
  | [] => Number (default 0 best)
  | arg :: args =>
      match CoerceToNumber arg with
      | mkCoercion (Number x) true =>
          let best := match best with
                      | Some y => if better x y then x else y
                      | None => x
                      end in
          extremum name better (i + 1) (Some best) args
      | _ => Unknown (b name ++ b "() argument " ++ format_int (i + 1) ++ b " cannot be converted to number")
      end
  end.
Definition evalMaxFunction (args : list any) : any :=
  if bool_decide (args = []) then fail "max() requires at least 1 argument" else extremum "max" fgt 0 None args.
Definition evalMinFunction (args : list any) : any :=
  if bool_decide (args = []) then fail "min() requires at least 1 argument" else extremum "min" flt 0 None args.

Definition evalAssetFunction (args : list any) : any :=
  match args with
  | [data; mime] =>
      with_text data (λ d, with_text mime (λ m, Record [(b "data", Text d); (b "mime_type", Text m)]))
  | _ => fail "asset() requires exactly 2 arguments: asset(data, mime_type)"
  end.

(** The end of the text asked for is computed in 64 bits: a slice that ends
    before it starts panics. *)
Definition evalSubstringFunction (args : list any) : res any :=
  match args with
  | [v; from; n] =>
      match CoerceToText v, CoerceToNumber from, CoerceToNumber n with
      | mkCoercion (Text s) true, mkCoercion (Number f) true, mkCoercion (Number l) true =>
          let start := int_of_float f in
          let length := int_of_float l in
          if (start <? 0) || (length <? 0) || (len s <=? start) then
            Ok (Unknown (b "invalid substring bounds: start=" ++ format_int start ++ b ", length=" ++
              format_int length ++ b " for string of length " ++ format_int (len s)))
          else
            let end_ := i64 (start + length) in
            let end_ := if len s <? end_ then len s else end_ in
            if end_ <? start then Panic "slice bounds out of range"
            else Ok (Text (take (Z.to_nat (end_ - start)) (drop (Z.to_nat start) s)))
      | mkCoercion (Text _) true, mkCoercion (Number _) true, r => Ok (cr_value r)
      | mkCoercion (Text _) true, r, _ => Ok (cr_value r)
      | r, _, _ => Ok (cr_value r)
      end
  | _ => Ok (fail "substring() requires exactly 3 arguments: substring(text, start, length)")
  end.
Definition evalFindFunction (args : list any) : any :=
  match args with
  | [v; w] =>
      with_text v (λ s, with_text w (λ pattern,
        match Index s pattern with Some i => number_of (Z.of_nat i) | None => number_of (-1) end))
  | _ => fail "find() requires exactly 2 arguments: find(text, pattern)"
  end.
Definition evalReplaceFunction (args : list any) : any :=
  match args with
  | [v; w; x] =>
      with_text v (λ s, with_text w (λ old, with_text x (λ new, Text (ReplaceAll s old new))))
  | _ => fail "replace() requires exactly 3 arguments: replace(text, old, new)"
  end.
Definition evalSplitFunction (args : list any) : any :=
  match args with
  | [v; w] => with_text v (λ s, with_text w (λ sep, List (map Text (Split s sep))))
  | _ => fail "split() requires exactly 2 arguments: split(text, separator)"
  end.

Definition evalUnknownFunction (args : list any) : any :=
  match args with
  | [] => Unknown []
  | [Text s] => Unknown s
  | [v] => Unknown (format_v v)
  | _ => fail "unknown function expects 0 or 1 argument"
  end.

(** ** Lists and records *)

Definition evalCollectionCount (object : any) : any :=
  match object with
  | List elements => number_of (len elements)
  | Record fields => number_of (len fields)
  | _ => Unknown (b "cannot count elements of type " ++ type_name object)
  end.

Fixpoint all_texts (elements : list any) : any + list bytes :=
  match elements with
  | [] => inr []
  | e :: elements =>
      match CoerceToText e with
      | mkCoercion (Text s) true =>
          match all_texts elements with inr parts => inr (s :: parts) | inl u => inl u end
      | r => inl (cr_value r)
      end
  end.
Definition evalCollectionCombine (object separator : any) : any :=
  match object with
  | List elements =>
      match separator with
      | Text sep => match all_texts elements with inl u => u | inr parts => Text (Join parts sep) end
      | _ => Unknown (b "combine separator must be text, not " ++ type_name separator)
      end
  | _ => Unknown (b "combine operation only works on lists, not " ++ type_name object)
  end.

Definition delete_range (from to : nat) (elements : list any) : list any :=
  take from elements ++ drop (S to) elements.
Fixpoint remove_first (v : any) (elements : list any) : list any :=
  match elements with
  | [] => []
  | e :: elements => if Equal e v then elements else e :: remove_first v elements
  end.
Definition is_index (i : Z) (elements : list any) : bool := (0 <=? i) && (i <? len elements).

Definition evalCollectionRemove (object : any) (args : list any) : any :=
  match object with
  | List elements =>
      match args with
      | [v] =>
          let byValue := List (remove_first v elements) in
          match v with
          | Number x =>
              let index := int_of_float x in
              if is_index index elements then
                match elements !! Z.to_nat index with
                | Some (Number y) =>
                    if feq y x then byValue
                    else List (delete_range (Z.to_nat index) (Z.to_nat index) elements)
                | _ => List (delete_range (Z.to_nat index) (Z.to_nat index) elements)
                end
              else byValue
          | _ => byValue
          end
      | [Number x; Number y] =>
          let startIdx := int_of_float x in
          let endIdx := int_of_float y in
          if negb (is_index startIdx elements) || negb (is_index endIdx elements) || (endIdx <? startIdx)
          then Unknown (b "invalid range [" ++ format_int startIdx ++ b ", " ++ format_int endIdx ++
                 b "] for list of length " ++ format_int (len elements))
          else List (delete_range (Z.to_nat startIdx) (Z.to_nat endIdx) elements)
      | [_; _] => fail "remove range requires two numeric indices"
      | _ => fail "remove operation accepts 1 or 2 arguments"
      end
  | _ => Unknown (b "remove operation only works on lists, not " ++ type_name object)
  end.

Definition evalCollectionAppend (object item : any) : any :=
  match object with
  | List elements => List (elements ++ [item])
  | _ => Unknown (b "append operation only works on lists, not " ++ type_name object)
  end.
Definition evalCollectionPrepend (object item : any) : any :=
  match object with
  | List elements => List (item :: elements)
  | _ => Unknown (b "prepend operation only works on lists, not " ++ type_name object)
  end.

(** [list[i]] for a literal index; [None]: not an index. *)
Definition tryIndexLookup (elements : list any) (filter : Expression) : option any :=
  let at_ index :=
    Some (if is_index index elements then default Nothing (elements !! Z.to_nat index)
          else Unknown (b "list index " ++ format_int index ++ b " out of bounds (length " ++
                 format_int (len elements) ++ b ")")) in
  match filter with
  | LiteralExpression _ (Number bits | GoFloat64 bits) => at_ (int_of_float bits)
  | LiteralExpression _ (GoInt n) => at_ n
  | _ => None
  end.

(** A field of a record by the entries of its map. *)
Definition project (fields : list (bytes * any)) (names : list bytes) : any :=
  Record (foldl (λ acc name,
    set_field name (match field_lookup name fields with
                    | Some v => convertToMBLType v
                    | None => fail "not_found"
                    end) acc) [] names).

(** ** Inheritance *)

Fixpoint deepCopyValue (v : any) : any :=
  match v with
  | Record fields => Record (map (λ '(k, x), (k, deepCopyValue x)) fields)
  | List elements => List (map deepCopyValue elements)
  | _ => v
  end.

Definition absent (key : bytes) (target : list (bytes * any)) : bool :=
  match field_lookup key target with Some _ => false | None => true end.

(** One field; [inr]: the error. *)
Definition applySingleFieldInheritance (target : list (bytes * any)) (key : bytes) (v : any)
    (modifier : bytes) : list (bytes * any) + bytes :=
  let is_mod s := bool_decide (modifier = b s) in
  if is_mod "copy" then inl (if absent key target then set_field key (deepCopyValue v) target else target)
  else if is_mod "link" then inl (if absent key target then set_field key v target else target)
  else if is_mod "reset" then inl (set_field key (deepCopyValue v) target)
  else if is_mod "exclude" then inl target
  else inr (b "unknown modifier: " ++ modifier).

(** The value of a field with the entries a modifier left on it and the modifier to
    apply; [None]: excluded.  The type assertions on the entries can panic. *)
Definition effective_field (fields : list (bytes * any)) (fieldValue : any) (globalModifier : bytes) :
    res (option (any * bytes)) :=
  let assertion {A} : res A := Panic "interface conversion" in
  excluded ← match field_lookup (b "@exclude") fields with
             | Some (GoBool x) => Ok x
             | Some _ => assertion
             | None => Ok false
             end;
  if excluded : bool then Ok None
  else match field_lookup (b "@inherit") fields with
  | Some (GoString m) => Ok (Some (fieldValue, m))
  | Some _ => assertion
  | None =>
      Ok (Some (match field_lookup (b "@reset") fields with
                | Some (GoBool true) => (fieldValue, b "reset")
                | Some reset => (reset, b "reset")
                | None => (fieldValue, globalModifier)
                end))
  end.

Fixpoint applyInheritanceWithModifiers (target source : list (bytes * any)) (globalModifier : bytes) :
    res (list (bytes * any) + bytes) :=
  match source with
  | [] => Ok (inl target)
  | (key, v) :: source =>
      field ← match v with
              | GoMap fields =>
                  match field_lookup (b "value") fields with
                  | Some fieldValue => effective_field fields fieldValue globalModifier
                  | None => Ok (Some (v, globalModifier))
                  end
              | _ => Ok (Some (v, globalModifier))
              end;
      match field with
      | None => applyInheritanceWithModifiers target source globalModifier
      | Some (x, m) =>
          match applySingleFieldInheritance target key x m with
          | inl target => applyInheritanceWithModifiers target source globalModifier
          | inr e => Ok (inr e)
          end
      end
  end.

Definition getHeritabilityRule (fields : list (bytes * any)) (fieldName : bytes) : bytes :=
  match field_lookup (fieldName ++ b ".@heritability") fields with
  | Some (Text s) | Some (GoString s) => s
  | _ => b "copy"
  end.
Definition getDefaultValue (fields : list (bytes * any)) (fieldName : bytes) : option any :=
  field_lookup (fieldName ++ b ".@default") fields.

(** The placeholder identity of a path: a polynomial hash in 64 bits. *)
Definition path_hash (s : bytes) : Z := foldl (λ h x, u64 (h * 31 + byte.unsigned x)) 0 s.

(** ** JSON trees *)

Fixpoint convertJsonToMBL (v : any) : any :=
  match v with
  | GoNil => Nothing
  | GoBool x => Boolean x
  | GoFloat64 bits => Number bits
  | GoString s => Text s
  | GoSlice elements => List (map convertJsonToMBL elements)
  | GoMap fields => Record (map (λ '(k, x), (k, convertJsonToMBL x)) fields)
  | _ => Text (format_v v)
  end.

Fixpoint convertMBLToJson (v : any) : any :=
  match v with
  | Nothing => GoNil
  | Boolean x => GoBool x
  | Number bits => GoFloat64 bits
  | Text s => GoString s
  | List elements => GoSlice (map (convertMBLToJson) elements)
  | Record fields => GoMap (map (λ '(k, x), (k, convertMBLToJson x)) fields)
  | Time t _ => GoString (FormatRFC3339 t)
  | Money amount code => GoMap [(b "amount", GoFloat64 amount); (b "currency", GoString code)]
  | Unknown reason => GoMap [(b "type", GoString (b "unknown")); (b "reason", GoString reason)]
  | _ => GoString (format_v v)
  end.
End Functions.
