(* ===== verification/MblLibrary.v ===== *)
(** * The libraries of my.computer (internal/mbl/interpreter/interpreter.go, crypto.go)

    Commands, files, XML, requests and passwords: the functions that a program calls
    as [my.computer.…] and that do not touch the database.  Files, processes
    and the network are the class [External]; the import of fixed-width files,
    a program of its own (internal/ari), is one of its functions.  A Go map is
    the list of its entries in the order an iteration takes. *)
From stdpp Require Import gmap.
From S2P Require Import Prelude Utf8 GoTime GoFloat MblTokens MblValue MblCompare MblCoerce MblAst MblState MblBuiltins.

(** ** Hexadecimal *)

Definition hex_digits : bytes := b "0123456789abcdef".
(** [hex.EncodeToString]. *)
Definition hex_encode (s : bytes) : bytes :=
  concat (map (λ x, let n := Z.to_nat (byte.unsigned x) in
    [default Byte.x00 (hex_digits !! (n / 16)%nat); default Byte.x00 (hex_digits !! (n mod 16)%nat)]) s).
Definition hex_value (x : byte) : option Z :=
  let n := byte.unsigned x in
  if between 48 57 n then Some (n - 48)
  else if between 97 102 n then Some (n - 87)
  else if between 65 70 n then Some (n - 55)
  else None.
(** [hex.DecodeString]; [None]: the error. *)
Fixpoint hex_decode (s : bytes) : option bytes :=
  match s with
  | [] => Some []
  | x :: y :: s =>
      h ← hex_value x; l ← hex_value y; rest ← hex_decode s; Some (byte_of (16 * h + l) :: rest)
  | [_] => None
  end.

Section Library.
Context {T W : Type} `{External W} `{GoLib}.
Local Abbreviation M A := (Op (Interpreter T W) A).
Local Notation CoerceToText := (CoerceToText FormatFloat FormatFixed2 format_v).

(** An argument that has to be a text, as [CoerceToText] sees it or as it is. *)
Definition text_argument (v : any) (reason : string) (k : bytes → M any) : M any :=
  match CoerceToText v with mkCoercion (Text s) true => k s | _ => mret (fail reason) end.
Definition text_of (v : any) : option bytes :=
  match v with Text s | GoString s => Some s | _ => None end.

(** ** Commands *)

Definition command_result (code : Z) (out err : bytes) : any :=
  Record [(b "exit_code", number_of code); (b "stdout", Text out); (b "stderr", Text err)].
Definition evalComputerRun (args : list any) : M any :=
  match args with
  | [v] =>
      match text_of v with
      | None => mret (fail "my.computer.run command must be a string")
      | Some command =>
          r ← from_world (ext_Run command);
          mret (match r with
                | inl e => command_result (-1) [] e
                | inr (code, out, err) => command_result code out err
                end)
      end
  | _ => mret (fail "my.computer.run expects exactly one argument (command string)")
  end.

(** ** XML *)

Inductive XMLNode := mkNode (Name : bytes) (Attributes : list (bytes * bytes)) (Text_ : bytes) (Children : list XMLNode).
Definition node_name (n : XMLNode) : bytes := let '(mkNode name _ _ _) := n in name.
Definition add_child (child n : XMLNode) : XMLNode :=
  let '(mkNode name attrs text children) := n in mkNode name attrs text (children ++ [child]).

(** The open elements, innermost first, and the root if it is closed. *)
Definition close_element (stack : list XMLNode) (root : option XMLNode) : list XMLNode * option XMLNode :=
  match stack with
  | [] => ([], root)
  | [n] => ([], Some n)
  | n :: p :: stack => (add_child n p :: stack, root)
  end.
Definition xml_step (state : list XMLNode * option XMLNode) (t : XMLToken) : list XMLNode * option XMLNode :=
  let '(stack, root) := state in
  match t with
  | StartElement name attrs =>
      let attrs := foldl (λ acc '(k, v), set_field k v acc) [] attrs in
      (mkNode name attrs [] [] :: stack, root)
  | CharData text =>
      match stack with
      | mkNode name attrs old children :: stack =>
          let text := TrimSpace text in
          (mkNode name attrs (if bool_decide (text = []) then old else text) children :: stack, root)
      | [] => state
      end
  | EndElement => close_element stack root
  | OtherToken => state
  end.
(** Elements still open at the end are part of the tree. *)
Fixpoint close_all (fuel : nat) (stack : list XMLNode) (root : option XMLNode) : option XMLNode :=
  match fuel with
  | O => root
  | S fuel => let '(stack, root) := close_element stack root in close_all fuel stack root
  end.
Definition xml_tree (tokens : list XMLToken) : option XMLNode :=
  let '(stack, root) := foldl xml_step ([], None) tokens in close_all (length stack) stack root.

(** Children of the same name together. *)
Definition grouped (children : list (bytes * any)) : list (bytes * list any) :=
  foldl (λ groups '(name, v),
    set_field name (default [] (field_lookup name groups) ++ [v]) groups) [] children.
Fixpoint xmlNodeToRecord (n : XMLNode) : any :=
  let '(mkNode _ attrs text children) := n in
  let fields := map (λ '(k, v), (k, Text v)) attrs in
  let fields := if bool_decide (text = []) then fields else set_field (b "_text") (Text text) fields in
  let children := map (λ c, (node_name c, xmlNodeToRecord c)) children in
  Record (foldl (λ fields '(name, vs),
    set_field name (match vs with [v] => v | _ => List vs end) fields) fields (grouped children)).

Definition parseXMLWithTokens (data : bytes) : any :=
  match xml_tree (xml_tokens data) with
  | None => fail "no root element found in XML"
  | Some root => xmlNodeToRecord root
  end.

Fixpoint convertXMLToRecord (v : any) : any :=
  let entry '(k, x) :=
    (k, match x with
        | GoString s => Text s
        | GoMap _ => convertXMLToRecord x
        | GoSlice items =>
            List (map (λ item, match item with GoMap _ => convertXMLToRecord item | _ => Text (format_v item) end) items)
        | _ => Text (format_v x)
        end) in
  match v with GoMap fields => Record (map entry fields) | _ => Record [] end.

Definition evalXMLImport (path : bytes) : M any :=
  r ← from_world (ext_ReadFile path);
  mret (match r with
        | inl e => Unknown (b "failed to read file " ++ path ++ b ": " ++ e)
        | inr data =>
            match xml_Unmarshal data with
            | Some v => convertXMLToRecord v
            | None => parseXMLWithTokens data
            end
        end).

(** *** Writing XML *)

Definition quoted_bytes (s : bytes) : bytes := [Byte.x22] ++ s ++ [Byte.x22].
Definition element (name content : bytes) : bytes := b "<" ++ name ++ b ">" ++ content ++ b "</" ++ name ++ b ">".
(** [strings.Replace] of the first occurrence. *)
Definition replace_first (s old new : bytes) : bytes :=
  match Index s old with Some i => take i s ++ new ++ drop (i + length old) s | None => s end.

(** The fields that are attributes, and the name of the root element. *)
Definition attribute_fields (options : list (bytes * any)) : list bytes :=
  match field_lookup (b "attributes") options with
  | Some (List names) => omap (λ v, match v with Text s => Some s | _ => None end) names
  | _ => []
  end.
Definition root_element (options : list (bytes * any)) : bytes :=
  match field_lookup (b "root_element") options with Some (Text s) => s | _ => b "root" end.

Section Export.
Context (options : list (bytes * any)).

Definition xml_attribute (f : bytes * any) : bytes :=
  match f with
  | (field, Text s) => if bool_decide (field ∈ attribute_fields options) then b " " ++ field ++ b "=" ++ quoted_bytes s else []
  | _ => []
  end.
(** [recordToXML] of a record; [to_element] writes a field. *)
Definition xml_record (to_element : bytes → any → bytes) (fields : list (bytes * any)) : bytes :=
  let root := root_element options in
  let child '(field, v) :=
    if bool_decide (field ∈ attribute_fields options) then []
    else if bool_decide (field = b "_text") then match v with Text s => s | _ => [] end
    else to_element field v in
  b "<" ++ root ++ concat (map xml_attribute fields) ++ b ">" ++ concat (map child fields) ++ b "</" ++ root ++ b ">".
Fixpoint fieldToXMLElement (name : bytes) (v : any) : bytes :=
  match v with
  | Text s => element name s
  | Number bits => element name (FormatG bits)
  | Boolean x => element name (if x then b "true" else b "false")
  | Record fields =>
      let nested := xml_record fieldToXMLElement fields in
      replace_first (replace_first nested (b "<root") (b "<" ++ name)) (b "</root>") (b "</" ++ name ++ b ">")
  | List elements => concat (map (fieldToXMLElement name) elements)
  | Unknown _ => []
  | _ => element name (format_v v)
  end.
(** [inl]: the error. *)
Definition recordToXML (node : any) : bytes + bytes :=
  match node with
  | Record fields => inr (xml_record fieldToXMLElement fields)
  | _ => inl (b "can only export records to XML, got " ++ type_name node)
  end.

Definition xml_header : bytes :=
  b "<?xml version=" ++ quoted_bytes (b "1.0") ++ b " encoding=" ++ quoted_bytes (b "UTF-8") ++ b "?>" ++ [Byte.x0a].
Definition evalXMLExport (node : any) (path : bytes) : M any :=
  match recordToXML node with
  | inl e => mret (Unknown (b "failed to convert to XML: " ++ e))
  | inr content =>
      let content := match field_lookup (b "pretty") options with
                     | Some (Boolean true) | None => xml_header ++ content
                     | Some _ => content
                     end in
      e ← from_world (ext_WriteFile path content);
      match e with
      | Some e => mret (Unknown (b "failed to write file " ++ path ++ b ": " ++ e))
      | None => t ← from_world ext_Now; mret (Time t PrecisionSecond)
      end
  end.
End Export.

(** ** Files *)

(** The formats other than XML. *)
Definition other_format (what : string) (format : bytes) : any :=
  let format_is s := bool_decide (format = b s) in
  let not_yet s := fail (s +:+ " " +:+ what +:+ " not yet implemented")%string in
  if format_is "json" then not_yet "JSON"
  else if format_is "csv" then not_yet "CSV"
  else if format_is "tsv" then not_yet "TSV"
  else if format_is "toml" then not_yet "TOML"
  else if format_is "xlsx" then fail ("Excel " +:+ what +:+ " not yet implemented - reserved for future implementation")%string
  else Unknown (b "unsupported " ++ b what ++ b " format: " ++ format).

(** The options argument at a place, or none. *)
Definition options_argument (args : list any) (i : nat) (reason : string) (k : list (bytes * any) → M any) : M any :=
  match args !! i with
  | None => k []
  | Some (Record options) => k options
  | Some _ => mret (fail reason)
  end.
Definition evalFilesImport (args : list any) : M any :=
  match args with
  | v :: w :: _ =>
      text_argument v "import path must be text" (λ path,
      text_argument w "import format must be text" (λ format,
      options_argument args 2 "import options must be a record" (λ _,
        if bool_decide (format = b "xml") then evalXMLImport path else mret (other_format "import" format))))
  | _ => mret (fail "import requires at least 2 arguments: path and format")
  end.
Definition evalFilesExport (args : list any) : M any :=
  match args with
  | node :: v :: w :: _ =>
      text_argument v "export path must be text" (λ path,
      text_argument w "export format must be text" (λ format,
      options_argument args 3 "export options must be a record" (λ options,
        if bool_decide (format = b "xml") then evalXMLExport options node path
        else mret (other_format "export" format))))
  | _ => mret (fail "export requires at least 3 arguments: node, path, and format")
  end.
(** The arguments of [evalFilesImportFixedWidth]. *)
Definition evalFilesImportFixedWidth (args : list any) : M any :=
  match args with
  | v :: w :: _ =>
      text_argument v "import_fixed_width path must be text" (λ path,
      text_argument w "import_fixed_width ari_spec must be text" (λ ari_spec,
      options_argument args 2 "import_fixed_width options must be a record" (λ _,
        from_world (ext_fixed_width path ari_spec))))
  | _ => mret (fail "import_fixed_width requires at least 2 arguments: path and ari_spec")
  end.
Definition evalFilesLibraryProcedure (path : list bytes) (args : list any) : M any :=
  match path with
  | [] => mret (fail "incomplete files library path")
  | procedure :: _ =>
      let proc_is s := bool_decide (procedure = b s) in
      if proc_is "import" then evalFilesImport args
      else if proc_is "export" then evalFilesExport args
      else if proc_is "import_fixed_width" then evalFilesImportFixedWidth args
      else if existsb proc_is ["read"; "write"; "exists"; "delete"; "list"; "info"] then
        mret (Unknown (b "files." ++ procedure ++ b " not yet implemented"))
      else mret (Unknown (b "unknown files procedure: " ++ procedure))
  end.

(** ** Requests *)

Record HttpOptions := mkOptions { ho_timeout : Z; ho_follow : bool; ho_headers : list (bytes * bytes) }.

(** The options of a request; [inl]: the reason they are refused. *)
Fixpoint header_values (fields : list (bytes * any)) : option (list (bytes * bytes)) :=
  match fields with
  | [] => Some []
  | (key, Text s) :: fields => (cons (key, s)) <$> header_values fields
  | _ => None
  end.
Definition http_options (options : list (bytes * any)) : string + HttpOptions :=
  match field_lookup (b "timeout") options with
  | Some (Number _) | None =>
      let timeout := match field_lookup (b "timeout") options with
                     | Some (Number x) => i64 (int_of_float x * 1000000)
                     | _ => 30000 * 1000000
                     end in
      match field_lookup (b "follow_redirects") options with
      | Some (Boolean _) | None =>
          let follow := match field_lookup (b "follow_redirects") options with Some (Boolean x) => x | _ => true end in
          match field_lookup (b "headers") options with
          | None => inr (mkOptions timeout follow [])
          | Some (Record fields) =>
              match header_values fields with
              | Some headers => inr (mkOptions timeout follow headers)
              | None => inl "header values must be text"%string
              end
          | Some _ => inl "headers option must be a record"%string
          end
      | Some _ => inl "follow_redirects option must be a boolean"%string
      end
  | Some _ => inl "timeout option must be a number (milliseconds)"%string
  end.

(** The class of an error of [client.Do]. *)
Definition network_error (e : bytes) : any :=
  let has s := contains e (b s) in
  if has "no such host" || has "DNS" then fail "dns_failure"
  else if has "connection refused" then fail "connection_refused"
  else if has "timeout" || has "deadline exceeded" then fail "timeout"
  else if has "tls" || has "certificate" then fail "tls_error"
  else Unknown (b "network_error: " ++ e).

Definition send_request (r : HttpRequest) : M any :=
  match NewRequest (hr_method r) (hr_url r) with
  | Some e => mret (Unknown (b "invalid_url: " ++ e))
  | None =>
      startTime ← from_world ext_Now;
      answer ← from_world (ext_Do r);
      match answer with
      | inl e => mret (network_error e)
      | inr (status, headers, body) =>
          endTime ← from_world ext_Now;
          let duration := (unix_nano endTime - unix_nano startTime) ÷ 1000000 in
          mret (match body with
                | inl e => Unknown (b "response_read_error: " ++ e)
                | inr body =>
                    Record [(b "status", number_of status); (b "body", Text body);
                            (b "headers", Record (map (λ '(k, vs), (k, Text (Join vs (b ", ")))) headers));
                            (b "time", Time endTime Byte.x00); (b "duration", number_of duration)]
                end)
      end
  end.

(** The part all requests share: the texts, then the options, then the request. *)
Definition request (name method : string) (place : string) (v : any) (body : option bytes) (options : option any) : M any :=
  match text_of v with
  | None => mret (fail (name +:+ "() first argument must be a URL string")%string)
  | Some url =>
      let go o := send_request (mkRequest (b method) url (ho_headers o) body (ho_timeout o) (ho_follow o)) in
      match options with
      | None => go (mkOptions (30000 * 1000000) true [])
      | Some (Record options) =>
          match http_options options with inl reason => mret (fail reason) | inr o => go o end
      | Some _ => mret (fail (name +:+ "() " +:+ place +:+ " argument must be an options record")%string)
      end
  end.
(** [evalHttpGetFunction] and [evalHttpDeleteFunction]. *)
Definition evalHttpWithoutBody (name method : string) (args : list any) : M any :=
  match args with
  | [v] => request name method "second" v None None
  | [v; options] => request name method "second" v None (Some options)
  | _ => mret (fail (name +:+ "() expects 1 or 2 arguments (url [, options])")%string)
  end.
(** [evalHttpPostFunction], [evalHttpPutFunction] and [evalHttpPatchFunction]. *)
Definition evalHttpWithBody (name method : string) (args : list any) : M any :=
  let go v w options :=
    match text_of v, text_of w with
    | Some _, None => mret (fail (name +:+ "() second argument must be a body string")%string)
    | _, body => request name method "third" v body options
    end in
  match args with
  | [v; w] => go v w None
  | [v; w; options] => go v w (Some options)
  | _ => mret (fail (name +:+ "() expects 2 or 3 arguments (url, body [, options])")%string)
  end.

(** ** Passwords and tokens *)

Definition argon2KeyLen : Z := 32.
Definition argon2SaltLen : Z := 16.
Definition tokenByteLen : Z := 32.

Definition evalHashPassword (args : list any) : M any :=
  match args with
  | [v] =>
      text_argument v "hash_password password must be text" (λ password,
        r ← from_world (ext_Random argon2SaltLen);
        mret (match r with
              | inl e => Unknown (b "hash_password salt generation failed: " ++ e)
              | inr salt =>
                  Record [(b "hash", Text (hex_encode (IDKey password salt argon2KeyLen)));
                          (b "salt", Text (hex_encode salt))]
              end))
  | _ => mret (fail "hash_password requires exactly one argument: password")
  end.
Definition verify (password hash salt : bytes) : bool :=
  match hex_decode hash, hex_decode salt with
  | Some expected, Some salt =>
      negb (bool_decide (expected = [])) && negb (bool_decide (salt = [])) &&
      bool_decide (IDKey password salt (u32 (len expected)) = expected)
  | _, _ => false
  end.
Definition evalVerifyPassword (args : list any) : M any :=
  match args with
  | [p; h; s] =>
      text_argument p "verify_password password must be text" (λ password,
      text_argument h "verify_password hash must be text" (λ hash,
      text_argument s "verify_password salt must be text" (λ salt, mret (Boolean (verify password hash salt)))))
  | _ => mret (fail "verify_password requires exactly three arguments: password, hash, salt")
  end.
Definition evalGenerateToken (args : list any) : M any :=
  match args with
  | [] =>
      r ← from_world (ext_Random tokenByteLen);
      mret (match r with inl e => Unknown (b "generate_token failed: " ++ e) | inr buf => Text (hex_encode buf) end)
  | _ => mret (fail "generate_token takes no arguments")
  end.
Definition evalCryptoLibraryProcedure (path : list bytes) (args : list any) : M any :=
  match path with
  | [] => mret (fail "incomplete crypto library path")
  | procedure :: _ =>
      let proc_is s := bool_decide (procedure = b s) in
      if proc_is "hash_password" then evalHashPassword args
      else if proc_is "verify_password" then evalVerifyPassword args
      else if proc_is "generate_token" then evalGenerateToken args
      else mret (Unknown (b "unknown crypto procedure: " ++ procedure))
  end.
End Library.
