(* ===== verification/MblEval.v ===== *)
(** * The MBL interpreter (internal/mbl/interpreter/interpreter.go)

    The evaluator of expressions and statements, one definition per method of
    the source, on the state of [MblState].  The methods call one another through
    the syntax tree and, by procedure calls, through the procedures of the state:
    a method takes the evaluator of expressions and of statements it recurses
    to ([Sem]), and [level] ties the knot, one level for each node entered.
    The libraries of my.computer are in [MblLibrary]; inputs and outputs and JSON
    are the class [External].

    A statement gives a value or the signal of a [return]; the signal of a
    [break] is a value, which a procedure can hand to its caller. *)
From stdpp Require Import gmap.
From S2P Require Import Prelude Utf8 GoTime GoFloat ValueCodec MblTokens MblLexer MblValue MblCompare MblCoerce MblAst MblState MblBuiltins MblLibrary.

Inductive result := Val (v : any) | ReturnSignal (v : any).

(** [unwrapReturn]. *)
Definition unwrapReturn (r : result) : any := match r with Val v | ReturnSignal v => v end.

Definition maxIterations : Z := 100000.
Definition maxForLoopElements : Z := 100000.
Definition MaxRecordNodes : Z := 10000.

Definition nil_panic {S A} : Op S A := op_lift nil_deref.
Definition eval_out_of_fuel {S A} : Op S A := op_err "out of fuel".

Record Sem (T W : Type) := mkSem {
  sem_expression : Expression → Op (Interpreter T W) any;
  sem_statement : Statement → Op (Interpreter T W) result
}.
Arguments mkSem {T W}.
Arguments sem_expression {T W}.
Arguments sem_statement {T W}.

Section Eval.
Context {T W : Type} `{Tree T} `{External W} `{GoLib}.
Local Abbreviation M A := (Op (Interpreter T W) A).

(** ** Reading *)

(** A stored value converted: what the source tests with [err == nil]. *)
Definition to_mbl (v : Value) : M (option any) :=
  r ← op_try (op_lift (storageToMBL v)); mret (match r with Ok x => Some x | _ => None end).

(** The staged value of a path, converted, or else the stored one. *)
Definition staged_mbl (p : list bytes) : M (option any) :=
  staged ← getStagedWrite p;
  match staged with Some v => to_mbl v | None => mret None end.
Definition stored_mbl (p : list bytes) : M (option any) :=
  r ← read_tree p;
  match r with Ok v => to_mbl v | _ => mret None end.
Definition staged_or_stored (p : list bytes) : M (option any) :=
  staged ← staged_mbl p;
  match staged with Some v => mret (Some v) | None => stored_mbl p end.

Definition is_true_text (v : any) : bool :=
  match v with Text s => bool_decide (s = b "true") | _ => false end.
Definition checkCascadeAtPath (basePath : list bytes) (varName : bytes) : M (option any) :=
  meta ← stored_mbl (basePath ++ [varName; b "@cascade"]);
  match meta with
  | Some v => if is_true_text v then stored_mbl (basePath ++ [varName]) else mret None
  | None => mret None
  end.
Fixpoint first_cascade (patterns : list (list bytes)) (varName : bytes) : M (option any) :=
  match patterns with
  | [] => mret None
  | p :: patterns =>
      v ← checkCascadeAtPath p varName;
      match v with Some _ => mret v | None => first_cascade patterns varName end
  end.
Definition resolveCascade (varName : bytes) : M (option any) :=
  first_cascade [[b "world"; b "org"]; [b "world"; b "config"]; [b "world"]] varName.

Definition current_scope (st : Interpreter T W) : Scope := default (mkScope ∅ None None) (scopes st !! scope st).

Definition resolveReference (attributeID : Z) : M any :=
  refs ← gets (λ st, referenceMap (current_scope st));
  match refs with
  | None => mret (fail "reference map not initialized")
  | Some m =>
      match m !! attributeID with
      | None => mret (Unknown (b "reference with AttributeID " ++ format_int attributeID ++ b " not found"))
      | Some target =>
          v ← staged_or_stored target;
          mret (default (Unknown (b "could not read target path " ++ format_path target)) v)
      end
  end.

Fixpoint accessRecordFields (currentValue : any) (fieldNames : list bytes) : M any :=
  match fieldNames with
  | [] => mret currentValue
  | fieldName :: rest =>
      match currentValue with
      | Record fields =>
          match field_lookup fieldName fields with
          | Some (Reference id) => v ← resolveReference id; accessRecordFields v rest
          | Some v => accessRecordFields v rest
          | None => mret (Unknown (b "field '" ++ fieldName ++ b "' not found in record"))
          end
      | _ => mret (Unknown (b "cannot access field '" ++ fieldName ++ b "' on non-record type"))
      end
  end.

(** *** Records put together from the children of a path *)

(** The loop over the children of a path; [descend] reads a child that is itself
    a container.  The result is the record, if any, whether the budget of nodes
    was exceeded, and what is left of it. *)
Fixpoint read_children (descend : list bytes → Z → M (option any * bool * Z)) (basePath : list bytes)
    (children : list bytes) (fields : list (bytes * any)) (budget : Z) : M (option any * bool * Z) :=
  match children with
  | [] => mret (if bool_decide (fields = []) then None else Some (Record fields), false, budget)
  | name :: children =>
      if bool_decide (name = []) then read_children descend basePath children fields budget
      else if budget <=? 0 then mret (None, true, budget)
      else
        let childPath := basePath ++ [name] in
        staged ← staged_mbl childPath;
        match staged with
        | Some v => read_children descend basePath children (set_field name v fields) (budget - 1)
        | None =>
            stored ← stored_mbl childPath;
            match match stored with Some (Record []) => None | _ => stored end with
            | Some v => read_children descend basePath children (set_field name v fields) (budget - 1)
            | None =>
                nested ← descend childPath (budget - 1);
                let '(record, exceeded, budget) := nested in
                if exceeded : bool then mret (None, true, budget)
                else read_children descend basePath children
                  (match record with Some v => set_field name v fields | None => fields end) budget
            end
        end
  end.
(** [readStoredRecord].  [fuel] is more than the budget: every level below takes
    one of it. *)
Fixpoint readStoredRecord (fuel : nat) (basePath : list bytes) (budget : Z) :
    M (option any * bool * Z) :=
  match fuel with
  | O => eval_out_of_fuel
  | S fuel =>
      r ← op_try (from_tree (tree_ChildrenWithNames basePath));
      match r with
      | Ok children => read_children (readStoredRecord fuel) basePath children [] budget
      | _ => mret (None, false, budget)
      end
  end.

Definition template_fields : list string := ["name"; "rate"; "balance"; "internal"; "value"; "data"; "type"].
Definition meta_fields : list string := ["@heritability"; "@default"; "@cascade"].
(** One attribute of a template: the staged value if there is one, else the stored. *)
Definition template_attribute (basePath : list bytes) (name : bytes) (fields : list (bytes * any)) :
    M (list (bytes * any)) :=
  let childPath := basePath ++ [name] in
  staged ← getStagedWrite childPath;
  v ← match staged with Some v => to_mbl v | None => stored_mbl childPath end;
  mret (match v with Some x => set_field name x fields | None => fields end).
Fixpoint template_attributes (basePath : list bytes) (names : list bytes) (fields : list (bytes * any)) :
    M (list (bytes * any)) :=
  match names with
  | [] => mret fields
  | name :: names => fields ← template_attribute basePath name fields; template_attributes basePath names fields
  end.
Definition reconstructTemplateRecord (basePath : list bytes) : M (option any) :=
  let names := concat (map (λ f, b f :: map (λ m, b f ++ b "." ++ b m) meta_fields) template_fields) in
  fields ← template_attributes basePath names [];
  mret (if bool_decide (fields = []) then None else Some (Record fields)).

Definition reconstructRecord (basePath : list bytes) : M (option any) :=
  if (3 <=? length basePath)%nat && bool_decide (last basePath = Some (b "template"))
  then reconstructTemplateRecord basePath
  else
    r ← readStoredRecord (S (Z.to_nat MaxRecordNodes)) basePath MaxRecordNodes;
    let '(record, exceeded, _) := r in
    mret (if exceeded : bool then
            Some (Unknown (b "record at " ++ dotted basePath ++ b " exceeds the " ++
              format_int MaxRecordNodes ++ b "-node read limit"))
          else record).

(** *** Paths *)

(** A call read as one part of a path by the lexer, and the names of functions
    alone; [None]: an ordinary name. *)
Definition special_part (part : bytes) : option (M any) :=
  if bool_decide (part = b "unknown") then Some (mret (fail "unknown"))
  else if bool_decide (part = b "run") then Some (mret (fail "run() requires an argument"))
  else if bool_decide (part = b "new") then Some (mret (fail "new() requires an argument"))
  else if starts_with part [Byte.x28; Byte.x22] && ends_with part [Byte.x22; Byte.x29] then
    Some (if (length part <? 4)%nat then op_lift (Panic "slice bounds out of range")
          else
            let argument := take (length part - 4) (drop 2 part) in
            if existsb (λ s, contains argument (b s)) [" "; "echo"; "ls"; "pwd"; "cat"]
            then evalComputerRun [Text argument]
            else mret (Unknown argument))
  else None.

(** A bare name relative to the current scope. *)
Definition scoped_value (name : bytes) : M (option any) :=
  here ← gets currentScopePath;
  match here with
  | None => mret None
  | Some sc => p ← append sc [name]; segs ← gets (λ st, path_of st p); staged_or_stored segs
  end.

(** The rest of [evalPath]: the resolved path, staged, stored, or put together. *)
Definition read_path (parts : list bytes) : M any :=
  path ← resolvePath parts;
  staged ← getStagedWrite path;
  match staged with
  | Some v =>
      r ← op_try (op_lift (storageToMBL v));
      mret (match r with
            | Ok x => x
            | Err e | Panic e => Unknown (b "failed to convert staged value: " ++ b e)
            end)
  | None =>
      r ← read_tree path;
      match r with
      | Err e | Panic e =>
          record ← reconstructRecord path;
          mret (default (Unknown (b "failed to read path " ++ format_path path ++ b ": " ++ b e)) record)
      | Ok v =>
          r ← op_try (op_lift (storageToMBL v));
          match r with
          | Err e | Panic e => mret (Unknown (b "failed to convert storage value: " ++ b e))
          | Ok (Record []) => record ← reconstructRecord path; mret (default (Record []) record)
          | Ok x => mret x
          end
      end
  end.

(** [evalPath] of a path without computed segments. *)
Definition evalPath (parts : list bytes) : M any :=
  match parts with
  | [] => mret (fail "empty path")
  | [name] =>
      match special_part name with
      | Some m => m
      | None =>
          v ← Get name;
          match v with
          | Some v => mret v
          | None =>
              v ← scoped_value name;
              match v with
              | Some v => mret v
              | None =>
                  v ← resolveCascade name;
                  match v with Some v => mret v | None => read_path parts end
              end
          end
      end
  | base :: fields =>
      v ← Get base;
      match v with Some v => accessRecordFields v fields | None => read_path parts end
  end.

(** ** Expressions and statements *)

Section Methods.
Context (sem : Sem T W).
Local Notation evalExpression := (sem_expression sem).
Local Notation evalStatement := (sem_statement sem).

(** The value of an expression, handed on unless it is Unknown, which is then the
    result. *)
Definition known (e : Expression) (k : any → M any) : M any :=
  v ← evalExpression e; match reason_of v with Some _ => mret v | None => k v end.
(** The same for a statement. *)
Definition known_value (e : Expression) (k : any → M result) : M result :=
  v ← evalExpression e; match reason_of v with Some _ => mret (Val v) | None => k v end.

(** The values of expressions, up to the first Unknown. *)
Fixpoint all_known (es : list Expression) (values : list any) : M (any + list any) :=
  match es with
  | [] => mret (inr values)
  | e :: es =>
      v ← evalExpression e;
      match reason_of v with Some _ => mret (inl v) | None => all_known es (values ++ [v]) end
  end.

(** *** Paths with computed segments *)

Fixpoint resolve_dynamic (parts : list bytes) (dynamic : list (nat * Expression)) : M (any + list bytes) :=
  match dynamic with
  | [] => mret (inr parts)
  | (idx, e) :: dynamic =>
      v ← evalExpression e;
      match reason_of v with
      | Some _ => mret (inl v)
      | None =>
          match keyToString v with
          | None => mret (inl (Unknown (b "bracket key-selector did not resolve to a usable path segment: " ++ format_v v)))
          | Some seg =>
              if (idx <? length parts)%nat then resolve_dynamic (<[idx := seg]> parts) dynamic
              else op_lift (Panic "index out of range")
          end
      end
  end.
(** [resolvePathExpressionParts]; [inl]: the Unknown. *)
Definition resolvePathExpressionParts (name : Expression) : M (any + list bytes) :=
  match name with
  | PathExpression _ parts dynamic => resolve_dynamic parts dynamic
  | _ => mret (inr [])
  end.
Definition evalPathExpression (parts : list bytes) (dynamic : list (nat * Expression)) : M any :=
  if bool_decide (parts = []) then mret (fail "empty path")
  else
    r ← resolve_dynamic parts dynamic;
    match r with inl u => mret u | inr parts => evalPath parts end.

(** *** Literals *)

Definition evalLiteral (tok : Token) (value : any) : M any :=
  match value with
  | GoNil =>
      let literal := Literal tok in
      let literal_is s := bool_decide (literal = b s) in
      mret (match ParseFloat literal with
      | Some bits => Number bits
      | None =>
          match UnquoteText literal with
          | (s, true) => Text s
          | _ =>
              if literal_is "true" then Boolean true
              else if literal_is "false" then Boolean false
              else if (1 <? len literal) && starts_with literal (b "@") then
                match ParseTimeLiteral (TrimPrefix literal (b "@")) with
                | Ok (t, precision) => Time t precision
                | _ => Unknown (b "invalid time literal: " ++ literal)
                end
              else if (1 <? len literal) && starts_with literal [Byte.xa4] then
                default (Unknown (b "invalid money literal: " ++ literal)) (parseMoneyString literal)
              else if (1 <? len literal) && starts_with literal (b "?") then
                let reason := TrimPrefix literal (b "?") in
                Unknown (if bool_decide (reason = []) then b "unknown" else reason)
              else if literal_is "Nothing" then Nothing
              else if literal_is "Unknown" then fail "explicit Unknown"
              else if literal_is "Anything" then Anything
              else Unknown (b "unknown literal: " ++ literal)
          end
      end)
  | Unknown reason =>
      if bool_decide (reason = b "unknown") then
        caught ← Get (b "__caught_unknown");
        mret (match caught with
              | Some (Unknown reason) => Text reason
              | Some v => v
              | None => convertToMBLType value
              end)
      else mret (convertToMBLType value)
  | _ => mret (convertToMBLType value)
  end.

Fixpoint interpolate_parts (parts : list InterpolationPart) (acc : any) : M any :=
  match parts with
  | [] => mret acc
  | mkPart literal path :: parts =>
      v ← (if is_nil path then mret (Text literal) else evalExpression path);
      interpolate_parts parts (Concatenate FormatFloat FormatFixed2 format_v acc v)
  end.
Definition evalInterpolatedString (parts : list InterpolationPart) : M any := interpolate_parts parts (Text []).

Definition evalReferenceExpression (path : Expression) : M any :=
  s ← op_lift (match path with
               | PathExpression _ parts _ => Ok (Join parts (b "."))
               | _ => Expression_String path
               end);
  mret (Reference (path_hash s)).

Definition evalBinaryExpression (l : Expression) (op : bytes) (r : Expression) : M any :=
  left ← evalExpression l; right ← evalExpression r; mret (binary_operator op left right).
Definition evalUnaryExpression (op : bytes) (r : Expression) : M any :=
  operand ← evalExpression r; mret (unary_operator op operand).

(** *** Brackets and projections *)

Definition temporalSelector (filters : list Expression) : M (option (Timestamp * byte)) :=
  match filters with
  | [LiteralExpression _ (Time t precision)] => mret (Some (t, precision))
  | [PathExpression _ parts dynamic] =>
      v ← evalPathExpression parts dynamic;
      mret (match v with Time t precision => Some (t, precision) | _ => None end)
  | _ => mret None
  end.

Definition evalTemporalAsOf (parts : list bytes) (t : Timestamp) (precision : byte) : M any :=
  path ← resolvePath parts;
  if bool_decide (path = []) then mret (fail "empty path in temporal query")
  else
    let end_ := (TimeRange t precision).2 in
    if SameInstant end_ zero_time then
      mret (Unknown (b "invalid time precision " ++ format_int (byte.unsigned precision) ++ b " in temporal query"))
    else
      r ← op_try (from_tree (tree_ReadAt path (UnixMicro end_)));
      match r with
      | Err e | Panic e =>
          mret (Unknown (b "no value for " ++ dotted parts ++ b " as of " ++
            to_text FormatFloat FormatFixed2 format_v (Time t precision) ++ b ": " ++ b e))
      | Ok v =>
          r ← op_try (op_lift (storageToMBL v));
          mret (match r with
                | Ok x => x
                | Err e | Panic e => Unknown (b "failed to convert temporal value: " ++ b e)
                end)
      end.

(** Whether the filters all hold; [inl]: the first Unknown. *)
Fixpoint filters_hold (filters : list Expression) : M (any + bool) :=
  match filters with
  | [] => mret (inr true)
  | f :: filters =>
      v ← evalExpression f;
      match reason_of v with
      | Some _ => mret (inl v)
      | None => if isTruthy v then filters_hold filters else mret (inr false)
      end
  end.
(** The filters in a child scope with the bindings given. *)
Definition filters_hold_with (bindings : list (bytes * any)) (filters : list Expression) : M (any + bool) :=
  oldScope ← gets scope;
  child ← NewChildScope oldScope;
  op_modify (λ st, set_scopes
    (foldl (λ ss '(name, v), alter_local (<[name := v]>) child ss) (scopes st) bindings) st);;
  enter child;;
  r ← filters_hold filters;
  enter oldScope;;
  mret r.

Fixpoint filterList (elements : list any) (filters : list Expression) (filtered : list any) : M any :=
  match elements with
  | [] => mret (List filtered)
  | e :: elements =>
      r ← filters_hold_with [(b "item", e)] filters;
      match r with
      | inl u => mret u
      | inr matches => filterList elements filters (if matches : bool then filtered ++ [e] else filtered)
      end
  end.
Fixpoint filterRecord (fields : list (bytes * any)) (filters : list Expression)
    (filtered : list (bytes * any)) : M any :=
  match fields with
  | [] => mret (Record filtered)
  | (key, v) :: fields =>
      let own := match v with Record entries => entries | _ => [] end in
      r ← filters_hold_with ((b "field", v) :: (b "key", Text key) :: own) filters;
      match r with
      | inl u => mret u
      | inr matches => filterRecord fields filters (if matches : bool then set_field key v filtered else filtered)
      end
  end.

Definition path_parts (e : Expression) : option (list bytes) :=
  match e with PathExpression _ parts _ => Some parts | _ => None end.
Definition is_list (v : any) : bool := match v with List _ => true | _ => false end.

(** The filters applied to the value of the base. *)
Definition filter_value (base : any) (filters : list Expression) : M any :=
  match base with
  | Unknown _ => mret base
  | List elements =>
      match filters with
      | [f] =>
          match tryIndexLookup elements f with
          | Some v => mret v
          | None => filterList elements filters []
          end
      | _ => filterList elements filters []
      end
  | Record fields => filterRecord fields filters []
  | _ => mret (Unknown (b "cannot apply bracket filter to " ++ type_name base))
  end.

Definition evalBracketFilter (left : Expression) (filters : list Expression) : M any :=
  at_ ← (match path_parts left with Some _ => temporalSelector filters | None => mret None end);
  match path_parts left, at_ with
  | Some parts, Some (t, precision) => evalTemporalAsOf parts t precision
  | parts, _ =>
      base ← evalExpression left;
      match parts, (if is_list base then None else keySelectorExpr filters) with
      | Some parts, Some key =>
          keyVal ← evalExpression key;
          match reason_of keyVal with
          | Some _ => mret keyVal
          | None =>
              match keyToString keyVal with
              | None => mret (Unknown (b "bracket key-selector did not resolve to a usable path segment: " ++ format_v keyVal))
              | Some seg => evalPath (parts ++ [seg])
              end
          end
      | _, _ => filter_value base filters
      end
  end.

(** One field of a stored record; [None]: absent. *)
Definition stored_field (fieldPath : list bytes) : M (option any) :=
  let present v := match v with Some Nothing => None | _ => v end in
  staged ← staged_mbl fieldPath;
  match present staged with
  | Some v => mret (Some v)
  | None => stored ← stored_mbl fieldPath; mret (present stored)
  end.
Fixpoint projectFromStoragePath (resolvedBase : list bytes) (names : list bytes) (fields : list (bytes * any))
    (foundAny : bool) : M (list (bytes * any) * bool) :=
  match names with
  | [] => mret (fields, foundAny)
  | name :: names =>
      v ← stored_field (resolvedBase ++ [name]);
      match v with
      | Some v => projectFromStoragePath resolvedBase names (set_field name (convertToMBLType v) fields) true
      | None => projectFromStoragePath resolvedBase names (set_field name (fail "not_found") fields) foundAny
      end
  end.
Definition evalProjectionExpression (left : Expression) (names : list bytes) : M any :=
  known left (λ base,
    let no_record := Unknown (b "cannot project from " ++ type_name base ++ b ", projections require a record") in
    match base with
    | Record fields => mret (project fields names)
    | _ =>
        match path_parts left with
        | None => mret no_record
        | Some parts =>
            resolvedBase ← resolvePath parts;
            r ← projectFromStoragePath resolvedBase names [] false;
            mret (if r.2 : bool then Record r.1 else no_record)
        end
    end).

(** *** Records and lists *)

(** The key of a field: a path is its own name; [inl]: the Unknown. *)
Definition field_key (key : Expression) : M (any + bytes) :=
  match key with
  | PathExpression _ _ _ => s ← op_lift (Expression_String key); mret (inr s)
  | _ =>
      v ← evalExpression key;
      mret (match v with
            | Unknown _ => inl v
            | Text s => inr s
            | _ =>
                match CoerceToText FormatFloat FormatFixed2 format_v v with
                | mkCoercion (Text s) true => inr s
                | r => inl (cr_value r)
                end
            end)
  end.

(** The value of a field with the entries its modifier leaves on it; [inl]: the
    Unknown. *)
Definition field_value (modifier : option bytes) (resetExpr value : Expression) : M (any + any) :=
  v ← evalExpression value;
  match reason_of v, modifier with
  | Some _, _ => mret (inl v)
  | None, None => mret (inr (convertToMBLType v))
  | None, Some m =>
      let marked key x := inr (GoMap [(b "value", v); (b key, x)]) in
      if bool_decide (m = b "reset") then
        if is_nil resetExpr then mret (marked "@reset"%string (GoBool true))
        else
          reset ← evalExpression resetExpr;
          mret (match reason_of reset with Some _ => inl reset | None => marked "@reset"%string reset end)
      else if bool_decide (m = b "exclude") then mret (marked "@exclude"%string (GoBool true))
      else if bool_decide (m = b "link") || bool_decide (m = b "copy") then
        mret (marked "@inherit"%string (GoString m))
      else
        v ← evalExpression value;
        mret (match reason_of v with Some _ => inl v | None => inr v end)
  end.

Fixpoint record_fields (nodes : list RecordField) (fields : list (bytes * any)) : M any :=
  match nodes with
  | [] => mret (Record fields)
  | mkField key modifier resetExpr value :: nodes =>
      k ← field_key key;
      match k with
      | inl u => mret u
      | inr k =>
          v ← field_value modifier resetExpr value;
          match v with inl u => mret u | inr v => record_fields nodes (set_field k v fields) end
      end
  end.
Definition evalRecordExpression (nodes : list RecordField) : M any := record_fields nodes [].

Definition evalListExpression (elements : list Expression) : M any :=
  r ← all_known elements []; mret (match r with inl u => u | inr vs => List vs end).

Definition evalCollectionOperationExpression (object : Expression) (method : bytes)
    (arguments : list Expression) : M any :=
  let method_is s := bool_decide (method = b s) in
  let one reason k := match arguments with [e] => known e k | _ => mret (fail reason) end in
  known object (λ object,
    if method_is "count" then mret (evalCollectionCount object)
    else if method_is "combine" then
      one "combine operation requires exactly one argument (separator)"%string
        (λ separator, mret (evalCollectionCombine object separator))
    else if method_is "remove" then
      if bool_decide (length arguments = 0%nat) then mret (fail "remove operation requires at least one argument")
      else
        r ← all_known arguments [];
        mret (match r with inl u => u | inr args => evalCollectionRemove object args end)
    else if method_is "append" then
      one "append operation requires exactly one argument"%string (λ item, mret (evalCollectionAppend object item))
    else if method_is "prepend" then
      one "prepend operation requires exactly one argument"%string (λ item, mret (evalCollectionPrepend object item))
    else mret (Unknown (b "unsupported collection operation: " ++ method))).

(** *** Blocks and procedures *)

Fixpoint eval_statements (statements : list Statement) (last : result) : M result :=
  match statements with
  | [] => mret last
  | s :: statements =>
      r ← evalStatement s;
      match r with
      | ReturnSignal _ => mret r
      | Val v =>
          match reason_of v with
          | Some reason => if bool_decide (reason = []) then eval_statements statements r else mret r
          | None => if is_break v then mret r else eval_statements statements r
          end
      end
  end.
Definition evalBlockStatement (body : BlockStatement) : M result := eval_statements (Statements body) (Val Nothing).
(** The body behind a pointer that may be nil. *)
Definition eval_body (body : option BlockStatement) : M result :=
  match body with Some body => evalBlockStatement body | None => nil_panic end.

Fixpoint bind_all (names : list bytes) (args : list any) : M unit :=
  match names, args with
  | name :: names, arg :: args => Set_ name arg;; bind_all names args
  | _, _ => mret tt
  end.

(** The body of a procedure, in a child of the scope and in the scope path of its
    definition. *)
Definition run_procedure (p : Procedure) (args : list any) : M result :=
  oldScope ← gets scope;
  procScope ← NewChildScope (pr_Closure p);
  enter procScope;;
  bind_all (pr_Parameters p) args;;
  oldRaw ← gets currentScopePathRaw; oldResolved ← gets currentScopePath;
  op_modify (λ st, set_currentScopePath (pr_DefScopePath p)
    (set_currentScopePathRaw (pr_DefScopePathRaw p) st));;
  r ← eval_body (pr_Body p);
  enter oldScope;;
  op_modify (λ st, set_currentScopePath oldResolved (set_currentScopePathRaw oldRaw st));;
  mret r.

(** [Procedure.Call]. *)
Definition Call (id : nat) (args : list any) : M any :=
  found ← gets (λ st, procs st !! id);
  match found with
  | None => nil_panic
  | Some p =>
      if negb (len args =? len (pr_Parameters p)) then
        mret (Unknown (b "procedure '" ++ pr_Name p ++ b "' expects " ++ format_int (len (pr_Parameters p)) ++
          b " arguments, got " ++ format_int (len args)))
      else
        depth ← gets callDepth;
        if MaxCallDepth <=? depth then
          mret (Unknown (b "call depth exceeded " ++ format_int MaxCallDepth ++
            b " (possible infinite recursion in '" ++ pr_Name p ++ b "')"))
        else
          op_modify (λ st, set_callDepth (callDepth st + 1) st);;
          r ← run_procedure p args;
          op_modify (λ st, set_callDepth (callDepth st - 1) st);;
          mret (unwrapReturn r)
  end.

(** [copyScopePath]: nil for an empty path. *)
Definition copy_path (p : option Path) (st : Interpreter T W) : option Path :=
  match p with
  | Some p => let s := path_of st p in if bool_decide (s = []) then None else Some (Own s)
  | None => None
  end.
Definition new_procedure (name : bytes) (parameters : list bytes) (body : option BlockStatement) : M nat := λ st,
  let p := mkProcedure name parameters body (scope st) (currentScopePathRaw st)
             (copy_path (currentScopePath st) st) in
  (set_procs (procs st ++ [p]) st, Ok (length (procs st))).
Definition name_procedure (id : nat) (name : bytes) : M unit := op_modify (λ st,
  set_procs (alter (λ p, if bool_decide (pr_Name p = []) then
      mkProcedure name (pr_Parameters p) (pr_Body p) (pr_Closure p) (pr_DefScopePathRaw p) (pr_DefScopePath p)
    else p) id (procs st)) st).
Definition register_procedure (path : list bytes) (id : nat) : M unit :=
  op_modify (λ st, set_procedures (<[dotted path := id]> (procedures st)) st).

Definition bindingPathForProcedure (name : bytes) : M (list bytes) :=
  gets (λ st, match currentScopePathRaw st with [] => [b "my"; name] | raw => raw ++ [name] end).

Definition evalProcedureStatement (name : bytes) (parameters : list bytes) (body : BlockStatement) : M any :=
  id ← new_procedure name parameters (Some body);
  path ← bindingPathForProcedure name;
  register_procedure path id;;
  Set_ name (ProcedurePtr id);;
  mret (ProcedurePtr id).
Definition evalProcedureExpression (parameters : list bytes) (body : option BlockStatement) : M any :=
  id ← new_procedure [] parameters body; mret (ProcedurePtr id).

Definition bindProcedureAtPath (parts : list bytes) (id : nat) : M any :=
  match last parts with
  | None => mret (fail "cannot bind procedure to empty path")
  | Some name =>
      name_procedure id name;;
      register_procedure parts id;;
      (if bool_decide (length parts = 1%nat) then Set_ name (ProcedurePtr id) else mret tt);;
      mret (ProcedurePtr id)
  end.

(** *** Watchers *)

Definition watchPathParts (e : Expression) : option (list bytes) :=
  match e with
  | PathExpression _ parts _ => Some parts
  | BracketFilterExpression _ (PathExpression _ parts _) _ => Some parts
  | _ => None
  end.
(** The watched paths resolved; [inl]: the Unknown. *)
Fixpoint resolveWatchedPaths (name : bytes) (paths : list Expression) (out : list bytes) : M (any + list bytes) :=
  match paths with
  | [] => mret (inr out)
  | e :: paths =>
      match watchPathParts e with
      | None => mret (inl (Unknown (b "watch '" ++ name ++ b "' has unsupported path expression: " ++ expression_type e)))
      | Some parts => path ← resolvePath parts; resolveWatchedPaths name paths (out ++ [dotted path])
      end
  end.

Definition new_watcher (w : nat → Watcher) : M nat := λ st,
  (set_watches (watches st ++ [w (scope st)]) st, Ok (length (watches st))).
Definition bind_watcher (id : nat) (name : bytes) (path : Path) : M unit := op_modify (λ st,
  set_watches (alter (λ w, mkWatcher (if bool_decide (wa_Name w = []) then name else wa_Name w) path
    (wa_Watching w) (wa_IsAppend w) (wa_BindingName w) (wa_Filters w) (wa_Body w) (wa_Closure w)) id
    (watches st)) st).

(** [bindWatcherAtPath]: the watcher engine, if there is one, is told. *)
Definition bindWatcherAtPath (path : list bytes) (id : nat) : M any :=
  match last path with
  | None => mret (fail "cannot bind watcher to empty path")
  | Some name =>
      bind_watcher id name (Own path);;
      op_modify (λ st, set_watchers (<[dotted path := id]> (watchers st)) st);;
      registrar ← gets watcherRegistrar;
      found ← gets (λ st, watches st !! id);
      match (if registrar : bool then found else None) with
      | None => mret (WatcherPtr id)
      | Some w =>
          code ← op_lift (bodyToMBLCode (wa_Body w));
          e ← from_world (ext_register (dotted path) (wa_Watching w) code (wa_IsAppend w)
            (wa_BindingName w) (wa_Filters w));
          mret (match e with
                | Some e => Unknown (b "failed to register watcher '" ++ wa_Name w ++ b "': " ++ e)
                | None => WatcherPtr id
                end)
      end
  end.

Definition bindingPathFor (nameParts : list bytes) : M (list bytes) :=
  here ← gets (λ st, path_of st <$> currentScopePath st);
  match here with
  | Some sc => mret (sc ++ nameParts)
  | None => resolvePath (b "my" :: nameParts)
  end.

Definition evalWatchStatement (name : bytes) (isAppend : bool) (paths filters : list Expression)
    (bindingName : bytes) (body : BlockStatement) : M any :=
  if bool_decide (name = []) then mret (fail "watch statement must have a name")
  else if bool_decide (length paths = 0%nat) then
    mret (Unknown (b "watch '" ++ name ++ b "' must specify at least one path"))
  else
    watching ← resolveWatchedPaths name paths [];
    match watching with
    | inl u => mret u
    | inr watching =>
        let nameParts := split_byte name Byte.x2e in
        bindPath ← bindingPathFor nameParts;
        id ← new_watcher (mkWatcher (default [] (last nameParts)) (Own bindPath) watching isAppend bindingName
          filters (Some body));
        bindWatcherAtPath bindPath id
    end.

Definition evalWatchExpression (paths : list Expression) (isAppend : bool) (alias : bytes)
    (body : option BlockStatement) : M any :=
  match body with
  | None => mret (fail "watch expression must have a body")
  | Some _ =>
      if bool_decide (length paths = 0%nat) then mret (fail "watch expression must specify at least one path")
      else
        watching ← resolveWatchedPaths (b "<anonymous>") paths [];
        match watching with
        | inl u => mret u
        | inr watching =>
            if isAppend && bool_decide (alias = []) then
              mret (fail "append watch expression must have an 'as <binding>' alias")
            else
              id ← new_watcher (mkWatcher [] (Own []) watching isAppend alias [] body);
              mret (WatcherPtr id)
        end
  end.

(** [Watcher.Fire]: a watcher's body run from the outside. *)
Definition Fire (id : nat) (items : list any) : M any :=
  found ← gets (λ st, watches st !! id);
  match found with
  | None => nil_panic
  | Some w =>
      oldScope ← gets scope;
      fireScope ← NewChildScope (wa_Closure w);
      enter fireScope;;
      (if wa_IsAppend w && negb (bool_decide (wa_BindingName w = []))
       then Set_ (wa_BindingName w) (List items) else mret tt);;
      r ← eval_body (wa_Body w);
      enter oldScope;;
      mret (unwrapReturn r)
  end.

(** *** Functions with effects *)

Definition evalRandomFunction (args : list any) : M any :=
  let number v := CoerceToNumber ParseFloat type_name v in
  let draw bound offset :=
    n ← from_world (ext_Int bound);
    mret (match n with Some n => number_of (n + offset) | None => fail "failed to generate random number" end) in
  match args with
  | [] =>
      n ← from_world (ext_Int 1000000);
      mret (match n with
            | Some n => Number (fdiv (float_of_int n) (float_of_int 1000000))
            | None => fail "failed to generate random number"
            end)
  | [v] =>
      match number v with
      | mkCoercion (Number x) true =>
          let max := int_of_float x in
          if max <=? 0 then mret (fail "random() max must be positive") else draw max 0
      | _ => mret (fail "random() max argument must be a number")
      end
  | [v; w] =>
      match number v, number w with
      | mkCoercion (Number x) true, mkCoercion (Number y) true =>
          let min := int_of_float x in
          let max := int_of_float y in
          if max <=? min then mret (fail "random() min must be less than max")
          else if i64 (max - min) <=? 0 then op_lift (Panic "crypto/rand: argument to Int is <= 0")
          else draw (i64 (max - min)) min
      | _, _ => mret (fail "random() arguments must be numbers")
      end
  | _ => mret (fail "random() takes 0, 1, or 2 arguments")
  end.

Definition evalNowFunction (args : list any) : M any :=
  match args with
  | [] => t ← from_world ext_Now; mret (Time t PrecisionSubsecond)
  | _ => mret (fail "now() takes no arguments")
  end.
Definition evalUuidFunction (args : list any) : M any :=
  match args with
  | [] => s ← from_world ext_uuid; mret (Text s)
  | _ => mret (fail "uuid() takes no arguments")
  end.

Definition evalParseJsonFunction (args : list any) : M any :=
  match args with
  | [v] =>
      match text_of v with
      | None => mret (fail "parse_json() argument must be a string")
      | Some s =>
          r ← from_world (ext_Unmarshal s);
          mret (match r with
                | inl e => Unknown (b "invalid JSON: " ++ e)
                | inr v => convertJsonToMBL v
                end)
      end
  | _ => mret (fail "parse_json() expects exactly one argument (JSON string)")
  end.
Definition evalToJsonFunction (args : list any) : M any :=
  match args with
  | [v] =>
      r ← from_world (ext_Marshal (convertMBLToJson v));
      mret (match r with
            | inl e => Unknown (b "failed to serialize JSON: " ++ e)
            | inr s => Text s
            end)
  | _ => mret (fail "to_json() expects exactly one argument (node)")
  end.

(** A write staged by the agent of the interpreter. *)
Definition stage (path : list bytes) (v : Value) : M (option any) :=
  author ← gets agent; stageWrite (Own path) v author.

(** The answer to a request: a record staged under it. *)
Definition sendWebResponse (req : any) (statusCode : Z) (body : any) (headers : list (bytes * any)) : M any :=
  match req with
  | Record fields =>
      match field_lookup (b "id") fields with
      | None => mret (fail "request record missing 'id' field")
      | Some v =>
          match text_of v, text_of body with
          | None, _ => mret (fail "request 'id' field must be Text")
          | Some _, None => mret (fail "response body must be Text")
          | Some requestID, Some bodyStr =>
              let response := Record [(b "status_code", number_of statusCode); (b "body", Text bodyStr);
                                      (b "headers", Record headers)] in
              match mblToStorage response with
              | Ok v =>
                  r ← stage (map b ["my"; "computer"; "network"; "web"; "requests"] ++ [requestID; b "response"]) v;
                  mret (default (Text (b "response_sent")) r)
              | Err e | Panic e => mret (Unknown (b "error converting response to storage: " ++ b e))
              end
          end
      end
  | _ => mret (fail "request argument must be a Record")
  end.

(** Assets of a directory staged; the number of those staged and the errors. *)
Fixpoint stage_assets (domain : bytes) (files : list (bytes + bytes * bytes * bytes)) (found : Z)
    (errors : list bytes) : M (Z * list bytes) :=
  match files with
  | [] => mret (found, errors)
  | inl e :: files => stage_assets domain files found (errors ++ [e])
  | inr (relPath, data, mime) :: files =>
      match mblToStorage (Record [(b "data", Text data); (b "mime_type", Text mime)]) with
      | Ok v =>
          r ← stage (map b ["my"; "computer"; "network"; "web"; "pwa"] ++ [domain; b "assets"; relPath]) v;
          match r with
          | Some (Unknown reason) =>
              stage_assets domain files found
                (errors ++ [b "error staging asset " ++ relPath ++ b ": " ++ reason])
          | _ => stage_assets domain files (found + 1) errors
          end
      | Err e | Panic e =>
          stage_assets domain files found
            (errors ++ [b "error converting asset " ++ relPath ++ b " to storage: " ++ b e])
      end
  end.
Definition evalDeployPwaFunction (args : list any) : M any :=
  let text v := to_text FormatFloat FormatFixed2 format_v v in
  match args with
  | [domain; directory] =>
      files ← from_world (ext_walk (text directory));
      match files with
      | None => mret (Unknown (b "directory does not exist: " ++ text directory))
      | Some files =>
          r ← stage_assets (text domain) files 0 [];
          mret (if bool_decide (r.2 = []) then
                  Record [(b "domain", Text (text domain)); (b "assets_count", number_of r.1);
                          (b "status", Text (b "deployed"))]
                else Unknown (b "deployment completed with errors: " ++ Join r.2 (b "; ")))
      end
  | _ => mret (fail "deploy_pwa() requires exactly 2 arguments: deploy_pwa(domain, directory_path)")
  end.

Definition evalNetworkWebProcedure (path : list bytes) (args : list any) : M any :=
  match path with
  | [] => mret (fail "incomplete network.web path")
  | procedure :: _ =>
      let proc_is s := bool_decide (procedure = b s) in
      if proc_is "parse_json" then evalParseJsonFunction args
      else if proc_is "to_json" then evalToJsonFunction args
      else if proc_is "get" then evalHttpWithoutBody "get" "GET" args
      else if proc_is "post" then evalHttpWithBody "post" "POST" args
      else if proc_is "put" then evalHttpWithBody "put" "PUT" args
      else if proc_is "patch" then evalHttpWithBody "patch" "PATCH" args
      else if proc_is "delete" then evalHttpWithoutBody "delete" "DELETE" args
      else if proc_is "ok" then
        match args with
        | [req; body] => sendWebResponse req 200 body []
        | _ => mret (fail "ok() expects 2 arguments (req, body)")
        end
      else if proc_is "ok_json" then
        match args with
        | [req; node] =>
            json ← evalToJsonFunction [node];
            match reason_of json with
            | Some _ => mret json
            | None => sendWebResponse req 200 json [(b "Content-Type", Text (b "application/json"))]
            end
        | _ => mret (fail "ok_json() expects 2 arguments (req, node)")
        end
      else if proc_is "not_found" then
        match args with
        | [req] => sendWebResponse req 404 (Text (b "Not Found")) []
        | _ => mret (fail "not_found() expects 1 argument (req)")
        end
      else if proc_is "bad_request" then
        match args with
        | [req; msg] => sendWebResponse req 400 msg []
        | _ => mret (fail "bad_request() expects 2 arguments (req, msg)")
        end
      else if proc_is "server_error" then
        match args with
        | [req; msg] => sendWebResponse req 500 msg []
        | _ => mret (fail "server_error() expects 2 arguments (req, msg)")
        end
      else if proc_is "redirect" then
        match args with
        | [req; url] =>
            match text_of url with
            | Some url => sendWebResponse req 302 (Text (b "Found")) [(b "Location", Text url)]
            | None => mret (fail "redirect() url must be Text")
            end
        | _ => mret (fail "redirect() expects 2 arguments (req, url)")
        end
      else if proc_is "asset" then mret (evalAssetFunction args)
      else if proc_is "deploy_pwa" then evalDeployPwaFunction args
      else mret (Unknown (b "unknown network.web procedure: " ++ procedure))
  end.
Definition evalNetworkLibraryProcedure (path : list bytes) (args : list any) : M any :=
  match path with
  | [] => mret (fail "incomplete network library path")
  | sub :: rest =>
      if bool_decide (sub = b "web") then
        if bool_decide (length rest = 0%nat) then mret (fail "incomplete network.web path")
        else evalNetworkWebProcedure rest args
      else mret (Unknown (b "unknown network sub-library: " ++ sub))
  end.
Definition evalComputerLibraryProcedure (path : list bytes) (args : list any) : M any :=
  match drop 2 path with
  | [] => mret (fail "invalid computer library path")
  | sub :: rest =>
      let sub_is s := bool_decide (sub = b s) in
      if sub_is "run" then evalComputerRun args
      else if sub_is "files" then evalFilesLibraryProcedure rest args
      else if sub_is "network" then evalNetworkLibraryProcedure rest args
      else if sub_is "crypto" then evalCryptoLibraryProcedure rest args
      else if sub_is "system" then mret (fail "system sub-library not yet implemented")
      else mret (Unknown (b "unknown computer sub-library: " ++ sub))
  end.

(** *** Calls and instances *)

(** An entry of the reference map of the current scope, which only the outermost
    scope has. *)
Definition set_reference (hash : Z) (path : list bytes) : M unit := λ st,
  match referenceMap (current_scope st) with
  | None => (st, Panic "assignment to entry in nil map")
  | Some m =>
      (set_scopes (alter (λ s, mkScope (local s) (parent s) (Some (<[hash := path]> m))) (scope st) (scopes st)) st,
       Ok tt)
  end.

Fixpoint new_fields (templatePath : list bytes) (template fields newFields : list (bytes * any)) :
    M (list (bytes * any)) :=
  match fields with
  | [] => mret newFields
  | (fieldName, v) :: fields =>
      if starts_with fieldName (b "@") || contains fieldName (b ".@")
      then new_fields templatePath template fields newFields
      else
        let rule := getHeritabilityRule template fieldName in
        if bool_decide (rule = b "link") then
          let path := templatePath ++ [fieldName] in
          let hash := path_hash (dotted path) in
          resolved ← resolvePath path;
          set_reference hash resolved;;
          new_fields templatePath template fields (set_field fieldName (Reference hash) newFields)
        else if bool_decide (rule = b "reset") then
          new_fields templatePath template fields
            (match getDefaultValue template fieldName with
             | Some d => set_field fieldName d newFields
             | None => newFields
             end)
        else if bool_decide (rule = b "exclude") then new_fields templatePath template fields newFields
        else new_fields templatePath template fields (set_field fieldName (deepCopyValue v) newFields)
  end.
Definition evalNewFunction (rawArgs : list Expression) : M any :=
  match rawArgs with
  | [e] =>
      match path_parts e with
      | None => mret (fail "new() argument must be a path expression (e.g., my.template)")
      | Some templatePath =>
          template ← evalExpression e;
          match template with
          | Record fields => newFields ← new_fields templatePath fields fields []; mret (Record newFields)
          | _ => mret (Unknown (b "new() can only instantiate record templates, got " ++ type_name template))
          end
      end
  | _ => mret (fail "new() expects exactly one argument (template)")
  end.

(** The built-in functions by name. *)
Definition builtin (name : bytes) (args : list any) : option (M any) :=
  let name_is s := bool_decide (name = b s) in
  let pure v := Some (mret v) in
  if name_is "len" then pure (evalLenFunction args)
  else if name_is "text" then pure (evalTextFunction args)
  else if name_is "number" then pure (evalNumberFunction args)
  else if name_is "add" then pure (evalAddFunction args)
  else if name_is "output" then pure (evalOutputFunction args)
  else if name_is "upper" then pure (evalUpperFunction args)
  else if name_is "lower" then pure (evalLowerFunction args)
  else if name_is "trim" then pure (evalTrimFunction args)
  else if name_is "abs" then pure (evalAbsFunction args)
  else if name_is "floor" then pure (evalFloorFunction args)
  else if name_is "ceil" then pure (evalCeilFunction args)
  else if name_is "max" then pure (evalMaxFunction args)
  else if name_is "min" then pure (evalMinFunction args)
  else if name_is "round" then pure (evalRoundFunction args)
  else if name_is "substring" then Some (op_lift (evalSubstringFunction args))
  else if name_is "find" then pure (evalFindFunction args)
  else if name_is "replace" then pure (evalReplaceFunction args)
  else if name_is "split" then pure (evalSplitFunction args)
  else if name_is "random" then Some (evalRandomFunction args)
  else if name_is "now" then Some (evalNowFunction args)
  else if name_is "uuid" then Some (evalUuidFunction args)
  else if name_is "asset" then pure (evalAssetFunction args)
  else if name_is "run" then Some (evalComputerRun args)
  else if name_is "parse_json" then Some (evalParseJsonFunction args)
  else if name_is "unknown" then pure (evalUnknownFunction args)
  else None.

(** A procedure bound at a path, or else to a name in scope. *)
Definition call_procedure (name : bytes) (args : list any) : M any :=
  bound ← gets (λ st, procedures st !! name);
  match bound with
  | Some id => Call id args
  | None =>
      v ← Get name;
      match v with
      | None => mret (Unknown (b "unknown function: " ++ name))
      | Some v =>
          match procedure_id v with
          | Some id => Call id args
          | None => mret (Unknown (b "'" ++ name ++ b "' is not a procedure"))
          end
      end
  end.

Definition evalCallExpression (function : Expression) (arguments : list Expression) : M any :=
  match path_parts function with
  | None => mret (fail "function must be a path expression")
  | Some functionPath =>
      let functionName := dotted functionPath in
      if bool_decide (functionName = b "new") then evalNewFunction arguments
      else
        r ← all_known arguments [];
        match r with
        | inl u => mret u
        | inr args =>
            match builtin functionName args with
            | Some m => m
            | None =>
                if (3 <=? length functionPath)%nat && is_part functionPath 0 "my" && is_part functionPath 1 "computer"
                then evalComputerLibraryProcedure functionPath args
                else call_procedure functionName args
            end
        end
  end.

(** The record of a source; [inl]: the Unknown. *)
Definition source_fields (source : InstantiationSource) : M (any + list (bytes * any)) :=
  match source with
  | TemplateName name =>
      v ← Get name;
      mret (match v with
            | None => inl (Unknown (b "template source '" ++ name ++ b "' not found"))
            | Some (Record fields) => inr fields
            | Some _ => inl (Unknown (b "template source '" ++ name ++ b "' is not a record"))
            end)
  | InlineRecord (RecordExpression _ nodes) =>
      v ← evalRecordExpression nodes;
      mret (match v with
            | Unknown _ => inl v
            | Record fields => inr fields
            | _ => inl (fail "inline record evaluation failed")
            end)
  | InlineRecord _ => mret (inl (fail "invalid instantiation source"))
  end.
Fixpoint inherit_sources (modifier : bytes) (sources : list InstantiationSource) (fields : list (bytes * any)) :
    M (any + list (bytes * any)) :=
  match sources with
  | [] => mret (inr fields)
  | source :: sources =>
      r ← source_fields source;
      match r with
      | inl u => mret (inl u)
      | inr own =>
          r ← op_lift (applyInheritanceWithModifiers fields own modifier);
          match r with
          | inl fields => inherit_sources modifier sources fields
          | inr e => mret (inl (Unknown (b "inheritance failed: " ++ e)))
          end
      end
  end.
Definition evalInstantiationStatement (type : bytes) (modifier : option bytes)
    (sources : list InstantiationSource) (properties : Expression) : M any :=
  r ← inherit_sources (default (b "copy") modifier) sources [(b "_type", Text type)];
  match r with
  | inl u => mret u
  | inr fields =>
      match properties with
      | RecordExpression _ nodes =>
          v ← evalRecordExpression nodes;
          mret (match v with
                | Unknown _ => v
                | Record own => Record (foldl (λ acc '(k, x), set_field k x acc) fields own)
                | _ => Record fields
                end)
      | _ => mret (Record fields)
      end
  end.

(** *** Assignment *)

Definition isSpecialPath (name : bytes) : bool := bool_decide (name = b "my") || bool_decide (name = b "world").

(** The nodes above a path, those the database does not have staged as empty
    records; nil, or the error. *)
Fixpoint ensure_segments (counts : list nat) (path : list bytes) : M (option bytes) :=
  match counts with
  | [] => mret None
  | n :: counts =>
      let intermediatePath := take n path in
      r ← read_tree intermediatePath;
      if match r with Ok v => negb (bool_decide (ValueCodec.TypeTag v = TypeNothing)) | _ => false end
      then ensure_segments counts path
      else
        match mblToStorage (Record []) with
        | Ok v =>
            r ← stage intermediatePath v;
            match r with
            | Some (Unknown reason) =>
                mret (Some (b "failed to create intermediate path " ++ format_path intermediatePath ++ b ": " ++ reason))
            | Some _ => mret (Some (b "failed to create intermediate path " ++ format_path intermediatePath))
            | None => ensure_segments counts path
            end
        | Err e | Panic e =>
            mret (Some (b "failed to convert empty record for intermediate path " ++
              format_path intermediatePath ++ b ": " ++ b e))
        end
  end.
Definition ensureIntermediatePath (path : list bytes) : M (option bytes) :=
  ensure_segments (seq 1 (length path)) path.

(** A field that is no record, staged under the path of its record; the Unknown of
    a failure. *)
Definition stage_field (basePath : list bytes) (fieldName : bytes) (v : any) : M (option any) :=
  match mblToStorage v with
  | Ok x => stage (basePath ++ [fieldName]) x
  | Err e | Panic e =>
      mret (Some (Unknown (b "failed to convert field " ++ fieldName ++ b " for storage: " ++ b e)))
  end.
(** [expandRecordToStorage]: each field a write of its own, nested records field by
    field. *)
Fixpoint expand_value (path : list bytes) (fieldName : bytes) (v : any) {struct v} : M (option any) :=
  match v with
  | Record fields =>
      (fix each (fields : list (bytes * any)) : M (option any) :=
        match fields with
        | [] => mret None
        | (name, x) :: fields =>
            r ← expand_value (path ++ [fieldName]) name x;
            match r with Some _ => mret r | None => each fields end
        end) fields
  | _ => stage_field path fieldName v
  end.
Fixpoint expandRecordToStorage (basePath : list bytes) (fields : list (bytes * any)) : M (option any) :=
  match fields with
  | [] => mret None
  | (name, v) :: fields =>
      r ← expand_value basePath name v;
      match r with Some _ => mret r | None => expandRecordToStorage basePath fields end
  end.

(** The attribute a modifier stores beside the value. *)
Definition meta_attribute (modifier : bytes) : option (string * bytes) :=
  let mod_is s := bool_decide (modifier = b s) in
  if mod_is "cascade" then Some ("@cascade", b "true")%string
  else if mod_is "copy" || mod_is "link" || mod_is "exclude" then Some ("@heritability"%string, modifier)
  else if starts_with modifier (b "reset") then Some ("@heritability"%string, b "reset")
  else None.
Definition stage_modifier (path : list bytes) (modifier : option bytes) : M (option any) :=
  match modifier ≫= meta_attribute with
  | None => mret None
  | Some (name, text) =>
      match mblToStorage (Text text) with
      | Ok v => stage (path ++ [b name]) v
      | Err e | Panic e => mret (Some (Unknown (b "failed to convert meta-attribute: " ++ b e)))
      end
  end.

(** The assignment of a value to the parts of a path. *)
Definition assign_path (nameParts : list bytes) (modifier : option bytes) (v : any) : M any :=
  path ← resolvePath nameParts;
  r ← stage_modifier path modifier;
  match r with
  | Some u => mret u
  | None =>
      e ← (if (1 <? length path)%nat then ensureIntermediatePath (removelast path) else mret None);
      match e with
      | Some e => mret (Unknown (b "failed to create intermediate path: " ++ e))
      | None =>
          r ← match v with
              | Record fields => expandRecordToStorage path fields
              | _ =>
                  match mblToStorage v with
                  | Ok x =>
                      quiet ← gets (λ st, 0 <? quietDepth st);
                      author ← gets agent;
                      stageWriteQuietly (Own path) x author
                        (quiet || bool_decide (modifier = Some (b "quietly")))
                  | Err e | Panic e => mret (Some (Unknown (b "failed to convert value for storage: " ++ b e)))
                  end
              end;
          mret (default v r)
      end
  end.

(** The assignment of a value to a name: under the current scope, or to a variable.
    The outcome of staging is not looked at. *)
Definition assign_name (name : bytes) (v : any) : M any :=
  here ← gets currentScopePath;
  match here with
  | Some sc =>
      scopedPath ← append sc [name];
      match mblToStorage v with
      | Ok x =>
          author ← gets agent;
          _ ← stageWrite scopedPath x author;
          mret v
      | Err e | Panic e => mret (Unknown (b "failed to convert value for storage: " ++ b e))
      end
  | None => Update name v;; mret v
  end.

Definition assign (nameParts : list bytes) (modifier : option bytes) (v : any) : M any :=
  match procedure_id v, watcher_id v with
  | Some id, _ => bindProcedureAtPath nameParts id
  | None, Some id => path ← resolvePath nameParts; bindWatcherAtPath path id
  | None, None =>
      let v := convertToMBLType v in
      match nameParts with
      | [name] => if isSpecialPath name then assign_path nameParts modifier v else assign_name name v
      | _ => assign_path nameParts modifier v
      end
  end.

Definition evalAssignment (name value : Expression) (modifier : option bytes) : M any :=
  known value (λ v,
    r ← resolvePathExpressionParts name;
    match r with inl u => mret u | inr nameParts => assign nameParts modifier v end).

(** *** Statements *)

Definition evalEmbedDirectiveStatement (path : Expression) : M any := known path (λ _, mret Nothing).

Definition unset (name : bytes) : M unit :=
  op_modify (λ st, set_scopes (alter_local (delete name) (scope st) (scopes st)) st).
Definition caught_name : bytes := b "__caught_unknown".

Definition else_type (c : ElseClause) : bytes := let '(mkElse _ type _) := c in type.
Definition evalCatchStatement (tryBody : BlockStatement) (clauses : list ElseClause) : M result :=
  r ← evalBlockStatement tryBody;
  match r with
  | Val (Unknown reason) =>
      match list_find (λ c, else_type c = b "unknown") clauses with
      | None => mret r
      | Some (_, mkElse _ _ body) =>
          original ← Get caught_name;
          Set_ caught_name (Unknown reason);;
          handled ← eval_body body;
          match original with Some v => Set_ caught_name v | None => unset caught_name end;;
          mret handled
      end
  | _ => mret r
  end.

Definition evalScopeStatement (path : bytes) (body : option BlockStatement) : M any :=
  let pathStr := if ends_with path (b ".") then take (length path - 1) path else path in
  let set_scope_path p raw :=
    op_modify (λ st, set_currentScopePath p (set_currentScopePathRaw raw st)) in
  if bool_decide (pathStr = []) then set_scope_path None [];; mret Nothing
  else
    let parts := split_byte pathStr Byte.x2e in
    v ← evalPath parts;
    absolutePath ← resolveAbsolutePath parts;
    set_scope_path (Some absolutePath) parts;;
    match body with Some body => _ ← evalBlockStatement body; mret tt | None => mret tt end;;
    match v with
    | Unknown _ =>
        p ← gets (λ st, path_of st absolutePath); mret (Text (b "scope set to: " ++ dotted p))
    | _ => mret v
    end.

Definition evalQuietlyBlock (body : BlockStatement) : M result :=
  op_modify (λ st, set_quietDepth (quietDepth st + 1) st);;
  r ← evalBlockStatement body;
  op_modify (λ st, set_quietDepth (quietDepth st - 1) st);;
  mret r.

Definition evalIfStatement (condition : Expression) (consequence : option BlockStatement)
    (alternative : Statement) : M result :=
  known_value condition (λ v,
    if isTruthy v then eval_body consequence
    else if stmt_nil alternative then mret (Val Nothing)
    else evalStatement alternative).

(** "if commit buffer is getting large, flush periodically"; the error. *)
Definition flush_if_large (due : bool) : M (option bytes) :=
  n ← gets (λ st, len (writes st));
  if due && (5000 <? n) then flushBuffer else mret None.

(** [turns] are left of the safety limit. *)
Fixpoint while_loop (turns : nat) (iterations : Z) (condition : Expression) (body : BlockStatement) : M result :=
  match turns with
  | O => mret (Val (Unknown (b "while loop exceeded maximum iterations (" ++ format_int maxIterations ++ b ")")))
  | S turns =>
      let iterations := iterations + 1 in
      known_value condition (λ v,
        if negb (isTruthy v) then mret (Val Nothing)
        else
          r ← evalBlockStatement body;
          match r with
          | ReturnSignal _ | Val (Unknown _) => mret r
          | Val v =>
              if is_break v then mret (Val Nothing)
              else
                e ← flush_if_large (iterations mod 1000 =? 0);
                match e with
                | Some e => mret (Val (Unknown (b "failed to flush buffer during loop: " ++ e)))
                | None => while_loop turns iterations condition body
                end
          end)
  end.
Definition evalWhileStatement (condition : Expression) (body : BlockStatement) : M result :=
  while_loop (Z.to_nat maxIterations) 0 condition body.

(** The turns of a for loop; [inr]: the loop is left by a failed flush, in the
    scope of its variables. *)
Fixpoint for_loop (elements : list any) (idx : Z) (variables : list bytes) (body : BlockStatement)
    (last : result) : M (result + result) :=
  match elements with
  | [] => mret (inl last)
  | element :: elements =>
      match variables !! 0%nat with Some x => Set_ x element | None => mret tt end;;
      match variables !! 1%nat with Some x => Set_ x (number_of idx) | None => mret tt end;;
      r ← evalBlockStatement body;
      match r with
      | ReturnSignal _ | Val (Unknown _) => mret (inl r)
      | Val v =>
          if is_break v then mret (inl (Val Nothing))
          else
            e ← flush_if_large (idx mod 1000 =? 0);
            match e with
            | Some e => mret (inr (Val (Unknown (b "failed to flush buffer during for loop: " ++ e))))
            | None => for_loop elements (idx + 1) variables body r
            end
      end
  end.
Definition evalForStatement (variables : list bytes) (iterable : Expression) (body : BlockStatement) : M result :=
  known_value iterable (λ v,
    match v with
    | List elements =>
        oldScope ← gets scope;
        childScope ← NewChildScope oldScope;
        enter childScope;;
        (* the scope is not restored here *)
        if maxForLoopElements <? len elements then
          mret (Val (Unknown (b "for loop list too large (" ++ format_int (len elements) ++ b " elements, max " ++
            format_int maxForLoopElements ++ b ")")))
        else
          r ← for_loop elements 0 variables body (Val Nothing);
          match r with
          | inr r => mret r
          | inl r => enter oldScope;; mret r
          end
    | _ => mret (Val (Unknown (b "cannot iterate over " ++ type_name v)))
    end).

Fixpoint consider_cases (v : any) (cases : list ConsiderCase) (default_ : option BlockStatement) : M result :=
  match cases with
  | [] => match default_ with Some body => evalBlockStatement body | None => mret (Val Nothing) end
  | mkCase _ value body :: cases =>
      known_value value (λ caseValue,
        if Equal v caseValue then evalBlockStatement body else consider_cases v cases default_)
  end.
Definition evalConsiderStatement (value : Expression) (cases : list ConsiderCase)
    (default_ : option BlockStatement) : M result :=
  known_value value (λ v, consider_cases v cases default_).

Definition evalReturnStatement (value : Expression) : M result :=
  if is_nil value then mret (ReturnSignal Nothing)
  else
    v ← evalExpression value;
    mret (match reason_of v with
          | Some reason => if bool_decide (reason = []) then ReturnSignal v else Val v
          | None => ReturnSignal v
          end).

(** A definition whose value is no procedure and no watcher is an assignment, which
    evaluates the value again. *)
Definition evalDefinitionStatement (name value : Expression) : M any :=
  match name with
  | PathExpression _ parts _ =>
      if bool_decide (length parts = 0%nat) then mret (fail "definition name path is empty")
      else
        known value (λ v,
          match procedure_id v, watcher_id v with
          | Some id, _ =>
              match parts with
              | [simple] =>
                  bindParts ← bindingPathForProcedure simple;
                  r ← bindProcedureAtPath bindParts id;
                  Set_ simple v;;
                  mret r
              | _ => bindProcedureAtPath parts id
              end
          | None, Some id => path ← resolvePath parts; bindWatcherAtPath path id
          | None, None => evalAssignment name value None
          end)
  | _ => mret (Unknown (b "definition name must be a path expression, got " ++ expression_type name))
  end.

Definition as_value (m : M any) : M result := v ← m; mret (Val v).

(** [evalStatement]. *)
Definition eval_statement (s : Statement) : M result :=
  let unsupported type := mret (Val (Unknown (b "unsupported statement type: " ++ b type))) in
  match s with
  | AssignmentStatement _ name value modifier _ => as_value (evalAssignment name value modifier)
  | ExpressionStatement _ e => as_value (evalExpression e)
  | IfStatement _ condition consequence alternative => evalIfStatement condition consequence alternative
  | QuietlyBlockStatement _ body => evalQuietlyBlock body
  | WhileStatement _ condition body => evalWhileStatement condition body
  | ForStatement _ variables iterable body => evalForStatement variables iterable body
  | ConsiderStatement _ value cases default_ => evalConsiderStatement value cases default_
  | ReturnStatement _ value => evalReturnStatement value
  | BreakStatement _ => mret (Val break_signal)
  | ProcedureStatement _ name parameters body => as_value (evalProcedureStatement name parameters body)
  | InstantiationStatement _ type modifier sources properties =>
      as_value (evalInstantiationStatement type modifier sources properties)
  | Block body => evalBlockStatement body
  | EmbedDirectiveStatement _ path => as_value (evalEmbedDirectiveStatement path)
  | CatchStatement _ tryBody clauses _ => evalCatchStatement tryBody clauses
  | ScopeStatement _ path body => as_value (evalScopeStatement path body)
  | DefinitionStatement _ name value => as_value (evalDefinitionStatement name value)
  | WatchStatement _ name isAppend paths filters bindingName body =>
      as_value (evalWatchStatement name isAppend paths filters bindingName body)
  | PassStatement _ => unsupported "*parser.PassStatement"%string
  | NilStatement => unsupported "<nil>"%string
  | NilPointer _ => nil_panic
  end.

(** [evalExpression]. *)
Definition eval_expression (e : Expression) : M any :=
  match e with
  | LiteralExpression tok v => evalLiteral tok v
  | InterpolatedStringExpression _ parts => evalInterpolatedString parts
  | PathExpression _ parts dynamic => evalPathExpression parts dynamic
  | BinaryExpression _ l op r => evalBinaryExpression l op r
  | UnaryExpression _ op r => evalUnaryExpression op r
  | CallExpression _ function arguments => evalCallExpression function arguments
  | BracketFilterExpression _ l filters => evalBracketFilter l filters
  | ProjectionExpression _ l fields => evalProjectionExpression l fields
  | RecordExpression _ fields => evalRecordExpression fields
  | ListExpression _ elements => evalListExpression elements
  | CollectionOperationExpression _ object method arguments =>
      evalCollectionOperationExpression object method arguments
  | ReferenceExpression _ path => evalReferenceExpression path
  | ModifierExpression _ _ value => evalExpression value
  | ProcedureExpression _ parameters body => evalProcedureExpression parameters body
  | WatchExpression _ paths isAppend alias body => evalWatchExpression paths isAppend alias body
  | NilExpression => mret (Unknown (b "unsupported expression type: <nil>"))
  end.
End Methods.

(** ** The recursion tied *)

Fixpoint level (n : nat) : Sem T W :=
  match n with
  | O => mkSem (λ _, eval_out_of_fuel) (λ _, eval_out_of_fuel)
  | S n => let sem := level n in mkSem (eval_expression sem) (eval_statement sem)
  end.

(** ** Programs *)

Fixpoint run_statements (sem : Sem T W) (statements : list Statement) (last : any) : M any :=
  match statements with
  | [] => mret last
  | s :: statements =>
      r ← sem_statement sem s;
      match r with
      | ReturnSignal v => mret v
      | Val v => run_statements sem statements v
      end
  end.

(** What ends a program: its writes are discarded if it failed, else flushed. *)
Definition conclude (r : any) : M any :=
  if match r with Unknown reason => shouldRollback reason | _ => false end then discardBuffer;; mret r
  else
    e ← flushBuffer;
    mret (match e with Some e => Unknown (b "commit failed: " ++ e) | None => r end).

(** [Interpret]. *)
Definition Interpret (fuel : nat) (program : Program) : M any :=
  r ← run_statements (level fuel) (pr_statements program) Nothing; conclude r.
End Eval.
