(* ===== verification/MblRun.v ===== *)
(** * Programs run on a database (internal/mbl/interpreter/interpreter.go)

    From the source text of a program to its result: the parser of [MblParser]
    and the interpreter of [MblEval].  [StorageTree] is the database the
    interpreter runs on; the last section gives concrete functions of the Go
    library and a world for running programs. *)
From stdpp Require Import gmap.
From S2P Require Import Prelude Utf8 GoTime GoTimeFormat GoFloat ValueCodec HashIndex StorageTree MblTokens MblLexer MblValue MblCompare MblCoerce MblAst MblParser MblParserTotal MblState MblBuiltins MblLibrary MblEval.

Section Run.
Context {T W : Type} `{Tree T} `{External W} `{GoLib}.

(** [EvaluateExpression] and [ExecuteStatement], whose bodies are the same; [inl]
    is the error of a source that does not parse. *)
Definition execute (fuel : nat) (input : bytes) : Op (Interpreter T W) (bytes + any) :=
  let '(p, program) := MblParser.parse IsLetter Quote ParseFloat FormatFloat input in
  program ← op_lift program;
  let errors := MblParser.errors p in
  if bool_decide (length errors = 0%nat) then v ← Interpret fuel program; mret (inr v)
  else mret (inl (b "parse errors: " ++ Join errors (b "; "))).
End Run.

(** ** The database *)

(** A walk along a chain of instances that does not end has no result in the
    source. *)
Definition tree_read_at (p : list bytes) (t : Z) : Op (StorageTree HashIndex.HashIndex) Value := λ st,
  match StorageTree.ReadAt (walk_fuel st) p t st with
  | Some r => r
  | None => (st, Panic "out of fuel")
  end.
#[global] Instance StorageTree_Tree : Tree (StorageTree HashIndex.HashIndex) := {
  tree_Read := StorageTree.Read;
  tree_ReadAt := tree_read_at;
  tree_WriteReportingChange := StorageTree.WriteReportingChange;
  tree_ChildrenWithNames p st :=
    let '(st', named) := StorageTree.ChildrenWithNames p st in (st', Ok (na_name <$> named))
}.

(** *** A database of versions only

    What [StorageTree] implements (see [tree_implements_histories]), for running
    programs: the versions of all paths, newest first. *)
Definition Log : Type := list (bytes * version).
Definition log_of (p : list bytes) (log : Log) : list version :=
  snd <$> List.filter (λ e, bool_decide (e.1 = join_path p)) log.
Definition log_read (log : list version) : res Value :=
  match log with ver :: _ => Ok (v_value ver) | [] => Err "path not found" end.
Definition no_empty_path {A} (p : list bytes) (m : Op Log A) : Op Log A :=
  match p with [] => op_err "empty path" | _ => m end.
(** The names after a prefix, each once, in the order they were written. *)
Definition log_children (p : list bytes) (log : Log) : list bytes :=
  let prefix := join_path p ++ [dot] in
  let names := omap (λ '(s, _), if has_prefix s prefix then Some (before_dot (drop (length prefix) s)) else None)
    (rev log) in
  foldl (λ seen name, if bool_decide (name ∈ seen) then seen else seen ++ [name]) [] names.
#[global] Instance Log_Tree : Tree Log := {
  tree_Read p := no_empty_path p (λ log, (log, log_read (log_of p log)));
  tree_ReadAt p t := no_empty_path p (λ log,
    (log, log_read (List.filter (λ ver, v_time ver <=? t) (log_of p log))));
  tree_WriteReportingChange now p v author := no_empty_path p (λ log,
    if bool_decide (v_value <$> head (log_of p log) = Some v) then (log, Ok false)
    else ((join_path p, mkVersion v now author) :: log, Ok true));
  tree_ChildrenWithNames p := no_empty_path p (λ log, (log, Ok (log_children p log)))
}.

(** ** A library and a world to run programs in *)

(** Whole numbers only. *)
#[global] Instance demo_lib : GoLib := {
  IsLetter := latin1_letter;
  Quote s := s;
  ParseFloat s := if forallb digit_byte s then float_of_int <$> atoi s else None;
  FormatFloat bits := format_int (int_of_float bits);
  FormatFixed2 bits := format_int (int_of_float bits);
  FormatRFC3339 _ := [];
  Pow x _ := x;
  Floor x := x;
  Ceil x := x;
  Round x := x;
  ToUpper s := s;
  ToLower s := s;
  FormatG bits := format_int (int_of_float bits);
  type_name _ := b "value";
  format_v _ := b "value";
  pointer_json _ _ := Ok (b "{}");
  NewRequest _ _ := None;
  xml_Unmarshal _ := None;
  xml_tokens _ := [];
  IDKey password salt n := take (Z.to_nat n) (password ++ salt ++ replicate (Z.to_nat n) Byte.x00)
}.

(** The world is a clock. *)
#[global] Instance demo_world : External Z := {
  ext_Now w := (w + 1, mkTimestamp (w * 1000) 0);
  ext_Int n w := (w, Some (w mod n));
  ext_Random n w := (w + 1, inr (le (Z.to_nat n) w));
  ext_uuid w := (w, b "uuid");
  ext_Run _ w := (w, inr (0, [], []));
  ext_ReadFile _ w := (w, inl (b "no files"));
  ext_WriteFile _ _ w := (w, Some (b "no files"));
  ext_fixed_width _ _ w := (w, Nothing);
  ext_Do _ w := (w, inl (b "connection refused"));
  ext_walk _ w := (w, None);
  ext_Unmarshal _ w := (w, inl (b "no JSON"));
  ext_Marshal _ w := (w, inl (b "no JSON"));
  ext_register _ _ _ _ _ _ w := (w, None)
}.

Abbreviation Demo := (Interpreter (StorageTree HashIndex.HashIndex) Z).
Definition fresh : Demo := MblState.New new_tree 1 7 None false.
Definition fresh_log : Interpreter Log Z := MblState.New [] 1 7 None false.
Definition run_lines {T} `{Tree T} (ls : list string) (st : Interpreter T Z) : Interpreter T Z * res (bytes + any) :=
  execute 100 (lines ls) st.

(** What is stored at a path. *)
Definition at_path {T} `{Tree T} (st : Interpreter T Z) (p : list string) : option any :=
  match (tree_Read (map b p) (tree st)).2 with
  | Ok v => match storageToMBL v with Ok x => Some x | _ => None end
  | _ => None
  end.
