(* ===== verification/MblWithin.v ===== *)
(** * Programs within a number of levels

    The interpreter enters one level of recursion for each node of the syntax
    tree it evaluates.  [within_expression loops n e]: the evaluation of [e]
    enters at most [n] levels by itself, calls of procedures not counted, and
    there is no loop in it if [loops] is false.  Every tree is within some
    number of levels. *)
From S2P Require Import Prelude Utf8 MblTokens MblValue MblAst.

Definition of_body (S : Statement → Prop) (body : BlockStatement) : Prop := All S (Statements body).

(** A condition on expressions and one on bodies, of the nodes between. *)
Definition of_part (E : Expression → Prop) (x : InterpolationPart) : Prop := let '(mkPart _ path) := x in E path.
Definition of_field (E : Expression → Prop) (x : RecordField) : Prop :=
  let '(mkField key _ reset value) := x in E key ∧ E reset ∧ E value.
Definition of_case (E : Expression → Prop) (B : BlockStatement → Prop) (x : ConsiderCase) : Prop :=
  let '(mkCase _ value body) := x in E value ∧ B body.
Definition of_source (E : Expression → Prop) (x : InstantiationSource) : Prop :=
  match x with TemplateName _ => True | InlineRecord e => E e end.
Definition of_else (B : BlockStatement → Prop) (x : ElseClause) : Prop := let '(mkElse _ _ body) := x in if_some B body.

Section Within.
Variable loops : bool.

Fixpoint within_expression (n : nat) (e : Expression) : Prop :=
  match n with
  | O => False
  | S n =>
      let E := within_expression n in
      match e with
      | NilExpression | LiteralExpression _ _ => True
      | PathExpression _ _ dynamic => All (λ d, E d.2) dynamic
      | BinaryExpression _ l _ r => E l ∧ E r
      | UnaryExpression _ _ r => E r
      | InterpolatedStringExpression _ parts => All (of_part E) parts
      | ReferenceExpression _ path => E path
      | ModifierExpression _ _ value => E value
      | CallExpression _ function arguments => E function ∧ All E arguments
      | CollectionOperationExpression _ object _ arguments => E object ∧ All E arguments
      | BracketFilterExpression _ l filters => E l ∧ All E filters
      | ProjectionExpression _ l _ => E l
      | RecordExpression _ fields => All (of_field E) fields
      | ListExpression _ elements => All E elements
      | WatchExpression _ paths _ _ body => All E paths ∧ if_some (of_body (within_statement n)) body
      | ProcedureExpression _ _ body => if_some (of_body (within_statement n)) body
      end
  end
with within_statement (n : nat) (s : Statement) : Prop :=
  match n with
  | O => False
  | S n =>
      let E := within_expression n in
      let B := of_body (within_statement n) in
      match s with
      | NilStatement | NilPointer _ | PassStatement _ | BreakStatement _ => True
      | Block body | QuietlyBlockStatement _ body => B body
      | AssignmentStatement _ name value _ _ => E name ∧ E value
      | IfStatement _ condition consequence alternative =>
          E condition ∧ if_some B consequence ∧ within_statement n alternative
      | WhileStatement _ condition body => loops = true ∧ E condition ∧ B body
      | ForStatement _ _ iterable body => loops = true ∧ E iterable ∧ B body
      | ConsiderStatement _ value cases default =>
          E value ∧ All (of_case E B) cases ∧ if_some B default
      | ProcedureStatement _ _ _ body => B body
      | ReturnStatement _ value => E value
      | ScopeStatement _ _ body => if_some B body
      | WatchStatement _ _ _ paths filters _ body => All E paths ∧ All E filters ∧ B body
      | ExpressionStatement _ e => E e
      | InstantiationStatement _ _ _ sources properties =>
          All (of_source E) sources ∧
          E properties
      | EmbedDirectiveStatement _ path => E path
      | DefinitionStatement _ name value => E name ∧ E value
      | CatchStatement _ body clauses final =>
          B body ∧ All (of_else B) clauses ∧ if_some B final
      end
  end.
End Within.

Definition within_body (loops : bool) (n : nat) (body : BlockStatement) : Prop :=
  of_body (within_statement loops n) body.
Definition within_program (loops : bool) (n : nat) (p : Program) : Prop :=
  All (within_statement loops n) (pr_statements p).

(** ** More levels do no harm *)

Lemma All_impl {A} (P Q : A → Prop) l : (∀ x, P x → Q x) → All P l → All Q l.
Proof. intros H. induction l; cbn; naive_solver. Qed.
Lemma All_elem {A} (P : A → Prop) l x : All P l → x ∈ l → P x.
Proof. intros H Hx. induction Hx; cbn in H; naive_solver. Qed.
Lemma if_some_impl {A} (P Q : A → Prop) o : (∀ x, P x → Q x) → if_some P o → if_some Q o.
Proof. destruct o; cbn; auto. Qed.
Lemma of_body_impl (P Q : Statement → Prop) body : (∀ s, P s → Q s) → of_body P body → of_body Q body.
Proof. apply All_impl. Qed.

Lemma within_mono loops n : ∀ m, (n ≤ m)%nat →
  (∀ e, within_expression loops n e → within_expression loops m e) ∧
  (∀ s, within_statement loops n s → within_statement loops m s).
Proof.
  induction n as [|n IH]; [by split|]. intros [|m] Hm; [lia|].
  destruct (IH m) as [IHe IHs]; [lia|]. clear IH.
  pose proof (λ x, of_body_impl _ _ x IHs) as IHb. pose proof (λ o, if_some_impl _ _ o IHb) as IHo.
  split; intros []; cbn; intros; destruct_and?;
    repeat match goal with |- _ ∧ _ => split end; auto; try done;
    (eapply All_impl; [|eassumption]); intros x Hx; auto;
    destruct x; unfold of_part, of_field, of_case, of_source, of_else in *; destruct_and?; auto.
Qed.
Lemma within_expression_mono loops n m e : (n ≤ m)%nat →
  within_expression loops n e → within_expression loops m e.
Proof. intros. by eapply within_mono. Qed.
Lemma within_statement_mono loops n m s : (n ≤ m)%nat →
  within_statement loops n s → within_statement loops m s.
Proof. intros. by eapply within_mono. Qed.

(** ** Every tree is within some number of levels *)

Definition Mono (P : nat → Prop) : Prop := ∀ n m, (n ≤ m)%nat → P n → P m.
Definition Some_level (P : nat → Prop) : Prop := ∃ n, P n.

Lemma Mono_and P Q : Mono P → Mono Q → Mono (λ n, P n ∧ Q n).
Proof. intros HP HQ n m Hm []. split; [by eapply HP|by eapply HQ]. Qed.
Lemma Mono_const P : Mono (λ _, P).
Proof. by intros n m _ H. Qed.
Lemma Mono_expression loops e : Mono (λ n, within_expression loops n e).
Proof. intros n m. apply within_expression_mono. Qed.
Lemma Mono_statement loops s : Mono (λ n, within_statement loops n s).
Proof. intros n m. apply within_statement_mono. Qed.
Lemma Mono_All {A} (P : nat → A → Prop) l : (∀ x, Mono (λ n, P n x)) → Mono (λ n, All (P n) l).
Proof. intros H n m Hm. apply All_impl. intros x. by apply H. Qed.
Lemma Mono_body loops body : Mono (λ n, of_body (within_statement loops n) body).
Proof. apply Mono_All, Mono_statement. Qed.
Lemma Mono_within_body loops body : Mono (λ n, within_body loops n body).
Proof. apply Mono_body. Qed.
Lemma Mono_if_some {A} (P : nat → A → Prop) o : (∀ x, Mono (λ n, P n x)) → Mono (λ n, if_some (P n) o).
Proof. intros H n m Hm. apply if_some_impl. intros x. by apply H. Qed.

Create HintDb level discriminated.
#[export] Hint Resolve Mono_and Mono_const Mono_expression Mono_statement Mono_All Mono_body Mono_within_body Mono_if_some : level.

Lemma level_and P Q : Mono P → Mono Q → Some_level P → Some_level Q → Some_level (λ n, P n ∧ Q n).
Proof.
  intros HP HQ [n Hn] [m Hm]. exists (n `max` m)%nat.
  split; [eapply HP; [|exact Hn]|eapply HQ; [|exact Hm]]; lia.
Qed.
Lemma level_True : Some_level (λ _, True).
Proof. by exists O. Qed.
Lemma level_S P : Some_level P → Some_level (λ n, match n with O => False | S n => P n end).
Proof. intros [n Hn]. by exists (S n). Qed.
Definition level_if_some {A} (P : nat → A → Prop) (f : ∀ x, Some_level (λ n, P n x)) (o : option A) :
    Some_level (λ n, if_some (P n) o) :=
  match o with Some x => f x | None => level_True end.
Definition level_All {A} (P : nat → A → Prop) (mono : ∀ x, Mono (λ n, P n x))
    (f : ∀ x, Some_level (λ n, P n x)) : ∀ l, Some_level (λ n, All (P n) l) :=
  fix go l := match l with
    | [] => level_True
    | x :: l => level_and _ _ (mono x) (Mono_All P l mono) (f x) (go l)
    end.

Definition within_part (n : nat) : InterpolationPart → Prop := of_part (within_expression true n).
Definition within_field (n : nat) : RecordField → Prop := of_field (within_expression true n).
Definition within_case (n : nat) : ConsiderCase → Prop :=
  of_case (within_expression true n) (within_body true n).
Definition within_source (n : nat) : InstantiationSource → Prop := of_source (within_expression true n).
Definition within_else (n : nat) : ElseClause → Prop := of_else (within_body true n).
Lemma Mono_part x : Mono (λ n, within_part n x).
Proof. destruct x. apply Mono_expression. Qed.
Lemma Mono_field x : Mono (λ n, within_field n x).
Proof. destruct x. cbn. auto with level. Qed.
Lemma Mono_case x : Mono (λ n, within_case n x).
Proof. destruct x. cbn. auto with level. Qed.
Lemma Mono_source x : Mono (λ n, within_source n x).
Proof. destruct x; cbn; auto with level. Qed.
Lemma Mono_else x : Mono (λ n, within_else n x).
Proof. destruct x. cbn. auto with level. Qed.
Lemma Mono_dynamic (d : nat * Expression) : Mono (λ n, within_expression true n d.2).
Proof. apply Mono_expression. Qed.
Lemma Mono_All_case l : Mono (λ n, All (of_case (within_expression true n) (of_body (within_statement true n))) l).
Proof. exact (Mono_All _ l Mono_case). Qed.
Lemma Mono_All_source l : Mono (λ n, All (of_source (within_expression true n)) l).
Proof. exact (Mono_All _ l Mono_source). Qed.
Lemma Mono_All_else l : Mono (λ n, All (of_else (of_body (within_statement true n))) l).
Proof. exact (Mono_All _ l Mono_else). Qed.
#[export] Hint Resolve Mono_All_case Mono_All_source Mono_All_else : level.

(** One more level than a node's children need. *)
Ltac next_level :=
  lazymatch goal with |- Some_level (λ n, @?f n) =>
    let P := eval cbn [within_expression within_statement] in (λ n, f (S n)) in
    let n := fresh in let H := fresh in
    enough (Some_level P) as [n H]; [exists (S n); exact H|]
  end.
(** The children one after another. *)
Ltac each_level :=
  lazymatch goal with
  | |- Some_level (λ n, @?P n ∧ @?Q n) => refine (level_and P Q _ _ _ _); [solve [auto 6 with level]..| |]; each_level
  | |- Some_level (λ _, True) => exact level_True
  | |- Some_level (λ _, true = true) => exact (ex_intro _ O eq_refl)
  | |- _ => idtac
  end.

Fixpoint expression_level (e : Expression) : Some_level (λ n, within_expression true n e)
with part_level (x : InterpolationPart) : Some_level (λ n, within_part n x)
with field_level (x : RecordField) : Some_level (λ n, within_field n x)
with block_level (x : BlockStatement) : Some_level (λ n, within_body true n x)
with statement_level (s : Statement) : Some_level (λ n, within_statement true n s)
with case_level (x : ConsiderCase) : Some_level (λ n, within_case n x)
with source_level (x : InstantiationSource) : Some_level (λ n, within_source n x)
with else_level (x : ElseClause) : Some_level (λ n, within_else n x).
Proof.
  all: pose (bodies := level_if_some _ block_level).
  all: pose (expressions := level_All _ (Mono_expression true) expression_level).
  - destruct e; next_level; each_level;
      first [apply expression_level|apply expressions|apply bodies|idtac].
    + exact (level_All (λ n d, within_expression true n d.2) Mono_dynamic (λ d, expression_level d.2) _).
    + exact (level_All _ Mono_part part_level _).
    + exact (level_All _ Mono_field field_level _).
  - destruct x. apply expression_level.
  - destruct x. refine (level_and _ _ _ _ _ (level_and _ _ _ _ _ _)); auto with level.
  - destruct x. exact (level_All _ (Mono_statement true) statement_level _).
  - destruct s; next_level; each_level;
      first [apply expression_level|apply statement_level|apply block_level|apply expressions|apply bodies|idtac].
    + exact (level_All _ Mono_case case_level _).
    + exact (level_All _ Mono_source source_level _).
    + exact (level_All _ Mono_else else_level _).
  - destruct x. refine (level_and _ _ _ _ _ _); auto with level.
  - destruct x; [exact level_True|apply expression_level].
  - destruct x. apply bodies.
Qed.

Lemma program_level p : Some_level (λ n, within_program true n p).
Proof. exact (level_All _ (Mono_statement true) statement_level _). Qed.
