(* ===== verification/MblSafe.v ===== *)
(** * What every step of the interpreter keeps

    [Safe K c m]: run in a state that satisfies the invariant [Inv], with at least
    [K] scopes and at most [c] calls below the limit of their depth, [m] does
    not end in an error value, which the source does not have; if it does not
    panic it keeps the invariant, and the depths, the limit and the agent are
    what they were.  If the program has no loops the database, the
    coordinator and the paths announced are untouched as well, up to a preorder
    [R] that the reads of the database keep: only a loop flushes the buffer
    before a program ends. *)
From stdpp Require Import gmap.
From S2P Require Import Prelude Utf8 GoTime GoFloat ValueCodec MblTokens MblLexer MblValue MblCompare MblCoerce MblAst MblWithin MblState MblBuiltins MblLibrary MblEval.

(** A Go function that has no error result. *)
Definition no_error {A} (r : res A) : Prop := match r with Err _ => False | _ => True end.

Lemma no_error_bind {A B} (r : res A) (f : A → res B) :
  no_error r → (∀ a, no_error (f a)) → no_error (r ≫= f).
Proof. intros H Hf. by destruct r; cbn in *. Qed.
Lemma no_error_fmap {A B} (f : A → B) (r : res A) : no_error r → no_error (f <$> r).
Proof. by destruct r. Qed.
Lemma no_error_all {A} (rs : list (res A)) : All no_error rs → no_error (res_all rs).
Proof.
  induction rs as [|r rs IH]; intros H; [done|]. destruct H as [H1 H2].
  apply no_error_bind; [done|]. intros x. apply no_error_bind; [by apply IH|done].
Qed.


(** *** Printing *)

Lemma no_error_comma rs : All no_error rs → no_error (comma rs).
Proof. intros. by apply no_error_fmap, no_error_all. Qed.
Lemma no_error_dynamic dynamic : All (λ d : nat * res bytes, no_error d.2) dynamic →
  ∀ parts idx, no_error (dynamic_parts idx parts dynamic).
Proof.
  intros Hd. induction parts as [|part parts IH]; intros idx; cbn [dynamic_parts]; [done|].
  apply no_error_bind; [|intros; by apply no_error_fmap].
  destruct (list_find _ _) as [[i [k r]]|] eqn:Hf; [|done].
  apply list_find_Some in Hf as [Hl _]. apply list_elem_of_lookup_2 in Hl.
  apply no_error_fmap. exact (All_elem _ _ _ Hd Hl).
Qed.
Definition all_no_error {A B} (f : A → res B) (H : ∀ x, no_error (f x)) : ∀ l, All no_error (map f l) :=
  fix go l := match l with [] => I | x :: l => conj (H x) (go l) end.
Definition dynamic_no_error (f : Expression → res bytes) (H : ∀ e, no_error (f e)) :
    ∀ l : list (nat * Expression), All (λ d, no_error d.2) (map (λ '(i, e), (i, f e)) l) :=
  fix go l := match l with [] => I | (i, e) :: l => conj (H e) (go l) end.

Lemma no_error_unless_nil e (x : res bytes) (f : bytes → bytes) : no_error x → no_error (Expression_String e) →
  no_error (match e with NilExpression => x | _ => f <$> Expression_String e end).
Proof. intros Hx He. destruct e; try exact Hx; by apply no_error_fmap. Qed.
Lemma no_error_expression_unless_nil e : no_error (Expression_String e) →
  no_error (match e with NilExpression => Ok [] | _ => Expression_String e end).
Proof. by destruct e. Qed.
Lemma no_error_statement_unless_nil s (f : bytes → bytes) : no_error (Statement_String s) →
  no_error (match s with NilStatement => Ok [] | _ => f <$> Statement_String s end).
Proof. intros Hs. destruct s; try exact I; by apply no_error_fmap. Qed.

Ltac prints := repeat lazymatch goal with
  | |- no_error (_ ≫= _) => apply no_error_bind; [|intros ?]
  | |- no_error (_ <$> _) => apply no_error_fmap
  | |- no_error (comma _) => apply no_error_comma
  | |- no_error (res_all _) => apply no_error_all
  | |- no_error (Ok _) => exact I
  | |- no_error (match ?x with _ => _ end) =>
      first [apply no_error_unless_nil; [exact I|]|apply no_error_expression_unless_nil|
             apply no_error_statement_unless_nil|destruct x]
  end.
Fixpoint no_error_Expression e : no_error (Expression_String e)
with no_error_Field f : no_error (RecordField_String f)
with no_error_Block x : no_error (Block_String x)
with no_error_Statement s : no_error (Statement_String s)
with no_error_Case c : no_error (Case_String c)
with no_error_Source s : no_error (Source_String s)
with no_error_Else c : no_error (Else_String c).
Proof.
  - destruct e; cbn [Expression_String]; try exact I; prints;
      first [exact I|apply no_error_Expression|apply no_error_Block|
             apply no_error_dynamic, (dynamic_no_error _ no_error_Expression)|
             apply (all_no_error _ no_error_Expression)|apply (all_no_error _ no_error_Field)].
  - destruct f; cbn [RecordField_String]; prints; first [exact I|apply no_error_Expression].
  - destruct x; cbn [Block_String]; prints. apply (all_no_error _ no_error_Statement).
  - destruct s; cbn [Statement_String]; try exact I; prints;
      first [exact I|apply no_error_Expression|apply no_error_Block|apply no_error_Statement|
             apply (all_no_error _ no_error_Expression)|apply (all_no_error _ no_error_Case)|
             apply (all_no_error _ no_error_Source)|apply (all_no_error _ no_error_Else)].
  - destruct c; cbn [Case_String]; prints; first [apply no_error_Expression|apply no_error_Block].
  - destruct s; cbn [Source_String]; [exact I|apply no_error_Expression].
  - destruct c; cbn [Else_String]; prints; first [exact I|apply no_error_Block].
Qed.
Lemma no_error_code body : no_error (bodyToMBLCode body).
Proof.
  destruct body as [[tok ss]|]; [|done]. apply no_error_fmap, no_error_all.
  apply (all_no_error _ no_error_Statement).
Qed.

Section Safe.
Context {T W : Type} `{Tree T} `{External W} `{GoLib}.
Local Abbreviation M A := (Op (Interpreter T W) A).
Local Abbreviation State := (Interpreter T W).
Implicit Types st : State.

Variables (loops : bool) (D : nat) (R : T → T → Prop).
Context `{!PreOrder R}.

(** A read of the database keeps [R], whatever it gives. *)
Definition keeps {A} (m : Op T A) : Prop := ∀ t, R t (m t).1.
Context (keeps_Read : ∀ p, keeps (tree_Read p)) (keeps_ReadAt : ∀ p t, keeps (tree_ReadAt p t))
  (keeps_Children : ∀ p, keeps (tree_ChildrenWithNames p)).

(** Every scope's parent was there before it. *)
Definition scopes_ok (ss : list Scope) : Prop :=
  ∀ i s p, ss !! i = Some s → parent s = Some p → (p < i)%nat.

Record Inv st : Prop := {
  inv_procs : ∀ id p, procs st !! id = Some p →
    if_some (within_body loops D) (pr_Body p) ∧ (pr_Closure p < length (scopes st))%nat;
  inv_writes : len (writes st) ≤ limit st;
  inv_scopes : scopes_ok (scopes st);
  inv_scope : (scope st < length (scopes st))%nat
}.

Definition untouched st st' : Prop :=
  loops = false → R (tree st) (tree st') ∧ coordinator st' = coordinator st ∧ changedPaths st' = changedPaths st.
Record kept st st' : Prop := {
  kept_callDepth : callDepth st' = callDepth st;
  kept_quietDepth : quietDepth st' = quietDepth st;
  kept_limit : limit st' = limit st;
  kept_agent : agent st' = agent st;
  kept_scopes : (length (scopes st) ≤ length (scopes st'))%nat;
  kept_database : untouched st st'
}.

Lemma untouched_refl st : untouched st st.
Proof. by split. Qed.
Lemma untouched_trans st1 st2 st3 : untouched st1 st2 → untouched st2 st3 → untouched st1 st3.
Proof.
  intros H12 H23 E. destruct (H12 E) as (A1 & A2 & A3), (H23 E) as (B1 & B2 & B3).
  split_and!; [by transitivity (tree st2)|congruence..].
Qed.
Lemma kept_refl st : kept st st.
Proof. split; auto using untouched_refl. Qed.
Lemma kept_trans st1 st2 st3 : kept st1 st2 → kept st2 st3 → kept st1 st3.
Proof.
  intros [] []. split; [congruence..|lia|by eapply untouched_trans].
Qed.
Hint Resolve untouched_refl kept_refl : core.

Definition outcome {A} st (x : State * res A) : Prop :=
  match x with
  | (st', Ok _) => Inv st' ∧ kept st st'
  | (st', Panic _) => untouched st st'
  | (_, Err _) => False
  end.
Definition Safe {A} (K c : nat) (m : M A) : Prop := ∀ st,
  Inv st → (K ≤ length (scopes st))%nat → MaxCallDepth ≤ callDepth st + Z.of_nat c → outcome st (m st).

(** ** Rules *)

Lemma Safe_ret {A} K c (a : A) : Safe K c (mret a).
Proof. by split. Qed.
Lemma outcome_after {A} st st1 (x : State * res A) : kept st st1 → outcome st1 x → outcome st x.
Proof.
  intros Hk. destruct x as [st2 [a|e|e]]; cbn; [|done|].
  - intros [? ?]. split; [done|]. by eapply kept_trans.
  - eapply untouched_trans, Hk.
Qed.
Lemma outcome_bind {A B} st (m : M A) (f : A → M B) : outcome st (m st) →
  (∀ st1 a, m st = (st1, Ok a) → Inv st1 → kept st st1 → outcome st1 (f a st1)) → outcome st ((m ≫= f) st).
Proof.
  intros Hm Hf. unfold mbind, op_bind. destruct (m st) as [st1 [a|e|e]]; [|done..].
  destruct Hm as [Hi Hk]. eapply outcome_after; [done|]. by apply Hf.
Qed.
(** Every value of [m] satisfies [P]. *)
Definition returns {A} (P : A → Prop) (m : M A) : Prop := ∀ st,
  match (m st).2 with Ok a => P a | _ => True end.
Lemma Safe_bind_returns {A B} (P : A → Prop) K c (m : M A) (f : A → M B) :
  Safe K c m → returns P m → (∀ a, P a → Safe K c (f a)) → Safe K c (m ≫= f).
Proof.
  intros Hm HP Hf st Hi HK Hc. apply outcome_bind; [by apply Hm|].
  intros st1 a Ha Hi1 [Hd _ _ _ Hl _]. apply Hf; [|done|lia|lia].
  specialize (HP st). by rewrite Ha in HP.
Qed.
Lemma returns_any {A} (m : M A) : returns (λ _, True) m.
Proof. intros st. by destruct (m st).2. Qed.
Lemma Safe_bind {A B} K c (m : M A) (f : A → M B) :
  Safe K c m → (∀ a, Safe K c (f a)) → Safe K c (m ≫= f).
Proof. intros. eapply Safe_bind_returns; [done|apply returns_any|done]. Qed.
Lemma Safe_weaken {A} K K' c (m : M A) : (K ≤ K')%nat → Safe K c m → Safe K' c m.
Proof. intros HK Hm st Hi HK' Hc. apply Hm; [done|lia|done]. Qed.
Lemma Safe_gets {A} K c (f : State → A) : Safe K c (gets f).
Proof. by split. Qed.
Lemma Safe_lift {A} K c (r : res A) : no_error r → Safe K c (op_lift r).
Proof. intros Hr st Hi _ _. by destruct r; cbn in *. Qed.
Lemma Safe_panic {A} K c : Safe K c (@nil_panic State A).
Proof. by apply Safe_lift. Qed.
Lemma Safe_lift_panic {A} K c e : Safe K c (op_lift (@Panic A e)).
Proof. by apply Safe_lift. Qed.
Lemma Safe_try_lift {A} K c (r : res A) : Safe K c (op_try (op_lift r)).
Proof. intros st Hi _ _. by destruct r; cbn; try split. Qed.

(** A read of the database. *)
Lemma Inv_set_tree st t : R (tree st) t → Inv st → Inv (set_tree t st) ∧ kept st (set_tree t st).
Proof. intros HR []. split; split; cbn; auto. by split. Qed.
Lemma Safe_from_tree {A} K c (m : Op T A) : keeps m → Safe K c (op_try (from_tree m)).
Proof.
  intros Hm st Hi _ _. unfold op_try, from_tree, op_zoom. specialize (Hm (tree st)).
  destruct (Inv_set_tree st (m (tree st)).1 Hm Hi) as [? Hk].
  destruct (m (tree st)) as [t [a|e|e]]; cbn in *; [done..|apply Hk].
Qed.
Lemma Safe_from_world {A} K c (m : W → W * A) : Safe K c (from_world m).
Proof.
  intros st [] _ _. unfold from_world. destruct (m (world st)) as [w a].
  split; split; cbn; done.
Qed.

(** Changes of the state. *)
Lemma Safe_modify K c (f : State → State) :
  (∀ st, Inv st → Inv (f st) ∧ kept st (f st)) → Safe K c (op_modify f).
Proof. intros Hf st Hi _ _. by apply Hf. Qed.

(** What the invariant does not speak of. *)
Ltac unrelated := apply Safe_modify; intros st []; split; split; cbn; auto; by split.
Lemma Safe_set_currentScopePath K c p raw :
  Safe K c (op_modify (λ st, set_currentScopePath p (set_currentScopePathRaw raw st))).
Proof. unrelated. Qed.
Lemma Safe_set_procedures K c f : Safe K c (op_modify (λ st, set_procedures (f (procedures st)) st)).
Proof. unrelated. Qed.
Lemma Safe_set_watchers K c f : Safe K c (op_modify (λ st, set_watchers (f (watchers st)) st)).
Proof. unrelated. Qed.
Lemma Safe_bind_watcher K c id name path : Safe K c (bind_watcher id name path).
Proof. unrelated. Qed.
Lemma Safe_discardBuffer K c : Safe K c discardBuffer.
Proof.
  apply Safe_modify. intros st []. pose proof (len_nonneg (writes st)).
  split; split; cbn; auto; [rewrite len_nil; lia|by split].
Qed.
Lemma Safe_new_watcher K c w : Safe K c (new_watcher w).
Proof. intros st [] _ _. split; split; cbn; auto. by split. Qed.
Lemma Safe_append K c p xs : Safe K c (append p xs).
Proof.
  intros st [] _ _. unfold append. destruct (append_path _ _ _). split; split; cbn; auto. by split.
Qed.
Lemma Safe_stageWriteQuietly K c p v a q : Safe K c (stageWriteQuietly p v a q).
Proof.
  intros st Hi _ _. unfold stageWriteQuietly. destruct (Z.leb_spec (limit st) (len (writes st))); [by split|].
  destruct Hi. split; split; cbn; auto; [|by split]. rewrite len_app, len_cons, len_nil. lia.
Qed.
Lemma Safe_name_procedure K c id name : Safe K c (name_procedure id name).
Proof.
  apply Safe_modify. intros st []. split; split; cbn; auto; [|by split].
  intros i p Hp. destruct (decide (i = id)) as [->|].
  - rewrite list_lookup_alter_eq in Hp. destruct (procs st !! id) as [q|] eqn:Hq; [|discriminate].
    cbn in Hp. injection Hp as <-. apply inv_procs0 in Hq. case_bool_decide; exact Hq.
  - rewrite list_lookup_alter_ne in Hp by done. eauto.
Qed.

(** *** Scopes *)

Lemma alter_local_length f id ss : length (alter_local f id ss) = length ss.
Proof. apply length_alter. Qed.
Lemma scopes_ok_alter id ss g : (∀ s, parent (g s) = parent s) → scopes_ok ss → scopes_ok (alter g id ss).
Proof.
  intros Hg Hss i s p Hs Hp. destruct (decide (i = id)) as [->|].
  - rewrite list_lookup_alter_eq in Hs. destruct (ss !! id) as [s0|] eqn:E; [|done].
    injection Hs as <-. rewrite Hg in Hp. by eapply Hss.
  - rewrite list_lookup_alter_ne in Hs by done. by eapply Hss.
Qed.
(** A change of scopes that keeps their number and parents. *)
Lemma Inv_set_scopes st ss : length ss = length (scopes st) → scopes_ok ss → Inv st →
  Inv (set_scopes ss st) ∧ kept st (set_scopes ss st).
Proof.
  intros Hl Hss []. split; split; cbn; rewrite ?Hl; auto. by split.
Qed.
Lemma scope_Update_ok fuel ss id name v : scopes_ok ss →
  scopes_ok (scope_Update fuel ss id name v) ∧ length (scope_Update fuel ss id name v) = length ss.
Proof.
  intros Hss. revert id. induction fuel as [|fuel IH]; intros id; cbn;
    repeat case_match; auto using alter_local_length; (split; [by apply scopes_ok_alter|apply alter_local_length]).
Qed.
Lemma Safe_alter_scope K c (f : State → nat) (g : Scope → Scope) : (∀ s, parent (g s) = parent s) →
  Safe K c (op_modify (λ st, set_scopes (alter g (f st) (scopes st)) st)).
Proof.
  intros Hg. apply Safe_modify. intros st Hi. apply Inv_set_scopes; [apply length_alter| |done].
  apply scopes_ok_alter; [done|apply Hi].
Qed.
Lemma Safe_Set K c name v : Safe K c (Set_ name v).
Proof. apply (Safe_alter_scope K c scope). done. Qed.
Lemma Safe_unset K c name : Safe K c (unset name).
Proof. apply (Safe_alter_scope K c scope). done. Qed.
Lemma Safe_Update K c name v : Safe K c (Update name v).
Proof.
  apply Safe_modify. intros st Hi. apply Inv_set_scopes; [| |done]; apply scope_Update_ok, Hi.
Qed.
Lemma Safe_enter K c s : (s < K)%nat → Safe K c (enter s).
Proof. intros Hs st [] HK _. split; split; cbn; auto; [lia|by split]. Qed.
(** The current scope is one of the scopes, and stays one. *)
Lemma Safe_gets_scope {A} K c (f : nat → M A) :
  (∀ s, Safe (K `max` S s) c (f s)) → Safe K c (s ← gets scope; f s).
Proof. intros Hf st Hi HK Hc. apply Hf; [done| |done]. pose proof (inv_scope _ Hi). lia. Qed.
Lemma Safe_NewChildScope {A} K c s (f : nat → M A) :
  (s < K)%nat → (∀ child, Safe (K `max` S child) c (f child)) → Safe K c (child ← NewChildScope s; f child).
Proof.
  intros Hs Hf st Hi HK Hc. unfold NewChildScope, mbind, op_bind.
  set (st1 := set_scopes _ st).
  assert (Inv st1 ∧ kept st st1) as [Hi1 Hk1].
  { destruct Hi. split; split; cbn; rewrite ?length_app; cbn; auto; try lia; [| |by split].
    - intros i p Hp. apply inv_procs0 in Hp as [? ?]. split; [done|lia].
    - intros i s' p Hs' Hp. destruct (decide (i < length (scopes st))%nat).
      + rewrite lookup_app_l in Hs' by done. by eapply inv_scopes0.
      + apply lookup_lt_Some in Hs' as Hi'. rewrite length_app in Hi'. cbn in Hi'.
        assert (i = length (scopes st)) as -> by lia.
        rewrite list_lookup_middle in Hs' by done. injection Hs' as <-. injection Hp as <-. lia. }
  specialize (Hf (length (scopes st)) st1 Hi1). unfold outcome in *.
  destruct (f (length (scopes st)) st1) as [st2 [a|e|e]].
  all: cbn in Hf; rewrite length_app in Hf; cbn in Hf.
  - destruct Hf as [Hi2 Hk2]; [lia|done|]. split; [done|]. by eapply kept_trans.
  - apply Hf; [lia|done].
  - eapply untouched_trans; [apply Hk1|]. apply Hf; [lia|done].
Qed.

(** ** Automation *)

Hint Resolve Safe_ret Safe_gets Safe_panic Safe_lift_panic Safe_try_lift Safe_from_tree Safe_from_world
  Safe_set_currentScopePath Safe_set_procedures Safe_set_watchers Safe_bind_watcher
  Safe_discardBuffer Safe_new_watcher Safe_append Safe_stageWriteQuietly Safe_name_procedure
  Safe_Set Safe_unset Safe_Update : safe.

(** One step: a bind, a case analysis, or a lemma. *)
Ltac safe_step :=
  cbv zeta;
  lazymatch goal with
  | |- Safe _ _ (mbind _ (gets scope)) => apply Safe_gets_scope; intros ?
  | |- Safe _ _ (mbind _ (NewChildScope _)) => apply Safe_NewChildScope; [lia|intros ?]
  | |- Safe _ _ (mbind _ _) => apply Safe_bind; [|intros ?]
  | |- Safe _ _ (enter _) => apply Safe_enter; lia
  | |- Safe _ _ (match ?x with _ => _ end) => destruct x eqn:?
  | |- Safe _ _ _ => solve [eauto with safe]
  end.
Ltac safe := repeat safe_step.

(** ** Reading *)

Lemma Safe_to_mbl K c v : Safe K c (to_mbl v).
Proof. unfold to_mbl. safe. Qed.
Hint Resolve Safe_to_mbl : safe.
Lemma Safe_staged_mbl K c p : Safe K c (staged_mbl p).
Proof. unfold staged_mbl, getStagedWrite. safe. Qed.
Lemma Safe_read_tree K c p : Safe K c (read_tree p).
Proof. unfold read_tree. safe. Qed.
Hint Resolve Safe_staged_mbl Safe_read_tree : safe.
Lemma Safe_stored_mbl K c p : Safe K c (stored_mbl p).
Proof. unfold stored_mbl. safe. Qed.
Hint Resolve Safe_stored_mbl : safe.
Lemma Safe_staged_or_stored K c p : Safe K c (staged_or_stored p).
Proof. unfold staged_or_stored. safe. Qed.
Hint Resolve Safe_staged_or_stored : safe.
Lemma Safe_resolveCascade K c name : Safe K c (resolveCascade name).
Proof.
  unfold resolveCascade. generalize [[b "world"; b "org"]; [b "world"; b "config"]; [b "world"]].
  induction l; cbn [first_cascade]; safe. unfold checkCascadeAtPath. safe.
Qed.
Lemma Safe_resolveReference K c id : Safe K c (resolveReference id).
Proof. unfold resolveReference. safe. Qed.
Hint Resolve Safe_resolveCascade Safe_resolveReference : safe.
Lemma Safe_accessRecordFields K c v names : Safe K c (accessRecordFields v names).
Proof. revert v. induction names; intros v; cbn [accessRecordFields]; safe. Qed.
Hint Resolve Safe_accessRecordFields : safe.

(** *** The budget of a record put together *)

Lemma returns_ret {A} (P : A → Prop) (a : A) : P a → returns P (mret a).
Proof. by intros HP st. Qed.
Lemma returns_bind {A B} (Q : A → Prop) (P : B → Prop) (m : M A) (f : A → M B) :
  returns Q m → (∀ a, Q a → returns P (f a)) → returns P (m ≫= f).
Proof.
  intros Hm Hf st. specialize (Hm st). unfold mbind, op_bind.
  destruct (m st) as [st1 [a|e|e]]; [|done..]. by apply Hf.
Qed.

(** No more is left of the budget than there was. *)
Abbreviation spends budget := (returns (λ r : option any * bool * Z, r.2 ≤ budget)).
Lemma read_children_spends descend base children : (∀ p k, spends k (descend p k)) →
  ∀ fields budget, spends budget (read_children descend base children fields budget).
Proof.
  intros Hd. induction children as [|name children IH]; intros fields budget; cbn [read_children].
  { apply returns_ret. cbn. lia. }
  case_bool_decide; [apply IH|]. destruct (Z.leb_spec budget 0); [by apply returns_ret|]. cbv zeta.
  assert (Hl : ∀ fs k, k ≤ budget → spends budget (read_children descend base children fs k)).
  { intros fs k Hk st. specialize (IH fs k st). destruct (_ : res _); [|done..]. cbn in *. lia. }
  eapply returns_bind; [apply returns_any|]. intros [v|] _; [apply Hl; lia|].
  eapply returns_bind; [apply returns_any|]. intros stored _.
  case_match; [apply Hl; lia|].
  eapply returns_bind; [apply Hd|]. intros [[record exceeded] k] Hk. cbn in Hk.
  destruct exceeded; [apply returns_ret; cbn; lia|apply Hl; lia].
Qed.
Lemma readStoredRecord_spends fuel : ∀ base budget, spends budget (readStoredRecord fuel base budget).
Proof.
  induction fuel as [|fuel IH]; intros base budget; [done|]. cbn [readStoredRecord].
  eapply returns_bind; [apply returns_any|]. intros [children|e|e] _; [|by apply returns_ret..].
  by apply read_children_spends.
Qed.

Lemma Safe_read_children K c descend base children limit :
  (∀ p k, spends k (descend p k)) → (∀ p k, 0 ≤ k < limit → Safe K c (descend p k)) →
  ∀ fields budget, budget ≤ limit → Safe K c (read_children descend base children fields budget).
Proof.
  intros Hs Hd. induction children as [|name children IH]; intros fields budget Hb; cbn [read_children]; [safe|].
  case_bool_decide; [by apply IH|]. destruct (Z.leb_spec budget 0); [safe|]. cbv zeta.
  apply Safe_bind; [safe|]. intros [v|]; [apply IH; lia|].
  apply Safe_bind; [safe|]. intros stored. case_match; [apply IH; lia|].
  eapply Safe_bind_returns; [apply Hd; lia|apply Hs|].
  intros [[record exceeded] k] Hk. cbn in Hk. destruct exceeded; [safe|]. apply IH. lia.
Qed.
Lemma Safe_readStoredRecord K c fuel : ∀ base budget, 0 ≤ budget < Z.of_nat fuel →
  Safe K c (readStoredRecord fuel base budget).
Proof.
  induction fuel as [|fuel IH]; intros base budget Hb; [lia|]. cbn [readStoredRecord]. safe.
  apply Safe_read_children with budget; [apply readStoredRecord_spends| |lia].
  intros p k Hk. apply IH. lia.
Qed.

Lemma Safe_template_attribute K c base name fields : Safe K c (template_attribute base name fields).
Proof. unfold template_attribute, getStagedWrite. safe. Qed.
Hint Resolve Safe_template_attribute : safe.
Lemma Safe_template_attributes K c base names : ∀ fields, Safe K c (template_attributes base names fields).
Proof. induction names; intros fields; cbn [template_attributes]; safe. Qed.
Hint Resolve Safe_template_attributes : safe.
Lemma Safe_reconstructRecord K c base : Safe K c (reconstructRecord base).
Proof.
  unfold reconstructRecord, reconstructTemplateRecord.
  destruct (_ && _); [safe|]. apply Safe_bind; [|intros; safe].
  apply Safe_readStoredRecord. unfold MaxRecordNodes. lia.
Qed.
Hint Resolve Safe_reconstructRecord : safe.

Lemma Safe_evalComputerRun K c args : Safe K c (evalComputerRun args).
Proof. unfold evalComputerRun. safe. Qed.
Lemma Safe_text_argument K c v reason k : (∀ s, Safe K c (k s)) → Safe K c (text_argument v reason k).
Proof. intros Hk. unfold text_argument. safe; apply Hk. Qed.
Lemma Safe_options_argument K c args i reason k : (∀ o, Safe K c (k o)) → Safe K c (options_argument args i reason k).
Proof. intros Hk. unfold options_argument. safe; apply Hk. Qed.
Hint Resolve Safe_evalComputerRun Safe_text_argument Safe_options_argument : safe.
Lemma Safe_evalXML K c options node path : Safe K c (evalXMLImport path) ∧ Safe K c (evalXMLExport options node path).
Proof. unfold evalXMLImport, evalXMLExport. split; safe. Qed.
Lemma Safe_evalFilesLibraryProcedure K c path args : Safe K c (evalFilesLibraryProcedure path args).
Proof.
  unfold evalFilesLibraryProcedure, evalFilesImport, evalFilesExport, evalFilesImportFixedWidth. safe;
    repeat first [apply Safe_text_argument; intros ?|apply Safe_options_argument; intros ?|
                  refine (proj1 (Safe_evalXML _ _ [] Nothing _))|refine (proj2 (Safe_evalXML _ _ _ _ _))|safe_step].
Qed.
Lemma Safe_send_request K c r : Safe K c (send_request r).
Proof. unfold send_request. safe. Qed.
Hint Resolve Safe_evalFilesLibraryProcedure Safe_send_request : safe.
Lemma Safe_request K c name method place v body options : Safe K c (request name method place v body options).
Proof. unfold request. safe. Qed.
Hint Resolve Safe_request : safe.
Lemma Safe_evalHttp K c name method args :
  Safe K c (evalHttpWithoutBody name method args) ∧ Safe K c (evalHttpWithBody name method args).
Proof. unfold evalHttpWithoutBody, evalHttpWithBody. split; safe. Qed.
Lemma Safe_evalHttpWithoutBody K c name method args : Safe K c (evalHttpWithoutBody name method args).
Proof. apply Safe_evalHttp. Qed.
Lemma Safe_evalHttpWithBody K c name method args : Safe K c (evalHttpWithBody name method args).
Proof. apply Safe_evalHttp. Qed.
Lemma Safe_evalCryptoLibraryProcedure K c path args : Safe K c (evalCryptoLibraryProcedure path args).
Proof.
  unfold evalCryptoLibraryProcedure, evalHashPassword, evalVerifyPassword, evalGenerateToken. safe;
    repeat first [apply Safe_text_argument; intros ?|safe_step].
Qed.
Hint Resolve Safe_evalHttpWithoutBody Safe_evalHttpWithBody Safe_evalCryptoLibraryProcedure : safe.
Lemma Safe_special_part K c name m : special_part name = Some m → Safe K c m.
Proof.
  unfold special_part. intros Hm. repeat (case_match; [injection Hm as <-; safe|]); try done.
Qed.
Hint Resolve Safe_special_part : safe.
Lemma Safe_read_path K c parts : Safe K c (read_path parts).
Proof. unfold read_path, resolvePath, getStagedWrite. safe. Qed.
Hint Resolve Safe_read_path : safe.
Lemma Safe_Get K c name : Safe K c (Get name).
Proof. unfold Get. safe. Qed.
Lemma Safe_scoped_value K c name : Safe K c (scoped_value name).
Proof. unfold scoped_value. safe. Qed.
Hint Resolve Safe_Get Safe_scoped_value : safe.
Lemma Safe_evalPath K c parts : Safe K c (evalPath parts).
Proof. unfold evalPath. safe. Qed.
Hint Resolve Safe_evalPath : safe.
Lemma Safe_bind_all K c names : ∀ args, Safe K c (bind_all names args).
Proof. induction names; intros []; cbn [bind_all]; safe. Qed.
Hint Resolve Safe_bind_all : safe.

(** ** Methods *)

Section Methods.
Variables (sem : Sem T W) (n c : nat).
Local Notation E := (within_expression loops n).
Local Notation S_ := (within_statement loops n).
Context (HE : ∀ K e, E e → Safe K c (sem_expression sem e)) (HS : ∀ K s, S_ s → Safe K c (sem_statement sem s)).
Context (Hn : (n ≤ D)%nat).
(** A call leaves one call less. *)
Context (HC : ∀ K c' body, c = S c' → within_body loops D body → Safe K c' (evalBlockStatement sem body)).

Lemma Safe_known K e k : E e → (∀ v, Safe K c (k v)) → Safe K c (known sem e k).
Proof. intros. unfold known. safe. Qed.
Lemma Safe_known_value K e k : E e → (∀ v, Safe K c (k v)) → Safe K c (known_value sem e k).
Proof. intros. unfold known_value. safe. Qed.
(** The step of [safe] on a method of these. *)
Ltac safe_method := lazymatch goal with
  | |- Safe _ _ (known _ _ _) => apply Safe_known; [|intros ?]
  | |- Safe _ _ (known_value _ _ _) => apply Safe_known_value; [|intros ?]
  | |- E _ => assumption
  | |- All _ _ => assumption
  | |- _ => safe_step
  end.
Ltac safe ::= repeat safe_method.
Lemma Safe_all_known K es : All E es → ∀ vs, Safe K c (all_known sem es vs).
Proof.
  induction es as [|e es IH]; intros Hes vs; cbn [all_known]; [safe|]. destruct Hes as [He Hes].
  safe.
Qed.
Hint Resolve Safe_all_known : safe.
Lemma Safe_resolve_dynamic K dynamic : All (λ d, E d.2) dynamic →
  ∀ parts, Safe K c (resolve_dynamic sem parts dynamic).
Proof.
  induction dynamic as [|[i e] dynamic IH]; intros Hd parts; cbn [resolve_dynamic]; [safe|].
  destruct Hd as [He Hd]. cbn in He. safe.
Qed.
Hint Resolve Safe_resolve_dynamic : safe.
Lemma Safe_evalPathExpression K parts dynamic : All (λ d, E d.2) dynamic →
  Safe K c (evalPathExpression sem parts dynamic).
Proof. intros. unfold evalPathExpression. safe. Qed.
Hint Resolve Safe_evalPathExpression : safe.
(** The segments of a path that is evaluated in place. *)
Lemma E_dynamic tok parts dynamic : E (PathExpression tok parts dynamic) → All (λ d, E d.2) dynamic.
Proof.
  destruct n as [|m]; [done|]. cbn [within_expression]. apply All_impl.
  intros d. apply (within_expression_mono loops m (S m)). lia.
Qed.
Lemma Safe_resolvePathExpressionParts K e : E e → Safe K c (resolvePathExpressionParts sem e).
Proof. intros He. destruct e; cbn; try by safe. apply Safe_resolve_dynamic. by eapply E_dynamic. Qed.
Hint Resolve Safe_resolvePathExpressionParts : safe.

Lemma Safe_evalLiteral K tok v : Safe K c (evalLiteral tok v).
Proof. unfold evalLiteral. safe. Qed.
Lemma Safe_evalInterpolatedString K parts : All (of_part E) parts → Safe K c (evalInterpolatedString sem parts).
Proof.
  unfold evalInterpolatedString. generalize (Text []). induction parts as [|[l path] parts IH];
    intros v Hp; cbn [interpolate_parts]; [safe|]. destruct Hp as [He Hp]. cbn in He. safe.
Qed.
Hint Resolve Safe_evalLiteral Safe_evalInterpolatedString : safe.

Lemma Safe_evalReferenceExpression K path : Safe K c (evalReferenceExpression path).
Proof.
  unfold evalReferenceExpression. apply Safe_bind; [apply Safe_lift|intros; safe].
  destruct path; try done; apply no_error_Expression.
Qed.
Lemma Safe_evalBinaryExpression K l op r : E l → E r → Safe K c (evalBinaryExpression sem l op r).
Proof. intros. unfold evalBinaryExpression. safe. Qed.
Lemma Safe_evalUnaryExpression K op r : E r → Safe K c (evalUnaryExpression sem op r).
Proof. intros. unfold evalUnaryExpression. safe. Qed.
Hint Resolve Safe_evalReferenceExpression Safe_evalBinaryExpression Safe_evalUnaryExpression : safe.

(** *** Brackets and projections *)

Lemma Safe_temporalSelector K filters : All E filters → Safe K c (temporalSelector sem filters).
Proof.
  intros Hf. unfold temporalSelector. safe.
  apply Safe_evalPathExpression. destruct Hf as [He _]. by eapply E_dynamic.
Qed.
Lemma Safe_evalTemporalAsOf K parts t precision : Safe K c (evalTemporalAsOf parts t precision).
Proof. unfold evalTemporalAsOf, resolvePath. safe. Qed.
Hint Resolve Safe_temporalSelector Safe_evalTemporalAsOf : safe.
Lemma Safe_filters_hold K filters : All E filters → Safe K c (filters_hold sem filters).
Proof. induction filters; intros []; cbn [filters_hold]; safe. Qed.
Hint Resolve Safe_filters_hold : safe.
Lemma Safe_set_bindings K child bindings : Safe K c (op_modify (λ st : State, set_scopes
    (foldl (λ ss '(name, v), alter_local (<[name := v]>) child ss) (scopes st) bindings) st)).
Proof.
  apply Safe_modify. intros st Hi. apply Inv_set_scopes; [| |done].
  - generalize (scopes st). induction bindings as [|[name v] bindings IH]; intros ss; [done|].
    cbn. rewrite IH. apply alter_local_length.
  - pose proof (inv_scopes _ Hi) as Hss. revert Hss. generalize (scopes st).
    induction bindings as [|[name v] bindings IH]; intros ss Hss; [done|].
    cbn. apply IH. by apply scopes_ok_alter.
Qed.
Hint Resolve Safe_set_bindings : safe.
Lemma Safe_filters_hold_with K bindings filters : All E filters → Safe K c (filters_hold_with sem bindings filters).
Proof. intros. unfold filters_hold_with. safe. Qed.
Hint Resolve Safe_filters_hold_with : safe.
Lemma Safe_filterList K es filters : All E filters → ∀ out, Safe K c (filterList sem es filters out).
Proof. intros Hf. induction es; intros out; cbn [filterList]; safe. Qed.
Lemma Safe_filterRecord K fields filters : All E filters → ∀ out, Safe K c (filterRecord sem fields filters out).
Proof. intros Hf. induction fields as [|[]]; intros out; cbn [filterRecord]; safe. Qed.
Hint Resolve Safe_filterList Safe_filterRecord : safe.
Lemma Safe_filter_value K v filters : All E filters → Safe K c (filter_value sem v filters).
Proof. intros Hf. unfold filter_value. safe. Qed.
Hint Resolve Safe_filter_value : safe.
Lemma keySelectorExpr_within filters e : All E filters → keySelectorExpr filters = Some e → E e.
Proof.
  unfold keySelectorExpr. intros Hf He. destruct filters as [|x [|]]; try done.
  assert (x = e) as <-; [|apply Hf]. repeat case_match; congruence.
Qed.
Lemma Safe_evalBracketFilter K l filters : E l → All E filters → Safe K c (evalBracketFilter sem l filters).
Proof.
  intros Hl Hf. unfold evalBracketFilter. safe.
  apply HE. eapply keySelectorExpr_within; [done|]. by destruct (is_list _).
Qed.
Lemma Safe_stored_field K p : Safe K c (stored_field p).
Proof. unfold stored_field. safe. Qed.
Hint Resolve Safe_stored_field : safe.
Lemma Safe_projectFromStoragePath K base names : ∀ fields found, Safe K c (projectFromStoragePath base names fields found).
Proof. induction names; intros; cbn [projectFromStoragePath]; safe. Qed.
Hint Resolve Safe_projectFromStoragePath : safe.
Lemma Safe_evalProjectionExpression K l names : E l → Safe K c (evalProjectionExpression sem l names).
Proof. intros Hl. apply Safe_known; [done|]. intros v. unfold resolvePath. safe. Qed.
Hint Resolve Safe_evalBracketFilter Safe_evalProjectionExpression : safe.

(** *** Records and lists *)

Lemma Safe_field_key K e : E e → Safe K c (field_key sem e).
Proof.
  intros He. unfold field_key. safe. apply Safe_lift, no_error_Expression.
Qed.
Lemma Safe_field_value K m reset e : E reset → E e → Safe K c (field_value sem m reset e).
Proof. intros Hr He. unfold field_value. safe. Qed.
Hint Resolve Safe_field_key Safe_field_value : safe.
Lemma Safe_evalRecordExpression K nodes : All (of_field E) nodes → Safe K c (evalRecordExpression sem nodes).
Proof.
  unfold evalRecordExpression. generalize (@nil (bytes * any)).
  induction nodes as [|[key m reset e] nodes IH]; intros fields Hn'; cbn [record_fields]; [safe|].
  destruct Hn' as [(? & ? & ?) ?]. safe.
Qed.
Lemma Safe_evalListExpression K es : All E es → Safe K c (evalListExpression sem es).
Proof. intros. unfold evalListExpression. safe. Qed.
Lemma Safe_evalCollectionOperationExpression K object method args : E object → All E args →
  Safe K c (evalCollectionOperationExpression sem object method args).
Proof.
  intros Ho Ha. unfold evalCollectionOperationExpression. safe; apply Ha.
Qed.
Hint Resolve Safe_evalRecordExpression Safe_evalListExpression Safe_evalCollectionOperationExpression : safe.

(** *** Blocks and procedures *)

Lemma Safe_evalBlockStatement K body : of_body S_ body → Safe K c (evalBlockStatement sem body).
Proof.
  unfold evalBlockStatement, of_body. generalize (Val Nothing).
  induction (Statements body) as [|s ss IH]; intros r Hb; cbn [eval_statements]; [safe|].
  destruct Hb. safe.
Qed.
Lemma Safe_eval_body K body : if_some (of_body S_) body → Safe K c (eval_body sem body).
Proof. intros. destruct body; cbn in *; [by apply Safe_evalBlockStatement|safe]. Qed.
Hint Resolve Safe_evalBlockStatement Safe_eval_body : safe.

Lemma Inv_set_callDepth st d : Inv st → Inv (set_callDepth d st).
Proof. intros []. by split. Qed.
Lemma Safe_run_procedure K c' p args : c = S c' → if_some (within_body loops D) (pr_Body p) →
  (pr_Closure p < K)%nat → Safe K c' (run_procedure sem p args).
Proof.
  intros Hc Hb Hp. unfold run_procedure. safe.
  destruct (pr_Body p) as [body|]; [by apply HC|safe].
Qed.
Lemma Safe_Call K id args : Safe K c (Call sem id args).
Proof.
  intros st Hi HK Hc. unfold Call. apply outcome_bind; [by apply (Safe_gets K c)|].
  intros st1 found Hg _ Hk. injection Hg as <- <-. clear Hk.
  destruct (procs st !! id) as [p|] eqn:Hp; [|by apply (Safe_panic K c)].
  destruct (negb _); [by apply (Safe_ret K c)|].
  apply outcome_bind; [by apply (Safe_gets K c)|]. intros st1 depth Hg _ Hk. injection Hg as <- <-. clear Hk.
  destruct (Z.leb_spec MaxCallDepth (callDepth st)); [by apply (Safe_ret K c)|].
  destruct (inv_procs _ Hi id p Hp) as [Hb Hclosure]. unfold MaxCallDepth in *.
  assert (Ec : c = S (pred c)) by lia.
  pose proof (Safe_run_procedure (length (scopes st)) (pred c) p args Ec Hb Hclosure
    (set_callDepth (callDepth st + 1) st) (Inv_set_callDepth _ _ Hi)) as Hm.
  unfold mbind, op_bind, op_modify. cbn in Hm. specialize (Hm ltac:(lia)). unfold MaxCallDepth in Hm.
  specialize (Hm ltac:(lia)).
  destruct (run_procedure _ _ _ _) as [st1 [x|e|e]]; [|exact Hm..].
  destruct Hm as [Hi1 []]. split; [by apply Inv_set_callDepth|].
  split; cbn in *; auto; lia.
Qed.
Hint Resolve Safe_Call : safe.

Lemma Safe_new_procedure K name parameters body : if_some (of_body S_) body →
  Safe K c (new_procedure name parameters body).
Proof.
  intros Hb st [] _ _. unfold new_procedure. split; split; cbn; auto; [|by split].
  intros id p Hp. apply lookup_app_Some in Hp as [Hp|[_ Hp]]; [by eapply inv_procs0|].
  apply list_lookup_singleton_Some in Hp as [_ <-]. cbn. split; [|done].
  eapply if_some_impl; [|exact Hb]. intros body'. apply of_body_impl.
  intros s. by apply within_statement_mono.
Qed.
Lemma Safe_register_procedure K path id : Safe K c (register_procedure path id).
Proof. apply Safe_set_procedures. Qed.
Hint Resolve Safe_new_procedure Safe_register_procedure : safe.
Lemma Safe_evalProcedureStatement K name parameters body : of_body S_ body →
  Safe K c (evalProcedureStatement name parameters body).
Proof. intros. unfold evalProcedureStatement, bindingPathForProcedure. safe. Qed.
Lemma Safe_evalProcedureExpression K parameters body : if_some (of_body S_) body →
  Safe K c (evalProcedureExpression parameters body).
Proof. intros. unfold evalProcedureExpression. safe. Qed.
Lemma Safe_bindProcedureAtPath K parts id : Safe K c (bindProcedureAtPath parts id).
Proof. unfold bindProcedureAtPath. safe. Qed.
Hint Resolve Safe_evalProcedureStatement Safe_evalProcedureExpression Safe_bindProcedureAtPath : safe.

(** *** Watchers *)

Lemma Safe_resolveWatchedPaths K name paths : ∀ out, Safe K c (resolveWatchedPaths name paths out).
Proof. induction paths; intros out; cbn [resolveWatchedPaths]; unfold resolvePath in *; safe. Qed.
Hint Resolve Safe_resolveWatchedPaths : safe.
Lemma Safe_bindWatcherAtPath K path id : Safe K c (bindWatcherAtPath path id).
Proof. unfold bindWatcherAtPath. safe. apply Safe_lift, no_error_code. Qed.
Hint Resolve Safe_bindWatcherAtPath : safe.
Lemma Safe_evalWatchStatement K name isAppend paths filters bindingName body :
  Safe K c (evalWatchStatement name isAppend paths filters bindingName body).
Proof. unfold evalWatchStatement, bindingPathFor, resolvePath. safe. Qed.
Lemma Safe_evalWatchExpression K paths isAppend alias body :
  Safe K c (evalWatchExpression paths isAppend alias body).
Proof. unfold evalWatchExpression. safe. Qed.
Hint Resolve Safe_evalWatchStatement Safe_evalWatchExpression : safe.

(** *** Functions with effects *)

Lemma Safe_stage K p v : Safe K c (stage p v).
Proof. unfold stage, stageWrite. safe. Qed.
Hint Resolve Safe_stage : safe.
Lemma Safe_evalRandomFunction K args : Safe K c (evalRandomFunction args).
Proof. unfold evalRandomFunction. safe. Qed.
Lemma Safe_evalNowFunction K args : Safe K c (evalNowFunction args).
Proof. unfold evalNowFunction. safe. Qed.
Lemma Safe_evalUuidFunction K args : Safe K c (evalUuidFunction args).
Proof. unfold evalUuidFunction. safe. Qed.
Lemma Safe_evalParseJsonFunction K args : Safe K c (evalParseJsonFunction args).
Proof. unfold evalParseJsonFunction. safe. Qed.
Lemma Safe_evalToJsonFunction K args : Safe K c (evalToJsonFunction args).
Proof. unfold evalToJsonFunction. safe. Qed.
Lemma Safe_sendWebResponse K req code body headers : Safe K c (sendWebResponse req code body headers).
Proof. unfold sendWebResponse. safe. Qed.
Lemma Safe_stage_assets K domain files : ∀ found errors, Safe K c (stage_assets domain files found errors).
Proof. induction files as [|[e|[[]]] files IH]; intros; cbn [stage_assets]; safe. Qed.
Hint Resolve Safe_evalRandomFunction Safe_evalNowFunction Safe_evalUuidFunction Safe_evalParseJsonFunction
  Safe_evalToJsonFunction Safe_sendWebResponse Safe_stage_assets : safe.
Lemma Safe_evalDeployPwaFunction K args : Safe K c (evalDeployPwaFunction args).
Proof. unfold evalDeployPwaFunction. safe. Qed.
Hint Resolve Safe_evalDeployPwaFunction : safe.
Lemma Safe_evalComputerLibraryProcedure K path args : Safe K c (evalComputerLibraryProcedure path args).
Proof.
  unfold evalComputerLibraryProcedure, evalNetworkLibraryProcedure, evalNetworkWebProcedure. safe.
Qed.
Hint Resolve Safe_evalComputerLibraryProcedure : safe.

(** *** Calls and instances *)

Lemma Safe_set_reference K hash p : Safe K c (set_reference hash p).
Proof.
  intros st Hi HK Hc. unfold set_reference. destruct (referenceMap _) as [m|]; [|by cbn].
  apply (Safe_alter_scope K c scope (λ s, mkScope (local s) (parent s) (Some (<[hash:=p]> m)))); done.
Qed.
Hint Resolve Safe_set_reference : safe.
Lemma Safe_new_fields K base template fields : ∀ out, Safe K c (new_fields base template fields out).
Proof. induction fields as [|[]]; intros out; cbn [new_fields]; unfold resolvePath; safe. Qed.
Hint Resolve Safe_new_fields : safe.
Lemma Safe_evalNewFunction K args : All E args → Safe K c (evalNewFunction sem args).
Proof. intros Ha. unfold evalNewFunction. safe. apply HE, Ha. Qed.
Hint Resolve Safe_evalNewFunction : safe.

Lemma no_error_substring args : no_error (evalSubstringFunction args).
Proof. unfold evalSubstringFunction. by repeat case_match. Qed.
Lemma Safe_builtin K name args m : builtin name args = Some m → Safe K c m.
Proof.
  unfold builtin. intros Hm. cbv zeta in Hm.
  repeat (destruct (bool_decide _) in Hm; [injection Hm as <-; first [apply Safe_lift, no_error_substring|safe]|]).
  done.
Qed.
Hint Resolve Safe_builtin : safe.
Lemma Safe_call_procedure K name args : Safe K c (call_procedure sem name args).
Proof. unfold call_procedure. safe. Qed.
Hint Resolve Safe_call_procedure : safe.
Lemma Safe_evalCallExpression K f args : All E args → Safe K c (evalCallExpression sem f args).
Proof. intros Ha. unfold evalCallExpression. safe. Qed.
Hint Resolve Safe_evalCallExpression : safe.

(** The fields of a record literal that is evaluated in place. *)
Lemma E_fields tok nodes : E (RecordExpression tok nodes) → All (of_field E) nodes.
Proof.
  destruct n as [|m]; [done|]. cbn [within_expression]. apply All_impl.
  intros [] (? & ? & ?). cbn. split_and!; by apply (within_expression_mono loops m (S m)); [lia|].
Qed.
Lemma Safe_source_fields K source : of_source E source → Safe K c (source_fields sem source).
Proof.
  intros Hs. unfold source_fields. destruct source as [name|[]]; safe.
  apply Safe_evalRecordExpression. by eapply E_fields.
Qed.
Hint Resolve Safe_source_fields : safe.
Lemma no_error_inheritance fields : ∀ target m, no_error (applyInheritanceWithModifiers target fields m).
Proof.
  induction fields as [|[key v] fields IH]; intros target m; cbn [applyInheritanceWithModifiers]; [done|].
  apply no_error_bind.
  - destruct v; try done. case_match; [|done]. unfold effective_field. apply no_error_bind; [by repeat case_match|].
    intros []; [done|]. by repeat case_match.
  - intros [[x k]|]; [|done]. by case_match.
Qed.
Lemma Safe_inherit_sources K m sources : All (of_source E) sources → ∀ fields, Safe K c (inherit_sources sem m sources fields).
Proof.
  induction sources as [|source sources IH]; intros Hs fields; cbn [inherit_sources]; [safe|].
  destruct Hs. safe. apply Safe_lift, no_error_inheritance.
Qed.
Hint Resolve Safe_inherit_sources : safe.
Lemma Safe_evalInstantiationStatement K type m sources properties : All (of_source E) sources → E properties →
  Safe K c (evalInstantiationStatement sem type m sources properties).
Proof.
  intros Hs Hp. unfold evalInstantiationStatement. safe.
  apply Safe_evalRecordExpression. by eapply E_fields.
Qed.
Hint Resolve Safe_evalInstantiationStatement : safe.

(** *** Assignment *)

Lemma Safe_ensure_segments K path counts : Safe K c (ensure_segments counts path).
Proof. induction counts; cbn [ensure_segments]; safe. Qed.
Lemma Safe_stage_field K path name v : Safe K c (stage_field path name v).
Proof. unfold stage_field. safe. Qed.
Hint Resolve Safe_ensure_segments Safe_stage_field : safe.
Lemma Safe_expand_value K v : ∀ path name, Safe K c (expand_value path name v).
Proof.
  pattern v. revert v. apply any_nested_ind; [intros v|intros es _|intros fs IH]; cbv beta.
  - destruct v; try exact I; intros; apply Safe_stage_field.
  - intros. apply Safe_stage_field.
  - intros path name. cbn [expand_value]. generalize (path ++ [name]). clear path name. intros path.
    induction IH as [|[name x] fs Hx _ IHf]; safe.
Qed.
Hint Resolve Safe_expand_value : safe.
Lemma Safe_expandRecordToStorage K path fields : Safe K c (expandRecordToStorage path fields).
Proof. induction fields as [|[]]; cbn [expandRecordToStorage]; safe. Qed.
Hint Resolve Safe_expandRecordToStorage : safe.
Lemma Safe_assign_path K parts m v : Safe K c (assign_path parts m v).
Proof. unfold assign_path, stage_modifier, ensureIntermediatePath, resolvePath. safe. Qed.
Hint Resolve Safe_assign_path : safe.
Lemma Safe_assign K parts m v : Safe K c (assign parts m v).
Proof. unfold assign, assign_name, stageWrite, resolvePath. safe. Qed.
Hint Resolve Safe_assign : safe.
Lemma Safe_evalAssignment K name value m : E name → E value → Safe K c (evalAssignment sem name value m).
Proof. intros. unfold evalAssignment. safe. Qed.
Hint Resolve Safe_evalAssignment : safe.

(** *** Statements *)

Lemma Safe_evalCatchStatement K body clauses : of_body S_ body → All (of_else (of_body S_)) clauses →
  Safe K c (evalCatchStatement sem body clauses).
Proof.
  intros Hb Hc. unfold evalCatchStatement. safe.
  apply list_find_Some in Heqo as [Hl _]. apply list_elem_of_lookup_2 in Hl.
  apply Safe_eval_body. exact (All_elem _ _ _ Hc Hl).
Qed.
Lemma Safe_evalScopeStatement K path body : if_some (of_body S_) body → Safe K c (evalScopeStatement sem path body).
Proof.
  intros Hb. unfold evalScopeStatement, resolveAbsolutePath. safe.
Qed.
Lemma Inv_set_quietDepth st d : Inv st → Inv (set_quietDepth d st).
Proof. intros []. by split. Qed.
Lemma Safe_evalQuietlyBlock K body : of_body S_ body → Safe K c (evalQuietlyBlock sem body).
Proof.
  intros Hb st Hi HK Hc.
  pose proof (Safe_evalBlockStatement K body Hb _ (Inv_set_quietDepth st (quietDepth st + 1) Hi) HK Hc) as Hm.
  unfold evalQuietlyBlock, mbind, op_bind, op_modify.
  destruct (evalBlockStatement _ _ _) as [st1 [x|e|e]]; [|exact Hm..].
  destruct Hm as [Hi1 []]. split; [by apply Inv_set_quietDepth|]. split; cbn in *; auto; lia.
Qed.
Lemma Safe_evalIfStatement K condition consequence alternative : E condition →
  if_some (of_body S_) consequence → S_ alternative → Safe K c (evalIfStatement sem condition consequence alternative).
Proof. intros. unfold evalIfStatement. safe. Qed.

(** The flushes of a loop. *)
Lemma Safe_from_tree_loops {A} K (m : Op T A) : loops = true → Safe K c (op_try (from_tree m)).
Proof.
  intros Hl st [] _ _. unfold op_try, from_tree, op_zoom.
  assert (Hu : ∀ st', untouched st st') by (intros st'; unfold untouched; by rewrite Hl).
  destruct (m (tree st)) as [t [a|e|e]]; [..|apply Hu]; (split; [by split|by split]).
Qed.
Lemma Safe_announce K w : loops = true → Safe K c (announce w).
Proof.
  intros Hl. apply Safe_modify. intros st []. split; split; cbn; auto. unfold untouched. by rewrite Hl.
Qed.
Lemma Safe_writeReportingChange K w : loops = true → Safe K c (writeReportingChange w).
Proof.
  intros Hl st Hi HK Hc. unfold writeReportingChange. destruct (ext_Now (world st)) as [clock now].
  assert (Inv (set_world clock st) ∧ kept st (set_world clock st)) as [Hi1 Hk].
  { destruct Hi. split; split; cbn; auto. by split. }
  eapply outcome_after; [exact Hk|]. by apply (Safe_from_tree_loops K).
Qed.
Hint Resolve Safe_announce Safe_writeReportingChange : safe.
Lemma Safe_flush_writes K ws : loops = true → Safe K c (flush_writes ws).
Proof. intros Hl. induction ws; cbn [flush_writes]; safe. Qed.
Lemma Safe_announce_all K ws : loops = true → Safe K c (announce_all ws).
Proof. intros Hl. induction ws; cbn [announce_all]; safe. Qed.
Lemma Safe_set_coordinator K cc : loops = true → Safe K c (op_modify (set_coordinator cc)).
Proof.
  intros Hl. apply Safe_modify. intros st []. split; split; cbn; auto. unfold untouched. by rewrite Hl.
Qed.
Hint Resolve Safe_flush_writes Safe_announce_all Safe_set_coordinator : safe.
Lemma Safe_flushBuffer K : loops = true → Safe K c flushBuffer.
Proof. intros Hl. unfold flushBuffer, flushBufferDirect. safe. Qed.
Hint Resolve Safe_flushBuffer : safe.
Lemma Safe_flush_if_large K due : loops = true → Safe K c (flush_if_large due).
Proof. intros Hl. unfold flush_if_large. safe. Qed.
Hint Resolve Safe_flush_if_large : safe.

Lemma Safe_while_loop K condition body turns : loops = true → E condition → of_body S_ body →
  ∀ i, Safe K c (while_loop sem turns i condition body).
Proof. intros Hl He Hb. induction turns; intros i; cbn [while_loop]; safe. Qed.
Lemma Safe_for_loop K variables body es : loops = true → of_body S_ body →
  ∀ i r, Safe K c (for_loop sem es i variables body r).
Proof. intros Hl Hb. induction es as [|x es IH]; intros i r; cbn [for_loop]; safe. Qed.
Hint Resolve Safe_for_loop : safe.
Lemma Safe_evalForStatement K variables iterable body : loops = true → E iterable → of_body S_ body →
  Safe K c (evalForStatement sem variables iterable body).
Proof. intros Hl He Hb. unfold evalForStatement. safe. Qed.
Lemma Safe_consider_cases K v cases d : All (of_case E (of_body S_)) cases → if_some (of_body S_) d →
  Safe K c (consider_cases sem v cases d).
Proof.
  intros Hc Hd. induction cases as [|[tok value body] cases IH]; cbn [consider_cases]; [destruct d; safe|].
  destruct Hc as [[]]. safe.
Qed.
Lemma Safe_evalDefinitionStatement K name value : E name → E value → Safe K c (evalDefinitionStatement sem name value).
Proof. intros Hn' Hv. unfold evalDefinitionStatement, bindingPathForProcedure, resolvePath. safe. Qed.
Hint Resolve Safe_evalCatchStatement Safe_evalScopeStatement Safe_evalQuietlyBlock Safe_evalIfStatement Safe_while_loop
  Safe_evalForStatement Safe_consider_cases Safe_evalDefinitionStatement : safe.

Lemma Safe_eval_statement K s : within_statement loops (S n) s → Safe K c (eval_statement sem s).
Proof.
  destruct s; cbn [within_statement]; intros Hs; destruct_and?; cbn [eval_statement];
    unfold as_value, evalWhileStatement, evalConsiderStatement, evalReturnStatement,
      evalEmbedDirectiveStatement; safe.
Qed.
Lemma Safe_eval_expression K e : within_expression loops (S n) e → Safe K c (eval_expression sem e).
Proof.
  destruct e; cbn [within_expression]; intros He; destruct_and?; cbn [eval_expression]; safe.
Qed.
End Methods.

(** ** The recursion tied

    A level for each node, and for each call that can still be made those of a
    procedure's body and one for the call. *)

Theorem Safe_level k : ∀ n c K, (n ≤ D)%nat → (n + c * S D ≤ k)%nat →
  (∀ e, within_expression loops n e → Safe K c (sem_expression (level k) e)) ∧
  (∀ s, within_statement loops n s → Safe K c (sem_statement (level k) s)).
Proof.
  induction k as [|k IH]; intros n c K Hn Hk; (destruct n as [|n]; [by split|]); [lia|].
  assert (Hsub : ∀ K, (∀ e, within_expression loops n e → Safe K c (sem_expression (level k) e)) ∧
    (∀ s, within_statement loops n s → Safe K c (sem_statement (level k) s))) by (intros; apply IH; lia).
  assert (Hcall : ∀ K c' body, c = S c' → within_body loops D body → Safe K c' (evalBlockStatement (level k) body)).
  { intros K' c' body -> Hb.
    apply (Safe_evalBlockStatement _ D c'); [|done]. intros K'' s. apply IH; lia. }
  cbn [level]; split; cbn [sem_expression sem_statement].
  - intros e He. apply (Safe_eval_expression _ n c); first [by intros; apply Hsub|lia|done].
  - intros s Hs. apply (Safe_eval_statement _ n c); first [by intros; apply Hsub|lia|done].
Qed.
End Safe.
