(* ===== verification/MblEvalTotal.v ===== *)
(** * Every program ends

    The consequences of [MblSafe]: the interpreter ends on every program, keeps
    its invariant, and changes nothing of the database when a program without
    loops fails. *)
From stdpp Require Import gmap.
From S2P Require Import Prelude Utf8 GoTime GoFloat ValueCodec HashIndex StorageTree MblTokens MblLexer MblValue MblCompare MblCoerce MblAst MblParserTotal MblWithin MblState MblBuiltins MblLibrary MblEval MblRun MblSafe.

Section Total.
Context {T W : Type} `{Tree T} `{External W} `{GoLib}.
Local Abbreviation State := (Interpreter T W).
Implicit Types st : State.

(** The fuel for programs of [D] levels: those of the program, and for each of the
    calls that can be nested those of a procedure's body and one for the call. *)
Definition program_fuel (D : nat) : nat := (D + Z.to_nat MaxCallDepth * S D)%nat.

Lemma Safe_run_statements loops D R `{!PreOrder R} (sem : Sem T W) K c ss :
  (∀ s, within_statement loops D s → Safe loops D R K c (sem_statement sem s)) →
  All (within_statement loops D) ss → ∀ v, Safe loops D R K c (run_statements sem ss v).
Proof.
  intros HS Hss. induction ss as [|s ss IH]; intros v; cbn [run_statements]; [by apply Safe_ret|].
  destruct Hss as [Hs Hss]. apply Safe_bind; [done|by apply HS|].
  intros []; [by apply IH|by apply Safe_ret].
Qed.

(** Nothing is said of the database. *)
Definition any_tree (_ _ : T) : Prop := True.
#[export] Instance any_tree_preorder : PreOrder any_tree.
Proof. by split. Qed.

Lemma Safe_conclude D K c v : Safe true D any_tree K c (conclude v).
Proof.
  unfold conclude. destruct (match v with Unknown reason => _ | _ => _ end).
  - apply Safe_bind; [apply _|by apply Safe_discardBuffer|intros; by apply Safe_ret].
  - apply Safe_bind; [apply _|by apply Safe_flushBuffer|intros; by apply Safe_ret].
Qed.
Lemma Safe_Interpret D fuel program K c : c = Z.to_nat MaxCallDepth → within_program true D program →
  (program_fuel D ≤ fuel)%nat → Safe true D any_tree K c (Interpret fuel program).
Proof.
  intros -> Hp Hf. unfold Interpret. apply Safe_bind; [apply _| |intros; apply Safe_conclude].
  apply Safe_run_statements; [apply _| |done]. intros s.
  apply (Safe_level true D any_tree); [done..|exact Hf].
Qed.

(** The state of an interpreter that has run programs of [D] levels. *)
Definition sound (D : nat) st : Prop := Inv true D st ∧ 0 ≤ callDepth st.

Lemma New_Inv loops D t w agent c registrar : Inv loops D (New (T:=T) (W:=W) t w agent c registrar).
Proof.
  split; cbn; try done; [|lia]. intros [|i] s p Hs Hp; [by injection Hs as <-|done].
Qed.
Lemma New_sound D t w agent c registrar : sound D (New t w agent c registrar).
Proof. split; [apply New_Inv|done]. Qed.
Lemma Inv_mono loops D D' st : (D ≤ D')%nat → Inv loops D st → Inv loops D' st.
Proof.
  intros HD []. split; auto. intros id p Hp. destruct (inv_procs id p Hp) as [Hb ?]. split; [|done].
  eapply if_some_impl; [|exact Hb]. intros body. apply of_body_impl.
  intros s. by apply within_statement_mono.
Qed.

Lemma Interpret_ends D program st fuel : within_program true D program → sound D st →
  (program_fuel D ≤ fuel)%nat → ∀ e, (Interpret fuel program st).2 ≠ Err e.
Proof.
  intros Hp [Hi Hd] Hf e He.
  pose proof (Safe_Interpret D fuel program 0 _ eq_refl Hp Hf st Hi ltac:(lia) ltac:(lia)) as Hs.
  by destruct (Interpret fuel program st) as [st' [v|e'|e']].
Qed.


End Total.

(** ** Programs that fail *)

Section Rollback.
Context {T W : Type} `{Tree T} `{External W} `{GoLib}.
Variables (R : T → T → Prop).
Context `{!PreOrder R} (keeps_Read : ∀ p, keeps R (tree_Read p)) (keeps_ReadAt : ∀ p t, keeps R (tree_ReadAt p t))
  (keeps_Children : ∀ p, keeps R (tree_ChildrenWithNames p)).

Lemma conclude_rollback (st : Interpreter T W) reason : shouldRollback reason = true →
  conclude (Unknown reason) st = (set_writes [] st, Ok (Unknown reason)).
Proof. intros Hr. unfold conclude. by rewrite Hr. Qed.

(** The statements of a program without loops leave the database alone. *)
Lemma run_statements_untouched D (st : Interpreter T W) ss fuel v :
  All (within_statement false D) ss → Inv false D st → 0 ≤ callDepth st → (program_fuel D ≤ fuel)%nat →
  outcome false D R st (run_statements (level fuel) ss v st).
Proof.
  intros Hss Hi Hd Hf.
  apply (Safe_run_statements false D R (level fuel) 0 (Z.to_nat MaxCallDepth)); [|done..|lia|lia].
  intros s. apply (Safe_level false D R); done.
Qed.
Lemma starts_with_app s k : starts_with (s ++ k) s = true.
Proof. unfold starts_with. rewrite take_app_length. by apply bool_decide_eq_true. Qed.
(** Only a flush that fails says so. *)
Lemma conclude_fails v reason (st st' : Interpreter T W) : conclude v st = (st', Ok (Unknown reason)) →
  shouldRollback reason = true → starts_with reason (b "commit failed: ") = false →
  v = Unknown reason ∧ st' = set_writes [] st.
Proof.
  intros Hc Hr Hs.
  unfold conclude in Hc. destruct (match v with Unknown reason => _ | _ => _ end) eqn:Ev.
  { cbn in Hc. by injection Hc as <- ->. }
  assert (Hv : v ≠ Unknown reason) by (intros ->; congruence).
  unfold mbind, op_bind in Hc. destruct (flushBuffer st) as [st1 [[e|]|e|e]]; cbv beta iota delta [mret op_ret] in Hc; [|by injection Hc as _ ->|done..].
  assert (reason = b "commit failed: " ++ e) as -> by congruence. by rewrite starts_with_app in Hs.
Qed.
Lemma Interpret_rollback D (st st' : Interpreter T W) program fuel reason :
  within_program false D program → Inv false D st → 0 ≤ callDepth st → (program_fuel D ≤ fuel)%nat →
  Interpret fuel program st = (st', Ok (Unknown reason)) →
  shouldRollback reason = true → starts_with reason (b "commit failed: ") = false →
  R (tree st) (tree st') ∧ coordinator st' = coordinator st ∧ changedPaths st' = changedPaths st ∧
  writes st' = [].
Proof.
  intros Hp Hi Hd Hf Hr Hroll Hs.
  pose proof (run_statements_untouched D st (pr_statements program) fuel Nothing Hp Hi Hd Hf) as Ho.
  unfold Interpret, mbind, op_bind in Hr.
  destruct (run_statements _ _ _ _) as [st1 [v|e|e]]; [|done..].
  apply conclude_fails in Hr as [_ ->]; [|done..].
  destruct Ho as [_ [_ _ _ _ _ Hu]]. destruct (Hu eq_refl) as (? & ? & ?). by split_and!.
Qed.
End Rollback.

(** *** On [StorageTree]

    Reads of the database may write the value of a path they look up, but no
    version. *)

Section Versions.
Context {I : Type} `{LabelIndex I}.

(** The same attributes, with the same chains of versions. *)
Definition same_versions (t t' : StorageTree I) : Prop :=
  instanceStore t' = instanceStore t ∧ attributeStore t' = attributeStore t ∧ hashIndex t' = hashIndex t.
#[export] Instance same_versions_preorder : PreOrder same_versions.
Proof. split; [done|]. intros t1 t2 t3 (? & ? & ?) (? & ? & ?). by split_and!; etrans. Qed.

Lemma keeps_bind {A B} (m : Op (StorageTree I) A) (f : A → Op (StorageTree I) B) :
  keeps same_versions m → (∀ a, keeps same_versions (f a)) → keeps same_versions (m ≫= f).
Proof.
  intros Hm Hf t. specialize (Hm t). unfold mbind, op_bind.
  destruct (m t) as [t1 [a|e|e]]; [|done..]. transitivity t1; [exact Hm|apply Hf].
Qed.
Lemma keeps_wrap {A} ctx (m : Op (StorageTree I) A) : keeps same_versions m → keeps same_versions (op_wrap ctx m).
Proof. intros Hm t. specialize (Hm t). unfold op_wrap. by destruct (m t). Qed.
Lemma keeps_try {A} (m : Op (StorageTree I) A) : keeps same_versions m → keeps same_versions (op_try m).
Proof. intros Hm t. specialize (Hm t). unfold op_try. by destruct (m t) as [? []]. Qed.
Lemma keeps_values {A} (m : Op ValueStore.ValueStore A) : keeps same_versions (on_values m).
Proof. intros t. unfold on_values, op_zoom. by destruct (m _). Qed.
Lemma keeps_same {A} (m : Op (StorageTree I) A) : (∀ t, (m t).1 = t) → keeps same_versions m.
Proof. intros Hm t. by rewrite Hm. Qed.

Lemma keeps_attribute_of p : keeps same_versions (attribute_of p).
Proof.
  unfold attribute_of. destruct p as [|c p]; [by apply keeps_same|].
  apply keeps_bind; [apply keeps_wrap|intros; case_match; by apply keeps_same].
  unfold findAttributeForPath. apply keeps_bind; [apply keeps_try|intros; by repeat case_match].
  intros t. unfold findValueIDForString. case_match; [done|]. apply (keeps_wrap _ _ (keeps_values _)).
Qed.
Lemma keeps_instance_value id : keeps same_versions (instance_value id).
Proof. apply keeps_bind; [by apply keeps_same|]. intros i. apply keeps_wrap, keeps_values. Qed.
Lemma keeps_tree_Read p : keeps same_versions (StorageTree.Read p).
Proof.
  apply keeps_bind; [apply keeps_attribute_of|]. intros a.
  case_match; [by apply keeps_same|apply keeps_instance_value].
Qed.
Lemma keeps_ReadAt fuel p t st : match StorageTree.ReadAt fuel p t st with
  | Some (st', _) => same_versions st st'
  | None => True
  end.
Proof.
  unfold StorageTree.ReadAt. pose proof (keeps_attribute_of p st) as Ha.
  destruct (attribute_of p st) as [st1 [a|e|e]]; cbn in Ha; [|done..].
  destruct (_ =? 0); [exact Ha|]. destruct (InstanceStore.FindInstanceAtTime _ _ _ _) as [r|]; [|done].
  match goal with |- match ?m st1 with _ => _ end =>
    assert (keeps same_versions m) as Hm; [|specialize (Hm st1); destruct (m st1); by transitivity st1] end.
  apply keeps_bind; [by apply keeps_same|]. intros id.
  case_match; [by apply keeps_same|apply keeps_instance_value].
Qed.

Lemma fold_same_versions {A B} (f : StorageTree I * B → A → StorageTree I * B) :
  (∀ t acc x, same_versions t (f (t, acc) x).1) → ∀ l t acc, same_versions t (fold_left f l (t, acc)).1.
Proof.
  intros Hf l. induction l as [|x l IH]; intros t acc; [done|]. cbn.
  specialize (Hf t acc x). destruct (f (t, acc) x) as [t1 acc1]. transitivity t1; [done|apply IH].
Qed.
Lemma child_step_same prefix id t acc : same_versions t (child_step prefix id (t, acc)).1.
Proof.
  unfold child_step. destruct acc as [seen children]. case_match; [|done..].
  pose proof (keeps_values (ValueStore.ReadValue (AttributeStore.LabelValueID a)) t) as Hv.
  destruct (on_values _ t) as [t1 pv]. cbn in Hv. destruct pv; [|done..].
  case_match; [|done]. case_match; [done|].
  pose proof (keeps_values (ValueStore.WriteValue (text (before_dot (drop (length prefix) (Data a0))))) t1) as Hw.
  destruct (on_values _ t1) as [t2 cv]. cbn in Hw.
  destruct cv; cbn; by transitivity t1.
Qed.
Lemma ChildrenWithNames_same p t : same_versions t (StorageTree.ChildrenWithNames p t).1.
Proof.
  unfold StorageTree.ChildrenWithNames. destruct p as [|c p].
  - apply fold_same_versions. intros t1 acc a. cbn.
    pose proof (keeps_values (ValueStore.ReadValue (AttributeStore.LabelValueID a)) t1) as Hv.
    by destruct (on_values _ t1).
  - unfold findChildrenByPrefixNamed.
    pose proof (fold_same_versions (λ acc id, child_step (join_path (c :: p) ++ [dot]) id acc)
      (λ t acc id, child_step_same _ id t acc) (attribute_ids t) t ([], [])) as Hf.
    by destruct (fold_left _ _ _) as [t' [seen children]].
Qed.
End Versions.


(** ** Programs run *)

(** The program of a source. *)
Definition program_of (ls : list string) : Program :=
  match (MblParser.parse IsLetter Quote ParseFloat FormatFloat (lines ls)).2 with
  | Ok program => program
  | _ => mkProgram (mkToken EOF [] 0 0 0) []
  end.

Definition recursive_program : Program :=
  Eval vm_compute in program_of ["procedure f(x):"; "    if x < 1: return 0"; "    return f(x - 1)"; "my.y = f(3)"].

Definition failing_program : Program :=
  Eval vm_compute in program_of ["my.x = 5"; "my.y = my.x"; "f(my.y)"].
