(* ===== verification/MblCommit.v ===== *)
(** * The commit of a program's writes

    A program stages its writes in the commit buffer; when it ends they are
    applied to the database in the order they were staged.  On [StorageTree] this
    pushes the versions of the writes, one after another, onto the histories of
    their paths (see [StorageTree.push]). *)
From stdpp Require Import gmap.
From S2P Require Import Prelude Utf8 GoTime GoFloat ValueCodec ValueStore HashIndex StorageTree MblTokens MblValue MblAst MblState MblBuiltins MblLibrary MblEval MblRun.

Section Commit.
Context {W : Type} `{External W} `{GoLib}.
Local Abbreviation State := (Interpreter (StorageTree HashIndex.HashIndex) W).
Context (P : Value → Prop) (P_inj : ∀ v w, P v → P w → hashValue v = hashValue w → v = w).

(** The histories after writes at the readings of a clock, and the paths announced
    as changed: those of writes that changed something and are not quiet. *)
Fixpoint committed (arrays : list (list bytes)) (clock : W) (ws : list PendingWrite) (h : histories)
    (changed : list (list bytes)) : W * histories * list (list bytes) :=
  match ws with
  | [] => (clock, h, changed)
  | w :: ws =>
      let '(clock, now) := ext_Now clock in
      let p := segments arrays (pw_path w) in
      let '(h, pushed) := push (UnixMicro now) p (pw_value w) (pw_author w) h in
      committed arrays clock ws h (if pushed && negb (pw_quiet w) then changed ++ [p] else changed)
  end.

(** A write that [StorageTree] accepts, and the room it takes in the files. *)
Definition write_ok (arrays : list (list bytes)) (w : PendingWrite) : Prop :=
  let p := segments arrays (pw_path w) in
  p ≠ [] ∧ path_ok P p ∧ P (pw_value w) ∧ value_ok (pw_value w) ∧ is_u64 (pw_author w).
Definition writes_cost (arrays : list (list bytes)) (ws : list PendingWrite) : Z :=
  foldr (λ w k, write_cost (segments arrays (pw_path w)) (pw_value w) + k) 0 ws.

Lemma write_cost_nonneg p v : 0 ≤ write_cost p v.
Proof. apply (top_cost_nonneg (TWrite 0 p v 0)). Qed.
Lemma writes_cost_nonneg arrays ws : 0 ≤ writes_cost arrays ws.
Proof.
  unfold writes_cost. induction ws as [|w ws IH]; cbn [foldr]; [lia|].
  pose proof (write_cost_nonneg (segments arrays (pw_path w)) (pw_value w)). lia.
Qed.

(** One write applied. *)
Lemma writeReportingChange_step (st : State) w k h : write_ok (arrays st) w → 0 ≤ k →
  tree_rep P (write_cost (segments (arrays st) (pw_path w)) (pw_value w) + k) (tree st) h →
  let '(clock, now) := ext_Now (world st) in
  let '(h', pushed) := push (UnixMicro now) (segments (arrays st) (pw_path w)) (pw_value w) (pw_author w) h in
  ∃ t, writeReportingChange w st = (set_tree t (set_world clock st), Ok (Ok pushed)) ∧ tree_rep P k t h'.
Proof.
  intros (Hp & Hok & HP & Hv & Ha) Hk Hrep. unfold writeReportingChange.
  destruct (ext_Now (world st)) as [clock now].
  destruct (Write_step P P_inj (tree st) k (UnixMicro now) _ _ _ h Hp Hok HP Hv (i64_range _) Ha Hk Hrep)
    as (t & Hw & Ht).
  destruct (push _ _ _ _ h) as [h' pushed]. exists t. split; [|exact Ht].
  apply op_try_ok. unfold from_tree. apply op_zoom_ok. exact Hw.
Qed.

Lemma flush_writes_step ws : ∀ (st : State) k h, Forall (write_ok (arrays st)) ws → 0 ≤ k →
  tree_rep P (writes_cost (arrays st) ws + k) (tree st) h →
  let '(clock, h', changed) := committed (arrays st) (world st) ws h (changedPaths st) in
  ∃ st', flush_writes ws st = (st', Ok None) ∧ tree_rep P k (tree st') h' ∧ world st' = clock ∧
    changedPaths st' = changed ∧ writes st' = [].
Proof.
  induction ws as [|w ws IH]; intros st k h Hws Hk Hrep; cbn [committed flush_writes].
  { eexists. split; [reflexivity|]. done. }
  apply Forall_cons_1 in Hws as [Hw Hws]. pose proof (writes_cost_nonneg (arrays st) ws) as Hc.
  pose proof (writeReportingChange_step st w (writes_cost (arrays st) ws + k) h Hw ltac:(lia)) as Hstep.
  rewrite Z.add_assoc in Hstep. specialize (Hstep Hrep).
  destruct (ext_Now (world st)) as [clock now]. destruct (push _ _ _ _ h) as [h1 pushed] eqn:Ep.
  destruct Hstep as (t & Hw1 & Ht). erewrite op_bind_ok by exact Hw1. cbv beta iota.
  set (st1 := set_tree t (set_world clock st)).
  destruct (pushed && negb (pw_quiet w)).
  - specialize (IH (set_changedPaths (changedPaths st ++ [segments (arrays st) (pw_path w)]) st1) k h1 Hws Hk Ht).
    cbn [arrays world changedPaths set_changedPaths st1 set_tree set_world] in IH.
    by erewrite op_bind_ok by reflexivity.
  - specialize (IH st1 k h1 Hws Hk Ht). cbn [arrays world changedPaths st1 set_tree set_world] in IH.
    by erewrite op_bind_ok by reflexivity.
Qed.

(** A program that ends well, with no coordinator. *)
Lemma conclude_commits (st : State) k h r : match r with Unknown reason => shouldRollback reason | _ => false end = false →
  coordinator st = None → Forall (write_ok (arrays st)) (writes st) → 0 ≤ k →
  tree_rep P (writes_cost (arrays st) (writes st) + k) (tree st) h →
  let '(clock, h', changed) := committed (arrays st) (world st) (writes st) h (changedPaths st) in
  ∃ st', conclude r st = (st', Ok r) ∧ tree_rep P k (tree st') h' ∧ world st' = clock ∧
    changedPaths st' = changed ∧ writes st' = [].
Proof.
  intros Hr Hc Hws Hk Hrep.
  pose proof (flush_writes_step (writes st) st k h Hws Hk Hrep) as Hf.
  destruct (committed _ _ _ _ _) as [[clock h'] changed] eqn:Ecommitted.
  assert (He : ∃ st', flushBuffer st = (st', Ok None) ∧ tree_rep P k (tree st') h' ∧ world st' = clock ∧
    changedPaths st' = changed ∧ writes st' = []).
  { unfold flushBuffer. erewrite op_bind_ok by reflexivity. destruct (writes st) as [|w ws] eqn:Ew.
    - cbn in Ecommitted. injection Ecommitted as <- <- <-. by exists st.
    - rewrite bool_decide_eq_false_2 by done. erewrite op_bind_ok by reflexivity. rewrite Hc.
      unfold flushBufferDirect. erewrite op_bind_ok by reflexivity. by rewrite Ew. }
  destruct He as (st' & He & Hrest). exists st'. split; [|exact Hrest].
  unfold conclude. rewrite Hr. by erewrite op_bind_ok by exact He.
Qed.

(** The value staged last for a path. *)
Definition last_staged (arrays : list (list bytes)) (s : list byte) (ws : list PendingWrite) : option Value :=
  pw_value <$> last (filter (λ w, join_path (segments arrays (pw_path w)) = s) ws).

Lemma last_staged_cons arrays s w ws : last_staged arrays s (w :: ws) =
  match last_staged arrays s ws with
  | Some v => Some v
  | None => if decide (join_path (segments arrays (pw_path w)) = s) then Some (pw_value w) else None
  end.
Proof.
  unfold last_staged. rewrite filter_cons. destruct (decide _); [|by destruct (last _)].
  rewrite last_cons. by destruct (last _).
Qed.

(** The newest value of a path is the one pushed, on its own path only. *)
Lemma push_head now p v author h s : v_value <$> head ((push now p v author h).1 s) =
  if decide (join_path p = s) then Some v else v_value <$> head (h s).
Proof.
  unfold push. case_bool_decide as Hh; cbn.
  - case_decide as Hs; [by subst s|done].
  - destruct (decide (s = join_path p)); destruct (decide (join_path p = s)); congruence || done.
Qed.
Lemma committed_head arrays ws s : ∀ clock h changed,
  v_value <$> head ((committed arrays clock ws h changed).1.2 s) =
  match last_staged arrays s ws with Some v => Some v | None => v_value <$> head (h s) end.
Proof.
  induction ws as [|w ws IH]; intros clock h changed; [done|]. cbn [committed].
  destruct (ext_Now clock) as [clock' now].
  pose proof (push_head (UnixMicro now) (segments arrays (pw_path w)) (pw_value w) (pw_author w) h s) as Hh.
  destruct (push _ _ _ _ h) as [h1 pushed]. cbn in Hh. rewrite IH, last_staged_cons.
  destruct (last_staged arrays s ws); [done|]. rewrite Hh. by case_decide.
Qed.
Lemma committed_elsewhere arrays ws s : (∀ w, w ∈ ws → join_path (segments arrays (pw_path w)) ≠ s) →
  ∀ clock h changed, (committed arrays clock ws h changed).1.2 s = h s.
Proof.
  induction ws as [|w ws IH]; intros Hs clock h changed; [done|]. cbn [committed].
  destruct (ext_Now clock) as [clock' now].
  assert (Hne : join_path (segments arrays (pw_path w)) ≠ s) by (apply Hs; by left).
  assert (Hp : (push (UnixMicro now) (segments arrays (pw_path w)) (pw_value w) (pw_author w) h).1 s = h s).
  { unfold push. case_bool_decide; [done|]. cbn. destruct (decide _); congruence. }
  destruct (push _ _ _ _ h) as [h1 pushed]. cbn in Hp. rewrite IH; [exact Hp|].
  intros w' Hw'. apply Hs. by right.
Qed.
End Commit.

(** C12: A program that does not fail commits its writes: they are applied to
    [StorageTree] in the order they were staged, each pushing a version with the
    clock's reading and its author onto the history of its path, the paths whose
    value changed by a write that is not quiet are announced, in that order,
    and the buffer is empty.  The histories of all other paths are untouched. *)
Theorem commit_pushes_the_writes {W} `{External W} `{GoLib} (P : Value → Prop)
    (st : Interpreter (StorageTree HashIndex.HashIndex) W) h r :
  (∀ v w, P v → P w → hashValue v = hashValue w → v = w) →
  match r with Unknown reason => shouldRollback reason | _ => false end = false →
  coordinator st = None → Forall (write_ok P (arrays st)) (writes st) →
  tree_rep P (writes_cost (arrays st) (writes st)) (tree st) h →
  let '(clock, h', changed) := committed (arrays st) (world st) (writes st) h (changedPaths st) in
  (∃ st', conclude r st = (st', Ok r) ∧ tree_rep P 0 (tree st') h' ∧ world st' = clock ∧
    changedPaths st' = changed ∧ writes st' = []) ∧
  ∀ s, (∀ w, w ∈ writes st → join_path (segments (arrays st) (pw_path w)) ≠ s) → h' s = h s.
Proof.
  intros HP Hr Hc Hws Hrep.
  pose proof (conclude_commits P HP st 0 h r Hr Hc Hws ltac:(lia)) as Hcommit. rewrite Z.add_0_r in Hcommit.
  pose proof (λ s Hs, committed_elsewhere (arrays st) (writes st) s Hs (world st) h (changedPaths st)) as Hel.
  destruct (committed _ _ _ _ _) as [[clock h'] changed]. split; [by apply Hcommit|done].
Qed.

(** C13: Every write of a program that does not fail reaches the database: once the
    program has ended, reading a path gives the value staged last for it, and the
    value it had before if none was staged. *)
Theorem committed_writes_are_read {W} `{External W} `{GoLib} (P : Value → Prop)
    (st : Interpreter (StorageTree HashIndex.HashIndex) W) h r p :
  (∀ v w, P v → P w → hashValue v = hashValue w → v = w) →
  match r with Unknown reason => shouldRollback reason | _ => false end = false →
  coordinator st = None → Forall (write_ok P (arrays st)) (writes st) → p ≠ [] → path_ok P p →
  tree_rep P (writes_cost (arrays st) (writes st) + path_cost p) (tree st) h →
  ∃ st', conclude r st = (st', Ok r) ∧
    match last_staged (arrays st) (join_path p) (writes st) with
    | Some v => (StorageTree.Read p (tree st')).2 = Ok v
    | None =>
        match head (h (join_path p)) with
        | Some ver => (StorageTree.Read p (tree st')).2 = Ok (v_value ver)
        | None => is_err (StorageTree.Read p (tree st')).2 = true
        end
    end.
Proof.
  intros HP Hr Hc Hws Hp Hok Hrep. pose proof (path_cost_pos p) as Hcost.
  pose proof (conclude_commits P HP st (path_cost p) h r Hr Hc Hws ltac:(lia) Hrep) as Hcommit.
  pose proof (committed_head (arrays st) (writes st) (join_path p) (world st) h (changedPaths st)) as Hhead.
  destruct (committed _ _ _ _ _) as [[clock h'] changed]. destruct Hcommit as (st' & Hcon & Ht & _).
  exists st'. split; [exact Hcon|]. cbn in Hhead.
  rewrite <- (Z.add_0_r (path_cost p)) in Ht.
  destruct (Read_step P HP (tree st') 0 p h' Hp Hok ltac:(lia) Ht) as (t & x & -> & _ & Hx). cbn [snd].
  destruct (last_staged _ _ _) as [v|]; [|destruct (head (h (join_path p))) as [ver|]];
    destruct (head (h' (join_path p))) as [ver'|]; cbn in Hhead; try done; congruence.
Qed.

(** ** A commit on a new database *)

Definition demo_writes : list PendingWrite :=
  [mkPending (Own [b "a"; b "b"]) (text (b "x")) 7 false; mkPending (Own [b "z"]) (text (b "x")) 7 true;
   mkPending (Own [b "a"; b "b"]) (text (b "y")) 7 false].
Definition staged_demo : Demo := set_writes demo_writes fresh.
Lemma demo_writes_ok : Forall (write_ok demo_values (arrays staged_demo)) (writes staged_demo).
Proof.
  repeat apply Forall_cons_2; try apply Forall_nil_2; unfold write_ok, path_ok, demo_values;
    (split; [discriminate|]); refine (bool_decide_unpack _ _); vm_compute; exact Logic.I.
Qed.
Lemma demo_rep k : k ≤ 2 ^ 40 → tree_rep demo_values k (tree staged_demo) (λ _, []).
Proof. intros Hk. eapply tree_rep_weaken; [exact Hk|apply new_tree_rep]. Qed.

Lemma demo_coordinator : coordinator staged_demo = None.
Proof. reflexivity. Qed.
Lemma demo_cost : writes_cost (arrays staged_demo) (writes staged_demo) ≤ 2 ^ 40.
Proof. vm_compute. discriminate. Qed.
Lemma demo_read_cost :
  writes_cost (arrays staged_demo) (writes staged_demo) + path_cost [b "a"; b "b"] ≤ 2 ^ 40.
Proof. vm_compute. discriminate. Qed.
Lemma demo_path_ok : path_ok demo_values [b "a"; b "b"].
Proof. unfold path_ok, demo_values. refine (bool_decide_unpack _ _). vm_compute. exact Logic.I. Qed.

Lemma demo_changed : (committed (arrays staged_demo) 1 (writes staged_demo) (λ _, []) []).2 =
  [[b "a"; b "b"]; [b "a"; b "b"]].
Proof. vm_compute. reflexivity. Qed.

Lemma commit_pushes_the_writes_witness :
  let '(_, _, changed) := committed (arrays staged_demo) 1 (writes staged_demo) (λ _, []) [] in
  changed = [[b "a"; b "b"]; [b "a"; b "b"]] ∧
  ∃ st', conclude Nothing staged_demo = (st', Ok Nothing) ∧ changedPaths st' = changed ∧ writes st' = [].
Proof.
  pose proof (commit_pushes_the_writes demo_values staged_demo (λ _, []) Nothing demo_distinct eq_refl
    demo_coordinator demo_writes_ok (demo_rep _ demo_cost)) as Hc.
  change (world staged_demo) with 1 in Hc. change (changedPaths staged_demo) with (@nil (list bytes)) in Hc.
  pose proof demo_changed as Hch. destruct (committed _ _ _ _ _) as [[clock h'] changed]. split.
  - exact Hch.
  - destruct Hc as [(st' & H1 & _ & _ & H2 & H3) _]. exists st'. exact (conj H1 (conj H2 H3)).
Defined.

Lemma committed_writes_are_read_witness :
  ∃ st', conclude Nothing staged_demo = (st', Ok Nothing) ∧
    (StorageTree.Read [b "a"; b "b"] (tree st')).2 = Ok (text (b "y")).
Proof.
  destruct (committed_writes_are_read demo_values staged_demo (λ _, []) Nothing [b "a"; b "b"] demo_distinct
    eq_refl demo_coordinator demo_writes_ok) as (st' & H1 & H2);
    [discriminate|exact demo_path_ok|exact (demo_rep _ demo_read_cost)|].
  exists st'. split; [exact H1|].
  assert (E : last_staged (arrays staged_demo) (join_path [b "a"; b "b"]) (writes staged_demo) = Some (text (b "y")))
    by (vm_compute; reflexivity).
  rewrite E in H2. exact H2.
Defined.
