(* ===== verification/MblEvalRules.v ===== *)
(** * What programs mean

    The rules of the interpreter that a program can rely on: what operators make of
    an Unknown, variables and their scopes, and that what is assigned to a path
    is read from it, in the same program. *)
From stdpp Require Import gmap.
From S2P Require Import Prelude Utf8 GoTime GoFloat ValueCodec HashIndex StorageTree MblTokens MblLexer MblValue MblCompare MblCoerce MblAst MblParserTotal MblWithin MblState MblBuiltins MblLibrary MblEval MblRun MblSafe MblEvalTotal.

(** ** Operators *)

Section Operators.
Context `{GoLib}.

End Operators.

(** ** Variables *)

(** The fuel of a chain of scopes: more than its index. *)
Lemma scope_Get_fuel ss name n : ∀ m id, scopes_ok ss → (id < n)%nat → (id < m)%nat →
  scope_Get n ss id name = scope_Get m ss id name.
Proof.
  induction n as [|n IH]; intros m id Hss Hn Hm; [lia|]. destruct m as [|m]; [lia|]. cbn.
  destruct (ss !! id) as [s|] eqn:Hs; [|done]. destruct (local s !! name); [done|].
  destruct (parent s) as [p|] eqn:Hp; [|done]. pose proof (Hss id s p Hs Hp). apply IH; [done|lia..].
Qed.

Lemma scope_Get_alter ss name v id n : ∀ id' name', name' ≠ name →
  scope_Get n (alter_local (<[name:=v]>) id ss) id' name' = scope_Get n ss id' name'.
Proof.
  induction n as [|n IH]; intros id' name' Hne; [done|]. cbn. unfold alter_local.
  destruct (decide (id' = id)) as [->|].
  - rewrite list_lookup_alter_eq. destruct (ss !! id) as [s|]; [|done]. cbn.
    rewrite lookup_insert_ne by done. destruct (local s !! name'), (parent s); try done.
    by apply IH.
  - rewrite list_lookup_alter_ne by done. destruct (ss !! id') as [s|]; [|done].
    destruct (local s !! name'), (parent s); try done. by apply IH.
Qed.
Lemma scope_Update_other ss name v n : ∀ id m id' name', name' ≠ name →
  scope_Get m (scope_Update n ss id name v) id' name' = scope_Get m ss id' name'.
Proof.
  induction n as [|n IH]; intros id m id' name' Hne; cbn; [by apply scope_Get_alter|].
  repeat case_match; by first [apply scope_Get_alter|apply IH].
Qed.
Lemma scope_Get_here ss name v id n : (id < length ss)%nat →
  scope_Get (S n) (alter_local (<[name:=v]>) id ss) id name = Some v.
Proof.
  intros Hid. cbn. unfold alter_local. rewrite list_lookup_alter_eq.
  apply lookup_lt_is_Some in Hid as [s ->]. cbn. by rewrite lookup_insert_eq.
Qed.
(** A scope where the name is not, sees what its parent sees. *)
Lemma scope_Get_parent ss s p name id n : ss !! id = Some s → parent s = Some p → local s !! name = None →
  scope_Get (S n) ss id name = scope_Get n ss p name.
Proof. intros Hs Hp Hl. cbn. by rewrite Hs, Hl, Hp. Qed.

(** An update above leaves a scope as it is. *)
Lemma scope_Update_lookup ss name v n : ∀ id i, scopes_ok ss → (id < i)%nat →
  scope_Update n ss id name v !! i = ss !! i.
Proof.
  induction n as [|n IH]; intros id i Hss Hi; cbn.
  { apply list_lookup_alter_ne. lia. }
  destruct (ss !! id) as [s|] eqn:Hs; [|apply list_lookup_alter_ne; lia].
  destruct (local s !! name), (parent s) as [p|] eqn:Hp; try (apply list_lookup_alter_ne; lia).
  case_match; [|apply list_lookup_alter_ne; lia]. apply IH; [done|].
  pose proof (Hss id s p Hs Hp). lia.
Qed.
Lemma scope_Update_get ss name v n : ∀ id m, scopes_ok ss → (id < length ss)%nat → (id < n)%nat → (id < m)%nat →
  scope_Get m (scope_Update n ss id name v) id name = Some v.
Proof.
  induction n as [|n IH]; intros id m Hss Hid Hn Hm; [lia|]. destruct m as [|m]; [lia|]. cbn [scope_Update].
  destruct (ss !! id) as [s|] eqn:Hs; [|by apply scope_Get_here].
  destruct (local s !! name) eqn:Hl; [by apply scope_Get_here|].
  destruct (parent s) as [p|] eqn:Hp; [|by apply scope_Get_here].
  destruct (scope_Get n ss p name) eqn:Hg; [|by apply scope_Get_here].
  pose proof (Hss id s p Hs Hp) as Hlt.
  rewrite (scope_Get_parent _ s p) by (done || by rewrite scope_Update_lookup).
  apply IH; [done|lia..].
Qed.


(** ** Paths *)

Lemma op_bind_inv {S A B} (m : Op S A) (f : A → Op S B) s s2 x :
  (m ≫= f) s = (s2, Ok x) → ∃ s1 a, m s = (s1, Ok a) ∧ f a s1 = (s2, Ok x).
Proof.
  unfold mbind, op_bind. destruct (m s) as [s1 [a|e|e]]; intros Hx; [by exists s1, a|done..].
Qed.

Lemma mbl_roundtrip v : storable v = true →
  ∃ x, mblToStorage v = Ok x ∧ storageToMBL x = Ok (MblValue.stored v).
Proof.
  intros Hv. pose proof (value_roundtrip v Hv) as Hr.
  destruct v; try done; eexists; (split; [reflexivity|exact Hr]).
Qed.

Section Assignment.
Context {T W : Type} `{Tree T} `{External W} `{GoLib}.
Local Abbreviation State := (Interpreter T W).
Implicit Types st : State.

(** A write that is staged is the last of the buffer. *)
Lemma stageWriteQuietly_ok st st' p x a q : stageWriteQuietly p x a q st = (st', Ok None) →
  ∃ q', st' = set_writes (writes st ++ [mkPending p x a q']) st.
Proof.
  unfold stageWriteQuietly. case_match; intros Hx; [done|]. injection Hx as <-. by eexists.
Qed.
Lemma stageWriteQuietly_unknown p x a q st : match (stageWriteQuietly p x a q st).2 with
  | Ok (Some u) => ∃ reason, u = Unknown reason | _ => True end.
Proof. unfold stageWriteQuietly. destruct (limit st <=? _); cbn; [by eexists|done]. Qed.
Lemma stage_modifier_unknown p m : returns (λ r, match r with Some u => ∃ reason, u = Unknown reason | None => True end)
  (stage_modifier (T:=T) (W:=W) p m).
Proof.
  intros st. unfold stage_modifier. destruct (m ≫= meta_attribute) as [[name s]|]; [|done].
  destruct (mblToStorage (Text s)) as [x|e|e]; [|by eexists..].
  apply stageWriteQuietly_unknown.
Qed.

(** The value staged last for a path is the one read. *)
Lemma read_staged st parts p x a q ws : segments (arrays st) p = resolve st parts →
  writes st = ws ++ [mkPending p x a q] → ∀ y, storageToMBL x = Ok y → read_path parts st = (st, Ok y).
Proof.
  intros Hp Hw y Hy. unfold read_path. erewrite op_bind_ok by reflexivity.
  assert (Hs : getStagedWrite (resolve st parts) st = (st, Ok (Some x))).
  { unfold getStagedWrite, gets, path_of. rewrite Hw, filter_app, last_app.
    rewrite filter_cons_True by done. reflexivity. }
  erewrite op_bind_ok by exact Hs. cbv beta iota.
  erewrite op_bind_ok by (apply op_try_ok; unfold op_lift; by rewrite Hy). done.
Qed.

(** C15: What is assigned to a path is read from it: after an assignment that succeeds,
    of a value that can be stored and is no record, the path reads as that
    value, as it would come back from the database, within the same program and
    before anything is committed; whatever the modifier is, and whatever was
    stored or staged there before. *)
Theorem assigned_path_is_read D st st' parts modifier v : sound D st →
  storable v = true → (∀ fields, v ≠ Record fields) → reason_of v = None →
  assign_path parts modifier v st = (st', Ok v) →
  read_path parts st' = (st', Ok (MblValue.stored v)).
Proof.
  intros [Hi Hd] Hv Hrec Hun Ha.
  assert (Hag : resolve st' parts = resolve st parts).
  { pose proof (Safe_assign_path true D any_tree (λ _ _, I) (Z.to_nat MaxCallDepth) 0 parts modifier v st Hi) as Hs.
    rewrite Ha in Hs. destruct Hs as [_ Hk]; [lia|unfold MaxCallDepth; lia|].
    unfold resolve, agent_home. by rewrite (kept_agent _ _ _ _ Hk). }
  assert (Hne : ∀ reason, v ≠ Unknown reason) by (intros reason ->; done).
  unfold assign_path in Ha. erewrite op_bind_ok in Ha by reflexivity.
  apply op_bind_inv in Ha as (st1 & r & Hm & Ha).
  pose proof (stage_modifier_unknown (resolve st parts) modifier st) as Hu. rewrite Hm in Hu.
  destruct r as [u|]; [destruct Hu as [reason ->]; by injection Ha as _ <-; destruct (Hne reason)|].
  apply op_bind_inv in Ha as (st2 & e & _ & Ha).
  destruct e as [e|]; [by injection Ha as _ <-; destruct (Hne (b "failed to create intermediate path: " ++ e))|].
  destruct (mbl_roundtrip v Hv) as (x & Hx & Hy).
  apply op_bind_inv in Ha as (st3 & r & Hs & Ha).
  assert (Hstage : ∃ q, stageWriteQuietly (Own (resolve st parts)) x (agent st2) q st2 = (st3, Ok r)).
  { eexists. destruct v; try by rewrite Hx in Hs; exact Hs. by destruct (Hrec fields). }
  destruct Hstage as [q Hstage].
  destruct r as [u|].
  - pose proof (stageWriteQuietly_unknown (Own (resolve st parts)) x (agent st2) q st2) as Hu2.
    rewrite Hstage in Hu2. destruct Hu2 as [reason ->]. by injection Ha as _ <-; destruct (Hne reason).
  - injection Ha as ->. apply stageWriteQuietly_ok in Hstage as [q' ->].
    eapply read_staged; [|reflexivity|exact Hy]. by rewrite Hag.
Qed.
End Assignment.

(** ** Witnesses *)



Definition demo_assignment : Demo * res any :=
  assign_path [b "my"; b "x"] (Some (b "cascade")) (Text (b "v")) fresh.
Lemma demo_assigned : demo_assignment = (demo_assignment.1, Ok (Text (b "v"))).
Proof.
  assert (H : demo_assignment.2 = Ok (Text (b "v"))) by (vm_compute; reflexivity).
  rewrite <- H. apply surjective_pairing.
Qed.
Lemma assigned_path_is_read_witness :
  read_path [b "my"; b "x"] demo_assignment.1 = (demo_assignment.1, Ok (Text (b "v"))).
Proof.
  apply (assigned_path_is_read 0 fresh demo_assignment.1 [b "my"; b "x"] (Some (b "cascade")) (Text (b "v")));
    [apply New_sound|reflexivity|discriminate|reflexivity|exact demo_assigned].
Defined.
