(* ===== verification/MblEvalCases.v ===== *)
(** * Particular programs

    What the interpreter makes of programs that the language's documents, or the
    interpreter's own comments, describe: each is parsed and run on an empty
    database by the agent 7. *)
From stdpp Require Import gmap.
From S2P Require Import Prelude Utf8 GoTime GoFloat ValueCodec HashIndex StorageTree MblTokens MblValue MblAst MblParserTotal MblState MblBuiltins MblLibrary MblEval MblRun.

(** A program run: its result, what is stored under the agent's home, and the paths
    announced as changed. *)
Definition outcome_of (ls : list string) (names : list string) : res (bytes + any) * list (option any) * list (list bytes) :=
  let '(st, r) := run_lines ls fresh_log in
  (r, map (λ name, at_path st ["world"; "agent"; "7"; name]%string) names, changedPaths st).
Definition home (p : list string) : list bytes := map b ("world" :: "agent" :: "7" :: p)%string.
Definition number (n : Z) : any := Number (float_of_int n).
Definition value (v : any) : res (bytes + any) := Ok (inr v).
Definition unknown (s : string) : res (bytes + any) := value (Unknown (b s)).

(** ** Scopes *)


(** Reading a name in a scope moves a write that is already staged: [a] is written to
    [my.app.c]. *)
Example scoped_read_moves_a_write :
  let '(st, r) := run_lines ["my.app."; "a = 1"; "c"] fresh_log in
  at_path st ["world"; "agent"; "7"; "app"; "a"] = None ∧
  at_path st ["world"; "agent"; "7"; "app"; "c"] = Some (number 1).
Proof. vm_compute. split; reflexivity. Qed.

(** ** What is committed *)


(** The value of a name that is nowhere is one of them. *)
Example undefined_name_rolls_back :
  (outcome_of ["my.x = 1"; "y"] ["x"]).1 =
    (unknown "failed to read path [world agent 7 y]: path not found", [None]).
Proof. vm_compute. reflexivity. Qed.

(** The documented no-op is not one: it discards everything. *)
Example pass_rolls_back :
  (outcome_of ["my.x = 1"; "if 1 > 0:"; "    pass"] ["x"]).1 =
    (unknown "unsupported statement type: *parser.PassStatement", [None]).
Proof. vm_compute. reflexivity. Qed.

(** A value assigned to a path is lost if the program then assigns to a path under
    it: the nodes above are looked for in the database, not among the writes
    staged. *)
Example child_overwrites_staged_parent :
  (outcome_of ["my.a = 5"; "my.a.b = 1"] ["a"]).1 = (value (number 1), [Some (Record [])]).
Proof. vm_compute. reflexivity. Qed.
(** In two programs it is kept. *)
Example child_keeps_stored_parent :
  at_path (run_lines ["my.a.b = 1"] (run_lines ["my.a = 5"] fresh_log).1).1 ["world"; "agent"; "7"; "a"] =
    Some (number 5).
Proof. vm_compute. reflexivity. Qed.

(** ** Quiet assignments *)

(** A quiet assignment of a record is announced field by field, one of a number is
    not. *)
Example quiet_record_is_announced :
  home ["n"; "a"] ∈ (outcome_of ["my.n:(quietly) = {a: 1}"] []).2 ∧
  home ["n"] ∉ (outcome_of ["my.n:(quietly) = 1"] []).2.
Proof. refine (bool_decide_unpack _ _). vm_compute. exact Logic.I. Qed.

(** ** Breaks *)

(** A break in a procedure ends the loop of its caller: it is the value of the call. *)
Example break_leaves_the_procedure :
  (outcome_of ["procedure f():"; "    break"; "for i in [1, 2, 3]:"; "    my.n = i"; "    f()"] ["n"]).1 =
    (value Nothing, [Some (number 1)]).
Proof. vm_compute. reflexivity. Qed.
