(* ===== verification/MblPassword.v ===== *)
(** * Passwords hashed and verified (internal/mbl/interpreter/crypto.go)

    A password hashed by a program is verified with the hash and the salt of the
    record it was given, whatever is between the two calls. *)
From stdpp Require Import gmap.
From S2P Require Import Prelude GoHash Utf8 GoTime GoFloat MblTokens MblValue MblCompare MblCoerce MblAst MblState MblBuiltins MblLibrary MblEval MblRun.

Lemma hex_digit_value n : (n < 16)%nat → hex_value (default Byte.x00 (hex_digits !! n)) = Some (Z.of_nat n).
Proof. intros Hn. do 16 (destruct n as [|n]; [reflexivity|]). lia. Qed.
Lemma hex_roundtrip s : hex_decode (hex_encode s) = Some s.
Proof.
  induction s as [|x s IH]; [done|]. unfold hex_encode in *. cbn [map concat app].
  set (n := Z.to_nat (byte.unsigned x)).
  assert (Hn : (n < 256)%nat) by (pose proof (GoHash.byte_unsigned_range x); unfold n; lia).
  cbn [hex_decode app].
  assert (Hd : (n / 16 < 16)%nat) by (apply Nat.Div0.div_lt_upper_bound; lia).
  assert (Hm : (n mod 16 < 16)%nat) by (apply Nat.mod_upper_bound; lia).
  rewrite !hex_digit_value by done. cbn [mbind option_bind]. rewrite IH. cbn [mbind option_bind]. do 2 f_equal.
  transitivity (byte_of (byte.unsigned x)); [f_equal|apply byte.of_Z_unsigned].
  pose proof (Nat.div_mod_eq n 16). pose proof (GoHash.byte_unsigned_range x). subst n. lia.
Qed.

Section Passwords.
Context {T W : Type} `{External W} `{GoLib}.
Local Abbreviation State := (Interpreter T W).
(** Argon2 gives as many bytes as it is asked for, and so does the source of
    randomness. *)
Context (IDKey_length : ∀ password salt n, len (IDKey password salt n) = Z.max 0 n).
Context (Random_length : ∀ n w, match (ext_Random n w).2 with inr s => len s = Z.max 0 n | inl _ => True end).

(** C20: A password is verified with what hashing it gave, and another password
    exactly if Argon2 maps it to the same key under that salt: the hash and the
    salt survive their hexadecimal form, and neither is empty. *)
Theorem password_roundtrip (st st' st2 : State) password password' fields :
  evalHashPassword [Text password] st = (st', Ok (Record fields)) →
  ∃ hash salt key, fields = [(b "hash", Text hash); (b "salt", Text (hex_encode salt))] ∧
    key = IDKey password salt argon2KeyLen ∧
    evalVerifyPassword [Text password'; Text hash; Text (hex_encode salt)] st2 =
      (st2, Ok (Boolean (bool_decide (IDKey password' salt argon2KeyLen = key)))).
Proof.
  intros Hh. unfold evalHashPassword, text_argument in Hh. cbn [CoerceToText] in Hh.
  unfold mbind, op_bind, from_world in Hh. pose proof (Random_length argon2SaltLen (world st)) as Hr.
  destruct (ext_Random argon2SaltLen (world st)) as [w [e|salt]]; [done|]. cbn in Hr.
  injection Hh as <- <-. eexists _, salt, _. split_and!; [done..|].
  unfold evalVerifyPassword, text_argument. cbn [CoerceToText to_text].
  unfold verify. rewrite !hex_roundtrip.
  pose proof (IDKey_length password salt argon2KeyLen) as Hk.
  assert (Hne : ∀ s : bytes, 0 < len s → negb (bool_decide (s = [])) = true) by (by intros []).
  rewrite !Hne by (rewrite ?Hk, ?Hr; unfold argon2KeyLen, argon2SaltLen; lia).
  rewrite Hk. change (u32 (Z.max 0 argon2KeyLen)) with argon2KeyLen. done.
Qed.
End Passwords.

(** ** The demonstration library *)

Lemma demo_key_length password salt n : len (IDKey (GoLib := demo_lib) password salt n) = Z.max 0 n.
Proof.
  cbn. unfold len. rewrite length_take, !length_app, length_replicate. lia.
Qed.
Lemma demo_random_length n w :
  match (ext_Random (W := Z) n w).2 with inr s => len s = Z.max 0 n | inl _ => True end.
Proof. cbn. unfold len. rewrite length_le. lia. Qed.

Definition hashed_secret : list (bytes * any) :=
  match (evalHashPassword [Text (b "secret")] fresh).2 with Ok (Record fields) => fields | _ => [] end.
Lemma password_roundtrip_witness :
  ∃ hash salt key, hashed_secret = [(b "hash", Text hash); (b "salt", Text (hex_encode salt))] ∧
    key = IDKey (b "secret") salt argon2KeyLen ∧
    evalVerifyPassword [Text (b "Secret"); Text hash; Text (hex_encode salt)] fresh =
      (fresh, Ok (Boolean (bool_decide (IDKey (b "Secret") salt argon2KeyLen = key)))).
Proof.
  apply (password_roundtrip (W := Z) (H := demo_world) (H0 := demo_lib) demo_key_length demo_random_length fresh (set_world 2 fresh) fresh (b "secret") (b "Secret") hashed_secret).
  vm_compute. reflexivity.
Defined.
