(* ===== verification/MeshIdentity.v ===== *)
(** * Identities of agents (internal/identity/identity.go, bridge.go)

    The identity of a node, those it uses in other meshes over bridges, and the
    keys of the bridges.  Identities are values: the one field of a shared
    identity that is ever changed is the mesh name ([UpdateMeshName]).  Random
    bytes and the clock come from the world outside. *)
From stdpp Require Import gmap.
From S2P Require Import Prelude GoTime MblTokens MblPath MblValue MblAst MblState MblLibrary MblRun.

Record Identity := mkIdentity {
  ID : bytes; Type_of : AgentType; MeshName : bytes; Created : Timestamp; NodeID : bytes }.
#[global] Instance Timestamp_eq_dec : EqDecision Timestamp.
Proof. solve_decision. Defined.
#[global] Instance Identity_eq_dec : EqDecision Identity.
Proof. solve_decision. Defined.

Record IdentityManager := mkManager {
  nodeIdentity : option Identity;
  bridgeIdentities : gmap bytes Identity;
  meshName : bytes;
  nodeID : bytes }.

Record DerivedKey := mkKey { dk_MeshName : bytes; KeyMaterial : bytes; CreatedAt : Timestamp }.
Record BridgeIdentityManager := mkBridgeManager {
  primaryIdentity : Identity;
  bim_identities : gmap bytes Identity;
  identityKeys : gmap bytes DerivedKey }.

Definition NewIdentityManager (meshName nodeID : bytes) : IdentityManager := mkManager None ∅ meshName nodeID.
Definition NewBridgeIdentityManager (primary : Identity) : BridgeIdentityManager := mkBridgeManager primary ∅ ∅.

(** [time.Now().UTC()]. *)
Definition UTC (t : Timestamp) : Timestamp := mkTimestamp (unix_nano t) 0.

Section Managers.
Context {W : Type} `{External W}.

(** The world beside a state. *)
Definition beside {S A} (m : W → W * A) : Op (S * W) A := λ '(s, w), let '(w', r) := m w in ((s, w'), Ok r).
Definition random_bytes {S} (n : Z) (msg : string) : Op (S * W) bytes :=
  r ← beside (ext_Random n); match r with inl _ => op_err msg | inr s => mret s end.
Definition now_utc {S} : Op (S * W) Timestamp := t ← beside ext_Now; mret (UTC t).

Definition generateIdentityID {S} : Op (S * W) bytes :=
  s ← random_bytes 16 "failed to generate identity ID"; mret (hex_encode s).

Definition on_manager {S A} (f : S → S * A) : Op (S * W) A := λ '(s, w), let '(s', r) := f s in ((s', w), Ok r).

(** ** The identities of a node *)

Local Abbreviation M A := (Op (IdentityManager * W) A).
Definition im_get {A} (f : IdentityManager → A) : M A := on_manager (λ im, (im, f im)).

Definition GenerateNodeIdentity : M Identity :=
  id ← generateIdentityID;
  created ← now_utc;
  on_manager (λ im,
    let identity := mkIdentity id NodeAgent (meshName im) created (nodeID im) in
    (mkManager (Some identity) (bridgeIdentities im) (meshName im) (nodeID im), identity)).

Definition SetNodeIdentity (identity : Identity) : M unit :=
  if negb (bool_decide (Type_of identity = NodeAgent)) then op_err "node identity must be of type NodeAgent"
  else on_manager (λ im, (mkManager (Some identity) (bridgeIdentities im) (meshName im) (nodeID im), tt)).

Definition CreateBridgeIdentity (target : bytes) : M Identity :=
  existing ← im_get (λ im, bridgeIdentities im !! target);
  match existing with
  | Some identity => mret identity
  | None =>
      id ← op_wrap "failed to generate bridge identity ID" generateIdentityID;
      created ← now_utc;
      on_manager (λ im,
        let identity := mkIdentity id MobileAgent target created (nodeID im) in
        (mkManager (nodeIdentity im) (<[target := identity]> (bridgeIdentities im)) (meshName im) (nodeID im),
         identity))
  end.

Definition GetBridgeIdentity (im : IdentityManager) (mesh : bytes) : option Identity := bridgeIdentities im !! mesh.
Definition RemoveBridgeIdentity (mesh : bytes) : M unit :=
  on_manager (λ im, (mkManager (nodeIdentity im) (delete mesh (bridgeIdentities im)) (meshName im) (nodeID im), tt)).

Definition UpdateMeshName (name : bytes) : M unit := on_manager (λ im,
  (mkManager ((λ i, mkIdentity (ID i) (Type_of i) name (Created i) (NodeID i)) <$> nodeIdentity im)
     (bridgeIdentities im) name (nodeID im), tt)).

(** The mesh of a bridge identity with an ID. *)
Definition bridge_with_id (im : IdentityManager) (id : bytes) : option bytes :=
  fst <$> List.find (λ e, bool_decide (ID e.2 = id)) (map_to_list (bridgeIdentities im)).
Definition RemoveIdentity (id : bytes) : M unit :=
  im ← im_get (λ im, im);
  if bool_decide (ID <$> nodeIdentity im = Some id)
  then on_manager (λ im, (mkManager None (bridgeIdentities im) (meshName im) (nodeID im), tt))
  else match bridge_with_id im id with
       | Some mesh => RemoveBridgeIdentity mesh
       | None => op_err "identity not found"
       end.

(** ** Bridges to other meshes *)

Local Abbreviation B A := (Op (BridgeIdentityManager * W) A).
Definition bim_get {A} (f : BridgeIdentityManager → A) : B A := on_manager (λ bim, (bim, f bim)).

Definition generateBridgeID (target : bytes) : B bytes :=
  primary ← bim_get primaryIdentity;
  s ← random_bytes 4 "failed to generate random bytes";
  mret (b "bridge-" ++ take 8 (ID primary) ++ b "-" ++ target ++ b "-" ++ hex_encode s).

(** The key of a bridge: the first 32 bytes of the seed, filled up with zeros. *)
Definition key_material (primary mesh bridge : bytes) : bytes :=
  let seed := primary ++ b ":" ++ mesh ++ b ":" ++ bridge in
  take 32 seed ++ replicate (32 - length seed) Byte.x00.
Definition deriveKeyForMesh (mesh : bytes) (bridge : Identity) : B DerivedKey :=
  primary ← bim_get primaryIdentity;
  created ← now_utc;
  mret (mkKey mesh (key_material (ID primary) mesh (ID bridge)) created).

Definition bim_CreateBridgeIdentity (target : bytes) : B Identity :=
  existing ← bim_get (λ bim, bim_identities bim !! target);
  match existing with
  | Some identity => mret identity
  | None =>
      id ← op_wrap "failed to generate bridge ID" (generateBridgeID target);
      created ← now_utc;
      primary ← bim_get primaryIdentity;
      let identity := mkIdentity id MobileAgent target created (NodeID primary) in
      key ← op_wrap "failed to derive key for bridge" (deriveKeyForMesh target identity);
      on_manager (λ bim, (mkBridgeManager (primaryIdentity bim) (<[target := identity]> (bim_identities bim))
        (<[target := key]> (identityKeys bim)), identity))
  end.

Definition GetBridgeKey (bim : BridgeIdentityManager) (mesh : bytes) : option DerivedKey := identityKeys bim !! mesh.
Definition bim_RemoveBridgeIdentity (mesh : bytes) : B unit :=
  existing ← bim_get (λ bim, bim_identities bim !! mesh);
  match existing with
  | None => op_err "no bridge identity found for mesh"
  | Some _ => on_manager (λ bim, (mkBridgeManager (primaryIdentity bim) (delete mesh (bim_identities bim))
                (delete mesh (identityKeys bim)), tt))
  end.
Definition RefreshBridgeKey (mesh : bytes) : B unit :=
  existing ← bim_get (λ bim, bim_identities bim !! mesh);
  match existing with
  | None => op_err "no bridge identity found for mesh"
  | Some identity =>
      key ← op_wrap "failed to refresh key for mesh" (deriveKeyForMesh mesh identity);
      on_manager (λ bim, (mkBridgeManager (primaryIdentity bim) (bim_identities bim)
        (<[mesh := key]> (identityKeys bim)), tt))
  end.
End Managers.

Definition ValidateBridgeIdentity (bim : BridgeIdentityManager) (mesh : bytes) (identity : option Identity) : res unit :=
  match identity with
  | None => Err "identity cannot be nil"
  | Some i =>
      if negb (bool_decide (MeshName i = mesh)) then Err "identity mesh name does not match expected mesh"
      else if negb (bool_decide (Type_of i = MobileAgent)) then Err "bridge identities must be mobile agents"
      else if negb (bool_decide (NodeID i = NodeID (primaryIdentity bim))) then
        Err "bridge identity node ID does not match primary identity node ID"
      else Ok tt
  end.

(** ** Identities *)

Definition GetAgentHomePath (i : Identity) : bytes :=
  match Type_of i with
  | NodeAgent => b "world.node." ++ NodeID i
  | MobileAgent => b "world.agent." ++ ID i
  end.

Definition ValidateIdentity (identity : option Identity) : res unit :=
  match identity with
  | None => Err "identity cannot be nil"
  | Some i =>
      if bool_decide (ID i = []) then Err "identity ID cannot be empty"
      else if negb (IsValid (Type_of i)) then Err "invalid agent type"
      else if bool_decide (MeshName i = []) then Err "mesh name cannot be empty"
      else if SameInstant (Created i) zero_time then Err "created timestamp cannot be zero"
      else Ok tt
  end.

Definition IsConflict (id1 id2 : option Identity) : bool :=
  match id1, id2 with
  | Some i, Some j =>
      (bool_decide (ID i = ID j) && bool_decide (MeshName i = MeshName j)) ||
      (bool_decide (Type_of i = NodeAgent) && bool_decide (Type_of j = NodeAgent) &&
       bool_decide (NodeID i = NodeID j) && bool_decide (MeshName i = MeshName j))
  | _, _ => false
  end.

(** ** The keys of bridges *)

Lemma length_hex_encode s : length (hex_encode s) = (2 * length s)%nat.
Proof. unfold hex_encode. induction s as [|x s IH]; [done|]. cbn in *. lia. Qed.

(** Thirty-two bytes of ID leave no room for the rest of the seed. *)
Lemma key_material_primary primary mesh bridge : length primary = 32%nat → key_material primary mesh bridge = primary.
Proof.
  intros Hl. unfold key_material. rewrite <- Hl, take_app_length, !length_app, Hl.
  replace (32 - _)%nat with 0%nat by lia. apply app_nil_r.
Qed.

Section Keys.
Context {W : Type} `{External W}.
Implicit Types bim : BridgeIdentityManager.

(** Every bridge of the manager has the primary identity's ID for key. *)
Definition keys_are_primary bim : Prop :=
  ∀ mesh key, identityKeys bim !! mesh = Some key → KeyMaterial key = ID (primaryIdentity bim).

Lemma deriveKeyForMesh_eq mesh i bim w : deriveKeyForMesh (W:=W) mesh i (bim, w) =
  ((bim, (ext_Now w).1), Ok (mkKey mesh (key_material (ID (primaryIdentity bim)) mesh (ID i)) (UTC (ext_Now w).2))).
Proof.
  unfold deriveKeyForMesh, now_utc, bim_get, on_manager, beside, mbind, op_bind. by destruct (ext_Now w).
Qed.

Lemma CreateBridgeIdentity_key mesh bim w : length (ID (primaryIdentity bim)) = 32%nat → keys_are_primary bim →
  let '((bim', _), _) := bim_CreateBridgeIdentity mesh (bim, w) in
  primaryIdentity bim' = primaryIdentity bim ∧ keys_are_primary bim'.
Proof.
  intros Hl Hk. unfold bim_CreateBridgeIdentity, mbind, op_bind.
  unfold bim_get at 1, on_manager at 1. destruct (bim_identities bim !! mesh); [done|].
  unfold op_wrap at 1, generateBridgeID, random_bytes, beside, bim_get, on_manager, now_utc, mbind, op_bind.
  destruct (ext_Random 4 w) as [w1 [e|s]]; [done|]. cbv beta iota delta [mret op_ret wrap_res].
  unfold beside. destruct (ext_Now w1) as [w2 t]. cbv beta iota. unfold op_wrap.
  rewrite deriveKeyForMesh_eq. cbv beta iota delta [wrap_res]. split; [done|].
  intros mesh' key' Hm. cbn [identityKeys] in Hm. cbn [primaryIdentity].
  destruct (decide (mesh' = mesh)) as [->|].
  - rewrite lookup_insert_eq in Hm. injection Hm as <-. by apply key_material_primary.
  - rewrite lookup_insert_ne in Hm by done. by apply (Hk mesh').
Qed.

(** Bridges created one after the other, to any meshes. *)
Fixpoint create_bridges (meshes : list bytes) (bim : BridgeIdentityManager) (w : W) : BridgeIdentityManager :=
  match meshes with
  | [] => bim
  | mesh :: meshes => let '((bim, w), _) := bim_CreateBridgeIdentity mesh (bim, w) in create_bridges meshes bim w
  end.

Lemma create_bridges_keys meshes : ∀ bim w, length (ID (primaryIdentity bim)) = 32%nat → keys_are_primary bim →
  primaryIdentity (create_bridges meshes bim w) = primaryIdentity bim ∧ keys_are_primary (create_bridges meshes bim w).
Proof.
  induction meshes as [|mesh meshes IH]; intros bim w Hl Hk; [done|]. cbn.
  pose proof (CreateBridgeIdentity_key mesh bim w Hl Hk) as Hc.
  destruct (bim_CreateBridgeIdentity _ _) as [[bim' w'] r]. destruct Hc as [Hp Hk'].
  rewrite <- Hp. apply IH; [congruence|done].
Qed.

(** C0: The keys of bridges are not secret and not distinct: with an ID as
    [GenerateNodeIdentity] makes them, the key of every bridge, to whatever
    mesh, is the node's own public ID, since the seed the key is cut from begins
    with it and the ID alone fills the key. *)
Theorem bridge_keys_are_the_node_id meshes im im' w w' node mesh key :
  (∀ n w, match (ext_Random n w).2 with inr s => len s = Z.max 0 n | inl _ => True end) →
  GenerateNodeIdentity (im, w) = ((im', w'), Ok node) →
  identityKeys (create_bridges meshes (NewBridgeIdentityManager node) w') !! mesh = Some key →
  KeyMaterial key = ID node.
Proof.
  intros Hr Hg Hk.
  assert (Hl : length (ID node) = 32%nat).
  { unfold GenerateNodeIdentity, generateIdentityID, random_bytes, now_utc, on_manager, beside, mbind, op_bind in Hg.
    pose proof (Hr 16 w) as H16. destruct (ext_Random 16 w) as [w1 [e|s]]; [discriminate|].
    cbv beta iota delta [mret op_ret] in Hg. destruct (ext_Now w1). injection Hg as <- _ <-. cbn [ID].
    rewrite length_hex_encode. cbn in H16. unfold len in H16. lia. }
  destruct (create_bridges_keys meshes (NewBridgeIdentityManager node) w' Hl) as [Hp Hkeys];
    [intros m k Hm; cbn in Hm; by rewrite lookup_empty in Hm|].
  by rewrite (Hkeys mesh key Hk), Hp.
Qed.
End Keys.

Definition demo_node : (IdentityManager * Z) * res Identity := GenerateNodeIdentity (NewIdentityManager (b "mesh") (b "n1"), 1).
Lemma bridge_keys_are_the_node_id_witness :
  ∃ node key, demo_node.2 = Ok node ∧
    identityKeys (create_bridges [b "a"; b "b"] (NewBridgeIdentityManager node) 3) !! b "b" = Some key ∧
    KeyMaterial key = ID node.
Proof.
  destruct demo_node as [[im w] r] eqn:E.
  assert (Hw : w = 3) by (vm_compute in E; by injection E as _ <- _). subst w.
  destruct r as [node|e|e]; [|vm_compute in E; discriminate..].
  destruct (identityKeys (create_bridges [b "a"; b "b"] (NewBridgeIdentityManager node) 3) !! b "b") as [key|] eqn:Ek.
  - exists node, key. split; [done|]. split; [exact Ek|].
    eapply (bridge_keys_are_the_node_id [b "a"; b "b"]); [|exact E|exact Ek].
    intros n w. cbn. unfold len. rewrite length_le. lia.
  - exfalso. vm_compute in E. injection E as _ <-. vm_compute in Ek. discriminate.
Defined.
