(* ===== verification/MeshDirectory.v ===== *)
(** * Who has authority over a path (internal/directory/directory.go)

    The directory of a node maps paths to the node with write authority over
    them.  Nodes gossip their directories and merge what they hear, the later
    assignment winning.  A directory is a map; where the source iterates over it,
    the definition takes the entries in some order. *)
From stdpp Require Import gmap.
From S2P Require Import Prelude Utf8 GoTime StorageTree MblPath MeshIdentity.

Record DirectoryEntry := mkDirEntry { de_Path : bytes; Authority : Identity; de_Timestamp : Timestamp }.

(** A directory: path to entry. *)
Abbreviation Directory := (gmap bytes DirectoryEntry).
Definition NewDirectory : Directory := ∅.
Definition Directory_Set (path : bytes) (authority : Identity) (timestamp : Timestamp) (d : Directory) : Directory :=
  <[path := mkDirEntry path authority timestamp]> d.

(** The entry of a path is that of the path or of a node above it. *)
Definition covers (entryPath path : bytes) : bool :=
  starts_with path entryPath &&
  (bool_decide (path = entryPath) || starts_with (drop (length entryPath) path) [dot]).
Fixpoint longest_match (path : bytes) (entries : list (bytes * DirectoryEntry))
    (best : option DirectoryEntry) (bestLength : nat) : option DirectoryEntry :=
  match entries with
  | [] => best
  | (entryPath, entry) :: entries =>
      if covers entryPath path && (bestLength <? length entryPath)%nat
      then longest_match path entries (Some entry) (length entryPath)
      else longest_match path entries best bestLength
  end.
(** [Get], iterating over the entries in the order given. *)
Definition get_in (entries : list (bytes * DirectoryEntry)) (path : bytes) (d : Directory) : option (Identity * Timestamp) :=
  match d !! path with
  | Some entry => Some (Authority entry, de_Timestamp entry)
  | None => (λ entry, (Authority entry, de_Timestamp entry)) <$> longest_match path entries None 0
  end.
Definition Directory_Get (path : bytes) (d : Directory) : option (Identity * Timestamp) :=
  get_in (map_to_list d) path d.

Definition Directory_Delete (path : bytes) (d : Directory) : Directory := delete path d.
Definition Snapshot (d : Directory) : list DirectoryEntry := snd <$> map_to_list d.

Definition merge_entry (d : Directory) (incoming : DirectoryEntry) : Directory :=
  match d !! de_Path incoming with
  | None => <[de_Path incoming := incoming]> d
  | Some existing =>
      if After (de_Timestamp incoming) (de_Timestamp existing) then <[de_Path incoming := incoming]> d else d
  end.
Definition Merge (entries : list DirectoryEntry) (d : Directory) : Directory := foldl merge_entry d entries.
Definition Directory_Size (d : Directory) : nat := size d.

(** ** Looking up an authority *)

(** [p] is [q] or a node above it. *)
Definition ancestor (p q : bytes) : Prop := q = p ∨ ∃ rest, q = p ++ [dot] ++ rest.

Lemma starts_with_spec s p : starts_with s p = true ↔ ∃ rest, s = p ++ rest.
Proof.
  unfold starts_with. rewrite bool_decide_eq_true. split.
  - intros Hp. exists (drop (length p) s). rewrite <- Hp at 1. symmetry. apply take_drop.
  - intros [rest ->]. by rewrite take_app_length.
Qed.
Lemma covers_spec p q : covers p q = true ↔ ancestor p q.
Proof.
  unfold covers, ancestor. rewrite andb_true_iff, orb_true_iff, !starts_with_spec, bool_decide_eq_true. split.
  - intros [[rest ->] [Hp|[rest' Hr]]]; [by left|]. right. exists rest'. by rewrite drop_app_length in Hr; subst.
  - intros [->|[rest ->]].
    + split; [exists []; by rewrite app_nil_r|by left].
    + split; [by eexists|right]. exists rest. by rewrite drop_app_length.
Qed.
(** Two nodes above the same path are ordered by their lengths. *)
Lemma ancestor_length p p' q : ancestor p q → ancestor p' q → length p = length p' → p = p'.
Proof.
  intros Hp Hp' Hl. assert (∀ x, ancestor x q → x = take (length x) q) as Ht.
  { intros x [->|[r ->]]; [by rewrite firstn_all|by rewrite take_app_length]. }
  rewrite (Ht p), (Ht p') by done. by rewrite Hl.
Qed.

(** Whether an entry is the longest of those seen that cover the path. *)
Definition longest (path : bytes) (entries : list (bytes * DirectoryEntry)) (best : option DirectoryEntry) : Prop :=
  match best with
  | Some e => ∃ p, (p, e) ∈ entries ∧ ancestor p path ∧ p ≠ [] ∧
      ∀ q e', (q, e') ∈ entries → ancestor q path → (length q ≤ length p)%nat
  | None => ∀ q e', (q, e') ∈ entries → ancestor q path → q = []
  end.
Lemma longest_match_spec path entries : ∀ seen best n,
  longest path seen best → (∀ q e, (q, e) ∈ seen → ancestor q path → (length q ≤ n)%nat) →
  match best with Some e => ∃ p, (p, e) ∈ seen ∧ ancestor p path ∧ p ≠ [] ∧ length p = n | None => n = 0%nat end →
  longest path (seen ++ entries) (longest_match path entries best n).
Proof.
  induction entries as [|[p e] entries IH]; intros seen best n Hl Hn Hb; cbn [longest_match].
  { by rewrite app_nil_r. }
  rewrite cons_middle, app_assoc. destruct (covers p path && _) eqn:Hc.
  - apply andb_true_iff in Hc as [Hc%covers_spec Hlt%Nat.ltb_lt].
    assert (Hp : p ≠ []) by (intros ->; cbn in Hlt; lia). apply IH.
    + exists p. split_and!; [set_solver|done..|]. intros q e' [Hq|[= -> ->]%list_elem_of_singleton]%elem_of_app Ha; [|done].
      pose proof (Hn q e' Hq Ha). lia.
    + intros q e' [Hq|[= -> ->]%list_elem_of_singleton]%elem_of_app Ha; [|done]. pose proof (Hn q e' Hq Ha). lia.
    + exists p. split_and!; [set_solver|done..].
  - assert (Hle : ancestor p path → (length p ≤ n)%nat).
    { intros Ha%covers_spec. rewrite Ha in Hc. cbn in Hc. by apply Nat.ltb_ge in Hc. }
    apply IH.
    + destruct best as [e0|]; cbn in *.
      * destruct Hl as (p0 & Hp0 & Ha0 & Hne & Hmax), Hb as (p1 & Hp1 & Ha1 & _ & Hlen).
        exists p0. split_and!; [set_solver|done..|].
        intros q e' [Hq|[= -> ->]%list_elem_of_singleton]%elem_of_app Ha; [by eapply Hmax|].
        specialize (Hle Ha). specialize (Hmax _ _ Hp1 Ha1). lia.
      * intros q e' [Hq|[= -> ->]%list_elem_of_singleton]%elem_of_app Ha; [by eapply Hl|].
        specialize (Hle Ha). subst n. destruct p; [done|cbn in Hle; lia].
    + intros q e' [Hq|[= -> ->]%list_elem_of_singleton]%elem_of_app Ha; [by eapply Hn|by apply Hle].
    + destruct best as [e0|]; [|done]. destruct Hb as (p1 & Hp1 & ?). exists p1. split; [set_solver|done].
Qed.

(** C0: A lookup answers with the entry of the path itself or else of the nearest
    node above it that has one, whatever the order in which the map is
    iterated; it finds nothing exactly if no node at or above the path has an
    entry (the empty path counts for itself only). *)
Theorem get_finds_nearest_authority d path entries : entries ≡ₚ map_to_list d →
  get_in entries path d = Directory_Get path d ∧
  match Directory_Get path d with
  | Some (a, t) => ∃ p e, d !! p = Some e ∧ a = Authority e ∧ t = de_Timestamp e ∧ ancestor p path ∧
      ∀ q, is_Some (d !! q) → ancestor q path → (length q ≤ length p)%nat
  | None => ∀ q, is_Some (d !! q) → ancestor q path → q = [] ∧ path ≠ []
  end.
Proof.
  intros Hperm.
  assert (Hspec : ∀ es, es ≡ₚ map_to_list d → longest path (map_to_list d) (longest_match path es None 0)).
  { intros es Hes. pose proof (longest_match_spec path es [] None 0) as Hl. cbn in Hl.
    specialize (Hl ltac:(set_solver) ltac:(set_solver) eq_refl).
    destruct (longest_match path es None 0) as [e|]; cbn in *; setoid_rewrite <- Hes; done. }
  assert (Hin : ∀ p e, (p, e) ∈ map_to_list d ↔ d !! p = Some e) by (intros; apply elem_of_map_to_list).
  unfold Directory_Get, get_in. destruct (d !! path) as [e|] eqn:Hd.
  { split; [done|]. exists path, e. split_and!; [done..|by left|].
    intros q _ [->|[rest ->]]; [done|]. rewrite length_app. lia. }
  split.
  - f_equal. pose proof (Hspec entries Hperm) as H1. pose proof (Hspec (map_to_list d) (Permutation_refl _)) as H2.
    destruct (longest_match path entries None 0) as [e1|], (longest_match path (map_to_list d) None 0) as [e2|]; [..|done]; cbn in *.
    + destruct H1 as (p1 & Hp1 & Ha1 & _ & Hm1), H2 as (p2 & Hp2 & Ha2 & _ & Hm2).
      assert (p1 = p2) as ->. { apply (ancestor_length p1 p2 path); [done..|]. apply Nat.le_antisymm; eauto. }
      apply Hin in Hp1. apply Hin in Hp2. congruence.
    + destruct H1 as (p1 & Hp1 & Ha1 & Hne & _). by destruct Hne; eapply H2.
    + destruct H2 as (p2 & Hp2 & Ha2 & Hne & _). by destruct Hne; eapply H1.
  - specialize (Hspec (map_to_list d) (Permutation_refl _)). destruct (longest_match path (map_to_list d) None 0) as [e|]; cbn in *.
    + destruct Hspec as (p & Hp & Ha & _ & Hm). exists p, e. split_and!; [by apply Hin|done..|].
      intros q [e' Hq] Hqa. apply Hin in Hq. by eapply Hm.
    + intros q [e' Hq] Ha. pose proof (Hspec q e' ltac:(by apply Hin) Ha) as ->. split; [done|]. intros ->. congruence.
Qed.

(** ** Gossip *)

(** Entries are kept under their own path. *)
Definition well_keyed (d : Directory) : Prop := ∀ p e, d !! p = Some e → de_Path e = p.
(** No two assignments of a path have the same time. *)
Definition distinct_times (es : list DirectoryEntry) : Prop := ∀ e e', e ∈ es → e' ∈ es →
  de_Path e = de_Path e' → unix_nano (de_Timestamp e) = unix_nano (de_Timestamp e') → e = e'.

Lemma Directory_Set_well_keyed p a t d : well_keyed d → well_keyed (Directory_Set p a t d).
Proof.
  intros Hd q e He. unfold Directory_Set in He. apply lookup_insert_Some in He as [[<- <-]|[_ He]]; [done|by apply Hd].
Qed.
Lemma merge_entry_well_keyed d e : well_keyed d → well_keyed (merge_entry d e).
Proof.
  intros Hd. assert (well_keyed (<[de_Path e := e]> d)) as Hi.
  { intros q e' He. apply lookup_insert_Some in He as [[<- <-]|[_ He]]; [done|by apply Hd]. }
  unfold merge_entry. by repeat case_match.
Qed.
Lemma Merge_well_keyed es : ∀ d, well_keyed d → well_keyed (Merge es d).
Proof. induction es as [|e es IH]; intros d Hd; [done|]. by apply IH, merge_entry_well_keyed. Qed.

Lemma elem_of_Snapshot d e : well_keyed d → e ∈ Snapshot d ↔ d !! de_Path e = Some e.
Proof.
  intros Hd. unfold Snapshot. rewrite list_elem_of_fmap. split.
  - intros [[p e'] [-> Hp%elem_of_map_to_list]]. cbn. by rewrite (Hd p e').
  - intros He. exists (de_Path e, e). split; [done|]. by apply elem_of_map_to_list.
Qed.

(** The entry of a path is one of the assignments seen, and none is later. *)
Definition latest (es : list DirectoryEntry) (p : bytes) (r : option DirectoryEntry) : Prop :=
  match r with
  | Some e => e ∈ es ∧ de_Path e = p ∧
      ∀ e', e' ∈ es → de_Path e' = p → unix_nano (de_Timestamp e') ≤ unix_nano (de_Timestamp e)
  | None => ∀ e', e' ∈ es → de_Path e' ≠ p
  end.
Lemma latest_unique es p r r' : distinct_times es → latest es p r → latest es p r' → r = r'.
Proof.
  intros Hd. destruct r as [e|], r' as [e'|]; cbn; [| | |done].
  - intros (He & Hp & Hm) (He' & Hp' & Hm'). f_equal. apply Hd; [done..|congruence|].
    pose proof (Hm e' He' Hp'). pose proof (Hm' e He Hp). lia.
  - intros (He & Hp & _) Hn. by destruct (Hn e He).
  - intros Hn (He & Hp & _). by destruct (Hn e' He).
Qed.
Lemma latest_same_set es es' p r : (∀ e, e ∈ es ↔ e ∈ es') → latest es p r → latest es' p r.
Proof. intros Hs. destruct r as [e|]; cbn; by setoid_rewrite Hs. Qed.

Lemma merge_entry_latest d e seen p : latest seen p (d !! p) → latest (seen ++ [e]) p (merge_entry d e !! p).
Proof.
  intros Hl. unfold merge_entry.
  assert (Hother : p ≠ de_Path e → latest (seen ++ [e]) p (d !! p)).
  { intros Hne. destruct (d !! p) as [x|]; cbn in *.
    - destruct Hl as (Hx & Hp & Hm). split_and!; [set_solver|done|].
      intros e' [He'|E%list_elem_of_singleton]%elem_of_app Hp'; [by apply Hm|by subst].
    - intros e' [He'|E%list_elem_of_singleton]%elem_of_app; [by apply Hl|congruence]. }
  destruct (decide (p = de_Path e)) as [->|Hne].
  2:{ specialize (Hother Hne). destruct (d !! de_Path e); [case_match; [|done]|]; by rewrite lookup_insert_ne. }
  destruct (d !! de_Path e) as [x|] eqn:Hx; cbn in Hl.
  - destruct Hl as (Hin & Hp & Hm). unfold After. destruct (_ <? _) eqn:Ht.
    + rewrite lookup_insert_eq. cbn. split_and!; [set_solver|done|].
      intros e' [He'|E%list_elem_of_singleton]%elem_of_app Hp'; [|subst; lia]. specialize (Hm e' He' Hp'). lia.
    + rewrite Hx. cbn. split_and!; [set_solver|done|].
      intros e' [He'|E%list_elem_of_singleton]%elem_of_app Hp'; [by apply Hm|subst; lia].
  - rewrite lookup_insert_eq. cbn. split_and!; [set_solver|done|].
    intros e' [He'|E%list_elem_of_singleton]%elem_of_app Hp'; [by destruct (Hl e' He')|subst; lia].
Qed.
Lemma Merge_latest es p : ∀ d seen, latest seen p (d !! p) → latest (seen ++ es) p (Merge es d !! p).
Proof.
  induction es as [|e es IH]; intros d seen Hl; [by rewrite app_nil_r|].
  rewrite cons_middle, app_assoc. by apply IH, merge_entry_latest.
Qed.
Lemma Snapshot_latest d p : well_keyed d → latest (Snapshot d) p (d !! p).
Proof.
  intros Hd. destruct (d !! p) as [e|] eqn:He; cbn.
  - pose proof (Hd p e He) as <-. split_and!; [by apply elem_of_Snapshot|done|].
    intros e' He' Hp. apply elem_of_Snapshot in He'; [|done]. rewrite Hp in He'. assert (e' = e) as -> by congruence. done.
  - intros e' He' <-. apply elem_of_Snapshot in He'; [|done]. congruence.
Qed.

(** C0: Directories converge: two nodes that have seen the same assignments - those
    their directories began with and those merged from gossip, in any order, in
    any batches, any number of times - have the same directory, as long as no two
    assignments of a path have the same time. *)
Theorem directories_converge d d' es es' : well_keyed d → well_keyed d' →
  (∀ e, e ∈ Snapshot d ++ es ↔ e ∈ Snapshot d' ++ es') → distinct_times (Snapshot d ++ es) →
  Merge es d = Merge es' d'.
Proof.
  intros Hd Hd' Hs Ht. apply map_eq. intros p.
  apply (latest_unique (Snapshot d ++ es) p); [done|by apply Merge_latest, Snapshot_latest|].
  apply (latest_same_set (Snapshot d' ++ es')); [by symmetry|by apply Merge_latest, Snapshot_latest].
Qed.

(** ** What gossip does not settle *)

(** Two assignments with one time are never settled: each node keeps its own. *)
Lemma equal_times_stay_apart p a a' t :
  let d := Directory_Set p a t NewDirectory in
  let d' := Directory_Set p a' t NewDirectory in
  Merge (Snapshot d') d = d ∧ Merge (Snapshot d) d' = d'.
Proof.
  cbv zeta. unfold Snapshot, Directory_Set, NewDirectory. rewrite !insert_empty, !map_to_list_singleton. cbn.
  unfold merge_entry. cbn [de_Path]. rewrite !lookup_singleton_eq. cbn. unfold After. by rewrite Z.ltb_irrefl.
Qed.

(** An entry given up comes back with the next gossip of a node that still has it:
    a deletion leaves nothing behind that a merge could compare with. *)
Lemma deleted_entry_comes_back p e d d' : well_keyed d' → d' !! p = Some e →
  Merge (Snapshot d') (Directory_Delete p d) !! p = Some e.
Proof.
  intros Hk He.
  assert (Hl : latest (Snapshot d') p (Merge (Snapshot d') (Directory_Delete p d) !! p)).
  { assert (H0 : latest [] p (Directory_Delete p d !! p)) by (unfold Directory_Delete; rewrite lookup_delete_eq; cbn; set_solver).
    exact (Merge_latest _ _ _ _ H0). }
  assert (Hin : e ∈ Snapshot d') by (apply elem_of_Snapshot; [done|by rewrite (Hk p e He)]).
  destruct (Merge (Snapshot d') _ !! p) as [x|]; cbn in Hl; [|by destruct (Hl e Hin); apply Hk].
  destruct Hl as (Hx & Hp & _). apply elem_of_Snapshot in Hx; [|done]. rewrite Hp in Hx. congruence.
Qed.

(** ** Witnesses *)

Definition demo_identity (id : string) : Identity := mkIdentity (b id) NodeAgent (b "mesh") zero_time (b id).
Definition demo_directory : Directory :=
  Directory_Set (b "world") (demo_identity "n1") (of_micro 1)
    (Directory_Set (b "world.market") (demo_identity "n2") (of_micro 2) NewDirectory).
Lemma get_finds_nearest_authority_witness :
  Directory_Get (b "world.market.gold") demo_directory = Some (demo_identity "n2", of_micro 2) ∧
  get_in (reverse (map_to_list demo_directory)) (b "world.marketing") demo_directory =
    Directory_Get (b "world.marketing") demo_directory.
Proof.
  split; [vm_compute; reflexivity|].
  pose proof (get_finds_nearest_authority demo_directory (b "world.marketing") _ (reverse_Permutation _)) as [Ht _].
  exact Ht.
Defined.

Definition entry_1 : DirectoryEntry := mkDirEntry (b "world") (demo_identity "n1") (of_micro 1).
Definition entry_2 : DirectoryEntry := mkDirEntry (b "world") (demo_identity "n2") (of_micro 2).
Lemma directories_converge_witness :
  Merge [entry_1; entry_2] NewDirectory = Merge [entry_2; entry_1; entry_2] NewDirectory.
Proof.
  apply (directories_converge NewDirectory NewDirectory);
    [intros p e He; unfold NewDirectory in He; by rewrite lookup_empty in He..|intros e; cbn; set_solver|].
  intros e e' He He' _ Ht.
  change (e ∈ [entry_1; entry_2]) in He. change (e' ∈ [entry_1; entry_2]) in He'.
  rewrite !elem_of_cons in He, He'.
  destruct He as [->|[->|He]], He' as [->|[->|He']];
    first [reflexivity | by rewrite elem_of_nil in He | by rewrite elem_of_nil in He' | discriminate Ht].
Defined.
