(* ===== verification/HashRing.v ===== *)
(** * The consistent hash ring (internal/zone_deprecated/hashring.go)

    Which node has authority over a zone, and which nodes keep replicas of it: a
    node is put on the ring of 32-bit hashes at as many places as it has virtual
    nodes, a zone belongs to the first place at or after its own hash.  The
    commit coordinator asks the ring where a write belongs. *)
From stdpp Require Import gmap sorting.
From S2P Require Import Prelude GoHash Utf8 GoFloat MblTokens MblPath MblValue MblAst MblState MblLibrary.

(** Rates and shares are float64, by their bits. *)
Record LoadMetrics := mkMetrics {
  DataSize : Z; QueryRate : Z; WriteRate : Z; CPUUsage : Z; MemoryUsage : Z; LastUpdated : Z }.
Record Node := mkNode {
  n_Identity : bytes; Address : bytes; IsOnline : bool; ZoneCount : Z; Metrics : LoadMetrics }.
Record HashRing := mkRing {
  nodes : gmap bytes Node;
  virtualNodes : gmap Z bytes;
  sortedHashes : list Z;
  replicas : Z;
  vnodeCount : Z }.
Record ZoneAssignment := mkAssignment {
  ZoneID : bytes; PathPrefix : bytes; za_Authority : bytes; Replicas : list bytes; Hash : Z }.

Definition NewHashRing (replicas vnodeCount : Z) : HashRing := mkRing ∅ ∅ [] replicas vnodeCount.

(** ** Hashes *)

Definition hash32_of (s : bytes) : Z := unbe (take 4 (sha256 s)).
Definition hashVirtualNode (identity : bytes) (virtualIndex : Z) : Z :=
  hash32_of (identity ++ b ":" ++ format_int virtualIndex).
Definition hashZonePath (zonePath : bytes) : Z := hash32_of zonePath.
Definition generateZoneID (zonePath : bytes) : bytes := hex_encode (take 8 (sha256 zonePath)).

(** The hashes of a node's virtual nodes. *)
Definition node_hashes (hr : HashRing) (identity : bytes) : list Z :=
  hashVirtualNode identity <$> (Z.of_nat <$> seq 0 (Z.to_nat (vnodeCount hr))).

(** ** Nodes *)

Definition AddNode (identity address : bytes) : Op HashRing unit := λ hr,
  match nodes hr !! identity with
  | Some _ => (hr, Err "node already exists in ring")
  | None =>
      let node := mkNode identity address true 0 (mkMetrics 0 0 0 0 0 0) in
      let hashes := node_hashes hr identity in
      (mkRing (<[identity := node]> (nodes hr))
         (foldl (λ m hash, <[hash := identity]> m) (virtualNodes hr) hashes)
         (merge_sort Z.le (sortedHashes hr ++ hashes)) (replicas hr) (vnodeCount hr), Ok tt)
  end.

(** The hashes that stay on the ring, and the virtual nodes left. *)
Fixpoint remove_hashes (identity : bytes) (hashes : list Z) (vnodes : gmap Z bytes) : list Z * gmap Z bytes :=
  match hashes with
  | [] => ([], vnodes)
  | hash :: hashes =>
      if bool_decide (vnodes !! hash = Some identity)
      then remove_hashes identity hashes (delete hash vnodes)
      else let '(kept, vnodes) := remove_hashes identity hashes vnodes in (hash :: kept, vnodes)
  end.
Definition RemoveNode (identity : bytes) : Op HashRing unit := λ hr,
  match nodes hr !! identity with
  | None => (hr, Err "node does not exist in ring")
  | Some _ =>
      let '(hashes, vnodes) := remove_hashes identity (sortedHashes hr) (virtualNodes hr) in
      (mkRing (delete identity (nodes hr)) vnodes hashes (replicas hr) (vnodeCount hr), Ok tt)
  end.

Definition update_node (f : Node → Node) (identity : bytes) : Op HashRing unit := λ hr,
  match nodes hr !! identity with
  | None => (hr, Err "node not found")
  | Some node =>
      (mkRing (<[identity := f node]> (nodes hr)) (virtualNodes hr) (sortedHashes hr) (replicas hr) (vnodeCount hr), Ok tt)
  end.
Definition UpdateNodeStatus (identity : bytes) (isOnline : bool) : Op HashRing unit :=
  update_node (λ n, mkNode (n_Identity n) (Address n) isOnline (ZoneCount n) (Metrics n)) identity.
Definition UpdateNodeMetrics (identity : bytes) (metrics : LoadMetrics) : Op HashRing unit :=
  update_node (λ n, mkNode (n_Identity n) (Address n) (IsOnline n) (ZoneCount n) metrics) identity.

(** ** Zones *)

(** [sort.Search(len(hashes), hashes[i] >= x)]: the binary search of Go's library;
    the interval halves, so its length is enough fuel. *)
Fixpoint search_between (fuel : nat) (hashes : list Z) (x : Z) (i j : nat) : nat :=
  match fuel with
  | O => i
  | S fuel =>
      if (i <? j)%nat then
        let h := ((i + j) / 2)%nat in
        if default 0 (hashes !! h) <? x then search_between fuel hashes x (S h) j
        else search_between fuel hashes x i h
      else i
  end.
Definition Search (hashes : list Z) (x : Z) : nat := search_between (length hashes) hashes x 0 (length hashes).

Definition GetNodeForZone (zonePath : bytes) (hr : HashRing) : res bytes :=
  if bool_decide (sortedHashes hr = []) then Err "no nodes in hash ring" else
  let idx := Search (sortedHashes hr) (hashZonePath zonePath) in
  let idx := if (idx =? length (sortedHashes hr))%nat then 0%nat else idx in
  let virtualHash := default 0 (sortedHashes hr !! idx) in
  Ok (default [] (virtualNodes hr !! virtualHash)).

(** The loop that collects the replicas; [None]: it has not ended. *)
Fixpoint collect_replicas (fuel : nat) (hr : HashRing) (idx : nat) (found : list bytes) (seen : gset bytes) :
    option (res (list bytes)) :=
  if (len found <? replicas hr) && (size seen <? size (nodes hr))%nat then
    match fuel with
    | O => None
    | S fuel =>
        let idx := if (length (sortedHashes hr) <=? idx)%nat then 0%nat else idx in
        let nodeIdentity := default [] (virtualNodes hr !! default 0 (sortedHashes hr !! idx)) in
        if bool_decide (nodeIdentity ∈ seen) then collect_replicas fuel hr (S idx) found seen
        else match nodes hr !! nodeIdentity with
             | None => Some (Panic "nil pointer dereference")
             | Some node =>
                 if IsOnline node
                 then collect_replicas fuel hr (S idx) (found ++ [nodeIdentity]) ({[nodeIdentity]} ∪ seen)
                 else collect_replicas fuel hr (S idx) found seen
             end
    end
  else Some (Ok found).
Definition GetReplicaNodes (fuel : nat) (zonePath : bytes) (hr : HashRing) : option (res (list bytes)) :=
  if bool_decide (sortedHashes hr = []) then Some (Err "no nodes in hash ring")
  else collect_replicas fuel hr (Search (sortedHashes hr) (hashZonePath zonePath)) [] ∅.

Definition GetZoneAssignment (fuel : nat) (zonePath : bytes) (hr : HashRing) : option (res ZoneAssignment) :=
  match GetNodeForZone zonePath hr with
  | Err e => Some (Err e)
  | Panic e => Some (Panic e)
  | Ok authority =>
      found ← GetReplicaNodes fuel zonePath hr;
      Some match found with
      | Err e => Err e
      | Panic e => Panic e
      | Ok found =>
          let others := filter (λ replica, replica ≠ authority) found in
          if replicas hr - 1 <? len others then
            if replicas hr - 1 <? 0 then Panic "slice bounds out of range"
            else Ok (mkAssignment (generateZoneID zonePath) zonePath authority
                   (take (Z.to_nat (replicas hr - 1)) others) (hashZonePath zonePath))
          else Ok (mkAssignment (generateZoneID zonePath) zonePath authority others (hashZonePath zonePath))
      end
  end.

(** ** Load *)

Definition tenths (n : Z) : Z := fdiv (float_of_int n) (float_of_int 10).
(** Sums and products rounded one by one. *)
Definition calculateLoadScore (m : LoadMetrics) : Z :=
  fadd (fadd (fadd (fmul (tenths 3) (CPUUsage m)) (fmul (tenths 3) (MemoryUsage m)))
    (fmul (tenths 2) (fdiv (QueryRate m) (float_of_int 100))))
    (fmul (tenths 2) (fdiv (WriteRate m) (float_of_int 100))).
Fixpoint least_loaded (hr : HashRing) (candidates : list bytes) (lowest : Z) (best : bytes) : bytes :=
  match candidates with
  | [] => best
  | candidate :: candidates =>
      match nodes hr !! candidate with
      | None => least_loaded hr candidates lowest best
      | Some node =>
          if negb (IsOnline node) then least_loaded hr candidates lowest best
          else let load := calculateLoadScore (Metrics node) in
               if flt lowest (float_of_int 0) || flt load lowest
               then least_loaded hr candidates load candidate
               else least_loaded hr candidates lowest best
      end
  end.
Definition GetLoadBalancedNode (candidates : list bytes) (hr : HashRing) : res bytes :=
  if bool_decide (candidates = []) then Err "no candidate nodes provided"
  else match least_loaded hr candidates (float_of_int (-1)) [] with
       | [] => Err "no online nodes available from candidates"
       | best => Ok best
       end.

Definition GetRingSize (hr : HashRing) : nat := size (nodes hr).
Definition GetVirtualNodeCount (hr : HashRing) : nat := size (virtualNodes hr).
Definition GetReplicaCount (hr : HashRing) : Z := replicas hr.

(** ** The place of a zone *)

(** [h] is the place of [x] on the ring [S]: the first at or after it, around. *)
Definition owns (S : list Z) (x h : Z) : Prop := h ∈ S ∧
  ((x ≤ h ∧ ∀ h', h' ∈ S → x ≤ h' → h ≤ h') ∨ ((∀ h', h' ∈ S → h' < x) ∧ ∀ h', h' ∈ S → h ≤ h')).
Lemma owns_unique S x h h' : owns S x h → owns S x h' → h = h'.
Proof.
  intros [Hin Hh] [Hin' Hh'].
  destruct Hh as [[Hx Hm]|[Hx Hm]], Hh' as [[Hx' Hm']|[Hx' Hm']].
  - pose proof (Hm h' Hin' Hx'). pose proof (Hm' h Hin Hx). lia.
  - pose proof (Hx' h Hin). lia.
  - pose proof (Hx h' Hin'). lia.
  - pose proof (Hm h' Hin'). pose proof (Hm' h Hin). lia.
Qed.
(** The places that stay keep the zones they have. *)
Lemma owns_subset S S' x h : owns S x h → h ∈ S' → (∀ y, y ∈ S' → y ∈ S) → owns S' x h.
Proof.
  intros [_ [[Hx Hm]|[Hx Hm]]] Hh Hs; split; [done| |done|]; [left|right]; split; auto.
Qed.

Lemma sorted_lookup hashes m m' y y' : StronglySorted Z.le hashes →
  hashes !! m = Some y → hashes !! m' = Some y' → (m ≤ m')%nat → y ≤ y'.
Proof.
  intros Hs. revert m m'. induction Hs as [|z hashes Hs IH Hall]; intros m m' Hm Hm' Hle; [done|].
  destruct m as [|m], m' as [|m']; cbn in *; [|..|lia|].
  - assert (y = y') by congruence. lia.
  - injection Hm as ->. rewrite Forall_forall in Hall. apply Hall. by apply list_elem_of_lookup_2 in Hm'.
  - apply (IH m m'); [done|done|lia].
Qed.

Lemma search_between_spec hashes x fuel : ∀ i j, StronglySorted Z.le hashes → (i ≤ j ≤ length hashes)%nat →
  (j - i ≤ fuel)%nat →
  (∀ m y, hashes !! m = Some y → (m < i)%nat → y < x) → (∀ m y, hashes !! m = Some y → (j ≤ m)%nat → x ≤ y) →
  let k := search_between fuel hashes x i j in
  (k ≤ length hashes)%nat ∧ ∀ m y, hashes !! m = Some y → ((m < k)%nat → y < x) ∧ ((k ≤ m)%nat → x ≤ y).
Proof.
  induction fuel as [|fuel IH]; intros i j Hs Hij Hf Hlo Hhi; cbn [search_between].
  { assert (i = j) by lia. subst j. split; [lia|]. intros m y Hm. split; intros; [by eapply Hlo|by eapply Hhi]. }
  destruct (i <? j)%nat eqn:Hlt.
  2:{ apply Nat.ltb_ge in Hlt. assert (i = j) by lia. subst j. split; [lia|].
      intros m y Hm. split; intros; [by eapply Hlo|by eapply Hhi]. }
  apply Nat.ltb_lt in Hlt.
  set (h := ((i + j) / 2)%nat). assert (Hh : (i ≤ h < j)%nat).
  { subst h. split; [apply Nat.div_le_lower_bound; lia|apply Nat.Div0.div_lt_upper_bound; lia]. }
  destruct (lookup_lt_is_Some_2 hashes h) as [yh Hyh]; [lia|]. rewrite Hyh. cbn [default].
  pose proof (λ m m' y y', sorted_lookup hashes m m' y y' Hs) as Hord.
  unfold from_option, id. destruct (yh <? x) eqn:Hc; [apply Z.ltb_lt in Hc|apply Z.ltb_ge in Hc];
    apply IH; try done; try lia; intros m y Hm Hlm.
  - pose proof (Hord m h y yh Hm Hyh ltac:(lia)). lia.
  - pose proof (Hord h m yh y Hyh Hm ltac:(lia)). lia.
Qed.
Lemma Search_spec hashes x : StronglySorted Z.le hashes →
  (Search hashes x ≤ length hashes)%nat ∧
  ∀ m y, hashes !! m = Some y → ((m < Search hashes x)%nat → y < x) ∧ ((Search hashes x ≤ m)%nat → x ≤ y).
Proof.
  intros Hs. apply search_between_spec; [done|lia|lia|intros; lia|].
  intros m y Hm Hl. apply lookup_lt_Some in Hm. lia.
Qed.

Lemma owner_place hashes x : StronglySorted Z.le hashes → hashes ≠ [] →
  let idx := Search hashes x in
  let idx := if (idx =? length hashes)%nat then 0%nat else idx in
  ∃ h, hashes !! idx = Some h ∧ owns hashes x h.
Proof.
  intros Hs Hne. cbv zeta. destruct (Search_spec hashes x Hs) as [Hle Hk].
  pose proof (λ m m' y y', sorted_lookup hashes m m' y y' Hs) as Hord.
  destruct (_ =? _)%nat eqn:He.
  - apply Nat.eqb_eq in He. destruct hashes as [|h0 hashes]; [done|]. exists h0. split; [done|].
    split; [by left|]. right. split; intros h' [m Hm]%list_elem_of_lookup.
    + apply (Hk m h' Hm). apply lookup_lt_Some in Hm. lia.
    + apply (Hord 0%nat m h0 h'); [done|done|lia].
  - apply Nat.eqb_neq in He. destruct (lookup_lt_is_Some_2 hashes (Search hashes x)) as [h Hh]; [lia|].
    exists h. split; [done|]. split; [by apply list_elem_of_lookup; eexists|]. left.
    split; [by apply (Hk _ h Hh)|]. intros h' [m Hm]%list_elem_of_lookup Hx.
    apply (Hord (Search hashes x) m h h'); [done..|]. apply Nat.nlt_ge. intros Hlt.
    pose proof (proj1 (Hk m h' Hm) Hlt). lia.
Qed.

(** ** The ring as nodes come and go *)

(** The sorted hashes and the virtual nodes are those of the nodes, without
    collisions. *)
Record ring_ok (hr : HashRing) : Prop := {
  ring_sorted : StronglySorted Z.le (sortedHashes hr);
  ring_distinct : NoDup (sortedHashes hr);
  ring_hashes h : h ∈ sortedHashes hr ↔ is_Some (virtualNodes hr !! h);
  ring_nodes h id : virtualNodes hr !! h = Some id ↔ is_Some (nodes hr !! id) ∧ h ∈ node_hashes hr id }.
Definition no_collision (hr : HashRing) (identity : bytes) : Prop :=
  NoDup (node_hashes hr identity) ∧ ∀ h, h ∈ node_hashes hr identity → h ∉ sortedHashes hr.

Lemma NewHashRing_ok r v : ring_ok (NewHashRing r v).
Proof.
  split; cbn.
  - constructor.
  - constructor.
  - intros h. rewrite lookup_empty. split; [by intros ?%elem_of_nil|by intros []].
  - intros h id. rewrite !lookup_empty. split; [done|by intros [[] _]].
Qed.

Lemma insert_hashes_lookup (id : bytes) hashes (h : Z) : ∀ m : gmap Z bytes,
  foldl (λ m hash, <[hash := id]> m) m hashes !! h = if decide (h ∈ hashes) then Some id else m !! h.
Proof.
  induction hashes as [|h0 hashes IH]; intros m; cbn [foldl].
  { destruct (decide (h ∈ [])) as [Hh|]; [by apply elem_of_nil in Hh|done]. }
  rewrite IH. destruct (decide (h ∈ hashes)), (decide (h ∈ h0 :: hashes)) as [Hh|Hh]; [done|set_solver| |].
  - apply elem_of_cons in Hh as [->|]; [|done]. apply lookup_insert_eq.
  - apply lookup_insert_ne. set_solver.
Qed.

Lemma AddNode_ok id address hr : ring_ok hr → nodes hr !! id = None → no_collision hr id →
  ring_ok (AddNode id address hr).1.
Proof.
  intros [Hs Hd Hh Hn] Hnew [Hnd Hdis]. unfold AddNode. rewrite Hnew. cbn [fst].
  assert (Hperm : merge_sort Z.le (sortedHashes hr ++ node_hashes hr id) ≡ₚ sortedHashes hr ++ node_hashes hr id)
    by apply merge_sort_Permutation.
  split; cbn.
  - apply (StronglySorted_merge_sort Z.le _).
  - rewrite Hperm. apply NoDup_app. split_and!; [done| |done]. intros h Hin Hin'. by apply (Hdis h).
  - intros h. rewrite Hperm, elem_of_app, insert_hashes_lookup, Hh.
    destruct (decide (h ∈ node_hashes hr id)); [|naive_solver]. split; [by eexists|by right].
  - intros h id'. rewrite insert_hashes_lookup. change (node_hashes (mkRing _ _ _ _ _) id') with (node_hashes hr id').
    destruct (decide (h ∈ node_hashes hr id)) as [Hin|Hin].
    + split.
      * intros [= <-]. rewrite lookup_insert_eq. by split.
      * intros [Hid Hin']. destruct (decide (id' = id)) as [->|Hne]; [done|].
        rewrite lookup_insert_ne in Hid by done.
        destruct (Hdis h Hin). apply Hh. exists id'. by apply Hn.
    + rewrite Hn. destruct (decide (id' = id)) as [->|Hne].
      * rewrite Hnew. split; [by intros [[] _]|by intros [_ ?]].
      * by rewrite lookup_insert_ne by done.
Qed.

Lemma remove_hashes_spec id hashes : ∀ m, NoDup hashes → StronglySorted Z.le hashes →
  let '(kept, m') := remove_hashes id hashes m in
  NoDup kept ∧ StronglySorted Z.le kept ∧ (∀ h, h ∈ kept ↔ h ∈ hashes ∧ m !! h ≠ Some id) ∧
  ∀ h, m' !! h = if decide (h ∈ hashes ∧ m !! h = Some id) then None else m !! h.
Proof.
  induction hashes as [|h0 hashes IH]; intros m Hnd Hs; cbn [remove_hashes].
  { split_and!; [done..|set_solver|]. intros h. case_decide; set_solver. }
  apply NoDup_cons in Hnd as [Hnot Hnd]. apply StronglySorted_inv in Hs as [Hs Hall]. case_bool_decide as Hm.
  - specialize (IH (delete h0 m) Hnd Hs). destruct (remove_hashes id hashes (delete h0 m)) as [kept m'].
    destruct IH as (Hk1 & Hk2 & Hin & Hl). split_and!; [done..| |].
    + intros h. rewrite Hin. destruct (decide (h = h0)) as [->|Hne].
      * split; [by intros [? _]|by intros [_ []]].
      * rewrite lookup_delete_ne by done. set_solver.
    + intros h. rewrite Hl. destruct (decide (h = h0)) as [->|Hne].
      * rewrite lookup_delete_eq. destruct (decide (h0 ∈ h0 :: hashes ∧ _)) as [|Hf]; [by case_decide|].
        destruct Hf. split; [by left|done].
      * rewrite lookup_delete_ne by done. repeat case_decide; set_solver.
  - specialize (IH m Hnd Hs). destruct (remove_hashes id hashes m) as [kept m'].
    destruct IH as (Hk1 & Hk2 & Hin & Hl). split_and!.
    + apply NoDup_cons. split; [|done]. rewrite Hin. by intros [? _].
    + apply SSorted_cons; [done|]. apply Forall_forall. intros h [Hh _]%Hin. rewrite Forall_forall in Hall. by apply Hall.
    + intros h. rewrite !elem_of_cons, Hin. naive_solver.
    + intros h. rewrite Hl. repeat case_decide; set_solver.
Qed.

Lemma RemoveNode_ok id hr : ring_ok hr → is_Some (nodes hr !! id) →
  let hr' := (RemoveNode id hr).1 in
  ring_ok hr' ∧ (∀ h, h ∈ sortedHashes hr' ↔ h ∈ sortedHashes hr ∧ virtualNodes hr !! h ≠ Some id) ∧
  ∀ h, h ∈ sortedHashes hr' → virtualNodes hr' !! h = virtualNodes hr !! h.
Proof.
  intros [Hs Hd Hh Hn] [node Hid]. unfold RemoveNode. rewrite Hid.
  pose proof (remove_hashes_spec id (sortedHashes hr) (virtualNodes hr) Hd Hs) as Hr.
  destruct (remove_hashes id _ _) as [kept m']. destruct Hr as (Hk1 & Hk2 & Hin & Hl). cbn.
  assert (Hkeep : ∀ h, h ∈ kept → m' !! h = virtualNodes hr !! h).
  { intros h [_ Hne]%Hin. rewrite Hl. case_decide; naive_solver. }
  split_and!; [|done|done]. split; cbn; [done|done| |].
  - intros h. rewrite Hin, Hh, Hl. case_decide as Hc; [|rewrite Hh in Hc]; [split; [naive_solver|by intros []]|].
    split; [by intros [? _]|]. intros Hsome. split; [done|]. intros Hv. by destruct Hc.
  - intros h id'. change (node_hashes (mkRing _ _ _ _ _) id') with (node_hashes hr id'). rewrite Hl. split.
    + case_decide as Hc; [done|]. intros Hv. assert (id' ≠ id).
      { intros ->. destruct Hc. split; [apply Hh; by eexists|done]. }
      rewrite lookup_delete_ne by done. by apply Hn.
    + intros [Hsome Hnh]. destruct (decide (id' = id)) as [->|Hne].
      { rewrite lookup_delete_eq in Hsome. by destruct Hsome. }
      rewrite lookup_delete_ne in Hsome by done. assert (Hv : virtualNodes hr !! h = Some id') by by apply Hn.
      case_decide as Hc; [|done]. destruct Hc as [_ Hc]. congruence.
Qed.

Lemma GetNodeForZone_spec zone hr : ring_ok hr → sortedHashes hr ≠ [] →
  ∃ h id, owns (sortedHashes hr) (hashZonePath zone) h ∧ virtualNodes hr !! h = Some id ∧
    GetNodeForZone zone hr = Ok id.
Proof.
  intros [Hs _ Hh _] Hne. unfold GetNodeForZone. rewrite bool_decide_eq_false_2 by done.
  destruct (owner_place (sortedHashes hr) (hashZonePath zone) Hs Hne) as (h & Hl & Ho).
  destruct (proj1 (Hh h) (proj1 Ho)) as [id Hv]. exists h, id. split_and!; [done..|].
  cbv zeta in Hl |- *. rewrite Hl. change (default 0 (Some h)) with h. by rewrite Hv.
Qed.
Lemma GetNodeForZone_owner zone hr h id : ring_ok hr → owns (sortedHashes hr) (hashZonePath zone) h →
  virtualNodes hr !! h = Some id → GetNodeForZone zone hr = Ok id.
Proof.
  intros Hok Ho Hv. destruct (GetNodeForZone_spec zone hr Hok) as (h' & id' & Ho' & Hv' & ->).
  { intros He. destruct Ho as [Hin _]. rewrite He in Hin. by apply elem_of_nil in Hin. }
  pose proof (owns_unique _ _ _ _ Ho Ho') as ->. congruence.
Qed.

(** C0: The hashing is consistent: a node that joins takes over zones, and no zone
    moves between the nodes that were there; when a node leaves, the zones of
    the others stay where they are.  Both leave a ring without collisions if the
    hashes of the node that joins are new. *)
Theorem zones_move_to_or_from_the_node id hr : ring_ok hr →
  (∀ address, nodes hr !! id = None → no_collision hr id →
    let hr' := (AddNode id address hr).1 in
    ring_ok hr' ∧ ∀ zone, GetNodeForZone zone hr' = GetNodeForZone zone hr ∨ GetNodeForZone zone hr' = Ok id) ∧
  (is_Some (nodes hr !! id) →
    let hr' := (RemoveNode id hr).1 in
    ring_ok hr' ∧ ∀ zone id', GetNodeForZone zone hr = Ok id' → id' ≠ id → GetNodeForZone zone hr' = Ok id').
Proof.
  intros Hok. split.
  - intros address Hnew Hc. cbv zeta. pose proof (AddNode_ok id address hr Hok Hnew Hc) as Hok'. split; [done|].
    intros zone. destruct (decide (sortedHashes (AddNode id address hr).1 = [])) as [He|Hne].
    { left. unfold GetNodeForZone at 1. rewrite bool_decide_eq_true_2 by done. unfold AddNode in He. rewrite Hnew in He. cbn in He.
      pose proof (merge_sort_Permutation Z.le (sortedHashes hr ++ node_hashes hr id)) as Hp. rewrite He in Hp.
      apply Permutation_nil in Hp. apply app_eq_nil in Hp as [Hp _]. unfold GetNodeForZone. by rewrite bool_decide_eq_true_2. }
    destruct (GetNodeForZone_spec zone _ Hok' Hne) as (h & id' & Ho & Hv & ->).
    unfold AddNode in Ho, Hv. rewrite Hnew in Ho, Hv. cbn in Ho, Hv. rewrite insert_hashes_lookup in Hv.
    case_decide as Hin; [right; congruence|]. left. symmetry. apply (GetNodeForZone_owner zone hr h); [done| |done].
    eapply owns_subset; [exact Ho| |].
    + apply (ring_hashes _ Hok). by eexists.
    + intros y Hy. rewrite merge_sort_Permutation, elem_of_app. by left.
  - intros Hsome. cbv zeta. destruct (RemoveNode_ok id hr Hok Hsome) as (Hok' & Hin & Hkeep). split; [done|].
    intros zone id' Hz Hne.
    destruct (decide (sortedHashes hr = [])) as [He|Hnil].
    { unfold GetNodeForZone in Hz. by rewrite bool_decide_eq_true_2 in Hz. }
    destruct (GetNodeForZone_spec zone hr Hok Hnil) as (h & id'' & Ho & Hv & Hz'). assert (id'' = id') as -> by congruence.
    assert (Hh : h ∈ sortedHashes (RemoveNode id hr).1).
    { apply Hin. split; [apply Ho|]. rewrite Hv. by intros [= ->]. }
    apply (GetNodeForZone_owner zone _ h); [done| |by rewrite Hkeep].
    eapply owns_subset; [exact Ho|done|]. intros y Hy. apply Hin in Hy. apply Hy.
Qed.

(** ** Replicas *)

Definition online (hr : HashRing) : gset bytes := dom (filter (λ e, IsOnline e.2 = true) (nodes hr)).
Lemma elem_of_online hr id : id ∈ online hr ↔ ∃ n, nodes hr !! id = Some n ∧ IsOnline n = true.
Proof.
  unfold online. rewrite elem_of_dom. split.
  - intros [n Hn]. apply map_lookup_filter_Some in Hn. by exists n.
  - intros (n & Hn & Ho). exists n. by apply map_lookup_filter_Some.
Qed.
Lemma online_size hr : (size (online hr) ≤ size (nodes hr))%nat.
Proof.
  rewrite <- (size_dom (D := gset bytes)). apply subseteq_size. intros id (n & Hn & _)%elem_of_online.
  apply elem_of_dom. by eexists.
Qed.

(** What has been collected. *)
Definition collected (hr : HashRing) (found : list bytes) (seen : gset bytes) : Prop :=
  NoDup found ∧ seen = list_to_set found ∧ seen ⊆ online hr.
Lemma collected_len hr found seen : collected hr found seen → len found = Z.of_nat (size seen).
Proof. intros (Hnd & -> & _). unfold len. by rewrite size_list_to_set. Qed.
Lemma collected_size hr found seen : collected hr found seen → (size seen ≤ size (online hr))%nat.
Proof. intros (_ & _ & Hs). by apply subseteq_size. Qed.
Lemma collected_add hr found seen id : collected hr found seen → id ∉ seen → id ∈ online hr →
  collected hr (found ++ [id]) ({[id]} ∪ seen).
Proof.
  intros (Hnd & -> & Hs) Hnot Hon. split_and!.
  - apply NoDup_app. split_and!; [done|set_solver|apply NoDup_singleton].
  - rewrite list_to_set_app_L. set_solver.
  - set_solver.
Qed.

(** The place the loop is at. *)
Definition place (hr : HashRing) (idx : nat) : nat := if (length (sortedHashes hr) <=? idx)%nat then 0%nat else idx.
Lemma place_node hr idx : ring_ok hr → sortedHashes hr ≠ [] → (idx ≤ length (sortedHashes hr))%nat →
  (place hr idx < length (sortedHashes hr))%nat ∧ place hr idx = (idx mod length (sortedHashes hr))%nat ∧
  ∃ id n, virtualNodes hr !! default 0 (sortedHashes hr !! place hr idx) = Some id ∧ nodes hr !! id = Some n.
Proof.
  intros Hok Hne Hle. set (k := length (sortedHashes hr)) in *.
  assert (Hk : (0 < k)%nat) by (subst k; destruct (sortedHashes hr); [done|cbn; lia]).
  assert (Hp : (place hr idx < k)%nat ∧ place hr idx = (idx mod k)%nat).
  { unfold place. fold k. destruct (Nat.leb_spec k idx).
    - assert (idx = k) as -> by lia. by rewrite Nat.Div0.mod_same.
    - by rewrite Nat.mod_small. }
  destruct Hp as [Hp1 Hp2]. split_and!; [done..|].
  destruct (lookup_lt_is_Some_2 _ _ Hp1) as [h Hh]. rewrite Hh. change (default 0 (Some h)) with h.
  destruct (proj1 (ring_hashes _ Hok h)) as [id Hv]; [by eapply list_elem_of_lookup_2|].
  exists id. destruct (proj1 (ring_nodes _ Hok h id) Hv) as [[n Hn] _]. by exists n.
Qed.

Lemma collect_step hr fuel idx found seen id n : ring_ok hr →
  virtualNodes hr !! default 0 (sortedHashes hr !! place hr idx) = Some id → nodes hr !! id = Some n →
  len found < replicas hr → (size seen < size (nodes hr))%nat →
  collect_replicas (S fuel) hr idx found seen =
    if bool_decide (id ∈ seen) then collect_replicas fuel hr (S (place hr idx)) found seen
    else if IsOnline n then collect_replicas fuel hr (S (place hr idx)) (found ++ [id]) ({[id]} ∪ seen)
    else collect_replicas fuel hr (S (place hr idx)) found seen.
Proof.
  intros Hok Hv Hn Hr Hs. cbn [collect_replicas].
  rewrite (proj2 (Z.ltb_lt _ _) Hr), (proj2 (Nat.ltb_lt _ _) Hs). cbn [andb].
  change (if (length (sortedHashes hr) <=? idx)%nat then 0%nat else idx) with (place hr idx).
  rewrite Hv. change (default [] (Some id)) with id. by rewrite Hn.
Qed.

Lemma collect_hangs hr fuel : ring_ok hr → sortedHashes hr ≠ [] →
  Z.of_nat (size (online hr)) < replicas hr → (size (online hr) < size (nodes hr))%nat →
  ∀ idx found seen, (idx ≤ length (sortedHashes hr))%nat → collected hr found seen →
  collect_replicas fuel hr idx found seen = None.
Proof.
  intros Hok Hne Hr Hn. induction fuel as [|fuel IH]; intros idx found seen Hidx Hc;
    pose proof (collected_len _ _ _ Hc) as Hl; pose proof (collected_size _ _ _ Hc) as Hsz.
  { cbn [collect_replicas]. rewrite (proj2 (Z.ltb_lt (len found) _)), (proj2 (Nat.ltb_lt (size seen) _)) by lia. done. }
  destruct (place_node hr idx Hok Hne Hidx) as (Hp & _ & id & n & Hv & Hnode).
  rewrite (collect_step hr fuel idx found seen id n) by (done || lia).
  case_bool_decide as Hin; [apply IH; [lia|done]|].
  destruct (IsOnline n) eqn:Ho; apply IH; try lia; try done.
  apply collected_add; [done..|]. apply elem_of_online. by exists n.
Qed.
Lemma Search_le hr zone : ring_ok hr → (Search (sortedHashes hr) (hashZonePath zone) ≤ length (sortedHashes hr))%nat.
Proof. intros Hok. apply Search_spec, Hok. Qed.

(** The nodes still to be met are met within the next [m] places. *)
Definition ahead (hr : HashRing) (idx m : nat) (seen : gset bytes) : Prop := ∀ id, id ∈ online hr → id ∉ seen →
  ∃ k, (k < m)%nat ∧
    virtualNodes hr !! default 0 (sortedHashes hr !! ((idx + k) mod length (sortedHashes hr))%nat) = Some id.

Lemma collect_ends hr fuel : ring_ok hr → sortedHashes hr ≠ [] →
  (replicas hr ≤ Z.of_nat (size (online hr)) ∨ size (online hr) = size (nodes hr)) →
  ∀ idx found seen, (idx ≤ length (sortedHashes hr))%nat → collected hr found seen → ahead hr idx fuel seen →
  len found ≤ Z.max 0 (replicas hr) →
  ∃ found', collect_replicas fuel hr idx found seen = Some (Ok found') ∧ NoDup found' ∧
    list_to_set found' ⊆ online hr ∧ len found' = Z.min (Z.max 0 (replicas hr)) (Z.of_nat (size (online hr))).
Proof.
  intros Hok Hne Hen. induction fuel as [|fuel IH]; intros idx found seen Hidx Hc Hahead Hlen;
    pose proof (collected_len _ _ _ Hc) as Hl; pose proof (collected_size _ _ _ Hc) as Hsz; pose proof (online_size hr) as Hon.
  - assert (seen = online hr) as Hseen.
    { apply set_eq. intros id. split; [apply Hc|]. intros Hid. destruct (decide (id ∈ seen)) as [|Hnot]; [done|].
      destruct (Hahead id Hid Hnot) as (k & Hk & _). lia. }
    exists found. subst seen. cbn [collect_replicas].
    destruct (len found <? replicas hr) eqn:H1, (size (online hr) <? size (nodes hr))%nat eqn:H2; cbn [andb];
      rewrite ?Z.ltb_lt, ?Z.ltb_ge, ?Nat.ltb_lt, ?Nat.ltb_ge in *; [lia| | |];
      (split_and!; [done|apply Hc|destruct Hc as (_ & <- & ?); done|lia]).
  - destruct (len found <? replicas hr) eqn:H1; [destruct (size seen <? size (nodes hr))%nat eqn:H2|].
    + apply Z.ltb_lt in H1. apply Nat.ltb_lt in H2.
      destruct (place_node hr idx Hok Hne Hidx) as (Hp & Hmod & id & n & Hv & Hnode).
      rewrite (collect_step hr fuel idx found seen id n) by done.
      assert (Hnext : ∀ seen', seen ⊆ seen' → (id ∈ online hr → id ∈ seen') → ahead hr (S (place hr idx)) fuel seen').
      { intros seen' Hsub Hid id' Hid' Hnot'. destruct (Hahead id' Hid') as (k & Hk & Hvk); [set_solver|].
        destruct k as [|k].
        - rewrite Nat.add_0_r, <- Hmod, Hv in Hvk. injection Hvk as ->. set_solver.
        - exists k. split; [lia|]. rewrite Hmod. rewrite <- Hvk. do 3 f_equal.
          rewrite <- Nat.add_1_l, <- Nat.add_assoc, (Nat.add_comm 1), <- Nat.add_assoc, Nat.Div0.add_mod_idemp_l.
          f_equal. lia. }
      case_bool_decide as Hin; [apply IH; [lia|done|apply Hnext; set_solver|done]|].
      destruct (IsOnline n) eqn:Ho; (apply IH; [lia| |apply Hnext|]).
      * apply collected_add; [done..|]. apply elem_of_online. by exists n.
      * set_solver.
      * set_solver.
      * rewrite len_app. change (len [id]) with 1. lia.
      * done.
      * done.
      * intros (n' & Hn' & Ho')%elem_of_online. congruence.
      * done.
    + exists found. cbn [collect_replicas]. rewrite H1, H2. cbn [andb]. apply Nat.ltb_ge in H2. apply Z.ltb_lt in H1.
      split_and!; [done|apply Hc|destruct Hc as (_ & <- & ?); done|lia].
    + exists found. cbn [collect_replicas]. rewrite H1. cbn [andb]. apply Z.ltb_ge in H1.
      split_and!; [done|apply Hc|destruct Hc as (_ & <- & ?); done|lia].
Qed.

Lemma update_node_ok f id hr : ring_ok hr → ring_ok (update_node f id hr).1.
Proof.
  intros [Hs Hd Hh Hn]. unfold update_node. destruct (nodes hr !! id) as [n|] eqn:Hid; [|done].
  split; cbn; [done..|]. intros h id'. rewrite Hn.
  change (node_hashes (mkRing _ _ _ _ _) id') with (node_hashes hr id').
  destruct (decide (id' = id)) as [->|]; [|by rewrite lookup_insert_ne]. rewrite lookup_insert_eq, Hid.
  split; intros [_ ?]; (split; [by eexists|done]).
Qed.

(** C0: The search for replicas ends exactly if there are as many nodes online as
    replicas are wanted, or all nodes are online; then it finds that many
    different nodes, all online, within one round of the ring.  Otherwise - say
    two replicas are wanted, one of two nodes is offline - it goes round the
    ring forever, holding the ring's lock. *)
Theorem replica_search_ends_or_hangs hr zone : ring_ok hr → sortedHashes hr ≠ [] → 0 < vnodeCount hr →
  (replicas hr ≤ Z.of_nat (size (online hr)) ∨ size (online hr) = size (nodes hr) →
    ∀ fuel, (length (sortedHashes hr) ≤ fuel)%nat →
    ∃ found, GetReplicaNodes fuel zone hr = Some (Ok found) ∧ NoDup found ∧ list_to_set found ⊆ online hr ∧
      len found = Z.min (Z.max 0 (replicas hr)) (Z.of_nat (size (online hr)))) ∧
  (¬ (replicas hr ≤ Z.of_nat (size (online hr)) ∨ size (online hr) = size (nodes hr)) →
    ∀ fuel, GetReplicaNodes fuel zone hr = None).
Proof.
  intros Hok Hne Hv. pose proof (Search_le hr zone Hok) as Hle. pose proof (online_size hr) as Hon.
  assert (Hc : collected hr [] ∅) by (split_and!; [constructor|done|set_solver]).
  unfold GetReplicaNodes. rewrite bool_decide_eq_false_2 by done. split.
  - intros Hen fuel Hf. apply collect_ends; [done..| |rewrite len_nil; lia]. intros id Hid _.
    apply elem_of_online in Hid as (n & Hn & _).
    set (k := length (sortedHashes hr)) in *. set (i := Search _ _) in *.
    assert (Hvn : virtualNodes hr !! hashVirtualNode id 0 = Some id).
    { apply (ring_nodes _ Hok). split; [by eexists|]. unfold node_hashes. apply list_elem_of_fmap. exists 0. split; [done|].
      apply list_elem_of_fmap. exists 0%nat. split; [done|]. apply elem_of_seq. lia. }
    assert (Hin : hashVirtualNode id 0 ∈ sortedHashes hr) by (apply (ring_hashes _ Hok); by eexists).
    apply list_elem_of_lookup in Hin as [j Hj]. pose proof (lookup_lt_Some _ _ _ Hj) as Hjk. fold k in Hjk.
    exists (if decide (i ≤ j) then j - i else j + k - i)%nat. case_decide; (split; [lia|]).
    + replace (i + (j - i))%nat with j by lia. rewrite Nat.mod_small by done. by rewrite Hj.
    + replace (i + (j + k - i))%nat with (j + 1 * k)%nat by lia. rewrite Nat.Div0.mod_add, Nat.mod_small by done. by rewrite Hj.
  - intros Hnot fuel. apply collect_hangs; try done; lia.
Qed.

(** ** Particular rings *)

(** [na] and [nb] with a virtual node each, [nb] offline. *)
Definition add_nodes (ids : list string) (hr : HashRing) : HashRing :=
  foldl (λ hr id, (AddNode (b id) (b "host:1") hr).1) hr ids.
Definition no_collisionb (hr : HashRing) (id : bytes) : bool :=
  bool_decide (NoDup (node_hashes hr id)) && forallb (λ h, bool_decide (h ∉ sortedHashes hr)) (node_hashes hr id).
Lemma no_collisionb_spec hr id : no_collisionb hr id = true → no_collision hr id.
Proof.
  unfold no_collisionb. rewrite andb_true_iff, bool_decide_eq_true, forallb_forall. intros [Hd Hall]. split; [done|].
  intros h Hh. specialize (Hall h). rewrite bool_decide_eq_true in Hall. apply Hall. by apply list_elem_of_In.
Qed.
Definition two_nodes : HashRing := add_nodes ["na"; "nb"]%string (NewHashRing 2 1).
Definition one_offline : HashRing := (UpdateNodeStatus (b "nb") false two_nodes).1.
Lemma two_nodes_ok : ring_ok two_nodes.
Proof.
  unfold two_nodes, add_nodes. cbn [foldl].
  apply AddNode_ok; [apply AddNode_ok; [apply NewHashRing_ok|reflexivity|]|vm_compute; reflexivity|];
    apply no_collisionb_spec; vm_compute; reflexivity.
Qed.

Lemma replica_search_ends_or_hangs_witness :
  (∃ found, GetReplicaNodes 2 (b "/world") two_nodes = Some (Ok found) ∧ len found = 2) ∧
  ∀ fuel, GetReplicaNodes fuel (b "/world") one_offline = None.
Proof.
  assert (H1 : sortedHashes two_nodes ≠ []) by (intros He; vm_compute in He; discriminate).
  assert (H2 : sortedHashes one_offline ≠ []) by (intros He; vm_compute in He; discriminate).
  assert (Hon1 : size (online two_nodes) = 2%nat) by (vm_compute; reflexivity).
  assert (Hon2 : size (nodes two_nodes) = 2%nat) by (vm_compute; reflexivity).
  assert (Hlen : length (sortedHashes two_nodes) = 2%nat) by (vm_compute; reflexivity).
  assert (Hoff1 : size (online one_offline) = 1%nat) by (vm_compute; reflexivity).
  assert (Hoff2 : size (nodes one_offline) = 2%nat) by (vm_compute; reflexivity).
  assert (Hv : 0 < vnodeCount two_nodes) by (vm_compute; reflexivity).
  assert (Hv' : 0 < vnodeCount one_offline) by (vm_compute; reflexivity).
  assert (Hr : replicas one_offline = 2) by (vm_compute; reflexivity).
  assert (Hr' : replicas two_nodes = 2) by (vm_compute; reflexivity).
  split.
  - destruct (replica_search_ends_or_hangs two_nodes (b "/world") two_nodes_ok H1 Hv) as [Hends _].
    destruct (Hends (or_intror (eq_trans Hon1 (eq_sym Hon2))) 2%nat) as (found & Hf & _ & _ & Hl); [rewrite Hlen; apply le_n|].
    exists found. split; [exact Hf|]. rewrite Hl, Hon1, Hr'. reflexivity.
  - destruct (replica_search_ends_or_hangs one_offline (b "/world") (update_node_ok _ _ _ two_nodes_ok) H2 Hv') as [_ Hhang].
    apply Hhang. rewrite Hoff1, Hoff2, Hr. intros [Hf|Hf]; [by apply Hf|discriminate Hf].
Defined.

Lemma zones_move_to_or_from_the_node_witness :
  ring_ok (RemoveNode (b "nb") two_nodes).1 ∧
  ∀ zone id', GetNodeForZone zone two_nodes = Ok id' → id' ≠ b "nb" →
    GetNodeForZone zone (RemoveNode (b "nb") two_nodes).1 = Ok id'.
Proof.
  apply (proj2 (zones_move_to_or_from_the_node (b "nb") two_nodes two_nodes_ok)).
  assert (Hs : bool_decide (is_Some (nodes two_nodes !! b "nb")) = true) by (vm_compute; reflexivity).
  exact (proj1 (bool_decide_eq_true _) Hs).
Defined.

(** Two nodes whose virtual nodes have the same hash: when the second leaves, its
    place stays on the ring and belongs to nobody.  Every zone's authority is
    then the empty name, and the search for replicas panics. *)
Example collision_leaves_a_nameless_place :
  let hr := (RemoveNode (b "n138600") (add_nodes ["n32522"; "n138600"]%string (NewHashRing 2 1))).1 in
  sortedHashes hr = [0x100a8a8b] ∧ virtualNodes hr !! 0x100a8a8b = None ∧
  GetNodeForZone (b "/world") hr = Ok [] ∧
  GetReplicaNodes 1 (b "/world") hr = Some (Panic "nil pointer dereference").
Proof. vm_compute. split_and!; reflexivity. Qed.
