(* ===== verification/MeshSubscription.v ===== *)
(** * Who subscribes to what (internal/subscription/subscription.go)

    The paths a node subscribes to, with the node that has authority over each,
    and the nodes that subscribe to paths it has authority over itself. *)
From stdpp Require Import gmap.
From S2P Require Import Prelude GoTime MblPath MeshIdentity.

Record SubscriptionRegistry := mkRegistry {
  subscriptions : gmap bytes Identity;
  subscribers : gmap bytes (gmap bytes Identity) }.

Definition NewSubscriptionRegistry : SubscriptionRegistry := mkRegistry ∅ ∅.
Definition Subscribe (path : bytes) (authority : Identity) (sr : SubscriptionRegistry) : SubscriptionRegistry :=
  mkRegistry (<[path := authority]> (subscriptions sr)) (subscribers sr).
Definition Unsubscribe (path : bytes) (sr : SubscriptionRegistry) : SubscriptionRegistry :=
  mkRegistry (delete path (subscriptions sr)) (subscribers sr).
Definition AddSubscriber (path : bytes) (node : Identity) (sr : SubscriptionRegistry) : SubscriptionRegistry :=
  mkRegistry (subscriptions sr)
    (<[path := <[ID node := node]> (default ∅ (subscribers sr !! path))]> (subscribers sr)).
Definition RemoveSubscriber (path : bytes) (node : Identity) (sr : SubscriptionRegistry) : SubscriptionRegistry :=
  match subscribers sr !! path with
  | None => sr
  | Some m =>
      let m := delete (ID node) m in
      mkRegistry (subscriptions sr)
        (if bool_decide (size m = 0%nat) then delete path (subscribers sr) else <[path := m]> (subscribers sr))
  end.
Definition Subscribers (path : bytes) (sr : SubscriptionRegistry) : list Identity :=
  match subscribers sr !! path with None => [] | Some m => snd <$> map_to_list m end.
Definition Subscriptions (sr : SubscriptionRegistry) : list (bytes * Identity) := map_to_list (subscriptions sr).
Definition GetSubscriptionAuthority (path : bytes) (sr : SubscriptionRegistry) : option Identity := subscriptions sr !! path.
Definition IsSubscribed (path : bytes) (sr : SubscriptionRegistry) : bool := bool_decide (is_Some (subscriptions sr !! path)).
Definition HasSubscribers (path : bytes) (sr : SubscriptionRegistry) : bool :=
  match subscribers sr !! path with None => false | Some m => (0 <? size m)%nat end.
Definition SubscriptionCount (sr : SubscriptionRegistry) : nat := size (subscriptions sr).
Definition SubscriberCount (sr : SubscriptionRegistry) : nat :=
  foldl (λ n e, (n + size e.2)%nat) 0%nat (map_to_list (subscribers sr)).
Definition PathsWithSubscribers (sr : SubscriptionRegistry) : list bytes := fst <$> map_to_list (subscribers sr).

(** ** The registry as relations *)

(** The requests a registry answers to. *)
Inductive request :=
  | Req_Subscribe (path : bytes) (authority : Identity)
  | Req_Unsubscribe (path : bytes)
  | Req_Add (path : bytes) (node : Identity)
  | Req_Remove (path : bytes) (node : Identity).
Definition serve (r : request) : SubscriptionRegistry → SubscriptionRegistry :=
  match r with
  | Req_Subscribe path a => Subscribe path a
  | Req_Unsubscribe path => Unsubscribe path
  | Req_Add path node => AddSubscriber path node
  | Req_Remove path node => RemoveSubscriber path node
  end.
(** What they mean: which node, by its ID, subscribes to which path as what identity. *)
Definition meaning (r : request) (rel : gmap (bytes * bytes) Identity) : gmap (bytes * bytes) Identity :=
  match r with
  | Req_Add path node => <[(path, ID node) := node]> rel
  | Req_Remove path node => delete (path, ID node) rel
  | _ => rel
  end.

Record registry_rep (sr : SubscriptionRegistry) (rel : gmap (bytes * bytes) Identity) : Prop := {
  rep_rel path id : (default ∅ (subscribers sr !! path)) !! id = rel !! (path, id);
  rep_nonempty path m : subscribers sr !! path = Some m → m ≠ ∅ }.

Lemma serve_rep r sr rel : registry_rep sr rel → registry_rep (serve r sr) (meaning r rel).
Proof.
  intros [Hrel Hne]. destruct r as [path a|path|path node|path node]; [by split|by split|..]; cbn.
  - split; cbn.
    + intros p id. destruct (decide (p = path)) as [->|Hp].
      * rewrite lookup_insert_eq. cbn. destruct (decide (id = ID node)) as [->|Hid].
        -- by rewrite !lookup_insert_eq.
        -- rewrite !lookup_insert_ne by congruence. apply Hrel.
      * rewrite lookup_insert_ne by done. rewrite lookup_insert_ne by congruence. apply Hrel.
    + intros p m. destruct (decide (p = path)) as [->|Hp].
      * rewrite lookup_insert_eq. intros [= <-]. apply insert_non_empty.
      * rewrite lookup_insert_ne by done. apply Hne.
  - unfold RemoveSubscriber. destruct (subscribers sr !! path) as [m|] eqn:Hm.
    2:{ split; [|done]. intros p id. rewrite Hrel. destruct (decide ((p, id) = (path, ID node))) as [[= -> ->]|].
        - rewrite lookup_delete_eq, <- Hrel, Hm. apply lookup_empty.
        - by rewrite lookup_delete_ne. }
    assert (Hlk : ∀ p id, (if decide (p = path) then delete (ID node) m else default ∅ (subscribers sr !! p)) !! id =
      delete (path, ID node) rel !! (p, id)).
    { intros p id. destruct (decide (p = path)) as [->|Hp].
      - destruct (decide (id = ID node)) as [->|Hid]; [by rewrite !lookup_delete_eq|].
        rewrite !lookup_delete_ne by congruence. rewrite <- Hrel, Hm. done.
      - rewrite lookup_delete_ne by congruence. apply Hrel. }
    case_bool_decide as Hs; split; cbn.
    + intros p id. rewrite <- Hlk. case_decide as Hp; [subst p|by rewrite lookup_delete_ne].
      rewrite lookup_delete_eq. cbn. apply map_size_empty_inv in Hs. by rewrite Hs.
    + intros p m' Hp. destruct (decide (p = path)) as [->|]; [by rewrite lookup_delete_eq in Hp|].
      rewrite lookup_delete_ne in Hp by done. by eapply Hne.
    + intros p id. rewrite <- Hlk. case_decide as Hp; [subst p; by rewrite lookup_insert_eq|by rewrite lookup_insert_ne].
    + intros p m' Hp. destruct (decide (p = path)) as [->|].
      * rewrite lookup_insert_eq in Hp. injection Hp as <-. intros He. apply Hs. by rewrite He.
      * rewrite lookup_insert_ne in Hp by done. by eapply Hne.
Qed.

Lemma Subscribers_elem sr rel path node : registry_rep sr rel →
  node ∈ Subscribers path sr ↔ ∃ id, rel !! (path, id) = Some node.
Proof.
  intros [Hrel _]. unfold Subscribers. setoid_rewrite <- Hrel.
  destruct (subscribers sr !! path) as [m|]; cbn.
  - rewrite list_elem_of_fmap. split.
    + intros [[id n] [-> Hn%elem_of_map_to_list]]. by exists id.
    + intros [id Hid]. exists (id, node). split; [done|]. by apply elem_of_map_to_list.
  - split; [by intros ?%elem_of_nil|]. intros [id Hid]. by rewrite lookup_empty in Hid.
Qed.

(** C0: After any requests the registry answers as the relation of paths and
    subscribing nodes that they mean: the subscribers of a path are the nodes
    added and not removed since, a node is there at most once, [HasSubscribers]
    and [PathsWithSubscribers] say which paths have any - no empty entries
    stay behind - and subscriptions are none of its business. *)
Theorem registry_implements_relation requests path :
  let sr := foldl (λ sr r, serve r sr) NewSubscriptionRegistry requests in
  let rel := foldl (λ rel r, meaning r rel) ∅ requests in
  (∀ node, node ∈ Subscribers path sr ↔ ∃ id, rel !! (path, id) = Some node) ∧
  length (Subscribers path sr) = size (default ∅ (subscribers sr !! path)) ∧
  (HasSubscribers path sr = true ↔ ∃ id, is_Some (rel !! (path, id))) ∧
  (path ∈ PathsWithSubscribers sr ↔ ∃ id, is_Some (rel !! (path, id))).
Proof.
  cbv zeta.
  assert (Hgen : ∀ sr rel, registry_rep sr rel →
    registry_rep (foldl (λ sr r, serve r sr) sr requests) (foldl (λ rel r, meaning r rel) rel requests)).
  { induction requests as [|r requests IH]; intros sr rel Hr; [done|]. by apply IH, serve_rep. }
  specialize (Hgen NewSubscriptionRegistry ∅). cbn in Hgen.
  assert (Hr : registry_rep NewSubscriptionRegistry ∅).
  { split; cbn; [intros; rewrite !lookup_empty; apply lookup_empty|intros p m; by rewrite lookup_empty]. }
  specialize (Hgen Hr). clear Hr. set (sr := foldl _ NewSubscriptionRegistry _) in *. set (rel := foldl _ ∅ _) in *.
  assert (Hsome : (∃ id, is_Some (rel !! (path, id))) ↔ is_Some (subscribers sr !! path)).
  { setoid_rewrite <- (rep_rel _ _ Hgen). destruct (subscribers sr !! path) as [m|] eqn:Hm; cbn.
    - split; [by eexists|]. intros _. pose proof (rep_nonempty _ _ Hgen path m Hm) as Hne.
      destruct (map_choose m Hne) as (id & n & Hid). exists id. by eexists.
    - split; [|by intros []]. intros [id Hid]. rewrite lookup_empty in Hid. by destruct Hid. }
  split_and!.
  - intros node. by apply Subscribers_elem.
  - unfold Subscribers. destruct (subscribers sr !! path); cbn; [by rewrite length_fmap, length_map_to_list|done].
  - rewrite Hsome. unfold HasSubscribers. destruct (subscribers sr !! path) as [m|] eqn:Hm; [|split; [done|by intros []]].
    split; [by eexists|]. intros _. apply Nat.ltb_lt. pose proof (rep_nonempty _ _ Hgen path m Hm) as Hne.
    destruct (size m) eqn:Hs; [|lia]. by apply map_size_empty_inv in Hs.
  - rewrite Hsome. unfold PathsWithSubscribers. rewrite list_elem_of_fmap. split.
    + intros [[p m] [-> Hp%elem_of_map_to_list]]. by eexists.
    + intros [m Hm]. exists (path, m). split; [done|]. by apply elem_of_map_to_list.
Qed.
