(* ===== verification/MeshReplication.v ===== *)
(** * Replication between nodes (internal/mesh/replication.go)

    A node records the writes to paths it has authority over and pushes them to
    the nodes that subscribe; an older part of the same manager pushes the writes
    of a zone to its replicas over the network.  The directory, the registry of
    subscriptions and the ring, which the manager shares with others, are parts
    of its state here.  The network is the class [Network]; time is the world's. *)
From stdpp Require Import gmap.
From S2P Require Import Prelude Utf8 GoTime ValueCodec Wire MblPath MblState MeshIdentity MeshDirectory MeshSubscription HashRing.

(** Connecting to an address; sending a frame over the connection and what then
    comes back, [None] if the write fails. *)
Class Network (W : Type) := {
  net_dial : bytes → W → W * bool;
  net_talk : bytes → list byte → W → W * option (list byte) }.

Definition HEARTBEAT : Z := 0x36.
Definition ZONE_TRANSFER : Z := 0x3B.

(** A message put together from its fields, without the length and the checksum
    that [CreateMessage] fills in. *)
Definition literal_message (type sequence : Z) (payload : list byte) : Message :=
  mkMessage protocol_version type sequence 0 payload 0.

(** ** Data *)

Record ReplicaStatus := mkStatus {
  rs_NodeIdentity : bytes; LastAckTime : Timestamp; LastSyncAttempt : Timestamp;
  ConsecutiveFailures : Z; IsHealthy : bool; rs_PendingWrites : Z }.
Record AuthorityZone := mkAuthorityZone {
  az_ZoneID : bytes; az_PathPrefix : bytes; az_Replicas : list bytes; LastSync : Timestamp;
  WriteCount : Z; az_DataSize : Z; SyncStatus : gmap bytes ReplicaStatus }.
Record ReplicaZone := mkReplicaZone {
  rz_ZoneID : bytes; rz_PathPrefix : bytes; rz_Authority : bytes; LastReceived : Timestamp;
  rz_DataSize : Z; IsCurrent : bool }.
Record ZoneWrite := mkZoneWrite {
  zw_Path : list bytes; zw_Value : Value; zw_Author : Z; zw_Timestamp : Z; zw_ZoneID : bytes; zw_Attempts : Z }.
Record PendingPathWrite := mkPathWrite {
  pp_Path : list bytes; pp_Value : Value; pp_Author : Z; pp_Timestamp : Z;
  pp_Subscribers : list Identity; pp_Attempts : Z }.
Record SubscribedPath := mkSubscribedPath {
  sp_Path : list bytes; sp_Authority : Identity; sp_LastReceived : Timestamp; sp_IsCurrent : bool; sp_DataSize : Z }.
Record ReplicationData := mkReplicationData {
  rd_ZoneID : bytes; rd_PathPrefix : bytes; rd_Writes : list ZoneWrite; rd_DataSize : Z;
  rd_Timestamp : Z; rd_SourceNode : bytes }.
Record SubscriptionUpdateData := mkUpdate {
  su_Path : list bytes; su_Writes : list PendingPathWrite; su_Value : Value; su_Author : Z;
  su_Timestamp : Z; su_Authority : bytes }.

Record ReplicationManager := mkReplication {
  rm_nodeIdentity : bytes;
  rm_hashRing : HashRing;
  authorityZones : gmap bytes AuthorityZone;
  replicaZones : gmap bytes ReplicaZone;
  zoneWrites : gmap bytes (list ZoneWrite);
  pathDirectory : Directory;
  subscriptionReg : SubscriptionRegistry;
  nodeId : Identity;
  pendingPathWrites : gmap bytes (list PendingPathWrite);
  subscribedPaths : gmap bytes SubscribedPath }.

Definition NewReplicationManager (identity : bytes) (ring : HashRing) (dir : Directory) (reg : SubscriptionRegistry)
    (id : Identity) : ReplicationManager := mkReplication identity ring ∅ ∅ ∅ dir reg id ∅ ∅.

(** The manager with one field replaced. *)
Definition set_authorityZones x rm := mkReplication (rm_nodeIdentity rm) (rm_hashRing rm) x (replicaZones rm)
  (zoneWrites rm) (pathDirectory rm) (subscriptionReg rm) (nodeId rm) (pendingPathWrites rm) (subscribedPaths rm).
Definition set_replicaZones x rm := mkReplication (rm_nodeIdentity rm) (rm_hashRing rm) (authorityZones rm) x
  (zoneWrites rm) (pathDirectory rm) (subscriptionReg rm) (nodeId rm) (pendingPathWrites rm) (subscribedPaths rm).
Definition set_zoneWrites x rm := mkReplication (rm_nodeIdentity rm) (rm_hashRing rm) (authorityZones rm)
  (replicaZones rm) x (pathDirectory rm) (subscriptionReg rm) (nodeId rm) (pendingPathWrites rm) (subscribedPaths rm).
Definition set_subscriptionReg x rm := mkReplication (rm_nodeIdentity rm) (rm_hashRing rm) (authorityZones rm)
  (replicaZones rm) (zoneWrites rm) (pathDirectory rm) x (nodeId rm) (pendingPathWrites rm) (subscribedPaths rm).
Definition set_pendingPathWrites x rm := mkReplication (rm_nodeIdentity rm) (rm_hashRing rm) (authorityZones rm)
  (replicaZones rm) (zoneWrites rm) (pathDirectory rm) (subscriptionReg rm) (nodeId rm) x (subscribedPaths rm).
Definition set_subscribedPaths x rm := mkReplication (rm_nodeIdentity rm) (rm_hashRing rm) (authorityZones rm)
  (replicaZones rm) (zoneWrites rm) (pathDirectory rm) (subscriptionReg rm) (nodeId rm) (pendingPathWrites rm) x.

(** ** Zones *)

Definition new_status (replica : bytes) : ReplicaStatus := mkStatus replica zero_time zero_time 0 true 0.
Definition AddAuthorityZone (zoneID pathPrefix : bytes) (replicas : list bytes) (rm : ReplicationManager) : ReplicationManager :=
  let syncStatus := foldl (λ m replica, <[replica := new_status replica]> m) ∅ replicas in
  set_zoneWrites (<[zoneID := []]> (zoneWrites rm))
    (set_authorityZones
      (<[zoneID := mkAuthorityZone zoneID pathPrefix replicas zero_time 0 0 syncStatus]> (authorityZones rm)) rm).
Definition AddReplicaZone (zoneID pathPrefix authority : bytes) (rm : ReplicationManager) : ReplicationManager :=
  set_replicaZones (<[zoneID := mkReplicaZone zoneID pathPrefix authority zero_time 0 false]> (replicaZones rm)) rm.
Definition RemoveZone (zoneID : bytes) (rm : ReplicationManager) : ReplicationManager :=
  set_zoneWrites (delete zoneID (zoneWrites rm))
    (set_replicaZones (delete zoneID (replicaZones rm))
      (set_authorityZones (delete zoneID (authorityZones rm)) rm)).

(** The status of a replica of a zone changed, if there is one. *)
Definition on_status (f : ReplicaStatus → ReplicaStatus) (zoneID replica : bytes) (rm : ReplicationManager) : ReplicationManager :=
  set_authorityZones (alter (λ z, mkAuthorityZone (az_ZoneID z) (az_PathPrefix z) (az_Replicas z) (LastSync z)
    (WriteCount z) (az_DataSize z) (alter f replica (SyncStatus z))) zoneID (authorityZones rm)) rm.
Definition markReplicaUnhealthy : bytes → bytes → ReplicationManager → ReplicationManager := on_status (λ s,
  let failures := ConsecutiveFailures s + 1 in
  mkStatus (rs_NodeIdentity s) (LastAckTime s) (LastSyncAttempt s) failures
    (if 3 <=? failures then false else IsHealthy s) (rs_PendingWrites s)).
Definition markReplicaHealthy (now : Timestamp) : bytes → bytes → ReplicationManager → ReplicationManager := on_status (λ s,
  mkStatus (rs_NodeIdentity s) now (LastSyncAttempt s) 0 true (rs_PendingWrites s)).

(** One byte for each length, the numbers big-endian; the writes are not part of it. *)
Definition encodeReplicationData (d : ReplicationData) : list byte :=
  be 1 (len (rd_ZoneID d)) ++ rd_ZoneID d ++ be 1 (len (rd_PathPrefix d)) ++ rd_PathPrefix d ++
  be 8 (rd_Timestamp d) ++ be 8 (rd_DataSize d) ++ be 4 (len (rd_Writes d)) ++
  be 1 (len (rd_SourceNode d)) ++ rd_SourceNode d.
Definition decodeReplicationData (payload : list byte) : res ReplicationData :=
  if len payload <? 20 then Err "payload too short" else
  let zoneIDLen := unbe (take 1 payload) in
  let r := drop 1 payload in
  if len r <? zoneIDLen then Err "invalid zone ID length" else
  let zoneID := take (Z.to_nat zoneIDLen) r in
  let r := drop (Z.to_nat zoneIDLen) r in
  if len r <=? 0 then Err "missing path prefix" else
  let prefixLen := unbe (take 1 r) in
  let r := drop 1 r in
  if len r <? prefixLen then Err "invalid path prefix length" else
  let pathPrefix := take (Z.to_nat prefixLen) r in
  let r := drop (Z.to_nat prefixLen) r in
  if len r <? 8 then Err "missing timestamp" else
  let timestamp := i64 (unbe (take 8 r)) in
  let r := drop 8 r in
  if len r <? 8 then Err "missing data size" else
  Ok (mkReplicationData zoneID pathPrefix [] (i64 (unbe (take 8 r))) timestamp []).

(** A frame read from a connection that gives these bytes. *)
Definition readReplicationResponse (stream : list byte) : res Message :=
  if len stream <? 10 then Err "read header" else
  let payloadLength := unbe (take 4 (drop 6 stream)) in
  if len (drop 10 stream) <? payloadLength then Err "read payload" else
  if len (drop 10 stream) <? payloadLength + 4 then Err "read checksum" else
  DecodeMessage (take (10 + Z.to_nat payloadLength + 4) stream).

Record RState (T W : Type) := mkRState { r_manager : ReplicationManager; r_tree : T; r_world : W }.
Arguments mkRState {T W}.
Arguments r_manager {T W}.
Arguments r_tree {T W}.
Arguments r_world {T W}.

Section Manager.
Context {T W : Type} `{Tree T} `{External W} `{Network W}.
Local Abbreviation M A := (Op (RState T W) A).

Definition on_rm {A} (f : ReplicationManager → A) : M A := λ st, (st, Ok (f (r_manager st))).
Definition modify_rm (f : ReplicationManager → ReplicationManager) : M unit := λ st,
  (mkRState (f (r_manager st)) (r_tree st) (r_world st), Ok tt).
Definition on_world {A} (m : W → W * A) : M A := λ st,
  let '(w, a) := m (r_world st) in (mkRState (r_manager st) (r_tree st) w, Ok a).
Definition now : M Timestamp := on_world ext_Now.
(** [storageTree.Write]: the time of the write is the tree's clock. *)
Definition write_tree (p : list bytes) (v : Value) (author : Z) : M bool := λ st,
  let '(clock, t) := ext_Now (r_world st) in
  let '(tree, r) := tree_WriteReportingChange (UnixMicro t) p v author (r_tree st) in
  (mkRState (r_manager st) tree clock, r).

(** Whether a replica has taken the data. *)
Definition sendReplicationData (replica : bytes) (data : ReplicationData) : M bool :=
  rm ← on_rm (λ rm, rm);
  match nodes (rm_hashRing rm) !! replica with
  | None => mret false
  | Some node =>
      if negb (IsOnline node) then mret false else
      connected ← on_world (net_dial (Address node));
      if negb connected then modify_rm (markReplicaUnhealthy (rd_ZoneID data) replica);; mret false else
      t ← now;
      match EncodeMessage (literal_message ZONE_TRANSFER (u32 (Unix t)) (encodeReplicationData data)) with
      | Err _ | Panic _ => mret false
      | Ok frame =>
          answer ← on_world (net_talk (Address node) frame);
          match answer with
          | None => modify_rm (markReplicaUnhealthy (rd_ZoneID data) replica);; mret false
          | Some stream =>
              match readReplicationResponse stream with
              | Err _ | Panic _ => modify_rm (markReplicaUnhealthy (rd_ZoneID data) replica);; mret false
              | Ok response =>
                  if Type_ response =? ZONE_TRANSFER
                  then t ← now; modify_rm (markReplicaHealthy t (rd_ZoneID data) replica);; mret true
                  else mret false
              end
          end
      end
  end.

Fixpoint send_to_all (replicas : list bytes) (data : ReplicationData) (successCount : Z) : M Z :=
  match replicas with
  | [] => mret successCount
  | replica :: replicas =>
      ok ← sendReplicationData replica data;
      send_to_all replicas data (if ok : bool then successCount + 1 else successCount)
  end.
Fixpoint note_attempts (zoneID : bytes) (replicas : list bytes) : M unit :=
  match replicas with
  | [] => mret tt
  | replica :: replicas =>
      t ← now;
      modify_rm (on_status (λ s, mkStatus (rs_NodeIdentity s) (LastAckTime s) t (ConsecutiveFailures s) (IsHealthy s)
        (rs_PendingWrites s)) zoneID replica);;
      note_attempts zoneID replicas
  end.
Definition replicateZone (zone : AuthorityZone) : M unit :=
  rm ← on_rm (λ rm, rm);
  let writes := default [] (zoneWrites rm !! az_ZoneID zone) in
  if bool_decide (writes = []) then mret tt else
  t ← now;
  let data := mkReplicationData (az_ZoneID zone) (az_PathPrefix zone) writes (az_DataSize zone) (unix_nano t)
    (rm_nodeIdentity rm) in
  successCount ← send_to_all (az_Replicas zone) data 0;
  if 0 <? successCount then
    t ← now;
    modify_rm (λ rm, set_zoneWrites (alter (drop (length writes)) (az_ZoneID zone) (zoneWrites rm))
      (set_authorityZones (alter (λ z, mkAuthorityZone (az_ZoneID z) (az_PathPrefix z) (az_Replicas z) t
        (WriteCount z) (az_DataSize z) (SyncStatus z)) (az_ZoneID zone) (authorityZones rm)) rm));;
    note_attempts (az_ZoneID zone) (az_Replicas zone)
  else mret tt.
(** The zones in the order the map is iterated. *)
Fixpoint replicate_zones (zones : list AuthorityZone) : M unit :=
  match zones with [] => mret tt | zone :: zones => replicateZone zone;; replicate_zones zones end.
Definition processZoneReplication : M unit :=
  zones ← on_rm (λ rm, snd <$> map_to_list (authorityZones rm)); replicate_zones zones.

Fixpoint apply_writes (writes : list ZoneWrite) : M unit :=
  match writes with
  | [] => mret tt
  | w :: writes =>
      op_wrap "failed to apply write to path" (write_tree (zw_Path w) (zw_Value w) (zw_Author w));; apply_writes writes
  end.
Definition HandleReplicationRequest (data : list byte) : M unit :=
  d ← op_lift (wrap_res "failed to decode replication data" (decodeReplicationData data));
  zone ← on_rm (λ rm, replicaZones rm !! rd_ZoneID d);
  match zone with
  | None => op_err "not a replica for zone"
  | Some z =>
      apply_writes (rd_Writes d);;
      t ← now;
      modify_rm (λ rm, set_replicaZones (<[rd_ZoneID d := mkReplicaZone (rz_ZoneID z) (rz_PathPrefix z)
        (rz_Authority z) t (rd_DataSize d) true]> (replicaZones rm)) rm)
  end.

(** ** Paths *)

Definition pathToString (p : list bytes) : bytes := Join p [Byte.x2e].
Definition stringToPath (s : bytes) : list bytes := if bool_decide (s = []) then [] else [s].

(** A write kept for the subscribers of its path, if this node has authority. *)
Definition RecordPathWrite (path : list bytes) (v : Value) (author : Z) : M unit :=
  rm ← on_rm (λ rm, rm);
  let pathStr := pathToString path in
  match Directory_Get pathStr (pathDirectory rm) with
  | None => op_err "node is not authority for path"
  | Some (authority, _) =>
      if negb (bool_decide (ID authority = ID (nodeId rm))) then op_err "node is not authority for path" else
      let subs := Subscribers pathStr (subscriptionReg rm) in
      if bool_decide (subs = []) then mret tt else
      t ← now;
      modify_rm (λ rm, set_pendingPathWrites
        (<[pathStr := default [] (pendingPathWrites rm !! pathStr) ++
             [mkPathWrite path v author (unix_nano t) subs 0]]> (pendingPathWrites rm)) rm)
  end.
Definition RecordWrite (path : list bytes) (v : Value) (author : Z) (zoneID : bytes) : M unit := RecordPathWrite path v author.

(** [sendWriteToAuthority] and [sendSubscriptionRequest] send nothing yet. *)
Definition sendWriteToAuthority (authority : Identity) (path : list bytes) (v : Value) (author : Z) : M unit := mret tt.
Definition sendSubscriptionRequest (authority : Identity) (pathStr : bytes) : M unit := mret tt.

Definition ForwardWriteToAuthority (path : list bytes) (v : Value) (author : Z) : M unit :=
  rm ← on_rm (λ rm, rm);
  match Directory_Get (pathToString path) (pathDirectory rm) with
  | None => op_err "no authority found for path"
  | Some (authority, _) =>
      if bool_decide (ID authority = ID (nodeId rm)) then RecordPathWrite path v author
      else sendWriteToAuthority authority path v author
  end.

Definition RequestSubscription (pathStr : bytes) : M unit :=
  rm ← on_rm (λ rm, rm);
  match Directory_Get pathStr (pathDirectory rm) with
  | None => op_err "no authority found for path"
  | Some (authority, _) =>
      if bool_decide (ID authority = ID (nodeId rm)) then mret tt
      else if bool_decide (is_Some (subscribedPaths rm !! pathStr)) then mret tt
      else
        modify_rm (λ rm, set_subscriptionReg (Subscribe pathStr authority (subscriptionReg rm))
          (set_subscribedPaths (<[pathStr := mkSubscribedPath (stringToPath pathStr) authority zero_time false 0]>
            (subscribedPaths rm)) rm));;
        sendSubscriptionRequest authority pathStr
  end.

Definition encodeSubscriptionUpdate (d : SubscriptionUpdateData) : list byte :=
  b "SUB_UPDATE:" ++ pathToString (su_Path d) ++ b ":" ++ format_int (su_Timestamp d) ++ b ":" ++ su_Authority d.
(** What is received is not looked at. *)
Definition decodeSubscriptionUpdate (payload : list byte) : M SubscriptionUpdateData :=
  t ← now; mret (mkUpdate [b "placeholder"] [] (mkValue Byte.x00 []) 0 (unix_nano t) (b "placeholder")).

Definition HandleSubscriptionUpdate (data : list byte) : M unit :=
  d ← decodeSubscriptionUpdate data;
  let pathStr := pathToString (su_Path d) in
  subscribed ← on_rm (λ rm, subscribedPaths rm !! pathStr);
  match subscribed with
  | None => op_err "not subscribed to path"
  | Some s =>
      op_wrap "failed to apply write to path" (write_tree (su_Path d) (su_Value d) (su_Author d));;
      t ← now;
      modify_rm (λ rm, set_subscribedPaths (<[pathStr := mkSubscribedPath (sp_Path s) (sp_Authority s) t true
        (sp_DataSize s)]> (subscribedPaths rm)) rm)
  end.

(** The message is put together and not sent; the answer is that it was. *)
Definition sendSubscriptionUpdate (subscriber : Identity) (d : SubscriptionUpdateData) : M bool :=
  t ← now;
  let updateMsg := literal_message HEARTBEAT (u32 (Unix t)) (encodeSubscriptionUpdate d) in
  mret true.
Fixpoint send_updates (targets : list Identity) (d : SubscriptionUpdateData) (successCount : Z) : M Z :=
  match targets with
  | [] => mret successCount
  | subscriber :: targets =>
      ok ← sendSubscriptionUpdate subscriber d;
      send_updates targets d (if ok : bool then successCount + 1 else successCount)
  end.
Definition replicatePathWrites (pathStr : bytes) (writes : list PendingPathWrite) : M unit :=
  match writes with
  | [] => mret tt
  | w :: _ =>
      t ← now;
      id ← on_rm nodeId;
      let d := mkUpdate (pp_Path w) writes (mkValue Byte.x00 []) 0 (unix_nano t) (ID id) in
      successCount ← send_updates (concat (pp_Subscribers <$> writes)) d 0;
      if 0 <? successCount
      then modify_rm (λ rm, set_pendingPathWrites (alter (drop (length writes)) pathStr (pendingPathWrites rm)) rm)
      else mret tt
  end.
Fixpoint replicate_paths (pathWrites : list (bytes * list PendingPathWrite)) : M unit :=
  match pathWrites with
  | [] => mret tt
  | (pathStr, writes) :: pathWrites => replicatePathWrites pathStr writes;; replicate_paths pathWrites
  end.
Definition processSubscriptionReplication : M unit :=
  pathWrites ← on_rm (λ rm, map_to_list (pendingPathWrites rm)); replicate_paths pathWrites.
Definition processReplicationRound : M unit := processSubscriptionReplication.
End Manager.

Definition GetReplicationStats (rm : ReplicationManager) : nat * nat * nat :=
  (size (subscribedPaths rm),
   foldl (λ n e, (n + length e.2)%nat) 0%nat (map_to_list (pendingPathWrites rm)),
   length (filter (λ e, sp_IsCurrent e.2 = true) (map_to_list (subscribedPaths rm)))).
